(* ===== verification/_CoqProject ===== *)
-Q . S2P
Prelude.v
Status.v
ByteIO.v
Checksum.v
Hashing.v
Utf8.v
BitReader.v
Hexdump.v
OrdMap.v
Frame.v
Crc16.v
Locality.v
StreamState.v
Control.v
Transform.v
Reassembler.v
Fragments.v
Delivery.v
StreamDecoder.v
FrameIntegrity.v
Interleave.v
Transport.v
MiniPages.v
MiniRecord.v
Journal.v
MiniOpen.v
Btree.v
Overflow.v
MiniViews.v
BinRecord.v
BinPack.v
Integrity.v
BinViews.v
Stateful.v
CfgNumber.v
CfgLexer.v
CfgParser.v
CfgEval.v
CfgSerializer.v
CfgFlatten.v
CfgQuery.v
CfgLookup.v
CfgTokens.v
CfgGrammar.v
CfgLexical.v
CfgSemantics.v
CfgRoundtrip.v
TextOut.v
StreamSummary.v
MiniSummary.v
BinSummary.v
CfgSummary.v
Bwdump.v
Fuzz.v
