(* ===== verification/Prelude.v ===== *)
(** * A verification of bytewright

    bytewright is a C++17 toolkit of decoders for four structured formats over a
    shared core. This development models its libraries in Rocq, function by function,
    and proves what makes them correct. Each file below names the sources it models;
    a definition carries the name of the function it translates.

    ** The program and its files

    The core, [src/common]:
    - [Prelude] (this file): bytes as integers below 256, machine integers as [Z] with
      their wrap-around written out ([u8] ... [u64], [i64]), tactics, bit arithmetic,
      and the decimal text of [std::to_string].
    - [Status]: [ErrorCode], [ParseError] and [outcome], the result of a piece of C++
      code: [Ok] a value, [Throw] a [ParseError], [UB] for an access outside its buffer
      or another undefined operation, [NoFuel] when a loop bound of the model runs out.
      Raw accesses are [UB] outside their range, so that a theorem excluding [UB] is a
      memory safety theorem, and one excluding [NoFuel] is a termination theorem.
    - [ByteIO] (byte_reader.cpp, byte_writer.cpp), [Checksum], [Hashing], [Utf8],
      [BitReader], [Hexdump]: one file per source file of the same name. [ByteIO] also
      holds the reader monad [Rd] and its triples, which every binary decoder uses.
    - [OrdMap]: the ascending iteration of [std::map], over finite maps.

    streamcodec, [src/streamcodec]: [Frame] (frame.cpp, encoder.cpp, frame_reader.cpp),
    [StreamState], [Control], [Transform], [Reassembler], [Delivery] (one source file
    each), and [StreamDecoder] (decoder.cpp), which chains the reader of [Frame], the
    table of [StreamState] and the [Reassembler]. [Fragments] relates the encoder of
    [Frame] to the [Reassembler], one message at a time, [Interleave] to the whole
    decoder, many messages at a time, and [Transport] both to [Delivery], from the sender
    of messages to their release in order. [Crc16] holds the algebra of the header
    checksum, [Locality] which bytes the readers of [Frame] depend on, and
    [FrameIntegrity] relates both to the walk of [StreamDecoder] over the frames.

    minidb, [src/minidb]: [MiniPages] (header.cpp, pages.cpp), [MiniRecord] (strings.cpp,
    record.cpp), [Journal] (journal.cpp), [MiniOpen] (minidb.cpp: the four stages chained),
    and three views: [Btree] (btree.cpp), [Overflow] (overflow.cpp), [MiniViews]
    (cursor.cpp, catalog.cpp).

    binpack, [src/binpack]: [BinRecord] (record_parser.cpp and the record half of
    builder.cpp), [BinPack] (parser.cpp and the container half of builder.cpp),
    [BinViews] (visitor.cpp, validate.cpp, query.cpp). [Integrity] relates [BinPack] to
    [Checksum].

    cfgscript, [src/cfgscript]: [Stateful] (a state-and-outcome monad and the interface
    [Progress] its triples are proved against), [CfgNumber] (the two number types and
    their text), [CfgLexer] (lexer.cpp, token.cpp), [CfgParser] (parser.cpp, ast.hpp),
    [CfgEval] (value.cpp, environment.hpp, evaluator.cpp and the driver of document.cpp),
    [CfgSerializer], [CfgFlatten] (flatten.cpp), [CfgQuery] (query.cpp, schema.cpp).
    [CfgGrammar] states the grammar as inductive relations and relates [CfgParser] to it,
    [CfgLexical] does the same for white space, comments and tokens and [CfgLexer], and
    [CfgSemantics] for values, scopes and documents and [CfgEval].
    [CfgLookup] relates [CfgFlatten] to [CfgQuery]; [CfgTokens] and [CfgRoundtrip] relate
    [CfgSerializer] to [CfgLexer], [CfgParser] and [CfgEval].

    The text dumps and the tool: [TextOut] (lines of printable text, and ["%g"]),
    [StreamSummary], [MiniSummary], [BinSummary] and [CfgSummary] (the [summarize] of
    each library, and the projected rows and the catalog text of minidb), and [Bwdump]
    ([tools/bwdump.cpp]), which chains reading a file, decoding it and printing the dump;
    the file system is a parameter of it. [Fuzz] holds the four harnesses of [src/fuzz].

    ** How state and operations are modelled

    A C++ object is a [Record], an operation a function from the old state to an
    [outcome] of a result and the new state, composed the way the code composes them.
    A [std::vector] is a list, a [std::map] or [std::unordered_map] a [gmap]; where the
    code iterates a [std::map], the iteration goes through [OrdMap]. The readers and the
    cfgscript scanner and parser are written in two small monads ([Rd], [St]). A tagged
    struct with unused members is an inductive type, and a flag that guards another
    member is an [option]. Doubles are bit patterns in minidb and binpack, where they are
    moved and printed, and [SpecFloat] values in cfgscript, where they are computed with; there
    NaN has one representation without a sign, so the text of a NaN has none.

    ** What the theorems show

    - Round trips: writers and readers of [ByteIO], UTF-8, frames, record trees, whole
      containers ([BinPack.build_parse_roundtrip]), run-length coding, messages through
      encoder and decoder ([StreamDecoder.decode_encoded_messages]), their fragments in
      any order and any interleaving ([Interleave.decode_interleaved_messages]) up to their
      release in the order sent ([Transport.stream_in_order]), and
      cfgscript documents through the serializer, the lexer, the parser and the evaluator
      ([CfgRoundtrip.serialize_parse]).
    - Refinement of abstract specifications: the reassembler against a map of fragment
      lists, the journal against the transaction markers around each entry, the opened
      store against both, the evaluator against a natural semantics.
    - Safety and termination on arbitrary input: every decoder, given any bytes, ends
      without undefined behaviour, in a value with a stated invariant or an error. The
      one exception is streamcodec: a RESET that meets two or more open messages of its
      stream is excluded by a hypothesis, since the code can be undefined there
      ([Reassembler.reset_stream_two_open_undefined]).
    - Invariants of stateful components (delivery queue, flow control, stream table) over
      all reachable states, and exact accounting of counters; for the delivery queue also
      which offers it drops, in terms of what was offered and delivered before, and when it may
      skip a missing id ([Delivery.delivery_in_order]).
    - Scopes of cfgscript: what a name means at any place of a document, however deep in
      blocks ([CfgEval.document_scoping]).
    - Integrity ([Integrity.damage_detected]): a damaged container does not pass the
      checks of the parser, whose strict mode adds the verdict and nothing else. A damaged
      frame header does not keep its verified status, and what damages no framing field
      changes no other frame ([FrameIntegrity.header_damage_noticed]).
    - Functional descriptions, equivalences and bounds: every operation of the byte reader
      ([ByteIO.reader_functional]), table-driven against bitwise
      CRC-32, index pages and cursors, differences of documents, schema validation,
      queries against flattened views, 64-bit arithmetic at its limits.
    - The cfgscript scanner and parser against an independent grammar of bytes, tokens and
      statements, in both directions ([CfgLexical.source_exact]): comments, escapes,
      longest match, precedence, associativity and nesting included; and the whole of
      [parse] against a definition of the language ([CfgSemantics.parse_exact]).
    - The whole tool ([Bwdump.bwdump_correct]): every run ends with the exit code, the
      dump or the error message its input calls for, and a dump is printable lines only.
      The harnesses ([Fuzz.harnesses_exact]): on which inputs they cannot fail by themselves.
    - Behaviour that differs from a comment or from the evident intent is stated as a
      lemma beside the definition concerned (for example
      [CfgEval.nan_equals_everything], [Delivery.delivery_wrap_duplicates],
      [Journal.torn_entry_loses_everything]).

    ** Bounds of the model

    Every loop takes a number of turns, computed from its input: the bytes left plus one
    for a loop that consumes a byte per turn, the entries left plus one for a loop over a
    collection. The recursion of a guarded descent takes a fixed number of levels:
    [BinRecord] its depth limit, [CfgParser] 270 levels for expressions (at most five
    calls for every two levels of depth, and depth at most 65) and 70 for statements. No
    theorem assumes that a bound is enough: running out is the outcome [NoFuel], which the
    totality theorems exclude. Sizes that the code keeps in a [std::size_t] are [nat] or
    unbounded [Z] where they count elements of an existing buffer, and are reduced modulo
    a power of two where the code stores them at a smaller width or adds untrusted
    values, such as the offsets of the spans a caller gives to [Overflow].

    ** Not modelled

    The unit tests, which only call the libraries. Memory exhaustion
    and the iteration order of [std::unordered_map] (never observed by the code modelled
    here) have no counterpart. *)


From stdpp Require Export base numbers list sorting strings gmap.
From Stdlib Require Export ZArith Lia Btauto ZifyNat.

#[global] Open Scope Z_scope.

(** ** Bytes and machine integers *)

(** A [std::vector<uint8_t>], a borrowed buffer or a binary [std::string]: its
    elements are byte values kept as integers. *)
Abbreviation bytes := (list Z).

Definition is_byte (b : Z) : Prop := 0 <= b < 256.
Definition bytes_ok (l : bytes) : Prop := Forall is_byte l.

#[export] Instance is_byte_dec b : Decision (is_byte b).
Proof. unfold is_byte. apply _. Defined.
#[export] Instance bytes_ok_dec l : Decision (bytes_ok l).
Proof. unfold bytes_ok. apply _. Defined.

(** The unsigned conversions [static_cast<uintN_t>] and the two's complement
    reading of a 64-bit word. *)
Definition u8 (z : Z) : Z := z mod 2 ^ 8.
Definition u16 (z : Z) : Z := z mod 2 ^ 16.
Definition u32 (z : Z) : Z := z mod 2 ^ 32.
Definition u64 (z : Z) : Z := z mod 2 ^ 64.
Definition i64 (z : Z) : Z :=
  let m := u64 z in if m <? 2 ^ 63 then m else m - 2 ^ 64.

Definition is_u16 (z : Z) : Prop := 0 <= z < 2 ^ 16.
Definition is_u32 (z : Z) : Prop := 0 <= z < 2 ^ 32.
Definition is_u64 (z : Z) : Prop := 0 <= z < 2 ^ 64.
Definition is_i64 (z : Z) : Prop := - 2 ^ 63 <= z < 2 ^ 63.

(** ** Tactics and hint databases *)

Create HintDb bw discriminated.
Create HintDb bw_bits.

(** Unfold the width predicates and casts, then decide. *)
Ltac width := unfold is_byte, is_u16, is_u32, is_u64, is_i64, u8, u16, u32, u64 in *.
Ltac solve_width := width; lia.

(** [lia] with division and modulo by constants turned into equations. *)
Ltac dlia :=
  first [ Z.to_euclidean_division_equations; lia
        | zify; Z.to_euclidean_division_equations; lia ].

(** Case analysis on the first boolean test of the goal. *)
Ltac case_bool :=
  match goal with
  | |- context [if ?b then _ else _] =>
      let E := fresh "E" in destruct b eqn:E
  end.

(** Turn boolean comparisons in the context into propositions. *)
Ltac reflect_bools :=
  repeat match goal with
  | H : (_ <=? _) = true |- _ => apply Z.leb_le in H
  | H : (_ <=? _) = false |- _ => apply Z.leb_gt in H
  | H : (_ <? _) = true |- _ => apply Z.ltb_lt in H
  | H : (_ <? _) = false |- _ => apply Z.ltb_ge in H
  | H : (_ =? _) = true |- _ => apply Z.eqb_eq in H
  | H : (_ =? _) = false |- _ => apply Z.eqb_neq in H
  | H : (_ && _)%bool = true |- _ => apply andb_prop in H; destruct H
  | H : (_ <=? _)%nat = true |- _ => apply Nat.leb_le in H
  | H : (_ <=? _)%nat = false |- _ => apply Nat.leb_gt in H
  | H : (_ <? _)%nat = true |- _ => apply Nat.ltb_lt in H
  | H : (_ <? _)%nat = false |- _ => apply Nat.ltb_ge in H
  | H : (_ =? _)%nat = true |- _ => apply Nat.eqb_eq in H
  | H : (_ =? _)%nat = false |- _ => apply Nat.eqb_neq in H
  end.

(** ** Bit operations as arithmetic *)

Lemma testbit_small a k n : 0 <= a < 2 ^ k -> 0 <= k <= n -> Z.testbit a n = false.
Proof.
  intros Ha Hn. rewrite <- (Z.mod_small a (2 ^ k)) by done.
  apply Z.mod_pow2_bits_high. lia.
Qed.

Lemma land_shiftl_disjoint a b k :
  0 <= k -> 0 <= a < 2 ^ k -> Z.land a (Z.shiftl b k) = 0.
Proof.
  intros Hk Ha. apply Z.bits_inj'. intros n Hn.
  rewrite Z.land_spec, Z.bits_0, Z.shiftl_spec by done.
  destruct (Z.lt_ge_cases n k).
  - rewrite (Z.testbit_neg_r b) by lia. apply andb_false_r.
  - by rewrite (testbit_small a k n) by lia.
Qed.

Lemma lor_shiftl_add a b k :
  0 <= k -> 0 <= a < 2 ^ k -> Z.lor a (Z.shiftl b k) = a + b * 2 ^ k.
Proof.
  intros Hk Ha. pose proof (Z.add_lor_land a (Z.shiftl b k)) as H.
  rewrite land_shiftl_disjoint in H by done.
  rewrite Z.shiftl_mul_pow2 in * by done. lia.
Qed.

Lemma shiftl_lor_add a b k :
  0 <= k -> 0 <= a < 2 ^ k -> Z.lor (Z.shiftl b k) a = b * 2 ^ k + a.
Proof. intros. rewrite Z.lor_comm, lor_shiftl_add by done. lia. Qed.

Lemma land_ff a : Z.land a 255 = a mod 256.
Proof. change 255 with (Z.ones 8). by rewrite Z.land_ones. Qed.
Lemma land_7f a : Z.land a 127 = a mod 128.
Proof. change 127 with (Z.ones 7). by rewrite Z.land_ones. Qed.
Lemma land_3f a : Z.land a 63 = a mod 64.
Proof. change 63 with (Z.ones 6). by rewrite Z.land_ones. Qed.
Lemma land_1 a : Z.land a 1 = a mod 2.
Proof. change 1 with (Z.ones 1) at 1. by rewrite Z.land_ones. Qed.

Lemma shiftr_div a k : 0 <= k -> Z.shiftr a k = a / 2 ^ k.
Proof. apply Z.shiftr_div_pow2. Qed.

Lemma lxor_ones_sub x n :
  0 <= n -> 0 <= x < 2 ^ n -> Z.lxor x (Z.ones n) = Z.ones n - x.
Proof.
  intros Hn Hx.
  assert (Z.ldiff x (Z.ones n) = 0) as Hd.
  { apply Z.bits_inj'. intros i Hi. rewrite Z.ldiff_spec, Z.bits_0.
    destruct (Z.lt_ge_cases i n).
    - rewrite Z.ones_spec_low by lia. btauto.
    - by rewrite (testbit_small _ n i) by lia. }
  rewrite Z.sub_nocarry_ldiff by done.
  apply Z.bits_inj'. intros i Hi. rewrite Z.lxor_spec, Z.ldiff_spec.
  destruct (Z.lt_ge_cases i n).
  - rewrite Z.ones_spec_low by lia. btauto.
  - by rewrite Z.ones_spec_high, (testbit_small _ n i) by lia.
Qed.

Lemma lxor_bound a b n :
  0 <= n -> 0 <= a < 2 ^ n -> 0 <= b < 2 ^ n -> 0 <= Z.lxor a b < 2 ^ n.
Proof.
  intros Hn Ha Hb.
  assert (Hm : Z.lxor a b = (Z.lxor a b) mod 2 ^ n).
  { apply Z.bits_inj'. intros i Hi. destruct (Z.lt_ge_cases i n).
    - by rewrite Z.mod_pow2_bits_low by lia.
    - rewrite Z.mod_pow2_bits_high, Z.lxor_spec by lia.
      by rewrite !(testbit_small _ n i) by lia. }
  rewrite Hm. apply Z.mod_pos_bound. lia.
Qed.

Lemma lor_bound a b n :
  0 <= n -> 0 <= a < 2 ^ n -> 0 <= b < 2 ^ n -> 0 <= Z.lor a b < 2 ^ n.
Proof.
  intros Hn Ha Hb.
  assert (Hm : Z.lor a b = (Z.lor a b) mod 2 ^ n).
  { apply Z.bits_inj'. intros i Hi. destruct (Z.lt_ge_cases i n).
    - by rewrite Z.mod_pow2_bits_low by lia.
    - rewrite Z.mod_pow2_bits_high, Z.lor_spec by lia.
      by rewrite !(testbit_small _ n i) by lia. }
  rewrite Hm. apply Z.mod_pos_bound. lia.
Qed.

(** A decidable property of all byte values is settled by evaluation. *)
Lemma byte_forallb (P : Z -> bool) :
  forallb P (seqZ 0 256) = true -> forall b, is_byte b -> P b = true.
Proof.
  intros H b Hb. rewrite forallb_forall in H. apply H.
  apply list_elem_of_In, elem_of_seqZ. unfold is_byte in Hb. lia.
Qed.

Lemma byte_high_bit b : is_byte b -> (Z.land b 0x80 =? 0) = (b <? 128).
Proof.
  intros Hb. apply eqb_prop.
  revert b Hb. apply (byte_forallb (fun b => eqb (Z.land b 0x80 =? 0) (b <? 128))).
  by vm_compute.
Qed.

(** ** Lists *)

Lemma drop_app_exact {A} (l k : list A) : drop (length l) (l ++ k) = k.
Proof. by rewrite drop_app_length. Qed.

Lemma lookup_app_mid {A} (l : list A) (x : A) (k : list A) :
  (l ++ x :: k) !! length l = Some x.
Proof. by rewrite list_lookup_middle. Qed.

Lemma filter_none {A} (P : A -> Prop) `{!forall x, Decision (P x)} (l : list A) :
  (forall x, x ∈ l -> ~ P x) -> filter P l = [].
Proof.
  intros Hx. induction l as [|x l IH]; [done|]. rewrite filter_cons, decide_False by (apply Hx; left).
  apply IH. intros y Hy. apply Hx. by right.
Qed.

Lemma filter_iff {A} (P Q : A -> Prop) `{!forall x, Decision (P x), !forall x, Decision (Q x)} (l : list A) :
  (forall x, x ∈ l -> P x <-> Q x) -> filter P l = filter Q l.
Proof.
  induction l as [|x l IH]; intros Hl; [done|]. rewrite !filter_cons.
  rewrite IH by (intros y Hy; apply Hl; by right). pose proof (Hl x ltac:(by left)).
  destruct (decide (P x)), (decide (Q x)); tauto.
Qed.

Lemma filter_or_disjoint {A} (P Q : A -> Prop) `{!forall x, Decision (P x), !forall x, Decision (Q x)} (l : list A) :
  (forall x, P x -> Q x -> False) ->
  filter (fun x => P x \/ Q x) l ≡ₚ filter P l ++ filter Q l.
Proof.
  intros HPQ. induction l as [|x l IH]; [done|]. rewrite !filter_cons.
  destruct (decide (P x)) as [HP|HP], (decide (Q x)) as [HQ|HQ].
  - by destruct (HPQ x).
  - rewrite decide_True by tauto. by rewrite IH.
  - rewrite decide_True by tauto. by rewrite IH, Permutation_middle.
  - rewrite decide_False by tauto. done.
Qed.

Lemma bytes_ok_app l k : bytes_ok (l ++ k) <-> bytes_ok l /\ bytes_ok k.
Proof. apply Forall_app. Qed.

Lemma bytes_ok_take n l : bytes_ok l -> bytes_ok (take n l).
Proof. apply Forall_take. Qed.
Lemma bytes_ok_drop n l : bytes_ok l -> bytes_ok (drop n l).
Proof. apply Forall_drop. Qed.
Lemma bytes_ok_lookup l i b : bytes_ok l -> l !! i = Some b -> is_byte b.
Proof. intros H. apply Forall_lookup_1, H. Qed.

#[export] Hint Resolve bytes_ok_take bytes_ok_drop : bw.

(** ** Decimal rendering *)

(** [std::to_string] of an unsigned value, and the hand-rolled digit loop of
    [ParseError::build_message]: digits are produced least significant first
    into a 24-byte buffer, then emitted in reverse. A 64-bit value has at most
    20 digits. *)
Definition digit (d : Z) : Ascii.ascii := Ascii.ascii_of_nat (Z.to_nat (48 + d)).

Fixpoint dec_loop (fuel : nat) (v : Z) (acc : string) : string :=
  match fuel with
  | O => acc
  | S fuel' =>
      if 0 <? v then dec_loop fuel' (v / 10) (String.String (digit (v mod 10)) acc)
      else acc
  end.

Definition to_dec (v : Z) : string :=
  if v =? 0 then "0"%string else dec_loop 24 v ""%string.
