(* ===== verification/Status.v ===== *)
(** * Status: the shared error model of [include/common/status.hpp]

    [ErrorCode], [describe], [ParseError] and its message, and the outcome of a
    piece of C++ code: a value, a thrown [ParseError], undefined behaviour (an
    access outside its buffer), or an exhausted loop bound of the model. *)

From S2P Require Import Prelude.

Inductive ErrorCode :=
  | kOk | kShortRead | kBadMagic | kBadVersion | kBadChecksum | kBadLength
  | kBadType | kDepthExceeded | kStateViolation | kUnsupported | kTruncated.

#[export] Instance ErrorCode_eq_dec : EqDecision ErrorCode.
Proof. solve_decision. Defined.

Definition describe (code : ErrorCode) : string :=
  match code with
  | kOk => "ok"
  | kShortRead => "read past end of buffer"
  | kBadMagic => "magic mismatch"
  | kBadVersion => "unsupported version"
  | kBadChecksum => "checksum mismatch"
  | kBadLength => "inconsistent length or offset"
  | kBadType => "unknown type tag"
  | kDepthExceeded => "nesting depth exceeded"
  | kStateViolation => "operation invalid in current state"
  | kUnsupported => "unsupported feature"
  | kTruncated => "structure truncated"
  end.

Definition build_message (code : ErrorCode) (offset : Z) (what : string) : string :=
  ("[" +:+ describe code +:+ " @ " +:+ to_dec offset +:+ "] " +:+ what)%string.

Record ParseError := MkParseError {
  pe_code : ErrorCode;
  pe_offset : Z;
  pe_what : string;
}.

(** The two constructors: with an explicit text, and with [describe(code)]. *)
Definition parse_error (code : ErrorCode) (offset : Z) (what : string) : ParseError :=
  MkParseError code offset (build_message code offset what).
Definition parse_error' (code : ErrorCode) (offset : Z) : ParseError :=
  parse_error code offset (describe code).

(** ** Outcomes *)

Inductive outcome (A : Type) :=
  | Ok (a : A)
  | Throw (e : ParseError)
  | UB                    (** an access outside the object it belongs to *)
  | NoFuel.               (** the loop bound of the model ran out *)
Arguments Ok {A} a.
Arguments Throw {A} e.
Arguments UB {A}.
Arguments NoFuel {A}.

Definition obind {A B} (m : outcome A) (f : A -> outcome B) : outcome B :=
  match m with
  | Ok a => f a
  | Throw e => Throw e
  | UB => UB
  | NoFuel => NoFuel
  end.

Declare Scope outcome_scope.
Delimit Scope outcome_scope with outcome.
#[global] Open Scope outcome_scope.
Notation "'let?' x := m 'in' k" := (obind m (fun x => k))
  (at level 200, x pattern, right associativity) : outcome_scope.

(** [o] is a value satisfying [Q] or a thrown error: no undefined behaviour, and
    the bound of every loop was enough. *)
Definition oholds {A} (o : outcome A) (Q : A -> Prop) : Prop :=
  match o with Ok a => Q a | Throw _ => True | UB | NoFuel => False end.

(** The same without exceptions. *)
Definition ototal {A} (o : outcome A) (Q : A -> Prop) : Prop :=
  match o with Ok a => Q a | _ => False end.

Lemma oholds_mono {A} (o : outcome A) (P Q : A -> Prop) :
  oholds o P -> (forall a, P a -> Q a) -> oholds o Q.
Proof. destruct o; simpl; auto. Qed.

Lemma oholds_bind {A B} (m : outcome A) (f : A -> outcome B) P Q :
  oholds m P -> (forall a, P a -> oholds (f a) Q) -> oholds (obind m f) Q.
Proof. destruct m; simpl; auto. Qed.

Lemma ototal_mono {A} (o : outcome A) (P Q : A -> Prop) :
  ototal o P -> (forall a, P a -> Q a) -> ototal o Q.
Proof. destruct o; simpl; auto. Qed.

Lemma ototal_bind {A B} (m : outcome A) (f : A -> outcome B) P Q :
  ototal m P -> (forall a, P a -> ototal (f a) Q) -> ototal (obind m f) Q.
Proof. destruct m; simpl; auto. Qed.

Lemma obind_assoc {A B C} (m : outcome A) (f : A -> outcome B) (g : B -> outcome C) :
  obind (obind m f) g = obind m (fun a => obind (f a) g).
Proof. by destruct m. Qed.

Lemma obind_ok_inv {A B} (m : outcome A) (f : A -> outcome B) b :
  obind m f = Ok b -> exists a, m = Ok a /\ f a = Ok b.
Proof. destruct m; simpl; eauto; discriminate. Qed.

(** A raw array access [p[i]]: undefined outside the array. *)
Definition at_idx {A} (l : list A) (i : nat) : outcome A :=
  match l !! i with Some b => Ok b | None => UB end.

(** A raw range copy [p + i, p + i + n): undefined when it leaves the array. *)
Definition copy_range {A} (l : list A) (i n : nat) : outcome (list A) :=
  if (i + n <=? length l)%nat then Ok (take n (drop i l)) else UB.

Lemma at_idx_ok {A} (l : list A) (i : nat) :
  (i < length l)%nat -> exists x, l !! i = Some x /\ at_idx l i = Ok x.
Proof.
  intros H. destruct (lookup_lt_is_Some_2 l i H) as [x Hx].
  exists x. unfold at_idx. by rewrite Hx.
Qed.
