(* ===== verification/ByteIO.v ===== *)
(** * ByteIO: [common::ByteReader] and [common::ByteWriter]

    [src/common/byte_reader.cpp] and [src/common/byte_writer.cpp]. A reader is a
    borrowed buffer with a cursor; its operations live in the state-and-outcome
    monad [Rd]. Raw accesses [data_[i]] are kept as accesses that may be
    undefined, and the [require] guards are what the [triple] lemmas use to show
    that they never are. A writer is the vector built so far. *)

From S2P Require Import Prelude Status.

(** ** The reader monad *)

Record reader := Rdr { rd_data : bytes; rd_pos : nat }.

Definition Rd (A : Type) : Type := reader -> outcome (A * reader).

Definition rd_ret {A} (a : A) : Rd A := fun r => Ok (a, r).
Definition rd_bind {A B} (m : Rd A) (f : A -> Rd B) : Rd B :=
  fun r => obind (m r) (fun '(a, r') => f a r').
Definition rd_throw {A} (e : ParseError) : Rd A := fun _ => Throw e.

Declare Scope reader_scope.
Delimit Scope reader_scope with reader.
Notation "'let!' x := m 'in' k" := (rd_bind m (fun x => k))
  (at level 200, x pattern, right associativity) : reader_scope.
Notation "m ;! k" := (rd_bind m (fun _ => k))
  (at level 199, right associativity) : reader_scope.
#[global] Open Scope reader_scope.

Definition mk_reader (data : bytes) : reader := Rdr data 0.

Definition rd_offset (r : reader) : Z := Z.of_nat (rd_pos r).
Definition rd_size (r : reader) : nat := length (rd_data r).
Definition rd_remaining (r : reader) : nat :=
  if (rd_pos r <=? rd_size r)%nat then (rd_size r - rd_pos r)%nat else 0%nat.
Definition rd_eof (r : reader) : bool := (rd_size r <=? rd_pos r)%nat.

Definition get_offset : Rd Z := fun r => Ok (rd_offset r, r).
Definition get_remaining : Rd nat := fun r => Ok (rd_remaining r, r).
Definition get_eof : Rd bool := fun r => Ok (rd_eof r, r).

(** [data_[pos_ + i]] and [pos_ += n]. *)
Definition rd_at (i : nat) : Rd Z :=
  fun r => obind (at_idx (rd_data r) (rd_pos r + i)) (fun b => Ok (b, r)).
Definition rd_advance (n : nat) : Rd unit :=
  fun r => Ok (tt, Rdr (rd_data r) (rd_pos r + n)).

Definition seek (pos : Z) : Rd unit :=
  fun r => if Z.of_nat (rd_size r) <? pos
           then Throw (parse_error kBadLength pos "seek past end of buffer")
           else Ok (tt, Rdr (rd_data r) (Z.to_nat pos)).

Definition require (n : Z) : Rd unit :=
  fun r => if Z.of_nat (rd_remaining r) <? n
           then Throw (parse_error' kShortRead (rd_offset r))
           else Ok (tt, r).

Definition skip (n : Z) : Rd unit := require n ;! rd_advance (Z.to_nat n).

Definition read_u8 : Rd Z :=
  require 1 ;! let! b := rd_at 0 in rd_advance 1 ;! rd_ret b.

Definition read_u16le : Rd Z :=
  require 2 ;!
  let! b0 := rd_at 0 in let! b1 := rd_at 1 in
  let v := u16 (Z.lor b0 (Z.shiftl b1 8)) in
  rd_advance 2 ;! rd_ret v.

Definition read_u32le : Rd Z :=
  require 4 ;!
  let! b0 := rd_at 0 in let! b1 := rd_at 1 in
  let! b2 := rd_at 2 in let! b3 := rd_at 3 in
  let v := Z.lor (Z.lor (Z.lor b0 (u32 (Z.shiftl b1 8))) (u32 (Z.shiftl b2 16)))
                 (u32 (Z.shiftl b3 24)) in
  rd_advance 4 ;! rd_ret v.

(** The shared body of the 64-bit readers: [v = (v << 8) | data_[pos_ + i]]. *)
Fixpoint u64_loop (ixs : list nat) (v : Z) : Rd Z :=
  match ixs with
  | [] => rd_ret v
  | i :: ixs' => let! b := rd_at i in u64_loop ixs' (Z.lor (u64 (Z.shiftl v 8)) b)
  end.

Definition read_u64le : Rd Z :=
  require 8 ;!
  let! v := u64_loop [7; 6; 5; 4; 3; 2; 1; 0]%nat 0 in
  rd_advance 8 ;! rd_ret v.

Definition read_u16be : Rd Z :=
  require 2 ;!
  let! b0 := rd_at 0 in let! b1 := rd_at 1 in
  let v := Z.lor (u16 (Z.shiftl b0 8)) b1 in
  rd_advance 2 ;! rd_ret v.

Definition read_u32be : Rd Z :=
  require 4 ;!
  let! b0 := rd_at 0 in let! b1 := rd_at 1 in
  let! b2 := rd_at 2 in let! b3 := rd_at 3 in
  let v := Z.lor (Z.lor (Z.lor (u32 (Z.shiftl b0 24)) (u32 (Z.shiftl b1 16)))
                        (u32 (Z.shiftl b2 8))) b3 in
  rd_advance 4 ;! rd_ret v.

Definition read_u64be : Rd Z :=
  require 8 ;!
  let! v := u64_loop [0; 1; 2; 3; 4; 5; 6; 7]%nat 0 in
  rd_advance 8 ;! rd_ret v.

(** [n] more loop iterations are allowed; [start] is the error offset. *)
Fixpoint varint_loop (n : nat) (start : Z) (shift : Z) (result : Z) : Rd Z :=
  match n with
  | O => rd_throw (parse_error kBadLength start "varint too long")
  | S n' =>
      let! b := read_u8 in
      let result := Z.lor result (u64 (Z.shiftl (Z.land b 0x7F) shift)) in
      if Z.land b 0x80 =? 0 then rd_ret result
      else varint_loop n' start (shift + 7) result
  end.

Definition read_varint : Rd Z :=
  let! start := get_offset in varint_loop 10 start 0 0.

Definition read_svarint : Rd Z :=
  let! u := read_varint in
  rd_ret (i64 (Z.lxor (Z.shiftr u 1) (u64 (u64 (Z.lnot (Z.land u 1)) + 1)))).

(** [read_bytes], [read_string] and [read_raw] check, take [n] bytes at the
    cursor and advance; the last one borrows what the others copy. *)
Definition read_bytes (n : Z) : Rd bytes :=
  require n ;!
  let! out := (fun r => obind (copy_range (rd_data r) (rd_pos r) (Z.to_nat n))
                              (fun s => Ok (s, r))) in
  rd_advance (Z.to_nat n) ;! rd_ret out.
Definition read_string (n : Z) : Rd bytes := read_bytes n.
Definition read_raw (n : Z) : Rd bytes := read_bytes n.

Definition peek_u8 : Rd Z := require 1 ;! rd_at 0.

(** [memcmp(data_ + pos_, expected, n) == 0] after the bounds test. *)
Definition rd_match (expected : bytes) (n : nat) : Rd bool :=
  fun r => if (rd_remaining r <? n)%nat then Ok (false, r)
           else obind (copy_range (rd_data r) (rd_pos r) n)
                      (fun s => Ok (bool_decide (s = take n expected), r)).

(** ** The writer *)

Definition put_u8 (w : bytes) (v : Z) : bytes := w ++ [v].

(** The [for] loops over [(v >> (8 * i)) & 0xFF]. *)
Definition put_shifts (w : bytes) (v : Z) (ixs : list Z) : bytes :=
  w ++ map (fun i => u8 (Z.land (Z.shiftr v (8 * i)) 0xFF)) ixs.

Definition put_u16le (w : bytes) (v : Z) : bytes :=
  w ++ [u8 (Z.land v 0xFF)] ++ [u8 (Z.land (Z.shiftr v 8) 0xFF)].
Definition put_u32le (w : bytes) (v : Z) : bytes := put_shifts w v [0; 1; 2; 3].
Definition put_u64le (w : bytes) (v : Z) : bytes :=
  put_shifts w v [0; 1; 2; 3; 4; 5; 6; 7].
Definition put_u16be (w : bytes) (v : Z) : bytes :=
  w ++ [u8 (Z.land (Z.shiftr v 8) 0xFF)] ++ [u8 (Z.land v 0xFF)].
Definition put_u32be (w : bytes) (v : Z) : bytes := put_shifts w v [3; 2; 1; 0].
Definition put_u64be (w : bytes) (v : Z) : bytes :=
  put_shifts w v [7; 6; 5; 4; 3; 2; 1; 0].

(** [while (v >= 0x80)]: a 64-bit value takes at most nine turns, so ten units
    of fuel reach the final [push_back]. *)
Fixpoint put_varint_loop (fuel : nat) (w : bytes) (v : Z) : bytes :=
  match fuel with
  | O => w
  | S fuel' =>
      if 0x80 <=? v
      then put_varint_loop fuel' (w ++ [u8 (Z.lor (Z.land v 0x7F) 0x80)]) (Z.shiftr v 7)
      else w ++ [u8 v]
  end.
Definition put_varint (w : bytes) (v : Z) : bytes := put_varint_loop 10 w v.

Definition put_svarint (w : bytes) (v : Z) : bytes :=
  let zig := Z.lxor (u64 (Z.shiftl (u64 v) 1)) (u64 (Z.shiftr v 63)) in
  put_varint w zig.

Definition put_bytes (w : bytes) (data : bytes) : bytes := w ++ data.
Definition put_string (w : bytes) (s : bytes) : bytes := w ++ s.

Definition reserve_u32le (w : bytes) : nat * bytes :=
  (length w, w ++ replicate 4 0).

(** [buffer_[pos + i] = ...] for [i < 4]; writing past the end is undefined. *)
Definition patch_u32le (w : bytes) (pos : nat) (v : Z) : outcome bytes :=
  if (pos + 4 <=? length w)%nat
  then Ok (foldl (fun b i => <[(pos + i)%nat := u8 (Z.land (Z.shiftr v (8 * Z.of_nat i)) 0xFF)]> b)
                 w [0; 1; 2; 3]%nat)
  else UB.

(** ** Program logic of the reader

    [triple n m Q]: from a well-formed reader, [m] either throws, or returns a
    value satisfying [Q] with the cursor at least [n] bytes further and still in
    range. In particular it is never undefined and never out of fuel. *)

Definition rd_ok (r : reader) : Prop :=
  bytes_ok (rd_data r) /\ (rd_pos r <= length (rd_data r))%nat.

Definition advances (n : nat) (r r' : reader) : Prop :=
  rd_ok r' /\ rd_data r' = rd_data r /\ (rd_pos r + n <= rd_pos r')%nat.

Definition triple {A} (n : nat) (m : Rd A) (Q : A -> Prop) : Prop :=
  forall r, rd_ok r -> oholds (m r) (fun '(a, r') => advances n r r' /\ Q a).

Lemma triple_mono {A} n n' (m : Rd A) (P Q : A -> Prop) :
  triple n m P -> (n' <= n)%nat -> (forall a, P a -> Q a) -> triple n' m Q.
Proof.
  intros H Hn HPQ r Hr. eapply oholds_mono; [by apply H|].
  intros [a r'] [(?&?&?) ?]. split; [|auto]. split_and!; [done..|lia].
Qed.

Lemma triple_ret {A} (a : A) (Q : A -> Prop) : Q a -> triple 0 (rd_ret a) Q.
Proof. intros HQ r Hr. simpl. split; [|done]. split_and!; [apply Hr..|done|lia]. Qed.

Lemma triple_throw {A} n e (Q : A -> Prop) : triple n (rd_throw e) Q.
Proof. intros r Hr. done. Qed.

Lemma triple_bind {A B} n k (m : Rd A) (f : A -> Rd B) P Q :
  triple n m P -> (forall a, P a -> triple k (f a) Q) -> triple (n + k) (rd_bind m f) Q.
Proof.
  intros Hm Hf r Hr. unfold rd_bind. eapply oholds_bind; [by apply Hm|].
  intros [a r'] [(Hok & Hd & Hp) HP]. eapply oholds_mono; [by apply (Hf a HP)|].
  intros [b r''] [(Hok' & Hd' & Hp') HQ]. split; [|done].
  split_and!; [done|congruence|lia].
Qed.

Lemma advances_advance n r : rd_ok r -> (rd_pos r + n <= length (rd_data r))%nat ->
  advances n r (Rdr (rd_data r) (rd_pos r + n)).
Proof. intros [? ?] ?. split_and!; simpl; try done; lia. Qed.

(** The value of a byte list read least significant byte first. *)
Fixpoint le_val (l : bytes) : Z :=
  match l with [] => 0 | b :: l' => b + 256 * le_val l' end.

Lemma le_val_app l k : le_val (l ++ k) = le_val l + 256 ^ Z.of_nat (length l) * le_val k.
Proof.
  induction l as [|b l IH]; simpl app; simpl le_val; [simpl; lia|].
  rewrite IH. simpl length. rewrite Nat2Z.inj_succ, Z.pow_succ_r by lia. lia.
Qed.

Lemma le_val_bound l : bytes_ok l -> 0 <= le_val l < 256 ^ Z.of_nat (length l).
Proof.
  induction 1 as [|b l Hb Hl IH]; [simpl; lia|]. cbn [le_val length].
  rewrite Nat2Z.inj_succ, Z.pow_succ_r by lia. unfold is_byte in Hb. lia.
Qed.

Lemma le_val_cons b l : is_byte b -> bytes_ok l -> le_val (b :: l) = Z.lxor b (Z.shiftl (le_val l) 8).
Proof.
  intros Hb Hl. cbn [le_val]. pose proof (le_val_bound l Hl). unfold is_byte in Hb.
  rewrite <- Z.add_nocarry_lxor.
  - rewrite Z.shiftl_mul_pow2 by lia. lia.
  - apply Z.bits_inj'. intros n Hn. rewrite Z.land_spec, Z.bits_0, Z.shiftl_spec by done.
    destruct (Z.lt_ge_cases n 8); [by rewrite (Z.testbit_neg_r _ (n - 8)), andb_false_r by lia|].
    rewrite (Z.bits_above_log2 b n); [done|lia|]. destruct (decide (b = 0)) as [->|]; [simpl; lia|].
    apply Z.log2_lt_pow2; [lia|]. assert (2 ^ 8 <= 2 ^ n) by (apply Z.pow_le_mono_r; lia). lia.
Qed.

(** The arithmetic readings of the shift-and-or code on bytes. *)
Lemma u16le_arith b0 b1 : is_byte b0 -> is_byte b1 ->
  u16 (Z.lor b0 (Z.shiftl b1 8)) = le_val [b0; b1].
Proof. intros. width. rewrite lor_shiftl_add by lia. cbn [le_val]. dlia. Qed.

Lemma u16be_arith b0 b1 : is_byte b0 -> is_byte b1 ->
  Z.lor (u16 (Z.shiftl b0 8)) b1 = le_val [b1; b0].
Proof.
  intros. width. rewrite Z.shiftl_mul_pow2, Z.mod_small by lia.
  rewrite <- Z.shiftl_mul_pow2, shiftl_lor_add by lia. cbn [le_val]. dlia.
Qed.

Lemma u32_shiftl b k : is_byte b -> 0 <= k <= 24 -> u32 (Z.shiftl b k) = Z.shiftl b k.
Proof.
  intros Hb Hk. width. rewrite Z.shiftl_mul_pow2 by lia. apply Z.mod_small.
  assert (2 ^ k <= 2 ^ 24) by (apply Z.pow_le_mono_r; lia).
  assert (0 < 2 ^ k) by lia. nia.
Qed.

Lemma u32le_arith b0 b1 b2 b3 : is_byte b0 -> is_byte b1 -> is_byte b2 -> is_byte b3 ->
  Z.lor (Z.lor (Z.lor b0 (u32 (Z.shiftl b1 8))) (u32 (Z.shiftl b2 16)))
        (u32 (Z.shiftl b3 24)) = le_val [b0; b1; b2; b3].
Proof.
  intros. rewrite !u32_shiftl by (done || lia). width.
  rewrite (lor_shiftl_add b0), (lor_shiftl_add _ b2), (lor_shiftl_add _ b3) by lia.
  cbn [le_val]. lia.
Qed.

Lemma u32be_arith b0 b1 b2 b3 : is_byte b0 -> is_byte b1 -> is_byte b2 -> is_byte b3 ->
  Z.lor (Z.lor (Z.lor (u32 (Z.shiftl b0 24)) (u32 (Z.shiftl b1 16)))
               (u32 (Z.shiftl b2 8))) b3 = le_val [b3; b2; b1; b0].
Proof.
  intros. rewrite !u32_shiftl by (done || lia).
  rewrite <- (u32le_arith b3 b2 b1 b0), !u32_shiftl by (done || lia).
  apply Z.bits_inj'. intros n _. rewrite !Z.lor_spec. btauto.
Qed.

(** ** Fixed-length reads

    [fixed_read k m f] describes [m] completely: with fewer than [k] bytes left
    it throws [kShortRead] at the cursor, and otherwise it returns [f] of the
    next [k] bytes and advances past them. *)
Definition window (k : nat) (r : reader) : bytes := take k (drop (rd_pos r) (rd_data r)).
Definition rd_left (r : reader) : nat := (length (rd_data r) - rd_pos r)%nat.

Definition fixed_read {A} (k : nat) (m : Rd A) (f : bytes -> A) : Prop :=
  forall r, rd_ok r ->
    m r = if (rd_left r <? k)%nat
          then Throw (parse_error' kShortRead (rd_offset r))
          else Ok (f (window k r), Rdr (rd_data r) (rd_pos r + k)).

Lemma rd_remaining_left r : rd_ok r -> rd_remaining r = rd_left r.
Proof.
  intros [_ Hp]. unfold rd_remaining, rd_left, rd_size. case_bool; [done|].
  reflect_bools. lia.
Qed.

Lemma fixed_read_ok {A} k (m : Rd A) f r a r' : fixed_read k m f -> rd_ok r -> m r = Ok (a, r') ->
  a = f (window k r) /\ r' = Rdr (rd_data r) (rd_pos r + k) /\ rd_ok r'.
Proof.
  intros Hm Hr. rewrite (Hm r Hr). destruct (Nat.ltb_spec (rd_left r) k) as [|Hk]; [done|]. intros [= <- <-].
  destruct Hr as [Hd Hp]. split; [done|]. split; [done|]. split; cbn [rd_data rd_pos]; [done|]. unfold rd_left in Hk. lia.
Qed.

Lemma length_window k r : (k <= rd_left r)%nat -> length (window k r) = k.
Proof. unfold window, rd_left. rewrite length_take, length_drop. lia. Qed.

Lemma window_ok k r : rd_ok r -> bytes_ok (window k r).
Proof. intros [H _]. unfold window. auto with bw. Qed.

Lemma rd_at_window i k r : (i < k)%nat -> (k <= rd_left r)%nat ->
  exists b, window k r !! i = Some b /\ rd_at i r = Ok (b, r).
Proof.
  intros Hi Hk. destruct (lookup_lt_is_Some_2 (window k r) i) as [b Hb].
  { rewrite length_window; lia. }
  exists b. split; [done|]. unfold rd_at, at_idx.
  unfold window in Hb. rewrite lookup_take_lt, lookup_drop in Hb by done.
  by rewrite Hb.
Qed.

(** The guard [require(k)] followed by code that only has to work when [k]
    bytes are left. *)
Lemma fixed_read_intro {A} (k : nat) (m : Rd A) (f : bytes -> A) (z : Z) :
  z = Z.of_nat k ->
  (forall r, rd_ok r -> (k <= rd_left r)%nat ->
     m r = Ok (f (window k r), Rdr (rd_data r) (rd_pos r + k))) ->
  fixed_read k (require z ;! m) f.
Proof.
  intros -> H r Hr. unfold rd_bind, require. rewrite rd_remaining_left by done.
  case_bool; reflect_bools; simpl.
  - by rewrite (proj2 (Nat.ltb_lt _ _)) by lia.
  - rewrite (proj2 (Nat.ltb_ge _ _)) by lia. apply H; [done|lia].
Qed.

(** Name the bytes of the window and execute every access to them. *)
Ltac rd_window :=
  match goal with
  | Hr : rd_ok ?r, Hk : (?k <= rd_left ?r)%nat |- _ =>
      let W := fresh "W" in let HW := fresh "HW" in let HB := fresh "HB" in
      pose proof (length_window k r Hk) as HW; pose proof (window_ok k r Hr) as HB;
      pose proof (fun i Hi => rd_at_window i k r Hi Hk) as W;
      destruct (window k r) as [|? [|? [|? [|? [|? [|? [|? [|? [|]]]]]]]]];
      try discriminate HW; clear HW;
      repeat (apply Forall_cons in HB; destruct HB as [? HB])
  end.
Ltac rd_access W i :=
  let b := fresh "b" in let E := fresh "E" in let E' := fresh "E" in
  destruct (W i ltac:(lia)) as (b & E & E'); simpl in E; injection E as <-;
  rewrite E'; clear E'; cbn [obind].

Lemma fixed_u8 : fixed_read 1 read_u8 (fun l => hd 0 l).
Proof.
  apply fixed_read_intro; [done|]. intros r Hr Hk. unfold rd_bind at 1. rd_window.
  rd_access W 0%nat. done.
Qed.

Lemma fixed_u16le : fixed_read 2 read_u16le le_val.
Proof.
  apply fixed_read_intro; [done|]. intros r Hr Hk. unfold rd_bind. rd_window.
  rd_access W 0%nat. rd_access W 1%nat. simpl. by rewrite u16le_arith.
Qed.

Lemma fixed_u16be : fixed_read 2 read_u16be (fun l => le_val (rev l)).
Proof.
  apply fixed_read_intro; [done|]. intros r Hr Hk. unfold rd_bind. rd_window.
  rd_access W 0%nat. rd_access W 1%nat. simpl. by rewrite u16be_arith.
Qed.

Lemma fixed_u32le : fixed_read 4 read_u32le le_val.
Proof.
  apply fixed_read_intro; [done|]. intros r Hr Hk. unfold rd_bind. rd_window.
  rd_access W 0%nat. rd_access W 1%nat. rd_access W 2%nat. rd_access W 3%nat.
  simpl. by rewrite u32le_arith.
Qed.

Lemma fixed_u32be : fixed_read 4 read_u32be (fun l => le_val (rev l)).
Proof.
  apply fixed_read_intro; [done|]. intros r Hr Hk. unfold rd_bind. rd_window.
  rd_access W 0%nat. rd_access W 1%nat. rd_access W 2%nat. rd_access W 3%nat.
  simpl. by rewrite u32be_arith.
Qed.

(** The accumulation loop computes a big-endian value without overflow. *)
Lemma u64_loop_ok r ixs bs v k :
  Forall2 (fun i b => rd_at i r = Ok (b, r) /\ is_byte b) ixs bs ->
  0 <= v < 256 ^ Z.of_nat k -> (k + length bs <= 8)%nat ->
  u64_loop ixs v r = Ok (v * 256 ^ Z.of_nat (length bs) + le_val (rev bs), r).
Proof.
  intros H. revert v k. induction H as [|i b ixs bs [Ha Hb] H IH]; intros v k Hv Hk.
  { simpl. unfold rd_ret. do 2 f_equal. lia. }
  cbn [u64_loop]. unfold rd_bind. rewrite Ha. cbn [obind].
  simpl length in *. assert (256 ^ Z.of_nat k <= 256 ^ 7) by (apply Z.pow_le_mono_r; lia).
  assert (E : Z.lor (u64 (Z.shiftl v 8)) b = v * 256 + b).
  { width. rewrite Z.shiftl_mul_pow2, Z.mod_small by lia.
    rewrite <- Z.shiftl_mul_pow2, shiftl_lor_add by lia. done. }
  rewrite E, (IH _ (S k)) by (try rewrite Nat2Z.inj_succ, Z.pow_succ_r; width; lia).
  do 2 f_equal. cbn [rev]. rewrite le_val_app, length_rev. cbn [le_val].
  rewrite Nat2Z.inj_succ, Z.pow_succ_r by lia. lia.
Qed.

Lemma fixed_u64le : fixed_read 8 read_u64le le_val.
Proof.
  apply fixed_read_intro; [done|]. intros r Hr Hk. unfold rd_bind at 1. rd_window.
  erewrite (u64_loop_ok r _ [z6; z5; z4; z3; z2; z1; z0; z] 0 0);
    [done| |done|simpl; lia].
  repeat (constructor; [split; [|done]|]); try constructor;
    match goal with |- rd_at ?i _ = _ => rd_access W i end; done.
Qed.

Lemma fixed_u64be : fixed_read 8 read_u64be (fun l => le_val (rev l)).
Proof.
  apply fixed_read_intro; [done|]. intros r Hr Hk. unfold rd_bind at 1. rd_window.
  erewrite (u64_loop_ok r _ [z; z0; z1; z2; z3; z4; z5; z6] 0 0);
    [done| |done|simpl; lia].
  repeat (constructor; [split; [|done]|]); try constructor;
    match goal with |- rd_at ?i _ = _ => rd_access W i end; done.
Qed.

Lemma fixed_bytes (n : Z) : 0 <= n -> fixed_read (Z.to_nat n) (read_bytes n) id.
Proof.
  intros Hn. apply fixed_read_intro; [lia|]. intros r [Hb Hp] Hk. unfold rd_bind, copy_range.
  unfold rd_left in Hk. rewrite (proj2 (Nat.leb_le _ _)) by lia. done.
Qed.

Lemma fixed_triple {A} k (m : Rd A) f (Q : A -> Prop) :
  fixed_read k m f -> (forall l, bytes_ok l -> length l = k -> Q (f l)) -> triple k m Q.
Proof.
  intros Hm HQ r Hr. rewrite Hm by done. case_bool; [done|]. reflect_bools.
  unfold rd_left in *. simpl. split.
  - apply advances_advance; [done|]. destruct Hr. lia.
  - apply HQ; [by apply window_ok|apply length_window; unfold rd_left; lia].
Qed.

(** The generic call sites: a value of the right width, and at least [k] bytes
    consumed. *)
Lemma triple_u8 : triple 1 read_u8 is_byte.
Proof.
  eapply fixed_triple; [apply fixed_u8|]. intros [|b [|]] H ?; try done.
  by inversion H.
Qed.

Lemma le_val_width k l : bytes_ok l -> length l = k -> 0 <= le_val l < 256 ^ Z.of_nat k.
Proof. intros H <-. by apply le_val_bound. Qed.
Lemma be_val_width k l :
  bytes_ok l -> length l = k -> 0 <= le_val (rev l) < 256 ^ Z.of_nat k.
Proof.
  intros H <-. rewrite <- length_rev. apply le_val_bound.
  by apply List.Forall_rev.
Qed.

Lemma triple_u16le : triple 2 read_u16le is_u16.
Proof. eapply fixed_triple; [apply fixed_u16le|]. apply (le_val_width 2). Qed.
Lemma triple_u32le : triple 4 read_u32le is_u32.
Proof. eapply fixed_triple; [apply fixed_u32le|]. apply (le_val_width 4). Qed.
Lemma triple_u64le : triple 8 read_u64le is_u64.
Proof. eapply fixed_triple; [apply fixed_u64le|]. apply (le_val_width 8). Qed.
Lemma triple_u16be : triple 2 read_u16be is_u16.
Proof. eapply fixed_triple; [apply fixed_u16be|]. apply (be_val_width 2). Qed.
Lemma triple_u32be : triple 4 read_u32be is_u32.
Proof. eapply fixed_triple; [apply fixed_u32be|]. apply (be_val_width 4). Qed.
Lemma triple_u64be : triple 8 read_u64be is_u64.
Proof. eapply fixed_triple; [apply fixed_u64be|]. apply (be_val_width 8). Qed.

Lemma triple_bytes n : 0 <= n ->
  triple (Z.to_nat n) (read_bytes n) (fun l => bytes_ok l /\ Z.of_nat (length l) = n).
Proof.
  intros Hn. eapply fixed_triple; [by apply fixed_bytes|]. unfold id.
  intros l Hl E. split; [done|lia].
Qed.

(** Reading with a negative count cannot happen in the code (counts are
    unsigned); call sites supply [0 <= n] from the width of the count. *)
Lemma triple_get_offset : triple 0 get_offset (fun o => 0 <= o).
Proof.
  intros r Hr. unfold get_offset, rd_offset. split; [|lia].
  split_and!; [apply Hr..|done|lia].
Qed.

Lemma triple_require n : triple 0 (require n) (fun _ => True).
Proof.
  intros r Hr. unfold require. case_bool; [done|]. split; [|done].
  split_and!; [apply Hr..|done|lia].
Qed.

Lemma triple_varint_loop n start shift result :
  is_u64 result -> 0 <= shift -> triple 1 (varint_loop n start shift result) is_u64.
Proof.
  revert shift result. induction n as [|n IH]; intros shift result Hr Hs;
    [apply triple_throw|]. simpl.
  apply (triple_bind 1 0 _ _ is_byte); [apply triple_u8|]. intros b Hb.
  assert (is_u64 (Z.lor result (u64 (Z.shiftl (Z.land b 127) shift)))).
  { apply lor_bound; [lia|done|]. unfold u64. apply Z.mod_pos_bound. lia. }
  case_bool; [by apply triple_ret|].
  eapply triple_mono; [apply IH; [done|lia]|lia|done].
Qed.

Lemma triple_varint : triple 1 read_varint is_u64.
Proof.
  apply (triple_bind 0 1 _ _ (fun o => 0 <= o)); [apply triple_get_offset|].
  intros o _. apply triple_varint_loop; [|lia]. unfold is_u64. lia.
Qed.

Lemma is_i64_i64 z : is_i64 (i64 z).
Proof.
  unfold i64, is_i64, u64. pose proof (Z.mod_pos_bound z (2 ^ 64)).
  case_bool; reflect_bools; lia.
Qed.

Lemma triple_svarint : triple 1 read_svarint is_i64.
Proof.
  apply (triple_bind 1 0 _ _ is_u64); [apply triple_varint|].
  intros u _. apply triple_ret, is_i64_i64.
Qed.

(** ** Parsing relations

    [parses m bs v]: wherever [bs] sits in a buffer, [m] started at it consumes
    exactly [bs] and returns [v]. [parses_all] is the same for a reader whose
    buffer ends with [bs]. *)
Definition parses {A} (m : Rd A) (bs : bytes) (v : A) : Prop :=
  forall pre post, bytes_ok (pre ++ bs ++ post) ->
    m (Rdr (pre ++ bs ++ post) (length pre)) =
    Ok (v, Rdr (pre ++ bs ++ post) (length pre + length bs)).

Definition parses_all {A} (m : Rd A) (bs : bytes) (v : A) : Prop :=
  forall pre, bytes_ok (pre ++ bs) ->
    m (Rdr (pre ++ bs) (length pre)) = Ok (v, Rdr (pre ++ bs) (length pre + length bs)).

Lemma parses_end {A} (m : Rd A) bs v : parses m bs v -> parses_all m bs v.
Proof.
  intros H pre Hok. specialize (H pre []). rewrite app_nil_r in H. auto.
Qed.

Lemma parses_ret {A} (v : A) : parses (rd_ret v) [] v.
Proof. intros pre post _. unfold rd_ret. do 2 f_equal. simpl. by rewrite Nat.add_0_r. Qed.

Lemma parses_bind {A B} (m : Rd A) (f : A -> Rd B) bs cs a b :
  parses m bs a -> parses (f a) cs b -> parses (rd_bind m f) (bs ++ cs) b.
Proof.
  intros Hm Hf pre post Hok. unfold rd_bind.
  specialize (Hm pre (cs ++ post)). rewrite <- app_assoc in *.
  rewrite Hm by done. cbn [obind].
  specialize (Hf (pre ++ bs) post). rewrite <- app_assoc, !length_app in *.
  rewrite Hf by done. by rewrite Nat.add_assoc.
Qed.

Lemma parses_bind_nil {A B} (m : Rd A) (f : A -> Rd B) bs a b :
  parses m bs a -> parses (f a) [] b -> parses (rd_bind m f) bs b.
Proof. intros. rewrite <- (app_nil_r bs). by eapply parses_bind. Qed.

Lemma parses_all_bind {A B} (m : Rd A) (f : A -> Rd B) bs cs a b :
  parses m bs a -> parses_all (f a) cs b -> parses_all (rd_bind m f) (bs ++ cs) b.
Proof.
  intros Hm Hf pre Hok. unfold rd_bind. specialize (Hm pre cs). rewrite Hm by done.
  cbn [obind]. specialize (Hf (pre ++ bs)). rewrite <- app_assoc, !length_app in *.
  rewrite Hf by done. by rewrite Nat.add_assoc.
Qed.

Lemma fixed_parses {A} k (m : Rd A) f bs :
  fixed_read k m f -> length bs = k -> parses m bs (f bs).
Proof.
  intros Hm <- pre post Hok. rewrite Hm.
  - unfold rd_left, window. simpl. rewrite !length_app.
    rewrite (proj2 (Nat.ltb_ge _ _)) by lia. by rewrite drop_app_exact, take_app_length.
  - split; [done|]. simpl. rewrite !length_app. lia.
Qed.

Lemma parses_read_bytes n bs : n = Z.of_nat (length bs) -> parses (read_bytes n) bs bs.
Proof.
  intros ->. eapply (fixed_parses _ _ id bs); [apply fixed_bytes; lia|lia].
Qed.

Lemma parses_get_offset {A} (f : Z -> Rd A) bs v :
  (forall o, parses (f o) bs v) -> parses (rd_bind get_offset f) bs v.
Proof. intros H pre post Hok. unfold rd_bind, get_offset. simpl. by apply H. Qed.

Lemma parses_require {A} (m : Rd A) n bs v :
  n <= Z.of_nat (length bs) -> parses m bs v -> parses (require n ;! m) bs v.
Proof.
  intros Hn H pre post Hok. unfold rd_bind, require. rewrite rd_remaining_left.
  - unfold rd_left. simpl. rewrite !length_app.
    rewrite (proj2 (Z.ltb_ge _ _)) by lia. simpl. by apply H.
  - split; [done|]. simpl. rewrite !length_app. lia.
Qed.

(** A second reader over a borrowed or copied span. *)
Definition with_sub {A} (data : bytes) (m : Rd A) : Rd A :=
  fun r => obind (m (mk_reader data)) (fun '(a, _) => Ok (a, r)).

Lemma rd_ok_mk data : bytes_ok data -> rd_ok (mk_reader data).
Proof. intros. split; [done|simpl; lia]. Qed.

Lemma triple_with_sub {A} data n (m : Rd A) Q :
  bytes_ok data -> triple n m Q -> triple 0 (with_sub data m) Q.
Proof.
  intros Hd Hm r Hr. unfold with_sub.
  eapply oholds_bind; [apply Hm, rd_ok_mk, Hd|]. intros [a r'] [_ HQ]. simpl.
  split; [|done]. split_and!; [apply Hr..|done|lia].
Qed.

Lemma parses_with_sub {A B} data (m : Rd A) a r' (f : A -> Rd B) bs v :
  m (mk_reader data) = Ok (a, r') -> parses (f a) bs v ->
  parses (rd_bind (with_sub data m) f) bs v.
Proof.
  intros Hm Hf pre post Hok. unfold rd_bind, with_sub. rewrite Hm. cbn [obind].
  by apply Hf.
Qed.

(** Sequencing where only progress matters: all of it from the first action, or
    none required. *)
Lemma triple_first {A B} n (m : Rd A) (f : A -> Rd B) P Q :
  triple n m P -> (forall a, P a -> triple 0 (f a) Q) -> triple n (rd_bind m f) Q.
Proof. intros Hm Hf. rewrite <- (Nat.add_0_r n). by eapply triple_bind. Qed.

Lemma triple_step {A B} n (m : Rd A) (f : A -> Rd B) P Q :
  triple n m P -> (forall a, P a -> triple 0 (f a) Q) -> triple 0 (rd_bind m f) Q.
Proof.
  intros Hm Hf. eapply (triple_mono n 0); [by eapply triple_first|lia|done].
Qed.

Lemma triple_weaken {A} n (m : Rd A) Q : triple n m Q -> triple 0 m Q.
Proof. intros H. eapply triple_mono; [done|lia|done]. Qed.

Lemma advances_left n r r' : rd_ok r -> advances n r r' -> (rd_left r' + n <= rd_left r)%nat.
Proof. intros Hr ([_ Hle] & Hd & Hp). unfold rd_left. rewrite Hd in *. lia. Qed.

(** One step of a loop bounded by the bytes left. *)
Lemma bind_left {A B} n (m : Rd A) (f : A -> Rd B) P Q r :
  triple n m P -> rd_ok r ->
  (forall a r', rd_ok r' -> (rd_left r' + n <= rd_left r)%nat -> P a -> oholds (f a r') Q) ->
  oholds (rd_bind m f r) Q.
Proof.
  intros Hm Hr Hf. unfold rd_bind. eapply oholds_bind; [by apply Hm|]. intros [a r'] [Hadv HP].
  apply Hf; [apply Hadv|by apply advances_left|done].
Qed.

Lemma triple_u8_width z : is_byte z -> 0 <= z.
Proof. unfold is_byte. lia. Qed.
Lemma triple_u16_width z : is_u16 z -> 0 <= z.
Proof. unfold is_u16. lia. Qed.
Lemma triple_u64_width z : is_u64 z -> 0 <= z.
Proof. unfold is_u64. lia. Qed.

Create HintDb rd discriminated.
#[export] Hint Resolve triple_u8 triple_u16le triple_u32le triple_u64le
  triple_u16be triple_u32be triple_u64be triple_varint triple_svarint
  triple_get_offset triple_require triple_bytes triple_with_sub triple_throw
  triple_ret triple_u8_width triple_u16_width triple_u64_width : rd.

(** One step of a safety proof: the next action by its [rd] lemma. *)
Ltac rd_step :=
  eapply triple_step; [solve [eauto with rd] | intros; cbv beta in * ].
Ltac rd_first :=
  eapply triple_first; [solve [eauto with rd] | intros; cbv beta in * ].

(** A fixed-length read at a known position. *)
Definition le_at (data : bytes) (k n : nat) : Z := le_val (take n (drop k data)).

Lemma fixed_at {A} k (m : Rd A) f data p :
  fixed_read k m f -> bytes_ok data -> (p + k <= length data)%nat ->
  m (Rdr data p) = Ok (f (take k (drop p data)), Rdr data (p + k)).
Proof.
  intros Hm Hd Hp. rewrite Hm by (split; [done|simpl; lia]).
  unfold rd_left. cbn [rd_data rd_pos]. by rewrite (proj2 (Nat.ltb_ge _ _)) by lia.
Qed.

Lemma bind_at {A B} k (m : Rd A) f (g : A -> Rd B) data p :
  fixed_read k m f -> bytes_ok data -> (p + k <= length data)%nat ->
  rd_bind m g (Rdr data p) = g (f (take k (drop p data))) (Rdr data (p + k)).
Proof. intros Hm Hd Hp. unfold rd_bind. by rewrite (fixed_at k m f). Qed.

Lemma le_at_range data k n : bytes_ok data -> 0 <= le_at data k n < 256 ^ Z.of_nat n.
Proof.
  intros Hd. unfold le_at. pose proof (le_val_bound (take n (drop k data)) ltac:(auto with bw)) as H.
  assert (length (take n (drop k data)) <= n)%nat by (rewrite length_take; lia).
  assert (256 ^ Z.of_nat (length (take n (drop k data))) <= 256 ^ Z.of_nat n)
    by (apply Z.pow_le_mono_r; lia). lia.
Qed.

(** ** What the writer appends *)

Fixpoint le_bytes (n : nat) (v : Z) : bytes :=
  match n with O => [] | S n' => v mod 256 :: le_bytes n' (v / 256) end.

Lemma length_le_bytes n v : length (le_bytes n v) = n.
Proof. revert v. induction n; simpl; auto. Qed.

Lemma le_bytes_ok n v : bytes_ok (le_bytes n v).
Proof.
  revert v. induction n as [|n IH]; intros v; constructor; [|apply IH].
  unfold is_byte. by apply Z.mod_pos_bound.
Qed.

Lemma le_val_le_bytes n v : 0 <= v < 256 ^ Z.of_nat n -> le_val (le_bytes n v) = v.
Proof.
  revert v. induction n as [|n IH]; intros v; [simpl; lia|].
  rewrite Nat2Z.inj_succ, Z.pow_succ_r by lia. intros Hv. cbn [le_bytes le_val].
  rewrite IH; [|split; [apply Z.div_pos; lia|apply Z.div_lt_upper_bound; lia]].
  rewrite (Z.div_mod v 256) at 3 by lia. lia.
Qed.

Lemma byte_of_shift v k : 0 <= k -> u8 (Z.land (Z.shiftr v k) 0xFF) = (v / 2 ^ k) mod 256.
Proof.
  intros Hk. rewrite land_ff, Z.shiftr_div_pow2 by done. unfold u8.
  apply Z.mod_mod. lia.
Qed.

Lemma le_bytes_shifts n v k :
  0 <= k ->
  le_bytes n (v / 2 ^ (8 * k)) =
  map (fun i => u8 (Z.land (Z.shiftr v (8 * i)) 0xFF)) (seqZ k (Z.of_nat n)).
Proof.
  revert k. induction n as [|n IH]; intros k Hk; [done|].
  rewrite seqZ_cons by lia. cbn [le_bytes map]. f_equal.
  - by rewrite byte_of_shift by lia.
  - rewrite Z.div_div by lia.
    replace (2 ^ (8 * k) * 256) with (2 ^ (8 * Z.succ k))
      by (rewrite Z.mul_succ_r, Z.pow_add_r by lia; done).
    rewrite IH by lia. do 2 f_equal; lia.
Qed.

Lemma put_u16le_app w v : put_u16le w v = w ++ le_bytes 2 v.
Proof.
  unfold put_u16le. f_equal. simpl. f_equal; [|f_equal].
  - by rewrite <- (Z.shiftr_0_r v) at 1; rewrite byte_of_shift, Z.div_1_r by lia.
  - by rewrite byte_of_shift by lia.
Qed.
Lemma put_u16be_app w v : put_u16be w v = w ++ rev (le_bytes 2 v).
Proof.
  pose proof (put_u16le_app [] v) as H. unfold put_u16be, put_u16le in *. simpl in *.
  f_equal. injection H as -> ->. done.
Qed.

Lemma put_shifts_app w v n :
  put_shifts w v (seqZ 0 (Z.of_nat n)) = w ++ le_bytes n v.
Proof.
  unfold put_shifts. rewrite <- le_bytes_shifts by lia. by rewrite Z.div_1_r.
Qed.
Lemma put_shifts_rev_app w v n :
  put_shifts w v (rev (seqZ 0 (Z.of_nat n))) = w ++ rev (le_bytes n v).
Proof.
  unfold put_shifts. rewrite map_rev, <- le_bytes_shifts by lia. by rewrite Z.div_1_r.
Qed.

Lemma put_u32le_app w v : put_u32le w v = w ++ le_bytes 4 v.
Proof. apply (put_shifts_app w v 4). Qed.
Lemma put_u64le_app w v : put_u64le w v = w ++ le_bytes 8 v.
Proof. apply (put_shifts_app w v 8). Qed.
Lemma put_u32be_app w v : put_u32be w v = w ++ rev (le_bytes 4 v).
Proof. apply (put_shifts_rev_app w v 4). Qed.
Lemma put_u64be_app w v : put_u64be w v = w ++ rev (le_bytes 8 v).
Proof. apply (put_shifts_rev_app w v 8). Qed.

#[export] Hint Rewrite put_u16le_app put_u32le_app put_u64le_app
  put_u16be_app put_u32be_app put_u64be_app : bw_put.

Lemma parses_u8 b : parses read_u8 [b] b.
Proof. apply (fixed_parses 1 _ (hd 0)); [apply fixed_u8|done]. Qed.

Lemma parses_le {m k v} :
  fixed_read k m le_val -> 0 <= v < 256 ^ Z.of_nat k -> parses m (le_bytes k v) v.
Proof.
  intros Hm Hv. rewrite <- (le_val_le_bytes k v) at 2 by done.
  apply (fixed_parses k); [done|apply length_le_bytes].
Qed.
Lemma parses_be {m k v} :
  fixed_read k m (fun l => le_val (rev l)) -> 0 <= v < 256 ^ Z.of_nat k ->
  parses m (rev (le_bytes k v)) v.
Proof.
  intros Hm Hv. rewrite <- (le_val_le_bytes k v) at 2 by done.
  rewrite <- (rev_involutive (le_bytes k v)) at 2.
  apply (fixed_parses k _ (fun l => le_val (rev l))); [done|].
  by rewrite length_rev, length_le_bytes.
Qed.

Lemma parses_u16le v : is_u16 v -> parses read_u16le (le_bytes 2 v) v.
Proof. intros. by apply (parses_le fixed_u16le). Qed.
Lemma parses_u32le v : is_u32 v -> parses read_u32le (le_bytes 4 v) v.
Proof. intros. by apply (parses_le fixed_u32le). Qed.
Lemma parses_u64le v : is_u64 v -> parses read_u64le (le_bytes 8 v) v.
Proof. intros. by apply (parses_le fixed_u64le). Qed.
Lemma parses_u16be v : is_u16 v -> parses read_u16be (rev (le_bytes 2 v)) v.
Proof. intros. by apply (parses_be fixed_u16be). Qed.
Lemma parses_u32be v : is_u32 v -> parses read_u32be (rev (le_bytes 4 v)) v.
Proof. intros. by apply (parses_be fixed_u32be). Qed.
Lemma parses_u64be v : is_u64 v -> parses read_u64be (rev (le_bytes 8 v)) v.
Proof. intros. by apply (parses_be fixed_u64be). Qed.

Lemma parses_cons {B} (f : Z -> Rd B) b bs v :
  parses (f b) bs v -> parses (rd_bind read_u8 f) (b :: bs) v.
Proof. intros H. by apply (parses_bind read_u8 f [b] bs b v (parses_u8 b)). Qed.

(** *** Varints *)

Lemma put_varint_loop_app fuel w v :
  put_varint_loop fuel w v = w ++ put_varint_loop fuel [] v.
Proof.
  revert w v. induction fuel as [|fuel IH]; intros w v; simpl; [by rewrite app_nil_r|].
  case_bool; [|done]. rewrite IH, (IH (_ :: _)). by rewrite <- app_assoc.
Qed.

Definition varint_bytes (v : Z) : bytes := put_varint [] v.

Lemma put_varint_app w v : put_varint w v = w ++ varint_bytes v.
Proof. apply put_varint_loop_app. Qed.

Lemma varint_loop_parses fuel n start shift result v :
  (fuel <= n)%nat -> 0 <= shift -> 0 <= result < 2 ^ shift ->
  0 <= v -> v * 2 ^ shift < 2 ^ 64 -> v < 2 ^ (7 * Z.of_nat fuel) -> (0 < fuel)%nat ->
  parses (varint_loop n start shift result) (put_varint_loop fuel [] v)
         (result + v * 2 ^ shift).
Proof.
  revert n shift result v. induction fuel as [|fuel IH];
    intros n shift result v Hn Hs Hr Hv H64 Hf H0; [lia|].
  destruct n as [|n]; [lia|]. cbn [varint_loop put_varint_loop].
  assert (Hp : 0 < 2 ^ shift) by lia.
  destruct (128 <=? v) eqn:E; reflect_bools; cbn [app].
  - rewrite put_varint_loop_app. eapply parses_bind; [apply parses_u8|]. cbv beta.
    set (b := u8 _).
    assert (Hb : b = v mod 128 + 128).
    { unfold b. rewrite land_7f. change 128 with (Z.shiftl 1 7) at 2.
      rewrite lor_shiftl_add by (pose proof (Z.mod_pos_bound v 128); lia).
      unfold u8. dlia. }
    assert (is_byte b) by (unfold is_byte; dlia).
    rewrite byte_high_bit by done. rewrite (proj2 (Z.ltb_ge _ _)) by dlia.
    rewrite land_7f. replace (b mod 128) with (v mod 128) by dlia.
    assert (Hm : u64 (Z.shiftl (v mod 128) shift) = Z.shiftl (v mod 128) shift).
    { unfold u64. rewrite Z.shiftl_mul_pow2 by done. apply Z.mod_small.
      pose proof (Z.mod_pos_bound v 128). pose proof (Z.mod_le v 128). nia. }
    rewrite Hm, lor_shiftl_add, Z.shiftr_div_pow2 by (done || lia).
    change (2 ^ 7) with 128.
    assert (Hpow : 2 ^ (shift + 7) = 2 ^ shift * 128) by (rewrite Z.pow_add_r; lia).
    assert (Hdm : v = 128 * (v / 128) + v mod 128) by (apply Z.div_mod; lia).
    pose proof (Z.mod_pos_bound v 128 ltac:(lia)).
    replace (result + v * 2 ^ shift) with
      (result + v mod 128 * 2 ^ shift + v / 128 * 2 ^ (shift + 7)) by nia.
    assert (0 <= v / 128) by dlia.
    replace (7 * Z.of_nat (S fuel)) with (7 * Z.of_nat fuel + 7) in Hf by lia.
    rewrite Z.pow_add_r in Hf by lia. change (2 ^ 7) with 128 in Hf.
    apply IH; try lia; try nia.
    destruct fuel; [|lia]. simpl in Hf. lia.
  - rewrite <- (app_nil_r [u8 v]).
    eapply parses_bind; [apply parses_u8|]. cbv beta.
    assert (Hb : u8 v = v) by (unfold u8; apply Z.mod_small; lia). rewrite Hb.
    rewrite byte_high_bit by (unfold is_byte; lia).
    rewrite (proj2 (Z.ltb_lt _ _)), land_7f, Z.mod_small by lia.
    assert (Hm : u64 (Z.shiftl v shift) = Z.shiftl v shift).
    { unfold u64. rewrite Z.shiftl_mul_pow2 by done. apply Z.mod_small. nia. }
    rewrite Hm, lor_shiftl_add by done. apply parses_ret.
Qed.

Lemma parses_varint v : is_u64 v -> parses read_varint (varint_bytes v) v.
Proof.
  intros Hv. apply parses_get_offset. intros o.
  replace v with (0 + v * 2 ^ 0) at 2 by lia. width.
  apply varint_loop_parses; lia.
Qed.

(** *** Zig-zag *)

Lemma zigzag_put v : is_i64 v ->
  Z.lxor (u64 (Z.shiftl (u64 v) 1)) (u64 (Z.shiftr v 63)) =
  if 0 <=? v then 2 * v else - 2 * v - 1.
Proof.
  intros Hv. unfold is_i64 in Hv. rewrite Z.shiftl_mul_pow2, Z.shiftr_div_pow2 by lia.
  case_bool; reflect_bools; unfold u64.
  - rewrite (Z.div_small v), Z.mod_0_l, Z.lxor_0_r by lia.
    rewrite (Z.mod_small v), Z.mod_small by lia. lia.
  - assert (H1 : v / 2 ^ 63 = -1) by dlia. rewrite H1.
    assert (H0 : v mod 2 ^ 64 = v + 2 ^ 64).
    { symmetry. apply (Z.mod_unique_pos _ _ (-1)); lia. }
    assert (H2 : (v mod 2 ^ 64 * 2 ^ 1) mod 2 ^ 64 = 2 ^ 64 + 2 * v).
    { symmetry. apply (Z.mod_unique_pos _ _ 1); lia. }
    rewrite H2.
    change (-1 mod 2 ^ 64) with (Z.ones 64).
    rewrite lxor_ones_sub by lia. change (Z.ones 64) with (2 ^ 64 - 1). lia.
Qed.

Lemma zigzag_get u : is_u64 u ->
  i64 (Z.lxor (Z.shiftr u 1) (u64 (u64 (Z.lnot (Z.land u 1)) + 1))) =
  if u mod 2 =? 0 then u / 2 else - (u / 2) - 1.
Proof.
  intros Hu. width. rewrite land_1, Z.shiftr_div_pow2 by lia.
  assert (Hm : u mod 2 = 0 \/ u mod 2 = 1) by dlia.
  destruct Hm as [-> | ->];
    [change (0 =? 0) with true | change (1 =? 0) with false]; cbv iota.
  - change ((Z.lnot 0 mod 2 ^ 64 + 1) mod 2 ^ 64) with 0. rewrite Z.lxor_0_r.
    unfold i64, u64. rewrite Z.mod_small by dlia. by rewrite (proj2 (Z.ltb_lt _ _)) by dlia.
  - change ((Z.lnot 1 mod 2 ^ 64 + 1) mod 2 ^ 64) with (Z.ones 64).
    rewrite lxor_ones_sub by dlia. change (Z.ones 64) with (2 ^ 64 - 1). unfold i64, u64.
    rewrite Z.mod_small by dlia. rewrite (proj2 (Z.ltb_ge _ _)) by dlia. dlia.
Qed.

Lemma parses_svarint v : is_i64 v -> parses read_svarint (put_svarint [] v) v.
Proof.
  intros Hv. unfold put_svarint. rewrite zigzag_put by done.
  set (z := if 0 <=? v then _ else _).
  assert (Hz : is_u64 z).
  { unfold z. width. case_bool; reflect_bools; lia. }
  rewrite put_varint_app, app_nil_l, <- (app_nil_r (varint_bytes z)).
  eapply parses_bind; [by apply parses_varint|]. cbv beta. rewrite zigzag_get by done.
  replace (if z mod 2 =? 0 then _ else _) with v; [apply parses_ret|].
  unfold z. destruct (0 <=? v) eqn:E; reflect_bools; case_bool; reflect_bools; dlia.
Qed.

Lemma put_varint_loop_ok fuel v :
  0 <= v < 2 ^ 64 -> bytes_ok (put_varint_loop fuel [] v).
Proof.
  revert v. induction fuel as [|fuel IH]; intros v Hv; simpl; [constructor|].
  case_bool; reflect_bools.
  - rewrite put_varint_loop_app. apply bytes_ok_app. split.
    + constructor; [|constructor]. unfold is_byte, u8. by apply Z.mod_pos_bound.
    + apply IH. rewrite Z.shiftr_div_pow2 by lia. dlia.
  - constructor; [|constructor]. unfold is_byte, u8. by apply Z.mod_pos_bound.
Qed.
Lemma varint_bytes_ok v : is_u64 v -> bytes_ok (varint_bytes v).
Proof. apply put_varint_loop_ok. Qed.

(** ** Back-patching *)

Lemma patch_reserved w rest v :
  patch_u32le (w ++ replicate 4 0 ++ rest) (length w) v = Ok (w ++ le_bytes 4 v ++ rest).
Proof.
  unfold patch_u32le. rewrite (proj2 (Nat.leb_le _ _)) by (rewrite !length_app; simpl; lia).
  pose proof (put_u32le_app [] v) as E. unfold put_u32le, put_shifts in E. simpl in E.
  injection E as E0 E1 E2 E3. cbn [foldl].
  rewrite insert_app_r. cbn [replicate app].
  rewrite !insert_app_r_alt by lia.
  rewrite (Nat.add_comm (length w) 1), (Nat.add_comm (length w) 2),
    (Nat.add_comm (length w) 3), !Nat.add_sub. cbn [list_insert insert].
  change (Z.of_nat 0) with 0. change (Z.of_nat 1) with 1.
  change (Z.of_nat 2) with 2. change (Z.of_nat 3) with 3.
  rewrite E0, E1, E2, E3. done.
Qed.

(** ** Reads whose length depends on the bytes *)

(** The bytes of a varint that starts [l], up to the first one without the continuation
    bit, and the number their low seven bits make, least significant first. *)
Definition leb_len (l : bytes) : option nat := (fun x => S x.1) <$> list_find (fun b => b < 128) l.
Fixpoint leb_val (l : bytes) : Z := match l with [] => 0 | b :: l' => b mod 128 + 128 * leb_val l' end.

(** [varint_read m f]: [m] returns [f] of the number a varint of at most ten bytes at the
    cursor makes, modulo 2^64; it throws at the end of a buffer that ends inside the
    varint, and at its start when the tenth byte continues it. *)
Definition varint_read {A} (m : Rd A) (f : Z -> A) : Prop :=
  forall r, rd_ok r ->
    m r = match leb_len (window 10 r) with
          | Some k => Ok (f (u64 (leb_val (window k r))), Rdr (rd_data r) (rd_pos r + k))
          | None => Throw (if (rd_left r <? 10)%nat
                           then parse_error' kShortRead (Z.of_nat (length (rd_data r)))
                           else parse_error kBadLength (rd_offset r) "varint too long")
          end.

Definition unzigzag (u : Z) : Z := if u mod 2 =? 0 then u / 2 else - (u / 2) - 1.

Lemma leb_len_cons b l : leb_len (b :: l) = if b <? 128 then Some 1%nat else S <$> leb_len l.
Proof.
  unfold leb_len. cbn [list_find]. destruct (Z.ltb_spec b 128); [by rewrite decide_True by done|].
  rewrite decide_False by lia. destruct (list_find _ l) as [[k c]|]; done.
Qed.

Lemma leb_val_bound l : 0 <= leb_val l.
Proof. induction l as [|b l IH]; cbn [leb_val]; [lia|]. pose proof (Z.mod_pos_bound b 128 ltac:(lia)). lia. Qed.

(** Seven more bits above [shift]. *)
Lemma lor_digit v c shift : 0 <= shift < 64 -> 0 <= v < 2 ^ shift -> 0 <= c ->
  Z.lor v (u64 (Z.shiftl c shift)) = u64 (v + c * 2 ^ shift).
Proof.
  intros Hs Hv Hc. assert (E : 2 ^ 64 = 2 ^ (64 - shift) * 2 ^ shift) by (rewrite <- Z.pow_add_r by lia; f_equal; lia).
  set (d := c mod 2 ^ (64 - shift)). assert (Hd : 0 <= d < 2 ^ (64 - shift)) by (apply Z.mod_pos_bound; lia).
  assert (E1 : u64 (Z.shiftl c shift) = Z.shiftl d shift).
  { unfold u64. rewrite !Z.shiftl_mul_pow2, E, Zmult_mod_distr_r by lia. done. }
  rewrite E1, lor_shiftl_add by lia. unfold u64. rewrite E.
  apply (Z.mod_unique_pos _ _ (c / 2 ^ (64 - shift))); [nia|].
  pose proof (Z.div_mod c (2 ^ (64 - shift)) ltac:(lia)) as H. fold d in H. nia.
Qed.

(** The next turn of the loop starts from [v] with the seven bits of [c] added. *)
Lemma varint_digits v c shift (n : nat) : shift = 7 * (9 - Z.of_nat n) -> (n <= 9)%nat -> 0 <= v < 2 ^ shift -> 0 <= c < 128 ->
  n = 0%nat \/ 0 <= u64 (v + c * 2 ^ shift) < 2 ^ (shift + 7).
Proof.
  intros Hs Hn Hv Hc. destruct n as [|n]; [by left|right].
  assert (2 ^ (shift + 7) <= 2 ^ 63) by (apply Z.pow_le_mono_r; lia).
  rewrite Z.pow_add_r in * by lia. change (2 ^ 7) with 128 in *.
  unfold u64. rewrite Z.mod_small by nia. nia.
Qed.

Lemma u64_digits v c l shift : 0 <= shift ->
  u64 (u64 (v + c * 2 ^ shift) + l * 2 ^ (shift + 7)) = u64 (v + (c + 128 * l) * 2 ^ shift).
Proof.
  intros Hs. unfold u64. rewrite Zplus_mod_idemp_l, Z.pow_add_r by lia. f_equal. change (2 ^ 7) with 128. lia.
Qed.

Lemma varint_loop_spec n : forall start shift v data pos, bytes_ok data -> (pos <= length data)%nat -> (n <= 10)%nat ->
  shift = 7 * (10 - Z.of_nat n) -> n = 0%nat \/ 0 <= v < 2 ^ shift ->
  varint_loop n start shift v (Rdr data pos) =
    match leb_len (take n (drop pos data)) with
    | Some k => Ok (u64 (v + leb_val (take k (drop pos data)) * 2 ^ shift), Rdr data (pos + k))
    | None => Throw (if (length data - pos <? n)%nat then parse_error' kShortRead (Z.of_nat (length data))
                     else parse_error kBadLength start "varint too long")
    end.
Proof.
  induction n as [|n IH]; intros start shift v data pos Hd Hp Hn Hs Hv; [by rewrite take_0|].
  destruct Hv as [|Hv]; [done|]. cbn [varint_loop]. unfold rd_bind at 1. rewrite fixed_u8 by by split.
  unfold rd_left, window, rd_offset. cbn [rd_data rd_pos]. destruct (drop pos data) as [|b l] eqn:El.
  { apply (f_equal length) in El. rewrite length_drop in El. cbn in El. rewrite !(proj2 (Nat.ltb_lt _ _)) by lia.
    change (leb_len (take (S n) [])) with (@None nat). cbn [obind]. do 2 f_equal. lia. }
  assert (Hl : length data = (pos + S (length l))%nat).
  { apply (f_equal length) in El. rewrite length_drop in El. cbn in El. lia. }
  assert (Hb : is_byte b) by (assert (Hbl : bytes_ok (b :: l)) by (rewrite <- El; by apply bytes_ok_drop); exact (Forall_inv Hbl)).
  pose proof (Z.mod_pos_bound b 128 ltac:(lia)).
  rewrite (proj2 (Nat.ltb_ge _ 1)) by lia. cbn [obind take hd].
  rewrite byte_high_bit, land_7f, leb_len_cons, lor_digit by (done || lia). destruct (Z.ltb_spec b 128) as [H7|H7]; cbn [negb].
  { cbn [take leb_val]. unfold rd_ret. by rewrite Z.mul_0_r, Z.add_0_r. }
  assert (El' : drop (pos + 1) data = l) by (rewrite <- drop_drop, El; done).
  rewrite (IH start) by (done || lia || (apply varint_digits; lia)). rewrite El'.
  replace (length data - (pos + 1) <? n)%nat with (length data - pos <? S n)%nat
    by (destruct (Nat.ltb_spec (length data - pos) (S n)), (Nat.ltb_spec (length data - (pos + 1)) n); done || lia).
  destruct (leb_len (take n l)) as [k|]; [|done]. cbn [fmap option_fmap option_map take leb_val].
  rewrite u64_digits by lia. do 3 f_equal. lia.
Qed.

Lemma varint_exact : varint_read read_varint (fun u => u).
Proof.
  intros [data pos] [Hd Hp]. unfold read_varint, rd_bind, get_offset. cbn [obind].
  rewrite varint_loop_spec by (done || lia). unfold window, rd_left. cbn [rd_data rd_pos].
  destruct (leb_len _); [by rewrite Z.mul_1_r, Z.add_0_l|]. by destruct (_ <? _)%nat.
Qed.

Lemma u64_range z : is_u64 (u64 z).
Proof. apply Z.mod_pos_bound. lia. Qed.

Lemma svarint_exact : varint_read read_svarint unzigzag.
Proof.
  intros r Hr. unfold read_svarint, rd_bind. rewrite (varint_exact r Hr).
  destruct (leb_len (window 10 r)) as [k|]; [|by destruct (_ <? _)%nat]. cbn [obind]. unfold rd_ret.
  by rewrite zigzag_get by apply u64_range.
Qed.

(** ** Reads that keep the cursor, and the moves *)

Lemma require_exact (n : nat) r : rd_ok r ->
  require (Z.of_nat n) r = if (rd_left r <? n)%nat then Throw (parse_error' kShortRead (rd_offset r)) else Ok (tt, r).
Proof.
  intros Hr. unfold require. rewrite rd_remaining_left by done.
  by destruct (Nat.ltb_spec (rd_left r) n), (Z.ltb_spec (Z.of_nat (rd_left r)) (Z.of_nat n)); (done || lia).
Qed.

Lemma skip_exact (n : nat) : fixed_read n (skip (Z.of_nat n)) (fun _ => tt).
Proof. apply fixed_read_intro; [done|]. intros r _ _. unfold rd_advance. by rewrite Nat2Z.id. Qed.

Lemma peek_exact r : rd_ok r ->
  peek_u8 r = if (rd_left r <? 1)%nat then Throw (parse_error' kShortRead (rd_offset r)) else Ok (hd 0 (window 1 r), r).
Proof.
  intros Hr. unfold peek_u8, rd_bind. rewrite (require_exact 1) by done.
  destruct (Nat.ltb_spec (rd_left r) 1) as [|Hk]; [done|]. cbn [obind].
  destruct (rd_at_window 0 1 r ltac:(lia) Hk) as (b & Hb & ->). by destruct (window 1 r); simplify_eq/=.
Qed.

Lemma match_exact expected n r : rd_ok r -> (n <= length expected)%nat ->
  rd_match expected n r = Ok (bool_decide (window n r = take n expected), r).
Proof.
  intros Hr Hn. unfold rd_match. rewrite rd_remaining_left by done. destruct (Nat.ltb_spec (rd_left r) n) as [Hk|Hk].
  - rewrite bool_decide_false; [done|]. intros E. apply (f_equal length) in E. revert E.
    unfold window, rd_left in *. rewrite !length_take, length_drop. lia.
  - unfold copy_range, rd_left in *. destruct Hr as [_ Hp]. rewrite (proj2 (Nat.leb_le _ _)) by lia. done.
Qed.

Lemma seek_exact (pos : nat) r :
  seek (Z.of_nat pos) r = if (length (rd_data r) <? pos)%nat
                          then Throw (parse_error kBadLength (Z.of_nat pos) "seek past end of buffer")
                          else Ok (tt, Rdr (rd_data r) pos).
Proof.
  unfold seek, rd_size. rewrite Nat2Z.id.
  by destruct (Nat.ltb_spec (length (rd_data r)) pos), (Z.ltb_spec (Z.of_nat (length (rd_data r))) (Z.of_nat pos)); (done || lia).
Qed.

(** ** Claims *)

(** C31. Every writer of an integer is undone by its reader, anywhere in a buffer, and the
    cursor ends exactly behind it: the fixed widths in either byte order; [put_varint], read
    back as any 64-bit unsigned value; and [put_svarint], as any 64-bit signed one. *)
Theorem integer_roundtrip (pre post : bytes) (h w d s : Z) :
  bytes_ok pre -> bytes_ok post -> is_u16 h -> is_u32 w -> is_u64 d -> is_i64 s ->
  let at_pre (f : bytes) := Rdr (f ++ post) (length pre) in
  let at_post (f : bytes) := Rdr (f ++ post) (length f) in
  read_u16le (at_pre (put_u16le pre h)) = Ok (h, at_post (put_u16le pre h)) /\
  read_u16be (at_pre (put_u16be pre h)) = Ok (h, at_post (put_u16be pre h)) /\
  read_u32le (at_pre (put_u32le pre w)) = Ok (w, at_post (put_u32le pre w)) /\
  read_u32be (at_pre (put_u32be pre w)) = Ok (w, at_post (put_u32be pre w)) /\
  read_u64le (at_pre (put_u64le pre d)) = Ok (d, at_post (put_u64le pre d)) /\
  read_u64be (at_pre (put_u64be pre d)) = Ok (d, at_post (put_u64be pre d)) /\
  read_varint (at_pre (put_varint pre d)) = Ok (d, at_post (put_varint pre d)) /\
  read_svarint (at_pre (put_svarint pre s)) = Ok (s, at_post (put_svarint pre s)).
Proof.
  intros Hpre Hpost Hh Hw Hd Hs. cbv zeta.
  assert (E : put_svarint pre s = pre ++ put_svarint [] s) by (unfold put_svarint; by rewrite put_varint_app).
  rewrite E, put_varint_app. autorewrite with bw_put. rewrite !length_app, <- !app_assoc.
  assert (Hok : forall bs, bytes_ok bs -> bytes_ok (pre ++ bs ++ post)) by (intros bs Hbs; by rewrite !bytes_ok_app).
  assert (Hle : forall n v, bytes_ok (pre ++ le_bytes n v ++ post)) by (intros; apply Hok, le_bytes_ok).
  assert (Hbe : forall n v, bytes_ok (pre ++ rev (le_bytes n v) ++ post)) by (intros; apply Hok, List.Forall_rev, le_bytes_ok).
  assert (Hz : bytes_ok (put_svarint [] s)).
  { unfold put_svarint. rewrite zigzag_put by done. apply varint_bytes_ok. width. case_bool; reflect_bools; lia. }
  split_and!; [apply parses_u16le|apply parses_u16be|apply parses_u32le
    |apply parses_u32be|apply parses_u64le|apply parses_u64be|apply parses_varint|apply parses_svarint]; auto using varint_bytes_ok.
Qed.

Lemma integer_roundtrip_witness :
  read_u32be (Rdr ([9] ++ [0xDE; 0xAD; 0xBE; 0xEF] ++ [7]) 1) =
    Ok (0xDEADBEEF, Rdr ([9] ++ [0xDE; 0xAD; 0xBE; 0xEF] ++ [7]) 5) /\
  read_varint (Rdr (put_varint [9] 300 ++ [7]) 1) = Ok (300, Rdr [9; 172; 2; 7] 3) /\
  read_svarint (Rdr (put_svarint [9] (-65) ++ [7]) 1) = Ok (-65, Rdr [9; 129; 1; 7] 3).
Proof.
  destruct (integer_roundtrip [9] [7] 0x1234 0xDEADBEEF 300 (-65)) as (_ & _ & _ & H1 & _ & _ & H2 & H3);
    [first [apply (bool_decide_unpack _); by vm_compute | by split]..|].
  split; [exact H1|]. split; [exact H2|exact H3].
Defined.

(** C32. Every operation of the reader is completely described by the bytes at the cursor. A
    fixed-width or counted read, or a skip, throws [kShortRead] at the cursor when the buffer
    is too short, and otherwise returns the little- or big-endian value (or the copy) of exactly
    the next bytes and moves past them. A varint takes the bytes up to the first one below
    0x80, ten at most, and returns the number their low seven bits make, least significant
    first, modulo 2^64, or its zig-zag reading; a buffer that ends first throws [kShortRead] at
    its end, ten bytes that all continue throw [kBadLength] at the start; so a varint is
    a 64-bit value and takes at least one byte. The other operations leave the cursor
    alone: its offset, the bytes left, the test for the end, [require] and [peek_u8] with the
    same [kShortRead], and [match], which says whether the next [n] bytes are the expected ones.
    [seek] goes to any position up to the end and refuses the others. No access leaves the
    buffer. *)
Theorem reader_functional :
  fixed_read 1 read_u8 (hd 0) /\
  fixed_read 2 read_u16le le_val /\ fixed_read 2 read_u16be (fun l => le_val (rev l)) /\
  fixed_read 4 read_u32le le_val /\ fixed_read 4 read_u32be (fun l => le_val (rev l)) /\
  fixed_read 8 read_u64le le_val /\ fixed_read 8 read_u64be (fun l => le_val (rev l)) /\
  (forall n, 0 <= n -> fixed_read (Z.to_nat n) (read_bytes n) id /\ fixed_read (Z.to_nat n) (read_string n) id /\
     fixed_read (Z.to_nat n) (read_raw n) id /\ fixed_read (Z.to_nat n) (skip n) (fun _ => tt)) /\
  varint_read read_varint (fun u => u) /\ varint_read read_svarint unzigzag /\
  triple 1 read_varint is_u64 /\ triple 1 read_svarint is_i64 /\
  (forall r, rd_ok r ->
     get_offset r = Ok (Z.of_nat (rd_pos r), r) /\ get_remaining r = Ok (rd_left r, r) /\
     get_eof r = Ok ((rd_left r =? 0)%nat, r) /\
     (forall n : nat, require (Z.of_nat n) r =
        if (rd_left r <? n)%nat then Throw (parse_error' kShortRead (rd_offset r)) else Ok (tt, r)) /\
     peek_u8 r = (if (rd_left r <? 1)%nat then Throw (parse_error' kShortRead (rd_offset r))
                  else Ok (hd 0 (window 1 r), r)) /\
     (forall expected n, (n <= length expected)%nat ->
        rd_match expected n r = Ok (bool_decide (window n r = take n expected), r)) /\
     (forall pos : nat, seek (Z.of_nat pos) r =
        if (length (rd_data r) <? pos)%nat
        then Throw (parse_error kBadLength (Z.of_nat pos) "seek past end of buffer")
        else Ok (tt, Rdr (rd_data r) pos))).
Proof.
  split_and!; [apply fixed_u8|apply fixed_u16le|apply fixed_u16be|apply fixed_u32le
    |apply fixed_u32be|apply fixed_u64le|apply fixed_u64be| |apply varint_exact|apply svarint_exact
    |apply triple_varint|apply triple_svarint|].
  - intros n Hn. split_and!; try (by apply fixed_bytes). rewrite <- (Z2Nat.id n) at 2 by done. apply skip_exact.
  - intros r Hr. split_and!; [done| | | |by apply peek_exact|intros; by apply match_exact|intros; apply seek_exact].
    + unfold get_remaining. by rewrite rd_remaining_left.
    + unfold get_eof, rd_eof, rd_size, rd_left. do 2 f_equal. destruct Hr as [_ Hp].
      by destruct (Nat.leb_spec (length (rd_data r)) (rd_pos r)), (Nat.eqb_spec (length (rd_data r) - rd_pos r) 0); (done || lia).
    + intros n. by apply require_exact.
Qed.

(** A varint that stops in the middle, one whose tenth byte continues it, and one whose tenth
    byte has bits beyond 2^64; the last byte peeked at and matched; a [seek] too far. *)
Lemma reader_functional_witness :
  read_varint (Rdr [1; 0x80; 0x81] 1) = Throw (parse_error' kShortRead 3) /\
  read_varint (Rdr (replicate 12 0xFF) 1) = Throw (parse_error kBadLength 1 "varint too long") /\
  read_varint (Rdr (0 :: 0x85 :: replicate 8 0x80 ++ [0x7F]) 1) = Ok (2 ^ 63 + 5, Rdr (0 :: 0x85 :: replicate 8 0x80 ++ [0x7F]) 11) /\
  read_svarint (Rdr [0x81; 1; 7] 0) = Ok (-65, Rdr [0x81; 1; 7] 2) /\
  peek_u8 (Rdr [1; 2] 1) = Ok (2, Rdr [1; 2] 1) /\
  rd_match [2; 9] 1 (Rdr [1; 2] 1) = Ok (true, Rdr [1; 2] 1) /\
  seek 3 (Rdr [1; 2] 1) = Throw (parse_error kBadLength 3 "seek past end of buffer").
Proof.
  destruct reader_functional as (_ & _ & _ & _ & _ & _ & _ & _ & HV & HS & _ & _ & HR).
  destruct (HR (Rdr [1; 2] 1) ltac:(split; [apply (bool_decide_unpack _); by vm_compute|simpl; lia]))
    as (_ & _ & _ & _ & HP & HM & HK).
  split_and!; [rewrite HV|rewrite HV|rewrite HV|rewrite HS|rewrite HP|rewrite HM|exact (HK 3%nat)];
    first [by vm_compute | simpl; lia | split; [apply (bool_decide_unpack _); by vm_compute|simpl; lia]].
Defined.
