(* ===== verification/Checksum.v ===== *)
(** * Checksum: CRC-32 and Adler-32

    [src/common/checksum.cpp]: the lazily built table of the reflected polynomial
    0xEDB88320, the table-driven update, and Adler-32. The table is related to
    the bit-serial definition of the checksum. *)

From S2P Require Import Prelude.

Definition crc32_poly : Z := 0xEDB88320.

(** One turn of the inner loop of [Crc32Table]'s constructor. *)
Definition crc_step (c : Z) : Z :=
  if Z.land c 1 =? 0 then Z.shiftr c 1 else Z.lxor crc32_poly (Z.shiftr c 1).

Definition crc_entry (n : Z) : Z := Nat.iter 8 crc_step n.

Definition Crc32Table : list Z := map crc_entry (seqZ 0 256).

Definition crc32_init : Z := 0xFFFFFFFF.

Definition crc32_byte (state d : Z) : Z :=
  Z.lxor (nth (Z.to_nat (Z.land (Z.lxor state d) 0xFF)) Crc32Table 0) (Z.shiftr state 8).
Definition crc32_update (state : Z) (data : bytes) : Z := foldl crc32_byte state data.
Definition crc32_final (state : Z) : Z := Z.lxor state 0xFFFFFFFF.
Definition crc32 (data : bytes) : Z := crc32_final (crc32_update crc32_init data).

Definition kAdlerMod : Z := 65521.

Definition adler_step (ab : Z * Z) (d : Z) : Z * Z :=
  let a := u32 (ab.1 + d) mod kAdlerMod in (a, u32 (ab.2 + a) mod kAdlerMod).
Definition adler32 (data : bytes) : Z :=
  let '(a, b) := foldl adler_step (1, 0) data in Z.lor (u32 (Z.shiftl b 16)) a.

(** ** The table *)

Lemma crc_entry_lookup i : 0 <= i < 256 -> nth (Z.to_nat i) Crc32Table 0 = crc_entry i.
Proof.
  intros Hi. apply Z.eqb_eq.
  apply (byte_forallb (fun i => nth (Z.to_nat i) Crc32Table 0 =? crc_entry i)); [|done].
  by vm_compute.
Qed.

Lemma crc_entry_width i : 0 <= i < 256 -> is_u32 (crc_entry i).
Proof.
  intros Hi. assert ((0 <=? crc_entry i) && (crc_entry i <? 2 ^ 32) = true)%bool as H.
  { apply (byte_forallb (fun i => (0 <=? crc_entry i) && (crc_entry i <? 2 ^ 32))%bool); [|done].
    by vm_compute. }
  reflect_bools. done.
Qed.

(** No two entries share their most significant byte. *)
Lemma crc_entry_top_inj i j :
  0 <= i < 256 -> 0 <= j < 256 ->
  Z.shiftr (crc_entry i) 24 = Z.shiftr (crc_entry j) 24 -> i = j.
Proof.
  intros Hi Hj H.
  assert (HN : NoDup (map (fun i => Z.shiftr (crc_entry i) 24) (seqZ 0 256)))
    by (apply (bool_decide_unpack _); by vm_compute).
  assert (HL : forall k, 0 <= k < 256 ->
    map (fun i => Z.shiftr (crc_entry i) 24) (seqZ 0 256) !! Z.to_nat k =
    Some (Z.shiftr (crc_entry k) 24)).
  { intros k Hk. change (map ?f ?l) with (f <$> l).
    rewrite list_lookup_fmap, lookup_seqZ_lt by lia. simpl. do 3 f_equal. lia. }
  apply Z2Nat.inj; [lia..|]. eapply (NoDup_lookup _ _ _ _ HN); [by apply HL|].
  rewrite H. by apply HL.
Qed.

Lemma land_ff_range x : 0 <= Z.land x 255 < 256.
Proof. rewrite land_ff. by apply Z.mod_pos_bound. Qed.

Lemma crc32_byte_width s d : is_u32 s -> is_u32 (crc32_byte s d).
Proof.
  intros Hs. unfold crc32_byte. rewrite crc_entry_lookup by apply land_ff_range.
  apply lxor_bound; [lia|apply crc_entry_width, land_ff_range|].
  rewrite Z.shiftr_div_pow2 by lia. width. dlia.
Qed.

Lemma crc32_update_width s l : is_u32 s -> is_u32 (crc32_update s l).
Proof.
  revert s. induction l as [|d l IH]; intros s Hs; [done|]. apply IH.
  by apply crc32_byte_width.
Qed.

Lemma crc32_width l : is_u32 (crc32 l).
Proof.
  apply lxor_bound; [lia| |lia]. apply crc32_update_width. unfold is_u32, crc32_init. lia.
Qed.

(** ** The bit-serial reference *)

(** Shift the byte into the register one bit at a time. *)
Definition crc32_byte_ref (state d : Z) : Z := Nat.iter 8 crc_step (Z.lxor state d).
Definition crc32_ref (data : bytes) : Z :=
  Z.lxor (foldl crc32_byte_ref 0xFFFFFFFF data) 0xFFFFFFFF.

Lemma crc_step_bit0 c : (Z.land c 1 =? 0) = negb (Z.testbit c 0).
Proof. rewrite land_1, Z.bit0_odd, Zmod_odd. by destruct (Z.odd c). Qed.

Lemma crc_step_lxor a b : crc_step (Z.lxor a b) = Z.lxor (crc_step a) (crc_step b).
Proof.
  unfold crc_step. rewrite !crc_step_bit0, Z.lxor_spec, Z.shiftr_lxor.
  destruct (Z.testbit a 0), (Z.testbit b 0); cbn [negb xorb];
    apply Z.bits_inj'; intros n _; rewrite !Z.lxor_spec; btauto.
Qed.

Lemma crc_iter_lxor n a b :
  Nat.iter n crc_step (Z.lxor a b) = Z.lxor (Nat.iter n crc_step a) (Nat.iter n crc_step b).
Proof. induction n as [|n IH]; [done|]. simpl. by rewrite IH, crc_step_lxor. Qed.

(** Registers with zero low bits are only shifted. *)
Lemma crc_iter_shift n x :
  Nat.iter n crc_step (Z.shiftl x (Z.of_nat n)) = x.
Proof.
  revert x. induction n as [|n IH]; intros x; [by rewrite Z.shiftl_0_r|].
  rewrite Nat.iter_succ_r. rewrite <- (IH x) at 2. f_equal. clear IH.
  unfold crc_step. rewrite crc_step_bit0, Z.shiftl_spec_low by lia. simpl negb. cbv iota.
  rewrite Z.shiftr_shiftl_l by lia. f_equal. lia.
Qed.

Lemma split_low_byte x : x = Z.lxor (Z.land x 255) (Z.shiftl (Z.shiftr x 8) 8).
Proof.
  apply Z.bits_inj'. intros n Hn. rewrite Z.lxor_spec, Z.land_spec, Z.shiftl_spec by done.
  change 255 with (Z.ones 8). destruct (Z.lt_ge_cases n 8).
  - rewrite Z.ones_spec_low, (Z.testbit_neg_r _ (n - 8)) by lia. btauto.
  - rewrite Z.ones_spec_high, Z.shiftr_spec by lia. replace (n - 8 + 8) with n by lia. btauto.
Qed.

Lemma crc32_byte_is_ref s d : is_byte d -> crc32_byte s d = crc32_byte_ref s d.
Proof.
  intros Hd. unfold crc32_byte, crc32_byte_ref.
  rewrite crc_entry_lookup by apply land_ff_range. unfold crc_entry.
  rewrite (split_low_byte (Z.lxor s d)) at 2. rewrite crc_iter_lxor. f_equal.
  rewrite (crc_iter_shift 8), Z.shiftr_lxor.
  rewrite (Z.shiftr_div_pow2 d 8), Z.div_small by (unfold is_byte in Hd; lia).
  by rewrite Z.lxor_0_r.
Qed.

Lemma crc32_update_app s l k : crc32_update s (l ++ k) = crc32_update (crc32_update s l) k.
Proof. apply foldl_app. Qed.

(** ** Injectivity of one step *)

Lemma lxor_top_byte a b : is_u32 a -> 0 <= b < 2 ^ 24 ->
  Z.shiftr (Z.lxor a b) 24 = Z.shiftr a 24.
Proof.
  intros Ha Hb. rewrite Z.shiftr_lxor, (Z.shiftr_div_pow2 b), Z.div_small by lia.
  apply Z.lxor_0_r.
Qed.

Lemma lxor_cancel_l a b c : Z.lxor a b = Z.lxor a c -> b = c.
Proof.
  intros H. apply (f_equal (Z.lxor a)) in H.
  by rewrite <- !Z.lxor_assoc, Z.lxor_nilpotent, !Z.lxor_0_l in H.
Qed.

(** The table index a step looks up. *)
Definition crc_idx (s d : Z) : Z := Z.land (Z.lxor s d) 255.

Lemma crc_idx_range s d : 0 <= crc_idx s d < 256.
Proof. apply land_ff_range. Qed.

Lemma shiftr_width x n k : 0 <= x < 2 ^ n -> 0 <= k <= n -> 0 <= Z.shiftr x k < 2 ^ (n - k).
Proof.
  intros Hx Hk. assert (0 < 2 ^ k) by (apply Z.pow_pos_nonneg; lia).
  rewrite Z.shiftr_div_pow2 by lia.
  split; [by apply Z.div_pos; lia|].
  apply Z.div_lt_upper_bound; [lia|]. rewrite <- Z.pow_add_r by lia.
  replace (k + (n - k)) with n by lia. lia.
Qed.

(** If two steps agree above bit [8 * m], both used the same table entry and
    their start states agree above bit [8 * (m + 1)]. *)
Lemma crc32_byte_back m s t a b :
  is_u32 s -> is_u32 t -> 0 <= m <= 3 ->
  Z.shiftr (crc32_byte s a) (8 * m) = Z.shiftr (crc32_byte t b) (8 * m) ->
  crc_idx s a = crc_idx t b /\ Z.shiftr s (8 * (m + 1)) = Z.shiftr t (8 * (m + 1)).
Proof.
  intros Hs Ht Hm. unfold crc32_byte. rewrite !crc_entry_lookup by apply land_ff_range.
  fold (crc_idx s a) (crc_idx t b). intros H.
  assert (Hs8 : forall x, is_u32 x -> 0 <= Z.shiftr x 8 < 2 ^ 24).
  { intros x Hx. by apply (shiftr_width x 32 8). }
  assert (E : crc_idx s a = crc_idx t b).
  { apply crc_entry_top_inj; [apply land_ff_range..|].
    apply (f_equal (fun x => Z.shiftr x (24 - 8 * m))) in H.
    rewrite !Z.shiftr_shiftr in H by lia. replace (8 * m + (24 - 8 * m)) with 24 in H by lia.
    rewrite !lxor_top_byte in H by (auto using crc_entry_width, crc_idx_range). done. }
  split; [done|]. rewrite E, !Z.shiftr_lxor in H. apply lxor_cancel_l in H.
  rewrite !Z.shiftr_shiftr in H by lia. by replace (8 * (m + 1)) with (8 + 8 * m) by lia.
Qed.

Lemma crc_idx_inj s a b : is_byte a -> is_byte b -> crc_idx s a = crc_idx s b -> a = b.
Proof.
  intros Ha Hb H. unfold crc_idx in H.
  assert (E : Z.land a 255 = Z.land b 255).
  { apply (lxor_cancel_l (Z.land s 255)). apply (f_equal id) in H. unfold id in H.
    apply Z.bits_inj'. intros n Hn. apply (f_equal (fun x => Z.testbit x n)) in H.
    rewrite !Z.land_spec, !Z.lxor_spec in H. rewrite !Z.lxor_spec, !Z.land_spec.
    destruct (Z.testbit s n), (Z.testbit a n), (Z.testbit b n), (Z.testbit 255 n); done. }
  rewrite !land_ff, !Z.mod_small in E by (width; lia). done.
Qed.

Lemma crc32_byte_state_inj s t d :
  is_u32 s -> is_u32 t -> is_byte d -> crc32_byte s d = crc32_byte t d -> s = t.
Proof.
  intros Hs Ht Hd H. destruct (crc32_byte_back 0 s t d d) as [E1 E2];
    [done|done|lia| |].
  { by rewrite Z.mul_0_r, !Z.shiftr_0_r. }
  assert (E3 : Z.land s 255 = Z.land t 255).
  { apply Z.bits_inj'. intros n Hn. unfold crc_idx in E1.
    apply (f_equal (fun x => Z.testbit x n)) in E1. rewrite !Z.land_spec, !Z.lxor_spec in E1.
    rewrite !Z.land_spec.
    destruct (Z.testbit s n), (Z.testbit t n), (Z.testbit d n), (Z.testbit 255 n); done. }
  rewrite (split_low_byte s), (split_low_byte t). change (8 * (0 + 1)) with 8 in E2.
  by rewrite E2, E3.
Qed.

Lemma crc32_update_state_inj s t q :
  is_u32 s -> is_u32 t -> bytes_ok q -> crc32_update s q = crc32_update t q -> s = t.
Proof.
  intros Hs Ht Hq. revert s t Hs Ht. induction Hq as [|d q Hd Hq IH]; intros s t Hs Ht H;
    [done|]. apply (crc32_byte_state_inj s t d); [done..|].
  apply IH; auto using crc32_byte_width.
Qed.

Lemma crc32_burst x y s t m :
  length x = length y -> 0 <= m -> m + Z.of_nat (length x) <= 4 ->
  bytes_ok x -> bytes_ok y -> is_u32 s -> is_u32 t ->
  Z.shiftr (crc32_update s x) (8 * m) = Z.shiftr (crc32_update t y) (8 * m) ->
  (s = t -> x = y) /\
  Z.shiftr s (8 * (m + Z.of_nat (length x))) = Z.shiftr t (8 * (m + Z.of_nat (length x))).
Proof.
  revert y s t. induction x as [|a x IH]; intros [|b y] s t Hl Hm Hn Hx Hy Hs Ht H;
    try discriminate.
  { simpl length. by rewrite Z.add_0_r. }
  simpl in Hl. injection Hl as Hl. apply Forall_cons in Hx as [Ha Hx].
  apply Forall_cons in Hy as [Hb Hy]. simpl length in *.
  destruct (IH y (crc32_byte s a) (crc32_byte t b)) as [E1 E2];
    [done|done|lia|done|done|by apply crc32_byte_width..|done|].
  destruct (crc32_byte_back (m + Z.of_nat (length x)) s t a b) as [F1 F2];
    [done|done|lia|done|].
  split.
  - intros ->. assert (a = b) as -> by by apply (crc_idx_inj t).
    by rewrite E1.
  - replace (m + Z.of_nat (S (length x))) with (m + Z.of_nat (length x) + 1) by lia. done.
Qed.

(** Damage to at most four consecutive bytes changes the checksum. *)
Lemma crc32_burst_inj (p x y q : bytes) :
  bytes_ok x -> bytes_ok y -> bytes_ok q ->
  length x = length y -> (length x <= 4)%nat ->
  crc32 (p ++ x ++ q) = crc32 (p ++ y ++ q) -> x = y.
Proof.
  intros Hx Hy Hq Hl H4 H. unfold crc32, crc32_final in H.
  rewrite !(Z.lxor_comm _ 0xFFFFFFFF) in H. apply lxor_cancel_l in H.
  rewrite !crc32_update_app in H.
  assert (Hi : is_u32 (crc32_update crc32_init p)).
  { apply crc32_update_width. unfold is_u32, crc32_init. lia. }
  apply crc32_update_state_inj in H; [|auto using crc32_update_width..|done].
  apply (crc32_burst x y (crc32_update crc32_init p) (crc32_update crc32_init p) 0);
    try done; lia.
Qed.

(** ** Adler-32 in closed form *)

(** The two sums of the definition: one plus all bytes, and the sum of the
    running values of the first. *)
Definition adler_A (data : bytes) : Z := 1 + foldr Z.add 0 data.
Fixpoint adler_B (data : bytes) : Z :=
  match data with
  | [] => 0
  | d :: rest => Z.of_nat (length data) * d + 1 + adler_B rest
  end.

Lemma adler_fold_closed l a b :
  bytes_ok l -> 0 <= a < kAdlerMod -> 0 <= b < kAdlerMod ->
  foldl adler_step (a, b) l =
  ((a + foldr Z.add 0 l) mod kAdlerMod,
   (b + Z.of_nat (length l) * (a - 1) + adler_B l) mod kAdlerMod).
Proof.
  unfold kAdlerMod. intros Hl. revert a b.
  induction Hl as [|d l Hd Hl IH]; intros a b Ha Hb.
  { simpl. rewrite !Z.mod_small by lia. f_equal; lia. }
  cbn [foldl foldr adler_B length]. unfold adler_step at 2. cbn [fst snd].
  unfold kAdlerMod, u32. unfold is_byte in Hd.
  rewrite (Z.mod_small (a + d)) by lia.
  pose proof (Z.mod_pos_bound (a + d) 65521 ltac:(lia)).
  rewrite (Z.mod_small (b + _)) by lia.
  rewrite IH by (try apply Z.mod_pos_bound; lia).
  f_equal.
  - rewrite Z.add_mod_idemp_l by lia. f_equal. lia.
  - rewrite <- Z.add_assoc, Z.add_mod_idemp_l by lia.
    rewrite Nat2Z.inj_succ.
    rewrite (Z.mod_eq (a + d) 65521) by lia. set (q := (a + d) / 65521).
    replace (_ + _) with ((b + Z.succ (Z.of_nat (length l)) * (a - 1) +
      (Z.succ (Z.of_nat (length l)) * d + 1 + adler_B l)) +
      (- q * (1 + Z.of_nat (length l))) * 65521) by lia.
    by rewrite Z.mod_add by lia.
Qed.

(** ** Claims *)

(** C33. The table-driven CRC-32 is the bit-serial CRC with the reflected
    polynomial, and feeding a buffer in chunks through init, update and final
    gives the one-shot checksum. *)
Theorem crc32_table_correct (a b : bytes) :
  bytes_ok a -> bytes_ok b ->
  crc32 (a ++ b) = crc32_ref (a ++ b) /\
  crc32_final (crc32_update (crc32_update crc32_init a) b) = crc32 (a ++ b).
Proof.
  intros Ha Hb. split; [|by rewrite <- crc32_update_app].
  assert (H : bytes_ok (a ++ b)) by by apply bytes_ok_app.
  unfold crc32, crc32_ref, crc32_final, crc32_update, crc32_init. f_equal.
  generalize 0xFFFFFFFF. induction H as [|d l Hd Hl IH]; intros s; [done|]. simpl.
  by rewrite IH, crc32_byte_is_ref.
Qed.

Lemma crc32_table_correct_witness :
  crc32_ref ([49; 50; 51; 52; 53] ++ [54; 55; 56; 57]) = 0xCBF43926.
Proof.
  rewrite <- (proj1 (crc32_table_correct [49; 50; 51; 52; 53] [54; 55; 56; 57]
    ltac:(apply (bool_decide_unpack _); by vm_compute)
    ltac:(apply (bool_decide_unpack _); by vm_compute))).
  by vm_compute.
Defined.

(** CRC-32 detects every corruption confined to at most four consecutive
    bytes: two buffers of the same layout that differ only there have different
    checksums. *)
Theorem crc32_detects_bursts (p x y q : bytes) :
  bytes_ok x -> bytes_ok y -> bytes_ok q ->
  length x = length y -> (length x <= 4)%nat ->
  crc32 (p ++ x ++ q) = crc32 (p ++ y ++ q) -> x = y.
Proof. apply crc32_burst_inj. Qed.

Lemma crc32_detects_bursts_witness :
  crc32 ([1] ++ [2; 3] ++ [4]) <> crc32 ([1] ++ [2; 7] ++ [4]).
Proof.
  intros H. pose proof (crc32_detects_bursts [1] [2; 3] [2; 7] [4]
    ltac:(apply (bool_decide_unpack _); by vm_compute)
    ltac:(apply (bool_decide_unpack _); by vm_compute)
    ltac:(apply (bool_decide_unpack _); by vm_compute) eq_refl ltac:(simpl; lia) H) as E.
  discriminate E.
Defined.

(** Adler-32 is its closed form: the low half is one plus the sum of the
    bytes, the high half the sum of all running values, both modulo 65521; no
    intermediate sum overflows 32 bits. *)
Theorem adler32_closed_form (data : bytes) :
  bytes_ok data ->
  adler32 data = (adler_B data mod kAdlerMod) * 2 ^ 16 + adler_A data mod kAdlerMod.
Proof.
  intros H. unfold adler32. rewrite adler_fold_closed by (done || (unfold kAdlerMod; lia)).
  replace (0 + _ * (1 - 1) + adler_B data) with (adler_B data) by lia.
  fold (adler_A data). unfold kAdlerMod.
  pose proof (Z.mod_pos_bound (adler_A data) 65521 ltac:(lia)).
  pose proof (Z.mod_pos_bound (adler_B data) 65521 ltac:(lia)).
  unfold u32. rewrite Z.mod_small by (rewrite Z.shiftl_mul_pow2; lia).
  by rewrite shiftl_lor_add by lia.
Qed.

Lemma adler32_closed_form_witness :
  adler32 [97; 98; 99] = 0x024D0127.
Proof.
  rewrite (adler32_closed_form [97; 98; 99]
    ltac:(apply (bool_decide_unpack _); by vm_compute)). by vm_compute.
Defined.
