(* ===== verification/Hashing.v ===== *)
(** * Hashing: FNV-1a and the splitmix64 finalizer

    [src/common/hashing.cpp]. The arithmetic wraps at the width of the state.
    Every step is a bijection of the state, which is what the claim uses. *)

From S2P Require Import Prelude.

Definition kFnv32Offset : Z := 0x811C9DC5.
Definition kFnv32Prime : Z := 0x01000193.
Definition kFnv64Offset : Z := 0xCBF29CE484222325.
Definition kFnv64Prime : Z := 0x00000100000001B3.

Definition fnv1a_32_init : Z := kFnv32Offset.
Definition fnv1a_32_byte (state d : Z) : Z := u32 (Z.lxor state d * kFnv32Prime).
Definition fnv1a_32_update (state : Z) (data : bytes) : Z := foldl fnv1a_32_byte state data.
Definition fnv1a_32 (data : bytes) : Z := fnv1a_32_update kFnv32Offset data.

Definition fnv1a_64_byte (state d : Z) : Z := u64 (Z.lxor state d * kFnv64Prime).
Definition fnv1a_64 (data : bytes) : Z := foldl fnv1a_64_byte kFnv64Offset data.

Definition mix64 (x : Z) : Z :=
  let x := u64 (x + 0x9E3779B97F4A7C15) in
  let x := u64 (Z.lxor x (Z.shiftr x 30) * 0xBF58476D1CE4E5B9) in
  let x := u64 (Z.lxor x (Z.shiftr x 27) * 0x94D049BB133111EB) in
  Z.lxor x (Z.shiftr x 31).

Definition hash_combine (seed value : Z) : Z :=
  Z.lxor seed (u64 (mix64 value + 0x9E3779B97F4A7C15 + u64 (Z.shiftl seed 6) + Z.shiftr seed 2)).

(** ** Injectivity of the building blocks *)

Lemma lxor_cancel a b c : Z.lxor a b = Z.lxor a c -> b = c.
Proof.
  intros H. apply (f_equal (Z.lxor a)) in H.
  by rewrite <- !Z.lxor_assoc, Z.lxor_nilpotent, !Z.lxor_0_l in H.
Qed.
Lemma lxor_cancel_r a b c : Z.lxor b a = Z.lxor c a -> b = c.
Proof. rewrite !(Z.lxor_comm _ a). apply lxor_cancel. Qed.

(** Multiplication by a constant invertible modulo [m]. *)
Lemma mul_mod_inj m k k' a b :
  0 < m -> (k * k') mod m = 1 mod m -> 0 <= a < m -> 0 <= b < m ->
  (a * k) mod m = (b * k) mod m -> a = b.
Proof.
  intros Hm Hk Ha Hb H. apply (f_equal (fun x => (x * k') mod m)) in H.
  rewrite !Z.mul_mod_idemp_l, <- !Z.mul_assoc in H by lia.
  rewrite <- (Z.mul_mod_idemp_r a), <- (Z.mul_mod_idemp_r b), Hk in H by lia.
  rewrite !Z.mul_mod_idemp_r, !Z.mul_1_r, !Z.mod_small in H by lia. done.
Qed.

Lemma add_mod_inj m k a b :
  0 < m -> 0 <= a < m -> 0 <= b < m -> (a + k) mod m = (b + k) mod m -> a = b.
Proof.
  intros Hm Ha Hb H. apply (f_equal (fun x => (x - k) mod m)) in H.
  rewrite !Zminus_mod_idemp_l in H.
  replace (a + k - k) with a in H by lia. replace (b + k - k) with b in H by lia.
  by rewrite !Z.mod_small in H.
Qed.

(** An xor-shift determines its argument: the difference would equal itself
    shifted right. *)
Lemma xorshift_inj k a b :
  0 < k -> 0 <= a -> 0 <= b ->
  Z.lxor a (Z.shiftr a k) = Z.lxor b (Z.shiftr b k) -> a = b.
Proof.
  intros Hk Ha Hb H. apply Z.lxor_eq.
  set (d := Z.lxor a b). assert (Hd : d = Z.shiftr d k).
  { unfold d. rewrite Z.shiftr_lxor. apply (lxor_cancel (Z.lxor (Z.shiftr a k) b)).
    transitivity (Z.lxor a (Z.shiftr a k)); [|rewrite H];
      apply Z.bits_inj'; intros n _; rewrite !Z.lxor_spec; btauto. }
  assert (0 <= d) by (apply Z.lxor_nonneg; lia).
  rewrite Z.shiftr_div_pow2 in Hd by lia.
  destruct (Z.eq_dec d 0); [done|].
  assert (d / 2 ^ k < d); [|lia]. apply Z.div_lt; [lia|]. by apply Z.pow_gt_1.
Qed.

Lemma xorshift_width k x : 0 < k -> is_u64 x -> is_u64 (Z.lxor x (Z.shiftr x k)).
Proof.
  intros Hk Hx. apply lxor_bound; [lia|done|]. rewrite Z.shiftr_div_pow2 by lia.
  unfold is_u64 in Hx. split; [apply Z.div_pos; lia|].
  apply Z.div_lt_upper_bound; [lia|]. assert (1 <= 2 ^ k) by lia. nia.
Qed.

Lemma u64_width x : is_u64 (u64 x).
Proof. by apply Z.mod_pos_bound. Qed.
Lemma u32_width x : is_u32 (u32 x).
Proof. by apply Z.mod_pos_bound. Qed.
#[export] Hint Resolve xorshift_width u64_width u32_width : bw.

Lemma mix64_inj x y : is_u64 x -> is_u64 y -> mix64 x = mix64 y -> x = y.
Proof.
  intros Hx Hy. unfold mix64. intros H.
  apply xorshift_inj in H; [|lia|apply u64_width..].
  apply (mul_mod_inj _ _ 0x319642B2D24D8EC3) in H;
    [|lia|by vm_compute|by apply xorshift_width; auto with bw..].
  apply xorshift_inj in H; [|lia|apply u64_width..].
  apply (mul_mod_inj _ _ 0x96DE1B173F119089) in H;
    [|lia|by vm_compute|by apply xorshift_width; auto with bw..].
  apply xorshift_inj in H; [|lia|apply u64_width..].
  by apply add_mod_inj in H.
Qed.

Lemma mix64_width x : is_u64 (mix64 x).
Proof. apply xorshift_width; auto with bw. lia. Qed.

Lemma lxor_byte_width n s d : 8 <= n -> 0 <= s < 2 ^ n -> is_byte d -> 0 <= Z.lxor s d < 2 ^ n.
Proof.
  intros Hn Hs Hd. apply lxor_bound; [lia|done|].
  assert (2 ^ 8 <= 2 ^ n) by (apply Z.pow_le_mono_r; lia). unfold is_byte in Hd. lia.
Qed.

Lemma fnv1a_32_byte_inj s t a b :
  is_u32 s -> is_u32 t -> is_byte a -> is_byte b ->
  fnv1a_32_byte s a = fnv1a_32_byte t b -> Z.lxor s a = Z.lxor t b.
Proof.
  intros Hs Ht Ha Hb H. eapply (mul_mod_inj _ _ 0x359C449B); [..|apply H];
    [lia|by vm_compute|apply lxor_byte_width; (done || lia)..].
Qed.

Lemma fnv1a_64_byte_inj s t a b :
  is_u64 s -> is_u64 t -> is_byte a -> is_byte b ->
  fnv1a_64_byte s a = fnv1a_64_byte t b -> Z.lxor s a = Z.lxor t b.
Proof.
  intros Hs Ht Ha Hb H. eapply (mul_mod_inj _ _ 0xCE965057AFF6957B); [..|apply H];
    [lia|by vm_compute|apply lxor_byte_width; (done || lia)..].
Qed.

Section fnv_fold.
(** Folding an injective step over a common suffix keeps states apart. *)
Context (step : Z -> Z -> Z) (W : Z -> Prop).
Hypothesis step_W : forall s d, W (step s d).
Hypothesis step_inj : forall s t a b, W s -> W t -> is_byte a -> is_byte b ->
  step s a = step t b -> Z.lxor s a = Z.lxor t b.

Lemma fold_state_inj q s t :
  W s -> W t -> bytes_ok q -> foldl step s q = foldl step t q -> s = t.
Proof using step_W step_inj.
  intros Hs Ht Hq. revert s t Hs Ht.
  induction Hq as [|d q Hd Hq IH]; intros s t Hs Ht H; [done|].
  simpl in H. apply IH in H; [|done..]. apply step_inj in H; [|done..].
  by apply lxor_cancel_r in H.
Qed.

Lemma fold_byte_inj p q s a b :
  W s -> bytes_ok q -> is_byte a -> is_byte b ->
  foldl step s (p ++ a :: q) = foldl step s (p ++ b :: q) -> a = b.
Proof using step_W step_inj.
  intros Hs Hq Ha Hb. rewrite !foldl_app. simpl.
  assert (Hw : W (foldl step s p)).
  { destruct (rev p) as [|d p'] eqn:E using rev_ind.
    - apply (f_equal (@rev Z)) in E. rewrite rev_involutive in E. by subst.
    - clear -step_W Hs. revert s Hs. induction p as [|d p IH]; simpl; auto. }
  intros H. apply fold_state_inj in H; [|done..].
  apply step_inj in H; [|done..]. by apply lxor_cancel in H.
Qed.
End fnv_fold.

(** ** Claims *)

(** The hashes lose no information where the code relies on it: [mix64] is
    injective on 64-bit keys, [hash_combine] is injective in the combined value,
    and changing one byte of a buffer changes its FNV-1a hash at either width. *)
Theorem hashes_injective (seed x y a b : Z) (p q : bytes) :
  is_u64 seed -> is_u64 x -> is_u64 y -> is_byte a -> is_byte b -> bytes_ok q ->
  (mix64 x = mix64 y -> x = y) /\
  (hash_combine seed x = hash_combine seed y -> x = y) /\
  (fnv1a_32 (p ++ a :: q) = fnv1a_32 (p ++ b :: q) -> a = b) /\
  (fnv1a_64 (p ++ a :: q) = fnv1a_64 (p ++ b :: q) -> a = b).
Proof.
  intros Hs Hx Hy Ha Hb Hq. split_and!.
  - by apply mix64_inj.
  - unfold hash_combine. intros H. apply lxor_cancel in H.
    rewrite <- !Z.add_assoc in H. apply add_mod_inj in H; [|lia|apply mix64_width..].
    by apply mix64_inj.
  - apply (fold_byte_inj _ is_u32); auto using fnv1a_32_byte_inj.
    + intros. apply u32_width.
    + unfold is_u32, kFnv32Offset. lia.
  - apply (fold_byte_inj _ is_u64); auto using fnv1a_64_byte_inj.
    + intros. apply u64_width.
    + unfold is_u64, kFnv64Offset. lia.
Qed.

Lemma hashes_injective_witness : mix64 5 <> mix64 6 /\ fnv1a_32 [1; 2; 3] <> fnv1a_32 [1; 4; 3].
Proof.
  pose proof (hashes_injective 0 5 6 2 4 [1] [3]
    ltac:(by split) ltac:(by split) ltac:(by split) ltac:(by split) ltac:(by split)
    ltac:(apply (bool_decide_unpack _); by vm_compute)) as (H1 & _ & H3 & _).
  split; intros E; [discriminate (H1 E)|discriminate (H3 E)].
Defined.
