(* ===== verification/Utf8.v ===== *)
(** * Utf8: strict UTF-8 decoding and encoding

    [src/common/utf8.cpp]. [decode] is kept with its output parameter: it returns
    the number of bytes consumed (0 on any malformed sequence) and the new value
    of [cp], and its accesses [data[i]] may be undefined outside the buffer. *)

From S2P Require Import Prelude Status.

Definition kMaxCodepoint : Z := 0x10FFFF.

(** The lead-byte cascade: sequence length, initial bits, smallest legal value. *)
Definition lead (b0 : Z) : option (nat * Z * Z) :=
  if Z.land b0 0xE0 =? 0xC0 then Some (2%nat, Z.land b0 0x1F, 0x80)
  else if Z.land b0 0xF0 =? 0xE0 then Some (3%nat, Z.land b0 0x0F, 0x800)
  else if Z.land b0 0xF8 =? 0xF0 then Some (4%nat, Z.land b0 0x07, 0x10000)
  else None.

(** [for (i = 1; i < len; ++i)], with [n] turns left; [None] is the early
    [return 0] on a byte that is not a continuation byte. *)
Fixpoint cont_loop (data : bytes) (n i : nat) (value : Z) : outcome (option Z) :=
  match n with
  | O => Ok (Some value)
  | S n' =>
      let? bi := at_idx data i in
      if negb (Z.land bi 0xC0 =? 0x80) then Ok None
      else cont_loop data n' (S i) (Z.lor (u32 (Z.shiftl value 6)) (Z.land bi 0x3F))
  end.

Definition decode (data : bytes) (cp : Z) : outcome (nat * Z) :=
  if (length data =? 0)%nat then Ok (0%nat, cp) else
  let? b0 := at_idx data 0 in
  if b0 <? 0x80 then Ok (1%nat, b0) else
  match lead b0 with
  | None => Ok (0%nat, cp)
  | Some (len, value, min_value) =>
      if (length data <? len)%nat then Ok (0%nat, cp) else
      let? v := cont_loop data (len - 1) 1 value in
      match v with
      | None => Ok (0%nat, cp)
      | Some value =>
          if value <? min_value then Ok (0%nat, cp)
          else if (0xD800 <=? value) && (value <=? 0xDFFF) then Ok (0%nat, cp)
          else if kMaxCodepoint <? value then Ok (0%nat, cp)
          else Ok (len, value)
      end
  end.

(** The three scanning loops. [i] is the cursor; each turn consumes at least one
    byte, so one unit of fuel per byte (and one for the final test) is enough. *)
Fixpoint validate_loop (fuel : nat) (data : bytes) (i : nat) : outcome bool :=
  match fuel with
  | O => NoFuel
  | S fuel' =>
      if (i <? length data)%nat then
        let? (n, _) := decode (drop i data) 0 in
        if (n =? 0)%nat then Ok false else validate_loop fuel' data (i + n)
      else Ok true
  end.
Definition validate (data : bytes) : outcome bool := validate_loop (S (length data)) data 0.

Fixpoint count_loop (fuel : nat) (data : bytes) (i : nat) (n_cp : Z) : outcome (option Z) :=
  match fuel with
  | O => NoFuel
  | S fuel' =>
      if (i <? length data)%nat then
        let? (n, _) := decode (drop i data) 0 in
        if (n =? 0)%nat then Ok None else count_loop fuel' data (i + n) (n_cp + 1)
      else Ok (Some n_cp)
  end.
(** [(true, new out)] or [(false, out unchanged)]. *)
Definition count_codepoints (data : bytes) (out : Z) : outcome (bool * Z) :=
  let? r := count_loop (S (length data)) data 0 0 in
  match r with Some n => Ok (true, n) | None => Ok (false, out) end.

Fixpoint to_codepoints_loop (fuel : nat) (s : bytes) (i : nat) (out : list Z)
    : outcome (bool * list Z) :=
  match fuel with
  | O => NoFuel
  | S fuel' =>
      if (i <? length s)%nat then
        let? (n, cp) := decode (drop i s) 0 in
        if (n =? 0)%nat then Ok (false, out)
        else to_codepoints_loop fuel' s (i + n) (out ++ [cp])
      else Ok (true, out)
  end.
Definition to_codepoints (s : bytes) (out : list Z) : outcome (bool * list Z) :=
  to_codepoints_loop (S (length s)) s 0 out.

Definition encode (cp : Z) (out : bytes) : bool * bytes :=
  if ((0xD800 <=? cp) && (cp <=? 0xDFFF)) || (kMaxCodepoint <? cp) then (false, out)
  else if cp <? 0x80 then (true, out ++ [u8 cp])
  else if cp <? 0x800 then
    (true, out ++ [u8 (Z.lor 0xC0 (Z.shiftr cp 6))] ++ [u8 (Z.lor 0x80 (Z.land cp 0x3F))])
  else if cp <? 0x10000 then
    (true, out ++ [u8 (Z.lor 0xE0 (Z.shiftr cp 12))]
               ++ [u8 (Z.lor 0x80 (Z.land (Z.shiftr cp 6) 0x3F))]
               ++ [u8 (Z.lor 0x80 (Z.land cp 0x3F))])
  else
    (true, out ++ [u8 (Z.lor 0xF0 (Z.shiftr cp 18))]
               ++ [u8 (Z.lor 0x80 (Z.land (Z.shiftr cp 12) 0x3F))]
               ++ [u8 (Z.lor 0x80 (Z.land (Z.shiftr cp 6) 0x3F))]
               ++ [u8 (Z.lor 0x80 (Z.land cp 0x3F))]).

(** ** Byte classes as ranges *)

Definition is_cont (b : Z) : bool := (0x80 <=? b) && (b <? 0xC0).

Lemma cont_class b : is_byte b -> (Z.land b 0xC0 =? 0x80) = is_cont b.
Proof.
  intros Hb. apply eqb_prop. revert b Hb.
  apply (byte_forallb (fun b => eqb (Z.land b 0xC0 =? 0x80) (is_cont b))). by vm_compute.
Qed.

Definition lead_ref (b0 : Z) : option (nat * Z * Z) :=
  if (0xC0 <=? b0) && (b0 <? 0xE0) then Some (2%nat, b0 - 0xC0, 0x80)
  else if (0xE0 <=? b0) && (b0 <? 0xF0) then Some (3%nat, b0 - 0xE0, 0x800)
  else if (0xF0 <=? b0) && (b0 <? 0xF8) then Some (4%nat, b0 - 0xF0, 0x10000)
  else None.

Lemma lead_class b : is_byte b -> lead b = lead_ref b.
Proof.
  intros Hb. apply (bool_decide_eq_true (lead b = lead_ref b)). revert b Hb.
  apply (byte_forallb (fun b => bool_decide (lead b = lead_ref b))). by vm_compute.
Qed.

Lemma cont_step v b : is_byte b -> is_cont b = true -> 0 <= v < 2 ^ 20 ->
  Z.lor (u32 (Z.shiftl v 6)) (Z.land b 0x3F) = v * 64 + (b - 0x80).
Proof.
  intros Hb Hc Hv. unfold is_cont in Hc. reflect_bools. width.
  rewrite Z.mod_small by (rewrite Z.shiftl_mul_pow2; lia).
  rewrite land_3f, shiftl_lor_add by (pose proof (Z.mod_pos_bound b 64); lia). dlia.
Qed.

Lemma lor_tag tag k x : 0 <= k -> 0 <= x < 2 ^ k -> (tag / 2 ^ k) * 2 ^ k = tag ->
  Z.lor tag x = tag + x.
Proof.
  intros Hk Hx Ht. rewrite <- Ht, <- Z.shiftl_mul_pow2, shiftl_lor_add by done.
  by rewrite Z.shiftl_mul_pow2.
Qed.

(** ** Scalars and their reference encoding *)

Definition scalar (cp : Z) : Prop :=
  0 <= cp <= kMaxCodepoint /\ ~ (0xD800 <= cp <= 0xDFFF).

Definition enc (cp : Z) : bytes :=
  if cp <? 0x80 then [cp]
  else if cp <? 0x800 then [0xC0 + cp / 64; 0x80 + cp mod 64]
  else if cp <? 0x10000 then
    [0xE0 + cp / 4096; 0x80 + cp / 64 mod 64; 0x80 + cp mod 64]
  else [0xF0 + cp / 262144; 0x80 + cp / 4096 mod 64; 0x80 + cp / 64 mod 64; 0x80 + cp mod 64].

Lemma u8_cont x : (0x80 + x mod 64) mod 2 ^ 8 = 0x80 + x mod 64.
Proof. apply Z.mod_small. pose proof (Z.mod_pos_bound x 64). lia. Qed.

Lemma encode_enc cp out : 0 <= cp ->
  encode cp out = if bool_decide (scalar cp) then (true, out ++ enc cp) else (false, out).
Proof.
  intros H0. unfold encode, enc, scalar, kMaxCodepoint.
  destruct (((0xD800 <=? cp) && (cp <=? 0xDFFF)) || (0x10FFFF <? cp)) eqn:E.
  - rewrite bool_decide_eq_false_2; [done|]. lia.
  - rewrite bool_decide_eq_true_2 by lia.
    rewrite !land_3f, !Z.shiftr_div_pow2 by lia.
    change (2 ^ 6) with 64. change (2 ^ 12) with 4096. change (2 ^ 18) with 262144.
    repeat (case_bool; reflect_bools); do 2 f_equal; unfold u8; cbn [app];
      rewrite ?(lor_tag 0xC0 5), ?(lor_tag 0xE0 4), ?(lor_tag 0xF0 3),
        ?(lor_tag 0x80 6 (_ mod _)) by (done || dlia);
      rewrite ?u8_cont; rewrite ?Z.mod_small by dlia; done.
Qed.

Lemma enc_ok cp : scalar cp -> bytes_ok (enc cp).
Proof.
  intros [H _]. unfold kMaxCodepoint in H. unfold enc, bytes_ok, is_byte.
  repeat (case_bool; reflect_bools); repeat (apply Forall_cons; split); try constructor; dlia.
Qed.
Lemma enc_nonempty cp : (0 < length (enc cp))%nat.
Proof. unfold enc. repeat case_bool; simpl; lia. Qed.

(** ** The decoder in closed form *)

Definition accept (n : nat) (min_value v : Z) : option (nat * Z) :=
  if v <? min_value then None
  else if (0xD800 <=? v) && (v <=? 0xDFFF) then None
  else if kMaxCodepoint <? v then None
  else Some (n, v).

Definition decode_ref (data : bytes) : option (nat * Z) :=
  match data with
  | [] => None
  | b0 :: t =>
      if b0 <? 0x80 then Some (1%nat, b0)
      else if (0xC0 <=? b0) && (b0 <? 0xE0) then
        match t with
        | b1 :: _ => if is_cont b1 then accept 2 0x80 ((b0 - 0xC0) * 64 + (b1 - 0x80)) else None
        | _ => None
        end
      else if (0xE0 <=? b0) && (b0 <? 0xF0) then
        match t with
        | b1 :: b2 :: _ =>
            if is_cont b1 && is_cont b2
            then accept 3 0x800 (((b0 - 0xE0) * 64 + (b1 - 0x80)) * 64 + (b2 - 0x80))
            else None
        | _ => None
        end
      else if (0xF0 <=? b0) && (b0 <? 0xF8) then
        match t with
        | b1 :: b2 :: b3 :: _ =>
            if is_cont b1 && is_cont b2 && is_cont b3
            then accept 4 0x10000
                   ((((b0 - 0xF0) * 64 + (b1 - 0x80)) * 64 + (b2 - 0x80)) * 64 + (b3 - 0x80))
            else None
        | _ => None
        end
      else None
  end.

Lemma cont_loop_S data n i b value : data !! i = Some b -> is_byte b -> 0 <= value < 2 ^ 20 ->
  cont_loop data (S n) i value =
  if is_cont b then cont_loop data n (S i) (value * 64 + (b - 0x80)) else Ok None.
Proof.
  intros Hi Hb Hv. cbn [cont_loop]. unfold at_idx. rewrite Hi. cbn [obind].
  rewrite cont_class by done. destruct (is_cont b) eqn:E; cbn [negb]; [|done].
  by rewrite cont_step.
Qed.

Lemma is_cont_range b : is_cont b = true -> 0x80 <= b < 0xC0.
Proof. unfold is_cont. lia. Qed.

Lemma decode_is_ref data cp0 : bytes_ok data ->
  decode data cp0 =
  Ok (match decode_ref data with Some (n, v) => (n, v) | None => (0%nat, cp0) end).
Proof.
  intros Hok. unfold decode. destruct data as [|b0 t]; [done|].
  apply Forall_cons in Hok as [Hb0 Ht]. cbn [length Nat.eqb decode_ref at_idx lookup list_lookup obind].
  unfold at_idx. cbn [lookup list_lookup obind].
  destruct (b0 <? 0x80) eqn:E0; [done|]. rewrite lead_class by done. unfold lead_ref.
  reflect_bools. unfold is_byte in Hb0.
  repeat match goal with |- context [if (?a <=? b0) && (b0 <? ?c) then _ else _] =>
    destruct ((a <=? b0) && (b0 <? c)) eqn:?; reflect_bools end; try done;
    destruct t as [|b1 [|b2 [|b3 t]]]; try done;
    repeat (apply Forall_cons in Ht as [? Ht]);
    cbn [length Nat.ltb Nat.leb Nat.sub];
    repeat (erewrite cont_loop_S by (done || lia);
      match goal with |- context [is_cont ?b] =>
        let E := fresh "Ec" in destruct (is_cont b) eqn:E;
        [apply is_cont_range in E|] end;
      cbn [andb obind]; try done);
    cbn [cont_loop obind]; unfold accept; repeat case_bool; done.
Qed.

Lemma accept_some n mn v r : accept n mn v = Some r -> 0 <= v ->
  r = (n, v) /\ scalar v /\ mn <= v.
Proof.
  unfold accept, scalar, kMaxCodepoint. repeat case_bool; try done.
  intros [= <-] Hv. reflect_bools. split_and!; try done; try lia.
Qed.

Lemma accept_scalar n mn v : scalar v -> mn <= v -> accept n mn v = Some (n, v).
Proof.
  unfold accept, scalar, kMaxCodepoint. intros [H1 H2] Hm.
  repeat (case_bool; reflect_bools; try lia); done.
Qed.

Lemma decode_ref_enc cp rest : scalar cp ->
  decode_ref (enc cp ++ rest) = Some (length (enc cp), cp).
Proof.
  intros H. pose proof H as [Hr _]. unfold kMaxCodepoint in Hr. unfold enc.
  repeat (case_bool; reflect_bools); cbn [app decode_ref length].
  { by rewrite (proj2 (Z.ltb_lt _ _)) by lia. }
  all: rewrite (proj2 (Z.ltb_ge _ 0x80)) by dlia.
  all: pose proof (Z.mod_pos_bound cp 64 ltac:(lia)).
  all: pose proof (Z.mod_pos_bound (cp / 64) 64 ltac:(lia)).
  all: pose proof (Z.mod_pos_bound (cp / 4096) 64 ltac:(lia)).
  all: assert (Hc : forall d, 0 <= d < 64 -> is_cont (0x80 + d) = true)
    by (intros; unfold is_cont; lia).
  all: rewrite !Hc by done; cbn [andb].
  - replace ((0xC0 <=? _) && _) with true by dlia.
    rewrite <- (accept_scalar 2 0x80 cp) by done. f_equal. dlia.
  - replace ((0xC0 <=? _) && _) with false by dlia.
    replace ((0xE0 <=? _) && _) with true by dlia.
    rewrite <- (accept_scalar 3 0x800 cp) by done. f_equal. dlia.
  - replace ((0xC0 <=? _) && _) with false by dlia.
    replace ((0xE0 <=? _) && _) with false by dlia.
    replace ((0xF0 <=? _) && _) with true by dlia.
    rewrite <- (accept_scalar 4 0x10000 cp) by done. f_equal. dlia.
Qed.

(** What was decoded is the canonical encoding of a scalar value. *)
Lemma decode_ref_sound data n cp : bytes_ok data -> decode_ref data = Some (n, cp) ->
  scalar cp /\ take n data = enc cp /\ n = length (enc cp).
Proof.
  intros Hok H. destruct data as [|b0 t]; [done|].
  apply Forall_cons in Hok as [Hb0 Ht]. cbn [decode_ref] in H. unfold is_byte in Hb0.
  destruct (b0 <? 0x80) eqn:E0.
  { injection H as <- <-. unfold scalar, enc, kMaxCodepoint. rewrite E0. reflect_bools.
    split_and!; try done; lia. }
  repeat match type of H with context [if (?a <=? b0) && (b0 <? ?c) then _ else _] =>
    destruct ((a <=? b0) && (b0 <? c)) eqn:?; reflect_bools end; try done;
    destruct t as [|b1 [|b2 [|b3 t]]]; try done;
    repeat (apply Forall_cons in Ht as [? Ht]);
    repeat match type of H with context [is_cont ?b] =>
      let E := fresh "Ec" in destruct (is_cont b) eqn:E; [apply is_cont_range in E|done] end;
    cbn [andb] in H; apply accept_some in H as ([= -> ->] & Hs & Hm); try lia;
    (split; [done|]); destruct Hs as [Hs _]; unfold kMaxCodepoint in Hs; unfold enc;
    repeat (case_bool; reflect_bools; try (exfalso; lia));
    (split; [cbn [take]; repeat f_equal; dlia | done]).
Qed.

(** ** Whole strings *)

Definition enc_all (cps : list Z) : bytes := concat (map enc cps).

Fixpoint scan (fuel : nat) (data : bytes) : option (list Z) :=
  match fuel, data with
  | O, _ => None
  | S _, [] => Some []
  | S fuel', _ =>
      match decode_ref data with
      | None => None
      | Some (n, v) => cons v <$> scan fuel' (drop n data)
      end
  end.

Lemma scan_enc_all fuel cps :
  Forall scalar cps -> (length (enc_all cps) < fuel)%nat -> scan fuel (enc_all cps) = Some cps.
Proof.
  intros H. revert fuel. induction H as [|cp cps Hc Hcs IH]; intros [|fuel] Hf; [lia|done|lia|].
  unfold enc_all in *. cbn [map concat scan] in *. rewrite length_app in Hf.
  pose proof (enc_nonempty cp) as Hne. pose proof (decode_ref_enc cp (concat (map enc cps)) Hc) as E.
  destruct (enc cp ++ concat (map enc cps)) as [|b t] eqn:Ed.
  { destruct (enc cp); [simpl in Hne; lia|done]. }
  rewrite E, <- Ed, drop_app_length, IH by lia. done.
Qed.

Lemma scan_sound fuel data cps : bytes_ok data ->
  scan fuel data = Some cps -> Forall scalar cps /\ data = enc_all cps.
Proof.
  revert data cps. induction fuel as [|fuel IH]; intros data cps Hok H; [done|].
  destruct data as [|b t]; [by injection H as <-|]. cbn [scan] in H.
  destruct (decode_ref (b :: t)) as [[n v]|] eqn:E; [|done].
  apply decode_ref_sound in E as (Hs & Ht & Hn); [|done].
  destruct (scan fuel (drop n (b :: t))) as [l|] eqn:El; [|done]. injection H as <-.
  apply IH in El as [Hl Hd]; [|by apply bytes_ok_drop].
  split; [by constructor|]. unfold enc_all in *. cbn [map concat].
  by rewrite <- Ht, <- Hd, take_drop.
Qed.

(** One turn of any of the three loops. *)
Lemma decode_drop data i cp0 : bytes_ok data ->
  decode (drop i data) cp0 = Ok (match decode_ref (drop i data) with
    Some (n, v) => (n, v) | None => (0%nat, cp0) end).
Proof. intros. apply decode_is_ref. by apply bytes_ok_drop. Qed.

Lemma decode_ref_pos data n v : bytes_ok data -> decode_ref data = Some (n, v) ->
  (0 < n <= length data)%nat.
Proof.
  intros Hok H. pose proof (decode_ref_sound _ _ _ Hok H) as (_ & Ht & Hn).
  apply (f_equal length) in Ht. rewrite length_take in Ht. pose proof (enc_nonempty v). lia.
Qed.

Lemma scan_step fuel data i : bytes_ok data ->
  scan (S fuel) (drop i data) =
  if (i <? length data)%nat then
    match decode_ref (drop i data) with
    | None => None
    | Some (n, v) => cons v <$> scan fuel (drop (i + n) data)
    end
  else Some [].
Proof.
  intros Hok. case_bool; reflect_bools.
  - destruct (drop i data) as [|b t] eqn:Ed.
    { apply (f_equal length) in Ed. rewrite length_drop in Ed. simpl in Ed. lia. }
    cbn [scan]. destruct (decode_ref (b :: t)) as [[n v]|]; [|done].
    by rewrite <- Ed, drop_drop.
  - by rewrite drop_ge by lia.
Qed.

(** Close one turn of a scanning loop with the induction hypothesis [IH]. *)
Ltac loop_turn Hok IH :=
  rewrite scan_step by done; case_bool; reflect_bools; [|done];
  rewrite decode_drop by done; cbn [obind];
  match goal with |- context [decode_ref ?d] =>
    let Ed := fresh "Ed" in destruct (decode_ref d) as [[n v]|] eqn:Ed; [|by eauto];
    let Hn := fresh "Hn" in let Hl := fresh "Hl" in
    destruct (decode_ref_pos _ _ _ (bytes_ok_drop _ _ Hok) Ed) as [Hn Hl];
    rewrite length_drop in Hl;
    rewrite (proj2 (Nat.eqb_neq n 0)) by lia
  end.

Lemma validate_loop_scan fuel data i : bytes_ok data -> (length data - i < fuel)%nat ->
  validate_loop fuel data i = Ok (bool_decide (is_Some (scan fuel (drop i data)))).
Proof.
  intros Hok. revert i. induction fuel as [|fuel IH]; intros i Hf; [lia|].
  cbn [validate_loop]. loop_turn Hok IH. rewrite IH by lia. by destruct (scan fuel _).
Qed.

Lemma count_loop_scan fuel data i k : bytes_ok data -> (length data - i < fuel)%nat ->
  count_loop fuel data i k =
  Ok ((fun l => k + Z.of_nat (length l)) <$> scan fuel (drop i data)).
Proof.
  intros Hok. revert i k. induction fuel as [|fuel IH]; intros i k Hf; [lia|].
  cbn [count_loop]. rewrite scan_step by done. case_bool; reflect_bools;
    [|simpl; do 2 f_equal; lia].
  rewrite decode_drop by done. cbn [obind].
  destruct (decode_ref (drop i data)) as [[n v]|] eqn:Ed; [|done].
  destruct (decode_ref_pos _ _ _ (bytes_ok_drop _ _ Hok) Ed) as [Hn Hl].
  rewrite length_drop in Hl. rewrite (proj2 (Nat.eqb_neq n 0)), IH by lia.
  destruct (scan fuel _); [|done]. simpl. do 2 f_equal. lia.
Qed.

(** On failure the code points decoded so far stay in the output. *)
Lemma to_codepoints_loop_scan fuel data i out :
  bytes_ok data -> (length data - i < fuel)%nat ->
  match scan fuel (drop i data) with
  | Some l => to_codepoints_loop fuel data i out = Ok (true, out ++ l)
  | None => exists l, to_codepoints_loop fuel data i out = Ok (false, out ++ l)
  end.
Proof.
  intros Hok. revert i out. induction fuel as [|fuel IH]; intros i out Hf; [lia|].
  cbn [to_codepoints_loop]. rewrite scan_step by done. case_bool; reflect_bools;
    [|by rewrite app_nil_r].
  rewrite decode_drop by done. cbn [obind].
  destruct (decode_ref (drop i data)) as [[n v]|] eqn:Ed; [|exists []; by rewrite app_nil_r].
  destruct (decode_ref_pos _ _ _ (bytes_ok_drop _ _ Hok) Ed) as [Hn Hl].
  rewrite length_drop in Hl. rewrite (proj2 (Nat.eqb_neq n 0)) by lia.
  specialize (IH (i + n)%nat (out ++ [v])). destruct (scan fuel _); simpl.
  - rewrite IH by lia. by rewrite <- app_assoc.
  - destruct IH as [l ->]; [lia|]. exists (v :: l). by rewrite <- app_assoc.
Qed.

(** ** Claims *)

(** C34. One code point: [encode] accepts exactly the Unicode scalar values, its
    output decodes to the same value and consumes exactly the bytes written, and
    whatever [decode] accepts is byte for byte what [encode] would write (so
    overlong forms, surrogates and values above U+10FFFF are all rejected). The
    decoder never reads outside the buffer. *)
Theorem utf8_codepoint_roundtrip (cp cp0 : Z) (rest data : bytes) :
  0 <= cp -> bytes_ok rest -> bytes_ok data ->
  (forall out, encode cp out = if bool_decide (scalar cp) then (true, out ++ enc cp) else (false, out)) /\
  (scalar cp -> decode (snd (encode cp []) ++ rest) cp0 = Ok (length (enc cp), cp)) /\
  (exists n v, decode data cp0 = Ok (n, v) /\
     (n = 0%nat /\ v = cp0 \/ scalar v /\ encode v [] = (true, take n data))).
Proof.
  intros Hcp Hr Hd. split_and!.
  - intros out. by apply encode_enc.
  - intros Hs. rewrite encode_enc, bool_decide_eq_true_2 by done. cbn [snd app].
    rewrite decode_is_ref, decode_ref_enc by (rewrite ?bytes_ok_app; auto using enc_ok).
    done.
  - rewrite decode_is_ref by done. destruct (decode_ref data) as [[n v]|] eqn:E.
    + apply decode_ref_sound in E as (Hs & Ht & _); [|done]. exists n, v. split; [done|].
      right. split; [done|]. rewrite encode_enc, bool_decide_eq_true_2 by (done || apply Hs).
      by rewrite Ht.
    + exists 0%nat, cp0. auto.
Qed.

Lemma utf8_codepoint_roundtrip_witness :
  decode (snd (encode 0x20AC []) ++ [7]) 0 = Ok (3%nat, 0x20AC).
Proof.
  refine (proj1 (proj2 (utf8_codepoint_roundtrip 0x20AC 0 [7] [] _ _ _)) _);
    first [lia | by apply (bool_decide_unpack _); vm_compute | unfold scalar, kMaxCodepoint; lia].
Defined.

(** C35. Whole strings: [validate], [count_codepoints] and [to_codepoints] agree
    that a buffer is well formed exactly when it is the concatenation of the
    encodings of some scalar values; then they return that verdict, the number of
    those values and the values themselves, and the reading is unique. *)
Theorem utf8_string_spec (data : bytes) (n0 : Z) (out : list Z) :
  bytes_ok data ->
  (exists cps, Forall scalar cps /\ data = enc_all cps /\
     validate data = Ok true /\
     count_codepoints data n0 = Ok (true, Z.of_nat (length cps)) /\
     to_codepoints data out = Ok (true, out ++ cps)) \/
  ((forall cps, Forall scalar cps -> data <> enc_all cps) /\
     validate data = Ok false /\
     count_codepoints data n0 = Ok (false, n0) /\
     exists l, to_codepoints data out = Ok (false, out ++ l)).
Proof.
  intros Hok. unfold validate, count_codepoints, to_codepoints.
  pose proof (to_codepoints_loop_scan (S (length data)) data 0 out Hok ltac:(lia)) as Ht.
  rewrite validate_loop_scan, count_loop_scan by (done || lia).
  rewrite drop_0 in *. destruct (scan (S (length data)) data) as [cps|] eqn:E.
  - left. exists cps. apply scan_sound in E as [Hs Hd]; [|done]. split_and!; done.
  - right. split_and!; [|done..].
    intros cps Hs ->. rewrite scan_enc_all in E by (done || lia). done.
Qed.

Lemma utf8_string_spec_witness :
  validate [0xC0; 0x80] = Ok false /\ ~ (exists cps, Forall scalar cps /\ [0xC0; 0x80] = enc_all cps).
Proof.
  destruct (utf8_string_spec [0xC0; 0x80] 0 []
    ltac:(apply (bool_decide_unpack _); by vm_compute)) as [(cps & _ & _ & H & _)|(H & Hv & _)].
  - discriminate H.
  - split; [exact Hv|]. intros (cps & Hs & E). exact (H cps Hs E).
Defined.
