(* ===== verification/BitReader.v ===== *)
(** * BitReader: the MSB-first bit cursor

    [src/common/bit_reader.cpp]. The state is the buffer with a bit position;
    [read_bits] keeps its two loops, whole bytes while aligned and then single
    bits, and is compared with the one-bit-at-a-time value of the bits. *)

From S2P Require Import Prelude Status.

Record bit_reader := BitRdr { br_data : bytes; size_bits : nat; bit_pos : nat }.

Definition mk_bit_reader (data : bytes) : bit_reader := BitRdr data (length data * 8) 0.

Definition bits_remaining (r : bit_reader) : nat :=
  if (bit_pos r <=? size_bits r)%nat then (size_bits r - bit_pos r)%nat else 0%nat.
Definition bit_eof (r : bit_reader) : bool := (size_bits r <=? bit_pos r)%nat.

Definition br_advance (r : bit_reader) (n : nat) : bit_reader :=
  BitRdr (br_data r) (size_bits r) (bit_pos r + n).
Definition byte_offset (r : bit_reader) : Z := Z.of_nat (bit_pos r / 8).

Definition read_bit (r : bit_reader) : outcome (Z * bit_reader) :=
  if (size_bits r <=? bit_pos r)%nat
  then Throw (parse_error kShortRead (byte_offset r) "bit read past end")
  else
    let byte := (bit_pos r / 8)%nat in
    let shift := 7 - Z.of_nat (bit_pos r mod 8) in
    let? b := at_idx (br_data r) byte in
    Ok (Z.land (Z.shiftr b shift) 1, br_advance r 1).

(** [while (count >= 8 && bit_pos_ % 8 == 0)]; each turn lowers [count]. *)
Fixpoint byte_loop (fuel : nat) (value : Z) (count : nat) (r : bit_reader)
    : outcome (Z * nat * bit_reader) :=
  match fuel with
  | O => NoFuel
  | S fuel' =>
      if (8 <=? count)%nat && (bit_pos r mod 8 =? 0)%nat then
        let? b := at_idx (br_data r) (bit_pos r / 8) in
        byte_loop fuel' (Z.lor (u64 (Z.shiftl value 8)) b) (count - 8) (br_advance r 8)
      else Ok (value, count, r)
  end.

Fixpoint bit_loop (value : Z) (count : nat) (r : bit_reader) : outcome (Z * bit_reader) :=
  match count with
  | O => Ok (value, r)
  | S count' =>
      let? (b, r') := read_bit r in
      bit_loop (Z.lor (u64 (Z.shiftl value 1)) b) count' r'
  end.

Definition read_bits (count : nat) (r : bit_reader) : outcome (Z * bit_reader) :=
  if (count =? 0)%nat then Ok (0, r)
  else if (64 <? count)%nat
  then Throw (parse_error kBadLength (byte_offset r) "bit field wider than 64 bits")
  else if (bits_remaining r <? count)%nat then Throw (parse_error' kShortRead (byte_offset r))
  else
    let? (value, count, r) := byte_loop (S count) 0 count r in
    bit_loop value count r.

Definition skip_bits (count : nat) (r : bit_reader) : outcome bit_reader :=
  if (bits_remaining r <? count)%nat then Throw (parse_error' kShortRead (byte_offset r))
  else Ok (br_advance r count).

Definition align (r : bit_reader) : bit_reader :=
  let rem := (bit_pos r mod 8)%nat in
  if (rem =? 0)%nat then r else br_advance r (8 - rem).

(** ** The bits of a buffer *)

Definition bit_at (data : bytes) (p : nat) : Z :=
  Z.b2z (Z.testbit (nth (p / 8) data 0) (7 - Z.of_nat (p mod 8))).

(** The value of the [n] bits from [p] on, appended to [acc]. *)
Fixpoint bits_val (data : bytes) (p n : nat) (acc : Z) : Z :=
  match n with
  | O => acc
  | S n' => bits_val data (S p) n' (2 * acc + bit_at data p)
  end.

Definition br_ok (r : bit_reader) : Prop :=
  bytes_ok (br_data r) /\ size_bits r = (length (br_data r) * 8)%nat /\
  (bit_pos r <= size_bits r)%nat.

Lemma bit_at_range data p : 0 <= bit_at data p <= 1.
Proof. unfold bit_at. destruct (Z.testbit _ _); simpl; lia. Qed.

Lemma bits_val_app data p n m acc :
  bits_val data p (n + m) acc = bits_val data (p + n) m (bits_val data p n acc).
Proof.
  revert p acc. induction n as [|n IH]; intros p acc; simpl; [by rewrite Nat.add_0_r|].
  rewrite IH. f_equal. lia.
Qed.

(** Shifting the accumulator left and adding a digit of [k] bits never
    overflows while at most 64 bits have been gathered. *)
Lemma shift_in value b k n :
  0 <= k -> 0 <= value < 2 ^ n -> 0 <= n -> n + k <= 64 -> 0 <= b < 2 ^ k ->
  Z.lor (u64 (Z.shiftl value k)) b = value * 2 ^ k + b /\ value * 2 ^ k + b < 2 ^ (n + k).
Proof.
  intros Hk Hv Hn Hnk Hb. rewrite Z.pow_add_r by lia.
  assert (value * 2 ^ k < 2 ^ n * 2 ^ k) by (apply Z.mul_lt_mono_pos_r; lia).
  assert ((value + 1) * 2 ^ k <= 2 ^ n * 2 ^ k) by (apply Z.mul_le_mono_nonneg_r; lia).
  assert (2 ^ n * 2 ^ k <= 2 ^ 64)
    by (rewrite <- Z.pow_add_r by lia; apply Z.pow_le_mono_r; lia).
  split; [|lia]. unfold u64. rewrite Z.mod_small by (rewrite Z.shiftl_mul_pow2; lia).
  by rewrite shiftl_lor_add.
Qed.

Lemma read_bit_ok r : br_ok r -> (bit_pos r < size_bits r)%nat ->
  read_bit r = Ok (bit_at (br_data r) (bit_pos r), br_advance r 1).
Proof.
  intros (Hok & Hs & Hp) Hlt. unfold read_bit. rewrite (proj2 (Nat.leb_gt _ _)) by lia.
  assert (Hi : (bit_pos r / 8 < length (br_data r))%nat)
    by (apply Nat.Div0.div_lt_upper_bound; lia).
  destruct (at_idx_ok _ _ Hi) as (b & Hb & ->). cbn [obind]. do 2 f_equal.
  unfold bit_at. rewrite (nth_lookup_Some _ _ 0 b) by done.
  pose proof (Nat.mod_upper_bound (bit_pos r) 8).
  rewrite land_1, <- Z.bit0_mod, Z.shiftr_spec by lia. done.
Qed.

Lemma br_ok_advance r n : br_ok r -> (bit_pos r + n <= size_bits r)%nat -> br_ok (br_advance r n).
Proof. intros (? & ? & ?) ?. split_and!; simpl; done. Qed.

Lemma bit_loop_ok n value r k :
  br_ok r -> (bit_pos r + n <= size_bits r)%nat ->
  0 <= value < 2 ^ k -> 0 <= k -> k + Z.of_nat n <= 64 ->
  bit_loop value n r = Ok (bits_val (br_data r) (bit_pos r) n value, br_advance r n).
Proof.
  revert value r k. induction n as [|n IH]; intros value r k Hr Hn Hv Hk Hb.
  { simpl. unfold br_advance. rewrite Nat.add_0_r. by destruct r. }
  cbn [bit_loop bits_val]. rewrite read_bit_ok by (done || lia). cbn [obind].
  pose proof (bit_at_range (br_data r) (bit_pos r)).
  destruct (shift_in value (bit_at (br_data r) (bit_pos r)) 1 k) as [-> Hlt]; [lia..|].
  rewrite (IH _ _ (k + 1)); [|by apply br_ok_advance; [|lia]|simpl; lia..].
  simpl. unfold br_advance. simpl. rewrite Nat.add_1_r.
  do 2 f_equal; [f_equal; lia|f_equal; lia].
Qed.

(** Eight bits of an aligned byte are the byte. *)
Lemma byte_bits data i b acc :
  data !! i = Some b -> is_byte b ->
  bits_val data (8 * i) 8 acc = acc * 256 + b.
Proof.
  intros Hi Hb.
  assert (Hbit : forall k, (k < 8)%nat -> bit_at data (8 * i + k) = Z.b2z (Z.testbit b (7 - Z.of_nat k))).
  { intros k Hk. unfold bit_at. replace ((8 * i + k) / 8)%nat with i by dlia.
    replace ((8 * i + k) mod 8)%nat with k by dlia. by rewrite (nth_lookup_Some _ _ 0 b). }
  rewrite <- (Nat.add_0_r (8 * i)). cbn [bits_val]. rewrite <- !Nat.add_succ_r.
  rewrite !Hbit by lia.
  assert (Hsum : b = 128 * Z.b2z (Z.testbit b 7) + 64 * Z.b2z (Z.testbit b 6)
    + 32 * Z.b2z (Z.testbit b 5) + 16 * Z.b2z (Z.testbit b 4) + 8 * Z.b2z (Z.testbit b 3)
    + 4 * Z.b2z (Z.testbit b 2) + 2 * Z.b2z (Z.testbit b 1) + Z.b2z (Z.testbit b 0)).
  { apply Z.eqb_eq. clear -Hb. revert b Hb.
    match goal with |- forall b, is_byte b -> @?P b = true => apply (byte_forallb P) end.
    by vm_compute. }
  change (7 - Z.of_nat 0) with 7. change (7 - Z.of_nat 1) with 6.
  change (7 - Z.of_nat 2) with 5. change (7 - Z.of_nat 3) with 4.
  change (7 - Z.of_nat 4) with 3. change (7 - Z.of_nat 5) with 2.
  change (7 - Z.of_nat 6) with 1. change (7 - Z.of_nat 7) with 0. lia.
Qed.

Lemma byte_loop_ok fuel value count r k :
  br_ok r -> (bit_pos r + count <= size_bits r)%nat -> (count < fuel)%nat ->
  0 <= value < 2 ^ k -> 0 <= k -> k + Z.of_nat count <= 64 ->
  exists m, (m <= count)%nat /\
    byte_loop fuel value count r =
      Ok (bits_val (br_data r) (bit_pos r) m value, (count - m)%nat, br_advance r m) /\
    0 <= bits_val (br_data r) (bit_pos r) m value < 2 ^ (k + Z.of_nat m).
Proof.
  revert value count r k. induction fuel as [|fuel IH]; intros value count r k Hr Hc Hf Hv Hk Hb;
    [lia|]. cbn [byte_loop].
  destruct ((8 <=? count)%nat && (bit_pos r mod 8 =? 0)%nat) eqn:E; reflect_bools.
  - pose proof Hr as (Hok & Hs & Hp).
    assert (Hi : (bit_pos r / 8 < length (br_data r))%nat)
      by (apply Nat.Div0.div_lt_upper_bound; lia).
    destruct (at_idx_ok _ _ Hi) as (b & Hl & ->). cbn [obind].
    pose proof (bytes_ok_lookup _ _ _ Hok Hl) as Hbyte.
    destruct (shift_in value b 8 k) as [-> Hlt]; [unfold is_byte in Hbyte; lia..|].
    change (2 ^ 8) with 256 in *.
    assert (E8 : bits_val (br_data r) (bit_pos r) 8 value = value * 256 + b).
    { replace (bit_pos r) with (8 * (bit_pos r / 8))%nat at 1 by dlia. by apply byte_bits. }
    destruct (IH (value * 256 + b) (count - 8)%nat (br_advance r 8) (k + 8)) as (m & Hm & -> & Hbd);
      [by apply br_ok_advance; [|lia]|simpl; lia|lia|unfold is_byte in Hbyte; lia|lia|lia|].
    simpl in Hbd |- *. exists (8 + m)%nat. rewrite bits_val_app, E8. split_and!.
    + lia.
    + unfold br_advance. simpl. rewrite <- Nat.add_assoc.
      replace (count - 8 - m)%nat with (count - (8 + m))%nat by lia. done.
    + lia.
    + replace (k + Z.of_nat (8 + m)) with (k + 8 + Z.of_nat m) by lia. lia.
  - exists 0%nat. simpl. rewrite Nat.sub_0_r, Z.add_0_r. split_and!; [lia| |lia..].
    unfold br_advance. rewrite Nat.add_0_r. by destruct r.
Qed.

(** ** Claims *)

(** [read_bits], with its byte-at-a-time fast path, returns exactly the value
    of the next [count] bits, most significant first, and advances by [count]; it
    throws [kBadLength] for more than 64 bits and [kShortRead] when fewer bits
    remain, and no access leaves the buffer. *)
Theorem read_bits_correct (r : bit_reader) (count : nat) :
  br_ok r ->
  read_bits count r =
    if (64 <? count)%nat
    then Throw (parse_error kBadLength (byte_offset r) "bit field wider than 64 bits")
    else if (size_bits r - bit_pos r <? count)%nat
    then Throw (parse_error' kShortRead (byte_offset r))
    else Ok (bits_val (br_data r) (bit_pos r) count 0, br_advance r count).
Proof.
  intros Hr. unfold read_bits, bits_remaining. pose proof Hr as (_ & _ & Hp).
  rewrite (proj2 (Nat.leb_le _ _)) by done.
  destruct (count =? 0)%nat eqn:E0; reflect_bools.
  { subst. simpl. unfold br_advance. rewrite Nat.add_0_r. by destruct r. }
  case_bool; [done|]. case_bool; [done|]. reflect_bools.
  destruct (byte_loop_ok (S count) 0 count r 0) as (m & Hm & -> & Hbd); [done|lia..|].
  cbn [obind]. rewrite (bit_loop_ok _ _ _ (0 + Z.of_nat m));
    [|by apply br_ok_advance; [|lia]|simpl; lia..].
  simpl. rewrite <- bits_val_app. unfold br_advance. simpl.
  rewrite <- Nat.add_assoc. by replace (m + (count - m))%nat with count by lia.
Qed.

Lemma read_bits_correct_witness :
  read_bits 12 (BitRdr [0xAB; 0xCD; 0xEF] 24 4) = Ok (0xBCD, BitRdr [0xAB; 0xCD; 0xEF] 24 16).
Proof.
  rewrite (read_bits_correct (BitRdr [0xAB; 0xCD; 0xEF] 24 4) 12); [by vm_compute|].
  split_and!; [by apply (bool_decide_unpack _); vm_compute|done|simpl; lia].
Defined.
