(* ===== verification/Hexdump.v ===== *)
(** * Hexdump: textual rendering of numbers and bytes

    [src/common/hexdump.cpp]. Rendered text is a Rocq [string]; the data being
    rendered is a byte list. *)

From S2P Require Import Prelude.
From Stdlib Require Import Ascii.

Definition kHexDigits : list ascii :=
  ["0"; "1"; "2"; "3"; "4"; "5"; "6"; "7"; "8"; "9"; "a"; "b"; "c"; "d"; "e"; "f"]%char.
Definition hex_digit (d : Z) : ascii := nth (Z.to_nat d) kHexDigits zero.

Definition append_hex_byte (b : Z) : string :=
  String.String (hex_digit (Z.land (Z.shiftr b 4) 0xF))
    (String.String (hex_digit (Z.land b 0xF)) EmptyString).

(** [while (value > 0 && i < 16)]: the digits pushed into [buf], least
    significant first; [i] starts at 0, so [16 - i] turns are left. *)
Fixpoint hex_loop (turns : nat) (value : Z) : list ascii :=
  match turns with
  | O => []
  | S turns' =>
      if 0 <? value then hex_digit (Z.land value 0xF) :: hex_loop turns' (Z.shiftr value 4)
      else []
  end.

Definition hex_buf (value : Z) (min_digits : nat) : list ascii :=
  let buf := if value =? 0 then ["0"%char] else hex_loop 16 value in
  buf ++ replicate (min min_digits 16 - length buf) "0"%char.

(** [while (i > 0) out += buf[--i]]. *)
Definition to_hex (value : Z) (min_digits : nat) : string :=
  ("0x" +:+ String.string_of_list_ascii (rev (hex_buf value min_digits)))%string.

Definition escape_byte (c : Z) : string :=
  if c =? 92 then "\\"%string
  else if (0x20 <=? c) && (c <? 0x7F) then String.String (ascii_of_nat (Z.to_nat c)) EmptyString
  else ("\x" +:+ append_hex_byte c)%string.

Fixpoint escape (s : bytes) : string :=
  match s with
  | [] => EmptyString
  | c :: s' => (escape_byte c +:+ escape s')%string
  end.

(** One column of a row: its hex cell and its character in the ASCII gutter. *)
Definition hex_cell (data : bytes) (i : nat) : string * string :=
  match data !! i with
  | Some b =>
      ((append_hex_byte b +:+ " ")%string,
       if (0x20 <=? b) && (b <? 0x7F)
       then String.String (ascii_of_nat (Z.to_nat b)) EmptyString else "."%string)
  | None => ("   "%string, EmptyString)
  end.

Definition hexdump_row (data : bytes) (row : nat) : string :=
  let cells := map (fun col => hex_cell data (row + col)) (seq 0 16) in
  let cat := fold_right (fun a b => (a +:+ b)%string) EmptyString in
  (to_hex (Z.of_nat row) 8 +:+ "  " +:+ cat (map fst cells) +:+ " "
    +:+ cat (map snd cells) +:+ String.String (ascii_of_nat 10) EmptyString)%string.

(** [for (row = 0; row < size; row += 16)]. *)
Definition hexdump (data : bytes) : string :=
  fold_right (fun k out => (hexdump_row data (16 * k) +:+ out)%string) EmptyString
    (seq 0 ((length data + 15) / 16)).

(** ** Reading the text back *)

Definition digit_val (c : ascii) : Z :=
  let n := Z.of_nat (nat_of_ascii c) in if n <? 58 then n - 48 else n - 87.

Lemma hex_digit_inv d : 0 <= d < 16 -> digit_val (hex_digit d) = d.
Proof.
  intros Hd. apply Z.eqb_eq.
  assert (H : forallb (fun d => digit_val (hex_digit d) =? d) (seqZ 0 16) = true) by by vm_compute.
  rewrite forallb_forall in H. apply H. apply list_elem_of_In, elem_of_seqZ. lia.
Qed.

Fixpoint digits_val (l : list ascii) : Z :=
  match l with [] => 0 | c :: l' => digit_val c + 16 * digits_val l' end.

Lemma land_f a : Z.land a 15 = a mod 16.
Proof. change 15 with (Z.ones 4). by rewrite Z.land_ones. Qed.

Lemma hex_loop_val n v : 0 <= v < 16 ^ Z.of_nat n -> digits_val (hex_loop n v) = v.
Proof.
  revert v. induction n as [|n IH]; intros v Hv; [simpl in *; lia|].
  cbn [hex_loop]. case_bool; reflect_bools; [|simpl; lia].
  cbn [digits_val]. rewrite land_f, hex_digit_inv by (by apply Z.mod_pos_bound).
  rewrite Nat2Z.inj_succ, Z.pow_succ_r in Hv by lia.
  rewrite Z.shiftr_div_pow2, IH by (try split; [apply Z.div_pos; lia|apply Z.div_lt_upper_bound; lia] || lia).
  change (2 ^ 4) with 16. dlia.
Qed.

Lemma digits_val_zeros l n : digits_val (l ++ replicate n "0"%char) = digits_val l.
Proof.
  induction l as [|c l IH]; simpl; [|by rewrite IH].
  induction n as [|n IH]; [done|]. simpl. by rewrite IH.
Qed.

(** Drop the [0x] prefix and evaluate the digits. *)
Definition unhex (s : string) : option Z :=
  match s with
  | String.String "0" (String.String "x" t) => Some (digits_val (rev (String.list_ascii_of_string t)))
  | _ => None
  end%char.

Lemma unhex_to_hex v m : is_u64 v -> unhex (to_hex v m) = Some v.
Proof.
  intros Hv. unfold to_hex, unhex.
  change ("0x" +:+ ?t)%string with (String.String "0" (String.String "x" t)). cbv iota.
  rewrite String.list_ascii_of_string_of_list_ascii, rev_involutive.
  f_equal. unfold hex_buf. rewrite digits_val_zeros. case_bool; reflect_bools; [by subst|].
  apply hex_loop_val. exact Hv.
Qed.

Lemma hex_loop_length n v : (length (hex_loop n v) <= n)%nat.
Proof. revert v. induction n as [|n IH]; intros v; simpl; [lia|]. case_bool; simpl; [|lia]. specialize (IH (Z.shiftr v 4)). lia. Qed.

Lemma hex_buf_length v m : (min m 16 <= length (hex_buf v m) <= 16)%nat.
Proof.
  unfold hex_buf. rewrite length_app, length_replicate.
  assert (length (if (v =? 0)%Z then ["0"%char] else hex_loop 16 v) <= 16)%nat; [|lia].
  case_bool; [simpl; lia|apply hex_loop_length].
Qed.

(** Undo [escape]: a doubled backslash, a hex escape, or a plain character. *)
Fixpoint unescape (s : string) : option bytes :=
  match s with
  | EmptyString => Some []
  | String.String c t =>
      if bool_decide (c = "\"%char) then
        match t with
        | String.String d u =>
            if bool_decide (d = "\"%char) then cons 92 <$> unescape u
            else match u with
                 | String.String h (String.String l w) =>
                     cons (16 * digit_val h + digit_val l) <$> unescape w
                 | _ => None
                 end
        | _ => None
        end
      else cons (Z.of_nat (nat_of_ascii c)) <$> unescape t
  end.

Lemma unescape_byte c t : is_byte c ->
  unescape (escape_byte c +:+ t) = cons c <$> unescape t.
Proof.
  intros Hc. unfold escape_byte. destruct (c =? 92) eqn:E; reflect_bools; [by subst|].
  destruct ((0x20 <=? c) && (c <? 0x7F)) eqn:E2; reflect_bools.
  - change (String.String ?a EmptyString +:+ t)%string with (String.String a t).
    cbn [unescape]. assert (Hn : nat_of_ascii (ascii_of_nat (Z.to_nat c)) = Z.to_nat c)
      by (apply nat_ascii_embedding; lia).
    rewrite bool_decide_eq_false_2.
    + rewrite Hn. rewrite Z2Nat.id by lia. done.
    + intros Heq. apply (f_equal nat_of_ascii) in Heq. rewrite Hn in Heq.
      change (nat_of_ascii "\") with 92%nat in Heq. lia.
  - change (("\x" +:+ append_hex_byte c) +:+ t)%string with
      (String.String "\" (String.String "x"
        (String.String (hex_digit (Z.land (Z.shiftr c 4) 0xF))
          (String.String (hex_digit (Z.land c 0xF)) t)))).
    cbn [unescape]. rewrite bool_decide_eq_true_2, bool_decide_eq_false_2 by done.
    rewrite !hex_digit_inv by (rewrite ?land_f; by apply Z.mod_pos_bound).
    rewrite !land_f, Z.shiftr_div_pow2 by lia. unfold is_byte in Hc.
    assert (Heq : 16 * ((c / 2 ^ 4) mod 16) + c mod 16 = c) by dlia. by rewrite Heq.
Qed.

Lemma unescape_escape s : bytes_ok s -> unescape (escape s) = Some s.
Proof.
  induction 1 as [|c s Hc Hs IH]; [done|]. cbn [escape].
  by rewrite unescape_byte, IH.
Qed.

(** ** Claims *)

(** The text renderings are lossless: the digits of [to_hex] denote the value
    (padded to the requested width, at most 16 digits), and [escape] can be undone
    for every byte string. *)
Theorem rendering_lossless (v : Z) (m : nat) (s : bytes) :
  is_u64 v -> bytes_ok s ->
  unhex (to_hex v m) = Some v /\ (min m 16 <= length (hex_buf v m) <= 16)%nat /\
  unescape (escape s) = Some s.
Proof.
  intros Hv Hs. split_and!; [by apply unhex_to_hex|apply hex_buf_length..|by apply unescape_escape].
Qed.

Lemma rendering_lossless_witness :
  to_hex 0x1F 4 = "0x001f"%string /\ escape [65; 92; 0] = "A\\\x00"%string /\
  unescape "A\\\x00" = Some [65; 92; 0].
Proof.
  split; [done|]. split; [done|].
  exact (proj2 (proj2 (rendering_lossless 0x1F 4 [65; 92; 0] ltac:(by split)
    ltac:(by apply (bool_decide_unpack _); vm_compute)))).
Defined.
