(* ===== verification/OrdMap.v ===== *)
(** * OrdMap: the ordered iteration of [std::map]

    A [std::map] is a [gmap]; where the code iterates it, takes [begin()] or calls
    [lower_bound], it visits the entries in ascending key order, which is the
    sorted listing defined here for any totally ordered key type. *)

From S2P Require Import Prelude.

(** A total order on keys with decidable comparison: what [std::less] gives. *)
Class KeyOrder (K : Type) := key_le : relation K.
Class KeyOrderLaws (K : Type) `{KeyOrder K} := {
  key_le_dec :: forall x y : K, Decision (key_le x y);
  key_le_refl : forall x : K, key_le x x;
  key_le_trans : forall x y z : K, key_le x y -> key_le y z -> key_le x z;
  key_le_antisym : forall x y : K, key_le x y -> key_le y x -> x = y;
  key_le_total : forall x y : K, key_le x y \/ key_le y x;
}.

#[export] Instance Z_key : KeyOrder Z := Z.le.
#[export] Instance Z_key_laws : KeyOrderLaws Z.
Proof. split; unfold key_le, Z_key; first [apply _ | lia]. Defined.

(** Lexicographic order on pairs, the order of [std::pair]. *)
#[export] Instance pair_key : KeyOrder (Z * Z) :=
  fun a b => a.1 < b.1 \/ a.1 = b.1 /\ a.2 <= b.2.
#[export] Instance pair_key_laws : KeyOrderLaws (Z * Z).
Proof.
  split; unfold key_le, pair_key; first [apply _ | intros; simpl in *; try lia].
  destruct x, y; simpl in *; f_equal; lia.
Defined.

#[export] Instance key_le_Transitive `{KeyOrderLaws K} : Transitive (key_le (K := K)).
Proof. intros x y z. apply key_le_trans. Qed.
#[export] Instance key_le_Total `{KeyOrderLaws K} : Total (key_le (K := K)).
Proof. intros x y. apply key_le_total. Qed.

Section ordered.
Context {K A : Type} `{Countable K} `{KeyOrderLaws K}.
Implicit Types (m : gmap K A) (k : K) (v : A).

Definition kv_le (a b : K * A) : Prop := key_le a.1 b.1.
#[local] Instance kv_le_dec a b : Decision (kv_le a b).
Proof. unfold kv_le. apply _. Defined.

#[local] Instance kv_le_trans : Transitive kv_le.
Proof. intros x y z. unfold kv_le. apply key_le_trans. Qed.
#[local] Instance kv_le_total : Total kv_le.
Proof. intros x y. unfold kv_le. apply key_le_total. Qed.

(** All entries in ascending key order. *)
Definition entries m : list (K * A) := merge_sort kv_le (map_to_list m).

(** [begin()], and [lower_bound(k)] as the entries from there on. *)
Definition map_begin m : option (K * A) := head (entries m).
Definition entries_from k m : list (K * A) := filter (fun kv => key_le k kv.1) (entries m).

Lemma entries_perm m : entries m ≡ₚ map_to_list m.
Proof. apply merge_sort_Permutation. Qed.

Lemma elem_of_entries m k v : (k, v) ∈ entries m <-> m !! k = Some v.
Proof. rewrite entries_perm. apply elem_of_map_to_list. Qed.

Lemma NoDup_entries_fst m : NoDup (entries m).*1.
Proof. rewrite entries_perm. apply NoDup_fst_map_to_list. Qed.

Lemma entries_sorted m : StronglySorted kv_le (entries m).
Proof. apply StronglySorted_merge_sort; apply _. Qed.

Lemma length_entries m : length (entries m) = size m.
Proof. by rewrite entries_perm, length_map_to_list. Qed.

Lemma map_begin_None m : map_begin m = None <-> m = ∅.
Proof.
  unfold map_begin. rewrite head_None, <- length_zero_iff_nil, length_entries.
  apply map_size_empty_iff.
Qed.

(** [begin()] is an entry with the smallest key. *)
Lemma map_begin_Some m k v : map_begin m = Some (k, v) ->
  m !! k = Some v /\ forall k' v', m !! k' = Some v' -> key_le k k'.
Proof.
  unfold map_begin. intros E. pose proof (entries_sorted m) as HS.
  pose proof (fun k v => elem_of_entries m k v) as HE.
  destruct (entries m) as [|kv l]; [done|]. injection E as ->.
  split; [apply HE; left|]. intros k' v' Hk'. apply HE in Hk'.
  apply elem_of_cons in Hk' as [[= -> ->]|Hin]; [apply key_le_refl|].
  apply StronglySorted_inv in HS as [_ HF]. rewrite Forall_forall in HF.
  apply (HF _ Hin).
Qed.

Lemma map_begin_is_Some m : m <> ∅ -> exists k v, map_begin m = Some (k, v).
Proof.
  intros Hm. destruct (map_begin m) as [[k v]|] eqn:E; [by eauto|].
  by apply map_begin_None in E.
Qed.
End ordered.
