(* ===== verification/Frame.v ===== *)
(** * Frame: the streamcodec wire format

    [include/streamcodec/frame.hpp], [src/streamcodec/frame.cpp] (frames, CRC-16),
    [encoder.cpp] (writing frames and fragmenting messages) and
    [frame_reader.cpp] (sync policy and reading one frame). *)

From S2P Require Import Prelude Status ByteIO.

Definition kSync : Z := 0x53C7.
Definition kVersion : Z := 1.

Inductive FrameType := kData | kControl | kAck | kReset.

#[export] Instance FrameType_eq_dec : EqDecision FrameType.
Proof. solve_decision. Defined.

(** The enum's underlying value. *)
Definition frame_type_byte (t : FrameType) : Z :=
  match t with kData => 0 | kControl => 1 | kAck => 2 | kReset => 3 end.

Definition frame_type_name (t : FrameType) : string :=
  match t with
  | kData => "DATA" | kControl => "CONTROL" | kAck => "ACK" | kReset => "RESET"
  end.

Definition kFlagFin : Z := 0x01.
Definition kFlagFrag : Z := 0x02.
Definition kFlagCompressed : Z := 0x04.
Definition kFlagHasCrc : Z := 0x08.
Definition kHeaderFixedBytes : Z := 19.

Record Frame := MkFrame {
  f_type : FrameType;
  f_version : Z;
  f_flags : Z;
  f_stream_id : Z;
  f_msg_id : Z;
  f_seq : Z;
  f_frag_offset : Z;
  f_payload_len : Z;
  f_has_crc : bool;
  f_header_crc : Z;
  f_crc_ok : bool;
  f_header_offset : Z;
  f_payload : bytes;
}.

Definition fin (f : Frame) : bool := negb (Z.land (f_flags f) kFlagFin =? 0).
Definition frag (f : Frame) : bool := negb (Z.land (f_flags f) kFlagFrag =? 0).
Definition compressed (f : Frame) : bool := negb (Z.land (f_flags f) kFlagCompressed =? 0).

(** ** CRC-16/CCITT-FALSE *)

Definition crc16_bit (crc : Z) : Z :=
  if negb (Z.land crc 0x8000 =? 0)
  then u16 (Z.lxor (Z.shiftl crc 1) 0x1021) else u16 (Z.shiftl crc 1).
Definition crc16_byte (crc d : Z) : Z :=
  Nat.iter 8 crc16_bit (u16 (Z.lxor crc (Z.shiftl d 8))).
Definition crc16 (data : bytes) : Z := foldl crc16_byte 0xFFFF data.

(** ** Encoding *)

Record FrameSpec := MkSpec {
  sp_type : FrameType;
  sp_flags : Z;
  sp_stream_id : Z;
  sp_msg_id : Z;
  sp_seq : Z;
  sp_frag_offset : Z;
  sp_payload : bytes;
  sp_with_crc : bool;
}.

Definition kMaxFramePayload : nat := Z.to_nat 0xFFFF.

Definition write_fixed_header (hdr : bytes) (spec : FrameSpec) (flags payload_len : Z) : bytes :=
  let hdr := put_u16be hdr kSync in
  let hdr := put_u8 hdr kVersion in
  let hdr := put_u8 hdr (frame_type_byte (sp_type spec)) in
  let hdr := put_u8 hdr flags in
  let hdr := put_u16be hdr (sp_stream_id spec) in
  let hdr := put_u32be hdr (sp_msg_id spec) in
  let hdr := put_u16be hdr (sp_seq spec) in
  let hdr := put_u32be hdr (sp_frag_offset spec) in
  put_u16be hdr payload_len.

(** The flags byte actually written. *)
Definition resolve_flags (spec : FrameSpec) : Z :=
  if sp_with_crc spec then u8 (Z.lor (sp_flags spec) kFlagHasCrc)
  else u8 (Z.land (sp_flags spec) (Z.lnot kFlagHasCrc)).

Definition encode_frame (w : bytes) (spec : FrameSpec) : bytes :=
  let n := min (length (sp_payload spec)) kMaxFramePayload in
  let payload_len := u16 (Z.of_nat n) in
  let flags := resolve_flags spec in
  let hb := write_fixed_header [] spec flags payload_len in
  let w := put_bytes w hb in
  let w := if sp_with_crc spec then put_u16be w (crc16 hb) else w in
  if negb (n =? 0)%nat then put_bytes w (take n (sp_payload spec)) else w.

(** The overload that returns a buffer of its own. *)
Definition encode_frame_bytes (spec : FrameSpec) : bytes := encode_frame [] spec.

(** The body of the fragment loop of [encode_message]. *)
Definition fragment_spec (stream_id msg_id : Z) (payload : bytes) (multi compressed with_crc : bool)
    (offset chunk : nat) (seq : Z) (last : bool) : FrameSpec :=
  let flags := 0 in
  let flags := if multi then u8 (Z.lor flags kFlagFrag) else flags in
  let flags := if last then u8 (Z.lor flags kFlagFin) else flags in
  let flags := if compressed then u8 (Z.lor flags kFlagCompressed) else flags in
  MkSpec kData flags stream_id msg_id seq (u32 (Z.of_nat offset))
    (if negb (chunk =? 0)%nat then take chunk (drop offset payload) else []) with_crc.

(** [for (i = 0; i < frag_count; ++i)], with [n] turns left. *)
Fixpoint fragment_loop (stream_id msg_id : Z) (payload : bytes) (max_fragment : nat)
    (multi compressed with_crc : bool) (n : nat) (offset : nat) (seq : Z)
    (w : bytes) (emitted : nat) : bytes * nat :=
  match n with
  | O => (w, emitted)
  | S n' =>
      let chunk := min max_fragment (length payload - offset) in
      let spec := fragment_spec stream_id msg_id payload multi compressed with_crc
                    offset chunk seq (n' =? 0)%nat in
      fragment_loop stream_id msg_id payload max_fragment multi compressed with_crc n'
        (offset + chunk) (u16 (seq + 1)) (encode_frame w spec) (S emitted)
  end.

Definition clamp_fragment (max_fragment : nat) : nat :=
  min (if (max_fragment =? 0)%nat then 1%nat else max_fragment) kMaxFramePayload.

Definition frag_count (total max_fragment : nat) : nat :=
  if (total =? 0)%nat then 1%nat else ((total + max_fragment - 1) / max_fragment)%nat.

Definition encode_message (w : bytes) (stream_id msg_id : Z) (payload : bytes)
    (max_fragment : nat) (first_seq : Z) (compressed with_crc : bool) : bytes * nat :=
  let max_fragment := clamp_fragment max_fragment in
  let count := frag_count (length payload) max_fragment in
  let multi := (1 <? count)%nat in
  fragment_loop stream_id msg_id payload max_fragment multi compressed with_crc
    count 0 first_seq w 0.

(** ** Reading *)

(** [p[0] == hi && p[1] == lo] at the cursor; the second access only happens when
    the first byte matches. *)
Definition on_sync : Rd bool :=
  let! b0 := rd_at 0 in
  if b0 =? Z.land (Z.shiftr kSync 8) 0xFF
  then let! b1 := rd_at 1 in rd_ret (b1 =? Z.land kSync 0xFF)
  else rd_ret false.

Definition kResyncWindow : nat := Z.to_nat 4096.

(** The bounded scan with [n] turns left; [true] when it stopped on a sync word. *)
Fixpoint resync_loop (n : nat) : Rd bool :=
  let! rem := get_remaining in
  match n with
  | O => rd_ret false
  | S n' =>
      if (2 <=? rem)%nat then
        let! hit := on_sync in
        if (hit : bool) then rd_ret true else skip 1 ;! resync_loop n'
      else rd_ret false
  end.

Definition align_to_sync (first : bool) : Rd unit :=
  let! rem := get_remaining in
  let! hit := (if (2 <=? rem)%nat then on_sync else rd_ret false) in
  if (hit : bool) then rd_ret tt
  else if first then
    let! off := get_offset in
    rd_throw (parse_error kBadMagic off "first frame does not start with sync word")
  else
    let! hit := resync_loop kResyncWindow in
    if (hit : bool) then rd_ret tt
    else
      let! rem := get_remaining in
      if (rem <? 2)%nat then skip (Z.of_nat rem)
      else
        let! off := get_offset in
        rd_throw (parse_error kBadMagic off
          "could not resynchronize to a frame within the scan window").

Definition frame_type_of (header_offset type_byte : Z) : Rd FrameType :=
  match type_byte with
  | 0 => rd_ret kData
  | 1 => rd_ret kControl
  | 2 => rd_ret kAck
  | 3 => rd_ret kReset
  | _ => rd_throw (parse_error kBadType header_offset "unknown frame type")
  end.

(** The field-by-field decode of the borrowed header span by the reader [h]. *)
Definition read_fixed_header (off : Z) : Rd Frame :=
  let! sync := read_u16be in
  if negb (sync =? kSync)
  then rd_throw (parse_error kBadMagic off "frame sync mismatch after alignment") else
  let! version := read_u8 in
  if negb (version =? kVersion)
  then rd_throw (parse_error kBadVersion off "unsupported frame version") else
  let! type_byte := read_u8 in
  let! type := frame_type_of off type_byte in
  let! flags := read_u8 in
  let! stream_id := read_u16be in
  let! msg_id := read_u32be in
  let! seq := read_u16be in
  let! frag_offset := read_u32be in
  let! payload_len := read_u16be in
  rd_ret (MkFrame type version flags stream_id msg_id seq frag_offset payload_len
            false 0 false off []).

Definition set_crc (f : Frame) (stored : Z) (ok : bool) : Frame :=
  MkFrame (f_type f) (f_version f) (f_flags f) (f_stream_id f) (f_msg_id f) (f_seq f)
    (f_frag_offset f) (f_payload_len f) true stored ok (f_header_offset f) (f_payload f).
Definition set_payload (f : Frame) (payload : bytes) : Frame :=
  MkFrame (f_type f) (f_version f) (f_flags f) (f_stream_id f) (f_msg_id f) (f_seq f)
    (f_frag_offset f) (f_payload_len f) (f_has_crc f) (f_header_crc f) (f_crc_ok f)
    (f_header_offset f) payload.

Definition frame_body (off : Z) : Rd Frame :=
  let! hdr := read_raw kHeaderFixedBytes in
  let! f := with_sub hdr (read_fixed_header off) in
  let! f := (if negb (Z.land (f_flags f) kFlagHasCrc =? 0) then
               let! stored := read_u16be in
               rd_ret (set_crc f stored (crc16 hdr =? stored))
             else rd_ret f) in
  let! payload := read_bytes (f_payload_len f) in
  rd_ret (set_payload f payload).

Definition frame_next (first : bool) : Rd Frame :=
  align_to_sync first ;!
  let! rem := get_remaining in
  let! off := get_offset in
  if (rem <? 2)%nat
  then rd_throw (parse_error kShortRead off "no frame remaining after sync alignment")
  else frame_body off.

(** ** Well-formed specs and frames *)

Definition spec_ok (s : FrameSpec) : Prop :=
  is_byte (sp_flags s) /\ is_u16 (sp_stream_id s) /\ is_u32 (sp_msg_id s) /\
  is_u16 (sp_seq s) /\ is_u32 (sp_frag_offset s) /\ bytes_ok (sp_payload s).

#[export] Instance spec_ok_dec s : Decision (spec_ok s).
Proof. unfold spec_ok, is_u16, is_u32. apply _. Defined.

Definition frame_ok (f : Frame) : Prop :=
  is_byte (f_flags f) /\ is_u16 (f_stream_id f) /\ is_u32 (f_msg_id f) /\
  is_u16 (f_seq f) /\ is_u32 (f_frag_offset f) /\ bytes_ok (f_payload f) /\
  Z.of_nat (length (f_payload f)) = f_payload_len f /\ is_u16 (f_payload_len f) /\
  f_version f = kVersion.

(** The fixed header of a spec, the payload it carries, and the frame a reader
    finds at offset [off]. *)
Definition spec_payload (s : FrameSpec) : bytes := take kMaxFramePayload (sp_payload s).
Definition spec_header (s : FrameSpec) : bytes :=
  rev (le_bytes 2 kSync) ++ [kVersion] ++ [frame_type_byte (sp_type s)] ++
  [resolve_flags s] ++ rev (le_bytes 2 (sp_stream_id s)) ++ rev (le_bytes 4 (sp_msg_id s)) ++
  rev (le_bytes 2 (sp_seq s)) ++ rev (le_bytes 4 (sp_frag_offset s)) ++
  rev (le_bytes 2 (Z.of_nat (length (spec_payload s)))).
Definition spec_crc (s : FrameSpec) : bytes :=
  if sp_with_crc s then rev (le_bytes 2 (crc16 (spec_header s))) else [].
Definition spec_bytes (s : FrameSpec) : bytes := spec_header s ++ spec_crc s ++ spec_payload s.

Definition frame_of_spec (off : Z) (s : FrameSpec) : Frame :=
  MkFrame (sp_type s) kVersion (resolve_flags s) (sp_stream_id s) (sp_msg_id s) (sp_seq s)
    (sp_frag_offset s) (Z.of_nat (length (spec_payload s))) (sp_with_crc s)
    (if sp_with_crc s then crc16 (spec_header s) else 0) (sp_with_crc s) off (spec_payload s).

Lemma kMaxFramePayload_Z : Z.of_nat kMaxFramePayload = 65535.
Proof. done. Qed.
#[global] Opaque kMaxFramePayload kResyncWindow.

Lemma spec_payload_length s : (length (spec_payload s) <= kMaxFramePayload)%nat.
Proof. unfold spec_payload. rewrite length_take. lia. Qed.
Lemma spec_payload_width s : is_u16 (Z.of_nat (length (spec_payload s))).
Proof.
  pose proof (spec_payload_length s). pose proof kMaxFramePayload_Z. unfold is_u16. lia.
Qed.

Lemma u16_small z : is_u16 z -> u16 z = z.
Proof. apply Z.mod_small. Qed.

Lemma encode_frame_app w s : encode_frame w s = w ++ spec_bytes s.
Proof.
  unfold encode_frame, spec_bytes, put_bytes.
  assert (Hn : min (length (sp_payload s)) kMaxFramePayload = length (spec_payload s)).
  { unfold spec_payload. rewrite length_take. lia. }
  rewrite Hn, u16_small by apply spec_payload_width.
  assert (Hh : write_fixed_header [] s (resolve_flags s)
    (Z.of_nat (length (spec_payload s))) = spec_header s).
  { unfold write_fixed_header, put_u8. autorewrite with bw_put.
    unfold spec_header. by rewrite <- !app_assoc. }
  rewrite Hh. unfold spec_crc.
  assert (Hp : take (length (spec_payload s)) (sp_payload s) = spec_payload s).
  { unfold spec_payload. rewrite length_take.
    destruct (Nat.le_ge_cases (length (sp_payload s)) kMaxFramePayload).
    - rewrite !take_ge; [done|lia|lia].
    - by rewrite Nat.min_l by lia. }
  rewrite Hp. destruct (length (spec_payload s) =? 0)%nat eqn:E; reflect_bools; simpl negb;
    cbv iota.
  - apply nil_length_inv in E. rewrite E, app_nil_r. destruct (sp_with_crc s);
      [by rewrite put_u16be_app, <- app_assoc|by rewrite app_nil_r].
  - destruct (sp_with_crc s); [by rewrite put_u16be_app, <- !app_assoc|by rewrite <- app_assoc].
Qed.

Lemma crc16_bit_width c : is_u16 (crc16_bit c).
Proof. unfold crc16_bit. case_bool; by apply Z.mod_pos_bound. Qed.
Lemma crc16_width data : is_u16 (crc16 data).
Proof.
  unfold crc16. assert (H : is_u16 0xFFFF) by (unfold is_u16; lia). revert H.
  generalize 0xFFFF. induction data as [|d data IH]; intros c Hc; [done|].
  simpl. apply IH. apply crc16_bit_width.
Qed.

(** HAS_CRC in the written flags says exactly whether the CRC was requested. *)
Lemma resolve_flags_spec s : is_byte (sp_flags s) ->
  is_byte (resolve_flags s) /\
  negb (Z.land (resolve_flags s) kFlagHasCrc =? 0) = sp_with_crc s.
Proof.
  intros H. split.
  { unfold resolve_flags. destruct (sp_with_crc s); by apply Z.mod_pos_bound. }
  apply eqb_prop. unfold resolve_flags. destruct (sp_with_crc s); revert H;
    generalize (sp_flags s); match goal with |- forall b, is_byte b -> @?P b = true =>
      apply (byte_forallb P) end; by vm_compute.
Qed.

(** The other flag bits are the caller's. *)
Lemma resolve_flags_bits s k : is_byte (sp_flags s) -> In k [kFlagFin; kFlagFrag; kFlagCompressed] ->
  (Z.land (resolve_flags s) k =? 0) = (Z.land (sp_flags s) k =? 0).
Proof.
  intros H Hk. apply eqb_prop. unfold resolve_flags. destruct (sp_with_crc s); revert H;
    generalize (sp_flags s); simpl in Hk; destruct Hk as [<-|[<-|[<-|[]]]];
    match goal with |- forall b, is_byte b -> @?P b = true =>
      apply (byte_forallb P) end; by vm_compute.
Qed.

Lemma spec_header_length s : length (spec_header s) = 19%nat.
Proof. done. Qed.

Lemma spec_header_ok s : spec_ok s -> bytes_ok (spec_header s).
Proof.
  intros (Hf & _). unfold spec_header. pose proof (resolve_flags_spec s Hf) as [Hr _].
  assert (Hle : forall n v, bytes_ok (rev (le_bytes n v)))
    by (intros; apply List.Forall_rev, le_bytes_ok).
  assert (Ht : is_byte (frame_type_byte (sp_type s))) by by destruct (sp_type s).
  assert (H1 : forall b, is_byte b -> bytes_ok [b]) by (intros; constructor; [done|constructor]).
  rewrite !bytes_ok_app. split_and!; auto. by apply H1.
Qed.

Lemma spec_bytes_ok s : spec_ok s -> bytes_ok (spec_bytes s).
Proof.
  intros H. unfold spec_bytes. rewrite !bytes_ok_app. split_and!.
  - by apply spec_header_ok.
  - unfold spec_crc. case_bool; [apply List.Forall_rev, le_bytes_ok|constructor].
  - unfold spec_payload. apply bytes_ok_take. apply H.
Qed.

(** ** Reading back what was written *)

Lemma parses_frame_type off t : 
  parses (frame_type_of off (frame_type_byte t)) [] t.
Proof. destruct t; apply parses_ret. Qed.

Lemma parses_fixed_header off s : spec_ok s ->
  parses (read_fixed_header off) (spec_header s)
    (MkFrame (sp_type s) kVersion (resolve_flags s) (sp_stream_id s) (sp_msg_id s) (sp_seq s)
       (sp_frag_offset s) (Z.of_nat (length (spec_payload s))) false 0 false off []).
Proof.
  intros (Hf & Hs & Hm & Hq & Ho & Hp). unfold read_fixed_header, spec_header.
  eapply parses_bind; [apply parses_u16be; by split|]. rewrite Z.eqb_refl. cbn [negb].
  eapply parses_bind; [apply parses_u8|]. rewrite Z.eqb_refl. cbn [negb].
  eapply parses_bind; [apply parses_u8|]. cbv beta.
  rewrite <- (app_nil_l ([resolve_flags s] ++ _)).
  eapply parses_bind; [apply parses_frame_type|]. cbv beta.
  eapply parses_bind; [apply parses_u8|]. cbv beta.
  eapply parses_bind; [by apply parses_u16be|]. cbv beta.
  eapply parses_bind; [by apply parses_u32be|]. cbv beta.
  eapply parses_bind; [by apply parses_u16be|]. cbv beta.
  eapply parses_bind; [by apply parses_u32be|]. cbv beta.
  eapply parses_bind_nil; [apply parses_u16be, spec_payload_width|]. apply parses_ret.
Qed.

Lemma parses_frame_body off s : spec_ok s ->
  parses (frame_body off) (spec_bytes s) (frame_of_spec off s).
Proof.
  intros H. pose proof H as (Hf & _). unfold frame_body, spec_bytes, read_raw.
  eapply parses_bind; [by apply parses_read_bytes|]. cbv beta.
  pose proof (parses_fixed_header off s H [] [] ) as Hh. rewrite app_nil_r in Hh.
  eapply parses_with_sub; [apply Hh, (spec_header_ok s H)|]. cbn [f_flags].
  destruct (resolve_flags_spec s Hf) as [_ ->]. unfold spec_crc, frame_of_spec.
  destruct (sp_with_crc s).
  - eapply parses_bind.
    { eapply parses_bind_nil; [apply parses_u16be, crc16_width|]. apply parses_ret. }
    cbn [f_payload_len set_crc]. rewrite Z.eqb_refl.
    eapply parses_bind_nil; [by apply parses_read_bytes|]. apply parses_ret.
  - eapply parses_bind; [apply parses_ret|]. cbn [f_payload_len].
    eapply parses_bind_nil; [by apply parses_read_bytes|]. apply parses_ret.
Qed.

(** *** Synchronisation *)

(** A reader standing at the sync word, and the test there. *)
Definition starts_sync (l : bytes) : bool :=
  match l with b0 :: b1 :: _ => (b0 =? 0x53) && (b1 =? 0xC7) | _ => false end.

Lemma rd_left_app pre l : rd_left (Rdr (pre ++ l) (length pre)) = length l.
Proof. unfold rd_left. simpl. rewrite length_app. lia. Qed.

Lemma rd_remaining_app pre l : rd_remaining (Rdr (pre ++ l) (length pre)) = length l.
Proof.
  unfold rd_remaining, rd_size. simpl. rewrite length_app.
  rewrite (proj2 (Nat.leb_le _ _)) by lia. lia.
Qed.

Lemma on_sync_app pre l : (2 <= length l)%nat ->
  on_sync (Rdr (pre ++ l) (length pre)) = Ok (starts_sync l, Rdr (pre ++ l) (length pre)).
Proof.
  intros Hl. destruct l as [|b0 [|b1 l]]; simpl in Hl; [lia..|].
  unfold on_sync, rd_bind, rd_at, at_idx. cbn [rd_data rd_pos].
  rewrite !lookup_app_r, !Nat.add_0_r, Nat.sub_diag by lia. cbn [lookup list_lookup obind].
  change (Z.land (Z.shiftr kSync 8) 255) with 0x53. change (Z.land kSync 255) with 0xC7.
  unfold starts_sync. destruct (b0 =? 0x53); [|done]. cbn [rd_bind].
  unfold rd_bind, rd_at, at_idx. cbn [rd_data rd_pos].
  rewrite lookup_app_r by lia. replace (length pre + 1 - length pre)%nat with 1%nat by lia.
  done.
Qed.

Lemma skip1_app pre b l :
  skip 1 (Rdr (pre ++ b :: l) (length pre)) = Ok (tt, Rdr ((pre ++ [b]) ++ l) (length (pre ++ [b]))).
Proof.
  unfold skip, rd_bind, require, rd_advance. rewrite rd_remaining_app.
  rewrite (proj2 (Z.ltb_ge _ _)) by (simpl length; lia). cbn [obind].
  rewrite length_app, <- app_assoc. done.
Qed.

(** Garbage with no sync word at any of its positions is skipped within the
    window. *)
Lemma resync_loop_skips g l pre n :
  starts_sync l = true -> (length g < n)%nat ->
  (forall i, (i < length g)%nat -> starts_sync (drop i (g ++ l)) = false) ->
  resync_loop n (Rdr (pre ++ g ++ l) (length pre)) =
  Ok (true, Rdr ((pre ++ g) ++ l) (length (pre ++ g))).
Proof.
  assert (Hl2 : starts_sync l = true -> (2 <= length l)%nat).
  { destruct l as [|? [|]]; simpl; done || lia. }
  intros Hl. specialize (Hl2 Hl). revert pre n. induction g as [|b g IH]; intros pre n Hn Hg;
    (destruct n as [|n]; [simpl in Hn; lia|]);
    cbn [resync_loop]; unfold rd_bind at 1, get_remaining; rewrite rd_remaining_app; cbn [obind];
    rewrite (proj2 (Nat.leb_le 2 _)) by (rewrite ?length_app; simpl; lia);
    unfold rd_bind at 1; rewrite on_sync_app by (rewrite ?length_app; simpl; lia); cbn [obind].
  - cbn [app]. rewrite Hl. unfold rd_ret. by rewrite !app_nil_r.
  - pose proof (Hg 0%nat ltac:(simpl; lia)) as H0. rewrite drop_0 in H0. rewrite H0.
    unfold rd_bind. rewrite <- app_comm_cons, skip1_app.
    cbn [obind]. rewrite (IH (pre ++ [b])).
    + by rewrite <- (app_assoc pre [b] g).
    + simpl in Hn. lia.
    + intros i Hi. apply (Hg (S i)). simpl. lia.
Qed.

Lemma spec_bytes_sync s rest : starts_sync (spec_bytes s ++ rest) = true.
Proof. done. Qed.

Lemma frame_next_at_sync first pre s post :
  spec_ok s -> bytes_ok (pre ++ spec_bytes s ++ post) ->
  frame_next first (Rdr (pre ++ spec_bytes s ++ post) (length pre)) =
  Ok (frame_of_spec (Z.of_nat (length pre)) s,
      Rdr (pre ++ spec_bytes s ++ post) (length (pre ++ spec_bytes s))).
Proof.
  intros Hs Hok. assert (H2 : (2 <= length (spec_bytes s ++ post))%nat) by (simpl; lia).
  unfold frame_next, rd_bind at 1, align_to_sync, rd_bind at 1, get_remaining.
  rewrite rd_remaining_app. cbn [obind]. rewrite (proj2 (Nat.leb_le 2 _)) by done.
  unfold rd_bind at 1. rewrite on_sync_app by done. cbn [obind]. rewrite spec_bytes_sync.
  unfold rd_ret at 1. cbn [obind]. unfold rd_bind at 1. rewrite rd_remaining_app. cbn [obind].
  unfold rd_bind at 1, get_offset. cbn [obind]. rewrite (proj2 (Nat.ltb_ge _ 2)) by done.
  rewrite parses_frame_body by done. by rewrite length_app.
Qed.

(** ** Safety of the reader *)

Lemma triple_get_remaining : triple 0 get_remaining (fun _ => True).
Proof.
  intros r Hr. split; [|done]. split_and!; [apply Hr..|done|lia].
Qed.
#[export] Hint Resolve triple_get_remaining : rd.

(** After [remaining() >= 2] the two peeks are in range. *)
Lemma on_sync_ok r : rd_ok r -> (2 <= rd_left r)%nat -> exists b, on_sync r = Ok (b, r).
Proof.
  intros Hr Hl.
  destruct (rd_at_window 0 2 r) as (b0 & _ & E0); [lia..|].
  destruct (rd_at_window 1 2 r) as (b1 & _ & E1); [lia..|].
  unfold on_sync, rd_bind. rewrite E0. cbn [obind]. case_bool; [|by eexists].
  rewrite E1. by eexists.
Qed.

Lemma triple_skip n : 0 <= n -> triple (Z.to_nat n) (skip n) (fun _ => True).
Proof.
  intros Hn r Hr. unfold skip, rd_bind, require, rd_advance. rewrite rd_remaining_left by done.
  case_bool; [done|]. reflect_bools. cbn [obind oholds]. split; [|done].
  apply advances_advance; [done|]. destruct Hr. unfold rd_left in *. lia.
Qed.

(** [remaining() >= 2 && p[0] == .. && p[1] == ..] *)
Lemma triple_guarded_sync (m : bool -> Rd unit) :
  (forall b, triple 0 (m b) (fun _ => True)) ->
  triple 0 (let! rem := get_remaining in
            let! hit := (if (2 <=? rem)%nat then on_sync else rd_ret false) in m hit)
    (fun _ => True).
Proof.
  intros Hm r Hr. unfold rd_bind, get_remaining. cbn [obind].
  rewrite rd_remaining_left by done. case_bool; reflect_bools.
  - destruct (on_sync_ok r) as [b ->]; [done..|]. cbn [obind]. by apply Hm.
  - cbn [rd_ret obind]. by apply Hm.
Qed.

Lemma triple_resync n : triple 0 (resync_loop n) (fun _ => True).
Proof.
  induction n as [|n IH]; intros r Hr; cbn [resync_loop]; unfold rd_bind at 1, get_remaining;
    cbn [obind]; [by apply (triple_ret false)|].
  rewrite rd_remaining_left by done. case_bool; reflect_bools; [|by apply (triple_ret false)].
  destruct (on_sync_ok r) as [b Es]; [done..|]. unfold rd_bind at 1. rewrite Es. cbn [obind].
  destruct b; [by apply (triple_ret true)|].
  apply (triple_step 1 (skip 1) (fun _ => resync_loop n) (fun _ => True)); [|done..].
  by apply triple_skip.
Qed.
#[export] Hint Resolve triple_resync : rd.

Lemma triple_align first : triple 0 (align_to_sync first) (fun _ => True).
Proof.
  apply (triple_guarded_sync (fun hit => if (hit : bool) then rd_ret tt else _)). intros [];
    [by apply triple_ret|].
  destruct first; [rd_step; apply triple_throw|].
  eapply (triple_step 0); [apply triple_resync|]. intros [] _; [by apply triple_ret|].
  eapply (triple_step 0); [apply triple_get_remaining|]. intros rem _.
  case_bool; [eapply triple_weaken, triple_skip; lia|]. rd_step. apply triple_throw.
Qed.

Lemma triple_frame_type off b : triple 0 (frame_type_of off b) (fun _ => True).
Proof.
  destruct b as [|[[]|[]|]|]; simpl; (by apply triple_ret) || apply triple_throw.
Qed.
#[export] Hint Resolve triple_frame_type triple_align : rd.

Definition header_ok (f : Frame) : Prop :=
  is_byte (f_flags f) /\ is_u16 (f_stream_id f) /\ is_u32 (f_msg_id f) /\
  is_u16 (f_seq f) /\ is_u32 (f_frag_offset f) /\ is_u16 (f_payload_len f) /\
  f_version f = kVersion.

Lemma triple_fixed_header off : triple 0 (read_fixed_header off) header_ok.
Proof.
  unfold read_fixed_header. rd_step. case_bool; [apply triple_throw|].
  rd_step. destruct (a0 =? kVersion) eqn:Ev; cbn [negb]; [|apply triple_throw]. reflect_bools.
  do 8 rd_step. apply triple_ret. split_and!; done.
Qed.
#[export] Hint Resolve triple_fixed_header : rd.

Lemma triple_frame_body off : triple 19 (frame_body off) frame_ok.
Proof.
  unfold frame_body. eapply (triple_first 19); [by apply (triple_bytes 19)|].
  intros hdr [Hh Hl]. cbv beta.
  eapply triple_step; [by apply (triple_with_sub hdr 0 _ header_ok), triple_fixed_header|].
  intros f Hf. eapply (triple_step 0 _ _ header_ok).
  { case_bool; [|by apply triple_ret]. rd_step. apply triple_ret.
    by destruct Hf as (? & ? & ? & ? & ? & ? & ?). }
  intros g (?&?&?&?&?&[H0 ?]&?). eapply triple_step; [by apply triple_bytes|].
  intros p [Hp Hpl]. apply triple_ret. split_and!; done.
Qed.

Lemma triple_frame_next first : triple 19 (frame_next first) frame_ok.
Proof.
  unfold frame_next. apply (triple_bind 0 19 _ _ (fun _ => True)); [apply triple_align|].
  intros _ _. apply (triple_bind 0 19 _ _ (fun _ => True)); [apply triple_get_remaining|].
  intros rem _. apply (triple_bind 0 19 _ _ (fun o => 0 <= o)); [apply triple_get_offset|].
  intros off _. case_bool; [apply triple_throw|apply triple_frame_body].
Qed.

(** ** Claims *)

(** A frame written by [encode_frame] anywhere in a buffer is read back by
    [FrameReader::next], as first frame or later: every header field, the payload
    clamped to 65535 bytes, FIN/FRAG/COMPRESSED as given, and HAS_CRC exactly when
    a CRC was requested, in which case it validates. The cursor ends behind it. *)
Theorem frame_roundtrip (first : bool) (pre post : bytes) (s : FrameSpec) :
  bytes_ok pre -> bytes_ok post -> spec_ok s ->
  frame_next first (Rdr (encode_frame pre s ++ post) (length pre)) =
    Ok (frame_of_spec (Z.of_nat (length pre)) s,
        Rdr (encode_frame pre s ++ post) (length (encode_frame pre s))) /\
  fin (frame_of_spec 0 s) = negb (Z.land (sp_flags s) kFlagFin =? 0) /\
  frag (frame_of_spec 0 s) = negb (Z.land (sp_flags s) kFlagFrag =? 0) /\
  compressed (frame_of_spec 0 s) = negb (Z.land (sp_flags s) kFlagCompressed =? 0).
Proof.
  intros Hpre Hpost Hs. rewrite encode_frame_app, <- app_assoc.
  unfold fin, frag, compressed. cbn [f_flags frame_of_spec].
  rewrite !resolve_flags_bits by (apply Hs || (simpl; auto)). split_and!; try done.
  apply frame_next_at_sync; [done|]. rewrite !bytes_ok_app. auto using spec_bytes_ok.
Qed.

Definition sample_spec : FrameSpec := MkSpec kData 0x03 7 0xCAFE 9 4 [1; 2; 3] true.

Lemma frame_roundtrip_witness :
  exists f, frame_next true (Rdr (encode_frame [] sample_spec ++ [0xFF]) 0) =
    Ok (f, Rdr (encode_frame [] sample_spec ++ [0xFF]) 24) /\
  f_crc_ok f = true /\ f_payload f = [1; 2; 3].
Proof.
  eexists. split.
  - exact (proj1 (frame_roundtrip true [] [0xFF] sample_spec
      ltac:(by constructor) ltac:(by apply (bool_decide_unpack _); vm_compute)
      ltac:(by apply (bool_decide_unpack _); vm_compute))).
  - by vm_compute.
Defined.

(** Resynchronisation: between frames the reader skips up to 4095 bytes of
    garbage that contain no sync word and then reads the next frame intact, at its
    own offset. *)
Theorem resync_skips_garbage (pre g post : bytes) (s : FrameSpec) :
  bytes_ok pre -> bytes_ok g -> bytes_ok post -> spec_ok s ->
  Z.of_nat (length g) < 4096 ->
  (forall i, (i < length g)%nat -> starts_sync (drop i (g ++ encode_frame [] s)) = false) ->
  frame_next false (Rdr (pre ++ g ++ encode_frame [] s ++ post) (length pre)) =
    Ok (frame_of_spec (Z.of_nat (length (pre ++ g))) s,
        Rdr (pre ++ g ++ encode_frame [] s ++ post) (length (pre ++ g ++ encode_frame [] s))).
Proof.
  intros Hpre Hg Hpost Hs Hlen Hno. rewrite encode_frame_app in *. cbn [app] in *.
  assert (Hno' : forall i, (i < length g)%nat ->
    starts_sync (drop i (g ++ spec_bytes s ++ post)) = false).
  { intros i Hi. specialize (Hno i Hi). rewrite drop_app_le in * by lia.
    destruct (drop i g) as [|b0 [|b1 t]] eqn:E; [|done..].
    apply (f_equal length) in E. rewrite length_drop in E. simpl in E. lia. }
  destruct g as [|b g].
  { rewrite !app_nil_r. cbn [app]. apply frame_next_at_sync; [done|].
    rewrite !bytes_ok_app. auto using spec_bytes_ok. }
  assert (H2 : (2 <= length ((b :: g) ++ spec_bytes s ++ post))%nat).
  { rewrite length_app. simpl. lia. }
  unfold frame_next, rd_bind at 1, align_to_sync, rd_bind at 1, get_remaining.
  rewrite rd_remaining_app. cbn [obind]. rewrite (proj2 (Nat.leb_le 2 _)) by done.
  unfold rd_bind at 1. rewrite on_sync_app by done. cbn [obind].
  pose proof (Hno' 0%nat ltac:(simpl; lia)) as H0. rewrite drop_0 in H0. rewrite H0.
  unfold rd_bind at 1.
  rewrite resync_loop_skips by (try done; pose proof (eq_refl : Z.of_nat kResyncWindow = 4096); lia).
  cbn [obind]. unfold rd_ret at 1. cbn [obind].
  pose proof (frame_next_at_sync true (pre ++ b :: g) s post Hs) as Hn.
  unfold frame_next, rd_bind at 1, align_to_sync, rd_bind at 1, get_remaining in Hn.
  rewrite rd_remaining_app in Hn. cbn [obind] in Hn.
  rewrite (proj2 (Nat.leb_le 2 _)) in Hn by (simpl; lia).
  unfold rd_bind at 1 in Hn. rewrite on_sync_app in Hn by (simpl; lia). cbn [obind] in Hn.
  rewrite spec_bytes_sync in Hn. unfold rd_ret at 1 in Hn. cbn [obind] in Hn.
  rewrite <- !app_assoc in *. apply Hn. rewrite !bytes_ok_app. auto using spec_bytes_ok.
Qed.

Lemma resync_skips_garbage_witness :
  exists f r, frame_next false (Rdr ([] ++ [0x53; 0x00; 0xC7] ++ encode_frame [] sample_spec ++ []) 0)
    = Ok (f, r) /\ f_header_offset f = 3.
Proof.
  do 2 eexists. split.
  - apply (resync_skips_garbage [] [0x53; 0x00; 0xC7] [] sample_spec);
      try (by apply (bool_decide_unpack _); vm_compute); try (by constructor).
    intros [|[|[|]]] Hi; try done. simpl in Hi. lia.
  - by vm_compute.
Defined.
