(* ===== verification/Crc16.v ===== *)
(** * Crc16: the errors that the header checksum finds

    The algebra of [crc16] ([src/streamcodec/frame.cpp]): the register is linear in the
    message, a message followed by its own checksum leaves nothing in it, and which flipped
    bits of the 21 bytes of a header and its checksum it therefore cannot miss. *)

From S2P Require Import Prelude ByteIO Frame.

(** ** Flipping bits *)

(** Bit [i] of a buffer, the most significant bit of a byte first. *)
Definition flip_bit (i : nat) (w : bytes) : bytes :=
  alter (fun b => Z.lxor b (2 ^ (7 - Z.of_nat (i mod 8)))) (i / 8)%nat w.
Definition flip_bits (ps : list nat) (w : bytes) : bytes := foldr flip_bit w ps.

Definition zeros (n : nat) : bytes := replicate n 0.

Lemma bit_mask_range i : 0 <= 7 - Z.of_nat (i mod 8) < 8.
Proof. pose proof (Nat.mod_upper_bound i 8). lia. Qed.

Lemma length_flip_bit i w : length (flip_bit i w) = length w.
Proof. apply length_alter. Qed.

Lemma length_flip_bits ps w : length (flip_bits ps w) = length w.
Proof. induction ps as [|i ps IH]; [done|]. cbn [flip_bits foldr]. by rewrite length_flip_bit. Qed.

Lemma flip_bit_ok i w : bytes_ok w -> bytes_ok (flip_bit i w).
Proof.
  intros Hw. apply Forall_alter; [done|]. intros b _ Hb. pose proof (bit_mask_range i).
  apply (lxor_bound _ _ 8); [lia|exact Hb|]. split; [apply Z.pow_nonneg; lia|]. apply Z.pow_lt_mono_r; lia.
Qed.

Lemma flip_bits_ok ps w : bytes_ok w -> bytes_ok (flip_bits ps w).
Proof. intros Hw. induction ps as [|i ps IH]; [done|]. by apply flip_bit_ok. Qed.

(** A flipped bit is a flipped bit of every window that covers it. *)
Lemma drop_alter_add {A} (g : A -> A) n : forall k (l : list A), drop n (alter g (n + k)%nat l) = alter g k (drop n l).
Proof. induction n as [|n IH]; intros k [|x l]; try done. cbn. apply IH. Qed.

Lemma take_alter_comm {A} (g : A -> A) k : forall n (l : list A), take n (alter g k l) = alter g k (take n l).
Proof.
  induction k as [|k IH]; intros [|n] [|x l]; try done. cbn. f_equal. apply IH.
Qed.

Lemma flip_bits_window n o ps w :
  take n (drop o (flip_bits (map (Nat.add (8 * o)) ps) w)) = flip_bits ps (take n (drop o w)).
Proof.
  induction ps as [|i ps IH]; [done|]. cbn [map flip_bits foldr]. fold (flip_bits (map (Nat.add (8 * o)) ps) w).
  fold (flip_bits ps (take n (drop o w))). rewrite <- IH. unfold flip_bit. rewrite (Nat.mul_comm 8 o), Nat.add_comm, Nat.Div0.mod_add, Nat.div_add, Nat.add_comm by done.
  by rewrite drop_alter_add, take_alter_comm.
Qed.

(** ** The register is linear *)

Definition crc16_upd (s : Z) (l : bytes) : Z := foldl crc16_byte s l.

Lemma crc16_upd_app s l k : crc16_upd s (l ++ k) = crc16_upd (crc16_upd s l) k.
Proof. apply foldl_app. Qed.

Lemma u16_lxor a b : u16 (Z.lxor a b) = Z.lxor (u16 a) (u16 b).
Proof.
  unfold u16. rewrite <- !Z.land_ones by lia. apply Z.bits_inj'. intros n _.
  rewrite !Z.lxor_spec, !Z.land_spec, Z.lxor_spec. btauto.
Qed.

Lemma crc16_bit_feedback c :
  crc16_bit c = u16 (Z.lxor (Z.shiftl c 1) (if Z.testbit c 15 then 0x1021 else 0)).
Proof.
  unfold crc16_bit. assert (E : (Z.land c 0x8000 =? 0) = negb (Z.testbit c 15)).
  { change 0x8000 with (2 ^ 15). destruct (Z.testbit c 15) eqn:Et.
    - apply Z.eqb_neq. intros H. apply (f_equal (fun z => Z.testbit z 15)) in H.
      rewrite Z.land_spec, Et, Z.pow2_bits_true in H by lia. done.
    - apply Z.eqb_eq, Z.bits_inj'. intros n Hn. rewrite Z.land_spec, Z.bits_0, Z.pow2_bits_eqb by lia.
      destruct (Z.eqb_spec 15 n) as [<-|]; [by rewrite Et|apply andb_false_r]. }
  rewrite E, negb_involutive. destruct (Z.testbit c 15); [done|]. by rewrite Z.lxor_0_r.
Qed.

Lemma crc16_bit_lxor a b : crc16_bit (Z.lxor a b) = Z.lxor (crc16_bit a) (crc16_bit b).
Proof.
  rewrite !crc16_bit_feedback, <- u16_lxor, Z.shiftl_lxor, Z.lxor_spec. f_equal.
  destruct (Z.testbit a 15), (Z.testbit b 15); cbn [xorb]; apply Z.bits_inj'; intros n _;
    rewrite !Z.lxor_spec, ?Z.bits_0; btauto.
Qed.

Lemma crc16_iter_lxor n a b :
  Nat.iter n crc16_bit (Z.lxor a b) = Z.lxor (Nat.iter n crc16_bit a) (Nat.iter n crc16_bit b).
Proof. induction n as [|n IH]; [done|]. simpl. by rewrite IH, crc16_bit_lxor. Qed.

Lemma crc16_byte_lxor a b d e : crc16_byte (Z.lxor a b) (Z.lxor d e) = Z.lxor (crc16_byte a d) (crc16_byte b e).
Proof.
  unfold crc16_byte. rewrite Z.shiftl_lxor, <- crc16_iter_lxor, <- u16_lxor. do 2 f_equal.
  apply Z.bits_inj'. intros n _. rewrite !Z.lxor_spec. btauto.
Qed.

Lemma crc16_upd_lxor l : forall m s t, length l = length m ->
  crc16_upd (Z.lxor s t) (zip_with Z.lxor l m) = Z.lxor (crc16_upd s l) (crc16_upd t m).
Proof.
  induction l as [|d l IH]; intros [|e m] s t Hl; try done. injection Hl as Hl.
  cbn [zip_with crc16_upd foldl]. rewrite crc16_byte_lxor. by apply IH.
Qed.

Lemma lxor_zeros l : zip_with Z.lxor l (zeros (length l)) = l.
Proof. induction l as [|b l IH]; [done|]. cbn. rewrite Z.lxor_0_r. f_equal. apply IH. Qed.

Lemma flip_bit_lxor i w : flip_bit i w = zip_with Z.lxor w (flip_bit i (zeros (length w))).
Proof.
  unfold flip_bit. generalize (i / 8)%nat. induction w as [|b w IH]; intros [|k]; try done.
  - cbn. by rewrite lxor_zeros.
  - cbn. rewrite Z.lxor_0_r. f_equal. apply IH.
Qed.

(** The change of the register when bit [i] of [n] bytes is flipped, and when a list
    of bits is. *)
Definition syndrome (n i : nat) : Z := crc16_upd 0 (flip_bit i (zeros n)).
Definition lxor_all (l : list Z) : Z := foldr Z.lxor 0 l.

Lemma crc16_upd_flips s ps w :
  crc16_upd s (flip_bits ps w) = Z.lxor (lxor_all (map (syndrome (length w)) ps)) (crc16_upd s w).
Proof.
  induction ps as [|i ps IH]; [done|]. cbn [flip_bits foldr map lxor_all]. fold (flip_bits ps w).
  rewrite flip_bit_lxor, <- (Z.lxor_0_r s) at 1. rewrite crc16_upd_lxor, IH by by rewrite length_flip_bit; unfold zeros; rewrite length_replicate.
  rewrite length_flip_bits. fold (syndrome (length w) i). fold (lxor_all (map (syndrome (length w)) ps)).
  by rewrite (Z.lxor_comm _ (syndrome _ _)), Z.lxor_assoc.
Qed.

(** ** Which damage it finds *)

(** Positions inside a header and its checksum: one to three bits, any odd number of
    bits, or bits no more than sixteen apart. *)
Definition kHeaderBits : nat := 8 * 21.
Definition noticed (ps : list nat) : Prop :=
  NoDup ps /\ ps <> [] /\ Forall (fun i => (i < kHeaderBits)%nat) ps /\
  ((length ps <= 3)%nat \/ Nat.odd (length ps) = true \/
   exists k, Forall (fun i => (k <= i < k + 16)%nat) ps).

Definition syndromes : list Z := map (syndrome 21) (seq 0 kHeaderBits).

Lemma syndrome_forall (P : nat -> Z -> bool) i :
  forallb (fun i => P i (syndrome 21 i)) (seq 0 kHeaderBits) = true -> (i < kHeaderBits)%nat -> P i (syndrome 21 i) = true.
Proof.
  intros H Hi. rewrite forallb_forall in H. apply H, in_seq. lia.
Qed.

(** The parity of the low sixteen bits. *)
Definition parity (c : Z) : bool := foldr xorb false (map (Z.testbit c) (seqZ 0 16)).

Lemma parity_lxor a b : parity (Z.lxor a b) = xorb (parity a) (parity b).
Proof.
  unfold parity. induction (seqZ 0 16) as [|n l IH]; [done|]. cbn [map foldr].
  rewrite IH, Z.lxor_spec. btauto.
Qed.

Lemma syndrome_parity i : (i < kHeaderBits)%nat -> parity (syndrome 21 i) = true.
Proof. apply (syndrome_forall (fun _ c => parity c)). by vm_compute. Qed.

Lemma syndromes_parity ps : Forall (fun i => (i < kHeaderBits)%nat) ps ->
  parity (lxor_all (map (syndrome 21) ps)) = Nat.odd (length ps).
Proof.
  induction 1 as [|i ps Hi _ IH]; [done|]. cbn [map lxor_all foldr length].
  fold (lxor_all (map (syndrome 21) ps)). rewrite parity_lxor, IH, syndrome_parity by done.
  by rewrite Nat.odd_succ, <- Nat.negb_odd.
Qed.

Lemma syndromes_distinct i j : (i < kHeaderBits)%nat -> (j < kHeaderBits)%nat ->
  syndrome 21 i = syndrome 21 j -> i = j.
Proof.
  intros Hi Hj H. assert (HN : NoDup syndromes) by (apply (bool_decide_unpack _); by vm_compute).
  assert (HL : forall k, (k < kHeaderBits)%nat -> syndromes !! k = Some (syndrome 21 k)).
  { intros k Hk. unfold syndromes. change (map ?f ?l) with (f <$> l).
    by rewrite list_lookup_fmap, lookup_seq_lt. }
  eapply (NoDup_lookup _ _ _ _ HN); [by apply HL|]. rewrite H. by apply HL.
Qed.

(** A nonzero register stays so. *)
Lemma crc16_bit_nonzero c : is_u16 c -> crc16_bit c = 0 -> c = 0.
Proof.
  intros Hc H. rewrite crc16_bit_feedback in H. destruct (Z.testbit c 15) eqn:E.
  - exfalso. apply (f_equal (fun z => Z.testbit z 0)) in H. unfold u16 in H.
    rewrite Z.mod_pow2_bits_low, Z.lxor_spec, Z.shiftl_spec_low in H by lia. done.
  - rewrite Z.lxor_0_r, Z.shiftl_mul_pow2 in H by lia. unfold is_u16 in Hc.
    assert (c < 2 ^ 15).
    { apply Z.nle_gt. intros Hle. apply Z.testbit_false in E; [|lia].
      rewrite <- (Z.div_unique c (2 ^ 15) 1 (c - 2 ^ 15)) in E by lia. done. }
    unfold u16 in H. rewrite Z.mod_small in H; lia.
Qed.

Lemma crc16_iter_nonzero n c : is_u16 c -> Nat.iter n crc16_bit c = 0 -> c = 0.
Proof.
  revert c. induction n as [|n IH]; intros c Hc H; [done|]. rewrite Nat.iter_succ_r in H.
  apply IH in H; [|apply crc16_bit_width]. by apply crc16_bit_nonzero.
Qed.

(** Bit [i] of the 21 bytes is the lowest bit of the register shifted on [183 - i]
    times, so that bits close together are bits of one register. *)
Lemma syndrome_window k i : (k <= 152)%nat -> (k <= i < k + 16)%nat ->
  syndrome 21 i = Nat.iter (168 - k) crc16_bit (2 ^ Z.of_nat (k + 15 - i)).
Proof.
  intros Hk Hi. assert (E : syndrome 21 i = Nat.iter (183 - i) crc16_bit 1).
  { apply Z.eqb_eq, (syndrome_forall (fun i c => c =? Nat.iter (183 - i) crc16_bit 1)); [by vm_compute|].
    unfold kHeaderBits. lia. }
  rewrite E. replace (183 - i)%nat with (168 - k + (k + 15 - i))%nat by lia. rewrite Nat.iter_add. f_equal.
  assert (Hj : (k + 15 - i < 16)%nat) by lia. revert Hj. generalize (k + 15 - i)%nat as j. intros j Hj.
  do 16 (destruct j as [|j]; [by vm_compute|]). lia.
Qed.

Lemma lxor_all_iter n l : lxor_all (map (Nat.iter n crc16_bit) l) = Nat.iter n crc16_bit (lxor_all l).
Proof.
  induction l as [|c l IH]; cbn [map lxor_all foldr].
  - induction n as [|n IH]; [done|]. simpl. by rewrite <- IH.
  - fold (lxor_all (map (Nat.iter n crc16_bit) l)) (lxor_all l). by rewrite IH, crc16_iter_lxor.
Qed.

(** Distinct powers of two below [2 ^ 16]. *)
Lemma lxor_powers l : Forall (fun j => (j < 16)%nat) l -> NoDup l -> l <> [] ->
  is_u16 (lxor_all (map (fun j => 2 ^ Z.of_nat j) l)) /\ lxor_all (map (fun j => 2 ^ Z.of_nat j) l) <> 0.
Proof.
  assert (Hbit : forall n l, NoDup l -> Z.testbit (lxor_all (map (fun j => 2 ^ Z.of_nat j) l)) (Z.of_nat n) = bool_decide (n ∈ l)).
  { intros n. induction 1 as [|j k Hj _ IH]; [by rewrite Z.bits_0|]. cbn [map lxor_all foldr].
    fold (lxor_all (map (fun j => 2 ^ Z.of_nat j) k)). rewrite Z.lxor_spec, IH, Z.pow2_bits_eqb by lia.
    destruct (Z.eqb_spec (Z.of_nat j) (Z.of_nat n)) as [E|E].
    - apply Nat2Z.inj in E as ->. rewrite (bool_decide_eq_false_2 _ Hj), bool_decide_eq_true_2; [done|by left].
    - apply bool_decide_ext. rewrite elem_of_cons. split; [by right|]. intros [->|]; [lia|done]. }
  intros Hl HN Hne. split.
  - clear HN Hne. induction Hl as [|j k Hj _ IH]; [unfold is_u16; cbn; lia|]. apply (lxor_bound _ _ 16); [lia| |exact IH].
    split; [apply Z.pow_nonneg; lia|]. apply Z.pow_lt_mono_r; lia.
  - destruct l as [|j l]; [done|]. intros H0. specialize (Hbit j (j :: l) HN). rewrite H0, Z.bits_0 in Hbit.
    symmetry in Hbit. apply bool_decide_eq_false in Hbit. apply Hbit. by left.
Qed.

Lemma window_noticed k ps : NoDup ps -> ps <> [] -> Forall (fun i => (i < kHeaderBits)%nat) ps ->
  Forall (fun i => (k <= i < k + 16)%nat) ps -> lxor_all (map (syndrome 21) ps) <> 0.
Proof.
  intros HN Hne Hb Hw. set (h := (k `min` 152)%nat).
  assert (Hw' : Forall (fun i => (h <= i < h + 16)%nat) ps).
  { rewrite !Forall_forall in *. intros i Hi. specialize (Hb i Hi). specialize (Hw i Hi). unfold kHeaderBits in Hb. lia. }
  assert (E : map (syndrome 21) ps = map (Nat.iter (168 - h) crc16_bit) (map (fun j => 2 ^ Z.of_nat j) (map (fun i => (h + 15 - i)%nat) ps))).
  { rewrite !map_map. apply map_ext_in. intros i Hi. apply syndrome_window; [lia|].
    rewrite Forall_forall in Hw'. apply Hw'. by apply list_elem_of_In. }
  rewrite E, lxor_all_iter. destruct (lxor_powers (map (fun i => (h + 15 - i)%nat) ps)) as [H16 H0].
  - apply Forall_map. eapply Forall_impl; [exact Hw'|]. cbn. lia.
  - apply NoDup_fmap_2_strong; [|done]. intros i j Hi Hj.
    rewrite Forall_forall in Hw'. pose proof (Hw' i Hi). pose proof (Hw' j Hj). lia.
  - by destruct ps.
  - intros Hz. by apply H0, (crc16_iter_nonzero (168 - h)).
Qed.

Lemma noticed_syndrome ps : noticed ps -> lxor_all (map (syndrome 21) ps) <> 0.
Proof.
  intros (HN & Hne & Hb & Hps) H. pose proof (syndromes_parity ps Hb) as Hpar. rewrite H in Hpar.
  assert (Hev : Nat.odd (length ps) = false) by by rewrite <- Hpar.
  destruct Hps as [H3|[Ho|[k Hw]]]; [|congruence|by apply (window_noticed k ps)].
  destruct ps as [|i [|j [|? [|]]]]; cbn [length] in *; try done; [|lia].
  apply NoDup_cons in HN as [Hij _]. apply Hij. cbn in H. rewrite Z.lxor_0_r in H. apply Z.lxor_eq in H.
  rewrite !Forall_cons in Hb. destruct Hb as (Hi & Hj & _). rewrite (syndromes_distinct i j Hi Hj H). by left.
Qed.

(** ** Codewords *)

(** A message followed by its own CRC-16, high byte first, leaves nothing in the register. *)
Lemma crc16_own l hi lo : is_byte hi -> is_byte lo -> crc16 l = le_val [lo; hi] -> crc16 (l ++ [hi; lo]) = 0.
Proof.
  intros Hhi Hlo H. change (crc16_upd 0xFFFF (l ++ [hi; lo]) = 0). rewrite crc16_upd_app.
  change (crc16_upd 0xFFFF l) with (crc16 l). rewrite H, le_val_cons by first [done | by apply Forall_singleton].
  cbn [le_val crc16_upd foldl]. rewrite Z.add_0_r. unfold crc16_byte at 2.
  rewrite Z.lxor_assoc, Z.lxor_nilpotent, Z.lxor_0_r. assert (E : Nat.iter 8 crc16_bit (u16 lo) = Z.shiftl lo 8).
  { apply Z.eqb_eq. apply (byte_forallb (fun b => Nat.iter 8 crc16_bit (u16 b) =? Z.shiftl b 8)); [by vm_compute|done]. }
  rewrite E. unfold crc16_byte. by rewrite Z.lxor_nilpotent.
Qed.
