(* ===== verification/Locality.v ===== *)
(** * Locality: which bytes a read depends on

    The readers of [common/byte_reader.cpp] and of [streamcodec/frame_reader.cpp] see a
    buffer only through the bytes between the cursor and the place they leave it at (the
    sync test of [align_to_sync] looks two bytes further) and through its length. What is
    read therefore does not change when other bytes do. *)

From S2P Require Import Prelude Status ByteIO Frame.

(** Two buffers of one length with the same bytes from [pos] up to [hi]. *)
Definition twins (pos hi : nat) (data data' : bytes) : Prop :=
  bytes_ok data /\ bytes_ok data' /\ length data' = length data /\ (pos <= length data)%nat /\
  forall i, (pos <= i < hi)%nat -> data' !! i = data !! i.

(** [m] looks at most [k] bytes past the place where it leaves the cursor. *)
Definition local_rd {A} (k : nat) (m : Rd A) : Prop :=
  forall hi data data' pos, twins pos hi data data' ->
  match m (Rdr data pos) with
  | Ok (a, r1) =>
      rd_data r1 = data /\ (pos <= rd_pos r1 <= length data)%nat /\
      ((rd_pos r1 + k <= hi)%nat \/ hi = length data -> m (Rdr data' pos) = Ok (a, Rdr data' (rd_pos r1)))
  | Throw e => hi = length data -> m (Rdr data' pos) = Throw e
  | _ => True
  end.

Lemma twins_ok pos hi data data' : twins pos hi data data' -> rd_ok (Rdr data pos) /\ rd_ok (Rdr data' pos).
Proof. intros (H1 & H2 & Hl & Hp & _). split; split; cbn; try done; lia. Qed.

Lemma twins_later pos pos' hi data data' :
  twins pos hi data data' -> (pos <= pos' <= length data)%nat -> twins pos' hi data data'.
Proof. intros (H1 & H2 & Hl & Hp & H) ?. split_and!; try done; [lia|]. intros i Hi. apply H. lia. Qed.

Lemma twins_less pos hi hi' data data' : twins pos hi data data' -> (hi' <= hi)%nat -> twins pos hi' data data'.
Proof. intros (H1 & H2 & Hl & Hp & H) ?. split_and!; try done. intros i Hi. apply H. lia. Qed.

Lemma twins_window pos hi data data' k : twins pos hi data data' ->
  (pos + k <= hi)%nat \/ hi = length data -> take k (drop pos data') = take k (drop pos data).
Proof.
  intros (_ & _ & Hl & _ & H) Hk. apply list_eq. intros i. destruct (Nat.lt_ge_cases i k) as [Hi|Hi].
  - rewrite !lookup_take_lt, !lookup_drop by done. destruct (Nat.lt_ge_cases (pos + i) (length data)).
    + apply H. lia.
    + rewrite !lookup_ge_None_2 by lia. done.
  - rewrite !lookup_take_ge by done. done.
Qed.

(** ** The primitive readers *)

Lemma local_ret {A} k (a : A) : local_rd k (rd_ret a).
Proof. intros hi data data' pos (_ & _ & _ & ? & _). cbn. split_and!; done || lia. Qed.

Lemma local_throw {A} k e : local_rd k (rd_throw (A:=A) e).
Proof. intros hi data data' pos _ _. done. Qed.

Lemma local_offset k : local_rd k get_offset.
Proof. intros hi data data' pos (_ & _ & _ & ? & _). cbn. split_and!; done || lia. Qed.

Lemma local_remaining k : local_rd k get_remaining.
Proof.
  intros hi data data' pos (_ & _ & E & ? & _). unfold get_remaining, rd_remaining, rd_size. cbn.
  rewrite E. split_and!; done || lia.
Qed.

Lemma local_weaken {A} j k (m : Rd A) : local_rd j m -> (j <= k)%nat -> local_rd k m.
Proof.
  intros Hm Hk hi data data' pos Ht. specialize (Hm hi data data' pos Ht).
  destruct (m (Rdr data pos)) as [[a r1]|e| |]; try done. destruct Hm as (? & ? & H).
  split_and!; [done|lia|lia|]. intros Hhi. apply H. lia.
Qed.

Lemma local_fixed {A} n (m : Rd A) f : fixed_read n m f -> local_rd 0 m.
Proof.
  intros Hm hi data data' pos Ht. destruct (twins_ok _ _ _ _ Ht) as [H1 H2]. pose proof Ht as (_ & _ & El & Hp & _).
  rewrite (Hm _ H1), (Hm _ H2). unfold rd_left, window, rd_offset. cbn [rd_data rd_pos]. rewrite El.
  destruct (Nat.ltb_spec (length data - pos) n); [done|]. cbn [rd_data rd_pos]. split_and!; [done|lia|lia|].
  intros Hhi. rewrite (twins_window pos hi data data' n Ht); [done|lia].
Qed.

Lemma local_bytes n : local_rd 0 (read_bytes n).
Proof.
  destruct (Z.le_gt_cases 0 n) as [Hn|Hn]; [by eapply local_fixed, fixed_bytes|].
  intros hi data data' pos (_ & _ & El & Hp & _). unfold read_bytes, rd_bind, require, rd_remaining, rd_size, copy_range, rd_advance.
  cbn [rd_data rd_pos]. rewrite El, (proj2 (Z.ltb_ge _ n)) by (case_bool; lia). cbn [obind rd_data rd_pos].
  replace (Z.to_nat n) with 0%nat by lia. rewrite El, Nat.add_0_r, (proj2 (Nat.leb_le _ _)) by lia. cbn.
  split_and!; done || lia.
Qed.

Lemma local_skip n : 0 <= n -> local_rd 0 (skip n).
Proof.
  intros Hn hi data data' pos (_ & _ & El & Hp & _). unfold skip, rd_bind, require, rd_remaining, rd_size, rd_advance, rd_offset.
  cbn [rd_data rd_pos]. rewrite El, (proj2 (Nat.leb_le _ _)) by lia.
  destruct (Z.ltb_spec (Z.of_nat (length data - pos)) n); [done|]. cbn. split_and!; done || lia.
Qed.

(** A reader of its own over a copied span does not look at the buffer at all. *)
Lemma local_sub {A} k hdr (m : Rd A) : local_rd k (with_sub hdr m).
Proof.
  intros hi data data' pos (_ & _ & _ & ? & _). unfold with_sub. by destruct (m (mk_reader hdr)) as [[a r1]|e| |].
Qed.

(** ** Composition *)

Lemma local_bind {A B} k (m : Rd A) (g : A -> Rd B) : local_rd k m -> (forall a, local_rd k (g a)) -> local_rd k (rd_bind m g).
Proof.
  intros Hm Hg hi data data' pos Ht. specialize (Hm hi data data' pos Ht). unfold rd_bind.
  destruct (m (Rdr data pos)) as [[a [d p1]]|e| |]; try done; [|intros Hhi; by rewrite (Hm Hhi)].
  destruct Hm as (E & Hp & Hm). cbn [rd_data rd_pos obind] in *. subst d.
  specialize (Hg a hi data data' p1 (twins_later _ _ _ _ _ Ht Hp)).
  destruct (g a (Rdr data p1)) as [[b r2]|e| |]; try done.
  - destruct Hg as (E & Hp2 & Hg). split_and!; [done|lia|lia|]. intros Hhi. rewrite Hm by lia. by apply Hg.
  - intros Hhi. rewrite Hm by lia. by apply Hg.
Qed.

(** What looks ahead does no harm when as many bytes are read afterwards. *)
Lemma local_bind_ahead {A B} k n (m : Rd A) (g : A -> Rd B) Q :
  local_rd k m -> (forall a, local_rd 0 (g a)) -> (forall a, triple n (g a) Q) -> (k <= n)%nat -> local_rd 0 (rd_bind m g).
Proof.
  intros Hm Hg Hn Hk hi data data' pos Ht. specialize (Hm hi data data' pos Ht). unfold rd_bind.
  destruct (m (Rdr data pos)) as [[a [d p1]]|e| |]; try done; [|intros Hhi; by rewrite (Hm Hhi)].
  destruct Hm as (E & Hp & Hm). cbn [rd_data rd_pos obind] in *. subst d. pose proof (twins_later _ _ _ _ _ Ht Hp) as Ht1.
  specialize (Hg a hi data data' p1 Ht1). specialize (Hn a (Rdr data p1) (proj1 (twins_ok _ _ _ _ Ht1))).
  destruct (g a (Rdr data p1)) as [[b r2]|e| |]; try done.
  - destruct Hg as (E & Hp2 & Hg), Hn as [(_ & _ & Hadv) _]. cbn [rd_pos] in Hadv. split_and!; [done|lia|lia|].
    intros Hhi. rewrite Hm by lia. apply Hg. lia.
  - intros Hhi. rewrite Hm by lia. by apply Hg.
Qed.

(** ** Reading one frame *)

Lemma local_on_sync : local_rd 2 on_sync.
Proof.
  intros hi data data' pos Ht. pose proof Ht as (_ & _ & El & Hp & H).
  assert (Hat : forall i, (i < 2)%nat -> (pos + 2 <= hi)%nat \/ hi = length data -> data' !! (pos + i)%nat = data !! (pos + i)%nat).
  { intros i Hi Hhi. destruct (Nat.lt_ge_cases (pos + i) (length data)); [apply H; lia|].
    by rewrite !lookup_ge_None_2 by lia. }
  unfold on_sync, rd_bind, rd_at, at_idx. cbn [rd_data rd_pos].
  destruct (data !! (pos + 0)%nat) as [b0|] eqn:E0; [|done]. cbn [obind].
  destruct (b0 =? Z.land (Z.shiftr kSync 8) 0xFF) eqn:Eb; cbn [obind rd_data rd_pos].
  - destruct (data !! (pos + 1)%nat) as [b1|] eqn:E1; [|done]. cbn [obind rd_ret rd_data rd_pos].
    split_and!; [done|lia|lia|]. intros Hhi. rewrite (Hat 0%nat), E0 by lia. cbn [obind]. rewrite Eb. cbn [rd_data rd_pos].
    rewrite (Hat 1%nat), E1 by lia. done.
  - cbn [rd_ret rd_data rd_pos]. split_and!; [done|lia|lia|]. intros Hhi. rewrite (Hat 0%nat), E0 by lia. cbn [obind].
    by rewrite Eb.
Qed.

#[local] Hint Resolve local_ret local_throw local_offset local_remaining local_bytes local_on_sync local_sub : local.

Lemma local_resync n : local_rd 2 (resync_loop n).
Proof.
  induction n as [|n IH]; cbn [resync_loop]; (apply local_bind; [auto with local|]); intros rem; [auto with local|].
  case_bool; [|auto with local]. apply local_bind; [auto with local|]. intros [|]; [auto with local|].
  apply local_bind; [|done]. eapply local_weaken; [by apply local_skip|lia].
Qed.

Lemma local_align first : local_rd 2 (align_to_sync first).
Proof.
  unfold align_to_sync. apply local_bind; [auto with local|]. intros rem. apply local_bind.
  { case_bool; auto with local. }
  intros [|]; [auto with local|]. destruct first.
  { apply local_bind; auto with local. }
  apply local_bind; [apply local_resync|]. intros [|]; [auto with local|].
  apply local_bind; [auto with local|]. intros rem'. case_bool; [eapply local_weaken; [apply local_skip|]; lia|].
  apply local_bind; auto with local.
Qed.

Lemma local_frame_body off : local_rd 0 (frame_body off).
Proof.
  unfold frame_body. apply local_bind; [apply local_bytes|]. intros hdr. apply local_bind; [auto with local|].
  intros f. apply local_bind.
  { case_bool; [|auto with local]. apply local_bind; [eapply local_fixed, fixed_u16be|auto with local]. }
  intros g. apply local_bind; auto with local.
Qed.

Lemma local_frame_next first : local_rd 0 (frame_next first).
Proof.
  unfold frame_next. apply (local_bind_ahead 2 19 _ _ frame_ok); [apply local_align|..|lia].
  - intros _. apply local_bind; [auto with local|]. intros rem. apply local_bind; [auto with local|]. intros off.
    case_bool; [auto with local|apply local_frame_body].
  - intros _. apply (triple_bind 0 19 _ _ (fun _ => True)); [apply triple_get_remaining|].
    intros rem _. apply (triple_bind 0 19 _ _ (fun o => 0 <= o)); [apply triple_get_offset|].
    intros off _. case_bool; [apply triple_throw|apply triple_frame_body].
Qed.
