(* ===== verification/StreamState.v ===== *)
(** * StreamState: rolling per-stream sequence tracking

    [src/streamcodec/stream_state.cpp]: the table of rolling counters and the
    classification of every frame's [seq] as in order, duplicate or gap. *)

From S2P Require Import Prelude OrdMap.

Record StreamStats := MkStats {
  st_stream_id : Z;
  st_frames : Z;
  st_gaps : Z;
  st_duplicates : Z;
  st_resets : Z;
}.

Record Rolling := MkRolling { ro_stats : StreamStats; ro_last_seq : Z; ro_seeded : bool }.

#[export] Instance StreamStats_eq_dec : EqDecision StreamStats.
Proof. solve_decision. Defined.
#[export] Instance Rolling_eq_dec : EqDecision Rolling.
Proof. solve_decision. Defined.

Abbreviation StreamTable := (gmap Z Rolling).

Definition fresh_rolling : Rolling := MkRolling (MkStats 0 0 0 0 0) 0 false.

Definition inc (n : Z) : Z := u64 (n + 1).

(** [slot]: find or create the entry and stamp its id. *)
Definition slot (t : StreamTable) (stream_id : Z) : Rolling :=
  let s := default fresh_rolling (t !! stream_id) in
  let st := ro_stats s in
  MkRolling (MkStats stream_id (st_frames st) (st_gaps st) (st_duplicates st) (st_resets st))
    (ro_last_seq s) (ro_seeded s).

(** The effect of [observe] on one slot. *)
Definition observe_rolling (s : Rolling) (seq : Z) : Rolling :=
  let st := ro_stats s in
  let st := MkStats (st_stream_id st) (inc (st_frames st)) (st_gaps st) (st_duplicates st)
              (st_resets st) in
  if negb (ro_seeded s) then MkRolling st seq true
  else if seq =? ro_last_seq s then
    MkRolling (MkStats (st_stream_id st) (st_frames st) (st_gaps st) (inc (st_duplicates st))
                 (st_resets st)) (ro_last_seq s) (ro_seeded s)
  else
    let expected := u16 (ro_last_seq s + 1) in
    let st := if negb (seq =? expected)
              then MkStats (st_stream_id st) (st_frames st) (inc (st_gaps st))
                     (st_duplicates st) (st_resets st)
              else st in
    MkRolling st seq (ro_seeded s).

Definition observe (t : StreamTable) (stream_id seq : Z) : StreamTable :=
  <[stream_id := observe_rolling (slot t stream_id) seq]> t.

Definition note_reset (t : StreamTable) (stream_id : Z) : StreamTable :=
  let s := slot t stream_id in
  let st := ro_stats s in
  <[stream_id := MkRolling (MkStats (st_stream_id st) (st_frames st) (st_gaps st)
                              (st_duplicates st) (inc (st_resets st))) 0 false]> t.

Definition snapshot (t : StreamTable) : list StreamStats :=
  map (fun kv => ro_stats kv.2) (entries t).

(** ** Histories *)

Inductive stream_event := Observe (stream_id seq : Z) | Reset (stream_id : Z).

Definition event_stream (e : stream_event) : Z :=
  match e with Observe id _ => id | Reset id => id end.

Definition apply_event (t : StreamTable) (e : stream_event) : StreamTable :=
  match e with Observe id seq => observe t id seq | Reset id => note_reset t id end.

Definition history_table (evs : list stream_event) : StreamTable := foldl apply_event ∅ evs.

(** The sequence numbers a stream saw one right after the other, with no reset in
    between: [prev] is the last one, if any. *)
Fixpoint seq_pairs (id : Z) (prev : option Z) (evs : list stream_event) : list (Z * Z) :=
  match evs with
  | [] => []
  | Observe id' s :: evs' =>
      if id' =? id
      then match prev with Some p => [(p, s)] | None => [] end ++ seq_pairs id (Some s) evs'
      else seq_pairs id prev evs'
  | Reset id' :: evs' =>
      if id' =? id then seq_pairs id None evs' else seq_pairs id prev evs'
  end.

Definition is_observe (id : Z) (e : stream_event) : bool :=
  match e with Observe id' _ => id' =? id | Reset _ => false end.
Definition is_reset (id : Z) (e : stream_event) : bool :=
  match e with Observe _ _ => false | Reset id' => id' =? id end.

Definition is_dup (p : Z * Z) : bool := p.2 =? p.1.
Definition is_gap (p : Z * Z) : bool := negb (p.2 =? p.1) && negb (p.2 =? u16 (p.1 + 1)).

Definition count {A} (f : A -> bool) (l : list A) : Z := Z.of_nat (length (List.filter f l)).

Lemma count_cons {A} (f : A -> bool) x l : count f (x :: l) = (if f x then 1 else 0) + count f l.
Proof. unfold count. simpl. destruct (f x); simpl length; lia. Qed.

Lemma u64_inc_add n k : u64 (inc n + k) = u64 (n + (1 + k)).
Proof. unfold inc, u64. rewrite Z.add_mod_idemp_l by lia. f_equal. lia. Qed.

(** What a run of events adds to the counters of stream [id], from [s] to [s']. *)
Definition tally (id : Z) (s : Rolling) (evs : list stream_event) (s' : Rolling) : Prop :=
  let st := ro_stats s in
  u64 (st_frames (ro_stats s')) = u64 (st_frames st + count (is_observe id) evs) /\
  u64 (st_resets (ro_stats s')) = u64 (st_resets st + count (is_reset id) evs) /\
  let ps := seq_pairs id (if ro_seeded s then Some (ro_last_seq s) else None) evs in
  u64 (st_duplicates (ro_stats s')) = u64 (st_duplicates st + count is_dup ps) /\
  u64 (st_gaps (ro_stats s')) = u64 (st_gaps st + count is_gap ps).

Lemma tally_observe id t q evs s' :
  tally id (slot (observe t id q) id) evs s' -> tally id (slot t id) (Observe id q :: evs) s'.
Proof.
  intros (Hf & Hr & Hd & Hg). unfold tally. rewrite Hf, Hr, Hd, Hg. clear Hf Hr Hd Hg. set (s := slot t id).
  assert (Es : slot (observe t id q) id = observe_rolling s q).
  { unfold observe, slot at 1. rewrite lookup_insert_eq. subst s. simpl. unfold observe_rolling. repeat case_bool; done. }
  rewrite Es, !count_cons. cbn [seq_pairs is_observe is_reset]. rewrite Z.eqb_refl. set (st := ro_stats s).
  unfold observe_rolling. fold st. destruct (ro_seeded s); cbn [negb].
  - cbn [app]. rewrite !count_cons. unfold is_dup at 2, is_gap at 2. cbn [fst snd].
    destruct (q =? ro_last_seq s) eqn:Eq; cbn [negb andb ro_stats ro_seeded ro_last_seq
      st_frames st_resets st_duplicates st_gaps].
    + reflect_bools. subst q. rewrite !u64_inc_add. split_and!; f_equal; lia.
    + destruct (q =? u16 (ro_last_seq s + 1)); cbn [negb ro_stats st_frames st_resets
        st_duplicates st_gaps ro_seeded ro_last_seq]; rewrite ?u64_inc_add; split_and!; f_equal; lia.
  - cbn [app ro_stats st_frames st_resets st_duplicates st_gaps ro_seeded ro_last_seq].
    rewrite u64_inc_add. split_and!; f_equal; lia.
Qed.

Lemma tally_reset id t evs s' : tally id (slot (note_reset t id) id) evs s' -> tally id (slot t id) (Reset id :: evs) s'.
Proof.
  intros (Hf & Hr & Hd & Hg). unfold tally. rewrite Hf, Hr, Hd, Hg. clear Hf Hr Hd Hg. set (st := ro_stats (slot t id)).
  assert (Es : slot (note_reset t id) id =
    MkRolling (MkStats id (st_frames st) (st_gaps st) (st_duplicates st) (inc (st_resets st))) 0 false).
  { unfold note_reset, slot at 1. rewrite lookup_insert_eq. done. }
  rewrite Es, !count_cons. cbn [seq_pairs is_observe is_reset ro_stats st_frames st_resets
    st_duplicates st_gaps ro_seeded]. rewrite Z.eqb_refl. rewrite u64_inc_add. split_and!; f_equal; lia.
Qed.

(** Events of other streams do not count. *)
Lemma tally_skip id s e evs s' : event_stream e <> id -> tally id s evs s' -> tally id s (e :: evs) s'.
Proof.
  intros He H. unfold tally. rewrite !count_cons.
  destruct e as [id' q|id']; cbn [seq_pairs is_observe is_reset] in *; simpl in He;
    rewrite (proj2 (Z.eqb_neq id' id)) by done; rewrite !Z.add_0_l; exact H.
Qed.

(** The history from a slot [s] on: what its counters become. *)
Lemma history_from id evs t :
  is_Some (t !! id) \/ Exists (fun e => event_stream e = id) evs ->
  exists s', foldl apply_event t evs !! id = Some s' /\ tally id (slot t id) evs s'.
Proof.
  revert t. induction evs as [|e evs IH]; intros t Hex.
  { destruct Hex as [[s' Hs']|H]; [|by apply Exists_nil in H]. exists s'.
    unfold tally, slot, count. rewrite Hs'. simpl. rewrite !Z.add_0_r. done. }
  cbn [foldl]. destruct (decide (event_stream e = id)) as [He|He].
  - destruct (IH (apply_event t e)) as (s' & Hs' & H).
    { left. destruct e; simpl in *; subst; unfold observe, note_reset; rewrite lookup_insert_eq; eauto. }
    exists s'. split; [done|]. destruct e as [id' q|id']; simpl in He; subst id'; [by apply tally_observe|by apply tally_reset].
  - assert (Hl : apply_event t e !! id = t !! id).
    { destruct e; simpl in *; unfold observe, note_reset; by rewrite lookup_insert_ne. }
    destruct (IH (apply_event t e)) as (s' & Hs' & H).
    { destruct Hex as [Hex|Hex]; [left; by rewrite Hl|right]. apply Exists_cons in Hex as [Hex|Hex]; done. }
    exists s'. split; [done|]. apply tally_skip; [done|]. unfold slot in *. by rewrite Hl in H.
Qed.

(** Every slot carries its own key and 64-bit counters. *)
Definition slot_ok (id : Z) (s : Rolling) : Prop :=
  let st := ro_stats s in
  st_stream_id st = id /\ is_u64 (st_frames st) /\ is_u64 (st_gaps st) /\
  is_u64 (st_duplicates st) /\ is_u64 (st_resets st).
Definition table_ok (t : StreamTable) : Prop := map_Forall slot_ok t.

Lemma inc_width n : is_u64 (inc n).
Proof. by apply Z.mod_pos_bound. Qed.

Lemma slot_is_ok t id : table_ok t -> slot_ok id (slot t id).
Proof.
  intros Ht. unfold slot, slot_ok. simpl. split; [done|].
  destruct (t !! id) as [s|] eqn:E; [apply (Ht id s E)|]. simpl. by unfold is_u64.
Qed.

Lemma apply_event_ok t e : table_ok t -> table_ok (apply_event t e).
Proof.
  intros Ht. destruct e as [id q|id]; pose proof (slot_is_ok t id Ht) as Hs;
    apply map_Forall_insert_2; [|done| |done]; unfold slot_ok in *; destruct Hs as (?&?&?&?&?).
  - unfold observe_rolling. repeat case_bool; simpl; split_and!; auto using inc_width.
  - simpl. split_and!; auto using inc_width.
Qed.

Lemma history_ok evs : table_ok (history_table evs).
Proof.
  unfold history_table. assert (H : table_ok ∅) by apply map_Forall_empty.
  revert H. generalize (∅ : StreamTable). induction evs as [|e evs IH]; intros t Ht; [done|].
  apply IH. by apply apply_event_ok.
Qed.

Lemma snapshot_elem t id s : t !! id = Some s -> ro_stats s ∈ snapshot t.
Proof.
  intros H. unfold snapshot. change (map ?f ?l) with (f <$> l).
  apply list_elem_of_fmap. exists (id, s). split; [done|]. by apply elem_of_entries.
Qed.

Lemma snapshot_ids t : table_ok t -> map st_stream_id (snapshot t) = (entries t).*1.
Proof.
  intros Ht. unfold snapshot. rewrite List.map_map. apply map_ext_in.
  intros [id s] Hin. apply list_elem_of_In, elem_of_entries in Hin. apply (Ht id s Hin).
Qed.

(** ** Claims *)

(** C36. The per-stream statistics of a decoded stream are what its history says,
    independently of the other streams: frames and resets count the stream's
    events; duplicates and gaps count the pairs of consecutive sequence numbers,
    with no reset between them, that are equal, or that are neither equal nor a
    16-bit increment. The snapshot lists every stream that had an event, once, in
    ascending order. Counters are modulo 2^64. *)
Theorem snapshot_counts_history (evs : list stream_event) (id : Z) :
  (exists e, e ∈ evs /\ event_stream e = id) ->
  let snap := snapshot (history_table evs) in
  NoDup (map st_stream_id snap) /\ StronglySorted Z.le (map st_stream_id snap) /\
  exists st, st ∈ snap /\ st_stream_id st = id /\
    st_frames st = u64 (count (is_observe id) evs) /\
    st_resets st = u64 (count (is_reset id) evs) /\
    st_duplicates st = u64 (count is_dup (seq_pairs id None evs)) /\
    st_gaps st = u64 (count is_gap (seq_pairs id None evs)).
Proof.
  intros (e & He & Hid) snap. pose proof (history_ok evs) as Hok.
  subst snap. rewrite snapshot_ids by done. split; [apply NoDup_entries_fst|]. split.
  { pose proof (entries_sorted (history_table evs)) as H.
    induction H as [|x l H IH HF]; [constructor|]. simpl. constructor; [done|].
    apply Forall_fmap. exact HF. }
  destruct (history_from id evs ∅) as (s & Hs & Hf & Hr & Hd & Hg).
  { right. apply Exists_exists. eauto. }
  exists (ro_stats s). destruct (Hok id s Hs) as (Hi & B1 & B2 & B3 & B4).
  split; [by eapply snapshot_elem|]. split; [done|].
  assert (Hsm : forall z, is_u64 z -> u64 z = z) by (intros; by apply Z.mod_small).
  rewrite (Hsm _ B1) in Hf. rewrite (Hsm _ B4) in Hr. rewrite (Hsm _ B3) in Hd.
  rewrite (Hsm _ B2) in Hg. done.
Qed.

Definition sample_history : list stream_event :=
  [Observe 7 65535; Observe 9 5; Observe 7 0; Observe 7 0; Observe 7 3; Reset 7; Observe 7 9].

Lemma snapshot_counts_history_witness :
  exists st, st ∈ snapshot (history_table sample_history) /\ st = MkStats 7 5 1 1 1.
Proof.
  destruct (snapshot_counts_history sample_history 7) as (_ & _ & st & Hin & H1 & H2 & H3 & H4 & H5).
  { exists (Reset 7). split; [|done]. unfold sample_history. set_solver. }
  exists st. split; [done|]. destruct st; simpl in *. subst. by vm_compute.
Defined.
