(* ===== verification/Control.v ===== *)
(** * Control: the per-stream flow-control window

    [src/streamcodec/control.cpp]: window updates, acknowledgements and admitted
    sends over the three cumulative byte counters of a stream. *)

From S2P Require Import Prelude OrdMap.

Definition UINT64_MAX : Z := 2 ^ 64 - 1.

Record WindowUpdate := MkUpdate { wu_stream_id : Z; ack_point : Z; window : Z }.
Record WindowAck := MkAck { wa_stream_id : Z; acked_bytes : Z }.

Record FlowState := MkFlow { advertised : Z; sent : Z; acked : Z; fs_blocked : bool }.

#[export] Instance FlowState_eq_dec : EqDecision FlowState.
Proof. solve_decision. Defined.

Definition fresh_flow : FlowState := MkFlow 0 0 0 false.

Definition in_flight (s : FlowState) : Z :=
  if acked s <=? sent s then u64 (sent s - acked s) else 0.
Definition available (s : FlowState) : Z :=
  if sent s <=? advertised s then u64 (advertised s - sent s) else 0.

Abbreviation FlowController := (gmap Z FlowState).

(** [refresh]: [blocked = sent >= advertised]. *)
Definition refresh (s : FlowState) : FlowState :=
  MkFlow (advertised s) (sent s) (acked s) (advertised s <=? sent s).

Definition flow_slot (c : FlowController) (id : Z) : FlowState := default fresh_flow (c !! id).

Definition on_window_update (c : FlowController) (u : WindowUpdate) : FlowState * FlowController :=
  let s := flow_slot c (wu_stream_id u) in
  let ceiling := ack_point u in
  let ceiling := if u64 (UINT64_MAX - ceiling) <? window u then UINT64_MAX
                 else u64 (ceiling + window u) in
  let s := refresh (MkFlow (Z.max (advertised s) ceiling) (sent s) (acked s) (fs_blocked s)) in
  (s, <[wu_stream_id u := s]> c).

Definition on_ack (c : FlowController) (a : WindowAck) : FlowState * FlowController :=
  let s := flow_slot c (wa_stream_id a) in
  let acked' := Z.max (acked s) (acked_bytes a) in
  let s := refresh (MkFlow (advertised s) (sent s) (Z.min acked' (sent s)) (fs_blocked s)) in
  (s, <[wa_stream_id a := s]> c).

Definition try_send (c : FlowController) (stream_id n : Z) : Z * FlowController :=
  let s := flow_slot c stream_id in
  let room := if sent s <=? advertised s then u64 (advertised s - sent s) else 0 in
  let granted := Z.min n room in
  let s := refresh (MkFlow (advertised s) (u64 (sent s + granted)) (acked s) (fs_blocked s)) in
  (granted, <[stream_id := s]> c).

Definition blocked (c : FlowController) (stream_id : Z) : bool :=
  match c !! stream_id with None => true | Some s => fs_blocked s end.

Definition state (c : FlowController) (stream_id : Z) : FlowState :=
  match c !! stream_id with
  | None => MkFlow 0 0 0 true
  | Some s => s
  end.

Definition stream_count (c : FlowController) : nat := size c.

(** ** The controller as a transition system *)

Inductive flow_op :=
  | Update (u : WindowUpdate)
  | Ack (a : WindowAck)
  | Send (stream_id n : Z).

(** Arguments of the right width. *)
Definition op_ok (o : flow_op) : Prop :=
  match o with
  | Update u => is_u64 (ack_point u) /\ is_u64 (window u)
  | Ack a => is_u64 (acked_bytes a)
  | Send _ n => is_u64 n
  end.

Definition op_stream (o : flow_op) : Z :=
  match o with Update u => wu_stream_id u | Ack a => wa_stream_id a | Send id _ => id end.

Definition run_op (c : FlowController) (o : flow_op) : FlowController :=
  match o with
  | Update u => snd (on_window_update c u)
  | Ack a => snd (on_ack c a)
  | Send id n => snd (try_send c id n)
  end.

Inductive flow_step : FlowController -> FlowController -> Prop :=
  | flow_step_op c o : op_ok o -> flow_step c (run_op c o).

Definition flow_reachable : FlowController -> Prop := rtc flow_step ∅.

Definition flow_ok (s : FlowState) : Prop :=
  0 <= acked s <= sent s /\ sent s <= advertised s <= UINT64_MAX /\
  fs_blocked s = (advertised s <=? sent s).

(** A stream not seen yet satisfies everything but the flag. *)
Lemma flow_slot_ok c id : map_Forall (fun _ => flow_ok) c ->
  0 <= acked (flow_slot c id) <= sent (flow_slot c id) /\
  sent (flow_slot c id) <= advertised (flow_slot c id) <= UINT64_MAX.
Proof.
  intros Hc. unfold flow_slot, UINT64_MAX. destruct (c !! id) as [s|] eqn:E; simpl; [|lia].
  destruct (Hc id s E) as (? & ? & _). unfold UINT64_MAX in *. lia.
Qed.

Lemma room_exact s : 0 <= acked s <= sent s -> sent s <= advertised s <= UINT64_MAX ->
  (if sent s <=? advertised s then u64 (advertised s - sent s) else 0) = advertised s - sent s.
Proof.
  intros H1 H2. unfold UINT64_MAX in *. rewrite (proj2 (Z.leb_le _ _)) by lia.
  apply Z.mod_small. lia.
Qed.

Lemma ceiling_exact a w : is_u64 a -> is_u64 w ->
  (if u64 (UINT64_MAX - a) <? w then UINT64_MAX else u64 (a + w)) = Z.min UINT64_MAX (a + w).
Proof.
  unfold is_u64, u64, UINT64_MAX. intros Ha Hw.
  rewrite (Z.mod_small (_ - _)) by lia. case_bool; reflect_bools; [lia|].
  rewrite Z.mod_small by lia. lia.
Qed.

(** One operation: the state of its own stream after it, all others unchanged. *)
Lemma run_op_own c o :
  map_Forall (fun _ => flow_ok) c -> op_ok o ->
  exists s', run_op c o = <[op_stream o := s']> c /\ flow_ok s' /\
    let s := flow_slot c (op_stream o) in
    advertised s <= advertised s' /\ sent s <= sent s' /\ acked s <= acked s' /\
    match o with
    | Update u => advertised s' = Z.max (advertised s) (Z.min UINT64_MAX (ack_point u + window u))
                  /\ sent s' = sent s /\ acked s' = acked s
    | Ack a => acked s' = Z.min (sent s) (Z.max (acked s) (acked_bytes a))
               /\ sent s' = sent s /\ advertised s' = advertised s
    | Send id n => sent s' = Z.min (advertised s) (sent s + n)
               /\ fst (try_send c id n) = sent s' - sent s
               /\ advertised s' = advertised s /\ acked s' = acked s
    end.
Proof.
  intros Hc Ho. pose proof (flow_slot_ok c (op_stream o) Hc) as [H1 H2].
  destruct o as [u|a|id n]; cbn [op_stream run_op op_ok] in *.
  - destruct Ho as [Ha Hw]. unfold on_window_update. rewrite ceiling_exact by done.
    eexists. split; [done|]. unfold flow_ok, refresh. simpl.
    unfold is_u64, UINT64_MAX in *. split_and!; done || lia.
  - unfold on_ack. eexists. split; [done|]. unfold flow_ok, refresh. simpl.
    unfold is_u64, UINT64_MAX in *. split_and!; done || lia.
  - unfold try_send. rewrite room_exact by done. unfold is_u64 in Ho.
    assert (Hu : u64 (sent (flow_slot c id) +
        Z.min n (advertised (flow_slot c id) - sent (flow_slot c id))) =
      Z.min (advertised (flow_slot c id)) (sent (flow_slot c id) + n)).
    { unfold u64, UINT64_MAX in *. rewrite Z.mod_small by lia. lia. }
    rewrite Hu. eexists. split; [done|]. unfold flow_ok, refresh. simpl.
    split_and!; done || lia.
Qed.

Lemma run_op_ok c o :
  map_Forall (fun _ => flow_ok) c -> op_ok o -> map_Forall (fun _ => flow_ok) (run_op c o).
Proof.
  intros Hc Ho. destruct (run_op_own c o Hc Ho) as (s' & -> & Hs & _).
  by apply map_Forall_insert_2.
Qed.

Lemma flow_reachable_ok c : flow_reachable c -> map_Forall (fun _ => flow_ok) c.
Proof.
  intros H. unfold flow_reachable in H. remember (∅ : FlowController) as c0 eqn:E0.
  assert (H0 : map_Forall (fun _ : Z => flow_ok) c0) by (subst; apply map_Forall_empty).
  clear E0. induction H as [|c1 c2 c3 Hs H IH]; [done|]. apply IH.
  inversion Hs; subst. by apply run_op_ok.
Qed.

(** ** Claims *)

(** C21. In every reachable state of the flow controller and for every stream,
    acked <= sent <= advertised < 2^64 and the blocked flag says exactly that the
    window is full (unknown streams report blocked); and every further operation,
    whatever its order, moves no counter of its stream backwards, touches no other
    stream, raises the ceiling to the saturated advertisement, confirms at most
    what was sent, and admits exactly the bytes that fit under the ceiling. *)
Theorem flow_controller_safe (c : FlowController) (o : flow_op) (id : Z) :
  flow_reachable c -> op_ok o ->
  let before := state c id in let after := state (run_op c o) id in
  0 <= acked before <= sent before /\ sent before <= advertised before <= UINT64_MAX /\
  blocked c id = (advertised before <=? sent before) /\
  (id <> op_stream o -> after = before) /\
  (id = op_stream o ->
     advertised before <= advertised after /\ sent before <= sent after /\
     acked before <= acked after /\
     match o with
     | Update u => advertised after =
         Z.max (advertised before) (Z.min UINT64_MAX (ack_point u + window u))
     | Ack a => acked after = Z.min (sent before) (Z.max (acked before) (acked_bytes a))
     | Send id n => sent after = Z.min (advertised before) (sent before + n) /\
         fst (try_send c id n) = sent after - sent before
     end).
Proof.
  intros Hr Ho before after. pose proof (flow_reachable_ok c Hr) as Hc.
  destruct (run_op_own c o Hc Ho) as (s' & Hrun & Hs' & H).
  assert (Hb : forall i, advertised (state c i) = advertised (flow_slot c i) /\
    sent (state c i) = sent (flow_slot c i) /\ acked (state c i) = acked (flow_slot c i)).
  { intros i. unfold state, flow_slot. by destruct (c !! i). }
  destruct (Hb id) as (E1 & E2 & E3). destruct (flow_slot_ok c id Hc) as [H1 H2].
  subst before after. rewrite E1, E2, E3. split_and!; try lia.
  - unfold blocked, flow_slot. destruct (c !! id) as [s|] eqn:E; [|done]. apply (Hc id s E).
  - intros Hne. rewrite Hrun. unfold state. rewrite lookup_insert_ne by done. done.
  - intros ->. assert (Ha : state (run_op c o) (op_stream o) = s').
    { rewrite Hrun. unfold state. by rewrite lookup_insert_eq. }
    rewrite Ha. destruct H as (M1 & M2 & M3 & H). split_and!; try lia.
    destruct o; cbn [op_stream] in *; intuition.
Qed.

Definition sample_flow : FlowController :=
  run_op (run_op ∅ (Update (MkUpdate 3 100 50))) (Send 3 120).

Lemma flow_controller_safe_witness :
  state (run_op sample_flow (Send 3 100)) 3 = MkFlow 150 150 0 true /\
  blocked sample_flow 3 = false.
Proof.
  assert (Hr : flow_reachable sample_flow).
  { unfold sample_flow. eapply rtc_l; [apply flow_step_op|eapply rtc_l; [apply flow_step_op|apply rtc_refl]];
      unfold op_ok, is_u64; simpl; lia. }
  destruct (flow_controller_safe sample_flow (Send 3 100) 3 Hr) as (_ & _ & Hb & _ & H);
    [unfold op_ok, is_u64; lia|]. split; [by vm_compute|]. rewrite Hb. by vm_compute.
Defined.
