(* ===== verification/Transform.v ===== *)
(** * Transform: the run-length codec

    [src/streamcodec/transform.cpp]. Indexing into the input is kept as an access
    that may be undefined; lengths are [nat]. *)

From S2P Require Import Prelude Status.

Inductive RleStatus := kRleOk | kMalformed | kCapExceeded.

#[export] Instance RleStatus_eq_dec : EqDecision RleStatus.
Proof. solve_decision. Defined.

Definition kRleMaxTokenLen : nat := 128.

(** [while (i + n < in.size() && in[i + n] == v && n < 128) ++n]. *)
Fixpoint run_loop (turns : nat) (inp : bytes) (i : nat) (v : Z) (n : nat) : outcome nat :=
  match turns with
  | O => NoFuel
  | S turns' =>
      if (i + n <? length inp)%nat then
        let? b := at_idx inp (i + n) in
        if (b =? v) && (n <? kRleMaxTokenLen)%nat then run_loop turns' inp i v (S n) else Ok n
      else Ok n
  end.

(** [n] starts at 1 and never passes 128, so 129 turns reach the exit. *)
Definition run_length (inp : bytes) (i : nat) : outcome nat :=
  let? v := at_idx inp i in run_loop 129 inp i v 1.

Definition emit_literal (out inp : bytes) (start len : nat) : outcome bytes :=
  let out := out ++ [u8 (Z.of_nat len - 1)] in
  let? data := copy_range inp start len in
  Ok (out ++ data).

Definition emit_run (out : bytes) (value : Z) (count : nat) : bytes :=
  (out ++ [u8 (Z.lor 0x80 (Z.of_nat count - 1))]) ++ [value].

Record rle_state := MkRle { rle_out : bytes; lit_start : nat; lit_len : nat }.

(** [flush_literal]: [while (lit_len > 0)], each turn takes at least one byte. *)
Fixpoint flush_loop (turns : nat) (inp : bytes) (s : rle_state) : outcome rle_state :=
  match turns with
  | O => NoFuel
  | S turns' =>
      if (0 <? lit_len s)%nat then
        let take := if (lit_len s <? kRleMaxTokenLen)%nat then lit_len s else kRleMaxTokenLen in
        let? out := emit_literal (rle_out s) inp (lit_start s) take in
        flush_loop turns' inp (MkRle out (lit_start s + take) (lit_len s - take))
      else Ok s
  end.
Definition flush_literal (inp : bytes) (s : rle_state) : outcome rle_state :=
  flush_loop (S (lit_len s)) inp s.

Fixpoint compress_loop (turns : nat) (inp : bytes) (i : nat) (s : rle_state) : outcome rle_state :=
  match turns with
  | O => NoFuel
  | S turns' =>
      if (i <? length inp)%nat then
        let? run := run_length inp i in
        if (2 <=? run)%nat then
          let? s := flush_literal inp s in
          let? v := at_idx inp i in
          compress_loop turns' inp (i + run) (MkRle (emit_run (rle_out s) v run) (i + run) 0)
        else
          let? s := (if (lit_len s =? kRleMaxTokenLen)%nat then
                       let? s := flush_literal inp s in
                       Ok (MkRle (rle_out s) i (lit_len s))
                     else Ok s) in
          compress_loop turns' inp (S i) (MkRle (rle_out s) (lit_start s) (S (lit_len s)))
      else Ok s
  end.

Definition rle_compress (input : bytes) : outcome bytes :=
  let? s := compress_loop (S (length input)) input 0 (MkRle [] 0 0) in
  let? s := flush_literal input s in
  Ok (rle_out s).

(** [while (pos < size)]; every turn consumes the control byte. *)
Fixpoint decompress_loop (turns : nat) (data : bytes) (pos max_output : nat) (out : bytes)
    : outcome (RleStatus * bytes) :=
  match turns with
  | O => NoFuel
  | S turns' =>
      if (pos <? length data)%nat then
        let? control := at_idx data pos in
        let pos := S pos in
        let count := Z.to_nat (Z.land control 0x7F + 1) in
        if negb (Z.land control 0x80 =? 0) then
          if (length data <=? pos)%nat then Ok (kMalformed, out)
          else if (max_output <? length out + count)%nat then Ok (kCapExceeded, out)
          else
            let? value := at_idx data pos in
            decompress_loop turns' data (S pos) max_output (out ++ replicate count value)
        else
          if (length data <? pos + count)%nat then Ok (kMalformed, out)
          else if (max_output <? length out + count)%nat then Ok (kCapExceeded, out)
          else
            let? lit := copy_range data pos count in
            decompress_loop turns' data (pos + count) max_output (out ++ lit)
      else Ok (kRleOk, out)
  end.

Definition rle_decompress (data : bytes) (max_output : nat) (out : bytes)
    : outcome (RleStatus * bytes) :=
  decompress_loop (S (length data)) data 0 max_output out.

(** ** Tokens: the specification of the format *)

Inductive token := Lit (l : bytes) | Run (v : Z) (n : nat).

Definition token_ok (t : token) : Prop :=
  match t with
  | Lit l => (1 <= length l <= 128)%nat /\ bytes_ok l
  | Run v n => (1 <= n <= 128)%nat /\ is_byte v
  end.

Definition expand (t : token) : bytes :=
  match t with Lit l => l | Run v n => replicate n v end.
Definition token_bytes (t : token) : bytes :=
  match t with
  | Lit l => Z.of_nat (length l) - 1 :: l
  | Run v n => [128 + (Z.of_nat n - 1); v]
  end.
Definition tokens_bytes (ts : list token) : bytes := concat (map token_bytes ts).
Definition expand_all (ts : list token) : bytes := concat (map expand ts).

Lemma tokens_bytes_app ts us : tokens_bytes (ts ++ us) = tokens_bytes ts ++ tokens_bytes us.
Proof. unfold tokens_bytes. by rewrite map_app, concat_app. Qed.
Lemma expand_all_app ts us : expand_all (ts ++ us) = expand_all ts ++ expand_all us.
Proof. unfold expand_all. by rewrite map_app, concat_app. Qed.

(** One token: the cap is tested first, then its expansion is appended. *)
Lemma literal_turn l T turns pre cap out : token_ok (Lit l) ->
  decompress_loop (S turns) (pre ++ token_bytes (Lit l) ++ T) (length pre) cap out =
  if (cap <? length out + length l)%nat then Ok (kCapExceeded, out)
  else decompress_loop turns (pre ++ token_bytes (Lit l) ++ T) (length pre + S (length l)) cap (out ++ l).
Proof.
  intros [Hlen Hok]. cbn [token_bytes]. set (c := Z.of_nat (length l) - 1). assert (Hcb : 0 <= c < 128) by lia.
  cbn [decompress_loop]. rewrite length_app, (proj2 (Nat.ltb_lt _ _)) by (simpl; lia).
  unfold at_idx at 1. rewrite <- app_comm_cons, lookup_app_mid. cbn [obind].
  rewrite byte_high_bit by (unfold is_byte; lia). rewrite (proj2 (Z.ltb_lt _ _)) by lia. cbn [negb].
  rewrite land_7f, Z.mod_small by lia. replace (Z.to_nat (c + 1)) with (length l) by lia.
  rewrite (proj2 (Nat.ltb_ge _ _)) by (cbn [length]; rewrite length_app; lia).
  destruct (cap <? _)%nat; [done|].
  unfold copy_range. rewrite length_app. cbn [length]. rewrite length_app.
  rewrite (proj2 (Nat.leb_le (_ + length l) _)) by lia. cbn [obind].
  replace (take (length l) (drop (S (length pre)) (pre ++ c :: l ++ T))) with l.
  2: { replace (S (length pre)) with (length (pre ++ [c])) by (rewrite length_app; simpl; lia).
       rewrite (app_assoc pre [c] (l ++ T) : pre ++ c :: l ++ T = _). by rewrite drop_app_exact, take_app_length. }
  by replace (S (length pre) + length l)%nat with (length pre + S (length l))%nat by lia.
Qed.

Lemma run_turn v n T turns pre cap out : token_ok (Run v n) ->
  decompress_loop (S turns) (pre ++ token_bytes (Run v n) ++ T) (length pre) cap out =
  if (cap <? length out + n)%nat then Ok (kCapExceeded, out)
  else decompress_loop turns (pre ++ token_bytes (Run v n) ++ T) (length pre + 2) cap (out ++ replicate n v).
Proof.
  intros [Hlen Hok]. cbn [token_bytes]. set (c := 128 + (Z.of_nat n - 1)). assert (Hcb : 128 <= c < 256) by lia.
  cbn [decompress_loop]. rewrite length_app, (proj2 (Nat.ltb_lt _ _)) by (simpl; lia).
  unfold at_idx at 1. rewrite <- app_comm_cons, lookup_app_mid. cbn [obind].
  rewrite byte_high_bit by (unfold is_byte; lia). rewrite (proj2 (Z.ltb_ge _ _)) by lia. cbn [negb].
  rewrite land_7f. replace (Z.to_nat (c mod 128 + 1)) with n by dlia.
  rewrite (proj2 (Nat.leb_gt _ (S (length pre)))) by (simpl; lia).
  destruct (cap <? _)%nat; [done|]. unfold at_idx. rewrite (lookup_app_r pre) by lia.
  replace (S (length pre) - length pre)%nat with 1%nat by lia. cbn [app lookup list_lookup obind].
  by replace (S (S (length pre))) with (length pre + 2)%nat by lia.
Qed.

Lemma token_turn t T turns pre cap out : token_ok t ->
  decompress_loop (S turns) (pre ++ token_bytes t ++ T) (length pre) cap out =
  if (cap <? length out + length (expand t))%nat then Ok (kCapExceeded, out)
  else decompress_loop turns (pre ++ token_bytes t ++ T) (length (pre ++ token_bytes t)) cap (out ++ expand t).
Proof.
  rewrite length_app. destruct t as [l|v n]; [apply literal_turn|]. cbn [expand]. rewrite length_replicate. apply run_turn.
Qed.

(** What is expected of a buffer that still expands to [X]. *)
Definition decompressed (cap : nat) (out X : bytes) (r : outcome (RleStatus * bytes)) : Prop :=
  if (length out + length X <=? cap)%nat then r = Ok (kRleOk, out ++ X)
  else (length out <= cap)%nat -> exists k, r = Ok (kCapExceeded, out ++ take k X).

Lemma decompressed_over cap out e X : (cap < length out + length e)%nat -> decompressed cap out (e ++ X) (Ok (kCapExceeded, out)).
Proof.
  intros Hc. unfold decompressed. rewrite length_app, (proj2 (Nat.leb_gt _ _)) by lia. intros _. exists 0%nat.
  by rewrite take_0, app_nil_r.
Qed.

Lemma decompressed_step cap out e X r : (length out + length e <= cap)%nat ->
  decompressed cap (out ++ e) X r -> decompressed cap out (e ++ X) r.
Proof.
  intros Hc H. unfold decompressed in *. rewrite !length_app, Nat.add_assoc in *. case_bool; reflect_bools.
  - by rewrite H, <- app_assoc.
  - intros _. destruct H as [k ->]; [lia|]. exists (length e + k)%nat. by rewrite take_app_add, <- app_assoc.
Qed.

(** The decompressor over a token stream: everything when the cap allows it, and
    [kCapExceeded] with a proper prefix otherwise. *)
Lemma decompress_tokens ts turns pre cap out :
  Forall token_ok ts -> (length (tokens_bytes ts) < turns)%nat ->
  decompressed cap out (expand_all ts) (decompress_loop turns (pre ++ tokens_bytes ts) (length pre) cap out).
Proof.
  intros Hts. revert turns pre out. induction Hts as [|t ts Ht Hts IH]; intros turns pre out Hn;
    (destruct turns as [|turns]; [lia|]).
  { unfold decompressed. simpl. rewrite !app_nil_r, Nat.add_0_r, Nat.ltb_irrefl. case_bool; reflect_bools; [done|lia]. }
  change (tokens_bytes (t :: ts)) with (token_bytes t ++ tokens_bytes ts) in *.
  change (expand_all (t :: ts)) with (expand t ++ expand_all ts).
  rewrite token_turn by done. destruct (Nat.ltb_spec cap (length out + length (expand t))); [by apply decompressed_over|].
  apply decompressed_step; [done|]. rewrite app_assoc. apply IH. rewrite length_app in Hn.
  assert (0 < length (token_bytes t))%nat by (destruct t; simpl; lia). lia.
Qed.


(** ** The compressor *)

Lemma run_loop_ok turns inp i v n :
  (1 <= n <= 128)%nat -> (129 <= turns + n)%nat -> (i + n <= length inp)%nat ->
  take n (drop i inp) = replicate n v ->
  exists m, run_loop turns inp i v n = Ok m /\ (n <= m <= 128)%nat /\
    (i + m <= length inp)%nat /\ take m (drop i inp) = replicate m v.
Proof.
  revert n. induction turns as [|turns IH]; intros n Hn Ht Hi Hv; [lia|].
  cbn [run_loop]. case_bool; reflect_bools; [|exists n; split_and!; done || lia].
  destruct (at_idx_ok inp (i + n)) as (b & Hb & ->); [done|]. cbn [obind].
  case_bool; reflect_bools; [|exists n; split_and!; done || lia]. subst b. unfold kRleMaxTokenLen in *.
  destruct (IH (S n)) as (m & Hm & Hle & Hlen & Htake); [lia..| |].
  - rewrite (take_S_r _ _ v) by (by rewrite lookup_drop).
    by rewrite Hv, replicate_S_end.
  - exists m. split_and!; done || lia.
Qed.

Lemma run_length_ok inp i v :
  inp !! i = Some v ->
  exists n, run_length inp i = Ok n /\ (1 <= n <= 128)%nat /\
    (i + n <= length inp)%nat /\ take n (drop i inp) = replicate n v.
Proof.
  intros Hv. pose proof (lookup_lt_Some _ _ _ Hv). unfold run_length, at_idx. rewrite Hv.
  cbn [obind]. apply run_loop_ok; [lia..|]. by rewrite (drop_S _ v).
Qed.

(** What [flush_literal] does at a pending length the loop can reach. *)
Definition flushed (inp : bytes) (s : rle_state) : list token :=
  if (lit_len s =? 0)%nat then [] else [Lit (take (lit_len s) (drop (lit_start s) inp))].

Lemma flush_literal_ok inp s :
  (lit_len s <= 128)%nat -> (lit_start s + lit_len s <= length inp)%nat ->
  flush_literal inp s =
  Ok (MkRle (rle_out s ++ tokens_bytes (flushed inp s)) (lit_start s + lit_len s) 0).
Proof.
  destruct s as [out st len]. unfold flush_literal, flushed. cbn [lit_len lit_start rle_out].
  intros Hl Hi. cbn [flush_loop lit_len lit_start rle_out].
  destruct len as [|len]; [simpl; by rewrite app_nil_r, Nat.add_0_r|].
  replace (if (S len <? kRleMaxTokenLen)%nat then S len else kRleMaxTokenLen) with (S len)
    by (unfold kRleMaxTokenLen; case_bool; reflect_bools; lia).
  unfold emit_literal, copy_range. rewrite (proj2 (Nat.leb_le _ _)) by done.
  rewrite (proj2 (Nat.ltb_lt _ _)), Nat.sub_diag by lia. cbn [obind Nat.eqb].
  unfold tokens_bytes. cbn [map concat token_bytes flush_loop lit_len Nat.ltb Nat.leb].
  rewrite app_nil_r, length_take_le by (rewrite length_drop; lia).
  rewrite <- app_assoc. unfold u8. by rewrite Z.mod_small by lia.
Qed.

(** The invariant of the main loop: what has been emitted is a token stream that
    expands to the input up to the pending literal. *)
Definition rle_inv (inp : bytes) (i : nat) (s : rle_state) : Prop :=
  (lit_start s + lit_len s = i)%nat /\ (i <= length inp)%nat /\ (lit_len s <= 128)%nat /\
  exists ts, Forall token_ok ts /\ rle_out s = tokens_bytes ts /\
    expand_all ts = take (lit_start s) inp /\
    (3 * length (rle_out s) <= 4 * lit_start s)%nat.

Lemma flushed_spec inp s :
  bytes_ok inp -> (lit_len s <= 128)%nat -> (lit_start s + lit_len s <= length inp)%nat ->
  Forall token_ok (flushed inp s) /\
  expand_all (flushed inp s) = take (lit_len s) (drop (lit_start s) inp) /\
  (length (tokens_bytes (flushed inp s)) = if lit_len s =? 0 then 0 else S (lit_len s))%nat.
Proof.
  intros Hb Hl Hi. unfold flushed. destruct (Nat.eqb_spec (lit_len s) 0) as [->|Hn].
  { split_and!; [constructor|done|done]. }
  assert (Hlen : length (take (lit_len s) (drop (lit_start s) inp)) = lit_len s)
    by (rewrite length_take_le; [done|rewrite length_drop; lia]).
  split_and!.
  - constructor; [|constructor]. split; [lia|auto with bw].
  - unfold expand_all. simpl. by rewrite app_nil_r.
  - unfold tokens_bytes. cbn [map concat token_bytes length]. rewrite app_nil_r. simpl. lia.
Qed.

Lemma rle_inv_flush inp i s :
  bytes_ok inp -> rle_inv inp i s ->
  exists ts, Forall token_ok ts /\ rle_out s ++ tokens_bytes (flushed inp s) = tokens_bytes ts /\
    expand_all ts = take i inp /\
    (3 * length (tokens_bytes ts) <= 4 * i + (if lit_len s =? 0 then 0 else 3 - lit_len s))%nat.
Proof.
  intros Hb (<- & Hi & Hl & ts & Hts & Hout & Hex & Hsz).
  destruct (flushed_spec inp s) as (Hf & Hfe & Hfl); [done..|].
  exists (ts ++ flushed inp s). rewrite tokens_bytes_app, expand_all_app, Hfe, Hex, Hout in *.
  split_and!; [by apply Forall_app|done|by rewrite take_take_drop|].
  rewrite length_app, Hfl. case_match; reflect_bools; lia.
Qed.

Lemma compress_loop_ok turns inp i s :
  bytes_ok inp -> rle_inv inp i s -> (length inp < turns + i)%nat ->
  exists s', compress_loop turns inp i s = Ok s' /\ rle_inv inp (length inp) s'.
Proof.
  intros Hb. revert i s. induction turns as [|turns IH]; intros i s Hinv Ht;
    pose proof Hinv as (Hst & Hi & Hl & Hrest); [lia|].
  cbn [compress_loop]. case_bool; reflect_bools.
  2: { exists s. split; [done|]. by replace (length inp) with i by lia. }
  destruct (at_idx_ok inp i) as (v & Hv & Hat); [done|].
  destruct (run_length_ok inp i v Hv) as (n & -> & Hn & Hin & Hrun). cbn [obind].
  case_bool; reflect_bools.
  - rewrite flush_literal_ok by (done || lia). rewrite Hat. cbn [obind rle_out].
    destruct (rle_inv_flush inp i s Hb Hinv) as (ts & Hts & -> & Hex & Hsz).
    apply IH; [|lia]. split_and!; cbn [lit_start lit_len rle_out]; [lia..|].
    exists (ts ++ [Run v n]). rewrite tokens_bytes_app, expand_all_app, Hex.
    assert (Hvb : is_byte v) by (by eapply bytes_ok_lookup).
    assert (Hw : Z.lor 128 (Z.of_nat n - 1) = 128 + (Z.of_nat n - 1)).
    { rewrite Z.lor_comm. change 128 with (Z.shiftl 1 7) at 1.
      rewrite lor_shiftl_add by lia. lia. }
    split_and!.
    + apply Forall_app_2; [done|]. constructor; [|constructor]. split; [lia|done].
    + unfold emit_run, u8. rewrite Hw, Z.mod_small by lia. by rewrite <- app_assoc.
    + unfold expand_all. cbn [map concat expand]. rewrite app_nil_r, <- Hrun.
      by rewrite take_take_drop.
    + unfold emit_run. rewrite !length_app. cbn [length]. case_match; reflect_bools; lia.
  - case_bool; reflect_bools; cbn [obind]; unfold kRleMaxTokenLen in *.
    + rewrite flush_literal_ok by (done || lia). cbn [obind rle_out lit_len].
      destruct (rle_inv_flush inp i s Hb Hinv) as (ts & Hts & -> & Hex & Hsz).
      apply IH; [|lia]. split_and!; cbn [lit_start lit_len rle_out]; [lia..|].
      exists ts. split_and!; try done. case_match; reflect_bools; lia.
    + apply IH; [|lia]. split_and!; cbn [lit_start lit_len rle_out]; [lia..|done].
Qed.

(** The compressor emits a token stream of its input, within the size bound. *)
Lemma rle_compress_tokens inp :
  bytes_ok inp ->
  exists ts, Forall token_ok ts /\ rle_compress inp = Ok (tokens_bytes ts) /\
    expand_all ts = inp /\ (3 * length (tokens_bytes ts) <= 4 * length inp + 2)%nat.
Proof.
  intros Hb. unfold rle_compress.
  destruct (compress_loop_ok (S (length inp)) inp 0 (MkRle [] 0 0)) as (s & -> & Hinv);
    [done| |lia|].
  { split_and!; cbn; try lia. exists []. split_and!; done || (simpl; lia). }
  pose proof Hinv as (Hst & Hi & Hl & _). cbn [obind].
  rewrite flush_literal_ok by (done || lia).
  destruct (rle_inv_flush inp _ s Hb Hinv) as (ts & Hts & Hout & Hex & Hsz).
  cbn [obind rle_out]. rewrite Hout. exists ts. rewrite firstn_all in Hex.
  split_and!; try done. case_match; reflect_bools; lia.
Qed.

(** The decompressor on arbitrary input: it never reads outside it and never
    exceeds its cap, and what it accepts is a token stream. *)
Definition rle_post (data : bytes) (cap : nat) (out : bytes) (res : RleStatus * bytes) : Prop :=
  exists k, res.2 = out ++ k /\ (k = [] \/ (length out + length k <= cap)%nat) /\
    bytes_ok k /\
    (res.1 = kRleOk -> exists ts, Forall token_ok ts /\ data = tokens_bytes ts /\ k = expand_all ts).

Lemma rle_post_stop data cap out st : st <> kRleOk -> rle_post data cap out (st, out).
Proof. intros Hst. exists []. rewrite app_nil_r. split_and!; [done|auto|constructor|done]. Qed.

Lemma rle_post_token t data cap out res :
  token_ok t -> (length out + length (expand t) <= cap)%nat ->
  rle_post data cap (out ++ expand t) res -> rle_post (token_bytes t ++ data) cap out res.
Proof.
  intros Ht Hc (k & Hk & Hcap & Hb & Hts). exists (expand t ++ k).
  assert (bytes_ok (expand t)).
  { destruct t as [l|v n]; destruct Ht; [done|]. by apply Forall_replicate. }
  split_and!.
  - by rewrite Hk, app_assoc.
  - right. rewrite length_app in *. destruct Hcap as [-> | ?]; [simpl|]; lia.
  - by apply bytes_ok_app.
  - intros Hst. destruct (Hts Hst) as (ts & Hok & -> & ->). exists (t :: ts).
    split_and!; [by constructor|done..].
Qed.

Lemma decompress_loop_post turns data pos cap out :
  bytes_ok data -> (length data < turns + pos)%nat -> (pos <= length data)%nat ->
  ototal (decompress_loop turns data pos cap out) (rle_post (drop pos data) cap out).
Proof.
  intros Hb. revert pos out. induction turns as [|turns IH]; intros pos out Ht Hp; [lia|].
  cbn [decompress_loop]. case_bool; reflect_bools.
  2: { exists []. rewrite drop_ge, app_nil_r by done. split_and!; [done|auto|constructor|].
       intros _. by exists []. }
  destruct (at_idx_ok data pos) as (c & Hc & ->); [done|]. cbn [obind].
  rewrite (drop_S _ c) by done.
  assert (Hcb : is_byte c) by (by eapply bytes_ok_lookup).
  rewrite byte_high_bit by done. rewrite land_7f. set (n := Z.to_nat _).
  assert (Hn : (1 <= n <= 128)%nat) by (unfold n; unfold is_byte in Hcb; dlia).
  case_bool; rewrite ?negb_true_iff, ?negb_false_iff in *; reflect_bools.
  - repeat (case_bool; reflect_bools; [by apply rle_post_stop|]).
    destruct (at_idx_ok data (S pos)) as (v & Hv & ->); [lia|]. cbn [obind].
    rewrite (drop_S _ v) by done.
    assert (Hw : c :: v :: drop (S (S pos)) data =
            token_bytes (Run v n) ++ drop (S (S pos)) data).
    { cbn [token_bytes app]. f_equal. unfold n. unfold is_byte in Hcb. dlia. }
    rewrite Hw. eapply ototal_mono; [apply IH; lia|]. intros res Hres.
    apply rle_post_token; [split; [lia|by eapply bytes_ok_lookup]| |done].
    cbn [expand]. rewrite length_replicate. lia.
  - repeat (case_bool; reflect_bools; [by apply rle_post_stop|]).
    unfold copy_range. rewrite (proj2 (Nat.leb_le _ _)) by done. cbn [obind].
    assert (Hlen : length (take n (drop (S pos) data)) = n)
      by (rewrite length_take_le; [done|rewrite length_drop; lia]).
    assert (Hw : c :: drop (S pos) data =
            token_bytes (Lit (take n (drop (S pos) data))) ++ drop (S pos + n) data).
    { cbn [token_bytes app]. rewrite Hlen, <- drop_drop, take_drop. f_equal.
      unfold n. unfold is_byte in Hcb. dlia. }
    rewrite Hw. eapply ototal_mono; [apply IH; lia|]. intros res Hres.
    apply rle_post_token; [|cbn [expand]; lia|done]. split; [lia|auto with bw].
Qed.

(** ** Claims *)

(** C29. The run-length codec is lossless: [rle_compress] succeeds on every
    byte string, its output is at most a third longer than the input (plus two
    bytes), and decompressing it appends exactly the input when the cap allows
    it, and reports [kCapExceeded] with at most a prefix of it otherwise. *)
Theorem rle_roundtrip (input out : bytes) (cap : nat) :
  bytes_ok input -> (length out <= cap)%nat ->
  exists data, rle_compress input = Ok data /\
    (3 * length data <= 4 * length input + 2)%nat /\
    (if (length out + length input <=? cap)%nat
     then rle_decompress data cap out = Ok (kRleOk, out ++ input)
     else exists k, rle_decompress data cap out = Ok (kCapExceeded, out ++ take k input)).
Proof.
  intros Hb Hc. destruct (rle_compress_tokens input Hb) as (ts & Hts & Hcomp & Hex & Hsz).
  exists (tokens_bytes ts). split_and!; [done..|].
  pose proof (decompress_tokens ts (S (length (tokens_bytes ts))) [] cap out Hts ltac:(lia)) as H. unfold decompressed in H.
  rewrite Hex in H. unfold rle_decompress. case_bool; auto.
Qed.

Lemma rle_roundtrip_witness :
  rle_compress [7; 7; 7; 1; 2] = Ok [130; 7; 1; 1; 2] /\
  rle_decompress [130; 7; 1; 1; 2] 5 [] = Ok (kRleOk, [7; 7; 7; 1; 2]) /\
  exists data, rle_compress [7; 7; 7; 1; 2] = Ok data /\
    exists k, rle_decompress data 4 [] = Ok (kCapExceeded, take k [7; 7; 7; 1; 2]).
Proof.
  split; [reflexivity|]. split; [reflexivity|].
  destruct (rle_roundtrip [7; 7; 7; 1; 2] [] 4) as (data & H1 & _ & H2).
  - apply (bool_decide_unpack _); by vm_compute.
  - simpl. lia.
  - exists data. split; [exact H1|exact H2].
Defined.

(** C37. Decompressing untrusted bytes is total and safe: no access leaves the
    input, the loop always ends, the output only grows and never past the cap
    (nothing is produced when the cap is already passed), and [kRleOk] is
    answered exactly on the concatenation of well-formed tokens whose expansion
    fits, with that expansion as output. *)
Theorem rle_decompress_spec (data out : bytes) (cap : nat) :
  bytes_ok data ->
  exists st k, rle_decompress data cap out = Ok (st, out ++ k) /\
    (k = [] \/ (length out + length k <= cap)%nat) /\ bytes_ok k /\
    (st = kRleOk -> exists ts, Forall token_ok ts /\ data = tokens_bytes ts /\ k = expand_all ts) /\
    (forall ts, Forall token_ok ts -> data = tokens_bytes ts ->
       (length out + length (expand_all ts) <= cap)%nat -> st = kRleOk).
Proof.
  intros Hb.
  pose proof (decompress_loop_post (S (length data)) data 0 cap out Hb ltac:(lia) ltac:(lia)) as H.
  unfold rle_decompress. destruct (decompress_loop _ _ _ _ _) as [[st out']|e| |] eqn:Ed; try done.
  destruct H as (k & Hk & Hcap & Hkb & Hts). simpl in *. subst out'. exists st, k.
  split_and!; try done. intros ts Hok -> Hfit.
  pose proof (decompress_tokens ts (S (length (tokens_bytes ts))) [] cap out Hok ltac:(lia)) as H. unfold decompressed in H.
  rewrite (proj2 (Nat.leb_le _ _)) in H by done. simpl in H, Ed. congruence.
Qed.

Lemma rle_decompress_spec_witness :
  rle_decompress [5; 1; 2] 100 [9] = Ok (kMalformed, [9]) /\
  exists st k, rle_decompress [5; 1; 2] 100 [9] = Ok (st, [9] ++ k) /\ (length k <= 99)%nat.
Proof.
  split; [reflexivity|].
  destruct (rle_decompress_spec [5; 1; 2] [9] 100) as (st & k & H & Hc & _).
  - apply (bool_decide_unpack _); by vm_compute.
  - exists st, k. split; [exact H|]. destruct Hc as [-> | Hc]; simpl in *; lia.
Defined.
