(* ===== verification/Reassembler.v ===== *)
(** * Reassembler: from DATA frames to messages

    [src/streamcodec/reassembler.cpp]. Partial messages live in a vector
    ([store]) with a map ([index]) from keys to slots. Accesses [store_[i]] and
    iterator ranges are kept as accesses that may be undefined. The specification
    is a map from keys to the fragments received so far. *)

From S2P Require Import Prelude Status ByteIO OrdMap Frame.

Record Message := MkMessage {
  m_stream_id : Z;
  m_msg_id : Z;
  m_compressed : bool;
  m_data : bytes;
}.

Abbreviation span := (Z * Z)%type.

Record PartialMessage := MkPartial {
  pm_stream_id : Z;
  pm_msg_id : Z;
  pm_buffer : bytes;
  pm_ranges : list span;
  pm_high_water : Z;
  pm_total_len : Z;
  pm_have_fin : bool;
  pm_compressed : bool;
}.

#[export] Instance Message_eq_dec : EqDecision Message.
Proof. solve_decision. Defined.
#[export] Instance PartialMessage_eq_dec : EqDecision PartialMessage.
Proof. solve_decision. Defined.

Abbreviation Key := (Z * Z)%type.

Record Reassembler := MkReassembler {
  store : list PartialMessage;
  index : gmap Key nat;
}.

Definition new_reassembler : Reassembler := MkReassembler [] ∅.

(** The coalescing loop; [merged] is kept newest first, so its head is [back()]. *)
Fixpoint coalesce (merged spans : list span) : list span :=
  match spans with
  | [] => rev merged
  | sp :: spans' =>
      match merged with
      | back :: rest =>
          if sp.1 <=? back.2
          then coalesce ((back.1, Z.max back.2 sp.2) :: rest) spans'
          else coalesce (sp :: merged) spans'
      | [] => coalesce [sp] spans'
      end
  end.

Definition add_range (p : PartialMessage) (b e : Z) : PartialMessage :=
  if e <=? b then p
  else MkPartial (pm_stream_id p) (pm_msg_id p) (pm_buffer p)
         (coalesce [] (merge_sort key_le (pm_ranges p ++ [(b, e)])))
         (pm_high_water p) (pm_total_len p) (pm_have_fin p) (pm_compressed p).

Definition is_complete (p : PartialMessage) : bool :=
  if negb (pm_have_fin p) then false
  else if pm_total_len p =? 0 then true
  else match pm_ranges p with
       | [sp] => (sp.1 =? 0) && (pm_total_len p <=? sp.2)
       | _ => false
       end.

Definition fresh_partial (stream_id msg_id : Z) : PartialMessage :=
  MkPartial stream_id msg_id [] [] 0 0 false false.

Definition slot_for (R : Reassembler) (key : Key) (stream_id msg_id : Z) : nat * Reassembler :=
  match index R !! key with
  | Some idx => (idx, R)
  | None =>
      let store' := store R ++ [fresh_partial stream_id msg_id] in
      let idx := (length store' - 1)%nat in
      (idx, MkReassembler store' (<[key := idx]> (index R)))
  end.

Definition pm_key (p : PartialMessage) : Key := (pm_stream_id p, pm_msg_id p).

(** [store_[i] = std::move(..)]: undefined outside the vector. *)
Definition store_set (s : list PartialMessage) (i : nat) (p : PartialMessage)
    : outcome (list PartialMessage) :=
  if (i <? length s)%nat then Ok (<[i := p]> s) else UB.

Definition remove_slot (R : Reassembler) (idx : nat) (key : Key) : outcome Reassembler :=
  let ix := delete key (index R) in
  let last := (length (store R) - 1)%nat in
  let? R := (if negb (idx =? last)%nat then
               let? tail := at_idx (store R) last in
               let? s := store_set (store R) idx tail in
               let? q := at_idx s idx in
               Ok (MkReassembler s (<[pm_key q := idx]> ix))
             else Ok (MkReassembler (store R) ix)) in
  Ok (MkReassembler (removelast (store R)) (index R)).

(** [std::copy_n] into the buffer: undefined when it leaves it. *)
Definition copy_into (buf : bytes) (at_ : nat) (src : bytes) : outcome bytes :=
  if (at_ + length src <=? length buf)%nat
  then Ok (take at_ buf ++ src ++ drop (at_ + length src) buf) else UB.

(** [buffer.resize(end)] when it is too short. *)
Definition grow (buf : bytes) (e : Z) : bytes :=
  if Z.of_nat (length buf) <? e
  then buf ++ replicate (Z.to_nat e - length buf) 0 else buf.

Definition place (buf payload : bytes) (b e : Z) : outcome bytes :=
  let buf := grow buf e in
  let size := Z.of_nat (length buf) in
  if negb (length payload =? 0)%nat && (b <? size) then
    let n := Z.min (Z.of_nat (length payload)) (size - b) in
    copy_into buf (Z.to_nat b) (take (Z.to_nat n) payload)
  else Ok buf.

Definition frame_begin (f : Frame) : Z := if frag f then f_frag_offset f else 0.
Definition frame_end (f : Frame) : Z :=
  u32 (Z.min (u64 (frame_begin f + Z.of_nat (length (f_payload f)))) 0xFFFFFFFF).

Definition accept_data (R : Reassembler) (f : Frame) : outcome (option Message * Reassembler) :=
  let key := (f_stream_id f, f_msg_id f) in
  let '(idx, R) := slot_for R key (f_stream_id f) (f_msg_id f) in
  let? p := at_idx (store R) idx in
  let comp := if compressed f then true else pm_compressed p in
  let b := frame_begin f in
  let e := frame_end f in
  let? buf := place (pm_buffer p) (f_payload f) b e in
  let p := MkPartial (pm_stream_id p) (pm_msg_id p) buf (pm_ranges p) (pm_high_water p)
             (pm_total_len p) (pm_have_fin p) comp in
  let p := add_range p b e in
  let hw := Z.max (pm_high_water p) e in
  let p := MkPartial (pm_stream_id p) (pm_msg_id p) (pm_buffer p) (pm_ranges p) hw
             (if fin f then hw else pm_total_len p) (if fin f then true else pm_have_fin p)
             (pm_compressed p) in
  let R := MkReassembler (<[idx := p]> (store R)) (index R) in
  if negb (is_complete p) then Ok (None, R)
  else
    let? data := copy_range (pm_buffer p) 0 (Z.to_nat (pm_total_len p)) in
    let msg := MkMessage (f_stream_id f) (f_msg_id f) (pm_compressed p) data in
    let? R := remove_slot R idx key in
    Ok (Some msg, R).

(** The compaction loop of [reset_stream]: the position [i], the first hole (if
    any), and what is kept. *)
Fixpoint reset_loop (stream_id : Z) (s : list PartialMessage) (i : nat) (hole : option nat)
    (ix : gmap Key nat) (kept : list PartialMessage) (dropped : nat)
    : option nat * gmap Key nat * list PartialMessage * nat :=
  match s with
  | [] => (hole, ix, kept, dropped)
  | p :: s' =>
      if pm_stream_id p =? stream_id then
        let hole := match hole with None => Some i | Some h => Some h end in
        reset_loop stream_id s' (S i) hole (delete (pm_key p) ix) kept (S dropped)
      else reset_loop stream_id s' (S i) hole ix (kept ++ [p]) dropped
  end.

Definition reset_stream (R : Reassembler) (stream_id : Z) : nat * Reassembler :=
  let '(hole, ix, kept, dropped) := reset_loop stream_id (store R) 0 None (index R) [] 0 in
  let ix := match hole with
            | Some first_hole =>
                (fun pos => if (first_hole <? pos)%nat then (pos - 1)%nat else pos) <$> ix
            | None => ix
            end in
  (dropped, MkReassembler kept ix).

Definition in_flight (R : Reassembler) : nat := length (store R).

(** ** Specification: the fragments of one message *)

Definition frame_key (f : Frame) : Key := (f_stream_id f, f_msg_id f).
Definition covers (f : Frame) (x : Z) : Prop := frame_begin f <= x < frame_end f.
Definition covered (fs : list Frame) (x : Z) : Prop := Exists (fun f => covers f x) fs.

(** The byte at [x]: from the last fragment that covers it. *)
Definition overlay (fs : list Frame) (x : Z) : Z :=
  foldl (fun acc f =>
    if (frame_begin f <=? x) && (x <? frame_end f)
    then default 0 (f_payload f !! Z.to_nat (x - frame_begin f)) else acc) 0 fs.

Definition spec_high (fs : list Frame) : Z := foldl (fun h f => Z.max h (frame_end f)) 0 fs.

(** The highest end seen when the last FIN arrived. *)
Fixpoint spec_total_from (h t : Z) (fs : list Frame) : Z :=
  match fs with
  | [] => t
  | f :: fs' => let h := Z.max h (frame_end f) in
                spec_total_from h (if fin f then h else t) fs'
  end.
Definition spec_total (fs : list Frame) : Z := spec_total_from 0 0 fs.

(** Complete: FIN seen, and the bytes received are exactly an initial segment at
    least as long as the total (or nothing is needed). *)
Definition spec_complete (fs : list Frame) : Prop :=
  existsb fin fs = true /\
  (spec_total fs = 0 \/
   exists e, spec_total fs <= e /\ forall x, covered fs x <-> 0 <= x < e).

Definition spec_message (fs : list Frame) (key : Key) (m : Message) : Prop :=
  m_stream_id m = key.1 /\ m_msg_id m = key.2 /\ m_compressed m = existsb compressed fs /\
  Z.of_nat (length (m_data m)) = spec_total fs /\
  forall x, 0 <= x < spec_total fs -> m_data m !! Z.to_nat x = Some (overlay fs x).

Lemma spec_total_snoc h t fs f :
  spec_total_from h t (fs ++ [f]) =
  if fin f then Z.max (foldl (fun h f => Z.max h (frame_end f)) h fs) (frame_end f)
  else spec_total_from h t fs.
Proof. revert h t. induction fs as [|g fs IH]; intros h t; simpl; [done|apply IH]. Qed.

(** ** Ranges *)

(** Sorted, non-empty and separated spans. *)
Definition canon (l : list span) : Prop :=
  StronglySorted (fun a b => a.2 < b.1) l /\ Forall (fun a => a.1 < a.2) l.
Definition in_ranges (l : list span) (x : Z) : Prop := Exists (fun s => s.1 <= x < s.2) l.

Lemma in_ranges_app l k x : in_ranges (l ++ k) x <-> in_ranges l x \/ in_ranges k x.
Proof. apply Exists_app. Qed.
Lemma in_ranges_cons s l x : in_ranges (s :: l) x <-> s.1 <= x < s.2 \/ in_ranges l x.
Proof. apply Exists_cons. Qed.
Lemma in_ranges_nil x : in_ranges [] x <-> False.
Proof. apply Exists_nil. Qed.

Lemma in_ranges_perm l k x : l ≡ₚ k -> in_ranges l x <-> in_ranges k x.
Proof. intros H. unfold in_ranges. by rewrite H. Qed.

Lemma canon_snoc l s : canon (l ++ [s]) <-> canon l /\ s.1 < s.2 /\ Forall (fun a => a.2 < s.1) l.
Proof.
  unfold canon. rewrite StronglySorted_app, Forall_app, !Forall_singleton. split.
  - intros [(H1 & H2 & H3) [H4 H5]]. split_and!; try done. apply Forall_forall.
    intros a Ha. apply H1; [done|by left].
  - intros [[H1 H2] [H3 H4]]. rewrite Forall_forall in H4. split_and!; try done.
    + intros a b Ha ->%list_elem_of_singleton. by apply H4.
    + repeat constructor.
Qed.

(** The loop keeps [rev merged] canonical and loses no position. *)
Lemma coalesce_spec merged spans :
  canon (rev merged) -> StronglySorted key_le spans -> Forall (fun a => a.1 < a.2) spans ->
  (match merged with [] => True | back :: _ => Forall (fun s => back.1 <= s.1) spans end) ->
  canon (coalesce merged spans) /\
  forall x, in_ranges (coalesce merged spans) x <-> in_ranges merged x \/ in_ranges spans x.
Proof.
  revert merged. induction spans as [|sp spans IH]; intros merged Hc Hs Hn Hb.
  { simpl. split; [done|]. intros x. rewrite in_ranges_nil, (in_ranges_perm (rev merged) merged).
    - tauto.
    - apply Permutation_sym, Permutation_rev. }
  apply StronglySorted_inv in Hs as [Hs Hle]. apply Forall_cons in Hn as [Hsp Hn].
  assert (Hle' : Forall (fun s => sp.1 <= s.1) spans).
  { eapply Forall_impl; [exact Hle|]. intros s. unfold key_le, pair_key. lia. }
  cbn [coalesce]. destruct merged as [|back rest].
  - destruct (IH [sp]) as [H1 H2]; [|done..|].
    { split; [repeat constructor|by repeat constructor]. }
    split; [done|]. intros x. rewrite H2, !in_ranges_cons, in_ranges_nil. tauto.
  - cbn [rev] in Hc. apply canon_snoc in Hc as (Hc & Hbk & Hlt).
    apply Forall_cons in Hb as [Hb1 Hb2]. case_bool; reflect_bools.
    + destruct (IH ((back.1, Z.max back.2 sp.2) :: rest)) as [H1 H2]; [|done..|].
      { cbn [rev]. apply canon_snoc. simpl. split_and!; [done|lia|done]. }
      split; [done|]. intros x. rewrite H2, !in_ranges_cons. simpl. split; [|intuition lia].
      intros [[?|?]|?]; [|tauto..]. destruct (Z.lt_ge_cases x back.2); [tauto|].
      right. left. lia.
    + destruct (IH (sp :: back :: rest)) as [H1 H2]; [|done..|].
      { cbn [rev]. apply canon_snoc. split_and!; [|done|].
        - by apply canon_snoc.
        - apply Forall_app_2; [|by constructor]. eapply Forall_impl; [exact Hlt|].
          simpl. intros a Ha. lia. }
      split; [done|]. intros x. rewrite H2, !in_ranges_cons. tauto.
Qed.

Lemma add_range_spec p b e :
  canon (pm_ranges p) ->
  canon (pm_ranges (add_range p b e)) /\
  forall x, in_ranges (pm_ranges (add_range p b e)) x <-> in_ranges (pm_ranges p) x \/ b <= x < e.
Proof.
  intros Hc. unfold add_range. case_bool; reflect_bools.
  { split; [done|]. intros x. split; [tauto|]. intros [?|?]; [done|lia]. }
  cbn [pm_ranges].
  destruct (coalesce_spec [] (merge_sort key_le (pm_ranges p ++ [(b, e)]))) as [H1 H2].
  - split; constructor.
  - apply StronglySorted_merge_sort; apply _.
  - rewrite merge_sort_Permutation. apply Forall_app_2; [apply Hc|]. by repeat constructor.
  - done.
  - split; [done|]. intros x. rewrite H2, in_ranges_nil.
    rewrite (in_ranges_perm _ _ x (merge_sort_Permutation key_le (pm_ranges p ++ [(b, e)]))).
    rewrite in_ranges_app, in_ranges_cons, in_ranges_nil. simpl. tauto.
Qed.

(** Full coverage means a single span from zero. *)
Lemma canon_initial l n : canon l -> 0 < n ->
  (exists e, n <= e /\ forall x, in_ranges l x <-> 0 <= x < e) <-> exists s, l = [s] /\ s.1 = 0 /\ n <= s.2.
Proof.
  intros [Hs Hne] Hn. split.
  - intros (e & He & Hx). destruct l as [|s l].
    { assert (in_ranges [] 0) by (apply Hx; lia). by apply in_ranges_nil in H. }
    apply StronglySorted_inv in Hs as [_ Hlt]. apply Forall_cons in Hne as [Hs1 Hne].
    assert (H1 : 0 <= s.1 < e). { apply Hx, in_ranges_cons. lia. }
    assert (Hr : forall x, in_ranges l x -> s.2 < x).
    { intros x (r & Hr & ?)%Exists_exists. rewrite Forall_forall in Hlt. specialize (Hlt r Hr). lia. }
    assert (H0 : s.1 = 0).
    { assert (H0 : in_ranges (s :: l) 0) by (apply Hx; lia).
      apply in_ranges_cons in H0 as [?|H0]; [lia|]. apply Hr in H0. lia. }
    assert (Hend : e <= s.2).
    { destruct (Z.le_gt_cases e s.2); [done|].
      assert (Hm : in_ranges (s :: l) s.2) by (apply Hx; lia).
      apply in_ranges_cons in Hm as [?|Hm]; [lia|]. apply Hr in Hm. lia. }
    destruct l as [|r l]; [exists s; split_and!; done || lia|]. exfalso.
    apply Forall_cons in Hlt as [Hlt _]. apply Forall_cons in Hne as [Hr1 _].
    assert (Hin : in_ranges (s :: r :: l) r.1) by (rewrite !in_ranges_cons; lia).
    apply Hx in Hin. lia.
  - intros (s & -> & H0 & H1). exists s.2. split; [done|]. intros x.
    rewrite in_ranges_cons, in_ranges_nil. lia.
Qed.

(** ** One fragment *)

Definition kMax32 : Z := 0xFFFFFFFF.

Lemma frame_end_min f : frame_ok f ->
  frame_end f = Z.min (frame_begin f + Z.of_nat (length (f_payload f))) kMax32 /\
  0 <= frame_begin f <= frame_end f.
Proof.
  intros (_ & _ & _ & _ & Ho & _ & Hl & Hw & _). unfold frame_end, frame_begin, kMax32.
  unfold is_u32, is_u16, u32, u64 in *.
  assert (0 <= (if frag f then f_frag_offset f else 0) < 2 ^ 32) by (destruct (frag f); lia).
  rewrite (Z.mod_small _ (2 ^ 64)), Z.mod_small by lia. lia.
Qed.

Lemma length_grow buf e : 0 <= e -> Z.of_nat (length (grow buf e)) = Z.max (Z.of_nat (length buf)) e.
Proof.
  intros He. unfold grow. case_bool; reflect_bools; [|lia]. rewrite length_app, length_replicate. lia.
Qed.

Lemma lookup_grow buf e x : 0 <= x < Z.max (Z.of_nat (length buf)) e ->
  grow buf e !! Z.to_nat x = Some (default 0 (buf !! Z.to_nat x)).
Proof.
  intros Hx. unfold grow. destruct (lookup_lt_is_Some (buf : list Z) (Z.to_nat x)) as [_ Hlt].
  destruct (Z.lt_ge_cases x (Z.of_nat (length buf))) as [H|H].
  - destruct Hlt as [v Hv]; [lia|]. rewrite Hv. case_bool; [|done]. by apply lookup_app_l_Some.
  - rewrite (lookup_ge_None_2 buf) by lia. case_bool; reflect_bools; [|lia].
    rewrite lookup_app_r by lia. apply lookup_replicate_2. lia.
Qed.

Lemma lookup_overwrite (buf src : bytes) i x :
  (i + length src <= length buf)%nat ->
  (take i buf ++ src ++ drop (i + length src) buf) !! x =
  if (i <=? x)%nat && (x <? i + length src)%nat then src !! (x - i)%nat else buf !! x.
Proof.
  intros Hl. assert (Hi : length (take i buf) = i) by (rewrite length_take_le; lia).
  destruct (Nat.leb_spec i x) as [H|H]; cbn [andb].
  - rewrite lookup_app_r, Hi by lia. case_bool; reflect_bools.
    + by rewrite lookup_app_l by lia.
    + rewrite lookup_app_r, lookup_drop by lia. f_equal. lia.
  - rewrite lookup_app_l by lia. by rewrite lookup_take_lt by lia.
Qed.

Lemma place_spec buf f :
  frame_ok f -> Z.of_nat (length buf) <= kMax32 ->
  exists buf', place buf (f_payload f) (frame_begin f) (frame_end f) = Ok buf' /\
    Z.of_nat (length buf') = Z.max (Z.of_nat (length buf)) (frame_end f) /\
    forall x, 0 <= x < Z.max (Z.of_nat (length buf)) (frame_end f) ->
      buf' !! Z.to_nat x =
      Some (if (frame_begin f <=? x) && (x <? frame_end f)
            then default 0 (f_payload f !! Z.to_nat (x - frame_begin f))
            else default 0 (buf !! Z.to_nat x)).
Proof.
  intros Hf Hh. destruct (frame_end_min f Hf) as [He Hb]. unfold place.
  pose proof (length_grow buf (frame_end f) ltac:(lia)) as Hg.
  set (p := f_payload f) in *. set (b := frame_begin f) in *. set (e := frame_end f) in *.
  destruct (negb (length p =? 0)%nat && (b <? Z.of_nat (length (grow buf e)))) eqn:Ec.
  - apply andb_prop in Ec as [Ep Eb]. apply negb_true_iff in Ep. reflect_bools.
    set (n := Z.to_nat (Z.min _ _)).
    assert (Hlen : length (take n p) = n) by (rewrite length_take_le; lia).
    assert (Hn : Z.of_nat n = e - b) by (unfold kMax32 in *; lia).
    unfold copy_into. rewrite (proj2 (Nat.leb_le _ _)) by lia. eexists. split; [done|].
    split.
    { rewrite !length_app, length_take_le, length_drop by lia. lia. }
    intros x Hx. rewrite lookup_overwrite by lia. rewrite Hlen.
    destruct (Z.leb_spec b x); destruct (Z.ltb_spec x e); cbn [andb].
    + rewrite (proj2 (Nat.leb_le _ _)), (proj2 (Nat.ltb_lt _ _)) by lia. cbn [andb].
      rewrite lookup_take_lt by lia. replace (Z.to_nat x - Z.to_nat b)%nat with (Z.to_nat (x - b)) by lia.
      destruct (lookup_lt_is_Some_2 p (Z.to_nat (x - b))) as [v ->]; [lia|done].
    + rewrite (proj2 (Nat.ltb_ge _ _)), andb_false_r by lia. by apply lookup_grow.
    + rewrite (proj2 (Nat.leb_gt _ _)) by lia. by apply lookup_grow.
    + rewrite (proj2 (Nat.leb_gt _ _)) by lia. by apply lookup_grow.
  - exists (grow buf e). split; [done|]. split; [done|]. intros x Hx.
    rewrite lookup_grow by done.
    destruct (Z.leb_spec b x); destruct (Z.ltb_spec x e); cbn [andb]; try done.
    apply andb_false_iff in Ec as [Ec|Ec]; [apply negb_false_iff in Ec|]; reflect_bools; lia.
Qed.

(** [p] holds what the fragments [fs], in order of arrival, amount to. *)
Record pm_rep (fs : list Frame) (p : PartialMessage) : Prop := {
  rep_canon : canon (pm_ranges p);
  rep_ranges : forall x, in_ranges (pm_ranges p) x <-> covered fs x;
  rep_high : pm_high_water p = spec_high fs;
  rep_len : Z.of_nat (length (pm_buffer p)) = spec_high fs;
  rep_bytes : forall x, 0 <= x < spec_high fs -> pm_buffer p !! Z.to_nat x = Some (overlay fs x);
  rep_fin : pm_have_fin p = existsb fin fs;
  rep_total : pm_total_len p = spec_total fs;
  rep_comp : pm_compressed p = existsb compressed fs;
}.

Lemma fresh_rep id msg : pm_rep [] (fresh_partial id msg).
Proof.
  split; cbn; try done; [by split; constructor| |lia].
  intros x. split; intros H; by apply Exists_nil in H.
Qed.

Lemma spec_high_bounds fs : Forall frame_ok fs -> 0 <= spec_high fs <= kMax32.
Proof.
  unfold spec_high. induction fs as [|f fs IH] using rev_ind; intros Hf; [by unfold kMax32|].
  apply Forall_app in Hf as [Hf Hx%Forall_inv]. rewrite foldl_app. simpl.
  specialize (IH Hf). destruct (frame_end_min f Hx). lia.
Qed.

Lemma spec_total_bounds fs : Forall frame_ok fs -> 0 <= spec_total fs <= spec_high fs.
Proof.
  unfold spec_high, spec_total. induction fs as [|f fs IH] using rev_ind; intros Hf; [done|].
  apply Forall_app in Hf as [Hf Hx%Forall_inv]. rewrite spec_total_snoc, foldl_app. simpl.
  specialize (IH Hf). destruct (frame_end_min f Hx). case_match; lia.
Qed.

Lemma existsb_snoc {A} (g : A -> bool) l x : existsb g (l ++ [x]) = if g x then true else existsb g l.
Proof. rewrite existsb_app. simpl. destruct (g x), (existsb g l); done. Qed.

Lemma covered_snoc fs f x : covered (fs ++ [f]) x <-> covered fs x \/ covers f x.
Proof. unfold covered. rewrite Exists_app, Exists_cons, Exists_nil. tauto. Qed.

Lemma overlay_beyond fs x : spec_high fs <= x -> overlay fs x = 0.
Proof.
  unfold spec_high, overlay. induction fs as [|f fs IH] using rev_ind; [done|].
  rewrite !foldl_app. simpl. intros Hx. rewrite (proj2 (Z.ltb_ge _ _)), andb_false_r by lia.
  apply IH. lia.
Qed.

(** The update of a partial message, as [accept_data] performs it. *)
Definition partial_step (p : PartialMessage) (f : Frame) (buf : bytes) : PartialMessage :=
  let p1 := add_range (MkPartial (pm_stream_id p) (pm_msg_id p) buf (pm_ranges p)
              (pm_high_water p) (pm_total_len p) (pm_have_fin p)
              (if compressed f then true else pm_compressed p)) (frame_begin f) (frame_end f) in
  let hw := Z.max (pm_high_water p1) (frame_end f) in
  MkPartial (pm_stream_id p1) (pm_msg_id p1) (pm_buffer p1) (pm_ranges p1) hw
    (if fin f then hw else pm_total_len p1) (if fin f then true else pm_have_fin p1)
    (pm_compressed p1).

Lemma add_range_other p b e :
  let q := add_range p b e in
  pm_stream_id q = pm_stream_id p /\ pm_msg_id q = pm_msg_id p /\ pm_buffer q = pm_buffer p /\
  pm_high_water q = pm_high_water p /\ pm_total_len q = pm_total_len p /\
  pm_have_fin q = pm_have_fin p /\ pm_compressed q = pm_compressed p.
Proof. unfold add_range. by case_bool. Qed.

Lemma partial_step_rep fs p f :
  Forall frame_ok fs -> frame_ok f -> pm_rep fs p ->
  exists buf, place (pm_buffer p) (f_payload f) (frame_begin f) (frame_end f) = Ok buf /\
    pm_rep (fs ++ [f]) (partial_step p f buf) /\ pm_key (partial_step p f buf) = pm_key p.
Proof.
  intros Hfs Hf Hrep. destruct (spec_high_bounds fs Hfs) as [Hh0 Hh].
  destruct (place_spec (pm_buffer p) f Hf) as (buf & Hbuf & Hlen & Hbytes).
  { by rewrite (rep_len fs p Hrep). }
  exists buf. split; [done|]. unfold partial_step.
  match goal with |- context [add_range ?q ?b ?e] =>
    pose proof (add_range_other q b e) as (E1 & E2 & E3 & E4 & E5 & E6 & E7);
    destruct (add_range_spec q b e (rep_canon fs p Hrep)) as [Hcan Hin];
    set (p1 := add_range q b e) in *
  end. cbn [pm_stream_id pm_msg_id pm_buffer pm_ranges pm_high_water pm_total_len pm_have_fin
    pm_compressed] in *.
  assert (Hsh : spec_high (fs ++ [f]) = Z.max (spec_high fs) (frame_end f)).
  { unfold spec_high. by rewrite foldl_app. }
  rewrite (rep_len fs p Hrep) in Hlen, Hbytes.
  split; [split|unfold pm_key; simpl; congruence];
    cbn [pm_buffer pm_ranges pm_high_water pm_total_len pm_have_fin pm_compressed].
  - done.
  - intros x. rewrite Hin, covered_snoc, (rep_ranges fs p Hrep). done.
  - rewrite E4, Hsh, (rep_high fs p Hrep). done.
  - rewrite E3, Hsh. done.
  - intros x Hx. rewrite E3. rewrite Hsh in Hx. rewrite Hbytes by done.
    unfold overlay. rewrite foldl_app. cbn [foldl]. f_equal. case_bool; [done|].
    fold (overlay fs x). destruct (Z.lt_ge_cases x (spec_high fs)).
    + rewrite (rep_bytes fs p Hrep) by lia. done.
    + rewrite lookup_ge_None_2 by (pose proof (rep_len fs p Hrep); lia).
      by rewrite overlay_beyond by done.
  - rewrite E6, existsb_snoc, (rep_fin fs p Hrep). done.
  - rewrite E4, E5. unfold spec_total. rewrite spec_total_snoc, (rep_high fs p Hrep).
    fold (spec_high fs). fold (spec_total fs). by rewrite (rep_total fs p Hrep).
  - rewrite E7, existsb_snoc, (rep_comp fs p Hrep). done.
Qed.

(** ** Store and index *)

(** The index maps exactly the keys of the store to their slots. *)
Definition wf (R : Reassembler) : Prop :=
  forall key idx, index R !! key = Some idx <-> exists p, store R !! idx = Some p /\ pm_key p = key.

Definition partial_of (R : Reassembler) (key : Key) : option PartialMessage :=
  index R !! key ≫= fun idx => store R !! idx.

Lemma wf_new : wf new_reassembler.
Proof. intros key idx. simpl. rewrite lookup_empty. split; [done|]. by intros (p & ? & _). Qed.

Lemma partial_of_Some R key p : wf R ->
  partial_of R key = Some p <-> exists idx, index R !! key = Some idx /\ store R !! idx = Some p.
Proof. intros Hwf. unfold partial_of. rewrite bind_Some. done. Qed.

Lemma partial_of_None R key : wf R -> partial_of R key = None <-> index R !! key = None.
Proof.
  intros Hwf. unfold partial_of. destruct (index R !! key) as [i|] eqn:Ei; simpl; [|done].
  apply Hwf in Ei as (p & -> & _). done.
Qed.

Lemma wf_key R key idx p : wf R -> index R !! key = Some idx -> store R !! idx = Some p -> pm_key p = key.
Proof. intros Hwf Hi Hp. apply Hwf in Hi as (q & Hq & Hk). congruence. Qed.

Lemma wf_inj R k1 k2 idx : wf R -> index R !! k1 = Some idx -> index R !! k2 = Some idx -> k1 = k2.
Proof. intros Hwf (p & Hp & <-)%Hwf (q & Hq & <-)%Hwf. congruence. Qed.

Lemma slot_for_spec R id msg : wf R ->
  let '(idx, R') := slot_for R (id, msg) id msg in
  wf R' /\ index R' !! (id, msg) = Some idx /\
  store R' !! idx = Some (default (fresh_partial id msg) (partial_of R (id, msg))) /\
  forall k, k <> (id, msg) -> partial_of R' k = partial_of R k.
Proof.
  intros Hwf. unfold slot_for, partial_of. destruct (index R !! (id, msg)) as [idx|] eqn:Ei.
  - split_and!; try done. simpl. pose proof Ei as (p & Hp & _)%Hwf. by rewrite Hp.
  - cbn [store index]. rewrite length_app. simpl. rewrite Nat.add_sub.
    assert (Hlt : forall k i, index R !! k = Some i -> (i < length (store R))%nat).
    { intros k i (p & Hp & _)%Hwf. by eapply lookup_lt_Some. }
    split_and!.
    + intros k i. cbn [store index]. rewrite lookup_insert_Some, (Hwf _ _). split.
      * intros [[<- <-] | [Hne (p & Hp & Hk)]].
        -- exists (fresh_partial id msg). split; [by rewrite list_lookup_middle|done].
        -- exists p. split; [by apply lookup_app_l_Some|done].
      * intros (p & [Hp|[Hi Hp]]%lookup_app_Some & Hk).
        -- right. split; [|by eauto]. intros <-. assert (index R !! (id, msg) = Some i)
             by (apply Hwf; eauto). congruence.
        -- left. apply list_lookup_singleton_Some in Hp as [Hi0 <-]. split; [done|lia].
    + by rewrite lookup_insert_eq.
    + by rewrite list_lookup_middle.
    + intros k Hk. rewrite lookup_insert_ne by done.
      destruct (index R !! k) as [i|] eqn:Ek; simpl; [|done].
      rewrite lookup_app_l; [done|by eapply Hlt].
Qed.

Lemma set_slot_spec R key idx p : wf R -> index R !! key = Some idx -> pm_key p = key ->
  let R' := MkReassembler (<[idx := p]> (store R)) (index R) in
  wf R' /\ index R' !! key = Some idx /\ store R' !! idx = Some p /\
  forall k, k <> key -> partial_of R' k = partial_of R k.
Proof.
  intros Hwf Hi Hk. pose proof Hi as (q & Hq & Hqk)%Hwf.
  pose proof (lookup_lt_Some _ _ _ Hq) as Hlt. cbn [store index]. split_and!.
  - intros k i. cbn [store index]. rewrite (Hwf _ _). split; intros (r & Hr & Hrk).
    + destruct (decide (i = idx)) as [->|Hne].
      * exists p. rewrite list_lookup_insert_eq by done. split; [done|congruence].
      * exists r. by rewrite list_lookup_insert_ne.
    + destruct (decide (i = idx)) as [->|Hne].
      * rewrite list_lookup_insert_eq in Hr by done. exists q. split; [done|congruence].
      * rewrite list_lookup_insert_ne in Hr by done. by exists r.
  - done.
  - by rewrite list_lookup_insert_eq.
  - intros k Hne. unfold partial_of. cbn [store index].
    destruct (index R !! k) as [i|] eqn:Ek; simpl; [|done].
    rewrite list_lookup_insert_ne; [done|]. intros ->.
    by apply Hne, (wf_inj R k key i).
Qed.

Lemma lookup_removelast {A} (l : list A) i : removelast l !! i =
  if decide (i < length l - 1)%nat then l !! i else None.
Proof.
  destruct l as [|x l _] using rev_ind; [by rewrite decide_False by (simpl; lia)|].
  rewrite removelast_last, length_app. simpl. rewrite Nat.add_sub. case_decide.
  - by rewrite lookup_app_l.
  - apply lookup_ge_None_2. lia.
Qed.

(** What is left when the slot [idx] of [key] is removed and the last message [t] of the
    store takes its place. *)
Definition removed (R : Reassembler) (key : Key) (idx : nat) (t : PartialMessage) : Reassembler :=
  let last := (length (store R) - 1)%nat in
  MkReassembler (removelast (if (idx =? last)%nat then store R else <[idx := t]> (store R)))
    (if (idx =? last)%nat then delete key (index R) else <[pm_key t := idx]> (delete key (index R))).

Lemma remove_slot_result R key idx : wf R -> index R !! key = Some idx ->
  exists t, index R !! pm_key t = Some (length (store R) - 1)%nat /\ store R !! (length (store R) - 1)%nat = Some t /\
    remove_slot R idx key = Ok (removed R key idx t).
Proof.
  intros Hwf Hi. pose proof Hi as (p & Hp & Hpk)%Hwf. pose proof (lookup_lt_Some _ _ _ Hp) as Hlt.
  destruct (at_idx_ok (store R) (length (store R) - 1)) as (t & Ht & Eat); [lia|]. exists t.
  split; [apply Hwf; eauto|]. split; [done|]. unfold remove_slot, removed. rewrite Eat. cbn [obind].
  unfold store_set. rewrite (proj2 (Nat.ltb_lt _ _)) by done. cbn [obind].
  unfold at_idx. rewrite list_lookup_insert_eq by done. cbn [obind]. by destruct (_ =? _)%nat.
Qed.

Section removed.
Context (R : Reassembler) (key : Key) (idx : nat) (t : PartialMessage).
Let last := (length (store R) - 1)%nat.
Hypothesis Hwf : wf R.
Hypothesis Hi : index R !! key = Some idx.
Hypothesis Htk : index R !! pm_key t = Some last.

Lemma removed_index k : index (removed R key idx t) !! k =
  if decide (k = key) then None else if decide (k = pm_key t) then Some idx else index R !! k.
Proof.
  unfold removed. cbn [index]. fold last. destruct (Nat.eqb_spec idx last) as [El|El].
  - assert (pm_key t = key) by (apply (wf_inj R _ _ last Hwf); congruence). destruct (decide (k = key)) as [->|Hne].
    + apply lookup_delete_eq.
    + rewrite lookup_delete_ne by done. by rewrite decide_False by congruence.
  - assert (pm_key t <> key) by congruence. destruct (decide (k = key)) as [->|Hne].
    + rewrite lookup_insert_ne by done. apply lookup_delete_eq.
    + destruct (decide (k = pm_key t)) as [->|Hne2]; [by rewrite lookup_insert_eq|].
      by rewrite lookup_insert_ne, lookup_delete_ne by done.
Qed.

Lemma removed_store i : store (removed R key idx t) !! i =
  if decide (i < last)%nat then if decide (i = idx) then Some t else store R !! i else None.
Proof.
  pose proof Hi as (p & Hp & _)%Hwf. pose proof (lookup_lt_Some _ _ _ Hp).
  unfold removed. cbn [store]. rewrite lookup_removelast. fold last. destruct (Nat.eqb_spec idx last) as [El|El];
    rewrite ?length_insert; fold last; case_decide; try done.
  - by rewrite decide_False by lia.
  - case_decide; subst; [by rewrite list_lookup_insert_eq|by rewrite list_lookup_insert_ne].
Qed.

(** A message with another key keeps its slot, unless it was the last one. *)
Lemma kept_slot k i : k <> key -> k <> pm_key t -> index R !! k = Some i -> (i < last)%nat /\ i <> idx.
Proof.
  intros Hk Hkt Ek. pose proof Ek as (q & Hq & _)%Hwf. pose proof (lookup_lt_Some _ _ _ Hq).
  assert (i <> last) by (intros ->; by pose proof (wf_inj R _ _ _ Hwf Htk Ek)).
  assert (i <> idx) by (intros ->; by pose proof (wf_inj R _ _ _ Hwf Hi Ek)). split; [lia|done].
Qed.

Lemma removed_wf : wf (removed R key idx t).
Proof.
  intros k i. rewrite removed_index, removed_store. split.
  - destruct (decide (k = key)); [done|]. destruct (decide (k = pm_key t)) as [->|Hkt].
    + intros [= <-]. exists t. assert (idx <> last) by (intros ->; by pose proof (wf_inj R _ _ _ Hwf Htk Hi)).
      pose proof Hi as (p & Hp & _)%Hwf. pose proof (lookup_lt_Some _ _ _ Hp).
      rewrite decide_True by lia. by rewrite decide_True.
    + intros Ek. destruct (kept_slot k i) as [Hl Hne]; [done..|]. pose proof Ek as (q & Hq & Hqk)%Hwf.
      exists q. rewrite decide_True by done. by rewrite decide_False.
  - intros (q & Hq & Hqk). destruct (decide (i < last)%nat) as [Hil|]; [|done].
    destruct (decide (i = idx)) as [->|Hii].
    + injection Hq as <-. rewrite decide_False, decide_True; [done..|].
      intros ->. assert (idx = last) by congruence. lia.
    + assert (Ek : index R !! k = Some i) by (apply Hwf; by exists q).
      rewrite !decide_False; [done| |]; intros ->.
      * assert (last = i) by congruence. lia.
      * assert (idx = i) by congruence. done.
Qed.
End removed.

Lemma remove_slot_spec R key idx : wf R -> index R !! key = Some idx ->
  exists R', remove_slot R idx key = Ok R' /\ wf R' /\ partial_of R' key = None /\
    forall k, k <> key -> partial_of R' k = partial_of R k.
Proof.
  intros Hwf Hi. destruct (remove_slot_result R key idx Hwf Hi) as (t & Htk & Ht & E).
  exists (removed R key idx t). split; [done|]. split; [by apply removed_wf|]. unfold partial_of.
  split; [by rewrite removed_index, decide_True|]. intros k Hk. rewrite removed_index, decide_False by done.
  case_decide as Hkt; subst.
  - rewrite Htk. cbn [mbind option_bind]. rewrite removed_store by done. case_decide; [by rewrite decide_True by done|].
    rewrite Ht. pose proof Hi as (p & Hp & _)%Hwf. pose proof (lookup_lt_Some _ _ _ Hp).
    destruct Hk. apply (wf_inj R _ _ (length (store R) - 1) Hwf Htk). rewrite Hi. f_equal. lia.
  - destruct (index R !! k) as [i|] eqn:Ek; cbn [mbind option_bind]; [|done]. rewrite removed_store by done.
    destruct (kept_slot R key idx t Hwf Hi Htk k i) as [Hl Hne]; [done..|].
    rewrite decide_True by done. by rewrite decide_False.
Qed.

(** ** Refinement: the reassembler keeps the fragments of every open message *)

Abbreviation History := (gmap Key (list Frame)).

Definition tracks (H : History) (R : Reassembler) : Prop :=
  wf R /\ map_Forall (fun _ fs => Forall frame_ok fs) H /\
  forall key, match H !! key with
              | Some fs => exists p, partial_of R key = Some p /\ pm_rep fs p
              | None => partial_of R key = None
              end.

Lemma tracks_new : tracks ∅ new_reassembler.
Proof.
  split_and!; [apply wf_new|apply map_Forall_empty|]. intros key. by rewrite lookup_empty.
Qed.

Lemma is_complete_spec fs p : Forall frame_ok fs -> pm_rep fs p ->
  is_complete p = true <-> spec_complete fs.
Proof.
  intros Hfs Hp. destruct (spec_total_bounds fs Hfs) as [Ht _].
  unfold is_complete, spec_complete. rewrite (rep_fin fs p Hp), (rep_total fs p Hp).
  destruct (existsb fin fs); cbn [negb]; [|by split; [|intros [? _]]].
  destruct (Z.eqb_spec (spec_total fs) 0) as [->|Hne]; [by split; auto|].
  assert (Hr : (exists e, spec_total fs <= e /\ forall x, covered fs x <-> 0 <= x < e) <->
    exists s, pm_ranges p = [s] /\ s.1 = 0 /\ spec_total fs <= s.2).
  { rewrite <- canon_initial by (lia || apply (rep_canon fs p Hp)).
    split; intros (e & He & Hx); exists e; (split; [done|]); intros x;
      rewrite <- Hx; [|symmetry]; by rewrite (rep_ranges fs p Hp). }
  rewrite Hr. split.
  - intros Hc. split; [done|right]. destruct (pm_ranges p) as [|s [|]]; try done.
    reflect_bools. by exists s.
  - intros [_ [?|(s & -> & -> & Hs)]]; [done|]. simpl. by apply Z.leb_le.
Qed.

Lemma accept_data_spec H R f :
  tracks H R -> frame_ok f ->
  let key := frame_key f in
  let fs := default [] (H !! key) ++ [f] in
  exists out R', accept_data R f = Ok (out, R') /\
    ((spec_complete fs /\ tracks (delete key H) R' /\
      exists m, out = Some m /\ spec_message fs key m) \/
     (~ spec_complete fs /\ tracks (<[key := fs]> H) R' /\ out = None)).
Proof.
  intros (Hwf & HHok & HH) Hf key fs. pose proof (slot_for_spec R (f_stream_id f) (f_msg_id f) Hwf) as Hs.
  unfold accept_data. destruct (slot_for R _ _ _) as [idx R1]. destruct Hs as (Hwf1 & Hi1 & Hp1 & Ho1).
  change (f_stream_id f, f_msg_id f) with key in *. set (fs0 := default [] (H !! key)) in *.
  set (p := default _ (partial_of R key)) in *.
  assert (Hfs0 : Forall frame_ok fs0).
  { unfold fs0. destruct (H !! key) as [l|] eqn:El; [apply (HHok key l El)|constructor]. }
  assert (Hp : pm_rep fs0 p).
  { unfold fs0, p. specialize (HH key). destruct (H !! key).
    - destruct HH as (q & -> & Hq). done.
    - rewrite HH. apply fresh_rep. }
  assert (Hpk : pm_key p = key) by (by apply (wf_key R1 key idx p)).
  destruct (partial_step_rep fs0 p f Hfs0 Hf Hp) as (buf & Hbuf & Hp' & Hk').
  unfold at_idx. rewrite Hp1. cbn [obind]. rewrite Hbuf. cbn [obind].
  fold (partial_step p f buf). set (p' := partial_step p f buf) in *.
  assert (Hfs : Forall frame_ok fs) by (apply Forall_app_2; [done|by constructor]).
  destruct (set_slot_spec R1 key idx p' Hwf1 Hi1) as (Hwf2 & Hi2 & Hp2 & Ho2); [congruence|].
  set (R2 := MkReassembler _ _) in *.
  pose proof (is_complete_spec fs p' Hfs Hp') as Hc.
  change (MkPartial _ _ _ _ _ _ _ _) with p'. destruct (is_complete p') eqn:Ec; cbn [negb].
  - assert (Htl : 0 <= spec_total fs <= Z.of_nat (length (pm_buffer p'))).
    { rewrite (rep_len fs p' Hp'). by apply spec_total_bounds. }
    unfold copy_range. rewrite (rep_total fs p' Hp'), (proj2 (Nat.leb_le _ _)) by lia. cbn [obind].
    rewrite drop_0.
    destruct (remove_slot_spec R2 key idx Hwf2 Hi2) as (R3 & Hrem & Hwf3 & Hn3 & Ho3).
    rewrite Hrem. cbn [obind]. eexists _, R3. split; [done|]. left. split; [by apply Hc|].
    split; [split_and!; [done|by apply map_Forall_delete|]|].
    + intros k. destruct (decide (k = key)) as [->|Hk]; [by rewrite lookup_delete_eq|].
      rewrite lookup_delete_ne by done. rewrite Ho3, Ho2, Ho1 by done. apply HH.
    + eexists. split; [done|]. split_and!; cbn [m_stream_id m_msg_id m_compressed m_data]; try done.
      * apply (rep_comp fs p' Hp').
      * rewrite length_take_le by lia. lia.
      * intros x Hx. rewrite lookup_take_lt by lia.
        apply (rep_bytes fs p' Hp'). pose proof (spec_total_bounds fs Hfs). lia.
  - eexists _, R2. split; [done|]. right. split; [by rewrite <- Hc|]. split; [|done].
    split_and!; [done|by apply map_Forall_insert_2|].
    intros k. destruct (decide (k = key)) as [->|Hk].
    + rewrite lookup_insert_eq. exists p'. split; [|done]. unfold partial_of.
      rewrite Hi2. exact Hp2.
    + rewrite lookup_insert_ne by done. rewrite Ho2, Ho1 by done. apply HH.
Qed.

(** ** RESET *)

(** *** Positions in a filtered list *)

Section positions.
Context {A} (P : A -> Prop) `{!forall x, Decision (P x)}.

(** The element at [i] lands behind those kept before it. *)
Definition kept_before (i : nat) (s : list A) : nat := length (filter P (take i s)).

Lemma filter_lookup_kept s i x : s !! i = Some x -> P x -> filter P s !! kept_before i s = Some x.
Proof.
  intros Hi Hx. unfold kept_before. assert (filter P s = filter P (take i s ++ x :: drop (S i) s)) as -> by by rewrite (take_drop_middle s i x Hi).
  by rewrite filter_app, lookup_app_r, Nat.sub_diag, filter_cons_True by done.
Qed.

Lemma filter_lookup_inv s j x : filter P s !! j = Some x ->
  exists i, s !! i = Some x /\ P x /\ j = kept_before i s.
Proof.
  unfold kept_before. revert j. induction s as [|y s IH]; intros j; [done|]. rewrite filter_cons. case_decide as Hy.
  - destruct j as [|j]; cbn [lookup list_lookup]; [intros [= ->]; by exists 0%nat|].
    intros (i & Hi & Hx & ->)%IH. exists (S i). cbn [take]. by rewrite filter_cons_True.
  - intros (i & Hi & Hx & ->)%IH. exists (S i). cbn [take]. by rewrite filter_cons_False.
Qed.
End positions.

Lemma filter_split_length {A} (P : A -> Prop) `{!forall x, Decision (P x)} (l : list A) :
  (length (filter P l) + length (filter (fun x => ~ P x) l) = length l)%nat.
Proof.
  induction l as [|x l IH]; [done|]. rewrite !filter_cons. destruct (decide (P x)) as [Hx|Hx].
  - rewrite (decide_False (P := ~ P x)) by tauto. simpl. lia.
  - rewrite decide_True by done. simpl. lia.
Qed.

(** The messages of a stream that are open. *)
Definition open_on (id : Z) (H : History) : gset Key := filter (fun k => k.1 = id) (dom H).

Lemma tracks_dom H R key p : tracks H R -> partial_of R key = Some p -> key ∈ dom H.
Proof.
  intros (_ & _ & HH) Hp. apply elem_of_dom. specialize (HH key).
  destruct (H !! key); [by eauto|congruence].
Qed.

Lemma tracks_store H R i p : tracks H R -> store R !! i = Some p -> pm_key p ∈ dom H.
Proof.
  intros HT Hp. apply (tracks_dom H R (pm_key p) p HT).
  assert (Hi : index R !! pm_key p = Some i) by (apply HT; eauto).
  unfold partial_of. by rewrite Hi.
Qed.

(** Restricting to the other streams. *)
Definition drop_stream (id : Z) (H : History) : History := filter (fun kv => kv.1.1 <> id) H.

(** *** What the loop computes *)

Section reset.
Context (id : Z).

Definition on_id (p : PartialMessage) : Prop := pm_stream_id p = id.
#[local] Instance on_id_dec p : Decision (on_id p).
Proof. unfold on_id. apply _. Defined.

Fixpoint first_slot (s : list PartialMessage) : option nat :=
  match s with
  | [] => None
  | p :: s' => if decide (on_id p) then Some 0%nat else S <$> first_slot s'
  end.

Lemma reset_loop_spec s : forall i hole ix kept d, exists ix',
  reset_loop id s i hole ix kept d =
    (match hole with Some h => Some h | None => Nat.add i <$> first_slot s end, ix',
     kept ++ filter (fun p => ~ on_id p) s, (d + length (filter on_id s))%nat) /\
  forall k, ix' !! k = if decide (k ∈ map pm_key (filter on_id s)) then None else ix !! k.
Proof.
  induction s as [|p s IH]; intros i hole ix kept d.
  { exists ix. cbn [reset_loop first_slot]. rewrite !filter_nil, app_nil_r, Nat.add_0_r. split; [by destruct hole|].
    intros k. rewrite decide_False by apply not_elem_of_nil. done. }
  cbn [reset_loop first_slot]. rewrite !filter_cons. destruct (decide (on_id p)) as [Hp|Hp].
  - rewrite (proj2 (Z.eqb_eq _ _)), (decide_False (P := ~ on_id p)) by tauto.
    destruct (IH (S i) (match hole with Some h => Some h | None => Some i end) (delete (pm_key p) ix) kept (S d)) as (ix' & -> & Hix).
    exists ix'. split; [|].
    + cbn [length]. rewrite <- Nat.add_succ_comm. destruct hole; [done|]. cbn [fmap option_fmap option_map]. by rewrite Nat.add_0_r.
    + intros k. rewrite Hix. cbn [map]. destruct (decide (k = pm_key p)) as [->|Hk].
      * rewrite lookup_delete_eq. rewrite (decide_True (P := pm_key p ∈ pm_key p :: _)) by left. by case_decide.
      * rewrite lookup_delete_ne by done. apply decide_ext. rewrite elem_of_cons. tauto.
  - rewrite (proj2 (Z.eqb_neq _ _)), (decide_True (P := ~ on_id p)) by done.
    destruct (IH (S i) hole ix (kept ++ [p]) d) as (ix' & -> & Hix). exists ix'. split; [|exact Hix].
    rewrite <- app_assoc. destruct hole; [done|]. destruct (first_slot s); [|done]. cbn [fmap option_fmap option_map]. by rewrite Nat.add_succ_comm.
Qed.

(** The index entry of a survivor moves by one when a dropped slot lies before it. *)
Definition slide (hole : option nat) (pos : nat) : nat :=
  match hole with Some h => if (h <? pos)%nat then (pos - 1)%nat else pos | None => pos end.

Definition dropped_before (i : nat) (s : list PartialMessage) : nat := kept_before on_id i s.

Lemma slide_spec s i : (i <= length s)%nat -> slide (first_slot s) i = (i - Nat.min 1 (dropped_before i s))%nat.
Proof.
  intros Hi.
  assert (H : match first_slot s with Some h => (h < i)%nat <-> (0 < dropped_before i s)%nat | None => dropped_before i s = 0%nat end).
  { unfold dropped_before, kept_before. clear Hi. revert i. induction s as [|p s IH]; intros i; [by destruct i|]. cbn [first_slot]. destruct i as [|i].
    { cbn [take]. rewrite filter_nil. case_decide; [simpl; lia|]. destruct (first_slot s); simpl; lia. }
    cbn [take]. rewrite filter_cons. specialize (IH i). case_decide; [simpl; lia|].
    destruct (first_slot s); simpl; [lia|done]. }
  unfold slide. destruct (first_slot s); [|lia]. case_bool; reflect_bools; lia.
Qed.

Definition reset_index (R : Reassembler) (k : Key) : option nat :=
  if decide (k ∈ map pm_key (filter on_id (store R))) then None else slide (first_slot (store R)) <$> index R !! k.

Lemma reset_stream_eq R : exists ix,
  reset_stream R id = (length (filter on_id (store R)), MkReassembler (filter (fun p => ~ on_id p) (store R)) ix) /\
  forall k, ix !! k = reset_index R k.
Proof.
  unfold reset_stream, reset_index. destruct (reset_loop_spec (store R) 0 None (index R) [] 0) as (ix & -> & Hix).
  eexists. split; [done|]. intros k.
  assert (Hf : forall o : option nat, Nat.add 0 <$> o = o) by (by intros []). rewrite Hf. destruct (first_slot (store R)) as [h|] eqn:Eh.
  - rewrite lookup_fmap, Hix. by case_decide.
  - rewrite Hix. case_decide; [done|]. by destruct (index R !! k).
Qed.

(** At most one dropped slot before every survivor: what the slide by one can repair. *)
Definition repairable (R : Reassembler) : Prop := forall i p,
  store R !! i = Some p -> ~ on_id p -> (dropped_before i (store R) <= 1)%nat.

Lemma kept_dropped i s : (i <= length s)%nat ->
  (dropped_before i s + kept_before (fun p => ~ on_id p) i s = i)%nat.
Proof.
  intros Hi. unfold dropped_before, kept_before. rewrite (filter_split_length on_id). by apply length_take_le.
Qed.

Lemma dropped_keys H R k : tracks H R -> k ∈ map pm_key (filter on_id (store R)) <-> k ∈ open_on id H.
Proof.
  intros HT. unfold open_on. rewrite elem_of_filter, list_elem_of_fmap. split.
  - intros (p & -> & [Hp Hin]%list_elem_of_filter). split; [exact Hp|].
    apply list_elem_of_lookup_1 in Hin as [i Hi]. by eapply tracks_store.
  - intros [Hk Hin]. destruct HT as (Hwf & _ & HH). apply elem_of_dom in Hin as [fs Hfs]. specialize (HH k). rewrite Hfs in HH.
    destruct HH as (p & (i & Hi & Hp)%partial_of_Some & _); [|done]. pose proof (wf_key R _ _ _ Hwf Hi Hp) as <-.
    exists p. split; [done|]. apply list_elem_of_filter. split; [exact Hk|by eapply list_elem_of_lookup_2].
Qed.

Lemma dropped_count H R : tracks H R -> length (filter on_id (store R)) = size (open_on id H).
Proof.
  intros HT. pose proof HT as (Hwf & _).
  assert (Hnd : NoDup (map pm_key (filter on_id (store R)))).
  { apply NoDup_fmap_2_strong; [|apply NoDup_filter].
    - intros p q [_ Hp]%list_elem_of_filter [_ Hq]%list_elem_of_filter He.
      apply list_elem_of_lookup_1 in Hp as [i Hi], Hq as [j Hj].
      assert (index R !! pm_key p = Some i /\ index R !! pm_key p = Some j) as [E1 E2] by (split; apply Hwf; eauto). congruence.
    - apply NoDup_alt. intros i j p Hi Hj.
      assert (index R !! pm_key p = Some i /\ index R !! pm_key p = Some j) as [E1 E2] by (split; apply Hwf; eauto). congruence. }
  rewrite <- (length_map pm_key), <- (size_list_to_set (C := gset Key)) by done. f_equal. apply set_eq.
  intros k. rewrite elem_of_list_to_set. by apply dropped_keys.
Qed.

Section tracked.
Context (H : History) (R : Reassembler) (HT : tracks H R).

Lemma reset_index_other k : k.1 <> id -> reset_index R k = slide (first_slot (store R)) <$> index R !! k.
Proof.
  intros Hk. unfold reset_index. rewrite decide_False; [done|].
  intros (p & -> & [Hp _]%list_elem_of_filter)%list_elem_of_fmap. by apply Hk.
Qed.

Lemma reset_index_same k : k.1 = id -> reset_index R k = None.
Proof.
  intros Hk. unfold reset_index. case_decide as Hd; [done|]. destruct (index R !! k) as [i|] eqn:Ei; [|done]. destruct Hd.
  destruct HT as [Hwf _]. apply Hwf in Ei as (p & Hp & <-). apply list_elem_of_fmap_2, list_elem_of_filter.
  split; [exact Hk|by eapply list_elem_of_lookup_2].
Qed.

Lemma slide_survivor i p : store R !! i = Some p -> (dropped_before i (store R) <= 1)%nat <->
  slide (first_slot (store R)) i = kept_before (fun p => ~ on_id p) i (store R).
Proof.
  intros Hi%lookup_lt_Some. rewrite slide_spec by lia. pose proof (kept_dropped i (store R)). lia.
Qed.

Lemma reset_wf ix : (forall k, ix !! k = reset_index R k) ->
  wf (MkReassembler (filter (fun p => ~ on_id p) (store R)) ix) <-> repairable R.
Proof.
  intros Hix. pose proof HT as (Hwf & _). split.
  - intros Hwf' i p Hi Hp. apply (slide_survivor i p Hi).
    assert (Hin : ix !! pm_key p = Some (kept_before (fun p => ~ on_id p) i (store R))).
    { apply Hwf'. exists p. split; [|done]. by apply filter_lookup_kept. }
    rewrite Hix, reset_index_other in Hin by done.
    assert (Ei : index R !! pm_key p = Some i) by (apply Hwf; eauto). rewrite Ei in Hin. by injection Hin.
  - intros Hrep k j. cbn [index store]. rewrite Hix. split.
    + destruct (decide (k.1 = id)) as [Hk|Hk]; [by rewrite reset_index_same|]. rewrite reset_index_other by done.
      intros (i & Hi & ->)%fmap_Some. apply Hwf in Hi as (p & Hp & <-). exists p. split; [|done].
      rewrite (proj1 (slide_survivor i p Hp)) by (by eapply Hrep). by apply filter_lookup_kept.
    + intros (p & (i & Hi & Hp & ->)%filter_lookup_inv & <-). rewrite reset_index_other by done.
      assert (Ei : index R !! pm_key p = Some i) by (apply Hwf; eauto). rewrite Ei. cbn [fmap option_fmap option_map].
      by rewrite (proj1 (slide_survivor i p Hi)) by (by eapply Hrep).
Qed.

Lemma reset_tracks ix : (forall k, ix !! k = reset_index R k) -> repairable R ->
  tracks (drop_stream id H) (MkReassembler (filter (fun p => ~ on_id p) (store R)) ix).
Proof.
  intros Hix Hrep. pose proof HT as (Hwf & Hok & HH). split; [by apply reset_wf|]. split.
  - intros k fs [Hk _]%map_lookup_filter_Some. by apply (Hok k).
  - intros k. unfold drop_stream, partial_of. rewrite map_lookup_filter. cbn [index store]. rewrite Hix.
    destruct (decide (k.1 = id)) as [Hk|Hk].
    + rewrite reset_index_same by done. destruct (H !! k); simpl; [|done]. by rewrite option_guard_False by (simpl; tauto).
    + rewrite reset_index_other by done. specialize (HH k). unfold partial_of in HH.
      assert (Hp : (slide (first_slot (store R)) <$> index R !! k) ≫= (fun i => filter (fun p => ~ on_id p) (store R) !! i)
        = index R !! k ≫= (fun i => store R !! i)).
      { destruct (index R !! k) as [i|] eqn:Ei; [|done]. cbn [fmap option_fmap option_map mbind option_bind].
        apply Hwf in Ei as (p & Hp & <-). rewrite Hp, (proj1 (slide_survivor i p Hp)) by (by eapply Hrep).
        by apply filter_lookup_kept. }
      rewrite Hp. destruct (H !! k); simpl; [|done]. by rewrite option_guard_True.
Qed.

Lemma reset_stream_exact_spec :
  fst (reset_stream R id) = size (open_on id H) /\
  store (snd (reset_stream R id)) = filter (fun p => ~ on_id p) (store R) /\
  (tracks (drop_stream id H) (snd (reset_stream R id)) <-> repairable R).
Proof.
  destruct (reset_stream_eq R) as (ix & -> & Hix). cbn [fst snd store]. rewrite (dropped_count H R HT).
  split; [done|]. split; [done|]. split; [|by apply reset_tracks]. intros (Hwf' & _). by eapply reset_wf.
Qed.

Lemma repairable_few : (size (open_on id H) <= 1)%nat -> repairable R.
Proof.
  intros Hsz i p Hi _. rewrite <- (dropped_count H R HT) in Hsz. unfold dropped_before, kept_before.
  rewrite <- (take_drop i (store R)), filter_app, length_app in Hsz. lia.
Qed.
End tracked.
End reset.

(** RESET is correct while the stream has at most one open message: the partial
    message is dropped, counted, and every message of another stream is still
    tracked, with the index agreeing with the compacted store. *)
Theorem reset_stream_refines (H : History) (R : Reassembler) (id : Z) :
  tracks H R -> (size (open_on id H) <= 1)%nat ->
  fst (reset_stream R id) = size (open_on id H) /\
  tracks (drop_stream id H) (snd (reset_stream R id)).
Proof.
  intros HT Hsz. destruct (reset_stream_exact_spec id H R HT) as (H1 & _ & H2). split; [done|].
  by apply H2, repairable_few with H.
Qed.

(** Frames [fs] fed in order: the messages emitted. *)
Fixpoint feed (R : Reassembler) (fs : list Frame) : outcome (list Message * Reassembler) :=
  match fs with
  | [] => Ok ([], R)
  | f :: fs' =>
      let? (out, R) := accept_data R f in
      let? (ms, R) := feed R fs' in
      Ok (match out with Some m => m :: ms | None => ms end, R)
  end.

Lemma feed_tracks fs : forall H R, tracks H R -> Forall frame_ok fs ->
  exists ms R' H', feed R fs = Ok (ms, R') /\ tracks H' R'.
Proof.
  induction fs as [|f fs IH]; intros H R HT Hok; [by exists [], R, H|]. apply Forall_cons in Hok as [Hf Hok].
  destruct (accept_data_spec H R f HT Hf) as (out & R1 & Hr & Hcase). cbn [feed]. rewrite Hr. cbn [obind].
  assert (exists H1, tracks H1 R1) as [H1 HT1] by (destruct Hcase as [(_ & ? & _)|(_ & ? & _)]; eauto).
  destruct (IH H1 R1 HT1 Hok) as (ms & R' & H' & -> & ?). do 3 eexists. by split.
Qed.

(** ** Claims *)

(** C6. The reassembler refines a map from message keys to the fragments received
    so far. From any state that tracks such a map, [accept_data] is never
    undefined; it adds the frame to its own message only; and it emits a message
    exactly when a FIN was seen and the received bytes form a gap-free initial
    segment reaching the total length, with, at every position, the byte of the
    latest fragment covering it, and then forgets that message. *)
Theorem accept_data_refines (H : History) (R : Reassembler) (f : Frame) :
  tracks H R -> frame_ok f ->
  let key := frame_key f in
  let fs := default [] (H !! key) ++ [f] in
  exists out R', accept_data R f = Ok (out, R') /\
    ((spec_complete fs /\ tracks (delete key H) R' /\
      exists m, out = Some m /\ spec_message fs key m) \/
     (~ spec_complete fs /\ tracks (<[key := fs]> H) R' /\ out = None)).
Proof. apply accept_data_spec. Qed.

Definition data_frame (id msg flags off : Z) (payload : bytes) : Frame :=
  MkFrame kData kVersion flags id msg 0 off (Z.of_nat (length payload)) false 0 false 0 payload.

#[export] Instance frame_ok_dec f : Decision (frame_ok f).
Proof. unfold frame_ok, is_u16, is_u32. apply _. Defined.

Lemma accept_data_refines_witness :
  exists out R', accept_data new_reassembler (data_frame 5 9 2 3 [1; 2]) = Ok (out, R') /\
    out = None /\ length (store R') = 1%nat.
Proof.
  destruct (accept_data_refines ∅ new_reassembler (data_frame 5 9 2 3 [1; 2]) tracks_new)
    as (out & R' & Hr & _); [by apply (bool_decide_unpack _); vm_compute|].
  exists out, R'. split; [exact Hr|]. vm_compute in Hr. injection Hr as <- <-. done.
Defined.

(** C30. RESET, with any number of open messages on the stream: each of them is
    dropped and counted, the slots of all others are kept in order, and the reassembler
    goes on tracking the messages of the other streams if and only if no survivor lies
    behind two dropped slots, since the index slides by one only. With at most one open
    message on the stream, it always does. *)
Theorem reset_stream_exact (H : History) (R : Reassembler) (id : Z) :
  tracks H R ->
  fst (reset_stream R id) = size (open_on id H) /\
  store (snd (reset_stream R id)) = filter (fun p => pm_stream_id p <> id) (store R) /\
  (tracks (drop_stream id H) (snd (reset_stream R id)) <->
    forall i p, store R !! i = Some p -> pm_stream_id p <> id ->
      (length (filter (fun q => pm_stream_id q = id) (take i (store R))) <= 1)%nat) /\
  ((size (open_on id H) <= 1)%nat -> tracks (drop_stream id H) (snd (reset_stream R id))).
Proof.
  intros HT. destruct (reset_stream_exact_spec id H R HT) as (H1 & H2 & H3). split; [done|]. split; [done|]. split; [exact H3|].
  intros Hsz. by apply reset_stream_refines.
Qed.

Definition open_thrice (a b c : Z) : list Frame := [data_frame a 1 2 0 [1]; data_frame b 2 2 0 [1]; data_frame c 3 2 0 [1]].

(** Two messages of stream 1 and one of stream 2: resetting stream 1 is right when the
    other message came first, and wrong when it came last. *)
Lemma reset_stream_exact_witness :
  (exists H R, feed new_reassembler (open_thrice 2 1 1) = Ok ([], R) /\ fst (reset_stream R 1) = 2%nat /\
     tracks (drop_stream 1 H) (snd (reset_stream R 1))) /\
  (exists H R, feed new_reassembler (open_thrice 1 1 2) = Ok ([], R) /\ tracks H R /\
     ~ tracks (drop_stream 1 H) (snd (reset_stream R 1))).
Proof.
  assert (Hok : forall fs, forallb (fun f => bool_decide (frame_ok f)) fs = true ->
    exists ms R H, feed new_reassembler fs = Ok (ms, R) /\ tracks H R).
  { intros fs Hfs. apply (feed_tracks fs ∅ new_reassembler tracks_new). apply Forall_forall. intros f Hf.
    apply (bool_decide_eq_true_1 (frame_ok f)). by apply (proj1 (forallb_forall _ _) Hfs), list_elem_of_In. }
  split.
  - destruct (Hok (open_thrice 2 1 1)) as (ms & R & H & Hr & HT); [by vm_compute|].
    vm_compute in Hr. injection Hr as <- <-. do 2 eexists. split; [vm_compute; reflexivity|]. split; [vm_compute; reflexivity|].
    apply (proj1 (proj2 (proj2 (reset_stream_exact H _ 1 HT)))). intros i p Hp Hne.
    destruct i as [|[|[|i]]]; [vm_compute; lia|vm_compute in Hp; injection Hp as <-; by destruct Hne..|done].
  - destruct (Hok (open_thrice 1 1 2)) as (ms & R & H & Hr & HT); [by vm_compute|].
    vm_compute in Hr. injection Hr as <- <-. exists H. eexists. split; [vm_compute; reflexivity|]. split; [exact HT|].
    intros Hbad. pose proof (proj1 (proj1 (proj2 (proj2 (reset_stream_exact H _ 1 HT)))) Hbad 2%nat _ eq_refl) as Hle.
    vm_compute in Hle. lapply Hle; [lia|discriminate].
Defined.

(** With two open messages on the stream the slide by one is not enough: the
    surviving partial of another stream keeps a stale slot, and its next fragment
    accesses the store out of bounds. *)
Theorem reset_stream_two_open_undefined :
  exists R, feed new_reassembler
      [data_frame 1 1 2 0 [1]; data_frame 1 2 2 0 [1]; data_frame 2 1 2 0 [1]] = Ok ([], R) /\
    accept_data (snd (reset_stream R 1)) (data_frame 2 1 3 1 [2]) = UB.
Proof. eexists. split; vm_compute; reflexivity. Qed.
