(* ===== verification/Fragments.v ===== *)
(** * Fragments: a fragmented message is reassembled in any order

    The frames [encode_message] writes for one message ([encoder.cpp]) against the
    reassembler ([reassembler.cpp]). *)

From S2P Require Import Prelude Status ByteIO OrdMap Frame Reassembler.

(** ** The fragments [encode_message] writes *)

Section message.
Context (stream_id msg_id : Z) (payload : bytes) (mx : nat) (comp crc : bool).

Fixpoint fragment_specs (multi : bool) (n offset : nat) (seq : Z) : list FrameSpec :=
  match n with
  | O => []
  | S n' =>
      let chunk := min mx (length payload - offset) in
      fragment_spec stream_id msg_id payload multi comp crc offset chunk seq (n' =? 0)%nat
      :: fragment_specs multi n' (offset + chunk) (u16 (seq + 1))
  end.

Lemma fragment_loop_specs multi n offset seq w emitted :
  fragment_loop stream_id msg_id payload mx multi comp crc n offset seq w emitted =
  (w ++ concat (map spec_bytes (fragment_specs multi n offset seq)), (emitted + n)%nat).
Proof.
  revert offset seq w emitted. induction n as [|n IH]; intros offset seq w emitted; simpl.
  { by rewrite app_nil_r, Nat.add_0_r. }
  rewrite IH, encode_frame_app, <- app_assoc. f_equal. lia.
Qed.

Definition total : nat := length payload.

(** A frame carrying its own non-empty stretch of the payload. *)
Definition good (f : Frame) : Prop :=
  frame_ok f /\ frame_key f = (stream_id, msg_id) /\ compressed f = comp /\
  frame_begin f < frame_end f <= Z.of_nat total /\
  (forall x, covers f x -> f_payload f !! Z.to_nat (x - frame_begin f) = payload !! Z.to_nat x) /\
  (fin f = true <-> frame_end f = Z.of_nat total).

Definition disjoint (f g : Frame) : Prop := forall x, covers f x -> covers g x -> False.

(** Pairwise disjoint fragments that together cover [lo, total). *)
Definition tiling (lo : Z) (fs : list Frame) : Prop :=
  Forall good fs /\ StronglySorted disjoint fs /\
  forall x, covered fs x <-> lo <= x < Z.of_nat total.

Lemma disjoint_perm fs gs : fs ≡ₚ gs -> StronglySorted disjoint fs -> StronglySorted disjoint gs.
Proof.
  assert (Hsym : forall f g, disjoint f g -> disjoint g f) by (intros f g H x ? ?; by apply (H x)).
  induction 1 as [|f fs gs Hp IH|f g fs|fs gs hs _ IH1 _ IH2]; intros Hs; auto.
  - apply StronglySorted_inv in Hs as [Hs Hf]. constructor; [auto|]. by rewrite <- Hp.
  - apply StronglySorted_inv in Hs as [Hs Hf]. apply StronglySorted_inv in Hs as [Hs Hg].
    apply Forall_cons in Hf as [Hgf Hf]. repeat constructor; auto.
Qed.

Lemma tiling_perm lo fs gs : fs ≡ₚ gs -> tiling lo fs -> tiling lo gs.
Proof.
  intros Hp (Hg & Hd & Hc). split_and!.
  - by rewrite <- Hp.
  - by eapply disjoint_perm.
  - intros x. rewrite <- Hc. unfold covered. by rewrite Hp.
Qed.

(** *** What is known of a part of a tiling *)

Lemma spec_high_le fs : Forall good fs -> 0 <= spec_high fs <= Z.of_nat total.
Proof.
  unfold spec_high. induction fs as [|f fs IH] using rev_ind; intros Hf; [simpl; lia|].
  apply Forall_app in Hf as [Hf Hx%Forall_inv]. rewrite foldl_app. simpl.
  specialize (IH Hf). destruct Hx as (_ & _ & _ & ? & _). lia.
Qed.

Lemma spec_high_ge fs f : f ∈ fs -> frame_end f <= spec_high fs.
Proof.
  unfold spec_high. induction fs as [|g fs IH] using rev_ind; intros Hf;
    [by apply elem_of_nil in Hf|].
  rewrite foldl_app. simpl. apply elem_of_app in Hf as [Hf| ->%list_elem_of_singleton]; [|lia].
  specialize (IH Hf). lia.
Qed.

Lemma spec_total_good fs : Forall good fs ->
  spec_total fs = if existsb fin fs then Z.of_nat total else 0.
Proof.
  unfold spec_total. induction fs as [|f fs IH] using rev_ind; intros Hf; [done|].
  apply Forall_app in Hf as [Hf Hx%Forall_inv]. rewrite spec_total_snoc, existsb_snoc.
  pose proof Hx as (_ & _ & _ & Hb & _ & Hfin). specialize (IH Hf).
  destruct (fin f); [|done]. pose proof (spec_high_le fs Hf) as Hh. unfold spec_high in Hh.
  destruct Hfin as [Hfin _]. rewrite Hfin by done. rewrite Z.max_r by lia. done.
Qed.

(** A byte of the message in a good fragment list. *)
Lemma overlay_good fs x : Forall good fs -> covered fs x ->
  overlay fs x = default 0 (payload !! Z.to_nat x).
Proof.
  unfold overlay. induction fs as [|f fs IH] using rev_ind; intros Hg Hc;
    [by apply Exists_nil in Hc|].
  apply Forall_app in Hg as [Hg Hx%Forall_inv]. rewrite foldl_app. simpl. case_bool.
  - reflect_bools. destruct Hx as (_ & _ & _ & _ & Hp & _). by rewrite Hp.
  - apply covered_snoc in Hc as [Hc|[Hc1 Hc2]]; [by apply IH|].
    rewrite (proj2 (Z.leb_le _ _)), (proj2 (Z.ltb_lt _ _)) in E by done. done.
Qed.

(** With a fragment missing the message is not complete. *)
Lemma part_incomplete fs g rest : tiling 0 (fs ++ g :: rest) -> ~ spec_complete fs.
Proof.
  intros (Hg & Hd & Hc) [Hfin Hcomp]. apply Forall_app in Hg as [Hgs Hg].
  apply Forall_inv in Hg as (_ & _ & _ & Hb & _).
  rewrite spec_total_good, Hfin in Hcomp by done.
  destruct (Hc (frame_begin g)) as [Hc1 _]. assert (Hin : 0 <= frame_begin g < Z.of_nat total).
  { apply Hc1. apply Exists_app. right. left. unfold covers. lia. }
  destruct Hcomp as [?|(e & He & Hx)]; [lia|].
  assert (Hcov : covered fs (frame_begin g)) by (apply Hx; lia).
  apply Exists_exists in Hcov as (f & Hf & Hcf).
  apply StronglySorted_app in Hd as [Hd _]. apply (Hd f g Hf ltac:(left) (frame_begin g) Hcf).
  unfold covers. lia.
Qed.

(** All of it is. *)
Lemma whole_complete fs : (0 < total)%nat -> tiling 0 fs -> spec_complete fs.
Proof.
  intros Ht (Hg & Hd & Hc). assert (Hlast : covered fs (Z.of_nat total - 1)) by (apply Hc; lia).
  apply Exists_exists in Hlast as (f & Hf & Hcf).
  pose proof Hg as Hg'. rewrite Forall_forall in Hg'.
  destruct (Hg' f Hf) as (_ & _ & _ & Hb & _ & Hfin).
  assert (He : existsb fin fs = true).
  { apply existsb_exists. exists f. split; [by apply list_elem_of_In|]. apply Hfin.
    unfold covers in Hcf. lia. }
  split; [done|]. right. rewrite spec_total_good, He by done. exists (Z.of_nat total).
  split; [done|]. exact Hc.
Qed.

Lemma whole_message fs m :
  (0 < total)%nat -> tiling 0 fs -> spec_message fs (stream_id, msg_id) m ->
  m = MkMessage stream_id msg_id comp payload.
Proof.
  intros Ht Htile (H1 & H2 & H3 & H4 & H5). pose proof Htile as (Hg & Hd & Hc).
  destruct (whole_complete fs Ht Htile) as [Hfin _].
  rewrite spec_total_good, Hfin in H4, H5 by done.
  destruct m as [i k c d]. cbn [m_stream_id m_msg_id m_compressed m_data fst snd] in *. subst.
  assert (Hd' : d = payload).
  { apply list_eq_same_length with (length payload); [done|unfold total in *; lia|].
    intros j x y Hj Hx Hy. specialize (H5 (Z.of_nat j) ltac:(unfold total; lia)).
    rewrite overlay_good in H5 by (done || (apply Hc; unfold total; lia)).
    rewrite Nat2Z.id in H5. rewrite Hy in H5. simpl in H5. congruence. }
  f_equal; [|done]. destruct fs as [|f fs].
  { apply existsb_exists in Hfin as (f & Hf & _). by simpl in Hf. }
  assert (Hall : forall g, In g (f :: fs) -> compressed g = comp).
  { intros g Hgin. rewrite Forall_forall in Hg. apply (Hg g). by apply list_elem_of_In. }
  destruct comp eqn:Ec.
  - apply existsb_exists. exists f. split; [by left|]. apply Hall. by left.
  - apply not_true_iff_false. intros (g & Hgin & Hgc)%existsb_exists.
    rewrite Hall in Hgc by done. done.
Qed.

(** ** The frames of [encode_message] tile the payload *)

Context (Hid : is_u16 stream_id) (Hmsg : is_u32 msg_id) (Hpay : bytes_ok payload).
Context (Hmx : (1 <= mx <= kMaxFramePayload)%nat) (Hlen : Z.of_nat (length payload) <= 0xFFFFFFFF).

Lemma fragment_flags (multi last : bool) offset chunk seq :
  let fl := sp_flags (fragment_spec stream_id msg_id payload multi comp crc offset chunk seq last) in
  is_byte fl /\ negb (Z.land fl kFlagFin =? 0) = last /\ negb (Z.land fl kFlagFrag =? 0) = multi /\
  negb (Z.land fl kFlagCompressed =? 0) = comp.
Proof. unfold fragment_spec. cbn [sp_flags]. destruct multi, last, comp; vm_compute; split_and!; done. Qed.

Lemma fragment_good (multi : bool) (offset : nat) seq off f :
  is_u16 seq -> (offset < total)%nat -> (multi = false -> offset = 0%nat) ->
  let chunk := min mx (total - offset) in
  f = frame_of_spec off (fragment_spec stream_id msg_id payload multi comp crc offset chunk seq
                           (offset + chunk =? total)%nat) ->
  good f /\ frame_begin f = Z.of_nat offset /\ frame_end f = Z.of_nat (offset + chunk).
Proof.
  intros Hseq Hoff Hmulti chunk ->. unfold total in *. pose proof kMaxFramePayload_Z as Hk.
  set (last := (_ =? _)%nat). set (s := fragment_spec _ _ _ _ _ _ _ _ _ last).
  destruct (fragment_flags multi last offset chunk seq) as (Hfl & Hfin & Hfrag & Hcomp).
  fold s in Hfl, Hfin, Hfrag, Hcomp.
  assert (Hdata : sp_payload s = take chunk (drop offset payload)).
  { unfold s, fragment_spec. cbn [sp_payload]. case_bool; [done|].
    apply negb_false_iff in E. reflect_bools. lia. }
  assert (Hsp : spec_payload s = take chunk (drop offset payload)).
  { unfold spec_payload. rewrite Hdata, take_ge; [done|]. rewrite length_take. lia. }
  assert (Hdl : length (spec_payload s) = chunk).
  { rewrite Hsp, length_take, length_drop. lia. }
  assert (Hfo : sp_frag_offset s = Z.of_nat offset) by (cbn; unfold u32; rewrite Z.mod_small; lia).
  assert (Hsok : spec_ok s).
  { assert (is_u32 (Z.of_nat offset)) by (unfold is_u32; lia).
    unfold spec_ok. rewrite Hfo, Hdata. split_and!; try assumption.
    by apply bytes_ok_take, bytes_ok_drop. }
  set (f := frame_of_spec off s).
  assert (Hbits : fin f = last /\ frag f = multi /\ compressed f = comp).
  { unfold fin, frag, compressed, f. cbn [f_flags frame_of_spec].
    rewrite !resolve_flags_bits by (assumption || (cbn [In]; auto)). split_and!; assumption. }
  destruct Hbits as (Ef & Eg & Ec).
  assert (Hfok : frame_ok f).
  { unfold frame_ok, f, frame_of_spec. cbn [f_flags f_stream_id f_msg_id f_seq f_frag_offset
      f_payload f_payload_len f_version]. destruct (resolve_flags_spec s Hfl) as [Hr _].
    destruct Hsok as (_ & H1 & H2 & H3 & H4 & H5). split_and!; try assumption.
    - by apply bytes_ok_take.
    - reflexivity.
    - apply spec_payload_width.
    - reflexivity. }
  assert (Hb : frame_begin f = Z.of_nat offset).
  { unfold frame_begin. rewrite Eg. destruct multi; [done|]. rewrite Hmulti by done. done. }
  destruct (frame_end_min f Hfok) as [He _]. rewrite Hb in He.
  change (f_payload f) with (spec_payload s) in He. rewrite Hdl in He.
  assert (He' : frame_end f = Z.of_nat (offset + chunk)) by (unfold kMax32 in He; lia).
  split; [|by split]. split; [exact Hfok|]. split; [reflexivity|]. split; [exact Ec|].
  split; [unfold total; lia|]. split.
  - intros x [Hx1 Hx2]. change (f_payload f) with (spec_payload s). rewrite Hsp.
    rewrite lookup_take_lt, lookup_drop by lia. f_equal. lia.
  - rewrite Ef. unfold last, total. rewrite Nat.eqb_eq. lia.
Qed.

Definition is_frame_of (s : FrameSpec) (f : Frame) : Prop := exists off, f = frame_of_spec off s.

Lemma specs_tiling (multi : bool) n offset seq fs :
  is_u16 seq -> (multi = false -> n = 0%nat \/ n = 1%nat /\ offset = 0%nat) ->
  (total - offset <= n * mx)%nat -> (offset <= total)%nat ->
  (0 < n -> (n - 1) * mx < total - offset)%nat ->
  Forall2 is_frame_of (fragment_specs multi n offset seq) fs ->
  tiling (Z.of_nat offset) fs.
Proof.
  revert offset seq fs. induction n as [|n IH]; intros offset seq fs Hseq Hmulti Hub Hle Hlb HF.
  { apply Forall2_nil_inv_l in HF as ->. split_and!; [constructor..|].
    intros x. split; [by intros ?%Exists_nil|lia]. }
  cbn [fragment_specs] in HF. apply Forall2_cons_inv_l in HF as (f & fs' & [off Hf] & HF & ->).
  fold total in Hf, HF. specialize (Hlb ltac:(lia)).
  set (chunk := min mx (total - offset)) in *.
  assert (Hlast : (n =? 0)%nat = (offset + chunk =? total)%nat).
  { destruct n as [|n]; cbn [Nat.eqb]; symmetry; [apply Nat.eqb_eq|apply Nat.eqb_neq]; nia. }
  rewrite Hlast in Hf.
  destruct (fragment_good multi offset seq off f Hseq ltac:(nia)) as (Hg & Hb & He).
  { intros Hm. destruct (Hmulti Hm) as [|[]]; done. }
  { exact Hf. }
  fold chunk in He. destruct (IH (offset + chunk)%nat (u16 (seq + 1)) fs') as (Hgs & Hd & Hc);
    [by apply Z.mod_pos_bound|intros Hm; destruct (Hmulti Hm); lia|nia|nia|nia|done|].
  split_and!; [by constructor|constructor; [done|]|].
  - apply Forall_forall. intros g Hgin x Hx1 Hx2.
    assert (Hx : covered fs' x) by (apply Exists_exists; eauto). apply Hc in Hx.
    unfold covers in Hx1. lia.
  - intros x. unfold covered. rewrite Exists_cons. fold (covered fs' x). rewrite Hc.
    unfold covers. rewrite Hb, He. nia.
Qed.
End message.

Definition message_specs (stream_id msg_id : Z) (payload : bytes) (max_fragment : nat)
    (first_seq : Z) (comp crc : bool) : list FrameSpec :=
  let mx := clamp_fragment max_fragment in
  let n := frag_count (length payload) mx in
  fragment_specs stream_id msg_id payload mx comp crc (1 <? n)%nat n 0 first_seq.

Lemma encode_message_specs w stream_id msg_id payload mx seq comp crc :
  encode_message w stream_id msg_id payload mx seq comp crc =
  (w ++ concat (map spec_bytes (message_specs stream_id msg_id payload mx seq comp crc)),
   frag_count (length payload) (clamp_fragment mx)).
Proof. unfold encode_message. apply fragment_loop_specs. Qed.

Lemma clamp_bounds m : (1 <= clamp_fragment m <= kMaxFramePayload)%nat.
Proof. unfold clamp_fragment. pose proof kMaxFramePayload_Z. case_bool; reflect_bools; lia. Qed.

Lemma frag_count_bounds total mx : (0 < total)%nat -> (1 <= mx)%nat ->
  (total <= frag_count total mx * mx /\ (frag_count total mx - 1) * mx < total)%nat.
Proof.
  intros Ht Hm. unfold frag_count. rewrite (proj2 (Nat.eqb_neq _ _)) by lia.
  pose proof (Nat.div_mod (total + mx - 1) mx ltac:(lia)) as Hd.
  pose proof (Nat.mod_upper_bound (total + mx - 1) mx ltac:(lia)). nia.
Qed.

Lemma message_tiling stream_id msg_id payload m seq comp crc fs :
  is_u16 stream_id -> is_u32 msg_id -> bytes_ok payload ->
  Z.of_nat (length payload) <= 0xFFFFFFFF -> is_u16 seq -> (0 < length payload)%nat ->
  Forall2 is_frame_of (message_specs stream_id msg_id payload m seq comp crc) fs ->
  tiling stream_id msg_id payload comp 0 fs.
Proof.
  intros Hid Hmsg Hpay Hlen Hseq Hpos HF. pose proof (clamp_bounds m) as Hmx.
  pose proof (frag_count_bounds (length payload) (clamp_fragment m) Hpos ltac:(lia)) as [H1 H2].
  unfold message_specs in HF. set (n := frag_count _ _) in *.
  apply (specs_tiling stream_id msg_id payload (clamp_fragment m) comp crc Hid Hmsg Hpay Hmx Hlen
           (1 <? n)%nat n 0 seq fs); unfold total; try done; try lia.
  intros Hn. reflect_bools. lia.
Qed.

(** The empty message is one empty, final frame. *)
Lemma empty_message stream_id msg_id m seq comp crc f :
  is_u16 stream_id -> is_u32 msg_id -> is_u16 seq ->
  Forall2 is_frame_of (message_specs stream_id msg_id [] m seq comp crc) [f] ->
  frame_ok f /\ frame_key f = (stream_id, msg_id) /\ fin f = true /\ compressed f = comp /\
  frame_end f = 0.
Proof.
  intros Hid Hmsg Hseq HF. apply Forall2_cons in HF as [[off ->] _].
  set (s := fragment_spec _ _ _ _ _ _ _ _ _ _).
  assert (Hp : spec_payload s = []).
  { unfold spec_payload, s, fragment_spec. cbn [sp_payload length Nat.sub].
    rewrite Nat.min_0_r. apply take_nil. }
  assert (Hfl : is_byte (sp_flags s)).
  { apply (fragment_flags stream_id msg_id [] comp crc). }
  assert (Hfo : frame_ok (frame_of_spec off s)).
  { unfold frame_ok, frame_of_spec. cbn [f_flags f_stream_id f_msg_id f_seq f_frag_offset f_payload
      f_payload_len f_version]. rewrite Hp. split_and!; try assumption; try (by split); try (by constructor).
    by apply resolve_flags_spec. }
  assert (Hbits : fin (frame_of_spec off s) = true /\ frag (frame_of_spec off s) = false /\
    compressed (frame_of_spec off s) = comp).
  { unfold fin, frag, compressed. cbn [f_flags frame_of_spec].
    rewrite !resolve_flags_bits by (assumption || (cbn [In]; auto)). by destruct comp. }
  destruct Hbits as (H1 & H2 & H3). split; [done|]. split; [done|]. split; [done|]. split; [done|].
  destruct (frame_end_min _ Hfo) as [He _]. rewrite He. unfold frame_begin. rewrite H2.
  change (f_payload _) with (spec_payload s). by rewrite Hp.
Qed.

Lemma delete_insert_key {A} (H : gmap Key A) k x : delete k (<[k := x]> H) = delete k H.
Proof. apply delete_insert_eq. Qed.

(** Feeding the rest of a tiling completes the message at its last fragment. *)
Lemma feed_tiling stream_id msg_id payload comp H R gs fs :
  (0 < length payload)%nat -> tracks H R -> default [] (H !! (stream_id, msg_id)) = fs ->
  gs <> [] -> tiling stream_id msg_id payload comp 0 (fs ++ gs) ->
  exists R', feed R gs = Ok ([MkMessage stream_id msg_id comp payload], R') /\
    tracks (delete (stream_id, msg_id) H) R'.
Proof.
  intros Hpos. revert H R fs. induction gs as [|g gs IH]; intros H R fs HT Hfs Hne Htile; [done|].
  pose proof Htile as (Hgood & _ & _). apply Forall_app in Hgood as [_ Hgood].
  apply Forall_inv in Hgood as (Hok & Hkey & _).
  destruct (accept_data_spec H R g HT Hok) as (out & R1 & Hacc & Hcase).
  rewrite Hkey, Hfs in Hcase. cbn [feed]. rewrite Hacc. cbn [obind].
  destruct gs as [|g' gs].
  - destruct Hcase as [(Hc & HT' & m & -> & Hm)|(Hc & _)].
    + exists R1. split; [|done]. cbn [feed obind]. do 3 f_equal.
      by apply (whole_message stream_id msg_id payload comp (fs ++ [g])).
    + exfalso. apply Hc. by apply (whole_complete stream_id msg_id payload comp).
  - change (fs ++ g :: g' :: gs) with (fs ++ [g] ++ (g' :: gs)) in Htile.
    rewrite app_assoc in Htile.
    destruct Hcase as [(Hc & _)|(Hc & HT' & ->)].
    { exfalso. revert Hc. by eapply part_incomplete. }
    destruct (IH (<[(stream_id, msg_id) := fs ++ [g]]> H) R1 (fs ++ [g])) as (R' & Hfeed & HT2);
      [done|by rewrite lookup_insert_eq|done|done|].
    rewrite Hfeed. cbn [obind]. exists R'. split; [done|]. by rewrite delete_insert_key in HT2.
Qed.

Lemma fragments_spec (stream_id msg_id : Z) (payload w : bytes) (max_fragment : nat)
    (first_seq : Z) (comp crc : bool) (H : History) (R : Reassembler) (fs gs : list Frame) :
  is_u16 stream_id -> is_u32 msg_id -> bytes_ok payload ->
  Z.of_nat (length payload) <= 0xFFFFFFFF -> is_u16 first_seq ->
  tracks H R -> H !! (stream_id, msg_id) = None ->
  let specs := message_specs stream_id msg_id payload max_fragment first_seq comp crc in
  Forall2 is_frame_of specs fs -> gs ≡ₚ fs ->
  fst (encode_message w stream_id msg_id payload max_fragment first_seq comp crc) =
    w ++ concat (map spec_bytes specs) /\
  exists R', feed R gs = Ok ([MkMessage stream_id msg_id comp payload], R') /\ tracks H R'.
Proof.
  intros Hid Hmsg Hpay Hlen Hseq HT Hnone specs HF Hperm.
  split; [by rewrite encode_message_specs|].
  assert (Hdel : delete (stream_id, msg_id) H = H) by by apply delete_id.
  destruct (decide (payload = [])) as [->|Hne].
  - assert (Hone : exists f, fs = [f]).
    { unfold specs, message_specs in HF. cbn in HF. apply Forall2_cons_inv_l in HF as (f & l & _ & HF & ->).
      apply Forall2_nil_inv_l in HF as ->. by exists f. }
    destruct Hone as [f ->]. apply Permutation_singleton_r in Hperm as ->.
    destruct (empty_message _ _ _ _ _ _ _ Hid Hmsg Hseq HF) as (Hok & Hk & Hfin & Hc & He).
    destruct (accept_data_spec H R f HT Hok) as (out & R1 & Hacc & Hcase).
    rewrite Hk, Hnone in Hcase. cbn [default app] in Hcase.
    assert (Htot : spec_total [f] = 0).
    { unfold spec_total. cbn [spec_total_from]. rewrite Hfin, He. done. }
    destruct Hcase as [(_ & HT' & m & -> & Hm)|(Hnc & _)].
    + exists R1. cbn [feed]. rewrite Hacc. cbn [obind]. rewrite Hdel in HT'. split; [|done].
      do 3 f_equal. destruct Hm as (E1 & E2 & E3 & E4 & _). rewrite Htot in E4.
      cbn [existsb] in E3. rewrite Hc, orb_false_r in E3.
      destruct m as [i k c [|]]; simpl in *; [by subst|lia].
    + exfalso. apply Hnc. split; [cbn [existsb]; by rewrite Hfin|by left].
  - assert (Hpos : (0 < length payload)%nat) by (destruct payload; simpl; lia || done).
    assert (Htile : tiling stream_id msg_id payload comp 0 ([] ++ gs)).
    { cbn [app]. eapply tiling_perm; [symmetry; exact Hperm|]. by eapply message_tiling. }
    destruct (feed_tiling stream_id msg_id payload comp H R gs [] Hpos HT) as (R' & Hfeed & HT');
      [by rewrite Hnone| |done|exists R'; by rewrite Hdel in HT'].
    { intros ->. destruct Htile as (_ & _ & Hc). specialize (Hc 0). unfold total in Hc.
      assert (Hx : covered [] 0) by (apply Hc; lia). by apply Exists_nil in Hx. }
Qed.

Lemma message_specs_ok stream_id msg_id payload m seq comp crc :
  is_u16 stream_id -> is_u32 msg_id -> bytes_ok payload -> is_u16 seq ->
  Forall (fun s => spec_ok s /\ sp_type s = kData /\ sp_stream_id s = stream_id /\ sp_with_crc s = crc)
    (message_specs stream_id msg_id payload m seq comp crc).
Proof.
  intros Hid Hmsg Hpay. unfold message_specs. generalize (clamp_fragment m). intros mx.
  generalize (1 <? frag_count (length payload) mx)%nat. intros multi.
  generalize (frag_count (length payload) mx) 0%nat. intros n.
  revert seq. induction n as [|n IH]; intros seq offset Hseq; cbn [fragment_specs]; [constructor|].
  constructor; [|apply IH; by apply Z.mod_pos_bound]. split; [|done].
  destruct (fragment_flags stream_id msg_id payload comp crc multi (n =? 0)%nat offset
    (min mx (length payload - offset)) seq) as [Hfl _].
  split_and!; try assumption; [by apply Z.mod_pos_bound..|].
  unfold fragment_spec. cbn [sp_payload]. case_bool; [auto with bw|constructor].
Qed.

(** ** Claims *)

(** A message cut into frames by [encode_message], whatever the fragment size
    (clamped to 1..65535), is reassembled from its frames in any order: starting
    from any consistent reassembler in which the message is not open, all frames
    but the last one fed are held back, the last one yields exactly the original
    payload and COMPRESSED flag, and the reassembler is left as it was. *)
Theorem fragments_any_order (stream_id msg_id : Z) (payload w : bytes) (max_fragment : nat)
    (first_seq : Z) (comp crc : bool) (H : History) (R : Reassembler) (fs gs : list Frame) :
  is_u16 stream_id -> is_u32 msg_id -> bytes_ok payload ->
  Z.of_nat (length payload) <= 0xFFFFFFFF -> is_u16 first_seq ->
  tracks H R -> H !! (stream_id, msg_id) = None ->
  let specs := message_specs stream_id msg_id payload max_fragment first_seq comp crc in
  Forall2 is_frame_of specs fs -> gs ≡ₚ fs ->
  fst (encode_message w stream_id msg_id payload max_fragment first_seq comp crc) =
    w ++ concat (map spec_bytes specs) /\
  exists R', feed R gs = Ok ([MkMessage stream_id msg_id comp payload], R') /\ tracks H R'.
Proof. apply fragments_spec. Qed.

Definition sample_fragments : list Frame :=
  map (frame_of_spec 0) (message_specs 7 70 [1; 2; 3; 4; 5] 2 65535 true true).

Lemma fragments_any_order_witness :
  exists R, feed new_reassembler (rev sample_fragments) =
    Ok ([MkMessage 7 70 true [1; 2; 3; 4; 5]], R) /\ store R = [].
Proof.
  destruct (fragments_any_order 7 70 [1; 2; 3; 4; 5] [] 2 65535 true true ∅ new_reassembler
    sample_fragments (rev sample_fragments)) as (_ & R & HR & _).
  - by apply (bool_decide_unpack _); vm_compute.
  - by apply (bool_decide_unpack _); vm_compute.
  - by apply (bool_decide_unpack _); vm_compute.
  - simpl. lia.
  - by apply (bool_decide_unpack _); vm_compute.
  - apply tracks_new.
  - apply lookup_empty.
  - unfold sample_fragments. generalize (message_specs 7 70 [1; 2; 3; 4; 5] 2 65535 true true).
    intros l. induction l; simpl; constructor; [by exists 0|done].
  - symmetry. apply Permutation_rev.
  - exists R. split; [exact HR|]. vm_compute in HR. injection HR as <-. reflexivity.
Defined.
