(* ===== verification/Delivery.v ===== *)
(** * Delivery: in-order release of completed messages

    [src/streamcodec/delivery.cpp]: per stream a cursor and the messages that
    arrived ahead of it, bounded by a window. *)

From S2P Require Import Prelude Status OrdMap Reassembler.

Record StreamOrder := MkOrder {
  so_started : bool;
  next_expected : Z;
  pending : gmap Z Message;
}.

Record DeliveryQueue := MkQueue {
  dq_streams : gmap Z StreamOrder;
  dq_window : nat;
  dq_gaps : Z;
  dq_duplicates : Z;
}.

Definition new_queue (window : nat) : DeliveryQueue :=
  MkQueue ∅ (if (window =? 0)%nat then 1%nat else window) 0 0.

Definition count_up (n : Z) : Z := u64 (n + 1).

(** [drain]: each turn erases one pending message. *)
Fixpoint drain (turns : nat) (s : StreamOrder) (out : list Message)
    : outcome (StreamOrder * list Message) :=
  match turns with
  | O => NoFuel
  | S turns' =>
      match map_begin (pending s) with
      | None => Ok (s, out)
      | Some (k, m) =>
          if negb (k =? next_expected s) then Ok (s, out)
          else drain turns' (MkOrder (so_started s) (u32 (next_expected s + 1))
                               (delete k (pending s))) (out ++ [m])
      end
  end.
Definition drain_all (s : StreamOrder) (out : list Message) : outcome (StreamOrder * list Message) :=
  drain (S (size (pending s))) s out.

(** [while (s.pending.size() > window_)]. *)
Fixpoint window_loop (turns : nat) (window : nat) (s : StreamOrder) (gaps : Z) (out : list Message)
    : outcome (StreamOrder * Z * list Message) :=
  match turns with
  | O => NoFuel
  | S turns' =>
      if (window <? size (pending s))%nat then
        match map_begin (pending s) with
        | None => UB
        | Some (lowest, _) =>
            let gaps := if next_expected s <? lowest then count_up gaps else gaps in
            let? (s, out) := drain_all (MkOrder (so_started s) lowest (pending s)) out in
            window_loop turns' window s gaps out
        end
      else Ok (s, gaps, out)
  end.

Definition set_stream (q : DeliveryQueue) (id : Z) (s : StreamOrder) (gaps dups : Z) : DeliveryQueue :=
  MkQueue (<[id := s]> (dq_streams q)) (dq_window q) gaps dups.

Definition offer (q : DeliveryQueue) (msg : Message) : outcome (list Message * DeliveryQueue) :=
  let id := m_stream_id msg in
  let s := default (MkOrder false 0 ∅) (dq_streams q !! id) in
  let s := if negb (so_started s) then MkOrder true (m_msg_id msg) (pending s) else s in
  if m_msg_id msg <? next_expected s
  then Ok ([], set_stream q id s (dq_gaps q) (count_up (dq_duplicates q)))
  else if m_msg_id msg =? next_expected s then
    let? (s, out) := drain_all (MkOrder (so_started s) (u32 (next_expected s + 1)) (pending s)) [msg] in
    Ok (out, set_stream q id s (dq_gaps q) (dq_duplicates q))
  else
    match pending s !! m_msg_id msg with
    | Some _ => Ok ([], set_stream q id s (dq_gaps q) (count_up (dq_duplicates q)))
    | None =>
        let s := MkOrder (so_started s) (next_expected s) (<[m_msg_id msg := msg]> (pending s)) in
        let? (s, gaps, out) := window_loop (S (size (pending s))) (dq_window q) s (dq_gaps q) [] in
        Ok (out, set_stream q id s gaps (dq_duplicates q))
    end.

Fixpoint flush_loop (turns : nat) (s : StreamOrder) (gaps : Z) (out : list Message)
    : outcome (StreamOrder * Z * list Message) :=
  match turns with
  | O => NoFuel
  | S turns' =>
      match map_begin (pending s) with
      | None => Ok (s, gaps, out)
      | Some (k, m) =>
          let gaps := if next_expected s <? k then count_up gaps else gaps in
          flush_loop turns' (MkOrder (so_started s) (u32 (k + 1)) (delete k (pending s)))
            gaps (out ++ [m])
      end
  end.

Definition flush_stream (q : DeliveryQueue) (id : Z) : outcome (list Message * DeliveryQueue) :=
  match dq_streams q !! id with
  | None => Ok ([], q)
  | Some s =>
      let? (s, gaps, out) := flush_loop (S (size (pending s))) s (dq_gaps q) [] in
      Ok (out, set_stream q id s gaps (dq_duplicates q))
  end.

Definition buffered (q : DeliveryQueue) : nat :=
  foldl (fun n kv => (n + size (pending kv.2))%nat) 0%nat (entries (dq_streams q)).

(** ** Releasing messages one at a time *)

(** Ids below 2^32 - 1: the cursor, one past the last id released, does not wrap. *)
Definition kIdLimit : Z := 2 ^ 32 - 1.

Definition held (s : StreamOrder) : list Message := (map_to_list (pending s)).*2.

(** Every buffered message lies under its own id, at or past the cursor. *)
Definition order_ok (id : Z) (s : StreamOrder) : Prop :=
  0 <= next_expected s <= kIdLimit /\
  forall k m, pending s !! k = Some m ->
    next_expected s <= k < kIdLimit /\ m_msg_id m = k /\ m_stream_id m = id.

(** Not even at the cursor: nothing is ready to be released. *)
Definition settled (s : StreamOrder) : Prop := pending s !! next_expected s = None.

Inductive pops : StreamOrder -> list Message -> StreamOrder -> Prop :=
  | pops_nil s : pops s [] s
  | pops_cons s k m out s' :
      map_begin (pending s) = Some (k, m) ->
      pops (MkOrder (so_started s) (k + 1) (delete k (pending s))) out s' ->
      pops s (m :: out) s'.

(** The number of skips when [out] is released with the cursor at [n]. *)
Fixpoint jumps_from (n : Z) (out : list Message) : Z :=
  match out with
  | [] => 0
  | m :: out' => (if m_msg_id m =? n then 0 else 1) + jumps_from (m_msg_id m + 1) out'
  end.

Fixpoint cursor_after (n : Z) (out : list Message) : Z :=
  match out with [] => n | m :: out' => cursor_after (m_msg_id m + 1) out' end.

Lemma jumps_from_app n l k : jumps_from n (l ++ k) = jumps_from n l + jumps_from (cursor_after n l) k.
Proof. revert n. induction l as [|m l IH]; intros n; simpl; [done|]. rewrite IH. lia. Qed.

Lemma pops_app s l s1 k s2 : pops s l s1 -> pops s1 k s2 -> pops s (l ++ k) s2.
Proof. induction 1; [done|]. intros. simpl. econstructor; eauto. Qed.

Lemma order_ok_begin id s k m : order_ok id s -> map_begin (pending s) = Some (k, m) ->
  order_ok id (MkOrder (so_started s) (k + 1) (delete k (pending s))) /\
  next_expected s <= k < kIdLimit /\ m_msg_id m = k /\ m_stream_id m = id /\
  held s ≡ₚ m :: held (MkOrder (so_started s) (k + 1) (delete k (pending s))).
Proof.
  intros [Hn Hs] Hb. apply map_begin_Some in Hb as [Hk Hmin].
  destruct (Hs k m Hk) as (? & ? & ?). split_and!; try done; try lia.
  - split; cbn [next_expected pending]; [lia|]. intros k' m' [Hne Hk']%lookup_delete_Some.
    destruct (Hs k' m' Hk') as (? & ? & ?). pose proof (Hmin k' m' Hk') as Hle.
    unfold key_le, Z_key in Hle. split_and!; try done; lia.
  - unfold held. cbn [pending]. rewrite <- (insert_delete_id (pending s) k m Hk) at 1.
    rewrite map_to_list_insert by apply lookup_delete_eq. done.
Qed.

(** What is released is exactly what leaves the buffer, in ascending order. *)
Lemma pops_spec id s out s' : pops s out s' -> order_ok id s ->
  order_ok id s' /\ held s ≡ₚ out ++ held s' /\ so_started s' = so_started s /\
  next_expected s' = cursor_after (next_expected s) out /\
  Forall (fun m => m_stream_id m = id /\ next_expected s <= m_msg_id m < next_expected s') out /\
  StronglySorted Z.lt (map m_msg_id out) /\ next_expected s <= next_expected s'.
Proof.
  induction 1 as [s|s k m out s' Hb Hp IH]; intros Hok.
  { split_and!; try done; constructor. }
  destruct (order_ok_begin id s k m Hok Hb) as (Hok1 & Hk & Hmk & Hmi & Hheld).
  destruct (IH Hok1) as (H1 & H2 & H3 & H4 & H5 & H6 & H7).
  cbn [next_expected so_started cursor_after map] in *. subst k. split_and!; try done.
  - rewrite Hheld, H2. done.
  - constructor; [split; [done|lia]|]. eapply Forall_impl; [exact H5|]. simpl. lia.
  - constructor; [done|]. apply Forall_fmap. eapply Forall_impl; [exact H5|]. simpl. lia.
  - lia.
Qed.

Lemma size_held s : size (pending s) = length (held s).
Proof. unfold held. by rewrite length_fmap, length_map_to_list. Qed.

Lemma u32_next n : 0 <= n < kIdLimit -> u32 (n + 1) = n + 1.
Proof. unfold kIdLimit, u32. intros. apply Z.mod_small. lia. Qed.

Lemma pops_size id s out s' : pops s out s' -> order_ok id s ->
  (size (pending s) = length out + size (pending s'))%nat.
Proof.
  intros Hp Hok. destruct (pops_spec id s out s' Hp Hok) as (_ & Hh & _).
  by rewrite !size_held, Hh, length_app.
Qed.

Lemma drain_spec turns id s out : order_ok id s -> (size (pending s) < turns)%nat ->
  exists rel s', drain turns s out = Ok (s', out ++ rel) /\ pops s rel s' /\
    jumps_from (next_expected s) rel = 0 /\ settled s'.
Proof.
  revert s out. induction turns as [|turns IH]; intros s out Hok Ht; [lia|]. cbn [drain].
  destruct (map_begin (pending s)) as [[k m]|] eqn:Hb.
  - destruct (order_ok_begin id s k m Hok Hb) as (Hok1 & Hk & Hmk & Hmi & Hheld).
    destruct (Z.eqb_spec k (next_expected s)) as [He|Hne]; cbn [negb].
    + rewrite <- He, u32_next by (destruct Hok; lia).
      destruct (IH _ (out ++ [m]) Hok1) as (rel & s' & Hd & Hp & Hj & Hs).
      { rewrite !size_held in *. rewrite Hheld in Ht. simpl in Ht. lia. }
      exists (m :: rel), s'. rewrite Hd, <- app_assoc. split_and!; try done.
      * by econstructor.
      * cbn [jumps_from]. rewrite Hmk, Z.eqb_refl. exact Hj.
    + exists [], s. rewrite app_nil_r. split_and!; [done|constructor|done|].
      apply map_begin_Some in Hb as [Hbk Hmin]. unfold settled.
      destruct (pending s !! next_expected s) as [m'|] eqn:En; [|done].
      apply Hmin in En. unfold key_le, Z_key in En. lia.
  - exists [], s. rewrite app_nil_r. split_and!; [done|constructor|done|].
    apply map_begin_None in Hb. unfold settled. rewrite Hb. apply lookup_empty.
Qed.

Lemma drain_from_lowest id s lowest m out : order_ok id s -> map_begin (pending s) = Some (lowest, m) ->
  exists rel s', drain_all (MkOrder (so_started s) lowest (pending s)) out = Ok (s', out ++ rel) /\
    pops s rel s' /\ settled s' /\ rel <> [] /\
    jumps_from (next_expected s) rel = if next_expected s <? lowest then 1 else 0.
Proof.
  intros Hok Hb. destruct (order_ok_begin id s lowest m Hok Hb) as (_ & Hk & Hmk & _ & _).
  pose proof (map_begin_Some _ _ _ Hb) as [Hin Hmin].
  assert (Hok' : order_ok id (MkOrder (so_started s) lowest (pending s))).
  { destruct Hok as [Hn Hs]. split; cbn [next_expected pending]; [lia|]. intros k m' Hk'.
    destruct (Hs k m' Hk') as (? & ? & ?). apply Hmin in Hk'. unfold key_le, Z_key in Hk'.
    split_and!; done || lia. }
  destruct (drain_spec (S (size (pending s))) id _ out Hok' ltac:(simpl; lia))
    as (rel & s' & Hd & Hp & Hj & Hs). cbn [next_expected] in Hj.
  destruct rel as [|m' rel].
  { inversion Hp; subst. unfold settled in Hs. cbn [pending next_expected] in Hs. congruence. }
  exists (m' :: rel), s'. unfold drain_all. cbn [pending]. split; [done|]. inversion Hp as [|? k ? ? ? Hb' Hp']; subst.
  cbn [pending so_started] in Hb', Hp'. rewrite Hb in Hb'. injection Hb' as <- <-.
  split_and!; [by econstructor|done|done|]. cbn [jumps_from] in *. rewrite Z.eqb_refl in Hj.
  rewrite Z.add_0_l in Hj. rewrite Hj. repeat case_bool; reflect_bools; lia.
Qed.

Lemma count_up_add g k : u64 (count_up g + k) = u64 (g + (1 + k)).
Proof. unfold count_up, u64. rewrite Z.add_mod_idemp_l by lia. f_equal. lia. Qed.

Lemma window_loop_spec turns window id s gaps out :
  order_ok id s -> settled s -> (size (pending s) < turns)%nat ->
  exists rel s' gaps', window_loop turns window s gaps out = Ok (s', gaps', out ++ rel) /\
    pops s rel s' /\ settled s' /\ (size (pending s') <= window)%nat /\
    u64 gaps' = u64 (gaps + jumps_from (next_expected s) rel) /\ (rel = [] \/ (window < size (pending s))%nat).
Proof.
  revert s gaps out. induction turns as [|turns IH]; intros s gaps out Hok Hset Ht; [lia|].
  cbn [window_loop]. destruct (window <? size (pending s))%nat eqn:Ew; reflect_bools.
  - destruct (map_begin_is_Some (pending s)) as (lowest & m & Hb).
    { intros He. rewrite He, map_size_empty in Ew. lia. }
    rewrite Hb. destruct (drain_from_lowest id s lowest m out Hok Hb)
      as (rel & s1 & -> & Hp & Hs1 & Hne & Hj). cbn [obind].
    pose proof (pops_size id s rel s1 Hp Hok) as Hsz.
    destruct (pops_spec id s rel s1 Hp Hok) as (Hok1 & _ & _ & Hcur & _).
    assert (length rel <> 0%nat) by (by destruct rel).
    set (g := if next_expected s <? lowest then count_up gaps else gaps).
    destruct (IH s1 g (out ++ rel) Hok1 Hs1 ltac:(lia)) as (rel' & s' & gaps' & -> & Hp' & Hs' & Hw & Hg & _).
    exists (rel ++ rel'), s', gaps'. rewrite app_assoc. split_and!; try done; [| |by right].
    + by eapply pops_app.
    + rewrite Hg, jumps_from_app, <- Hcur, Hj. unfold g. case_bool; [by rewrite count_up_add|done].
  - exists [], s, gaps. rewrite app_nil_r. split_and!; try done; [constructor| |by left].
    simpl. by rewrite Z.add_0_r.
Qed.

Lemma flush_loop_spec turns id s gaps out :
  order_ok id s -> (size (pending s) < turns)%nat ->
  exists rel s' gaps', flush_loop turns s gaps out = Ok (s', gaps', out ++ rel) /\
    pops s rel s' /\ pending s' = ∅ /\
    u64 gaps' = u64 (gaps + jumps_from (next_expected s) rel).
Proof.
  revert s gaps out. induction turns as [|turns IH]; intros s gaps out Hok Ht; [lia|].
  cbn [flush_loop]. destruct (map_begin (pending s)) as [[k m]|] eqn:Hb.
  - destruct (order_ok_begin id s k m Hok Hb) as (Hok1 & Hk & Hmk & _ & Hheld).
    destruct Hok as [Hn Hs]. rewrite u32_next by lia.
    set (g := if next_expected s <? k then count_up gaps else gaps).
    destruct (IH _ g (out ++ [m]) Hok1) as (rel & s' & gaps' & -> & Hp & He & Hg).
    { rewrite !size_held in *. rewrite Hheld in Ht. simpl in Ht. lia. }
    exists (m :: rel), s', gaps'. rewrite <- app_assoc. split_and!; try done; [by econstructor|].
    cbn [next_expected] in Hg. rewrite Hg. cbn [jumps_from]. rewrite Hmk. unfold g.
    destruct (Z.eqb_spec k (next_expected s)) as [->|Hne].
    + by rewrite Z.ltb_irrefl.
    + rewrite (proj2 (Z.ltb_lt _ _)) by lia. apply count_up_add.
  - exists [], s, gaps. rewrite app_nil_r. split_and!; try done; [constructor| |].
    + by apply map_begin_None.
    + simpl. by rewrite Z.add_0_r.
Qed.

(** ** Histories *)

Inductive queue_op := Offer (m : Message) | Flush (id : Z).

Definition run_queue_op (q : DeliveryQueue) (o : queue_op) : outcome (list Message * DeliveryQueue) :=
  match o with Offer m => offer q m | Flush id => flush_stream q id end.

Fixpoint run_queue (q : DeliveryQueue) (ops : list queue_op) : outcome (list Message * DeliveryQueue) :=
  match ops with
  | [] => Ok ([], q)
  | o :: ops' =>
      let? (out, q) := run_queue_op q o in
      let? (rest, q) := run_queue q ops' in
      Ok (out ++ rest, q)
  end.

Fixpoint offers (ops : list queue_op) : list Message :=
  match ops with
  | [] => []
  | Offer m :: ops' => m :: offers ops'
  | Flush _ :: ops' => offers ops'
  end.

(** Everything still buffered, over all streams. *)
Definition all_held (q : DeliveryQueue) : list Message :=
  concat (map (fun kv => held kv.2) (map_to_list (dq_streams q))).

Definition on_stream (id : Z) (ms : list Message) : list Message :=
  List.filter (fun m => m_stream_id m =? id) ms.

Definition stream_ok (window : nat) (id : Z) (s : StreamOrder) : Prop :=
  order_ok id s /\ settled s /\ so_started s = true /\ (size (pending s) <= window)%nat.
Definition queue_ok (q : DeliveryQueue) : Prop :=
  (1 <= dq_window q)%nat /\ map_Forall (stream_ok (dq_window q)) (dq_streams q).

(** The cursor of a stream, once it has one. *)
Definition cursor (q : DeliveryQueue) (id : Z) : option Z :=
  next_expected <$> dq_streams q !! id.

(** Skips recorded while [out] is released, from the cursors [c]. *)
Fixpoint skips (c : Z -> option Z) (out : list Message) : Z :=
  match out with
  | [] => 0
  | m :: out' =>
      match c (m_stream_id m) with
      | Some n => if m_msg_id m =? n then 0 else 1
      | None => 0
      end + skips (fun id => if id =? m_stream_id m then Some (m_msg_id m + 1) else c id) out'
  end.

(** Releasing [out] on stream [id], from the cursor [n] (if any) to [n']. *)
Definition emits (id : Z) (n : option Z) (out : list Message) (n' : Z) : Prop :=
  Forall (fun m => m_stream_id m = id /\ m_msg_id m < n' /\
            match n with Some n => n <= m_msg_id m | None => True end) out /\
  StronglySorted Z.lt (map m_msg_id out) /\
  match n with
  | Some n => n <= n' /\ n' = cursor_after n out
  | None => exists m rel, out = m :: rel /\ n' = cursor_after (m_msg_id m + 1) rel
  end.

Lemma pops_emits id s out s' : pops s out s' -> order_ok id s ->
  emits id (Some (next_expected s)) out (next_expected s').
Proof.
  intros Hp Hok. destruct (pops_spec id s out s' Hp Hok) as (_ & _ & _ & Hc & Hf & Hs & Hle).
  split_and!; try done. eapply Forall_impl; [exact Hf|]. simpl. intros m (? & ?). split_and!; done || lia.
Qed.

(** In-order arrival at the cursor [n]: the message itself and what it unblocks. *)
Lemma emits_cons id n m rel n' :
  m_stream_id m = id -> (forall c, n = Some c -> m_msg_id m = c) ->
  emits id (Some (m_msg_id m + 1)) rel n' -> emits id n (m :: rel) n'.
Proof.
  intros Hid Hn (Hf & Hs & Hle & Hc). split_and!.
  - constructor.
    + split_and!; [done|lia|]. destruct n as [c|]; [rewrite (Hn c) by done; lia|done].
    + eapply Forall_impl; [exact Hf|]. simpl. intros x (? & ? & ?). split_and!; [done|lia|].
      destruct n as [c|]; [rewrite <- (Hn c) by done; lia|done].
  - cbn [map]. constructor; [done|]. apply Forall_fmap. eapply Forall_impl; [exact Hf|]. simpl. lia.
  - destruct n as [c|]; [|by exists m, rel]. pose proof (Hn c eq_refl). split; [lia|done].
Qed.

Definition offer_ok (m : Message) : Prop := 0 <= m_msg_id m < kIdLimit.

Definition fresh_order : StreamOrder := MkOrder false 0 ∅.
Definition stream_of (q : DeliveryQueue) (id : Z) : StreamOrder := default fresh_order (dq_streams q !! id).

(** The skips of one release on one stream. *)
Definition skips1 (n : option Z) (out : list Message) : Z :=
  match n with
  | Some n => jumps_from n out
  | None => match out with [] => 0 | m :: rel => jumps_from (m_msg_id m + 1) rel end
  end.

(** A message behind its stream's cursor, or one whose id is already buffered. *)
Definition stale (q : DeliveryQueue) (m : Message) : bool :=
  match cursor q (m_stream_id m) with
  | Some n => (m_msg_id m <? n) || bool_decide (is_Some (pending (stream_of q (m_stream_id m)) !! m_msg_id m))
  | None => false
  end.

(** One operation on stream [id] that takes [accepted] into the buffer and drops [dropped]. *)
Definition step_post (q : DeliveryQueue) (id : Z) (accepted dropped : list Message)
    (r : list Message * DeliveryQueue) : Prop :=
  exists s' gaps' dups', r.2 = set_stream q id s' gaps' dups' /\
    stream_ok (dq_window q) id s' /\ emits id (cursor q id) r.1 (next_expected s') /\
    accepted ++ held (stream_of q id) ≡ₚ r.1 ++ held s' /\
    u64 dups' = u64 (dq_duplicates q + Z.of_nat (length dropped)) /\
    u64 gaps' = u64 (dq_gaps q + skips1 (cursor q id) r.1).

Lemma emits_nil id n : emits id (Some n) [] n.
Proof. split_and!; [constructor..|lia|done]. Qed.

(** The state of a stream when a message arrives: [started] is set, and a first
    message finds the cursor at its own id. *)
Definition arrival (s : StreamOrder) (msg : Message) : StreamOrder :=
  if negb (so_started s) then MkOrder true (m_msg_id msg) (pending s) else s.

Lemma arrival_ok q msg : queue_ok q -> offer_ok msg ->
  let s := arrival (stream_of q (m_stream_id msg)) msg in
  stream_ok (dq_window q) (m_stream_id msg) s /\
  held (stream_of q (m_stream_id msg)) = held s /\
  (cursor q (m_stream_id msg) = Some (next_expected s) \/
   cursor q (m_stream_id msg) = None /\ next_expected s = m_msg_id msg).
Proof.
  intros [Hw Hq] Hm. unfold stream_of, arrival, cursor.
  destruct (dq_streams q !! m_stream_id msg) as [s|] eqn:Es; cbn [from_option id].
  - pose proof (Hq _ s Es) as (H1 & H2 & H3 & H4). rewrite H3. cbn [negb]. split_and!; try done. by left.
  - cbn [fresh_order so_started negb pending next_expected]. unfold offer_ok in Hm.
    split; [|by split; [|right]]. split.
    { split; cbn [next_expected pending]; [lia|]. intros k m' Hk. by rewrite lookup_empty in Hk. }
    split; [apply lookup_empty|]. split; [done|]. cbn [pending]. rewrite map_size_empty. lia.
Qed.

(** The three ways a message is received, from the state [s] it finds. *)
Section one_offer.
Context (q : DeliveryQueue) (msg : Message) (s : StreamOrder).
Let id := m_stream_id msg.
Hypothesis Hm : offer_ok msg.
Hypothesis Hs : stream_ok (dq_window q) id s.
Hypothesis Hheld : held (stream_of q id) = held s.

Lemma offer_dropped : cursor q id = Some (next_expected s) ->
  step_post q id [] [msg] ([], set_stream q id s (dq_gaps q) (count_up (dq_duplicates q))).
Proof.
  intros Hc. exists s, (dq_gaps q), (count_up (dq_duplicates q)).
  rewrite Hc, Hheld. cbn [fst snd app length]. split; [done|]. split; [done|]. split; [|split; [|split]].
  - apply emits_nil.
  - done.
  - rewrite <- (Z.add_0_r (count_up _)), count_up_add. done.
  - simpl. by rewrite Z.add_0_r.
Qed.

Lemma offer_released : m_msg_id msg = next_expected s ->
  (cursor q id = Some (next_expected s) \/ cursor q id = None /\ next_expected s = m_msg_id msg) ->
  exists out s', drain_all (MkOrder (so_started s) (u32 (next_expected s + 1)) (pending s)) [msg] = Ok (s', out) /\
    step_post q id [msg] [] (out, set_stream q id s' (dq_gaps q) (dq_duplicates q)) /\ skips1 (cursor q id) out = 0.
Proof.
  intros He Hcur. destruct Hs as (Hok & Hset & Hst & Hsz). unfold offer_ok in Hm. rewrite <- He, u32_next by lia.
  assert (Hok1 : order_ok id (MkOrder (so_started s) (m_msg_id msg + 1) (pending s))).
  { destruct Hok as [Hn Hp]. split; cbn [next_expected pending]; [lia|]. intros k m' Hk.
    destruct (Hp k m' Hk) as (? & ? & ?). split_and!; try done; try lia.
    assert (k <> next_expected s) by (intros ->; unfold settled in Hset; congruence). lia. }
  destruct (drain_spec (S (size (pending s))) id _ [msg] Hok1 ltac:(simpl; lia)) as (rel & s' & Hd & Hp & Hj & Hs').
  exists ([msg] ++ rel), s'. split; [done|]. destruct (pops_spec id _ rel s' Hp Hok1) as (Hok' & Hh & Hst' & Hc' & _).
  pose proof (pops_size id _ rel s' Hp Hok1) as Hsz'. cbn [pending next_expected so_started] in *.
  assert (Hj0 : skips1 (cursor q id) (msg :: rel) = 0).
  { unfold skips1. destruct (cursor q id) as [c|]; [|exact Hj].
    destruct Hcur as [[= ->]|[[=] _]]. cbn [jumps_from]. by rewrite He, Z.eqb_refl, <- He, Hj. }
  split; [|done]. exists s', (dq_gaps q), (dq_duplicates q). cbn [fst snd app length]. split; [done|].
  split; [split; [done|split; [done|split; [congruence|lia]]]|]. split; [|split; [|split]].
  - apply emits_cons; [done| |by apply (pops_emits id _ _ _ Hp)].
    intros c Hc. destruct Hcur as [Hcur|[Hcur _]]; congruence.
  - rewrite Hheld. change (held s) with (held (MkOrder (so_started s) (m_msg_id msg + 1) (pending s))).
    by rewrite Hh.
  - by rewrite Z.add_0_r.
  - by rewrite Hj0, Z.add_0_r.
Qed.

Lemma offer_held : next_expected s < m_msg_id msg -> pending s !! m_msg_id msg = None -> cursor q id = Some (next_expected s) ->
  let s1 := MkOrder (so_started s) (next_expected s) (<[m_msg_id msg := msg]> (pending s)) in
  exists out s' gaps', window_loop (S (size (pending s1))) (dq_window q) s1 (dq_gaps q) [] = Ok (s', gaps', out) /\
    step_post q id [msg] [] (out, set_stream q id s' gaps' (dq_duplicates q)) /\
    (skips1 (cursor q id) out = 0 \/ size (pending s) = dq_window q).
Proof.
  intros Hlt Ep Hc s1. destruct Hs as (Hok & Hset & Hst & Hsz).
  assert (Hok1 : order_ok id s1).
  { destruct Hok as [Hn Hp]. unfold offer_ok in Hm. split; [done|]. unfold s1. cbn [next_expected pending].
    intros k m' [[<- <-]|[_ Hk]]%lookup_insert_Some; [split_and!; done || lia|by apply Hp]. }
  assert (Hset1 : settled s1).
  { unfold settled, s1. cbn [pending next_expected]. by rewrite lookup_insert_ne by lia. }
  destruct (window_loop_spec (S (size (pending s1))) (dq_window q) id s1 (dq_gaps q) [] Hok1 Hset1
    ltac:(lia)) as (rel & s' & gaps' & Hwl & Hp & Hs' & Hw & Hg & Hover).
  exists rel, s', gaps'. split; [exact Hwl|]. rewrite Hc. split.
  2: { destruct Hover as [->|Hover]; [by left|right]. unfold s1 in Hover. cbn [pending] in Hover.
       rewrite map_size_insert_None in Hover by done. lia. } destruct (pops_spec id _ rel s' Hp Hok1) as (Hok' & Hh & Hst' & Hc' & _).
  exists s', gaps', (dq_duplicates q). cbn [fst snd length]. rewrite Hc. split; [done|].
  split; [split; [done|split; [done|split; [rewrite Hst'; exact Hst|done]]]|]. split; [|split; [|split]].
  - by apply (pops_emits id _ _ _ Hp).
  - rewrite Hheld, <- Hh. unfold s1, held. cbn [pending]. by rewrite map_to_list_insert.
  - by rewrite Z.add_0_r.
  - done.
Qed.
End one_offer.

(** A message is dropped exactly when it is stale; an offer skips an id only when the buffer
    of its stream is full. *)
Lemma offer_step q msg : queue_ok q -> offer_ok msg ->
  exists r, offer q msg = Ok r /\
    step_post q (m_stream_id msg) (if stale q msg then [] else [msg]) (if stale q msg then [msg] else []) r /\
    (skips1 (cursor q (m_stream_id msg)) r.1 = 0 \/ size (pending (stream_of q (m_stream_id msg))) = dq_window q).
Proof.
  intros Hq Hm. destruct (arrival_ok q msg Hq Hm) as (Hs & Hheld & Hcur).
  unfold offer, stale. change (default (MkOrder false 0 ∅) (dq_streams q !! m_stream_id msg))
    with (stream_of q (m_stream_id msg)).
  fold (arrival (stream_of q (m_stream_id msg)) msg).
  assert (Hpe : pending (stream_of q (m_stream_id msg)) = pending (arrival (stream_of q (m_stream_id msg)) msg))
    by (unfold arrival; by destruct (negb _)).
  rewrite Hpe. set (s := arrival (stream_of q (m_stream_id msg)) msg) in *.
  destruct (Z.ltb_spec (m_msg_id msg) (next_expected s)) as [Hlt|Hge].
  { assert (Hc : cursor q (m_stream_id msg) = Some (next_expected s)) by (destruct Hcur as [|[_ ?]]; [done|lia]).
    eexists. split; [done|]. rewrite Hc, (proj2 (Z.ltb_lt _ _)) by done. split; [by apply offer_dropped|by left]. }
  destruct (Z.eqb_spec (m_msg_id msg) (next_expected s)) as [He|Hne].
  { assert (Est : match cursor q (m_stream_id msg) with
      | Some n => (m_msg_id msg <? n) || bool_decide (is_Some (pending s !! m_msg_id msg)) | None => false end = false).
    { destruct Hcur as [->|[-> _]]; [|done]. destruct Hs as (_ & Hset & _). unfold settled in Hset.
      by rewrite He, Hset, Z.ltb_irrefl. }
    destruct (offer_released q msg s Hm Hs Hheld He Hcur) as (out & s' & -> & Hpost & Hj). rewrite Est.
    eexists. split; [done|]. split; [done|by left]. }
  assert (Hc : cursor q (m_stream_id msg) = Some (next_expected s)) by (destruct Hcur as [|[_ ?]]; [done|lia]).
  rewrite Hc, (proj2 (Z.ltb_ge _ _)), <- Hc by done. cbn [orb].
  destruct (pending s !! m_msg_id msg) as [m'|] eqn:Ep.
  { eexists. split; [done|]. split; [by apply offer_dropped|left; by rewrite Hc]. }
  destruct (offer_held q msg s Hm Hs Hheld ltac:(lia) Ep Hc) as (out & s' & gaps' & E & Hpost & Hfull).
  cbv zeta in E. rewrite E. by eexists.
Qed.

Lemma flush_step q id : queue_ok q ->
  match dq_streams q !! id with
  | None => flush_stream q id = Ok ([], q)
  | Some _ => exists r, flush_stream q id = Ok r /\ step_post q id [] [] r
  end.
Proof.
  intros [Hw Hq]. unfold flush_stream. destruct (dq_streams q !! id) as [s|] eqn:Es; [|done].
  destruct (Hq id s Es) as (Hok & Hset & Hst & Hsz).
  destruct (flush_loop_spec (S (size (pending s))) id s (dq_gaps q) [] Hok ltac:(lia))
    as (rel & s' & gaps' & -> & Hp & He & Hg). cbn [obind app].
  destruct (pops_spec id _ rel s' Hp Hok) as (Hok' & Hh & Hst' & Hc' & _).
  eexists. split; [done|]. exists s', gaps', (dq_duplicates q).
  assert (Hc : cursor q id = Some (next_expected s)) by (unfold cursor; by rewrite Es).
  cbn [fst snd length app]. rewrite Hc. split; [done|].
  split; [split; [done|split; [|split; [congruence|]]]|].
  { unfold settled. by rewrite He, lookup_empty. }
  { rewrite He, map_size_empty. lia. }
  split; [|split; [|split]].
  - by apply (pops_emits id _ _ _ Hp).
  - rewrite <- Hh. unfold stream_of. by rewrite Es.
  - by rewrite Z.add_0_r.
  - done.
Qed.

(** *** Composition *)

Lemma skips_ext c c' out : (forall id, c id = c' id) -> skips c out = skips c' out.
Proof.
  revert c c'. induction out as [|m out IH]; intros c c' H; [done|]. cbn [skips]. rewrite H. f_equal.
  apply IH. intros id. by rewrite H.
Qed.

Lemma skips_same id c c' n out rest :
  Forall (fun m => m_stream_id m = id) out -> c id = Some n ->
  (forall id', id' <> id -> c' id' = c id') -> c' id = Some (cursor_after n out) ->
  skips c (out ++ rest) = jumps_from n out + skips c' rest.
Proof.
  intros Hout. revert c n. induction Hout as [|m out Hm Hout IH]; intros c n Hc Ho Hc'.
  { cbn [app jumps_from cursor_after] in *. rewrite Z.add_0_l. apply skips_ext. intros id'.
    destruct (decide (id' = id)) as [->|Hne]; [congruence|by rewrite Ho]. }
  cbn [app skips jumps_from cursor_after] in *. rewrite Hm, Hc.
  rewrite (IH _ (m_msg_id m + 1)); [lia|by rewrite Z.eqb_refl| |done].
  intros id' Hne. rewrite (proj2 (Z.eqb_neq _ _)) by done. by apply Ho.
Qed.

Lemma skips_emits id c c' out rest n' :
  emits id (c id) out n' -> (forall id', id' <> id -> c' id' = c id') -> c' id = Some n' ->
  skips c (out ++ rest) = skips1 (c id) out + skips c' rest.
Proof.
  intros (Hf & _ & Hn) Ho Hc'.
  assert (Hs : Forall (fun m => m_stream_id m = id) out).
  { eapply Forall_impl; [exact Hf|]. simpl. tauto. }
  unfold skips1. destruct (c id) as [n|] eqn:Ec.
  - destruct Hn as [_ ->]. by apply (skips_same id c c' n).
  - destruct Hn as (m & rel & -> & ->). apply Forall_cons in Hs as [Hm Hs].
    cbn [app skips]. rewrite Hm, Ec. rewrite (skips_same id _ c' (m_msg_id m + 1)); [lia|done| | |done].
    + by rewrite Z.eqb_refl.
    + intros id' Hne. rewrite (proj2 (Z.eqb_neq _ _)) by done. by apply Ho.
Qed.

Definition held_map (M : gmap Z StreamOrder) : list Message :=
  concat (map (fun kv => held kv.2) (map_to_list M)).

Lemma held_map_insert M id s : M !! id = None -> held_map (<[id := s]> M) ≡ₚ held s ++ held_map M.
Proof.
  intros H. unfold held_map.
  assert (Hp : forall l k : list (Z * StreamOrder), l ≡ₚ k ->
    concat (map (fun kv => held kv.2) l) ≡ₚ concat (map (fun kv => held kv.2) k)).
  { induction 1 as [|x l k Hp IH|x y l|l1 l2 l3 _ IH1 _ IH2]; cbn [map concat]; [done| | |by etrans].
    - by rewrite IH.
    - rewrite !app_assoc. f_equiv. apply Permutation_app_comm. }
  by rewrite (Hp _ _ (map_to_list_insert M id s H)).
Qed.

Lemma held_map_lookup M id : held_map M ≡ₚ held (default fresh_order (M !! id)) ++ held_map (delete id M).
Proof.
  destruct (M !! id) as [s|] eqn:Es; cbn [from_option].
  - rewrite <- (insert_delete_id M id s Es) at 1. by rewrite held_map_insert by apply lookup_delete_eq.
  - unfold held, fresh_order. cbn [pending]. rewrite map_to_list_empty, delete_id by done. done.
Qed.

Lemma set_stream_held q id s g d :
  all_held (set_stream q id s g d) ≡ₚ held s ++ held_map (delete id (dq_streams q)).
Proof.
  unfold all_held, set_stream. cbn [dq_streams]. fold (held_map (<[id := s]> (dq_streams q))).
  rewrite (held_map_lookup _ id), lookup_insert_eq, delete_insert_eq. done.
Qed.

Definition op_stream (o : queue_op) : Z := match o with Offer m => m_stream_id m | Flush id => id end.
Definition op_ok (o : queue_op) : Prop := match o with Offer m => offer_ok m | Flush _ => True end.
Definition op_offers (o : queue_op) : list Message := match o with Offer m => [m] | Flush _ => [] end.

Lemma on_stream_app id l k : on_stream id (l ++ k) = on_stream id l ++ on_stream id k.
Proof. apply List.filter_app. Qed.
Lemma on_stream_all id l : Forall (fun m => m_stream_id m = id) l -> on_stream id l = l.
Proof.
  induction 1 as [|m l Hm Hl IH]; [done|]. unfold on_stream in *. simpl.
  by rewrite (proj2 (Z.eqb_eq _ _)), IH.
Qed.
Lemma on_stream_none id id' l : Forall (fun m => m_stream_id m = id) l -> id' <> id -> on_stream id' l = [].
Proof.
  intros Hl Hne. induction Hl as [|m l Hm Hl IH]; [done|]. unfold on_stream in *. simpl.
  by rewrite (proj2 (Z.eqb_neq _ _)) by congruence.
Qed.

(** What a run from a consistent queue delivers, keeps and drops. *)
Definition run_post (q : DeliveryQueue) (offered dropped : list Message) (r : list Message * DeliveryQueue) : Prop :=
  let '(out, q') := r in
  queue_ok q' /\ dq_window q' = dq_window q /\
  (forall id, StronglySorted Z.lt (map m_msg_id (on_stream id out)) /\
     Forall (fun m => match cursor q id with Some n => n <= m_msg_id m | None => True end)
       (on_stream id out)) /\
  offered ++ all_held q ≡ₚ out ++ all_held q' ++ dropped /\
  u64 (dq_duplicates q') = u64 (dq_duplicates q + Z.of_nat (length dropped)) /\
  u64 (dq_gaps q') = u64 (dq_gaps q + skips (cursor q) out).

Lemma u64_add_compat a b k : u64 a = u64 b -> u64 (a + k) = u64 (b + k).
Proof. unfold u64. intros H. rewrite <- (Z.add_mod_idemp_l a), <- (Z.add_mod_idemp_l b), H by lia. done. Qed.

Lemma run_cons q id acc drop1 more drop2 r1 r2 :
  step_post q id acc drop1 r1 -> run_post r1.2 more drop2 r2 ->
  run_post q ((acc ++ drop1) ++ more) (drop1 ++ drop2) (r1.1 ++ r2.1, r2.2).
Proof.
  destruct r1 as [out1 q1], r2 as [out2 q2]. unfold step_post, run_post. cbn [fst snd].
  intros (s' & g1 & d1 & -> & Hs' & Hem & Hperm & Hd1 & Hg1)
    (Hq2 & Hw2 & Hsort & Hperm2 & Hd2 & Hg2).
  set (q1 := set_stream q id s' g1 d1) in *.
  assert (Hcid : cursor q1 id = Some (next_expected s')).
  { unfold cursor, q1, set_stream. cbn [dq_streams]. by rewrite lookup_insert_eq. }
  assert (Hco : forall id', id' <> id -> cursor q1 id' = cursor q id').
  { intros id' Hne. unfold cursor, q1, set_stream. cbn [dq_streams]. by rewrite lookup_insert_ne. }
  pose proof Hem as (Hf & Hsorted & Hn).
  assert (Hst : Forall (fun m => m_stream_id m = id) out1) by (eapply Forall_impl; [exact Hf|]; simpl; tauto).
  split; [done|]. split; [done|]. split.
  - intros id'. rewrite on_stream_app, map_app, Forall_app. destruct (Hsort id') as [Hs2 Hf2].
    destruct (decide (id' = id)) as [->|Hne].
    + rewrite on_stream_all by done. rewrite Hcid in Hf2. split; [|split].
      * apply StronglySorted_app. split_and!; [|done..]. intros a b (x & -> & Hx)%list_elem_of_fmap
          (y & -> & Hy)%list_elem_of_fmap. rewrite Forall_forall in Hf, Hf2.
        specialize (Hf x Hx). specialize (Hf2 y Hy). simpl in *. lia.
      * eapply Forall_impl; [exact Hf|]. simpl. tauto.
      * destruct (cursor q id) as [n|]; [|by apply Forall_true].
        eapply Forall_impl; [exact Hf2|]. simpl. lia.
    + rewrite (on_stream_none id id') by done. cbn [app map]. rewrite (Hco id') in Hf2 by done.
      split_and!; [done|constructor|done].
  - split; [|split].
    + unfold q1 in Hperm2. rewrite set_stream_held in Hperm2.
      change (all_held q) with (held_map (dq_streams q)). rewrite (held_map_lookup _ id).
      fold (stream_of q id).
      transitivity (more ++ drop1 ++ (acc ++ held (stream_of q id)) ++ held_map (delete id (dq_streams q))).
      { solve_Permutation. }
      rewrite Hperm. transitivity (out1 ++ drop1 ++ (more ++ held s' ++ held_map (delete id (dq_streams q)))).
      { solve_Permutation. }
      rewrite Hperm2. solve_Permutation.
    + rewrite Hd2, length_app, Nat2Z.inj_add, Z.add_assoc. by apply u64_add_compat.
    + rewrite Hg2. unfold q1 at 1, set_stream. cbn [dq_gaps].
      rewrite (skips_emits id (cursor q) (cursor q1) out1 out2 (next_expected s')) by done.
      rewrite Z.add_assoc. by apply u64_add_compat.
Qed.

Lemma step_queue_ok q id acc dr r : queue_ok q -> step_post q id acc dr r -> queue_ok r.2.
Proof.
  intros [Hw Hq] (s' & g & d & -> & Hs & _). split; [done|]. cbn [set_stream dq_streams dq_window].
  by apply map_Forall_insert_2.
Qed.

(** ** What a queue knows of its history *)

(** A message is late when its stream was already offered its id or has delivered a later one. *)
Definition late (offered out : list Message) (m : Message) : bool :=
  existsb (fun o => (m_stream_id o =? m_stream_id m) && (m_msg_id o =? m_msg_id m)) offered ||
  existsb (fun d => (m_stream_id d =? m_stream_id m) && (m_msg_id m <? m_msg_id d)) out.

(** The late messages among the offers of a run, after [offered] came in and [out] went out. *)
Fixpoint late_offers (q : DeliveryQueue) (offered out : list Message) (ops : list queue_op) : list Message :=
  match ops with
  | [] => []
  | o :: ops' =>
      match run_queue_op q o with
      | Ok (rel, q') => List.filter (late offered out) (op_offers o) ++
                        late_offers q' (offered ++ op_offers o) (out ++ rel) ops'
      | _ => []
      end
  end.

(** The cursors and buffers of [q] after [offered] came in and [out] went out. *)
Record traced (q : DeliveryQueue) (offered out : list Message) : Prop := {
  out_offered m : m ∈ out -> m ∈ offered;
  offered_stale m : m ∈ offered -> stale q m = true;
  out_cursor m n : m ∈ out -> cursor q (m_stream_id m) = Some n -> m_msg_id m < n;
  cursor_out id n : cursor q id = Some n -> exists m, m ∈ out /\ m_stream_id m = id /\ m_msg_id m = n - 1;
  held_offered id m : m ∈ held (stream_of q id) -> m ∈ offered;
}.

Lemma elem_held s m : m ∈ held s <-> exists k, pending s !! k = Some m.
Proof.
  unfold held. rewrite list_elem_of_fmap. split.
  - intros ([k m'] & -> & Hk%elem_of_map_to_list). by exists k.
  - intros [k Hk]. exists (k, m). by rewrite elem_of_map_to_list.
Qed.

Lemma held_key window id s m : stream_ok window id s -> m ∈ held s ->
  pending s !! m_msg_id m = Some m /\ m_stream_id m = id /\ next_expected s < m_msg_id m.
Proof.
  intros ([_ Hok] & Hset & _) [k Hk]%elem_held. destruct (Hok k m Hk) as (Hn & <- & Hid). split; [done|]. split; [done|].
  assert (m_msg_id m <> next_expected s) by (intros E; unfold settled in Hset; rewrite <- E in Hset; congruence). lia.
Qed.

Lemma stream_of_ok q id m : queue_ok q -> m ∈ held (stream_of q id) ->
  cursor q id = Some (next_expected (stream_of q id)) /\ pending (stream_of q id) !! m_msg_id m = Some m /\
  m_stream_id m = id /\ next_expected (stream_of q id) < m_msg_id m.
Proof.
  intros [_ Hq] Hm. unfold stream_of, cursor in *. destruct (dq_streams q !! id) as [s|] eqn:Es; cbn [from_option] in *.
  - split; [done|]. by apply (held_key (dq_window q) id s m (Hq id s Es)).
  - apply elem_held in Hm as [k Hk]. unfold fresh_order in Hk. cbn [pending] in Hk. by rewrite lookup_empty in Hk.
Qed.

Lemma stale_spec q m : stale q m = true <->
  exists n, cursor q (m_stream_id m) = Some n /\
    (m_msg_id m < n \/ is_Some (pending (stream_of q (m_stream_id m)) !! m_msg_id m)).
Proof.
  unfold stale. destruct (cursor q (m_stream_id m)) as [n|].
  - rewrite orb_true_iff, Z.ltb_lt, bool_decide_eq_true. split; [eauto|]. by intros (? & [= ->] & H).
  - split; [done|]. by intros (? & [=] & _).
Qed.

Lemma late_spec offered out m : late offered out m = true <->
  (exists o, o ∈ offered /\ m_stream_id o = m_stream_id m /\ m_msg_id o = m_msg_id m) \/
  (exists d, d ∈ out /\ m_stream_id d = m_stream_id m /\ m_msg_id m < m_msg_id d).
Proof.
  unfold late. rewrite orb_true_iff, !existsb_exists.
  setoid_rewrite andb_true_iff. setoid_rewrite Z.eqb_eq. setoid_rewrite Z.ltb_lt.
  setoid_rewrite list_elem_of_In. done.
Qed.

(** The code's test for a duplicate is the one on the history. *)
Lemma stale_late q offered out m : queue_ok q -> traced q offered out -> stale q m = late offered out m.
Proof.
  intros Hq [Hoo Hos Hoc Hco Hho]. apply eq_true_iff_eq. rewrite stale_spec, late_spec. split.
  - intros (n & Hn & [Hlt|[h Hh]]).
    + destruct (Hco _ n Hn) as (d & Hd & Hds & Hdi). destruct (decide (m_msg_id d = m_msg_id m)) as [E|E].
      * left. exists d. auto.
      * right. exists d. split; [done|]. split; [done|lia].
    + left. assert (Hin : h ∈ held (stream_of q (m_stream_id m))) by (apply elem_held; eauto).
      destruct (stream_of_ok q _ h Hq Hin) as (_ & _ & Hs & _). exists h. split; [by eapply Hho|]. split; [done|].
      destruct Hq as [_ Hq]. unfold stream_of in Hh. destruct (dq_streams q !! m_stream_id m) as [s|] eqn:Es; cbn [from_option] in Hh.
      * destruct (Hq _ s Es) as ([_ Hok] & _). by destruct (Hok _ h Hh) as (_ & ? & _).
      * unfold fresh_order in Hh. cbn [pending] in Hh. by rewrite lookup_empty in Hh.
  - intros [(o & Ho & Hs & Hi)|(d & Hd & Hs & Hi)].
    + pose proof (Hos o Ho) as Hst. apply stale_spec in Hst. by rewrite Hs, Hi in Hst.
    + pose proof (Hos d (Hoo d Hd)) as Hst. apply stale_spec in Hst as (n & Hn & _). pose proof (Hoc d n Hd Hn).
      rewrite Hs in Hn. exists n. split; [done|]. left. lia.
Qed.

Lemma cursor_after_last n out : out = [] \/ exists m, m ∈ out /\ cursor_after n out = m_msg_id m + 1.
Proof.
  revert n. induction out as [|m out IH]; intros n; [by left|right]. cbn [cursor_after].
  destruct (IH (m_msg_id m + 1)) as [->|(m' & Hm' & ->)]; [exists m|exists m']; (split; [set_solver|done]).
Qed.

(** One operation keeps the trace. *)
Section one_step.
Context (q : DeliveryQueue) (offered out : list Message) (id : Z) (acc dropped : list Message) (r : list Message * DeliveryQueue).
Hypothesis Hq : queue_ok q.
Hypothesis Ht : traced q offered out.
Hypothesis Hr : step_post q id acc dropped r.

Lemma step_other id' : id' <> id -> cursor r.2 id' = cursor q id' /\ stream_of r.2 id' = stream_of q id'.
Proof.
  intros Hne. destruct Hr as (s' & g & d & -> & _). unfold cursor, stream_of, set_stream. cbn [dq_streams].
  by rewrite lookup_insert_ne.
Qed.

Lemma step_same : exists s', cursor r.2 id = Some (next_expected s') /\ stream_of r.2 id = s' /\
  stream_ok (dq_window q) id s' /\ emits id (cursor q id) r.1 (next_expected s') /\
  acc ++ held (stream_of q id) ≡ₚ r.1 ++ held s'.
Proof.
  destruct Hr as (s' & g & d & -> & Hs & He & Hp & _). exists s'. unfold cursor, stream_of, set_stream. cbn [dq_streams].
  by rewrite lookup_insert_eq.
Qed.

Lemma released_or_kept m : m ∈ acc ++ held (stream_of q id) -> stale r.2 m = true.
Proof.
  destruct step_same as (s' & Hc & Hst & Hok & (Hf & _) & Hp). rewrite Hp. intros [Hm|Hm]%elem_of_app; apply stale_spec.
  - rewrite Forall_forall in Hf. destruct (Hf m Hm) as (-> & Hlt & _). eauto.
  - destruct (held_key _ _ _ _ Hok Hm) as (Hk & -> & _). rewrite Hst, Hk. eauto.
Qed.

Lemma step_stale m : stale q m = true -> stale r.2 m = true.
Proof.
  destruct (decide (m_stream_id m = id)) as [Hid|Hne].
  - intros (n & Hn & [Hlt|[h Hh]])%stale_spec.
    + apply stale_spec. destruct step_same as (s' & Hc & _ & _ & (_ & _ & He) & _). rewrite Hid in *. rewrite Hn in He.
      exists (next_expected s'). split; [done|]. left. lia.
    + assert (Hin : h ∈ held (stream_of q (m_stream_id m))) by (apply elem_held; eauto).
      destruct (stream_of_ok q _ h Hq Hin) as (_ & Hk & Hs & _).
      assert (Hi : m_msg_id h = m_msg_id m).
      { destruct Hq as [_ Hq']. unfold stream_of in Hh. unfold cursor in Hn.
        destruct (dq_streams q !! m_stream_id m) as [s|] eqn:Es; [|done]. destruct (Hq' _ s Es) as ([_ Hok] & _).
        by destruct (Hok _ h Hh) as (_ & ? & _). }
      assert (Hsh : stale r.2 h = true) by (apply released_or_kept, elem_of_app; right; by rewrite <- Hid).
      unfold stale in *. by rewrite Hs, Hi in Hsh.
  - destruct (step_other _ Hne) as [Hc Hs]. unfold stale. by rewrite Hc, Hs.
Qed.

Lemma step_traced : Forall (fun m => stale q m = true) dropped -> traced r.2 (offered ++ acc ++ dropped) (out ++ r.1).
Proof.
  intros Hdr. rewrite Forall_forall in Hdr. destruct Ht as [Hoo Hos Hoc Hco Hho].
  destruct step_same as (s' & Hc & Hst & Hok & (Hf & _ & He) & Hp). rewrite Forall_forall in Hf.
  assert (Hin : forall m, m ∈ r.1 ++ held s' -> m ∈ offered ++ acc ++ dropped).
  { intros m. rewrite <- Hp, !elem_of_app. intros [?|?%Hho]; auto. }
  split.
  - intros m [?%Hoo|Hm]%elem_of_app; [apply elem_of_app; by left|]. apply Hin, elem_of_app. by left.
  - intros m [Hm%Hos|[Hm|Hm%Hdr]%elem_of_app]%elem_of_app; [by apply step_stale| |by apply step_stale].
    apply released_or_kept, elem_of_app. by left.
  - intros m n [Hm|Hm]%elem_of_app Hn.
    + destruct (decide (m_stream_id m = id)) as [Hid|Hne]; [|destruct (step_other _ Hne) as [E _]; rewrite E in Hn; eauto].
      destruct (proj1 (stale_spec q m) (Hos m (Hoo m Hm))) as (n0 & Hn0 & _). pose proof (Hoc m n0 Hm Hn0).
      rewrite Hid in *. rewrite Hn0 in He. rewrite Hc in Hn. injection Hn as <-. lia.
    + destruct (Hf m Hm) as (Hid & Hlt & _). rewrite Hid, Hc in Hn. by injection Hn as <-.
  - intros id' n Hn. destruct (decide (id' = id)) as [->|Hne].
    + rewrite Hc in Hn. injection Hn as <-. destruct (cursor q id) as [n0|] eqn:En.
      * destruct He as [_ ->]. destruct (cursor_after_last n0 r.1) as [->|(m & Hm & ->)].
        -- cbn [cursor_after]. destruct (Hco id n0 En) as (m & Hm & ?). exists m. rewrite app_nil_r. done.
        -- exists m. destruct (Hf m Hm) as (? & _). split; [apply elem_of_app; by right|]. split; [done|lia].
      * destruct He as (m & rel & Hrel & ->). destruct (cursor_after_last (m_msg_id m + 1) rel) as [->|(m' & Hm' & ->)].
        -- assert (Hm : m ∈ r.1) by (rewrite Hrel; left). destruct (Hf m Hm) as (? & _).
           exists m. split; [apply elem_of_app; by right|]. split; [done|cbn [cursor_after]; lia].
        -- assert (Hm : m' ∈ r.1) by (rewrite Hrel; by right). destruct (Hf m' Hm) as (? & _).
           exists m'. split; [apply elem_of_app; by right|]. split; [done|lia].
    + destruct (step_other _ Hne) as [E _]. rewrite E in Hn. destruct (Hco id' n Hn) as (m & Hm & ?).
      exists m. split; [apply elem_of_app; by left|done].
  - intros id' m Hm. destruct (decide (id' = id)) as [->|Hne].
    + rewrite Hst in Hm. apply Hin, elem_of_app. by right.
    + destruct (step_other _ Hne) as [_ E]. rewrite E in Hm. apply elem_of_app. left. by eapply Hho.
Qed.
End one_step.

Lemma new_queue_traced w : traced (new_queue w) [] [].
Proof.
  split; [done|by intros m Hm%elem_of_nil|done| |]; intros id *; unfold cursor, stream_of, new_queue; cbn [dq_streams];
    rewrite lookup_empty; [done|]. intros [k Hk]%elem_held. cbn in Hk. by rewrite lookup_empty in Hk.
Qed.

Lemma filter_late q offered out m : queue_ok q -> traced q offered out ->
  List.filter (late offered out) [m] = if stale q m then [m] else [].
Proof. intros Hq Ht. cbn [List.filter]. by rewrite (stale_late q offered out m). Qed.

Lemma run_queue_spec q offered out ops : queue_ok q -> traced q offered out -> Forall op_ok ops ->
  exists r, run_queue q ops = Ok r /\ run_post q (offers ops) (late_offers q offered out ops) r /\
    traced r.2 (offered ++ offers ops) (out ++ r.1).
Proof.
  intros Hq Ht Hops. revert q offered out Hq Ht. induction Hops as [|o ops Ho Hops IH]; intros q offered out Hq Ht.
  { eexists. split; [done|]. cbn [fst snd offers]. rewrite !app_nil_r. split; [|done]. split; [done|]. split; [done|]. split.
    { intros id. split; constructor. }
    cbn [late_offers skips length app]. rewrite app_nil_r. by rewrite !Z.add_0_r. }
  assert (Hstep : forall id acc dropped r1, acc ++ dropped = op_offers o -> dropped = List.filter (late offered out) (op_offers o) ->
    Forall (fun m => stale q m = true) dropped -> run_queue_op q o = Ok r1 -> step_post q id acc dropped r1 ->
    exists r', run_queue q (o :: ops) = Ok r' /\ run_post q (offers (o :: ops)) (late_offers q offered out (o :: ops)) r' /\
      traced r'.2 (offered ++ offers (o :: ops)) (out ++ r'.1)).
  { intros id acc dropped [out1 q1] Ea Ed Hst Hop Hr. cbn [run_queue late_offers]. rewrite Hop. cbn [obind].
    pose proof (step_traced q offered out id acc dropped _ Hq Ht Hr Hst) as Ht1.
    destruct (IH q1 _ _ (step_queue_ok _ _ _ _ _ Hq Hr) Ht1) as ([out2 q2] & -> & Hpost & Ht2). cbn [obind fst snd] in *.
    eexists. split; [done|]. rewrite <- Ed. replace (offers (o :: ops)) with ((acc ++ dropped) ++ offers ops)
      by (rewrite Ea; by destruct o). rewrite <- Ea. cbn [fst snd]. split.
    - by apply (run_cons q id acc dropped _ _ (out1, q1) (out2, q2)).
    - by rewrite !app_assoc in *. }
  destruct o as [m|id].
  - destruct (offer_step q m Hq Ho) as (r1 & E & Hs & _).
    apply (Hstep (m_stream_id m) (if stale q m then [] else [m]) (if stale q m then [m] else []) r1); [by destruct (stale q m)| | |done|done].
    + symmetry. by apply filter_late.
    + destruct (stale q m) eqn:Es; by repeat constructor.
  - pose proof (flush_step q id Hq) as Hs. destruct (dq_streams q !! id).
    + destruct Hs as (r1 & E & Hs). by apply (Hstep id [] [] r1).
    + cbn [run_queue late_offers run_queue_op offers op_offers List.filter app]. rewrite Hs. cbn [obind app].
      destruct (IH q offered out Hq Ht) as ([out2 q2] & -> & H). rewrite !app_nil_r. by eexists.
Qed.

Lemma new_queue_ok w : queue_ok (new_queue w).
Proof.
  split; [|apply map_Forall_empty]. unfold new_queue. cbn [dq_window]. case_bool; reflect_bools; lia.
Qed.

Lemma elem_all_held q m : m ∈ all_held q -> exists id, m ∈ held (stream_of q id).
Proof.
  unfold all_held. rewrite list_elem_of_In, in_concat. intros (l & ([id s] & <- & Hkv)%in_map_iff & Hm).
  apply list_elem_of_In, elem_of_map_to_list in Hkv. exists id. unfold stream_of. rewrite Hkv. by apply list_elem_of_In.
Qed.

(** Nothing that could be released is held back. *)
Lemma held_ahead q offered out m d : queue_ok q -> traced q offered out -> m ∈ all_held q -> d ∈ out ->
  m_stream_id d = m_stream_id m -> m_msg_id d + 1 < m_msg_id m.
Proof.
  intros Hq Ht [id Hm]%elem_all_held Hd Hs. destruct (stream_of_ok q id m Hq Hm) as (Hc & _ & Hid & Hlt).
  rewrite <- Hid, <- Hs in Hc. pose proof (out_cursor _ _ _ Ht d _ Hd Hc). rewrite Hs, Hid in *. lia.
Qed.

(** An offer skips an id only when the buffer of its stream is full. *)
Lemma offer_skips q m : queue_ok q -> offer_ok m -> exists rel q', offer q m = Ok (rel, q') /\
  (skips (cursor q) rel = 0 \/ size (pending (stream_of q (m_stream_id m))) = dq_window q).
Proof.
  intros Hq Hm. destruct (offer_step q m Hq Hm) as ([rel q'] & E & (s' & g & d & Eq & _ & Hem & _) & Hf).
  exists rel, q'. split; [done|]. cbn [fst snd] in *. destruct Hf as [Hf|Hf]; [left|by right].
  rewrite <- (app_nil_r rel). rewrite (skips_emits (m_stream_id m) (cursor q) (cursor q') rel [] (next_expected s')); [|done|..].
  - by rewrite Hf.
  - intros id' Hne. rewrite Eq. unfold cursor, set_stream. cbn [dq_streams]. by rewrite lookup_insert_ne.
  - rewrite Eq. unfold cursor, set_stream. cbn [dq_streams]. by rewrite lookup_insert_eq.
Qed.

(** ** Claims *)

(** C12. Ordered delivery, over any sequence of offers and flushes of messages with ids below
    2^32 - 1: every operation terminates, and on each stream the messages come out in
    strictly ascending id order, so none twice. Every offered message is delivered, still
    buffered or dropped; the dropped ones are exactly those that come late, whose stream was
    already offered their id or has already delivered a later one, and the duplicate counter is
    their number (modulo 2^64). The gap counter is the number of places where a delivered id
    does not follow its predecessor. Nothing that could be released is held back: a
    buffered message is never the successor of what its stream has delivered. No stream ever
    buffers more than its window, and an offer skips a missing id only when its stream's buffer
    is full. *)
Theorem delivery_in_order (window : nat) (ops : list queue_op) :
  Forall op_ok ops ->
  exists out q, run_queue (new_queue window) ops = Ok (out, q) /\
    (forall id, StronglySorted Z.lt (map m_msg_id (on_stream id out))) /\
    (let dropped := late_offers (new_queue window) [] [] ops in
     offers ops ≡ₚ out ++ all_held q ++ dropped /\
     dq_duplicates q mod 2 ^ 64 = Z.of_nat (length dropped) mod 2 ^ 64) /\
    dq_gaps q mod 2 ^ 64 = skips (fun _ => None) out mod 2 ^ 64 /\
    (forall m d, m ∈ all_held q -> d ∈ out -> m_stream_id d = m_stream_id m -> m_msg_id d + 1 < m_msg_id m) /\
    (forall id s, dq_streams q !! id = Some s -> (size (pending s) <= Nat.max 1 window)%nat) /\
    (forall m, offer_ok m -> exists rel q', offer q m = Ok (rel, q') /\
       (skips (cursor q) rel = 0 \/ size (pending (stream_of q (m_stream_id m))) = Nat.max 1 window)).
Proof.
  intros Hops. destruct (run_queue_spec (new_queue window) [] [] ops (new_queue_ok window) (new_queue_traced window) Hops)
    as ([out q] & Hrun & (Hqok & Hwin & Hsort & Hperm & Hd & Hg) & Ht). cbn [fst snd app] in *.
  assert (Ew : dq_window q = Nat.max 1 window).
  { rewrite Hwin. unfold new_queue. cbn [dq_window]. destruct window; simpl; lia. }
  exists out, q. split; [done|]. split; [apply Hsort|]. split; [|split; [|split; [|split]]].
  - cbv zeta. rewrite <- Hperm. unfold all_held at 1. cbn [new_queue dq_streams].
    rewrite map_to_list_empty, app_nil_r. by split.
  - cbn [new_queue dq_gaps] in Hg. rewrite Z.add_0_l in Hg. exact Hg.
  - intros m d. by apply (held_ahead q (offers ops) out).
  - intros id s Hs. destruct Hqok as [_ Hq]. destruct (Hq id s Hs) as (_ & _ & _ & Hsz). by rewrite <- Ew.
  - intros m Hm. rewrite <- Ew. by apply offer_skips.
Qed.

Definition sample_message (id msg : Z) : Message := MkMessage id msg false [msg mod 256].

Definition sample_ops : list queue_op :=
  [Offer (sample_message 1 10); Offer (sample_message 1 12); Offer (sample_message 2 3);
   Offer (sample_message 1 11); Offer (sample_message 1 11); Offer (sample_message 1 15);
   Offer (sample_message 1 17); Flush 1].

Lemma delivery_in_order_witness :
  exists out q, run_queue (new_queue 1) sample_ops = Ok (out, q) /\
    StronglySorted Z.lt (map m_msg_id (on_stream 1 out)) /\
    map m_msg_id (on_stream 1 out) = [10; 11; 12; 15; 17] /\
    late_offers (new_queue 1) [] [] sample_ops = [sample_message 1 11] /\ dq_gaps q = 2 /\ dq_duplicates q = 1.
Proof.
  destruct (delivery_in_order 1 sample_ops) as (out & q & Hrun & Hs & _).
  - repeat constructor; unfold op_ok, offer_ok, kIdLimit; cbn; lia.
  - exists out, q. split; [exact Hrun|]. split; [apply Hs|].
    vm_compute in Hrun. injection Hrun as <- <-. vm_compute. split_and!; reflexivity.
Defined.

(** The bound on the ids is needed: the cursor wraps after id 2^32 - 1, and a
    message that was delivered is then accepted again. *)
Theorem delivery_wrap_duplicates :
  exists out q, run_queue (new_queue 1)
      [Offer (sample_message 1 0xFFFFFFFF); Offer (sample_message 1 0xFFFFFFFF);
       Offer (sample_message 1 5); Flush 1] = Ok (out, q) /\
    map m_msg_id out = [0xFFFFFFFF; 5; 0xFFFFFFFF] /\ dq_duplicates q = 0.
Proof. do 2 eexists. split; [vm_compute; reflexivity|]. split; reflexivity. Qed.
