(* ===== verification/StreamDecoder.v ===== *)
(** * StreamDecoder: the streamcodec [decode] driver

    [src/streamcodec/decoder.cpp]: frames are pulled one at a time, accounted to
    their stream, and dispatched on their type. *)

From S2P Require Import Prelude Status ByteIO OrdMap Frame StreamState Reassembler Fragments.

Record ControlRecord := MkControl { ct_stream_id : Z; ct_ref_msg_id : Z; ct_window : Z }.
Record AckRecord := MkAckRecord { ak_stream_id : Z; ak_msg_id : Z }.

Record DecodeResult := MkDecode {
  dr_messages : list Message;
  dr_stats : list StreamStats;
  dr_controls : list ControlRecord;
  dr_acks : list AckRecord;
  frames_seen : Z;
  control_frames : Z;
  ack_frames : Z;
  reset_frames : Z;
  header_crc_ok : Z;
  header_crc_bad : Z;
}.

Definition empty_result : DecodeResult := MkDecode [] [] [] [] 0 0 0 0 0 0.

Definition parse_control (f : Frame) : outcome ControlRecord :=
  let? (c, _) := (
    let! rem := get_remaining in
    let! ref := (if (4 <=? rem)%nat then read_u32be else rd_ret 0) in
    let! rem := get_remaining in
    let! win := (if (4 <=? rem)%nat then read_u32be else rd_ret 0) in
    rd_ret (MkControl (f_stream_id f) ref win)) (mk_reader (f_payload f)) in
  Ok c.

(** The locals of [decode] that live across the loop. *)
Record decode_state := MkState {
  ds_reassembler : Reassembler;
  ds_streams : StreamTable;
  ds_result : DecodeResult;
}.

(** The counters every frame updates. *)
Definition count_frame (res : DecodeResult) (f : Frame) : DecodeResult :=
  MkDecode (dr_messages res) (dr_stats res) (dr_controls res) (dr_acks res)
    (inc (frames_seen res)) (control_frames res) (ack_frames res) (reset_frames res)
    (if f_has_crc f && f_crc_ok f then inc (header_crc_ok res) else header_crc_ok res)
    (if f_has_crc f && negb (f_crc_ok f) then inc (header_crc_bad res) else header_crc_bad res).

Definition add_message (res : DecodeResult) (m : Message) : DecodeResult :=
  MkDecode (dr_messages res ++ [m]) (dr_stats res) (dr_controls res) (dr_acks res)
    (frames_seen res) (control_frames res) (ack_frames res) (reset_frames res)
    (header_crc_ok res) (header_crc_bad res).
Definition add_control (res : DecodeResult) (c : ControlRecord) : DecodeResult :=
  MkDecode (dr_messages res) (dr_stats res) (dr_controls res ++ [c]) (dr_acks res)
    (frames_seen res) (inc (control_frames res)) (ack_frames res) (reset_frames res)
    (header_crc_ok res) (header_crc_bad res).
Definition add_ack (res : DecodeResult) (a : AckRecord) : DecodeResult :=
  MkDecode (dr_messages res) (dr_stats res) (dr_controls res) (dr_acks res ++ [a])
    (frames_seen res) (control_frames res) (inc (ack_frames res)) (reset_frames res)
    (header_crc_ok res) (header_crc_bad res).
Definition add_reset (res : DecodeResult) : DecodeResult :=
  MkDecode (dr_messages res) (dr_stats res) (dr_controls res) (dr_acks res)
    (frames_seen res) (control_frames res) (ack_frames res) (inc (reset_frames res))
    (header_crc_ok res) (header_crc_bad res).
Definition set_stats (res : DecodeResult) (s : list StreamStats) : DecodeResult :=
  MkDecode (dr_messages res) s (dr_controls res) (dr_acks res)
    (frames_seen res) (control_frames res) (ack_frames res) (reset_frames res)
    (header_crc_ok res) (header_crc_bad res).

(** The body of the loop for one frame. *)
Definition handle_frame (st : decode_state) (f : Frame) : outcome decode_state :=
  let res := count_frame (ds_result st) f in
  let streams := observe (ds_streams st) (f_stream_id f) (f_seq f) in
  match f_type f with
  | kData =>
      let? (out, R) := accept_data (ds_reassembler st) f in
      Ok (MkState R streams (match out with Some m => add_message res m | None => res end))
  | kControl =>
      let? c := parse_control f in
      Ok (MkState (ds_reassembler st) streams (add_control res c))
  | kAck =>
      Ok (MkState (ds_reassembler st) streams
            (add_ack res (MkAckRecord (f_stream_id f) (f_msg_id f))))
  | kReset =>
      let '(_, R) := reset_stream (ds_reassembler st) (f_stream_id f) in
      Ok (MkState R (note_reset streams (f_stream_id f)) (add_reset res))
  end.

Definition rd_lift {A} (m : outcome A) : Rd A := fun r => let? a := m in Ok (a, r).

(** [while (frames.has_more())]: a frame takes at least 19 bytes, so one turn more
    than there are bytes is enough. *)
Fixpoint decode_loop (turns : nat) (first : bool) (st : decode_state) : Rd decode_state :=
  match turns with
  | O => fun _ => NoFuel
  | S turns' =>
      let! done := get_eof in
      if (done : bool) then rd_ret st
      else
        let! f := frame_next first in
        let! st := rd_lift (handle_frame st f) in
        decode_loop turns' false st
  end.

Definition decode (data : bytes) : outcome DecodeResult :=
  if (length data =? 0)%nat then Ok empty_result
  else
    let? (st, _) := decode_loop (S (length data)) true
                      (MkState new_reassembler ∅ empty_result) (mk_reader data) in
    Ok (set_stats (ds_result st) (snapshot (ds_streams st))).

(** ** The frames of an input *)

(** The frames read until the end, or until framing fails. *)
Fixpoint frame_trace (turns : nat) (first : bool) (r : reader) : list Frame * option ParseError :=
  match turns with
  | O => ([], None)
  | S turns' =>
      if rd_eof r then ([], None)
      else match frame_next first r with
           | Ok (f, r') => let '(fs, e) := frame_trace turns' false r' in (f :: fs, e)
           | Throw e => ([], Some e)
           | _ => ([], None)
           end
  end.
Definition trace_of (data : bytes) : list Frame * option ParseError :=
  frame_trace (S (length data)) true (mk_reader data).

Fixpoint handle_frames (st : decode_state) (fs : list Frame) : outcome decode_state :=
  match fs with
  | [] => Ok st
  | f :: fs' => let? st := handle_frame st f in handle_frames st fs'
  end.

Lemma decode_loop_S turns first st r :
  decode_loop (S turns) first st r =
  if rd_eof r then Ok (st, r)
  else let? (f, r1) := frame_next first r in
       let? st1 := handle_frame st f in decode_loop turns false st1 r1.
Proof.
  cbn [decode_loop]. unfold rd_bind at 1, get_eof. cbn [obind]. destruct (rd_eof r); [done|].
  unfold rd_bind at 1. destruct (frame_next first r) as [[f r1]|e| |]; try done. cbn [obind].
  unfold rd_bind, rd_lift. by destruct (handle_frame st f).
Qed.

(** The driver is the handler run over the frames; a framing error comes last. *)
Lemma decode_loop_trace turns first st r :
  rd_ok r -> (rd_left r < turns)%nat ->
  let '(fs, e) := frame_trace turns first r in
  Forall frame_ok fs /\
  match handle_frames st fs with
  | Ok st' => match e with
              | Some e => decode_loop turns first st r = Throw e
              | None => exists r', decode_loop turns first st r = Ok (st', r')
              end
  | o => decode_loop turns first st r = match o with Throw e => Throw e | UB => UB | _ => NoFuel end
  end.
Proof.
  revert first st r. induction turns as [|turns IH]; intros first st r Hr Ht; [lia|].
  rewrite decode_loop_S. cbn [frame_trace]. destruct (rd_eof r) eqn:Eeof.
  { split; [constructor|]. by exists r. }
  pose proof (triple_frame_next first r Hr) as Hn.
  destruct (frame_next first r) as [[f r1]|e| |]; [|by split; [constructor|]|destruct Hn..].
  destruct Hn as [(Hok & Hd & Hp) Hf]. cbn [obind].
  assert (Hl : (rd_left r1 < turns)%nat).
  { destruct Hok as [_ Hle]. unfold rd_left in *. rewrite Hd in *. unfold rd_eof, rd_size in Eeof.
    reflect_bools. lia. }
  assert (IH' := fun st => IH false st r1 Hok Hl). destruct (frame_trace turns false r1) as [fs e].
  split; [constructor; [done|apply (IH' st)]|]. cbn [handle_frames].
  destruct (handle_frame st f) as [st1|e1| |]; cbn [obind]; [apply IH'|done..].
Qed.

(** ** What the handler computes *)

Lemma parse_control_ok f : frame_ok f -> exists c, parse_control f = Ok c.
Proof.
  intros (_ & _ & _ & _ & _ & Hp & _). unfold parse_control.
  assert (Hr : rd_ok (mk_reader (f_payload f))) by by apply rd_ok_mk.
  unfold rd_bind at 1, get_remaining. cbn [obind]. rewrite rd_remaining_left by done.
  assert (Hrd : forall r, rd_ok r -> exists v r', rd_ok r' /\
    (if (4 <=? rd_left r)%nat then read_u32be else rd_ret 0) r = Ok (v, r')).
  { intros r Hr'. case_bool; reflect_bools; [|by exists 0, r].
    pose proof (triple_u32be r Hr') as Ht. rewrite (fixed_u32be r Hr') in *.
    rewrite (proj2 (Nat.ltb_ge _ _)) in * by done. destruct Ht as [(? & _) _]. eauto. }
  destruct (Hrd _ Hr) as (v & r1 & Hr1 & E1). unfold rd_bind at 1. rewrite E1. cbn [obind].
  unfold rd_bind at 1. cbn [obind]. rewrite rd_remaining_left by done.
  destruct (Hrd _ Hr1) as (w & r2 & Hr2 & E2). unfold rd_bind at 1. rewrite E2. cbn [obind].
  by eexists.
Qed.

Definition event_of (f : Frame) : list stream_event :=
  Observe (f_stream_id f) (f_seq f) ::
  match f_type f with kReset => [Reset (f_stream_id f)] | _ => [] end.
Definition events (fs : list Frame) : list stream_event := concat (map event_of fs).

Definition is_type (t : FrameType) (f : Frame) : bool := bool_decide (f_type f = t).

Definition control_of (f : Frame) : list ControlRecord :=
  match f_type f, parse_control f with kControl, Ok c => [c] | _, _ => [] end.
Definition ack_of (f : Frame) : list AckRecord :=
  match f_type f with kAck => [MkAckRecord (f_stream_id f) (f_msg_id f)] | _ => [] end.

(** No RESET finds more than one open message on its stream. *)
Fixpoint resets_ok (R : Reassembler) (fs : list Frame) : bool :=
  match fs with
  | [] => true
  | f :: fs' =>
      match f_type f with
      | kData => match accept_data R f with Ok (_, R') => resets_ok R' fs' | _ => true end
      | kReset =>
          (length (List.filter (fun p => (pm_stream_id p =? f_stream_id f)%Z) (store R)) <=? 1)%nat &&
          resets_ok (snd (reset_stream R (f_stream_id f))) fs'
      | _ => resets_ok R fs'
      end
  end.

(** The messages the reassembler emits over a run of frames. *)
Fixpoint messages_of (R : Reassembler) (fs : list Frame) : list Message :=
  match fs with
  | [] => []
  | f :: fs' =>
      match f_type f with
      | kData => match accept_data R f with
                 | Ok (Some m, R') => m :: messages_of R' fs'
                 | Ok (None, R') => messages_of R' fs'
                 | _ => []
                 end
      | kReset => messages_of (snd (reset_stream R (f_stream_id f))) fs'
      | _ => messages_of R fs'
      end
  end.

(** The accumulated result, over the frames handled. *)
Definition accumulates (st : decode_state) (fs : list Frame) (st' : decode_state) : Prop :=
  let a := ds_result st in let b := ds_result st' in
  ds_streams st' = foldl apply_event (ds_streams st) (events fs) /\
  dr_messages b = dr_messages a ++ messages_of (ds_reassembler st) fs /\
  dr_controls b = dr_controls a ++ concat (map control_of fs) /\
  dr_acks b = dr_acks a ++ concat (map ack_of fs) /\
  u64 (frames_seen b) = u64 (frames_seen a + Z.of_nat (length fs)) /\
  u64 (control_frames b) = u64 (control_frames a + count (is_type kControl) fs) /\
  u64 (ack_frames b) = u64 (ack_frames a + count (is_type kAck) fs) /\
  u64 (reset_frames b) = u64 (reset_frames a + count (is_type kReset) fs) /\
  u64 (header_crc_ok b) = u64 (header_crc_ok a + count (fun f => f_has_crc f && f_crc_ok f) fs) /\
  u64 (header_crc_bad b) = u64 (header_crc_bad a + count (fun f => f_has_crc f && negb (f_crc_ok f)) fs).

Lemma size_list_to_set_le (l : list Key) : (size (list_to_set l : gset Key) <= length l)%nat.
Proof.
  induction l as [|k l IH]; [done|]. cbn [list_to_set length].
  rewrite size_union_alt, size_singleton.
  assert (Hd : list_to_set l ∖ {[k]} ⊆ (list_to_set l : gset Key)).
  { intros x [Hx _]%elem_of_difference. exact Hx. }
  apply subseteq_size in Hd. lia.
Qed.

Lemma open_on_slots H R id : tracks H R ->
  (size (open_on id H) <= length (List.filter (fun p => (pm_stream_id p =? id)%Z) (store R)))%nat.
Proof.
  intros HT. pose proof HT as (Hwf & _ & HH).
  set (l := List.filter _ _). transitivity (size (list_to_set (map pm_key l) : gset Key)).
  - apply subseteq_size. intros k Hk. apply elem_of_filter in Hk as [Hid Hdom].
    apply elem_of_list_to_set. apply elem_of_dom in Hdom as [fs Hfs]. specialize (HH k).
    rewrite Hfs in HH. destruct HH as (p & Hp & _).
    apply partial_of_Some in Hp as (idx & Hi & Hs); [|done].
    pose proof (wf_key R k idx p Hwf Hi Hs) as Hk. rewrite <- Hk. change (map pm_key l) with (pm_key <$> l).
    apply list_elem_of_fmap. exists p. split; [done|]. apply list_elem_of_In, filter_In. split.
    + apply list_elem_of_In. by eapply list_elem_of_lookup_2.
    + apply Z.eqb_eq. subst k. exact Hid.
  - rewrite <- (length_map pm_key l). apply size_list_to_set_le.
Qed.

Lemma count_nil {A} (g : A -> bool) : count g [] = 0.
Proof. done. Qed.

Lemma u64_step (b : bool) n k : u64 ((if b then inc n else n) + k) = u64 (n + ((if b then 1 else 0) + k)).
Proof. destruct b; [apply u64_inc_add|by rewrite Z.add_0_l]. Qed.

Lemma accumulates_cons st f st1 fs st2 :
  accumulates st [f] st1 ->
  messages_of (ds_reassembler st) (f :: fs) =
    messages_of (ds_reassembler st) [f] ++ messages_of (ds_reassembler st1) fs ->
  accumulates st1 fs st2 -> accumulates st (f :: fs) st2.
Proof.
  unfold accumulates. intros (A0 & A1 & A2 & A3 & A4 & A5 & A6 & A7 & A8 & A9) Hm
    (B0 & B1 & B2 & B3 & B4 & B5 & B6 & B7 & B8 & B9).
  assert (Hu : forall x y z k c1 c2 : Z, u64 y = u64 (x + c1) -> u64 z = u64 (y + c2) -> k = c1 + c2 ->
    u64 z = u64 (x + k)).
  { intros x y z k c1 c2 E1 E2 ->. rewrite E2, Z.add_assoc. unfold u64 in *.
    rewrite <- (Z.add_mod_idemp_l y), <- (Z.add_mod_idemp_l (x + c1)), E1 by lia. done. }
  split_and!.
  - rewrite B0, A0. unfold events. cbn [map concat]. rewrite app_nil_r, foldl_app. done.
  - rewrite B1, A1, Hm. by rewrite app_assoc.
  - rewrite B2, A2. cbn [map concat]. by rewrite app_nil_r, app_assoc.
  - rewrite B3, A3. cbn [map concat]. by rewrite app_nil_r, app_assoc.
  - eapply Hu; [exact A4|exact B4|]. cbn [length]. lia.
  - eapply Hu; [exact A5|exact B5|]. by rewrite !count_cons, count_nil, Z.add_0_r.
  - eapply Hu; [exact A6|exact B6|]. by rewrite !count_cons, count_nil, Z.add_0_r.
  - eapply Hu; [exact A7|exact B7|]. by rewrite !count_cons, count_nil, Z.add_0_r.
  - eapply Hu; [exact A8|exact B8|]. by rewrite !count_cons, count_nil, Z.add_0_r.
  - eapply Hu; [exact A9|exact B9|]. by rewrite !count_cons, count_nil, Z.add_0_r.
Qed.

Lemma u64_one (b : bool) n : u64 (if b then inc n else n) = u64 (n + ((if b then 1 else 0) + 0)).
Proof. rewrite <- u64_step. by rewrite Z.add_0_r. Qed.

(** What one frame has to do to the state for the result to account for it. *)
Lemma accumulates_frame st f R' streams' res' :
  let st1 := MkState R' streams' res' in
  streams' = foldl apply_event (ds_streams st) (event_of f) ->
  dr_messages res' = dr_messages (ds_result st) ++ messages_of (ds_reassembler st) [f] ->
  dr_controls res' = dr_controls (ds_result st) ++ control_of f ->
  dr_acks res' = dr_acks (ds_result st) ++ ack_of f ->
  frames_seen res' = inc (frames_seen (ds_result st)) ->
  control_frames res' = (if is_type kControl f then inc (control_frames (ds_result st)) else control_frames (ds_result st)) ->
  ack_frames res' = (if is_type kAck f then inc (ack_frames (ds_result st)) else ack_frames (ds_result st)) ->
  reset_frames res' = (if is_type kReset f then inc (reset_frames (ds_result st)) else reset_frames (ds_result st)) ->
  header_crc_ok res' = header_crc_ok (count_frame (ds_result st) f) ->
  header_crc_bad res' = header_crc_bad (count_frame (ds_result st) f) ->
  accumulates st [f] st1.
Proof.
  intros st1 -> H1 H2 H3 H4 H5 H6 H7 H8 H9. unfold accumulates, events.
  cbn [map concat ds_streams ds_result st1 length]. rewrite !app_nil_r, !count_cons, !count_nil.
  unfold st1. cbn [ds_result ds_streams]. rewrite H4, H5, H6, H7, H8, H9. cbn [count_frame header_crc_ok header_crc_bad].
  split_and!; try done; try apply u64_one. by apply (u64_one true).
Qed.

(** One frame: never undefined while the reassembler is consistent and a RESET
    finds at most one open message. *)
Lemma handle_frame_spec H st f fs :
  tracks H (ds_reassembler st) -> frame_ok f -> resets_ok (ds_reassembler st) (f :: fs) = true ->
  exists st1 H1, handle_frame st f = Ok st1 /\ tracks H1 (ds_reassembler st1) /\
    resets_ok (ds_reassembler st1) fs = true /\ accumulates st [f] st1 /\
    messages_of (ds_reassembler st) (f :: fs) =
      messages_of (ds_reassembler st) [f] ++ messages_of (ds_reassembler st1) fs.
Proof.
  intros HT Hf Hr. unfold handle_frame. cbn [resets_ok messages_of] in *.
  destruct (f_type f) eqn:Et.
  - destruct (accept_data_spec H (ds_reassembler st) f HT Hf) as (out & R' & Hacc & Hcase).
    rewrite Hacc in *. cbn [obind].
    assert (HT1 : exists H1, tracks H1 R') by (destruct Hcase as [(_ & HT' & _)|(_ & HT' & _)]; eauto).
    destruct HT1 as [H1 HT1]. eexists (MkState R' _ _), H1.
    split; [done|]. cbn [ds_reassembler]. split; [exact HT1|].
    split; [done|]. split; [|destruct out; done].
    apply accumulates_frame; unfold event_of, control_of, ack_of, is_type; cbn [messages_of];
      rewrite ?Et, ?Hacc; destruct out; cbn; rewrite ?app_nil_r; done.
  - destruct (parse_control_ok f Hf) as [c Hc]. rewrite Hc. cbn [obind].
    eexists (MkState _ _ _), H. split; [done|]. cbn [ds_reassembler].
    split; [done|]. split; [done|]. split; [|done].
    apply accumulates_frame; unfold event_of, control_of, ack_of, is_type; cbn [messages_of];
      rewrite ?Et, ?Hc; cbn; rewrite ?app_nil_r; done.
  - eexists (MkState _ _ _), H. split; [done|]. cbn [ds_reassembler].
    split; [done|]. split; [done|]. split; [|done].
    apply accumulates_frame; unfold event_of, control_of, ack_of, is_type; cbn [messages_of];
      rewrite ?Et; cbn; rewrite ?app_nil_r; done.
  - apply andb_prop in Hr as [Hone Hr]. reflect_bools.
    pose proof (open_on_slots H _ (f_stream_id f) HT) as Hsl.
    destruct (reset_stream_refines H _ (f_stream_id f) HT) as [_ HT']; [lia|].
    destruct (reset_stream _ _) as [n R'] eqn:Er. cbn [snd] in *.
    eexists (MkState R' _ _), _. split; [done|]. cbn [ds_reassembler].
    split; [exact HT'|]. split; [done|]. split; [|done].
    apply accumulates_frame; unfold event_of, control_of, ack_of, is_type; cbn [messages_of];
      rewrite ?Et, ?Er; cbn; rewrite ?app_nil_r; done.
Qed.

Lemma handle_frames_spec fs H st :
  tracks H (ds_reassembler st) -> Forall frame_ok fs -> resets_ok (ds_reassembler st) fs = true ->
  exists st', handle_frames st fs = Ok st' /\ accumulates st fs st'.
Proof.
  revert H st. induction fs as [|f fs IH]; intros H st HT Hfs Hr.
  { exists st. split; [done|]. unfold accumulates. cbn. rewrite !app_nil_r, !Z.add_0_r. done. }
  apply Forall_cons in Hfs as [Hf Hfs].
  destruct (handle_frame_spec H st f fs HT Hf Hr) as (st1 & H1 & Hh & HT1 & Hr1 & Ha & Hm).
  cbn [handle_frames]. rewrite Hh. cbn [obind].
  destruct (IH H1 st1 HT1 Hfs Hr1) as (st' & Hst' & Ha'). exists st'. split; [done|].
  by eapply accumulates_cons.
Qed.

Lemma decode_spec (data : bytes) :
  bytes_ok data ->
  let '(fs, err) := trace_of data in
  resets_ok new_reassembler fs = true ->
  match err with
  | Some e => decode data = Throw e
  | None =>
      exists res, decode data = Ok res /\
        dr_messages res = messages_of new_reassembler fs /\
        dr_stats res = snapshot (history_table (events fs)) /\
        dr_controls res = concat (map control_of fs) /\
        dr_acks res = concat (map ack_of fs) /\
        u64 (frames_seen res) = u64 (Z.of_nat (length fs)) /\
        u64 (control_frames res) = u64 (count (is_type kControl) fs) /\
        u64 (ack_frames res) = u64 (count (is_type kAck) fs) /\
        u64 (reset_frames res) = u64 (count (is_type kReset) fs) /\
        u64 (header_crc_ok res) = u64 (count (fun f => f_has_crc f && f_crc_ok f) fs) /\
        u64 (header_crc_bad res) = u64 (count (fun f => f_has_crc f && negb (f_crc_ok f)) fs)
  end.
Proof.
  intros Hd. unfold trace_of, decode.
  set (st0 := MkState new_reassembler ∅ empty_result).
  pose proof (decode_loop_trace (S (length data)) true st0 (mk_reader data) (rd_ok_mk data Hd)) as Hl.
  unfold rd_left in Hl. cbn [mk_reader rd_data rd_pos] in Hl. specialize (Hl ltac:(lia)).
  destruct (frame_trace _ true _) as [fs err] eqn:Etr. destruct Hl as [Hfs Hl]. intros Hr.
  destruct (handle_frames_spec fs ∅ st0 tracks_new Hfs Hr) as (st' & Hst & Ha).
  rewrite Hst in Hl. destruct (Nat.eqb_spec (length data) 0) as [E0|Hne].
  - apply nil_length_inv in E0. subst data. cbn in Etr. injection Etr as <- <-.
    exists empty_result. cbn. split_and!; done.
  - destruct err as [e|]; [by rewrite Hl|]. destruct Hl as [r' ->]. cbn [obind].
    eexists. split; [done|]. destruct Ha as (A0 & A1 & A2 & A3 & A4 & A5 & A6 & A7 & A8 & A9).
    cbn [set_stats dr_messages dr_stats dr_controls dr_acks frames_seen control_frames ack_frames
      reset_frames header_crc_ok header_crc_bad]. rewrite A0. split_and!; first [assumption|reflexivity].
Qed.

(** ** Whole streams of messages *)

(** One call of [encode_message]. *)
Record job := MkJob {
  j_stream_id : Z; j_msg_id : Z; j_payload : bytes; j_max_fragment : nat;
  j_first_seq : Z; j_compressed : bool; j_with_crc : bool;
}.

Definition job_ok (j : job) : Prop :=
  is_u16 (j_stream_id j) /\ is_u32 (j_msg_id j) /\ bytes_ok (j_payload j) /\
  Z.of_nat (length (j_payload j)) <= 0xFFFFFFFF /\ is_u16 (j_first_seq j).

Definition job_specs (j : job) : list FrameSpec :=
  message_specs (j_stream_id j) (j_msg_id j) (j_payload j) (j_max_fragment j) (j_first_seq j)
    (j_compressed j) (j_with_crc j).
Definition job_message (j : job) : Message :=
  MkMessage (j_stream_id j) (j_msg_id j) (j_compressed j) (j_payload j).

(** The jobs written one after the other into one buffer. *)
Definition encode_jobs (w : bytes) (js : list job) : bytes :=
  foldl (fun w j => fst (encode_message w (j_stream_id j) (j_msg_id j) (j_payload j)
                           (j_max_fragment j) (j_first_seq j) (j_compressed j) (j_with_crc j))) w js.

Definition jobs_specs (js : list job) : list FrameSpec := concat (map job_specs js).
Definition specs_bytes (specs : list FrameSpec) : bytes := concat (map spec_bytes specs).

Lemma specs_bytes_app a b : specs_bytes (a ++ b) = specs_bytes a ++ specs_bytes b.
Proof. unfold specs_bytes. by rewrite map_app, concat_app. Qed.

Lemma encode_jobs_specs w js : encode_jobs w js = w ++ specs_bytes (jobs_specs js).
Proof.
  revert w. induction js as [|j js IH]; intros w; [by rewrite app_nil_r|].
  unfold encode_jobs in *. cbn [foldl]. rewrite IH, encode_message_specs. cbn [fst].
  unfold jobs_specs at 2. cbn [map concat]. by rewrite specs_bytes_app, app_assoc.
Qed.

Lemma specs_bytes_ok specs : Forall spec_ok specs -> bytes_ok (specs_bytes specs).
Proof.
  induction 1 as [|s specs Hs H IH]; [constructor|]. unfold specs_bytes in *. cbn [map concat].
  apply bytes_ok_app. split; [by apply spec_bytes_ok|done].
Qed.

Lemma specs_bytes_cons s specs : specs_bytes (s :: specs) = spec_bytes s ++ specs_bytes specs.
Proof. done. Qed.
Lemma length_spec_bytes s : (19 <= length (spec_bytes s))%nat.
Proof. unfold spec_bytes. rewrite length_app, spec_header_length. lia. Qed.

(** Reading back a concatenation of encoded frames. *)
Lemma trace_specs turns first pre specs :
  bytes_ok pre -> Forall spec_ok specs -> (length (specs_bytes specs) < turns)%nat ->
  exists fs, frame_trace turns first (Rdr (pre ++ specs_bytes specs) (length pre)) = (fs, None) /\
    Forall2 is_frame_of specs fs.
Proof.
  intros Hpre Hs. revert turns first pre Hpre. induction Hs as [|s specs Hs Hss IH];
    intros turns first pre Hpre Ht.
  { exists []. split; [|constructor]. destruct turns; [done|]. cbn [frame_trace].
    unfold rd_eof, rd_size. cbn [rd_data rd_pos]. unfold specs_bytes. cbn [map concat].
    rewrite app_nil_r, (proj2 (Nat.leb_le _ _)) by done. done. }
  destruct turns as [|turns]; [lia|]. rewrite specs_bytes_cons in *. rewrite length_app in Ht.
  pose proof (length_spec_bytes s) as Hl. cbn [frame_trace].
  assert (He : rd_eof (Rdr (pre ++ spec_bytes s ++ specs_bytes specs) (length pre)) = false).
  { unfold rd_eof, rd_size. cbn [rd_data rd_pos]. apply Nat.leb_gt. rewrite !length_app. lia. }
  rewrite He, frame_next_at_sync; [|done|].
  2: { rewrite !bytes_ok_app. split_and!; [done|by apply spec_bytes_ok|by apply specs_bytes_ok]. }
  rewrite app_assoc.
  destruct (IH turns false (pre ++ spec_bytes s)) as (fs & Hfs & HF).
  { apply bytes_ok_app. split; [done|by apply spec_bytes_ok]. }
  { lia. }
  rewrite Hfs. eexists. split; [done|]. constructor; [by eexists|done].
Qed.

(** On DATA frames only, the messages are those of [feed] and no RESET interferes. *)
Lemma messages_of_feed R fs ms R' rest :
  Forall (fun f => f_type f = kData) fs -> feed R fs = Ok (ms, R') ->
  messages_of R (fs ++ rest) = ms ++ messages_of R' rest /\
  resets_ok R (fs ++ rest) = resets_ok R' rest.
Proof.
  intros Hfs. revert R ms. induction Hfs as [|f fs Hf Hfs IH]; intros R ms Hfeed.
  { cbn in Hfeed. injection Hfeed as <- <-. done. }
  cbn [feed] in Hfeed. apply obind_ok_inv in Hfeed as ([out R1] & Hacc & Hfeed).
  apply obind_ok_inv in Hfeed as ([ms1 R2] & Hfeed & Heq). injection Heq as <- <-.
  destruct (IH R1 ms1 Hfeed) as [H1 H2]. cbn [app messages_of resets_ok]. rewrite Hf, Hacc, H1, H2.
  by destruct out.
Qed.

Lemma jobs_messages R js fs :
  tracks ∅ R -> Forall job_ok js -> Forall2 is_frame_of (jobs_specs js) fs ->
  messages_of R fs = map job_message js /\ resets_ok R fs = true.
Proof.
  intros HT Hjs. revert R fs HT. induction Hjs as [|j js Hj Hjs IH]; intros R fs HT HF.
  { apply Forall2_nil_inv_l in HF as ->. done. }
  unfold jobs_specs in HF. cbn [map concat] in HF.
  apply Forall2_app_inv_l in HF as (fs1 & fs2 & HF1 & HF2 & ->).
  destruct Hj as (H1 & H2 & H3 & H4 & H5).
  destruct (fragments_spec _ _ _ [] _ _ _ _ ∅ R fs1 fs1 H1 H2 H3 H4 H5 HT (lookup_empty _) HF1)
    as (_ & R1 & Hfeed & HT1); [done|].
  assert (Hdata : Forall (fun f => f_type f = kData) fs1).
  { pose proof (message_specs_ok (j_stream_id j) (j_msg_id j) (j_payload j) (j_max_fragment j)
      (j_first_seq j) (j_compressed j) (j_with_crc j) H1 H2 H3 H5) as Hok. fold (job_specs j) in Hok.
    clear -HF1 Hok. unfold job_specs in *. induction HF1 as [|s f l k [off ->] HF IH]; [constructor|].
    apply Forall_cons in Hok as [(_ & Ht & _) Hok]. constructor; [exact Ht|by apply IH]. }
  destruct (messages_of_feed R fs1 _ R1 fs2 Hdata Hfeed) as [-> ->].
  destruct (IH R1 fs2 HT1 HF2) as [-> ->]. done.
Qed.

Lemma jobs_specs_ok js : Forall job_ok js ->
  Forall (fun s => spec_ok s /\ sp_type s = kData) (jobs_specs js).
Proof.
  induction 1 as [|j js (H1 & H2 & H3 & H4 & H5) Hjs IH]; [constructor|].
  unfold jobs_specs in *. cbn [map concat]. apply Forall_app_2; [|done].
  eapply Forall_impl; [by apply message_specs_ok|]. simpl. tauto.
Qed.

Lemma decode_jobs js : Forall job_ok js ->
  exists res, decode (encode_jobs [] js) = Ok res /\
    dr_messages res = map job_message js /\
    dr_stats res = snapshot (history_table (map (fun s => Observe (sp_stream_id s) (sp_seq s)) (jobs_specs js))) /\
    dr_controls res = [] /\ dr_acks res = [] /\
    u64 (frames_seen res) = u64 (Z.of_nat (length (jobs_specs js))) /\
    u64 (header_crc_ok res) = u64 (count sp_with_crc (jobs_specs js)) /\
    u64 (header_crc_bad res) = 0.
Proof.
  intros Hjs. rewrite encode_jobs_specs. cbn [app].
  pose proof (jobs_specs_ok js Hjs) as Hspecs.
  assert (Hok : Forall spec_ok (jobs_specs js)) by (eapply Forall_impl; [exact Hspecs|]; simpl; tauto).
  pose proof (decode_spec (specs_bytes (jobs_specs js)) (specs_bytes_ok _ Hok)) as Hd.
  unfold trace_of, mk_reader in Hd.
  destruct (trace_specs (S (length (specs_bytes (jobs_specs js)))) true [] (jobs_specs js))
    as (fs & Hfs & HF); [constructor|done|lia|]. cbn [app length] in Hfs. rewrite Hfs in Hd.
  destruct (jobs_messages new_reassembler js fs tracks_new Hjs HF) as [Hm Hr].
  destruct (Hd Hr) as (res & Hres & E1 & E2 & E3 & E4 & E5 & _ & _ & _ & E6 & E7).
  exists res. rewrite Hm in E1.
  assert (Hev : events fs = map (fun s => Observe (sp_stream_id s) (sp_seq s)) (jobs_specs js) /\
    concat (map control_of fs) = [] /\ concat (map ack_of fs) = [] /\
    count (fun f => f_has_crc f && f_crc_ok f) fs = count sp_with_crc (jobs_specs js) /\
    count (fun f => f_has_crc f && negb (f_crc_ok f)) fs = 0 /\ length fs = length (jobs_specs js)).
  { clear -HF Hspecs. induction HF as [|s f l k [off ->] HF IH]; [done|].
    apply Forall_cons in Hspecs as [[_ Ht] Hspecs].
    destruct (IH Hspecs) as (F1 & F2 & F3 & F4 & F5 & F6). unfold events in *. cbn [map concat length].
    rewrite F1, F2, F3, F6, !count_cons, F4, F5. unfold event_of, control_of, ack_of.
    change (f_type (frame_of_spec off s)) with (sp_type s). rewrite Ht.
    cbn [f_has_crc f_crc_ok f_stream_id f_seq frame_of_spec]. split_and!; try done;
      by destruct (sp_with_crc s). }
  destruct Hev as (F1 & F2 & F3 & F4 & F5 & F6). rewrite F1 in E2. rewrite F2 in E3. rewrite F3 in E4.
  rewrite F4 in E6. rewrite F5 in E7. rewrite F6 in E5. split_and!; assumption.
Qed.

(** ** Claims *)

(** C11. [decode] on arbitrary bytes whose RESET frames each meet at most one open
    message: no undefined behaviour and no endless loop; the outcome is the
    framing error met, if any, and otherwise the result accounts for every frame
    read: messages in order of completion, controls and acks in order, per-stream
    statistics, and the type and CRC counters (modulo 2^64). *)
Theorem decode_accounts (data : bytes) :
  bytes_ok data ->
  let '(fs, err) := trace_of data in
  resets_ok new_reassembler fs = true ->
  match err with
  | Some e => decode data = Throw e
  | None =>
      exists res, decode data = Ok res /\
        dr_messages res = messages_of new_reassembler fs /\
        dr_stats res = snapshot (history_table (events fs)) /\
        dr_controls res = concat (map control_of fs) /\
        dr_acks res = concat (map ack_of fs) /\
        u64 (frames_seen res) = u64 (Z.of_nat (length fs)) /\
        u64 (control_frames res) = u64 (count (is_type kControl) fs) /\
        u64 (ack_frames res) = u64 (count (is_type kAck) fs) /\
        u64 (reset_frames res) = u64 (count (is_type kReset) fs) /\
        u64 (header_crc_ok res) = u64 (count (fun f => f_has_crc f && f_crc_ok f) fs) /\
        u64 (header_crc_bad res) = u64 (count (fun f => f_has_crc f && negb (f_crc_ok f)) fs)
  end.
Proof. apply decode_spec. Qed.

Definition sample_jobs : list job :=
  [MkJob 7 1 [10; 20; 30] 2 65535 false true; MkJob 9 1 [] 4 0 true false].

Lemma decode_accounts_witness :
  exists res, decode (encode_jobs [] sample_jobs) = Ok res /\
    dr_messages res = messages_of new_reassembler (fst (trace_of (encode_jobs [] sample_jobs))) /\
    frames_seen res = 3.
Proof.
  pose proof (decode_accounts (encode_jobs [] sample_jobs)
    ltac:(by apply (bool_decide_unpack _); vm_compute)) as H.
  destruct (trace_of (encode_jobs [] sample_jobs)) as [fs err] eqn:Et.
  vm_compute in Et. injection Et as <- <-. specialize (H ltac:(by vm_compute)).
  destruct H as (res & Hres & Hm & _). exists res. split; [exact Hres|]. split; [exact Hm|].
  vm_compute in Hres. injection Hres as <-. reflexivity.
Defined.

(** End to end: any sequence of messages written with [encode_message], each
    with its own stream, id, fragment size, sequence start and flags, decodes to
    exactly those messages, in order, with one frame per fragment, the statistics
    of the sequence numbers written, every requested header CRC valid and nothing
    else in the result. *)
Theorem decode_encoded_messages (js : list job) :
  Forall job_ok js ->
  exists res, decode (encode_jobs [] js) = Ok res /\
    dr_messages res = map job_message js /\
    dr_stats res = snapshot (history_table (map (fun s => Observe (sp_stream_id s) (sp_seq s)) (jobs_specs js))) /\
    dr_controls res = [] /\ dr_acks res = [] /\
    u64 (frames_seen res) = u64 (Z.of_nat (length (jobs_specs js))) /\
    u64 (header_crc_ok res) = u64 (count sp_with_crc (jobs_specs js)) /\
    u64 (header_crc_bad res) = 0.
Proof. apply decode_jobs. Qed.

Lemma decode_encoded_messages_witness :
  exists res, decode (encode_jobs [] sample_jobs) = Ok res /\
    dr_messages res = [MkMessage 7 1 false [10; 20; 30]; MkMessage 9 1 true []] /\
    dr_stats res = [MkStats 7 2 0 0 0; MkStats 9 1 0 0 0].
Proof.
  destruct (decode_encoded_messages sample_jobs) as (res & Hres & Hm & Hs & _).
  - repeat constructor; try (by apply (bool_decide_unpack _); vm_compute); cbn; lia.
  - exists res. split; [exact Hres|]. split; [exact Hm|]. rewrite Hs. by vm_compute.
Defined.
