(* ===== verification/FrameIntegrity.v ===== *)
(** * FrameIntegrity: what the header checksum of a frame is good for

    The order in which the reader computes and compares the checksum
    ([streamcodec/frame_reader.cpp]), the bytes a read depends on and the walk over the
    frames of an input ([decoder.cpp]), composed with [Crc16]: damage to a verified frame
    header does not go unnoticed, and damage that spares the framing changes that one frame
    only. *)

From S2P Require Import Prelude Status ByteIO Frame Crc16 Locality Reassembler StreamDecoder.

(** ** What the reader has verified *)

(** The 21 bytes of a header and its checksum, read at [off] and found to agree. *)
Definition verified_at (data : bytes) (off : nat) : Prop :=
  length (take 21 (drop off data)) = 21%nat /\ crc16 (take 21 (drop off data)) = 0.

Lemma triple_header_unverified off :
  triple 0 (read_fixed_header off) (fun f => f_crc_ok f = false /\ f_header_offset f = off).
Proof.
  unfold read_fixed_header. rd_step. case_bool; [apply triple_throw|].
  rd_step. case_bool; [apply triple_throw|]. do 8 rd_step. by apply triple_ret.
Qed.

Lemma header_unverified off hdr r f r' : bytes_ok hdr -> with_sub hdr (read_fixed_header off) r = Ok (f, r') ->
  f_crc_ok f = false /\ f_header_offset f = off /\ r' = r /\ exists rh, read_fixed_header off (mk_reader hdr) = Ok (f, rh).
Proof.
  intros Hh H. unfold with_sub in H. apply obind_ok_inv in H as ([g rh] & Hg & H). injection H as <- <-.
  pose proof (triple_header_unverified off (mk_reader hdr) (rd_ok_mk hdr Hh)) as Ht. rewrite Hg in Ht. cbn in Ht.
  split_and!; try apply Ht; [done|]. by exists rh.
Qed.

Lemma window_at data pos k : window k (Rdr data pos) = take k (drop pos data).
Proof. done. Qed.

(** What is known of a frame read, and of the header it came from. *)
Lemma frame_body_facts off r f r' : rd_ok r -> frame_body off r = Ok (f, r') ->
  f_header_offset f = off /\
  (f_crc_ok f = true -> verified_at (rd_data r) (rd_pos r) /\
     exists g rh, read_fixed_header off (mk_reader (window 19 r)) = Ok (g, rh) /\ negb (Z.land (f_flags g) kFlagHasCrc =? 0) = true).
Proof.
  intros Hr H. unfold frame_body, read_raw in H. unfold rd_bind at 1 in H.
  apply obind_ok_inv in H as ([hdr r1] & H1 & H).
  apply (fixed_read_ok (Z.to_nat kHeaderFixedBytes) _ id) in H1 as (Eh & -> & Hr1); [|by apply (fixed_bytes 19)|done].
  change (Z.to_nat kHeaderFixedBytes) with 19%nat in *. unfold id in Eh.
  unfold rd_bind at 1 in H. apply obind_ok_inv in H as ([g r2] & H2 & H).
  assert (Hh : bytes_ok hdr) by (subst hdr; by apply window_ok).
  apply header_unverified in H2 as (Hc & Ho & -> & rh & Hg); [|done]. unfold rd_bind at 1 in H.
  apply obind_ok_inv in H as ([g' r3] & H3 & H). unfold rd_bind in H.
  apply obind_ok_inv in H as ([p r4] & _ & H). injection H as <- _. cbn [set_payload f_header_offset f_crc_ok].
  destruct (negb (Z.land _ kFlagHasCrc =? 0)) eqn:Efl; [|injection H3 as <- _; by rewrite Hc]. unfold rd_bind in H3.
  apply obind_ok_inv in H3 as ([stored r5] & H3 & H4).
  apply (fixed_read_ok _ _ _ _ _ _ fixed_u16be) in H3 as (-> & -> & Hr5); [|done].
  injection H4 as <- _. cbn [set_crc f_header_offset f_crc_ok]. split; [done|]. intros Hv%Z.eqb_eq.
  split; [|exists g, rh; by rewrite <- Eh].
  destruct r as [data pos], Hr5 as [Hd Hp]. cbn [rd_data rd_pos] in *. rewrite window_at in *.
  rewrite <- drop_drop in *. set (l := drop pos data) in *.
  assert (Hl : (21 <= length l)%nat) by (unfold l; rewrite length_drop; lia).
  unfold verified_at. fold l. rewrite length_take. split; [lia|].
  assert (E : take 21 l = hdr ++ take 2 (drop 19 l)) by by rewrite Eh, take_take_drop.
  rewrite E. assert (Hb : bytes_ok (take 2 (drop 19 l))) by (unfold l; auto with bw).
  destruct (take 2 (drop 19 l)) as [|hi [|lo [|? ?]]] eqn:E2; apply (f_equal length) in E2 as E3;
    rewrite length_take, length_drop in E3; cbn [length] in E3; try lia.
  apply Forall_cons in Hb as [Hhi Hb]. apply Forall_cons in Hb as [Hlo _]. apply crc16_own; done.
Qed.

Lemma frame_next_verified first r f r' : rd_ok r -> frame_next first r = Ok (f, r') -> f_crc_ok f = true ->
  exists off, f_header_offset f = Z.of_nat off /\ verified_at (rd_data r) off.
Proof.
  intros Hr H Hc. unfold frame_next in H. unfold rd_bind at 1 in H.
  pose proof (triple_align first r Hr) as Ha. apply obind_ok_inv in H as ([[] r1] & E & H).
  rewrite E in Ha. destruct Ha as [(Hr1 & Hd & _) _]. unfold rd_bind, get_remaining, get_offset in H. cbn [obind] in H.
  destruct (_ <? 2)%nat; [done|]. apply frame_body_facts in H as [Ho Hv]; [|done]. exists (rd_pos r1).
  split; [exact Ho|]. rewrite <- Hd. by apply Hv.
Qed.

Lemma frame_trace_verified turns : forall first r f, rd_ok r -> In f (frame_trace turns first r).1 -> f_crc_ok f = true ->
  exists off, f_header_offset f = Z.of_nat off /\ verified_at (rd_data r) off.
Proof.
  induction turns as [|turns IH]; intros first r f Hr Hf Hc; [done|]. cbn [frame_trace] in Hf.
  destruct (rd_eof r); [done|]. pose proof (triple_frame_next first r Hr) as Hn.
  destruct (frame_next first r) as [[g r1]|e| |] eqn:E; [|done..]. destruct Hn as [(Hr1 & Hd & _) _].
  assert (Hf' : f = g \/ In f (frame_trace turns false r1).1).
  { destruct (frame_trace turns false r1) as [fs err]. cbn in *. destruct Hf as [->|Hf]; auto. }
  destruct Hf' as [->|Hf']; [by eapply frame_next_verified|]. rewrite <- Hd. by eapply IH.
Qed.

(** ** Damage that spares the framing *)

(** Everything but the sync word, version, type, the HAS_CRC flag and the payload length. *)
Definition spares_framing (ps : list nat) : Prop :=
  Forall (fun i => (32 <= i)%nat /\ i <> 36%nat /\ ~ (136 <= i < 152)%nat) ps.

Lemma flips_lookup ps w j : Forall (fun i => (i / 8)%nat <> j) ps -> flip_bits ps w !! j = w !! j.
Proof.
  induction 1 as [|i ps Hi _ IH]; [done|]. cbn [flip_bits foldr]. fold (flip_bits ps w).
  unfold flip_bit. by rewrite list_lookup_alter_ne.
Qed.

Lemma flips_crc_flag ps w b : Forall (fun i => i <> 36%nat) ps -> w !! 4%nat = Some b ->
  exists b', flip_bits ps w !! 4%nat = Some b' /\ Z.testbit b' 3 = Z.testbit b 3.
Proof.
  intros Hps Hb. induction Hps as [|i ps Hi _ (b' & IH & E)]; [by exists b|]. cbn [flip_bits foldr]. fold (flip_bits ps w).
  unfold flip_bit. destruct (decide (i / 8 = 4)%nat) as [Ei|Ei].
  - rewrite Ei, list_lookup_alter, IH. eexists. split; [done|]. pose proof (bit_mask_range i).
    rewrite Z.lxor_spec, Z.pow2_bits_false, xorb_false_r; [done|].
    pose proof (Nat.div_mod_eq i 8). lia.
  - rewrite list_lookup_alter_ne by done. by exists b'.
Qed.

Lemma crc_flag_bit b : is_byte b -> (Z.land b kFlagHasCrc =? 0) = negb (Z.testbit b 3).
Proof.
  intros Hb. apply eqb_prop. revert b Hb. match goal with |- forall b, is_byte b -> @?P b = true =>
    apply (byte_forallb P) end. by vm_compute.
Qed.

Lemma same_window {A} (l l' : list A) k n : (forall i, (i < n)%nat -> l' !! (k + i)%nat = l !! (k + i)%nat) ->
  take n (drop k l') = take n (drop k l).
Proof.
  intros H. apply list_eq. intros i. destruct (Nat.lt_ge_cases i n) as [Hi|Hi].
  - rewrite !lookup_take_lt, !lookup_drop by done. by apply H.
  - by rewrite !lookup_take_ge by done.
Qed.

(** The fixed header as a function of its bytes. *)
Lemma fixed_header_at off (l : bytes) : length l = 19%nat -> bytes_ok l ->
  let be k n := le_val (rev (take n (drop k l))) in let byte k := hd 0 (take 1 (drop k l)) in
  read_fixed_header off (mk_reader l) =
  if negb (be 0%nat 2%nat =? kSync) then Throw (parse_error kBadMagic off "frame sync mismatch after alignment")
  else if negb (byte 2%nat =? kVersion) then Throw (parse_error kBadVersion off "unsupported frame version")
  else obind (frame_type_of off (byte 3%nat) (Rdr l 4)) (fun '(type, _) =>
         Ok (MkFrame type (byte 2%nat) (byte 4%nat) (be 5%nat 2%nat) (be 7%nat 4%nat) (be 11%nat 2%nat) (be 13%nat 4%nat)
               (be 17%nat 2%nat) false 0 false off [], Rdr l 19)).
Proof.
  intros Hl Hok be byte. unfold read_fixed_header, mk_reader.
  rewrite (bind_at _ _ _ _ _ _ fixed_u16be) by (done || lia). change (le_val _) with (be 0%nat 2%nat). destruct (negb _); [done|].
  rewrite (bind_at _ _ _ _ _ _ fixed_u8) by (done || lia). change (hd 0 _) with (byte 2%nat). destruct (negb _); [done|].
  rewrite (bind_at _ _ _ _ _ _ fixed_u8) by (done || lia). change (hd 0 _) with (byte 3%nat). unfold rd_bind at 1.
  change (0 + 2 + 1 + 1)%nat with 4%nat.
  assert (Hty : (exists ty, frame_type_of off (byte 3%nat) = rd_ret ty) \/ exists e, frame_type_of off (byte 3%nat) = rd_throw e).
  { destruct (byte 3%nat) as [|[[]|[]|]|]; cbn; eauto. }
  destruct Hty as [[ty ->]|[e ->]]; [|done]. cbn [rd_ret obind].
  rewrite (bind_at _ _ _ _ _ _ fixed_u8) by (done || lia).
  rewrite (bind_at _ _ _ _ _ _ fixed_u16be) by (done || lia). rewrite (bind_at _ _ _ _ _ _ fixed_u32be) by (done || lia).
  rewrite (bind_at _ _ _ _ _ _ fixed_u16be) by (done || lia). rewrite (bind_at _ _ _ _ _ _ fixed_u32be) by (done || lia).
  by rewrite (bind_at _ _ _ _ _ _ fixed_u16be) by (done || lia).
Qed.

(** What the decode of the fixed header owes to the framing bytes. *)
Lemma fixed_header_framing off (l l' : bytes) g r : length l = 19%nat -> length l' = 19%nat -> bytes_ok l -> bytes_ok l' ->
  (forall j, In j [0; 1; 2; 3; 17; 18]%nat -> l' !! j = l !! j) ->
  read_fixed_header off (mk_reader l) = Ok (g, r) ->
  f_flags g = nth 4 l 0 /\ exists g' r', read_fixed_header off (mk_reader l') = Ok (g', r') /\
    f_type g' = f_type g /\ f_version g' = f_version g /\ f_payload_len g' = f_payload_len g /\
    f_header_offset g' = f_header_offset g /\ f_flags g' = nth 4 l' 0.
Proof.
  intros Hl Hl' Hok Hok' Hsame. rewrite !fixed_header_at by done.
  assert (Hw : forall k n, Forall (fun j => In j [0; 1; 2; 3; 17; 18]%nat) (seq k n) ->
    take n (drop k l') = take n (drop k l)).
  { intros k n Hk. apply same_window. intros i Hi. apply Hsame. rewrite Forall_forall in Hk. apply Hk, elem_of_seq. lia. }
  assert (H4 : forall m : bytes, length m = 19%nat -> hd 0 (take 1 (drop 4 m)) = nth 4 m 0).
  { intros m Hm. by do 5 (destruct m as [|? m]; [done|]). }
  rewrite (Hw 0%nat 2%nat), (Hw 2%nat 1%nat), (Hw 3%nat 1%nat), (Hw 17%nat 2%nat), !H4
    by first [done | repeat constructor; simpl; tauto].
  destruct (negb _); [done|]. destruct (negb _); [done|].
  assert (Hty : forall b ll, (exists ty, forall m, frame_type_of off b (Rdr m ll) = Ok (ty, Rdr m ll)) \/
    exists e, forall m, frame_type_of off b (Rdr m ll) = Throw e).
  { intros b ll. destruct b as [|[[]|[]|]|]; cbn; eauto. }
  destruct (Hty (hd 0 (take 1 (drop 3 l))) 4%nat) as [[ty E]|[e E]]; rewrite !E; [|done]. cbn [obind].
  intros [= <- _]. split; [done|]. by do 2 eexists.
Qed.

(** The bytes of a buffer whose header at [o] is damaged. *)
Definition damaged (o : nat) (ps : list nat) (data : bytes) : bytes := flip_bits (map (Nat.add (8 * o)) ps) data.

Lemma damaged_lookup o ps data j : Forall (fun i => (o + i / 8)%nat <> j) ps -> damaged o ps data !! j = data !! j.
Proof.
  intros H. unfold damaged. apply flips_lookup. apply Forall_map. eapply Forall_impl; [exact H|]. cbn beta. intros i Hi.
  by rewrite (Nat.mul_comm 8 o), Nat.div_add_l by done.
Qed.

Lemma damaged_twins o ps data pos hi : bytes_ok data -> (pos <= length data)%nat ->
  Forall (fun i => (o + i / 8 < pos)%nat \/ (hi <= o + i / 8)%nat) ps -> twins pos hi data (damaged o ps data).
Proof.
  intros Hd Hp H. split_and!; [done|by apply flip_bits_ok|apply length_flip_bits|done|]. intros j Hj.
  apply damaged_lookup. eapply Forall_impl; [exact H|]. cbn beta. lia.
Qed.

Lemma damaged_window o ps data n : take n (drop o (damaged o ps data)) = flip_bits ps (take n (drop o data)).
Proof. apply flip_bits_window. Qed.

Lemma spares_bytes ps : spares_framing ps -> forall j, In j [0; 1; 2; 3; 17; 18]%nat -> Forall (fun i => (i / 8)%nat <> j) ps.
Proof.
  intros H j Hj. eapply Forall_impl; [exact H|]. cbn beta. intros i Hi E. pose proof (Nat.div_mod_eq i 8).
  pose proof (Nat.mod_upper_bound i 8). cbn in Hj. lia.
Qed.

(** A frame that differs from [f] at most in its flags, identifiers, offset and verdict. *)
Definition reported (f f' : Frame) : Prop :=
  f_type f' = f_type f /\ f_version f' = f_version f /\ f_payload_len f' = f_payload_len f /\
  f_payload f' = f_payload f /\ f_header_offset f' = f_header_offset f /\ f_has_crc f' = true.

(** [frame_body] on a header that announces a checksum. *)
Lemma frame_body_at off data o g rh : bytes_ok data -> (o + 21 <= length data)%nat ->
  let hdr := take 19 (drop o data) in let stored := le_val (rev (take 2 (drop (o + 19) data))) in
  read_fixed_header off (mk_reader hdr) = Ok (g, rh) -> negb (Z.land (f_flags g) kFlagHasCrc =? 0) = true ->
  frame_body off (Rdr data o) =
  rd_bind (read_bytes (f_payload_len g)) (fun p => rd_ret (set_payload (set_crc g stored (crc16 hdr =? stored)) p)) (Rdr data (o + 21)).
Proof.
  intros Hd Ho hdr stored Hg Hf. unfold frame_body, read_raw.
  rewrite (bind_at _ _ _ _ _ _ (fixed_bytes 19 ltac:(lia))) by (done || lia). change (Z.to_nat 19) with 19%nat. unfold id. fold hdr.
  unfold rd_bind at 1. unfold with_sub. rewrite Hg. cbn [obind]. rewrite Hf. unfold rd_bind at 1.
  rewrite (bind_at _ _ _ _ _ _ fixed_u16be) by (done || lia). cbn [rd_ret obind]. fold stored.
  by rewrite <- Nat.add_assoc.
Qed.

Lemma frame_body_damaged o data ps f r2 : bytes_ok data -> (o <= length data)%nat -> noticed ps -> spares_framing ps ->
  frame_body (Z.of_nat o) (Rdr data o) = Ok (f, r2) -> f_crc_ok f = true ->
  exists f', frame_body (Z.of_nat o) (Rdr (damaged o ps data) o) = Ok (f', Rdr (damaged o ps data) (rd_pos r2)) /\
    reported f f' /\ rd_data r2 = data /\ (o + 21 <= rd_pos r2 <= length data)%nat.
Proof.
  intros Hd Ho Hn Hs H Hc. assert (Hr : rd_ok (Rdr data o)) by by split.
  destruct (frame_body_facts _ _ _ _ Hr H) as [Hoff Hv]. destruct (Hv Hc) as ([Hl _] & g & rh & Hg & Hflag).
  rewrite window_at in Hg. cbn [rd_data rd_pos] in Hl. rewrite length_take, length_drop in Hl. clear Hv. set (data' := damaged o ps data).
  assert (Hd' : bytes_ok data') by by apply flip_bits_ok. assert (El : length data' = length data) by apply length_flip_bits.
  set (hdr := take 19 (drop o data)) in *. assert (Eh : take 19 (drop o data') = flip_bits ps hdr) by apply damaged_window.
  assert (Hh : length hdr = 19%nat) by (unfold hdr; rewrite length_take, length_drop; lia).
  assert (Hhok : bytes_ok hdr) by (unfold hdr; auto with bw).
  destruct (fixed_header_framing (Z.of_nat o) hdr (flip_bits ps hdr) g rh) as (Efl & g' & rh' & Hg' & Ety & Ev & Epl & Eoff & Efl'); try done.
  { by rewrite length_flip_bits. } { by apply flip_bits_ok. }
  { intros j Hj. by apply flips_lookup, spares_bytes. }
  assert (Hflag' : negb (Z.land (f_flags g') kFlagHasCrc =? 0) = true).
  { destruct (lookup_lt_is_Some_2 hdr 4) as [b Hb]; [lia|].
    destruct (flips_crc_flag ps hdr b) as (b' & Hb' & Et); [by eapply Forall_impl; [exact Hs|]; cbn beta; intros ? (_ & ? & _)|done|].
    rewrite Efl, (nth_lookup_Some _ _ _ _ Hb) in Hflag. rewrite Efl', (nth_lookup_Some _ _ _ _ Hb').
    rewrite crc_flag_bit in * by (eapply Forall_lookup_1; [|done]; done || by apply flip_bits_ok). by rewrite Et. }
  rewrite (frame_body_at (Z.of_nat o) data o g rh) in H by (done || lia). rewrite (frame_body_at (Z.of_nat o) data' o g' rh') by (done || lia || by rewrite Eh).
  assert (Ht : twins (o + 21) (length data) data data').
  { apply damaged_twins; [done|lia|]. destruct Hn as (_ & _ & Hb & _). eapply Forall_impl; [exact Hb|].
    cbn beta. intros i Hi. left. unfold kHeaderBits in Hi. apply Nat.Div0.div_lt_upper_bound in Hi. lia. }
  rewrite Epl. pose proof (local_bytes (f_payload_len g) _ _ _ _ Ht) as Hp. unfold rd_bind in *.
  apply obind_ok_inv in H as ([p r3] & H1 & H). rewrite H1 in Hp. destruct Hp as (E & Hpos & Hp). rewrite Hp by by right.
  injection H as <- <-. cbn [obind rd_ret]. eexists. split; [done|]. split; [|by split; [|lia]].
  unfold reported. cbn [set_payload set_crc f_type f_version f_payload_len f_payload f_header_offset f_has_crc]. by split_and!.
Qed.

(** The framing is spared too when the reader had to look for the sync word first. *)
Lemma frame_next_inv first data p f r2 : rd_ok (Rdr data p) -> frame_next first (Rdr data p) = Ok (f, r2) ->
  exists o, align_to_sync first (Rdr data p) = Ok (tt, Rdr data o) /\ (p <= o <= length data)%nat /\
    frame_body (Z.of_nat o) (Rdr data o) = Ok (f, r2) /\
    forall data', length data' = length data -> align_to_sync first (Rdr data' p) = Ok (tt, Rdr data' o) ->
      frame_next first (Rdr data' p) = frame_body (Z.of_nat o) (Rdr data' o).
Proof.
  intros Hr H. unfold frame_next in *. unfold rd_bind at 1 in H.
  pose proof (triple_align first _ Hr) as Ha. apply obind_ok_inv in H as ([[] [d o]] & E & H).
  rewrite E in Ha. destruct Ha as [([_ Hle] & Hd & Hp) _]. cbn [rd_data rd_pos] in *. subst d. exists o.
  split; [done|]. split; [lia|]. unfold rd_bind, get_remaining, get_offset in *. cbn [obind] in *.
  destruct (rd_remaining (Rdr data o) <? 2)%nat eqn:Erem; [done|]. split; [exact H|]. intros data' El ->. cbn [obind].
  unfold rd_remaining, rd_size in *. cbn [rd_data rd_pos] in *. by rewrite El, Erem.
Qed.

Lemma frame_next_damaged first data p ps f r2 : rd_ok (Rdr data p) -> noticed ps -> spares_framing ps ->
  frame_next first (Rdr data p) = Ok (f, r2) -> f_crc_ok f = true ->
  exists o f', f_header_offset f = Z.of_nat o /\ (p <= o <= length data)%nat /\ reported f f' /\
    rd_data r2 = data /\ (o + 21 <= rd_pos r2 <= length data)%nat /\
    frame_next first (Rdr (damaged o ps data) p) = Ok (f', Rdr (damaged o ps data) (rd_pos r2)).
Proof.
  intros Hr Hn Hs H Hc. pose proof Hr as [Hd _]. cbn in Hd. destruct (frame_next_inv _ _ _ _ _ Hr H) as (o & Ha & Ho & Hb & Hnext).
  destruct (frame_body_damaged o data ps f r2) as (f' & Hb' & Hf' & Hd2 & Hp2); try done; [lia|].
  exists o, f'. split; [exact (proj1 (frame_body_facts _ (Rdr data o) f r2 ltac:(split; [done|cbn; lia]) Hb))|]. split; [done|]. split; [done|]. split; [done|]. split; [done|].
  rewrite Hnext; [done|apply length_flip_bits|]. assert (Ht : twins p (o + 2) data (damaged o ps data)).
  { apply damaged_twins; [done|lia|]. eapply Forall_impl; [exact Hs|]. cbn beta. intros i (Hi & _). right.
    assert (4 <= i / 8)%nat by (apply Nat.div_le_lower_bound; lia). lia. }
  pose proof (local_align first _ _ _ _ Ht) as Hl. rewrite Ha in Hl. destruct Hl as (_ & _ & Hl). apply Hl. by left.
Qed.

(** *** The walk over the frames *)

Lemma trace_twins turns : forall first data data' pos, twins pos (length data) data data' ->
  frame_trace turns first (Rdr data' pos) = frame_trace turns first (Rdr data pos).
Proof.
  induction turns as [|turns IH]; intros first data data' pos Ht; [done|]. cbn [frame_trace].
  pose proof Ht as (_ & _ & El & _). unfold rd_eof, rd_size. cbn [rd_data rd_pos]. rewrite El.
  destruct (length data <=? pos)%nat; [done|]. destruct (twins_ok _ _ _ _ Ht) as [Hr _].
  pose proof (triple_frame_next first _ Hr) as Hn. pose proof (local_frame_next first _ _ _ _ Ht) as Hl.
  destruct (frame_next first (Rdr data pos)) as [[f [d p]]|e| |]; [|by rewrite Hl|done..].
  destruct Hl as (E & Hp & Hl). cbn [rd_data rd_pos] in *. subst d. rewrite Hl by by right.
  by rewrite (IH false data data') by by eapply twins_later.
Qed.

(** A frame of a trace was read at a place the frames before it lead to; another one read
    there takes its place. *)
Lemma trace_split fs1 : forall turns first data pos f fs2 e, rd_ok (Rdr data pos) ->
  frame_trace turns first (Rdr data pos) = (fs1 ++ f :: fs2, e) ->
  exists turns' first' p r2, frame_next first' (Rdr data p) = Ok (f, r2) /\ (pos <= p <= length data)%nat /\
    frame_trace turns' false r2 = (fs2, e) /\
    forall data' f' r2', twins pos p data data' -> frame_next first' (Rdr data' p) = Ok (f', r2') ->
      frame_trace turns' false r2' = (fs2, e) -> frame_trace turns first (Rdr data' pos) = (fs1 ++ f' :: fs2, e).
Proof.
  induction fs1 as [|g fs1 IH]; intros [|turns] first data pos f fs2 e Hr H; cbn [frame_trace] in H; try done;
    unfold rd_eof, rd_size in H; cbn [rd_data rd_pos] in H; destruct (length data <=? pos)%nat eqn:Eeof; try done;
    pose proof (triple_frame_next first _ Hr) as Hn;
    destruct (frame_next first (Rdr data pos)) as [[g' [d p1]]|?| |] eqn:En; try done;
    destruct Hn as [([Hd Hp1] & E & Hadv) _]; cbn [rd_data rd_pos] in *; subst d;
    destruct (frame_trace turns false (Rdr data p1)) as [fs e'] eqn:Et; injection H as -> -> ->.
  - exists turns, first, pos, (Rdr data p1). split; [done|]. split; [destruct Hr; cbn in *; lia|]. split; [done|]. intros data' f' r2' (_ & _ & El & _) Hf' Ht'.
    cbn [frame_trace]. unfold rd_eof, rd_size. cbn [rd_data rd_pos]. by rewrite El, Eeof, Hf', Ht'.
  - destruct (IH turns false data p1 f fs2 e) as (turns' & first' & p & r2 & H1 & H2 & H3 & H4); [by split|done|].
    exists turns', first', p, r2. split; [done|]. split; [lia|]. split; [done|]. intros data' f' r2' Ht Hf' Ht'. cbn [frame_trace].
    pose proof Ht as (_ & _ & El & _). unfold rd_eof, rd_size. cbn [rd_data rd_pos]. rewrite El, Eeof.
    pose proof (local_frame_next first _ _ _ _ Ht) as Hl. rewrite En in Hl. destruct Hl as (_ & _ & Hl). cbn [rd_pos] in Hl.
    rewrite Hl by lia. rewrite (H4 data' f' r2'); [done| |done..]. eapply twins_later; [done|lia].
Qed.

Lemma trace_damaged data fs1 f fs2 e ps : bytes_ok data -> trace_of data = (fs1 ++ f :: fs2, e) -> f_crc_ok f = true ->
  noticed ps -> spares_framing ps ->
  exists f', reported f f' /\ trace_of (damaged (Z.to_nat (f_header_offset f)) ps data) = (fs1 ++ f' :: fs2, e).
Proof.
  intros Hd Ht Hc Hn Hs. unfold trace_of in *.
  destruct (trace_split _ _ _ _ _ _ _ _ (rd_ok_mk data Hd) Ht) as (turns & first & p & r2 & H1 & Hp & H2 & H3).
  destruct (frame_next_damaged first data p ps f r2) as (o & f' & Eo & Hpo & Hf' & Ed & Hp2 & H4); try done.
  { split; [done|cbn; cbn in Hp; lia]. }
  cbn [mk_reader rd_data rd_pos] in *.
  exists f'. split; [done|]. rewrite Eo, Nat2Z.id. unfold damaged at 1. rewrite length_flip_bits.
  apply (H3 _ f' (Rdr (damaged o ps data) (rd_pos r2))); [|done|].
  - apply damaged_twins; [done|lia|]. apply Forall_true. intros i. right. lia.
  - destruct r2 as [d p2]. cbn [rd_data rd_pos] in *. subst d. rewrite <- H2. apply trace_twins, damaged_twins; [done|lia|].
    destruct Hn as (_ & _ & Hb & _). eapply Forall_impl; [exact Hb|]. cbn beta. intros i Hi. left.
    unfold kHeaderBits in Hi. apply Nat.Div0.div_lt_upper_bound in Hi. lia.
Qed.

(** ** Claims *)

(** C19. A frame of an input whose header checksum was right is not taken for a verified one
    after damage: flip one to three bits, any odd number of bits, or any bits within sixteen
    consecutive ones, anywhere in its 19 header bytes and its 2 checksum bytes (the sync word
    and the flag that announces the checksum included). Whatever frames the reader then
    finds, resynchronised or not, none at that offset has [crc_ok]. When the damage spares
    the framing (sync word, version, type, HAS_CRC flag, payload length), the reader goes on
    leniently: the input yields exactly the same frames and the same end, the damaged one
    with its type and payload and marked as failing its checksum. *)
Theorem header_damage_noticed (data : bytes) (fs1 fs2 : list Frame) (f : Frame) (e : option ParseError) (ps : list nat) :
  bytes_ok data -> trace_of data = (fs1 ++ f :: fs2, e) -> f_crc_ok f = true -> noticed ps ->
  let data' := damaged (Z.to_nat (f_header_offset f)) ps data in
  (forall f', In f' (trace_of data').1 -> f_header_offset f' = f_header_offset f -> f_crc_ok f' = false) /\
  (spares_framing ps ->
     exists f', trace_of data' = (fs1 ++ f' :: fs2, e) /\ reported f f' /\ f_crc_ok f' = false).
Proof.
  intros Hd Ht Hc Hn data'.
  assert (Hno : forall f', In f' (trace_of data').1 -> f_header_offset f' = f_header_offset f -> f_crc_ok f' = false).
  { intros f' Hf' Ho. apply not_true_is_false. intros Hc'. assert (Hf : In f (trace_of data).1) by (rewrite Ht; apply in_elt).
    apply frame_trace_verified in Hf as (off & E & Hl & H0); [|by apply rd_ok_mk|done].
    apply frame_trace_verified in Hf' as (off' & E' & Hl' & H0'); [|by apply rd_ok_mk, flip_bits_ok|done].
    assert (off' = off) as -> by lia. unfold data' in *. rewrite E, Nat2Z.id in *. cbn [mk_reader rd_data] in *.
    rewrite damaged_window in H0'. change (crc16 ?w) with (crc16_upd 0xFFFF w) in *.
    rewrite crc16_upd_flips, Hl, H0, Z.lxor_0_r in H0'. by apply (noticed_syndrome ps). }
  split; [exact Hno|]. intros Hs. destruct (trace_damaged data fs1 f fs2 e ps) as (f' & Hf' & E); try done.
  exists f'. split; [done|]. split; [done|]. apply Hno; [unfold data'; rewrite E; apply in_elt|apply Hf'].
Qed.

Lemma header_damage_noticed_witness :
  let data := encode_jobs [] sample_jobs in
  exists f', trace_of (damaged 0 [40; 100; 167]%nat data) = (f' :: tl (trace_of data).1, None) /\ f_crc_ok f' = false.
Proof.
  set (data := encode_jobs [] sample_jobs).
  assert (E : exists f, trace_of data = ([] ++ f :: tl (trace_of data).1, None) /\ f_crc_ok f = true /\ f_header_offset f = 0).
  { eexists. split; [vm_compute; reflexivity|]. split; vm_compute; reflexivity. }
  destruct E as (f & E & Hc & Ho).
  destruct (header_damage_noticed data [] (tl (trace_of data).1) f None [40; 100; 167]%nat
    ltac:(apply (bool_decide_unpack _); by vm_compute) E Hc) as [_ H].
  - split; [apply (bool_decide_unpack _); by vm_compute|]. split; [done|].
    split; [apply (bool_decide_unpack _); by vm_compute|left; simpl; lia].
  - rewrite Ho in H. change (Z.to_nat 0) with 0%nat in H. destruct H as (f' & H & _ & Hf').
    + repeat constructor; lia.
    + exists f'. split; [exact H|exact Hf'].
Defined.
