(* ===== verification/Interleave.v ===== *)
(** * Interleave: frames of many messages on one connection

    The frames of several messages, cut by [encode_message] ([encoder.cpp]), written
    in any order and mixed with acknowledgements, window updates and resets of other
    streams, against the decode driver ([decoder.cpp]). *)

From S2P Require Import Prelude Status ByteIO OrdMap Frame StreamState Reassembler Fragments StreamDecoder.

(** ** The frames of one message *)

Definition job_key (j : job) : Key := (j_stream_id j, j_msg_id j).

(** [fs] are the frames of [j], in some order. *)
Definition job_frames (j : job) (fs : list Frame) : Prop :=
  exists gs, Forall2 is_frame_of (job_specs j) gs /\ fs ≡ₚ gs.

Lemma job_tiling j fs : job_ok j -> (0 < length (j_payload j))%nat -> job_frames j fs ->
  tiling (j_stream_id j) (j_msg_id j) (j_payload j) (j_compressed j) 0 fs.
Proof.
  intros (H1 & H2 & H3 & H4 & H5) Hpos (gs & HF & Hp).
  eapply tiling_perm; [by symmetry|]. by eapply message_tiling.
Qed.

(** The empty message is a single final frame. *)
Lemma job_empty j fs : job_ok j -> j_payload j = [] -> job_frames j fs ->
  exists f, fs = [f] /\ frame_ok f /\ fin f = true /\ compressed f = j_compressed j /\ frame_end f = 0.
Proof.
  intros (H1 & H2 & _ & _ & H5) Hnil (gs & HF & Hp). unfold job_specs in HF. rewrite Hnil in HF.
  assert (Hone : exists f, gs = [f]).
  { unfold message_specs in HF. cbn in HF. apply Forall2_cons_inv_l in HF as (f & l & _ & HF & ->).
    apply Forall2_nil_inv_l in HF as ->. by exists f. }
  destruct Hone as [f ->]. apply Permutation_singleton_r in Hp as ->.
  destruct (empty_message _ _ _ _ _ _ _ H1 H2 H5 HF) as (Hok & _ & Hfin & Hc & He). by exists f.
Qed.

(** All frames of a message complete it, whatever their order. *)
Lemma job_whole j fs : job_ok j -> job_frames j fs ->
  spec_complete fs /\ forall m, spec_message fs (job_key j) m -> m = job_message j.
Proof.
  intros Hj Hfs. destruct (decide (j_payload j = [])) as [Hnil|Hne].
  - destruct (job_empty j fs Hj Hnil Hfs) as (f & -> & _ & Hfin & Hc & He).
    assert (Htot : spec_total [f] = 0) by (unfold spec_total; cbn [spec_total_from]; by rewrite Hfin, He).
    split; [split; [cbn [existsb]; by rewrite Hfin|by left]|].
    intros [i k c d] (E1 & E2 & E3 & E4 & _). rewrite Htot in E4. cbn [existsb] in E3.
    rewrite Hc, orb_false_r in E3. unfold job_message. rewrite Hnil. destruct d; simpl in *; [by subst|lia].
  - assert (Hpos : (0 < length (j_payload j))%nat) by (destruct (j_payload j); [done|simpl; lia]).
    pose proof (job_tiling j fs Hj Hpos Hfs) as Ht. split; [by eapply whole_complete|].
    intros m Hm. by apply (whole_message _ _ _ _ fs).
Qed.

(** A frame short of all of them, it is not complete. *)
Lemma job_part j fs g rest : job_ok j -> job_frames j (fs ++ g :: rest) -> ~ spec_complete fs.
Proof.
  intros Hj Hfs. destruct (decide (j_payload j = [])) as [Hnil|Hne].
  - destruct (job_empty j _ Hj Hnil Hfs) as (f & E & _). destruct fs as [|x fs]; [by intros [? _]|].
    exfalso. assert (length (fs ++ g :: rest) = 0%nat) by (by injection E as _ ->).
    rewrite length_app in *. simpl in *. lia.
  - assert (Hpos : (0 < length (j_payload j))%nat) by (destruct (j_payload j); [done|simpl; lia]).
    by eapply part_incomplete, job_tiling.
Qed.

(** ** Frames of many messages *)

Definition carries (k : Key) (f : Frame) : Prop := f_type f = kData /\ frame_key f = k.
#[export] Instance carries_dec k f : Decision (carries k f).
Proof. unfold carries. apply _. Defined.

(** The messages in the order in which their last frames come. *)
Fixpoint arrivals (js : list job) (fs : list Frame) : list Message :=
  match fs with
  | [] => []
  | f :: fs' =>
      (if decide (f_type f = kData /\ filter (carries (frame_key f)) fs' = [])
       then map job_message (filter (fun j => job_key j = frame_key f) js) else [])
      ++ arrivals js fs'
  end.

(** The fragments of [k] seen so far and those still to come. *)
Definition pending (H : History) (k : Key) (fs : list Frame) : list Frame :=
  default [] (H !! k) ++ filter (carries k) fs.

Lemma job_of_key js j : NoDup (map job_key js) -> j ∈ js ->
  filter (fun i => job_key i = job_key j) js = [j].
Proof.
  induction js as [|i js IH]; intros Hnd Hj; [by apply elem_of_nil in Hj|].
  cbn [map] in Hnd. apply NoDup_cons in Hnd as [Hi Hnd]. rewrite filter_cons.
  assert (Hnone : forall k, k ∉ map job_key js -> filter (fun i => job_key i = k) js = []).
  { intros k Hk. apply filter_none. intros x Hx <-. by apply Hk, list_elem_of_fmap_2. }
  apply elem_of_cons in Hj as [->|Hj].
  - by rewrite decide_True, Hnone.
  - rewrite decide_False; [by apply IH|]. intros E. apply Hi. rewrite E. by apply list_elem_of_fmap_2.
Qed.

Section frames.
Context (js : list job) (Hjs : Forall job_ok js) (Hkeys : NoDup (map job_key js)).

(** What is known when [fs] is still to come: the message of every DATA frame is one
    of the jobs, and with the fragments already held it will be whole. *)
Record awaiting (H : History) (fs : list Frame) : Prop := {
  aw_jobs : forall k, filter (carries k) fs <> [] ->
    exists j, j ∈ js /\ job_key j = k /\ job_frames j (pending H k fs);
  aw_open : forall k, k ∈ dom H -> k ∈ map job_key js;
}.

Lemma awaiting_data H R f fs : tracks H R -> frame_ok f -> f_type f = kData -> awaiting H (f :: fs) ->
  exists out R' H', accept_data R f = Ok (out, R') /\ tracks H' R' /\ awaiting H' fs /\
    arrivals js (f :: fs) = match out with Some m => [m] | None => [] end ++ arrivals js fs.
Proof.
  intros HT Hf Ht [Haw Hopen]. set (k := frame_key f).
  assert (Hk : carries k f) by done.
  destruct (Haw k) as (j & Hj & Hjk & Hfr); [by rewrite filter_cons, decide_True|].
  unfold pending in Hfr. rewrite filter_cons, decide_True in Hfr by done.
  assert (Hjok : job_ok j) by (rewrite Forall_forall in Hjs; auto).
  assert (Hother : forall k', k' <> k -> filter (carries k') (f :: fs) = filter (carries k') fs).
  { intros k' Hne. rewrite filter_cons, decide_False; [done|]. intros [_ E]. by apply Hne. }
  destruct (accept_data_spec H R f HT Hf) as (out & R' & Hacc & Hcase). fold k in Hcase.
  exists out, R'. destruct (filter (carries k) fs) as [|g rest] eqn:Erest.
  - destruct (job_whole j _ Hjok Hfr) as [Hc Hm].
    destruct Hcase as [(_ & HT' & m & -> & Hmsg)|(Hnc & _)]; [|done].
    exists (delete k H). split; [done|]. split; [done|]. split; [split|].
    + intros k' Hne'. assert (Hne : k' <> k) by (intros ->; done).
      destruct (Haw k') as (j' & ? & ? & Hfr'); [by rewrite Hother|].
      exists j'. unfold pending in *. by rewrite lookup_delete_ne, <- Hother.
    + intros k' Hk'. apply Hopen. rewrite dom_delete_L in Hk'. by apply elem_of_difference in Hk' as [? _].
    + cbn [arrivals]. rewrite decide_True by done. fold k. rewrite <- Hjk, job_of_key by done.
      cbn [map]. by rewrite (Hm m) by (by rewrite Hjk).
  - change (f :: g :: rest) with ([f] ++ g :: rest) in Hfr. rewrite app_assoc in Hfr.
    destruct Hcase as [(Hc & _)|(_ & HT' & ->)]; [by destruct (job_part j _ g rest Hjok Hfr)|].
    exists (<[k := default [] (H !! k) ++ [f]]> H). split; [done|]. split; [done|]. split; [split|].
    + intros k' Hne'. unfold pending. destruct (decide (k' = k)) as [->|Hne].
      * exists j. rewrite lookup_insert_eq, Erest. done.
      * destruct (Haw k') as (j' & ? & ? & Hfr'); [by rewrite Hother|].
        exists j'. unfold pending in *. by rewrite lookup_insert_ne, <- Hother.
    + intros k' Hk'. rewrite dom_insert_L in Hk'. apply elem_of_union in Hk' as [->%elem_of_singleton|]; [|by apply Hopen].
      rewrite <- Hjk. by apply list_elem_of_fmap_2.
    + cbn [arrivals]. rewrite decide_False; [done|]. fold k. rewrite Erest. by intros [_ ?].
Qed.

(** Frames that carry no data change nothing. *)
Lemma awaiting_skip H f fs : f_type f <> kData -> awaiting H (f :: fs) ->
  awaiting H fs /\ arrivals js (f :: fs) = arrivals js fs.
Proof.
  intros Ht [Haw Hopen].
  assert (Hf : forall k, filter (carries k) (f :: fs) = filter (carries k) fs).
  { intros k. rewrite filter_cons, decide_False; [done|]. by intros [? _]. }
  split; [split; [|done]|].
  - intros k Hk. destruct (Haw k) as (j & ? & ? & Hfr); [by rewrite Hf|].
    exists j. unfold pending in *. by rewrite <- Hf.
  - cbn [arrivals]. rewrite decide_False; [done|]. by intros [? _].
Qed.

(** A RESET of a stream without open messages finds nothing to drop. *)
Lemma reset_unused H R id : tracks H R -> (forall k, k ∈ dom H -> k.1 <> id) ->
  List.filter (fun p => (pm_stream_id p =? id)%Z) (store R) = [] /\ tracks H (snd (reset_stream R id)).
Proof.
  intros HT Hid. assert (Hno : open_on id H = ∅).
  { unfold open_on. apply set_eq. intros k. rewrite elem_of_filter. split; [|by intros ?%elem_of_empty].
    intros [E Hk]. by destruct (Hid k). }
  split.
  - destruct (List.filter _ _) as [|p l] eqn:E; [done|]. exfalso.
    assert (Hp : In p (p :: l)) by (by left). rewrite <- E in Hp. apply filter_In in Hp as [Hp Hpid].
    reflect_bools. apply list_elem_of_In, list_elem_of_lookup_1 in Hp as [i Hi].
    by apply (Hid (pm_key p)); [eapply tracks_store|].
  - destruct (reset_stream_refines H R id HT) as [_ HT']; [rewrite Hno, size_empty; lia|].
    assert (Hd : drop_stream id H = H); [|by rewrite Hd in HT'].
    apply map_filter_id. intros k fs Hk. apply Hid. by eapply elem_of_dom_2.
Qed.

Definition resets_elsewhere (fs : list Frame) : Prop :=
  Forall (fun f => f_type f = kReset -> f_stream_id f ∉ map j_stream_id js) fs.

Lemma awaiting_messages fs : forall H R,
  tracks H R -> Forall frame_ok fs -> resets_elsewhere fs -> awaiting H fs ->
  messages_of R fs = arrivals js fs /\ resets_ok R fs = true.
Proof.
  induction fs as [|f fs IH]; intros H R HT Hok Hres Haw; [done|].
  apply Forall_cons in Hok as [Hf Hok]. apply Forall_cons in Hres as [Hr Hres].
  cbn [messages_of resets_ok].
  destruct (decide (f_type f = kData)) as [Ht|Ht].
  { rewrite Ht. destruct (awaiting_data H R f fs HT Hf Ht Haw) as (out & R' & H' & Hacc & HT' & Haw' & ->).
    rewrite Hacc. destruct (IH H' R' HT' Hok Hres Haw') as [-> ->]. by destruct out. }
  destruct (awaiting_skip H f fs Ht Haw) as [Haw' ->].
  destruct (f_type f); try done; try by eapply IH.
  destruct (reset_unused H R (f_stream_id f) HT) as [-> HT'].
  { intros k Hk E. apply (Hr eq_refl). rewrite <- E.
    apply (aw_open _ _ Haw) in Hk. apply list_elem_of_fmap in Hk as (j & -> & Hj).
    by apply (list_elem_of_fmap_2 j_stream_id). }
  by eapply IH.
Qed.
End frames.

(** ** Every message arrives once *)

Definition data_keys (fs : list Frame) : list Key := map frame_key (filter (fun f => f_type f = kData) fs).

Lemma filter_carries_nil k fs : filter (carries k) fs = [] <-> k ∉ data_keys fs.
Proof.
  unfold data_keys. rewrite list_elem_of_fmap. split.
  - intros E (f & -> & [Ht Hf]%list_elem_of_filter). by apply (filter_nil_not_elem_of _ _ f E).
  - intros Hk. apply filter_none. intros f Hf [Ht Hkf]. apply Hk. exists f. by rewrite list_elem_of_filter.
Qed.

Lemma data_keys_cons f fs :
  data_keys (f :: fs) = if decide (f_type f = kData) then frame_key f :: data_keys fs else data_keys fs.
Proof. unfold data_keys. rewrite filter_cons. by case_decide. Qed.

Lemma arrivals_perm js fs :
  arrivals js fs ≡ₚ map job_message (filter (fun j => job_key j ∈ data_keys fs) js).
Proof.
  induction fs as [|f fs IH].
  { cbn [arrivals]. rewrite filter_none; [done|]. intros j _. apply not_elem_of_nil. }
  cbn [arrivals]. rewrite IH. clear IH. pose proof (data_keys_cons f fs) as Hd.
  rewrite (list_filter_iff (fun j => job_key j ∈ data_keys (f :: fs))
    (fun j => (f_type f = kData /\ job_key j = frame_key f) \/ job_key j ∈ data_keys fs)).
  2: { intros j. rewrite Hd. case_decide; [rewrite elem_of_cons|]; tauto. }
  destruct (decide (_ /\ _)) as [[Ht Hn]|Hn].
  - apply filter_carries_nil in Hn. rewrite filter_or_disjoint by (intros j [_ E]; rewrite E; done).
    rewrite map_app. rewrite (list_filter_iff (fun j => f_type f = kData /\ _) (fun j => job_key j = frame_key f));
      [done|tauto].
  - cbn [app]. apply Permutation_map. erewrite list_filter_iff; [done|]. intros j. split; [auto|].
    intros [[Ht E]|]; [|done]. rewrite E. destruct (decide (frame_key f ∈ data_keys fs)) as [|Hno]; [done|].
    destruct Hn. split; [done|]. by apply filter_carries_nil.
Qed.

(** ** The bytes on the connection *)

Definition spec_carries (k : Key) (s : FrameSpec) : Prop :=
  sp_type s = kData /\ (sp_stream_id s, sp_msg_id s) = k.
#[export] Instance spec_carries_dec k s : Decision (spec_carries k s).
Proof. unfold spec_carries. apply _. Defined.

Lemma frame_of_spec_ok off s : spec_ok s -> frame_ok (frame_of_spec off s).
Proof.
  intros (Hfl & H1 & H2 & H3 & H4 & H5). unfold frame_ok, frame_of_spec.
  cbn [f_flags f_stream_id f_msg_id f_seq f_frag_offset f_payload f_payload_len f_version].
  destruct (resolve_flags_spec s Hfl) as [Hr _]. split_and!; try done; [|apply spec_payload_width].
  by apply bytes_ok_take.
Qed.

Lemma job_specs_carry j : Forall (spec_carries (job_key j)) (job_specs j).
Proof.
  unfold job_specs, message_specs. generalize (clamp_fragment (j_max_fragment j)). intros mx.
  generalize (1 <? frag_count (length (j_payload j)) mx)%nat. intros multi.
  generalize (frag_count (length (j_payload j)) mx) 0%nat (j_first_seq j).
  intros n. induction n as [|n IH]; intros off seq; cbn [fragment_specs]; [constructor|].
  constructor; [done|apply IH].
Qed.

Lemma job_specs_nonempty j : job_specs j <> [].
Proof.
  unfold job_specs, message_specs, frag_count. destruct (Nat.eqb_spec (length (j_payload j)) 0) as [|Hne]; [done|].
  pose proof (clamp_bounds (j_max_fragment j)) as Hmx.
  set (n := (_ / _)%nat). assert (Hn : (0 < n)%nat) by (apply Nat.div_str_pos; lia).
  by destruct n; [lia|].
Qed.

Lemma jobs_specs_key js k :
  filter (spec_carries k) (jobs_specs js) = concat (map job_specs (filter (fun j => job_key j = k) js)).
Proof.
  unfold jobs_specs. induction js as [|j js IH]; [done|]. cbn [map concat]. rewrite filter_app, IH, filter_cons.
  pose proof (job_specs_carry j) as Hc. rewrite Forall_forall in Hc. case_decide as E.
  - subst k. cbn [map concat]. f_equal. clear -Hc. induction (job_specs j) as [|s l IH]; [done|].
    rewrite filter_cons, decide_True by (apply Hc; by left). f_equal. apply IH. intros x Hx. apply Hc. by right.
  - rewrite filter_none; [done|]. intros s Hs [_ Hk]. destruct (Hc s Hs) as [_ Hk']. congruence.
Qed.

(** What else may be on the connection. *)
Definition harmless (js : list job) (s : FrameSpec) : Prop :=
  spec_ok s /\ sp_type s <> kData /\ (sp_type s = kReset -> sp_stream_id s ∉ map j_stream_id js).

Lemma awaiting_specs js others specs fs :
  NoDup (map job_key js) -> Forall (harmless js) others ->
  specs ≡ₚ jobs_specs js ++ others -> Forall2 is_frame_of specs fs -> awaiting js ∅ fs.
Proof.
  intros Hkeys Hoth Hperm HF. split; [|intros k Hk; by rewrite dom_empty_L in Hk].
  intros k Hne. unfold pending. rewrite lookup_empty. cbn [default app].
  assert (HFk : Forall2 is_frame_of (filter (spec_carries k) specs) (filter (carries k) fs)).
  { apply Forall2_filter; [|done]. by intros s f [off ->]. }
  assert (Hk : filter (spec_carries k) specs ≡ₚ concat (map job_specs (filter (fun j => job_key j = k) js))).
  { rewrite Hperm, filter_app, jobs_specs_key, (filter_none _ others), app_nil_r; [done|].
    intros s Hs [Ht _]. rewrite Forall_forall in Hoth. by destruct (Hoth s Hs) as (_ & ? & _). }
  destruct (filter (fun j => job_key j = k) js) as [|j l] eqn:Ej.
  { cbn [map concat] in Hk. apply Permutation_nil_r in Hk. rewrite Hk in HFk. by apply Forall2_nil_inv_l in HFk. }
  assert (Hj : j ∈ filter (fun j => job_key j = k) js) by (rewrite Ej; by left).
  apply list_elem_of_filter in Hj as [<- Hj]. exists j. split; [done|]. split; [done|].
  rewrite (job_of_key js j Hkeys Hj) in Ej. injection Ej as <-. cbn [map concat] in Hk. rewrite app_nil_r in Hk.
  destruct (Permutation_Forall2 Hk HFk) as (gs & Hgs & HF'). by exists gs.
Qed.

Lemma jobs_all_keys js others specs fs :
  specs ≡ₚ jobs_specs js ++ others -> Forall2 is_frame_of specs fs ->
  filter (fun j => job_key j ∈ data_keys fs) js = js.
Proof.
  intros Hperm HF. rewrite (filter_iff _ (fun _ => True)).
  { clear. induction js as [|j js IH]; [done|]. rewrite filter_cons, decide_True by done. by f_equal. }
  intros j Hj. split; [done|]. intros _.
  destruct (decide (job_key j ∈ data_keys fs)) as [|Hno]; [done|]. exfalso.
  apply filter_carries_nil in Hno.
  assert (HFk : Forall2 is_frame_of (filter (spec_carries (job_key j)) specs) (filter (carries (job_key j)) fs)).
  { apply Forall2_filter; [|done]. by intros s f [off ->]. }
  rewrite Hno in HFk. apply Forall2_nil_inv_r in HFk.
  destruct (job_specs j) as [|s l] eqn:Es; [by apply (job_specs_nonempty j)|].
  assert (Hs : s ∈ job_specs j) by (rewrite Es; by left).
  apply (filter_nil_not_elem_of _ _ s HFk).
  - pose proof (job_specs_carry j) as Hc. rewrite Forall_forall in Hc. by apply Hc.
  - rewrite Hperm. apply elem_of_app. left. apply list_elem_of_In, in_concat. exists (job_specs j).
    split; [|by apply list_elem_of_In]. apply in_map. by apply list_elem_of_In.
Qed.

(** The frames as read, but for their place in the stream. *)
Definition frames_of (specs : list FrameSpec) : list Frame := map (frame_of_spec 0) specs.

(** The specs written one after the other into one buffer. *)
Definition encode_frames (w : bytes) (specs : list FrameSpec) : bytes := foldl encode_frame w specs.

Lemma encode_frames_specs w specs : encode_frames w specs = w ++ specs_bytes specs.
Proof.
  revert w. induction specs as [|s specs IH]; intros w; [by rewrite app_nil_r|].
  unfold encode_frames in *. cbn [foldl]. by rewrite IH, encode_frame_app, specs_bytes_cons, app_assoc.
Qed.

Lemma frames_of_events specs fs : Forall2 is_frame_of specs fs ->
  events fs = events (frames_of specs) /\
  concat (map control_of fs) = concat (map control_of (frames_of specs)) /\
  concat (map ack_of fs) = concat (map ack_of (frames_of specs)) /\
  data_keys fs = data_keys (frames_of specs) /\ length fs = length specs /\
  (forall t, count (is_type t) fs = count (is_type t) (frames_of specs)) /\
  count (fun f => f_has_crc f && f_crc_ok f) fs = count sp_with_crc specs /\
  count (fun f => f_has_crc f && negb (f_crc_ok f)) fs = 0.
Proof.
  induction 1 as [|s f specs fs [off ->] _ IH]; [done|].
  destruct IH as (F1 & F2 & F3 & F4 & F5 & F6 & F7 & F8). unfold events, frames_of in *. cbn [map concat length].
  rewrite !data_keys_cons, F1, F2, F3, F4, F5, !count_cons, F7, F8. split_and!; try done.
  - intros t. by rewrite !count_cons, F6.
  - cbn [f_has_crc f_crc_ok frame_of_spec]. by destruct (sp_with_crc s).
  - cbn [f_has_crc f_crc_ok frame_of_spec]. by destruct (sp_with_crc s).
Qed.

Lemma frames_of_arrivals js specs fs : Forall2 is_frame_of specs fs -> arrivals js fs = arrivals js (frames_of specs).
Proof.
  induction 1 as [|s f specs fs [off ->] HF IH]; [done|].
  unfold frames_of. cbn [map arrivals]. fold (frames_of specs). rewrite IH. f_equal.
  destruct (frames_of_events specs fs HF) as (_ & _ & _ & Hk & _).
  erewrite (decide_ext (_ /\ _)); [done|]. rewrite !filter_carries_nil, Hk. done.
Qed.

Lemma frames_of_resets js others specs fs : Forall (harmless js) others ->
  specs ≡ₚ jobs_specs js ++ others -> Forall2 is_frame_of specs fs -> resets_elsewhere js fs.
Proof.
  intros Hoth Hperm HF.
  assert (Hs : Forall (fun s => sp_type s = kReset -> sp_stream_id s ∉ map j_stream_id js) specs).
  { rewrite Hperm. apply Forall_app_2; [|eapply Forall_impl; [exact Hoth|]; by intros s (_ & _ & ?)].
    unfold jobs_specs. apply Forall_concat, Forall_map, Forall_true. intros j.
    eapply Forall_impl; [apply job_specs_carry|]. intros s [-> _]. done. }
  clear -Hs HF. induction HF as [|s f specs fs [off ->] _ IH]; [constructor|].
  apply Forall_cons in Hs as [Hs1 Hs]. constructor; [exact Hs1|by apply IH].
Qed.

(** Decoding them. *)
Lemma decode_interleaved (js : list job) (others specs : list FrameSpec) :
  Forall job_ok js -> NoDup (map job_key js) -> Forall (harmless js) others ->
  specs ≡ₚ jobs_specs js ++ others ->
  encode_jobs [] js = encode_frames [] (jobs_specs js) /\
  exists res, decode (encode_frames [] specs) = Ok res /\
    dr_messages res = arrivals js (frames_of specs) /\ dr_messages res ≡ₚ map job_message js /\
    dr_stats res = snapshot (history_table (events (frames_of specs))) /\
    dr_controls res = concat (map control_of (frames_of specs)) /\
    dr_acks res = concat (map ack_of (frames_of specs)) /\
    u64 (frames_seen res) = u64 (Z.of_nat (length specs)) /\
    u64 (reset_frames res) = u64 (count (is_type kReset) (frames_of specs)) /\
    u64 (header_crc_ok res) = u64 (count sp_with_crc specs) /\ u64 (header_crc_bad res) = 0.
Proof.
  intros Hjs Hkeys Hoth Hperm. split; [by rewrite encode_jobs_specs, encode_frames_specs|].
  rewrite encode_frames_specs. cbn [app].
  assert (Hok : Forall spec_ok specs).
  { rewrite Hperm. apply Forall_app_2; [|eapply Forall_impl; [exact Hoth|]; by intros s []].
    eapply Forall_impl; [by apply jobs_specs_ok|]. by intros s []. }
  pose proof (decode_spec (specs_bytes specs) (specs_bytes_ok _ Hok)) as Hd. unfold trace_of, mk_reader in Hd.
  destruct (trace_specs (S (length (specs_bytes specs))) true [] specs) as (fs & Hfs & HF); [constructor|done|lia|].
  cbn [app length] in Hfs. rewrite Hfs in Hd.
  assert (Hfok : Forall frame_ok fs).
  { clear -HF Hok. induction HF as [|s f specs fs [off ->] _ IH]; [constructor|].
    apply Forall_cons in Hok as [? ?]. constructor; [by apply frame_of_spec_ok|by apply IH]. }
  destruct (awaiting_messages js Hjs Hkeys fs ∅ new_reassembler tracks_new Hfok) as [Hm Hr];
    [by eapply frames_of_resets|by eapply awaiting_specs|].
  destruct (Hd Hr) as (res & Hres & E1 & E2 & E3 & E4 & E5 & _ & _ & E6 & E7 & E8).
  destruct (frames_of_events specs fs HF) as (F1 & F2 & F3 & F4 & F5 & F6 & F7 & F8).
  exists res. rewrite Hm in E1. rewrite <- F1, <- F2, <- F3, <- F5, <- F6, <- F7. rewrite F8 in E8.
  rewrite <- (frames_of_arrivals js specs fs HF). split_and!; try done.
  rewrite E1, arrivals_perm. by rewrite (jobs_all_keys js others specs fs Hperm HF).
Qed.

(** ** Claims *)

(** C1. End to end, with many messages under way at once: the frames of any messages
    with pairwise distinct keys, written in any order whatever (fragments out of
    order, messages interleaved) and mixed with acknowledgements, window updates and
    resets of streams that carry none of them, decode to exactly those messages,
    each once, in the order in which their last frames come; controls and acks are
    those written, the statistics those of the sequence numbers in the order written,
    and every header CRC is valid. *)
Theorem decode_interleaved_messages (js : list job) (others specs : list FrameSpec) :
  Forall job_ok js -> NoDup (map job_key js) -> Forall (harmless js) others ->
  specs ≡ₚ jobs_specs js ++ others ->
  encode_jobs [] js = encode_frames [] (jobs_specs js) /\
  exists res, decode (encode_frames [] specs) = Ok res /\
    dr_messages res = arrivals js (frames_of specs) /\ dr_messages res ≡ₚ map job_message js /\
    dr_stats res = snapshot (history_table (events (frames_of specs))) /\
    dr_controls res = concat (map control_of (frames_of specs)) /\
    dr_acks res = concat (map ack_of (frames_of specs)) /\
    u64 (frames_seen res) = u64 (Z.of_nat (length specs)) /\
    u64 (reset_frames res) = u64 (count (is_type kReset) (frames_of specs)) /\
    u64 (header_crc_ok res) = u64 (count sp_with_crc specs) /\ u64 (header_crc_bad res) = 0.
Proof. apply decode_interleaved. Qed.

Definition crossing_jobs : list job :=
  [MkJob 7 1 [10; 20; 30; 40; 50] 2 65535 false true; MkJob 9 1 [1; 2; 3] 2 0 true false].
Definition crossing_others : list FrameSpec :=
  [MkSpec kAck 0 9 1 5 0 [] false; MkSpec kReset 0 11 0 0 0 [] true].
Definition crossing_specs : list FrameSpec :=
  match jobs_specs crossing_jobs, crossing_others with
  | [a; b; c; d; e], [x; y] => [c; e; a; x; y; d; b]
  | _, _ => []
  end.

Lemma crossing_perm : crossing_specs ≡ₚ jobs_specs crossing_jobs ++ crossing_others.
Proof.
  unfold crossing_specs, crossing_others.
  assert (exists a b c d e, jobs_specs crossing_jobs = [a; b; c; d; e]) as (a & b & c & d & e & ->).
  { do 5 eexists. vm_compute. reflexivity. }
  cbn [app]. solve_Permutation.
Qed.

Lemma decode_interleaved_messages_witness :
  exists res, decode (encode_frames [] crossing_specs) = Ok res /\
    dr_messages res = [MkMessage 9 1 true [1; 2; 3]; MkMessage 7 1 false [10; 20; 30; 40; 50]] /\
    dr_acks res = [MkAckRecord 9 1] /\ u64 (reset_frames res) = 1.
Proof.
  destruct (decode_interleaved_messages crossing_jobs crossing_others crossing_specs)
    as (_ & res & Hres & Hm & _ & _ & _ & Ha & _ & Hr & _).
  - repeat constructor; try (by apply (bool_decide_unpack _); vm_compute); cbn; lia.
  - by apply (bool_decide_unpack _); vm_compute.
  - repeat constructor; try (by apply (bool_decide_unpack _); vm_compute); try done.
  - exact crossing_perm.
  - exists res. split; [exact Hres|]. split; [rewrite Hm; by vm_compute|]. split; [rewrite Ha; by vm_compute|].
    rewrite Hr. by vm_compute.
Defined.
