(* ===== verification/Transport.v ===== *)
(** * Transport: messages from sender to receiver, in order

    The encoder ([encoder.cpp]), the decode driver ([decoder.cpp]) and the ordered
    delivery queue ([delivery.cpp]) composed: what one side encodes on a stream, the
    other side releases on that stream, in the order in which it was sent. *)

From S2P Require Import Prelude Status ByteIO OrdMap Frame StreamState Reassembler Fragments StreamDecoder Interleave Delivery.

(** ** Consecutive ids *)

Lemma jumps_nonneg n l : 0 <= jumps_from n l.
Proof. revert n. induction l as [|m l IH]; intros n; simpl; [done|]. specialize (IH (m_msg_id m + 1)). case_bool; lia. Qed.

(** A release without a skip is a run of consecutive ids. *)
Lemma jumps_zero n l : jumps_from n l = 0 ->
  map m_msg_id l = seqZ n (Z.of_nat (length l)) /\ cursor_after n l = n + Z.of_nat (length l).
Proof.
  revert n. induction l as [|m l IH]; intros n H; cbn [jumps_from cursor_after map length] in *; [split; [done|lia]|].
  pose proof (jumps_nonneg (m_msg_id m + 1) l). destruct (Z.eqb_spec (m_msg_id m) n) as [He|]; [subst n|lia].
  destruct (IH (m_msg_id m + 1)) as [-> ->]; [lia|]. split; [|lia].
  rewrite (seqZ_cons (m_msg_id m)) by lia. f_equal. f_equal; lia.
Qed.

Lemma consecutive_sorted n l : map m_msg_id l = seqZ n (Z.of_nat (length l)) ->
  StronglySorted (fun a b => m_msg_id a < m_msg_id b) l.
Proof.
  revert n. induction l as [|m l IH]; intros n H; [constructor|]. cbn [map length] in H.
  rewrite seqZ_cons in H by lia. injection H as Hm Hl. replace (Z.pred (Z.of_nat (S (length l)))) with (Z.of_nat (length l)) in Hl by lia.
  constructor; [by eapply IH|]. apply Forall_forall. intros x Hx.
  assert (Hin : m_msg_id x ∈ map m_msg_id l) by by apply list_elem_of_fmap_2.
  rewrite Hl in Hin. apply elem_of_seqZ in Hin. lia.
Qed.

(** Consecutive lists of the same messages are the same list. *)
Lemma consecutive_unique n n' l l' : l ≡ₚ l' ->
  map m_msg_id l = seqZ n (Z.of_nat (length l)) -> map m_msg_id l' = seqZ n' (Z.of_nat (length l')) -> l = l'.
Proof.
  intros Hp Hl Hl'. eapply (StronglySorted_unique_strong (fun a b => m_msg_id a < m_msg_id b)); [|by eapply consecutive_sorted..|done].
  intros a b _ _ Hab Hba. cbv beta in *. lia.
Qed.

(** ** A queue that skips nothing *)

(** [l] arrived on the stream [id], first of them the lowest, and [out] was released:
    the run of ids from the first one on, up to the first that has not arrived. *)
Definition caught_up (q : DeliveryQueue) (id : Z) (l out : list Message) : Prop :=
  match l with
  | [] => dq_streams q !! id = None /\ out = []
  | m :: _ => exists s, dq_streams q !! id = Some s /\ out <> [] /\
      map m_msg_id out = seqZ (m_msg_id m) (Z.of_nat (length out)) /\
      next_expected s = m_msg_id m + Z.of_nat (length out) /\ l ≡ₚ out ++ held s
  end.

(** What a stream must look like for nothing to be skipped or dropped: distinct ids,
    the lowest first, and never more messages ahead than the window holds. *)
Definition orderly (window : nat) (l : list Message) : Prop :=
  NoDup (map m_msg_id l) /\
  match l with
  | [] => True
  | m :: l' => Forall (fun x => m_msg_id m <= m_msg_id x) l' /\ (length l' <= window)%nat
  end.

Lemma orderly_prefix window l l' : orderly window (l ++ l') -> orderly window l.
Proof.
  intros [Hnd Hl]. rewrite map_app in Hnd. apply NoDup_app in Hnd as [Hnd _]. split; [done|].
  destruct l as [|m l]; [done|]. cbn [app] in Hl. rewrite length_app, Forall_app in Hl. split; [tauto|lia].
Qed.

Record lossless (q : DeliveryQueue) (ms out : list Message) : Prop := {
  ll_queue : queue_ok q;
  ll_gaps : dq_gaps q = 0;
  ll_duplicates : dq_duplicates q = 0;
  ll_streams : forall id, caught_up q id (on_stream id ms) (on_stream id out);
}.

Lemma on_stream_absent id l : Forall (fun m => m_stream_id m <> id) l -> on_stream id l = [].
Proof. induction 1 as [|m l Hm _ IH]; [done|]. unfold on_stream in *. cbn [List.filter]. by rewrite (proj2 (Z.eqb_neq _ _)). Qed.

(** The cursor does not run past the messages that arrived. *)
Lemma caught_up_fresh window q id l out s m : caught_up q id l out -> dq_streams q !! id = Some s ->
  order_ok id s -> orderly window (l ++ [m]) ->
  next_expected s <= m_msg_id m /\ pending s !! m_msg_id m = None /\ (S (size (pending s)) <= window)%nat.
Proof.
  intros Hc Hs [_ Hok] [Hnd Hl]. destruct l as [|m0 l]; [destruct Hc; congruence|].
  destruct Hc as (s' & Hs' & Hne & Hids & Hnext & Hp). rewrite Hs in Hs'. injection Hs' as <-.
  rewrite map_app in Hnd. apply NoDup_app in Hnd as (_ & Hnew & _). cbn [app] in Hl.
  destruct Hl as [Hlow Hlen]. apply Forall_app in Hlow as [_ Hlow]. rewrite Forall_singleton in Hlow.
  assert (Hout : m_msg_id m ∉ map m_msg_id (out ++ held s)).
  { intros Hin. apply (Hnew (m_msg_id m)); [|by left]. by rewrite Hp. }
  rewrite map_app, elem_of_app in Hout. split_and!.
  - destruct (Z.le_gt_cases (next_expected s) (m_msg_id m)) as [|Hlt]; [done|]. destruct Hout. left.
    rewrite Hids. apply elem_of_seqZ. lia.
  - destruct (pending s !! m_msg_id m) as [x|] eqn:E; [|done]. destruct Hout. right.
    destruct (Hok _ _ E) as (_ & <- & _). apply list_elem_of_fmap_2. unfold held.
    apply (list_elem_of_fmap_2 snd _ (m_msg_id m, x)). by apply elem_of_map_to_list.
  - apply Permutation_length in Hp. rewrite length_app, <- size_held in Hp. rewrite length_app in Hlen.
    cbn [length] in *. destruct out; [done|]. cbn [length] in *. lia.
Qed.

(** At the cursor, the message and the run behind it come out. *)
Lemma offer_at_cursor q id s m : queue_ok q -> m_stream_id m = id -> offer_ok m ->
  arrival (stream_of q id) m = s -> m_msg_id m = next_expected s ->
  exists rel s', offer q m = Ok (m :: rel, set_stream q id s' (dq_gaps q) (dq_duplicates q)) /\
    stream_ok (dq_window q) id s' /\ Forall (fun x => m_stream_id x = id) rel /\
    map m_msg_id (m :: rel) = seqZ (m_msg_id m) (Z.of_nat (length (m :: rel))) /\
    next_expected s' = m_msg_id m + Z.of_nat (length (m :: rel)) /\ held (stream_of q id) ≡ₚ rel ++ held s'.
Proof.
  intros Hq Hid Hm Hs He. destruct (arrival_ok q m Hq Hm) as ((Hok & Hset & Hst & Hsz) & Hheld & _).
  rewrite Hid, Hs in *. unfold offer. fold fresh_order. rewrite Hid. fold (stream_of q id) (arrival (stream_of q id) m). rewrite Hs.
  rewrite He, Z.ltb_irrefl, Z.eqb_refl, <- He, u32_next by done.
  assert (Hok1 : order_ok id (MkOrder (so_started s) (m_msg_id m + 1) (pending s))).
  { destruct Hok as [Hn Ho]. unfold offer_ok in Hm. split; cbn [next_expected pending]; [lia|]. intros k m' Hk.
    destruct (Ho k m' Hk) as (? & ? & ?). split_and!; try done; try lia.
    assert (k <> next_expected s) by (intros ->; unfold settled in Hset; congruence). lia. }
  destruct (drain_spec (S (size (pending s))) id _ [m] Hok1 ltac:(simpl; lia)) as (rel & s' & Hd & Hp & Hj & Hs').
  unfold drain_all. cbn [pending]. rewrite Hd. cbn [obind app].
  destruct (pops_spec id _ rel s' Hp Hok1) as (Hok' & Hh & Hst' & Hc' & Hf & _).
  pose proof (pops_size id _ rel s' Hp Hok1) as Hsz'. cbn [pending next_expected so_started] in *.
  apply jumps_zero in Hj as [Hids Hcur]. exists rel, s'. split; [done|]. split; [|split; [|split; [|split]]].
  - split; [done|]. split; [done|]. split; [congruence|lia].
  - eapply Forall_impl; [exact Hf|]. by intros ? [].
  - cbn [map length]. rewrite seqZ_cons, Hids by lia. f_equal. f_equal; lia.
  - rewrite Hc', Hcur. cbn [length]. lia.
  - rewrite Hheld. exact Hh.
Qed.

(** Ahead of the cursor, in a window that holds it, it waits. *)
Lemma offer_ahead q id s m : queue_ok q -> m_stream_id m = id -> offer_ok m -> dq_streams q !! id = Some s ->
  next_expected s < m_msg_id m -> pending s !! m_msg_id m = None -> (S (size (pending s)) <= dq_window q)%nat ->
  exists s', offer q m = Ok ([], set_stream q id s' (dq_gaps q) (dq_duplicates q)) /\
    stream_ok (dq_window q) id s' /\ next_expected s' = next_expected s /\ held s' ≡ₚ m :: held s.
Proof.
  intros [_ Hq] Hid Hm Hs Hlt Hnew Hroom. destruct (Hq _ _ Hs) as ([Hn Hok] & Hset & Hst & _).
  exists (MkOrder true (next_expected s) (<[m_msg_id m := m]> (pending s))). unfold offer. rewrite Hid, Hs.
  change (default (MkOrder false 0 ∅) (Some s)) with s. rewrite Hst. cbn [negb].
  rewrite (proj2 (Z.ltb_ge _ _)), (proj2 (Z.eqb_neq _ _)), Hnew by lia.
  assert (Hsz : size (<[m_msg_id m := m]> (pending s)) = S (size (pending s))) by by rewrite map_size_insert_None.
  cbn [window_loop pending]. rewrite Hsz, (proj2 (Nat.ltb_ge _ _)) by done. cbn [obind]. rewrite Hst. split; [done|].
  unfold offer_ok in Hm. split_and!; try done.
  - split; [split|]; cbn [next_expected pending]; [done| |].
    + intros k m' [[<- <-]|[_ Hk]]%lookup_insert_Some; [split_and!; try done; lia|by apply Hok].
    + split; [|split; [done|cbn [pending]; lia]]. unfold settled. cbn [pending next_expected].
      rewrite lookup_insert_ne by lia. exact Hset.
  - unfold held. cbn [pending]. by rewrite map_to_list_insert.
Qed.

Lemma set_stream_caught_up q id s g d id' l out : id' <> id ->
  caught_up q id' l out -> caught_up (set_stream q id s g d) id' l out.
Proof.
  intros Hne. unfold caught_up, set_stream. cbn [dq_streams]. by rewrite lookup_insert_ne by done.
Qed.

Lemma set_stream_ok q id s g d : queue_ok q -> stream_ok (dq_window q) id s -> queue_ok (set_stream q id s g d).
Proof. intros [Hw Hq] Hs. split; [done|]. by apply map_Forall_insert_2. Qed.

Lemma stream_started q id s m : queue_ok q -> dq_streams q !! id = Some s ->
  stream_of q id = s /\ arrival (stream_of q id) m = s.
Proof.
  intros [_ Hq] Hs. destruct (Hq _ _ Hs) as (_ & _ & Hst & _). unfold stream_of, arrival. rewrite Hs.
  change (default fresh_order (Some s)) with s. by rewrite Hst.
Qed.

Lemma stream_unseen q id : dq_streams q !! id = None -> held (stream_of q id) = [].
Proof. intros H. unfold stream_of. rewrite H. unfold held. cbn. by rewrite map_to_list_empty. Qed.

(** A release at the cursor prolongs the run. *)
Lemma caught_up_release q id l out s' m rel g d : queue_ok q -> caught_up q id l out ->
  m_msg_id m = next_expected (arrival (stream_of q id) m) ->
  map m_msg_id (m :: rel) = seqZ (m_msg_id m) (Z.of_nat (length (m :: rel))) ->
  next_expected s' = m_msg_id m + Z.of_nat (length (m :: rel)) -> held (stream_of q id) ≡ₚ rel ++ held s' ->
  caught_up (set_stream q id s' g d) id (l ++ [m]) (out ++ m :: rel).
Proof.
  intros Hq Hc He Hids Hnext Hheld. destruct l as [|m0 l]; cbn [app caught_up];
    exists s'; unfold set_stream; cbn [dq_streams]; rewrite lookup_insert_eq.
  - destruct Hc as [Hnone ->]. rewrite (stream_unseen q id Hnone) in Hheld. split_and!; try done.
    cbn [app]. by rewrite <- Hheld.
  - destruct Hc as (s & Hs & Hout & Hids0 & Hnext0 & Hp). destruct (stream_started q id s m Hq Hs) as [Es Ea].
    rewrite Ea in He. rewrite Es in Hheld. split_and!; [done|by destruct out| | |].
    + rewrite map_app, Hids0, Hids, length_app, Nat2Z.inj_add, seqZ_app by lia. do 2 f_equal. lia.
    + rewrite Hnext, length_app, He, Hnext0. lia.
    + change (m0 :: l ++ [m]) with ((m0 :: l) ++ [m]). rewrite Hp, Hheld. solve_Permutation.
Qed.

Lemma caught_up_wait q id l out s s' m g d : caught_up q id l out -> dq_streams q !! id = Some s ->
  next_expected s' = next_expected s -> held s' ≡ₚ m :: held s ->
  caught_up (set_stream q id s' g d) id (l ++ [m]) out.
Proof.
  intros Hc Hs Hnext Hheld. destruct l as [|m0 l]; [destruct Hc; congruence|].
  destruct Hc as (s0 & Hs0 & Hout & Hids0 & Hnext0 & Hp). rewrite Hs in Hs0. injection Hs0 as <-.
  cbn [app caught_up]. exists s'. unfold set_stream. cbn [dq_streams]. rewrite lookup_insert_eq.
  split_and!; try done; [lia|]. change (m0 :: l ++ [m]) with ((m0 :: l) ++ [m]). rewrite Hp, Hheld. solve_Permutation.
Qed.

(** One arrival, on its stream and on the others. *)
Lemma lossless_offer q ms out m : lossless q ms out -> offer_ok m ->
  orderly (dq_window q) (on_stream (m_stream_id m) (ms ++ [m])) ->
  exists rel q', offer q m = Ok (rel, q') /\ dq_window q' = dq_window q /\ lossless q' (ms ++ [m]) (out ++ rel).
Proof.
  intros [Hq Hg Hd Hst] Hm Ho. set (id := m_stream_id m) in *.
  assert (Hone : on_stream id [m] = [m]) by (apply on_stream_all; by apply Forall_singleton).
  rewrite on_stream_app, Hone in Ho.
  assert (Hgoal : forall rel s', stream_ok (dq_window q) id s' -> Forall (fun x => m_stream_id x = id) rel ->
    caught_up (set_stream q id s' (dq_gaps q) (dq_duplicates q)) id (on_stream id ms ++ [m]) (on_stream id out ++ rel) ->
    lossless (set_stream q id s' (dq_gaps q) (dq_duplicates q)) (ms ++ [m]) (out ++ rel)).
  { intros rel s' Hs' Hrel Hc'. split; [by apply set_stream_ok|done..|]. intros id'.
    rewrite !on_stream_app. destruct (decide (id' = id)) as [->|Hne]; [by rewrite Hone, (on_stream_all id rel)|].
    rewrite (on_stream_none id id' [m]), (on_stream_none id id' rel), !app_nil_r by (done || by apply Forall_singleton).
    by apply set_stream_caught_up. }
  destruct (arrival_ok q m Hq Hm) as (_ & _ & Hcur). fold id in Hcur.
  destruct (decide (m_msg_id m = next_expected (arrival (stream_of q id) m))) as [He|Hne].
  - destruct (offer_at_cursor q id _ m Hq eq_refl Hm eq_refl He) as (rel & s' & -> & Hs' & Hrel & Hids & Hnext & Hheld).
    do 2 eexists. split; [done|]. split; [done|]. apply Hgoal; [done|by constructor|]. by apply caught_up_release.
  - destruct Hcur as [Hcur|[_ ?]]; [|congruence]. unfold cursor in Hcur. apply fmap_Some in Hcur as (s & Hs & Hn).
    destruct (proj2 Hq _ _ Hs) as (Hok & _).
    destruct (caught_up_fresh _ q id _ _ s m (Hst id) Hs Hok Ho) as (Hge & Hnew & Hroom).
    destruct (offer_ahead q id s m Hq eq_refl Hm Hs ltac:(lia) Hnew Hroom) as (s' & -> & Hs' & Hnext & Hheld).
    do 2 eexists. split; [done|]. split; [done|]. apply Hgoal; [done|constructor|].
    rewrite app_nil_r. by eapply caught_up_wait.
Qed.

Definition offer_all (q : DeliveryQueue) (ms : list Message) : outcome (list Message * DeliveryQueue) :=
  run_queue q (map Offer ms).

Lemma lossless_offers ms2 : forall q ms1 out1, lossless q ms1 out1 -> Forall offer_ok ms2 ->
  (forall id, orderly (dq_window q) (on_stream id (ms1 ++ ms2))) ->
  exists out2 q', offer_all q ms2 = Ok (out2, q') /\ lossless q' (ms1 ++ ms2) (out1 ++ out2).
Proof.
  unfold offer_all. induction ms2 as [|m ms2 IH]; intros q ms1 out1 Hll Hok Ho.
  { exists [], q. by rewrite !app_nil_r. }
  apply Forall_cons in Hok as [Hm Hok]. cbn [map run_queue run_queue_op].
  change (m :: ms2) with ([m] ++ ms2) in *. rewrite app_assoc in *.
  destruct (lossless_offer q ms1 out1 m Hll Hm) as (rel & q1 & -> & Hw & Hll1).
  { eapply orderly_prefix. rewrite <- on_stream_app. apply Ho. }
  cbn [obind]. destruct (IH q1 _ _ Hll1 Hok) as (out2 & q' & -> & Hll'); [by rewrite Hw|].
  exists (rel ++ out2), q'. cbn [obind]. by rewrite app_assoc.
Qed.

Lemma lossless_new window : lossless (new_queue window) [] [].
Proof. split; [apply new_queue_ok|done..]. Qed.

(** When every id from the first on has arrived, nothing is held back. *)
Lemma lossless_complete q ms out id n : lossless q ms out ->
  map m_msg_id (on_stream id ms) ≡ₚ seqZ n (Z.of_nat (length (on_stream id ms))) ->
  exists n', map m_msg_id (on_stream id out) = seqZ n' (Z.of_nat (length (on_stream id out))) /\
    on_stream id ms ≡ₚ on_stream id out /\ held (stream_of q id) = [].
Proof.
  intros [Hqo _ _ Hst] Hids. specialize (Hst id).
  destruct (on_stream id ms) as [|m0 l] eqn:El.
  { destruct Hst as [Hnone ->]. exists 0. split_and!; [done..|by apply stream_unseen]. }
  destruct Hst as (s & Hs & Hne & Hout & Hnext & Hp). exists (m_msg_id m0).
  destruct (stream_started q id s m0 Hqo Hs) as [-> _]. destruct Hqo as [_ Hq]. destruct (Hq _ _ Hs) as ([_ Hok] & Hset & _).
  assert (Hheld : held s = []).
  { destruct (held s) as [|x h] eqn:Eh; [done|]. exfalso.
    assert (Hin : next_expected s ∈ map m_msg_id (on_stream id out ++ held s)).
    { rewrite Eh, <- Hp, Hids. apply elem_of_seqZ.
      assert (Hm0 : m_msg_id m0 ∈ seqZ n (Z.of_nat (length (m0 :: l)))) by (rewrite <- Hids; cbn [map]; by left).
      assert (Hx : m_msg_id x ∈ seqZ n (Z.of_nat (length (m0 :: l)))).
      { rewrite <- Hids, Hp, map_app. apply elem_of_app. right. by left. }
      apply elem_of_seqZ in Hm0, Hx. assert (Hxs : x ∈ held s) by (rewrite Eh; by left).
      unfold held in Hxs. apply list_elem_of_fmap in Hxs as ([k y] & -> & Hk). apply elem_of_map_to_list in Hk.
      destruct (Hok _ _ Hk) as (? & ? & _). cbn [snd] in *. lia. }
    rewrite map_app, elem_of_app in Hin. destruct Hin as [Hin|Hin].
    - rewrite Hout in Hin. apply elem_of_seqZ in Hin. lia.
    - apply list_elem_of_fmap in Hin as (y & Hy & Hin). unfold held in Hin.
      apply list_elem_of_fmap in Hin as ([k y'] & -> & Hk). apply elem_of_map_to_list in Hk.
      destruct (Hok _ _ Hk) as (_ & Hky & _). cbn [snd] in *. unfold settled in Hset. congruence. }
  split_and!; [done| |done]. by rewrite Hp, Hheld, app_nil_r.
Qed.

Lemma buffered_none q : (forall id, held (stream_of q id) = []) -> buffered q = 0%nat.
Proof.
  intros H. unfold buffered.
  assert (Hz : Forall (fun kv : Z * StreamOrder => size (pending kv.2) = 0%nat) (entries (dq_streams q))).
  { apply Forall_forall. intros [id s] Hin. apply elem_of_entries in Hin.
    specialize (H id). unfold stream_of in H. rewrite Hin in H. cbn [snd]. rewrite size_held. exact (f_equal length H). }
  generalize 0%nat. induction Hz as [|x l Hx _ IH]; intros n; [done|]. cbn [foldl]. rewrite IH, Hx. lia.
Qed.

(** ** Claims *)

Section transport.
Context (window : nat) (sent arrived : list Message).

(** On every stream the ids sent count up one by one, there are no more of them than
    the window holds behind the first, and the first is the first to be whole. *)
Definition in_sequence : Prop := forall id,
  (exists n, map m_msg_id (on_stream id sent) = seqZ n (Z.of_nat (length (on_stream id sent)))) /\
  (length (on_stream id sent) <= S window)%nat /\
  head (on_stream id arrived) = head (on_stream id sent).

Lemma on_stream_perm id l k : l ≡ₚ k -> on_stream id l ≡ₚ on_stream id k.
Proof. unfold on_stream. intros H. induction H; cbn [List.filter]; repeat case_bool; try done; [by constructor..|by etrans]. Qed.

Lemma in_sequence_orderly : arrived ≡ₚ sent -> in_sequence -> forall id, orderly (Nat.max 1 window) (on_stream id arrived).
Proof.
  intros Hp Hseq id. destruct (Hseq id) as ((n & Hids) & Hlen & Hhead). pose proof (on_stream_perm id _ _ Hp) as Hpi.
  split; [rewrite Hpi, Hids; apply NoDup_seqZ|]. destruct (on_stream id arrived) as [|m l]; [done|].
  destruct (on_stream id sent) as [|m' l'] eqn:Es; [done|]. injection Hhead as <-.
  pose proof (Permutation_length Hpi) as Hl. cbn [length] in *. split; [|lia].
  apply Permutation_cons_inv in Hpi. cbn [map] in Hids. rewrite seqZ_cons in Hids by lia. injection Hids as Hm Hids.
  rewrite Hpi. apply Forall_forall. intros x Hx. assert (Hin : m_msg_id x ∈ map m_msg_id l') by by apply list_elem_of_fmap_2.
  rewrite Hids in Hin. apply elem_of_seqZ in Hin. lia.
Qed.

(** Messages that arrive in another order are released in the order sent. *)
Lemma offers_in_sequence : arrived ≡ₚ sent -> Forall offer_ok sent -> in_sequence ->
  exists out q, offer_all (new_queue window) arrived = Ok (out, q) /\
    (forall id, on_stream id out = on_stream id sent) /\
    buffered q = 0%nat /\ dq_gaps q = 0 /\ dq_duplicates q = 0.
Proof.
  intros Hp Hok Hseq. destruct (lossless_offers arrived (new_queue window) [] [] (lossless_new window)) as (out & q & Hrun & Hll).
  - by rewrite Hp.
  - intros id. cbn [app]. replace (dq_window (new_queue window)) with (Nat.max 1 window); [by apply in_sequence_orderly|].
    unfold new_queue. cbn [dq_window]. destruct window; simpl; lia.
  - cbn [app] in Hll. exists out, q. split; [done|].
    assert (Hall : forall id, exists n', map m_msg_id (on_stream id out) = seqZ n' (Z.of_nat (length (on_stream id out))) /\
      on_stream id arrived ≡ₚ on_stream id out /\ held (stream_of q id) = []).
    { intros id. destruct (Hseq id) as ((n & Hids) & _). apply (lossless_complete q arrived out id n Hll).
      by rewrite (on_stream_perm id _ _ Hp), Hids. }
    split; [|split; [|by destruct Hll]].
    + intros id. destruct (Hall id) as (n' & Hids' & Hpo & _). destruct (Hseq id) as ((n & Hids) & _).
      eapply consecutive_unique; [|done..]. by rewrite <- Hpo, (on_stream_perm id _ _ Hp).
    + apply buffered_none. intros id. by destruct (Hall id) as (_ & _ & _ & ?).
Qed.
End transport.

(** C2. From sender to receiver: messages are cut into frames, the frames of all of
    them are written in any order whatever and mixed with acknowledgements, window
    updates and resets of other streams, the bytes are decoded, and the messages
    offered to the delivery queue as they become whole. When the ids are below 2^32 - 1, those
    of each stream count up one by one, no stream has more messages than the window holds behind
    its first, and the first becomes whole first, the queue releases on every stream
    exactly the messages sent, in the order sent, holds nothing back, skips nothing and
    counts no duplicate. *)
Theorem stream_in_order (window : nat) (js : list job) (others specs : list FrameSpec) :
  Forall job_ok js -> NoDup (map job_key js) -> Forall (harmless js) others ->
  specs ≡ₚ jobs_specs js ++ others -> Forall offer_ok (map job_message js) ->
  in_sequence window (map job_message js) (arrivals js (frames_of specs)) ->
  exists res out q, decode (encode_frames [] specs) = Ok res /\
    offer_all (new_queue window) (dr_messages res) = Ok (out, q) /\
    (forall id, on_stream id out = on_stream id (map job_message js)) /\
    buffered q = 0%nat /\ dq_gaps q = 0 /\ dq_duplicates q = 0.
Proof.
  intros Hjs Hkeys Hoth Hperm Hok Hseq.
  destruct (decode_interleaved js others specs Hjs Hkeys Hoth Hperm) as (_ & res & Hres & Hm & Hp & _).
  destruct (offers_in_sequence window (map job_message js) (dr_messages res)) as (out & q & H); [done|done|by rewrite Hm|].
  by exists res, out, q.
Qed.

Definition sequenced_jobs : list job :=
  [MkJob 7 1 [10; 20; 30] 2 65535 false true; MkJob 9 5 [1] 4 0 false false;
   MkJob 7 2 [40] 2 1 false false; MkJob 7 3 [] 2 2 false true].
Definition sequenced_specs : list FrameSpec :=
  match jobs_specs sequenced_jobs with [a; b; c; d; e] => [b; a; e; c; d] | _ => [] end.

Lemma stream_in_order_witness :
  exists res out q, decode (encode_frames [] sequenced_specs) = Ok res /\
    map m_msg_id (dr_messages res) = [1; 3; 5; 2] /\
    offer_all (new_queue 2) (dr_messages res) = Ok (out, q) /\ map m_msg_id (on_stream 7 out) = [1; 2; 3].
Proof.
  destruct (stream_in_order 2 sequenced_jobs [] sequenced_specs) as (res & out & q & Hres & Hout & Hids & _).
  - repeat constructor; try (by apply (bool_decide_unpack _); vm_compute); cbn; lia.
  - by apply (bool_decide_unpack _); vm_compute.
  - constructor.
  - unfold sequenced_specs. assert (exists a b c d e, jobs_specs sequenced_jobs = [a; b; c; d; e]) as (a & b & c & d & e & ->).
    { do 5 eexists. vm_compute. reflexivity. }
    solve_Permutation.
  - repeat constructor; cbn; unfold kIdLimit; lia.
  - intros id. destruct (decide (id = 7)) as [->|H7]; [|destruct (decide (id = 9)) as [->|H9]].
    + split; [exists 1; by vm_compute|]. split; [by apply (bool_decide_unpack _); vm_compute|by vm_compute].
    + split; [exists 5; by vm_compute|]. split; [by apply (bool_decide_unpack _); vm_compute|by vm_compute].
    + assert (Ha : arrivals sequenced_jobs (frames_of sequenced_specs) =
        map (fun j => job_message j) (match sequenced_jobs with [a; b; c; d] => [a; d; b; c] | _ => [] end)) by (vm_compute; reflexivity).
      assert (Hno : on_stream id (map job_message sequenced_jobs) = [] /\ on_stream id (arrivals sequenced_jobs (frames_of sequenced_specs)) = []).
      { rewrite Ha. split; apply on_stream_absent; repeat constructor; cbn; congruence. }
      destruct Hno as [-> ->]. split; [by exists 0|]. split; [cbn; lia|done].
  - exists res, out, q. split; [exact Hres|]. split; [vm_compute in Hres; injection Hres as <-; by vm_compute|].
    split; [exact Hout|]. rewrite Hids. by vm_compute.
Defined.
