(* ===== verification/MiniPages.v ===== *)
(** * MiniPages: the minidb model, file header and page array

    [include/minidb/model.hpp], [include/minidb/format.hpp],
    [src/minidb/header.cpp] and [src/minidb/pages.cpp]. *)

From S2P Require Import Prelude Status ByteIO Checksum.

(** ** The model *)

(** The enum a page's type byte is cast to; other bytes are kept as they are. *)
Inductive PageType := kFree | kData | kStrings | kIndex | kOverflow | kOtherPage (b : Z).

#[export] Instance PageType_eq_dec : EqDecision PageType.
Proof. solve_decision. Defined.

Definition page_type_of (b : Z) : PageType :=
  match b with
  | 0 => kFree | 1 => kData | 2 => kStrings | 3 => kIndex | 4 => kOverflow
  | _ => kOtherPage b
  end.

Definition page_type_name (t : PageType) : string :=
  match t with
  | kFree => "FREE" | kData => "DATA" | kStrings => "STRINGS" | kIndex => "INDEX"
  | kOverflow => "OVERFLOW" | kOtherPage _ => "UNKNOWN"
  end.

Record Slot := MkSlot { rec_offset : Z; rec_length : Z; in_bounds : bool }.

Record Page := MkPage {
  pg_index : Z;
  pg_type : PageType;
  pg_flags : Z;
  slot_count : Z;
  free_start : Z;
  overflow_next : Z;
  truncated : bool;
  slots : list Slot;
}.

#[export] Instance Slot_eq_dec : EqDecision Slot.
Proof. solve_decision. Defined.
#[export] Instance Page_eq_dec : EqDecision Page.
Proof. solve_decision. Defined.

Definition kMagic : bytes := [0x4D; 0x44; 0x42; 0x31].
Definition kSupportedVersion : Z := 1.
Definition kHeaderSize : Z := 32.
Definition kHeaderCrcCovered : nat := 28.
Definition kMinPageSize : Z := 64.
Definition kMaxPageSize : Z := 8192.
Definition kPageSizeAlign : Z := 16.
Definition kPageHeaderSize : Z := 8.
Definition kSlotEntrySize : Z := 4.
Definition kNoOverflow : Z := 0xFFFF.
Definition kNoStringTable : Z := 0xFFFFFFFF.

Record FileHeader := MkHeader {
  h_version : Z;
  h_page_size : Z;
  h_page_count : Z;
  h_root_page : Z;
  h_string_table_page : Z;
  h_journal_offset : Z;
  h_flags : Z;
  h_header_crc32 : Z;
  h_checksum_ok : bool;
}.

(** ** Stage 1: the header *)

(** The borrowed span [base + off, base + off + n). *)
Definition rd_span (off : Z) (n : nat) : Rd bytes :=
  fun r => let? s := copy_range (rd_data r) (Z.to_nat off) n in Ok (s, r).

Definition page_size_bad (page_size : Z) : bool :=
  (page_size <? kMinPageSize) || (kMaxPageSize <? page_size) ||
  negb (page_size mod kPageSizeAlign =? 0).

Definition parse_header (strict : bool) : Rd FileHeader :=
  require kHeaderSize ;!
  let! header_off := get_offset in
  let! hit := rd_match kMagic 4 in
  if negb hit then rd_throw (parse_error kBadMagic header_off "expected MDB1 magic") else
  skip 4 ;!
  let! version := read_u16le in
  if negb (version =? kSupportedVersion)
  then rd_throw (parse_error kBadVersion (header_off + 4) "unsupported MDB1 version") else
  let! page_size := read_u16le in
  if page_size_bad page_size
  then rd_throw (parse_error kBadLength (header_off + 6) "page_size out of range or misaligned") else
  let! page_count := read_u32le in
  let! root_page := read_u32le in
  let! string_table_page := read_u32le in
  let! journal_offset := read_u32le in
  let! flags := read_u32le in
  let! header_crc32 := read_u32le in
  let! covered := rd_span header_off kHeaderCrcCovered in
  let checksum_ok := crc32 covered =? header_crc32 in
  if negb checksum_ok && strict
  then rd_throw (parse_error kBadChecksum (header_off + 28) "header CRC mismatch")
  else rd_ret (MkHeader version page_size page_count root_page string_table_page journal_offset
                 flags header_crc32 checksum_ok).

(** ** Stage 2: the page array *)

Record PageSpan := MkSpan { file_offset : Z; sp_length : Z }.

#[export] Instance PageSpan_eq_dec : EqDecision PageSpan.
Proof. solve_decision. Defined.

Definition read_slot (page_size : Z) : Rd Slot :=
  let! off := read_u16le in
  let! len := read_u16le in
  let e := off + len in
  rd_ret (MkSlot off len ((kPageHeaderSize <=? off) && (e <=? page_size) && (off <=? e))).

(** [for (s = 0; s < fit_entries; ++s)]. *)
Fixpoint slots_loop (n : nat) (page_size : Z) (acc : list Slot) : Rd (list Slot) :=
  match n with
  | O => rd_ret acc
  | S n' => let! s := read_slot page_size in slots_loop n' page_size (acc ++ [s])
  end.

(** The part of the page body after the span is known, through the reader [pr]. *)
Definition read_page (i page_size page_len : Z) : Rd Page :=
  let! type_byte := read_u8 in
  let! flags := read_u8 in
  let! slot_count := read_u16le in
  let! free_start := read_u16le in
  let! overflow_next := read_u16le in
  let dir_bytes := slot_count * kSlotEntrySize in
  let clamped := page_len <? kPageHeaderSize + dir_bytes in
  let room := if kPageHeaderSize <? page_len then page_len - kPageHeaderSize else 0 in
  let fit_entries := if clamped then room / kSlotEntrySize else slot_count in
  let! slots := slots_loop (Z.to_nat fit_entries) page_size [] in
  rd_ret (MkPage i (page_type_of type_byte) flags slot_count free_start overflow_next
            ((page_len <? page_size) || clamped) slots).

Definition empty_page (i : Z) : Page := MkPage i kFree 0 0 0 0xFFFF true [].

(** [for (i = 0; i < hdr.page_count; ++i)]; pages start at distinct offsets inside
    the buffer, so one turn more than there are bytes reaches the break. *)
Fixpoint pages_loop (turns : nat) (data : bytes) (page_count page_size : Z) (i : Z)
    (spans : list PageSpan) (pages : list Page) : outcome (list PageSpan * list Page) :=
  match turns with
  | O => NoFuel
  | S turns' =>
      let size := Z.of_nat (length data) in
      if i <? page_count then
        let page_off := kHeaderSize + i * page_size in
        if size <=? page_off then Ok (spans, pages)
        else
          let avail := size - page_off in
          let page_len := if avail <? page_size then avail else page_size in
          let spans := spans ++ [MkSpan page_off page_len] in
          if page_len <? kPageHeaderSize
          then pages_loop turns' data page_count page_size (i + 1) spans (pages ++ [empty_page i])
          else
            let? body := copy_range data (Z.to_nat page_off) (Z.to_nat page_len) in
            let? (page, _) := read_page i page_size page_len (mk_reader body) in
            pages_loop turns' data page_count page_size (i + 1) spans (pages ++ [page])
      else Ok (spans, pages)
  end.

Definition parse_pages (data : bytes) (hdr : FileHeader) : outcome (list PageSpan * list Page) :=
  pages_loop (S (length data)) data (h_page_count hdr) (h_page_size hdr) 0 [] [].

(** ** The header, functionally *)

Lemma bind_assoc_r {A B C} (m : Rd A) (f : A -> Rd B) (g : B -> Rd C) r :
  rd_bind (rd_bind m f) g r = rd_bind m (fun a => rd_bind (f a) g) r.
Proof. unfold rd_bind. destruct (m r) as [[a r']|e| |]; done. Qed.

Lemma skip_at data p k : (p + k <= length data)%nat ->
  skip (Z.of_nat k) (Rdr data p) = Ok (tt, Rdr data (p + k)).
Proof.
  intros Hp. unfold skip, rd_bind, require, rd_advance, rd_remaining, rd_size. cbn [rd_data rd_pos].
  rewrite (proj2 (Nat.leb_le _ _)), (proj2 (Z.ltb_ge _ _)) by lia. cbn [obind]. by rewrite Nat2Z.id.
Qed.

Lemma require_at data p k : (p + k <= length data)%nat ->
  require (Z.of_nat k) (Rdr data p) = Ok (tt, Rdr data p).
Proof.
  intros Hp. unfold require, rd_remaining, rd_size. cbn [rd_data rd_pos].
  by rewrite (proj2 (Nat.leb_le _ _)), (proj2 (Z.ltb_ge _ _)) by lia.
Qed.

Lemma match_at data p k expected : (p + k <= length data)%nat ->
  rd_match expected k (Rdr data p) =
  Ok (bool_decide (take k (drop p data) = take k expected), Rdr data p).
Proof.
  intros Hp. unfold rd_match, rd_remaining, rd_size, copy_range. cbn [rd_data rd_pos].
  rewrite (proj2 (Nat.leb_le p _)), (proj2 (Nat.ltb_ge _ _)), (proj2 (Nat.leb_le _ _)) by lia. done.
Qed.

(** The header found at the start of a buffer of at least 32 bytes. *)
Definition header_at (data : bytes) : FileHeader :=
  MkHeader (le_at data 4 2) (le_at data 6 2) (le_at data 8 4) (le_at data 12 4) (le_at data 16 4)
    (le_at data 20 4) (le_at data 24 4) (le_at data 28 4)
    (crc32 (take 28 data) =? le_at data 28 4).

Definition header_spec (strict : bool) (data : bytes) : outcome (FileHeader * reader) :=
  if (length data <? 32)%nat then Throw (parse_error' kShortRead 0)
  else if negb (bool_decide (take 4 data = kMagic))
  then Throw (parse_error kBadMagic 0 "expected MDB1 magic")
  else if negb (le_at data 4 2 =? kSupportedVersion)
  then Throw (parse_error kBadVersion 4 "unsupported MDB1 version")
  else if page_size_bad (le_at data 6 2)
  then Throw (parse_error kBadLength 6 "page_size out of range or misaligned")
  else if negb (h_checksum_ok (header_at data)) && strict
  then Throw (parse_error kBadChecksum 28 "header CRC mismatch")
  else Ok (header_at data, Rdr data 32).

Lemma parse_header_is_spec strict data : bytes_ok data ->
  parse_header strict (mk_reader data) = header_spec strict data.
Proof.
  intros Hd. unfold parse_header, header_spec, mk_reader.
  destruct (Nat.ltb_spec (length data) 32) as [Hs|Hl].
  { unfold rd_bind at 1, require, rd_remaining, rd_size. cbn [rd_data rd_pos].
    rewrite (proj2 (Nat.leb_le 0 _)), (proj2 (Z.ltb_lt _ _)) by (unfold kHeaderSize; lia). done. }
  unfold rd_bind at 1. rewrite (require_at data 0 32 ltac:(lia) : require kHeaderSize _ = _).
  cbn [obind]. unfold rd_bind at 1, get_offset. cbn [obind]. change (rd_offset (Rdr data 0)) with 0.
  unfold rd_bind at 1. rewrite match_at by lia. cbn [obind]. rewrite drop_0.
  change (take 4 kMagic) with kMagic. case_bool; [done|].
  unfold rd_bind at 1. rewrite (skip_at data 0 4 ltac:(lia) : skip 4 _ = _). cbn [obind Nat.add].
  erewrite bind_at by (apply fixed_u16le || done || lia). fold (le_at data 4 2).
  case_bool; [done|]. erewrite bind_at by (apply fixed_u16le || done || lia).
  cbn [Nat.add]. fold (le_at data 6 2). case_bool; [done|].
  do 6 (erewrite bind_at by (apply fixed_u32le || done || lia)). cbn [Nat.add].
  unfold rd_bind at 1, rd_span, copy_range. cbn [rd_data]. unfold kHeaderCrcCovered.
  rewrite (proj2 (Nat.leb_le _ _)) by lia. cbn [obind]. change (Z.to_nat 0) with 0%nat. rewrite drop_0.
  unfold header_at at 1. cbn [h_checksum_ok]. fold (le_at data 28 4). by case_bool.
Qed.

(** ** The page array, functionally *)

(** Offset, available length and contents of page [i]. *)
Definition page_offset (ps i : Z) : Z := kHeaderSize + i * ps.
Definition page_avail (size ps i : Z) : Z := Z.min ps (size - page_offset ps i).
Definition span_at (size ps i : Z) : PageSpan := MkSpan (page_offset ps i) (page_avail size ps i).

Definition slot_at (page_size : Z) (body : bytes) (j : nat) : Slot :=
  let off := le_at body (8 + 4 * j) 2 in
  let len := le_at body (10 + 4 * j) 2 in
  MkSlot off len ((kPageHeaderSize <=? off) && (off + len <=? page_size)).

Definition page_body (data : bytes) (ps i : Z) : bytes :=
  take (Z.to_nat (page_avail (Z.of_nat (length data)) ps i)) (drop (Z.to_nat (page_offset ps i)) data).

Definition page_at (data : bytes) (ps i : Z) : Page :=
  let len := page_avail (Z.of_nat (length data)) ps i in
  let body := page_body data ps i in
  if len <? kPageHeaderSize then empty_page i
  else
    let count := le_at body 2 2 in
    let fit := Z.min count ((len - kPageHeaderSize) / kSlotEntrySize) in
    MkPage i (page_type_of (le_at body 0 1)) (le_at body 1 1) count (le_at body 4 2) (le_at body 6 2)
      ((len <? ps) || (fit <? count))
      (map (slot_at ps body) (seq 0 (Z.to_nat fit))).

(** How many of [page_count] pages start inside the buffer. *)
Definition pages_present (size ps page_count : Z) : Z :=
  Z.max 0 (Z.min page_count ((size - kHeaderSize + ps - 1) / ps)).

Lemma slots_loop_at n ps body j acc :
  bytes_ok body -> (8 + 4 * (j + n) <= length body)%nat ->
  slots_loop n ps acc (Rdr body (8 + 4 * j)) =
  Ok (acc ++ map (slot_at ps body) (seq j n), Rdr body (8 + 4 * (j + n))).
Proof.
  intros Hb. revert j acc. induction n as [|n IH]; intros j acc Hn.
  { cbn [slots_loop seq map]. unfold rd_ret. by rewrite app_nil_r, Nat.add_0_r. }
  cbn [slots_loop seq map]. unfold rd_bind at 1, read_slot.
  erewrite bind_at by (apply fixed_u16le || done || lia).
  erewrite bind_at by (apply fixed_u16le || done || lia). unfold rd_ret. cbn [obind].
  replace (8 + 4 * j + 2 + 2)%nat with (8 + 4 * S j)%nat by lia.
  rewrite IH by lia. rewrite <- app_assoc. cbn [app].
  replace (S j + n)%nat with (j + S n)%nat by lia. do 4 f_equal. unfold slot_at, le_at.
  replace (10 + 4 * j)%nat with (8 + 4 * j + 2)%nat by lia.
  set (off := le_val _). set (len := le_val (take 2 (drop (8 + 4 * j + 2) body))).
  assert (0 <= len).
  { pose proof (le_at_range body (8 + 4 * j + 2) 2 Hb) as H. unfold le_at in H. fold len in H. lia. }
  by rewrite (proj2 (Z.leb_le off _)), andb_true_r by lia.
Qed.

Lemma read_page_at i ps body :
  bytes_ok body -> (8 <= length body)%nat ->
  let len := Z.of_nat (length body) in
  let count := le_at body 2 2 in
  let fit := Z.min count ((len - kPageHeaderSize) / kSlotEntrySize) in
  exists r, read_page i ps len (mk_reader body) =
    Ok (MkPage i (page_type_of (le_at body 0 1)) (le_at body 1 1) count (le_at body 4 2) (le_at body 6 2)
          ((len <? ps) || (fit <? count)) (map (slot_at ps body) (seq 0 (Z.to_nat fit))), r).
Proof.
  intros Hb Hl len count fit. unfold read_page, mk_reader.
  pose proof (le_at_range body 2 2 Hb) as Hc. fold count in Hc. change (256 ^ Z.of_nat 2) with 65536 in Hc.
  assert (Hu8 : forall (g : Z -> Rd Page) p, (p + 1 <= length body)%nat ->
    rd_bind read_u8 g (Rdr body p) = g (le_at body p 1) (Rdr body (p + 1))).
  { intros g p Hp. rewrite (bind_at 1 read_u8 (hd 0) g body p fixed_u8 Hb Hp). unfold le_at.
    destruct (take 1 (drop p body)) as [|b [|b' l]] eqn:Et; try done.
    - simpl. by rewrite Z.add_0_r.
    - apply (f_equal length) in Et. rewrite length_take in Et. cbn [length] in Et. lia. }
  rewrite Hu8 by lia. rewrite Hu8 by lia. cbn [Nat.add].
  do 3 (erewrite bind_at by (apply fixed_u16le || done || lia)). cbn [Nat.add].
  fold (le_at body 2 2) (le_at body 4 2) (le_at body 6 2). fold count.
  unfold kPageHeaderSize, kSlotEntrySize in *.
  assert (Hfit : (if len <? 8 + count * 4 then (if 8 <? len then len - 8 else 0) / 4 else count) = fit).
  { unfold fit, len in *. repeat case_bool; reflect_bools; dlia. }
  assert (Hcl : (len <? 8 + count * 4) = (fit <? count)).
  { unfold fit, len in *. destruct (Z.ltb_spec (Z.of_nat (length body)) (8 + count * 4)) as [H|H];
      symmetry; [apply Z.ltb_lt|apply Z.ltb_ge]; dlia. }
  rewrite Hfit, Hcl. eexists. unfold rd_bind.
  pose proof (slots_loop_at (Z.to_nat fit) ps body 0 [] Hb) as Hs. change (8 + 4 * 0)%nat with 8%nat in Hs.
  rewrite Hs by (unfold fit, len in *; dlia). done.
Qed.

Lemma pages_present_spec size ps count i : 0 < ps -> 0 <= i ->
  (i < pages_present size ps count <-> i < count /\ page_offset ps i < size).
Proof.
  intros Hps Hi. unfold pages_present, page_offset, kHeaderSize.
  assert (Hd : i < (size - 32 + ps - 1) / ps <-> i * ps < size - 32).
  { pose proof (Z.div_mod (size - 32 + ps - 1) ps ltac:(lia)) as E.
    pose proof (Z.mod_pos_bound (size - 32 + ps - 1) ps Hps). split; intros; nia. }
  lia.
Qed.

Lemma pages_loop_at turns data pc ps i spans pages :
  bytes_ok data -> 0 < ps -> 0 <= i ->
  let size := Z.of_nat (length data) in
  let n := pages_present size ps pc in
  i <= n -> n - i < Z.of_nat turns ->
  pages_loop turns data pc ps i spans pages =
  Ok (spans ++ map (span_at size ps) (seqZ i (n - i)), pages ++ map (page_at data ps) (seqZ i (n - i))).
Proof.
  intros Hd Hps. revert i spans pages. induction turns as [|turns IH]; intros i spans pages Hi size n Hin Ht;
    [lia|]. cbn [pages_loop]. fold size. pose proof (pages_present_spec size ps pc i Hps Hi) as Hn. fold n in Hn.
  destruct (Z.eq_dec i n) as [He|Hne].
  { rewrite (seqZ_nil i (n - i)) by lia. cbn [map]. rewrite !app_nil_r.
    destruct (Z.ltb_spec i pc); [|done]. fold (page_offset ps i).
    by rewrite (proj2 (Z.leb_le _ _)) by lia. }
  destruct Hn as [[H1 H2] _]; [lia|]. rewrite (proj2 (Z.ltb_lt i pc)) by done.
  fold (page_offset ps i). rewrite (proj2 (Z.leb_gt _ _)) by done.
  replace (if size - page_offset ps i <? ps then size - page_offset ps i else ps)
    with (page_avail size ps i) by (unfold page_avail; case_bool; reflect_bools; lia).
  set (len := page_avail size ps i).
  assert (Hlen : 0 < len <= size - page_offset ps i) by (unfold len, page_avail; lia).
  assert (Hoff : 0 <= page_offset ps i) by (unfold page_offset, kHeaderSize; nia).
  assert (Hstep : forall pg, pg = page_at data ps i ->
    pages_loop turns data pc ps (i + 1) (spans ++ [MkSpan (page_offset ps i) len]) (pages ++ [pg]) =
    Ok (spans ++ map (span_at size ps) (seqZ i (n - i)), pages ++ map (page_at data ps) (seqZ i (n - i)))).
  { intros pg ->. rewrite IH by (subst size n; lia). fold size. fold n.
    rewrite (seqZ_cons i (n - i)) by lia. cbn [map]. rewrite <- !app_assoc.
    replace (Z.succ i) with (i + 1) by lia. replace (Z.pred (n - i)) with (n - (i + 1)) by lia. done. }
  destruct (Z.ltb_spec len kPageHeaderSize) as [Hsm|Hbig].
  - apply Hstep. unfold page_at. fold size. fold len. by rewrite (proj2 (Z.ltb_lt _ _)).
  - unfold copy_range. unfold size in Hlen.
    rewrite (proj2 (Nat.leb_le _ _)) by lia. cbn [obind].
    change (take (Z.to_nat len) (drop (Z.to_nat (page_offset ps i)) data)) with (page_body data ps i).
    assert (Hbl : Z.of_nat (length (page_body data ps i)) = len).
    { unfold page_body. fold size. fold len. rewrite length_take, length_drop. unfold size in Hlen. lia. }
    unfold kPageHeaderSize in Hbig.
    destruct (read_page_at i ps (page_body data ps i)) as [r Hr];
      [unfold page_body; auto with bw|lia|]. rewrite Hbl in Hr. rewrite Hr. cbn [obind].
    apply Hstep. unfold page_at. fold size. fold len. by rewrite (proj2 (Z.ltb_ge len kPageHeaderSize)) by (unfold kPageHeaderSize; lia).
Qed.

Lemma parse_pages_at data hdr :
  bytes_ok data -> 0 < h_page_size hdr ->
  let size := Z.of_nat (length data) in
  let ids := seqZ 0 (pages_present size (h_page_size hdr) (h_page_count hdr)) in
  parse_pages data hdr = Ok (map (span_at size (h_page_size hdr)) ids, map (page_at data (h_page_size hdr)) ids).
Proof.
  intros Hd Hps size ids. unfold parse_pages.
  assert (Hn : 0 <= pages_present size (h_page_size hdr) (h_page_count hdr) < Z.of_nat (S (length data))).
  { split; [unfold pages_present; lia|]. destruct (Z.lt_ge_cases 0
      (pages_present size (h_page_size hdr) (h_page_count hdr))) as [H|H]; [|lia].
    pose proof (pages_present_spec size (h_page_size hdr) (h_page_count hdr)
      (pages_present size (h_page_size hdr) (h_page_count hdr) - 1) Hps ltac:(lia)) as [[_ Hlt] _]; [lia|].
    unfold page_offset, kHeaderSize, size in *. nia. }
  rewrite pages_loop_at by (done || (subst size; lia)). fold size. rewrite Z.sub_0_r. done.
Qed.

(** What a span and a page satisfy. *)
Lemma page_avail_bounds size ps count i : 0 < ps -> 0 <= i < pages_present size ps count ->
  0 < page_avail size ps i <= ps /\ page_offset ps i + page_avail size ps i <= size.
Proof.
  intros Hps [Hi Hn]. apply pages_present_spec in Hn as [_ Hn]; [|done..]. unfold page_avail. lia.
Qed.

Lemma page_at_slots data ps i s : s ∈ slots (page_at data ps i) -> in_bounds s = true ->
  kPageHeaderSize <= rec_offset s /\ rec_offset s + rec_length s <= ps.
Proof.
  unfold page_at. case_bool; [by intros ?%elem_of_nil|]. cbn [slots].
  intros Hin Hb. change (map ?f ?l) with (f <$> l) in Hin.
  apply list_elem_of_fmap in Hin as (j & -> & _). unfold slot_at in *. cbn [in_bounds rec_offset rec_length] in *.
  reflect_bools. done.
Qed.

Lemma page_at_whole data ps i : bytes_ok data ->
  truncated (page_at data ps i) = false ->
  page_avail (Z.of_nat (length data)) ps i = ps /\
  Z.of_nat (length (slots (page_at data ps i))) = slot_count (page_at data ps i).
Proof.
  intros Hd. unfold page_at. case_bool; [done|]. cbn [truncated slots slot_count].
  intros [H1 H2]%orb_false_elim. reflect_bools.
  assert (Hc : 0 <= le_at (page_body data ps i) 2 2).
  { apply le_at_range. unfold page_body. auto with bw. }
  split; [unfold page_avail in *; lia|]. rewrite length_map, length_seq.
  unfold kPageHeaderSize, kSlotEntrySize in *. lia.
Qed.

(** ** Claims *)

(** [parse_header] on any buffer, strict or not: the checks in the order
    short buffer, magic, version, page size, checksum, each with its error code
    and offset; a checksum mismatch is an error only in strict mode; otherwise
    every field is the little-endian value at its documented offset, the page size
    lies in 64..8192 and is a multiple of 16, and the cursor ends at 32. *)
Theorem parse_header_functional (strict : bool) (data : bytes) :
  bytes_ok data ->
  parse_header strict (mk_reader data) = header_spec strict data /\
  forall hdr r, header_spec strict data = Ok (hdr, r) ->
    hdr = header_at data /\ r = Rdr data 32 /\
    64 <= h_page_size hdr <= 8192 /\ h_page_size hdr mod 16 = 0 /\
    (strict = true -> h_checksum_ok hdr = true).
Proof.
  intros Hd. split; [by apply parse_header_is_spec|]. intros hdr r. unfold header_spec.
  case_bool; [done|]. case_bool; [done|]. case_bool; [done|].
  destruct (page_size_bad (le_at data 6 2)) eqn:Ep; [done|].
  destruct (negb (h_checksum_ok (header_at data)) && strict) eqn:Ec; [done|].
  intros [= <- <-]. split; [done|]. split; [done|]. unfold page_size_bad in Ep.
  apply orb_false_elim in Ep as [[H1 H2]%orb_false_elim H3]. apply negb_false_iff in H3. reflect_bools.
  unfold kMinPageSize, kMaxPageSize, kPageSizeAlign in *. cbn [header_at h_page_size]. split; [lia|].
  split; [done|]. intros ->. rewrite andb_true_r in Ec. by apply negb_false_iff in Ec.
Qed.

Definition sample_header : bytes :=
  kMagic ++ [1; 0; 64; 0] ++ [2; 0; 0; 0] ++ [0; 0; 0; 0] ++ [1; 0; 0; 0] ++ [160; 0; 0; 0] ++
  [0; 0; 0; 0] ++ [0xAA; 0xBB; 0xCC; 0xDD].

Lemma parse_header_functional_witness :
  (exists hdr, parse_header false (mk_reader sample_header) = Ok (hdr, Rdr sample_header 32) /\
    h_page_size hdr = 64 /\ h_checksum_ok hdr = false) /\
  parse_header true (mk_reader sample_header) = Throw (parse_error kBadChecksum 28 "header CRC mismatch").
Proof.
  assert (Hok : bytes_ok sample_header) by (by apply (bool_decide_unpack _); vm_compute).
  split.
  - exists (header_at sample_header).
    rewrite (proj1 (parse_header_functional false sample_header Hok)).
    split; [|split]; vm_compute; reflexivity.
  - rewrite (proj1 (parse_header_functional true sample_header Hok)). vm_compute. reflexivity.
Defined.

(** C39. The page walk never fails and never leaves the buffer, whatever the page
    count and the contents: it yields exactly the declared pages that start before
    the end of the file; page [i] covers its clamped part of the file; its header
    fields and slots are the little-endian values there, as many slots as are
    declared and fit; an in-bounds slot lies inside the declared page; and a page
    not marked truncated is whole, with all its slots. *)
Theorem parse_pages_functional (data : bytes) (hdr : FileHeader) :
  bytes_ok data -> 0 < h_page_size hdr ->
  let size := Z.of_nat (length data) in
  let ps := h_page_size hdr in
  let n := pages_present size ps (h_page_count hdr) in
  parse_pages data hdr = Ok (map (span_at size ps) (seqZ 0 n), map (page_at data ps) (seqZ 0 n)) /\
  (forall i, 0 <= i -> (i < n <-> i < h_page_count hdr /\ page_offset ps i < size)) /\
  forall i, 0 <= i < n ->
    0 < sp_length (span_at size ps i) <= ps /\
    file_offset (span_at size ps i) + sp_length (span_at size ps i) <= size /\
    (forall s, s ∈ slots (page_at data ps i) -> in_bounds s = true ->
       kPageHeaderSize <= rec_offset s /\ rec_offset s + rec_length s <= ps) /\
    (truncated (page_at data ps i) = false ->
       sp_length (span_at size ps i) = ps /\
       Z.of_nat (length (slots (page_at data ps i))) = slot_count (page_at data ps i)).
Proof.
  intros Hd Hps size ps n. split; [by apply parse_pages_at|]. split.
  { intros i Hi. by apply pages_present_spec. }
  intros i Hi. destruct (page_avail_bounds size ps (h_page_count hdr) i Hps Hi) as [H1 H2].
  split; [done|]. split; [done|]. split.
  - intros s. apply page_at_slots.
  - by apply page_at_whole.
Qed.

Definition sample_store : bytes :=
  sample_header ++ [1; 0; 1; 0; 20; 0; 255; 255; 12; 0; 3; 0; 1; 3; 7] ++ replicate 49 0 ++ [2; 0; 0].

Lemma parse_pages_functional_witness :
  exists pages, parse_pages sample_store (header_at sample_store) =
    Ok ([MkSpan 32 64; MkSpan 96 3], pages) /\
  map slots pages = [[MkSlot 12 3 true]; []].
Proof.
  eexists. split.
  - refine (proj1 (parse_pages_functional sample_store (header_at sample_store) _ _)).
    + by apply (bool_decide_unpack _); vm_compute.
    + by vm_compute.
  - vm_compute. reflexivity.
Defined.
