(* ===== verification/MiniRecord.v ===== *)
(** * MiniRecord: the minidb string table and record decoder

    [src/minidb/strings.cpp] and [src/minidb/record.cpp]. A double is kept as its
    64-bit pattern. *)

From S2P Require Import Prelude Status ByteIO MiniPages.

Inductive FieldType :=
  | kNull | kBool | kInt | kUint | kFloat | kStringRef | kInlineString | kBlob.

#[export] Instance FieldType_eq_dec : EqDecision FieldType.
Proof. solve_decision. Defined.

Definition field_type_name (t : FieldType) : string :=
  match t with
  | kNull => "NULL" | kBool => "BOOL" | kInt => "INT" | kUint => "UINT" | kFloat => "FLOAT"
  | kStringRef => "STRING_REF" | kInlineString => "INLINE_STRING" | kBlob => "BLOB"
  end.

Record Field := MkField {
  fd_type : FieldType;
  fd_b : bool;
  fd_i64 : Z;
  fd_u64 : Z;
  fd_f64 : Z;
  fd_str : bytes;
  fd_ref_id : Z;
  fd_ref_resolved : bool;
  fd_blob : bytes;
}.

#[export] Instance Field_eq_dec : EqDecision Field.
Proof. solve_decision. Defined.

Abbreviation Record_ := (list Field).

(** A field with only the member its type selects set. *)
Definition null_field : Field := MkField kNull false 0 0 0 [] 0 false [].
Definition bool_field (b : bool) : Field := MkField kBool b 0 0 0 [] 0 false [].
Definition int_field (v : Z) : Field := MkField kInt false v 0 0 [] 0 false [].
Definition uint_field (v : Z) : Field := MkField kUint false 0 v 0 [] 0 false [].
Definition float_field (bits : Z) : Field := MkField kFloat false 0 0 bits [] 0 false [].
Definition ref_field (id : Z) (resolved : bool) (s : bytes) : Field :=
  MkField kStringRef false 0 0 0 s id resolved [].
Definition string_field (s : bytes) : Field := MkField kInlineString false 0 0 0 s 0 false [].
Definition blob_field (s : bytes) : Field := MkField kBlob false 0 0 0 [] 0 false s.

Definition read_lenprefixed : Rd bytes :=
  let! len := read_varint in require len ;! read_bytes len.

(** [string_table[id]] under the test [id < string_table.size()]. *)
Definition resolve (table : list bytes) (id : Z) : Rd Field :=
  if id <? Z.of_nat (length table)
  then fun r => let? s := at_idx table (Z.to_nat id) in Ok (ref_field id true s, r)
  else rd_ret (ref_field id false []).

Definition read_field (table : list bytes) : Rd Field :=
  let! field_off := get_offset in
  let! tag := read_u8 in
  match tag with
  | 0 => rd_ret null_field
  | 1 => let! b := read_u8 in rd_ret (bool_field (negb (b =? 0)))
  | 2 => let! v := read_svarint in rd_ret (int_field v)
  | 3 => let! v := read_varint in rd_ret (uint_field v)
  | 4 => let! bits := read_u64le in rd_ret (float_field bits)
  | 5 => let! id := read_varint in resolve table id
  | 6 => let! s := read_lenprefixed in rd_ret (string_field s)
  | 7 => let! s := read_lenprefixed in rd_ret (blob_field s)
  | _ => rd_throw (parse_error kBadType field_off "unknown minidb field type")
  end.

(** [for (fi = 0; fi < field_count; ++fi)]; a field takes at least its tag byte. *)
Fixpoint fields_loop (turns : nat) (table : list bytes) (field_count fi : Z) (acc : list Field)
    : Rd (list Field) :=
  match turns with
  | O => fun _ => NoFuel
  | S turns' =>
      if fi <? field_count
      then let! f := read_field table in fields_loop turns' table field_count (fi + 1) (acc ++ [f])
      else rd_ret acc
  end.

Definition decode_record (rec : bytes) (table : list bytes) : outcome Record_ :=
  let? (fs, _) := (let! field_count := read_varint in
                   fields_loop (S (length rec)) table field_count 0 []) (mk_reader rec) in
  Ok fs.

(** ** The string table *)

Definition read_entry : Rd bytes :=
  let! len := read_varint in require len ;! read_string len.

(** The loop inside the [try] block: an error ends it with what was pushed. *)
Fixpoint entries_loop (turns : nat) (entry_count i : Z) (acc : list bytes) (r : reader)
    : outcome (list bytes) :=
  match turns with
  | O => NoFuel
  | S turns' =>
      if i <? entry_count then
        match read_entry r with
        | Ok (s, r') => entries_loop turns' entry_count (i + 1) (acc ++ [s]) r'
        | Throw _ => Ok acc
        | UB => UB
        | NoFuel => NoFuel
        end
      else Ok acc
  end.

Definition read_table (body : bytes) : outcome (list bytes) :=
  match read_varint (mk_reader body) with
  | Ok (entry_count, r) => entries_loop (S (length body)) entry_count 0 [] r
  | Throw _ => Ok []
  | UB => UB
  | NoFuel => NoFuel
  end.

Definition parse_string_table (data : bytes) (hdr : FileHeader) (spans : list PageSpan)
    (pages : list Page) : outcome (list bytes) :=
  let id := h_string_table_page hdr in
  if id =? kNoStringTable then Ok []
  else if (Z.of_nat (length spans) <=? id) || (Z.of_nat (length pages) <=? id) then Ok []
  else
    let? page := at_idx pages (Z.to_nat id) in
    if negb (bool_decide (pg_type page = kStrings)) then Ok []
    else
      let? span := at_idx spans (Z.to_nat id) in
      if sp_length span <=? kPageHeaderSize then Ok []
      else
        let? body := copy_range data (Z.to_nat (file_offset span + kPageHeaderSize))
                       (Z.to_nat (sp_length span - kPageHeaderSize)) in
        read_table body.

(** ** Specification: the wire form of values *)

Inductive value :=
  | VNull | VBool (b : bool) | VInt (v : Z) | VUint (v : Z) | VFloat (bits : Z)
  | VRef (id : Z) | VString (s : bytes) | VBlob (s : bytes).

Definition value_ok (v : value) : Prop :=
  match v with
  | VNull | VBool _ => True
  | VInt v => is_i64 v
  | VUint v | VRef v | VFloat v => is_u64 v
  | VString s | VBlob s => bytes_ok s /\ is_u64 (Z.of_nat (length s))
  end.

Definition lenprefixed (s : bytes) : bytes := varint_bytes (Z.of_nat (length s)) ++ s.

Definition value_bytes (v : value) : bytes :=
  match v with
  | VNull => [0]
  | VBool b => [1; if b then 1 else 0]
  | VInt v => 2 :: put_svarint [] v
  | VUint v => 3 :: varint_bytes v
  | VFloat bits => 4 :: le_bytes 8 bits
  | VRef id => 5 :: varint_bytes id
  | VString s => 6 :: lenprefixed s
  | VBlob s => 7 :: lenprefixed s
  end.

Definition field_of (table : list bytes) (v : value) : Field :=
  match v with
  | VNull => null_field
  | VBool b => bool_field b
  | VInt v => int_field v
  | VUint v => uint_field v
  | VFloat bits => float_field bits
  | VRef id => match table !! Z.to_nat id with
               | Some s => ref_field id true s
               | None => ref_field id false []
               end
  | VString s => string_field s
  | VBlob s => blob_field s
  end.

Definition record_bytes (vs : list value) : bytes :=
  varint_bytes (Z.of_nat (length vs)) ++ concat (map value_bytes vs).

Lemma parses_lenprefixed s : bytes_ok s -> is_u64 (Z.of_nat (length s)) ->
  parses read_lenprefixed (lenprefixed s) s.
Proof.
  intros Hs Hl. eapply parses_bind; [by apply parses_varint|].
  apply parses_require; [lia|]. by apply parses_read_bytes.
Qed.

Lemma parses_field table v : value_ok v ->
  parses (read_field table) (value_bytes v) (field_of table v).
Proof.
  intros Hv. unfold read_field. apply parses_get_offset. intros o.
  destruct v as [|b|z|z|z|z|s|s]; cbn [value_bytes field_of value_ok] in *; apply parses_cons.
  - apply parses_ret.
  - apply parses_cons. destruct b; apply parses_ret.
  - eapply parses_bind_nil; [by apply parses_svarint|apply parses_ret].
  - eapply parses_bind_nil; [by apply parses_varint|apply parses_ret].
  - eapply parses_bind_nil; [by apply parses_u64le|apply parses_ret].
  - eapply parses_bind_nil; [by apply parses_varint|]. unfold resolve. unfold is_u64 in Hv.
    case_bool; reflect_bools.
    + destruct (at_idx_ok table (Z.to_nat z)) as (s & Hs & Hat); [lia|]. rewrite Hs.
      intros pre post _. rewrite Hat. cbn [obind]. by rewrite Nat.add_0_r.
    + rewrite lookup_ge_None_2 by lia. apply parses_ret.
  - destruct Hv. eapply parses_bind_nil; [by apply parses_lenprefixed|apply parses_ret].
  - destruct Hv. eapply parses_bind_nil; [by apply parses_lenprefixed|apply parses_ret].
Qed.

Lemma parses_fields turns table vs n i acc :
  Forall value_ok vs -> n = i + Z.of_nat (length vs) -> (length vs < turns)%nat ->
  parses (fields_loop turns table n i acc) (concat (map value_bytes vs)) (acc ++ map (field_of table) vs).
Proof.
  intros Hvs. revert turns i acc. induction Hvs as [|v vs Hv Hvs IH]; intros turns i acc Hn Ht;
    (destruct turns as [|turns]; [simpl in Ht; lia|]); cbn [fields_loop map concat length] in *.
  - rewrite (proj2 (Z.ltb_ge _ _)), app_nil_r by lia. apply parses_ret.
  - rewrite (proj2 (Z.ltb_lt _ _)) by lia. eapply parses_bind; [by apply parses_field|].
    replace (acc ++ field_of table v :: map (field_of table) vs)
      with ((acc ++ [field_of table v]) ++ map (field_of table) vs) by (by rewrite <- app_assoc).
    apply IH; lia.
Qed.

Lemma value_bytes_length v : (1 <= length (value_bytes v))%nat.
Proof. destruct v; simpl; lia. Qed.
Lemma values_length vs : (length vs <= length (concat (map value_bytes vs)))%nat.
Proof.
  induction vs as [|v vs IH]; [done|]. cbn [map concat length]. rewrite length_app.
  pose proof (value_bytes_length v). lia.
Qed.

(** *** Safety on arbitrary bytes *)

Definition field_ok (table : list bytes) (f : Field) : Prop :=
  is_i64 (fd_i64 f) /\ is_u64 (fd_u64 f) /\ is_u64 (fd_f64 f) /\ is_u64 (fd_ref_id f) /\
  bytes_ok (fd_blob f) /\
  match fd_type f with
  | kStringRef => table !! Z.to_nat (fd_ref_id f) = if fd_ref_resolved f then Some (fd_str f) else None
  | _ => bytes_ok (fd_str f)
  end.

Lemma triple_lenprefixed : triple 1 read_lenprefixed bytes_ok.
Proof.
  unfold read_lenprefixed. rd_first. rd_step. eapply triple_mono; [apply triple_bytes|lia|by intros ? [? _]].
  unfold is_u64 in *. lia.
Qed.
#[export] Hint Resolve triple_lenprefixed : rd.

Lemma plain_field_ok table b i u fl s bl t :
  t <> kStringRef -> is_i64 i -> is_u64 u -> is_u64 fl -> bytes_ok s -> bytes_ok bl ->
  field_ok table (MkField t b i u fl s 0 false bl).
Proof.
  intros Ht Hi Hu Hf Hs Hb. unfold field_ok. cbn. split_and!; try done. by destruct t.
Qed.

Lemma zero_i64 : is_i64 0.
Proof. unfold is_i64. lia. Qed.
Lemma zero_u64 : is_u64 0.
Proof. unfold is_u64. lia. Qed.
Lemma nil_bytes : bytes_ok [].
Proof. constructor. Qed.
#[local] Hint Resolve zero_i64 zero_u64 nil_bytes : core.

Lemma triple_resolve table id : is_u64 id -> triple 0 (resolve table id) (field_ok table).
Proof.
  intros Hid. unfold resolve. case_bool; reflect_bools.
  - intros r Hr. destruct (at_idx_ok table (Z.to_nat id)) as (s & Hs & ->); [unfold is_u64 in Hid; lia|].
    cbn [obind oholds]. split; [by split_and!; [apply Hr..|done|lia]|].
    unfold field_ok. cbn [ref_field fd_i64 fd_u64 fd_f64 fd_ref_id fd_blob fd_type fd_ref_resolved fd_str].
    auto 10.
  - apply triple_ret. unfold field_ok.
    cbn [ref_field fd_i64 fd_u64 fd_f64 fd_ref_id fd_blob fd_type fd_ref_resolved fd_str].
    rewrite lookup_ge_None_2 by lia. auto 10.
Qed.

Lemma triple_field table : triple 1 (read_field table) (field_ok table).
Proof.
  unfold read_field. eapply (triple_bind 0 1); [apply triple_get_offset|]. intros o _. rd_first.
  assert (Hret : forall A n (m : Rd A) (Q : A -> Prop) (g : A -> Field), triple n m Q ->
    (forall x, Q x -> field_ok table (g x)) ->
    triple 0 (let! x := m in rd_ret (g x)) (field_ok table)).
  { intros A n m Q g Hm Hg. eapply triple_step; [exact Hm|]. intros x Hx. by apply triple_ret, Hg. }
  assert (Hplain : forall b i u fl s bl t,
    t <> kStringRef -> is_i64 i -> is_u64 u -> is_u64 fl -> bytes_ok s -> bytes_ok bl ->
    field_ok table (MkField t b i u fl s 0 false bl)) by (intros; by apply plain_field_ok).
  repeat match goal with |- triple _ (match ?x with _ => _ end) _ => destruct x end;
    try apply triple_throw.
  all: first [ apply triple_ret, Hplain; by auto
    | eapply Hret; [solve [eauto with rd]|intros; apply Hplain; by auto]
    | eapply triple_step; [apply triple_varint|]; intros; by apply triple_resolve
    | idtac ].
Qed.

Lemma fields_loop_safe turns table n i acc r :
  rd_ok r -> (rd_left r < turns)%nat -> 0 <= i <= n -> Forall (field_ok table) acc ->
  Z.of_nat (length acc) = i ->
  oholds (fields_loop turns table n i acc r)
    (fun '(fs, _) => Forall (field_ok table) fs /\ Z.of_nat (length fs) = n).
Proof.
  revert i acc r. induction turns as [|turns IH]; intros i acc r Hr Ht Hi Hacc Hlen; [lia|].
  cbn [fields_loop]. case_bool; reflect_bools.
  - unfold rd_bind. eapply oholds_bind; [by apply triple_field|]. intros [f r'] [Hadv Hf].
    pose proof (advances_left 1 r r' Hr Hadv). apply IH; [apply Hadv|lia|lia| |].
    + apply Forall_app_2; [done|by constructor].
    + rewrite length_app. simpl. lia.
  - cbn. split; [done|lia].
Qed.

Lemma decode_record_safe rec table : bytes_ok rec ->
  oholds (decode_record rec table) (Forall (field_ok table)).
Proof.
  intros Hr. unfold decode_record. eapply oholds_bind with (P := fun '(fs, _) => Forall (field_ok table) fs).
  - unfold rd_bind. eapply oholds_bind; [apply triple_varint; by apply rd_ok_mk|].
    intros [n r'] [Hadv Hn]. eapply oholds_mono; [apply (fields_loop_safe _ table n 0 [])|].
    + apply Hadv.
    + pose proof (advances_left 1 _ _ (rd_ok_mk rec Hr) Hadv) as H. unfold rd_left at 2 in H. simpl in H. lia.
    + unfold is_u64 in Hn. lia.
    + constructor.
    + done.
    + intros [fs r''] [H _]. exact H.
  - intros [fs r'] H. exact H.
Qed.

Lemma triple_entry : triple 1 read_entry bytes_ok.
Proof. exact triple_lenprefixed. Qed.

Lemma entries_loop_safe turns n i acc r :
  rd_ok r -> (rd_left r < turns)%nat -> Forall bytes_ok acc ->
  ototal (entries_loop turns n i acc r) (fun es => exists k, es = acc ++ k /\ Forall bytes_ok es).
Proof.
  revert i acc r. induction turns as [|turns IH]; intros i acc r Hr Ht Hacc; [lia|].
  assert (Hstop : ototal (Ok acc) (fun es => exists k, es = acc ++ k /\ Forall bytes_ok es)).
  { exists []. by rewrite app_nil_r. }
  cbn [entries_loop]. case_bool; [|done]. pose proof (triple_entry r Hr) as H.
  destruct (read_entry r) as [[s r']|e| |]; [|done|destruct H..].
  destruct H as [Hadv Hs]. pose proof (advances_left 1 r r' Hr Hadv).
  eapply ototal_mono; [apply (IH (i + 1) (acc ++ [s]) r'); [apply Hadv|lia|]|].
  - apply Forall_app_2; [done|by constructor].
  - intros es (k & -> & Hes). exists ([s] ++ k). rewrite app_assoc. done.
Qed.

Lemma read_table_safe body : bytes_ok body -> ototal (read_table body) (Forall bytes_ok).
Proof.
  intros Hb. unfold read_table. pose proof (triple_varint (mk_reader body) (rd_ok_mk body Hb)) as H.
  destruct (read_varint _) as [[n r]|e| |]; [|constructor|destruct H..]. destruct H as [Hadv _].
  pose proof (advances_left 1 _ _ (rd_ok_mk body Hb) Hadv) as Hl. unfold rd_left at 2 in Hl. simpl in Hl.
  eapply ototal_mono; [apply entries_loop_safe; [apply Hadv|lia|constructor]|].
  by intros es (k & -> & H).
Qed.

(** Geometry the page walk guarantees. *)
Definition spans_ok (data : bytes) (spans : list PageSpan) : Prop :=
  Forall (fun s => 0 <= file_offset s /\ 0 < sp_length s /\
                   file_offset s + sp_length s <= Z.of_nat (length data)) spans.

Lemma parse_string_table_safe data hdr spans pages :
  bytes_ok data -> spans_ok data spans -> 0 <= h_string_table_page hdr ->
  ototal (parse_string_table data hdr spans pages) (Forall bytes_ok).
Proof.
  intros Hd Hsp Hid. unfold parse_string_table.
  assert (Hnil : ototal (Ok ([] : list bytes)) (Forall bytes_ok)) by constructor.
  case_bool; [done|]. case_bool; [done|]. apply orb_false_elim in E0 as [H1 H2]. reflect_bools.
  destruct (at_idx_ok pages (Z.to_nat (h_string_table_page hdr))) as (page & _ & ->); [lia|]. cbn [obind].
  case_bool; [done|].
  destruct (at_idx_ok spans (Z.to_nat (h_string_table_page hdr))) as (sp & Hsl & ->); [lia|]. cbn [obind].
  case_bool; [done|]. reflect_bools.
  unfold spans_ok in Hsp. rewrite Forall_lookup in Hsp. destruct (Hsp _ _ Hsl) as (Ho & Hl & Hle).
  unfold copy_range. unfold kPageHeaderSize in *. rewrite (proj2 (Nat.leb_le _ _)) by lia. cbn [obind].
  apply read_table_safe. auto with bw.
Qed.

(** The wire form of a table. *)
Lemma entries_loop_all turns es n i acc pre rest :
  Forall (fun s => bytes_ok s /\ is_u64 (Z.of_nat (length s))) es -> bytes_ok pre -> bytes_ok rest ->
  (length es < turns)%nat -> i + Z.of_nat (length es) = n \/ (i + Z.of_nat (length es) < n /\ rest = []) ->
  entries_loop turns n i acc (Rdr (pre ++ concat (map lenprefixed es) ++ rest) (length pre)) = Ok (acc ++ es).
Proof.
  intros Hes. revert turns i acc pre. induction Hes as [|s es [Hs Hsl] Hes IH]; intros turns i acc pre Hp Hr Ht Hn;
    (destruct turns as [|turns]; [simpl in Ht; lia|]); cbn [entries_loop map concat length app] in *.
  - rewrite app_nil_r. destruct Hn as [Hn|[Hn ->]].
    + by rewrite (proj2 (Z.ltb_ge _ _)) by lia.
    + rewrite (proj2 (Z.ltb_lt _ _)) by lia. rewrite app_nil_r.
      unfold read_entry, read_varint, rd_bind at 1 2, get_offset. cbn [obind varint_loop].
      unfold rd_bind at 1, read_u8, rd_bind at 1, require, rd_remaining, rd_size. cbn [rd_data rd_pos].
      rewrite (proj2 (Nat.leb_le _ _)), Nat.sub_diag by lia. done.
  - rewrite (proj2 (Z.ltb_lt _ _)) by lia. rewrite <- app_assoc.
    assert (Hcat : bytes_ok (concat (map lenprefixed es))).
    { clear -Hes. induction Hes as [|x l [Hx Hxl] Hl IH]; cbn [map concat]; [constructor|].
      apply bytes_ok_app. split; [|done]. apply bytes_ok_app. split; [by apply varint_bytes_ok|done]. }
    assert (Hlp : bytes_ok (lenprefixed s)).
    { apply bytes_ok_app. split; [by apply varint_bytes_ok|done]. }
    change read_entry with read_lenprefixed.
    rewrite (parses_lenprefixed s Hs Hsl pre) by (rewrite !bytes_ok_app; auto).
    replace (pre ++ lenprefixed s ++ concat (map lenprefixed es) ++ rest)
      with ((pre ++ lenprefixed s) ++ concat (map lenprefixed es) ++ rest) by (by rewrite <- app_assoc).
    rewrite <- length_app. rewrite IH; [by rewrite <- app_assoc| |done|lia|].
    + by apply bytes_ok_app.
    + destruct Hn as [?|[? ?]]; [left|right; split; [|done]]; lia.
Qed.

Lemma lenprefixed_length es : (length es <= length (concat (map lenprefixed es)))%nat.
Proof.
  induction es as [|s es IH]; [done|]. cbn [map concat length]. rewrite length_app.
  assert (1 <= length (lenprefixed s))%nat; [|lia]. unfold lenprefixed. rewrite length_app.
  assert (1 <= length (varint_bytes (Z.of_nat (length s))))%nat; [|lia].
  unfold varint_bytes, put_varint. generalize 9%nat. intros k. cbn [put_varint_loop].
  case_bool; [|simpl; lia]. rewrite put_varint_loop_app, length_app. simpl. lia.
Qed.

Lemma read_table_all n es rest :
  Forall (fun s => bytes_ok s /\ is_u64 (Z.of_nat (length s))) es -> bytes_ok rest -> is_u64 n ->
  n = Z.of_nat (length es) \/ (Z.of_nat (length es) < n /\ rest = []) ->
  read_table (varint_bytes n ++ concat (map lenprefixed es) ++ rest) = Ok es.
Proof.
  intros Hes Hr Hn64 Hn. unfold read_table, mk_reader.
  assert (Hcat : bytes_ok (concat (map lenprefixed es))).
  { clear -Hes. induction Hes as [|x l [Hx Hxl] Hl IH]; cbn [map concat]; [constructor|].
    apply bytes_ok_app. split; [|done]. apply bytes_ok_app. split; [by apply varint_bytes_ok|done]. }
  pose proof (parses_varint n Hn64 [] (concat (map lenprefixed es) ++ rest)) as Hp. cbn [app length] in Hp.
  rewrite Hp by (rewrite !bytes_ok_app; auto using varint_bytes_ok). cbn [Nat.add].
  rewrite (entries_loop_all _ es n 0 []); [done|done|by apply varint_bytes_ok|done| |].
  2: { destruct Hn as [?|[? ?]]; [left|right; split; [|done]]; lia. }
  rewrite !length_app. pose proof (lenprefixed_length es). lia.
Qed.

Lemma decode_record_spec table vs rest :
  Forall value_ok vs -> is_u64 (Z.of_nat (length vs)) -> bytes_ok (record_bytes vs ++ rest) ->
  decode_record (record_bytes vs ++ rest) table = Ok (map (field_of table) vs).
Proof.
  intros Hvs H64 Hb. unfold decode_record, record_bytes in *.
  set (n := Z.of_nat (length vs)) in *. rewrite <- app_assoc in *.
  pose proof (values_length vs) as Hvl.
  assert (Hp : parses (let! field_count := read_varint in
      fields_loop (S (length (varint_bytes n ++ concat (map value_bytes vs) ++ rest))) table field_count 0 [])
      (varint_bytes n ++ concat (map value_bytes vs)) (map (field_of table) vs)).
  { eapply parses_bind; [by apply parses_varint|].
    rewrite <- (app_nil_l (map (field_of table) vs)). apply parses_fields; [done|lia|].
    rewrite !length_app. lia. }
  specialize (Hp [] rest). cbn [app length Nat.add] in Hp. rewrite <- app_assoc in Hp.
  unfold mk_reader. rewrite Hp by done. done.
Qed.

(** ** Claims *)

(** C40. Records: decoding the wire form of any list of values, whatever follows
    it, gives exactly those fields, a reference carrying the text of its string
    table entry or staying unresolved; and decoding arbitrary bytes never reads
    outside them and always ends, with an error or with fields in range whose
    references agree with the table. *)
Theorem decode_record_correct (table : list bytes) (vs : list value) (rest rec : bytes) :
  Forall value_ok vs -> is_u64 (Z.of_nat (length vs)) -> bytes_ok (record_bytes vs ++ rest) -> bytes_ok rec ->
  decode_record (record_bytes vs ++ rest) table = Ok (map (field_of table) vs) /\
  oholds (decode_record rec table) (Forall (field_ok table)).
Proof. intros. split; [by apply decode_record_spec|by apply decode_record_safe]. Qed.

Definition sample_values : list value :=
  [VNull; VBool true; VInt (-7); VUint 300; VRef 1; VRef 9; VString [104; 105]; VBlob [0; 255]].

Lemma decode_record_correct_witness :
  decode_record (record_bytes sample_values ++ [9]) [[65]; [66; 67]] =
    Ok [null_field; bool_field true; int_field (-7); uint_field 300; ref_field 1 true [66; 67];
        ref_field 9 false []; string_field [104; 105]; blob_field [0; 255]] /\
  decode_record [1; 8] [] = Throw (parse_error kBadType 1 "unknown minidb field type").
Proof.
  split; [|vm_compute; reflexivity].
  refine (proj1 (decode_record_correct [[65]; [66; 67]] sample_values [9] [] _ _ _ _)).
  - repeat constructor; cbn; unfold is_i64, is_u64; try lia; by apply (bool_decide_unpack _); vm_compute.
  - unfold is_u64. cbn. lia.
  - by apply (bool_decide_unpack _); vm_compute.
  - constructor.
Defined.

(** The string table of a store: the body of the named page, when it is a
    strings page, written as a count and length-prefixed entries, reads back as
    exactly the entries present - all of them when the count is right, the whole
    prefix when the page ends before the declared count - and, on arbitrary bytes
    and any page reference, the stage never fails. *)
Theorem string_table_correct (data : bytes) (hdr : FileHeader) (pages : list Page) (spans : list PageSpan)
    (es : list bytes) (n : Z) (rest : bytes) :
  bytes_ok data -> spans_ok data spans -> 0 <= h_string_table_page hdr -> is_u64 n ->
  Forall (fun s => bytes_ok s /\ is_u64 (Z.of_nat (length s))) es -> bytes_ok rest ->
  n = Z.of_nat (length es) \/ (Z.of_nat (length es) < n /\ rest = []) ->
  ototal (parse_string_table data hdr spans pages) (Forall bytes_ok) /\
  forall page sp,
    h_string_table_page hdr <> kNoStringTable ->
    pages !! Z.to_nat (h_string_table_page hdr) = Some page -> pg_type page = kStrings ->
    spans !! Z.to_nat (h_string_table_page hdr) = Some sp -> kPageHeaderSize < sp_length sp ->
    take (Z.to_nat (sp_length sp - kPageHeaderSize))
      (drop (Z.to_nat (file_offset sp + kPageHeaderSize)) data) =
      varint_bytes n ++ concat (map lenprefixed es) ++ rest ->
    parse_string_table data hdr spans pages = Ok es.
Proof.
  intros Hd Hsp Hid Hn64 Hes Hrest Hn. split; [by apply parse_string_table_safe|].
  intros page sp Hno Hpage Htype Hspan Hlen Hbody. unfold parse_string_table.
  rewrite (proj2 (Z.eqb_neq _ _)) by done.
  pose proof (lookup_lt_Some _ _ _ Hpage). pose proof (lookup_lt_Some _ _ _ Hspan).
  rewrite (proj2 (Z.leb_gt _ (h_string_table_page hdr))) by lia.
  rewrite (proj2 (Z.leb_gt _ (h_string_table_page hdr))) by lia. cbn [orb].
  unfold at_idx. rewrite Hpage, Hspan. cbn [obind]. rewrite Htype, bool_decide_eq_true_2 by done. cbn [negb].
  rewrite (proj2 (Z.leb_gt _ _)) by done.
  unfold spans_ok in Hsp. rewrite Forall_lookup in Hsp. destruct (Hsp _ _ Hspan) as (Ho & Hl & Hle).
  unfold copy_range. unfold kPageHeaderSize in *. rewrite (proj2 (Nat.leb_le _ _)) by lia. cbn [obind].
  rewrite Hbody. by apply read_table_all.
Qed.

Definition sample_table_store : bytes :=
  replicate 32 0 ++ [2; 0; 0; 0; 0; 0; 255; 255] ++ [3; 2; 104; 105; 0; 1; 65].

Lemma string_table_correct_witness :
  parse_string_table sample_table_store (MkHeader 1 64 1 0 0 0 0 0 true) [MkSpan 32 15]
    [MkPage 0 kStrings 0 0 0 0xFFFF true []] = Ok [[104; 105]; []; [65]].
Proof.
  refine (proj2 (string_table_correct sample_table_store (MkHeader 1 64 1 0 0 0 0 0 true)
    [MkPage 0 kStrings 0 0 0 0xFFFF true []] [MkSpan 32 15] [[104; 105]; []; [65]] 3 []
    _ _ _ _ _ _ _) (MkPage 0 kStrings 0 0 0 0xFFFF true []) (MkSpan 32 15) _ _ _ _ _ _).
  - by apply (bool_decide_unpack _); vm_compute.
  - unfold spans_ok. constructor; [|constructor]. cbn. lia.
  - cbn. lia.
  - unfold is_u64. lia.
  - repeat constructor; cbn; unfold is_u64, is_byte; lia.
  - constructor.
  - by left.
  - discriminate.
  - reflexivity.
  - reflexivity.
  - reflexivity.
  - reflexivity.
  - vm_compute. reflexivity.
Defined.
