(* ===== verification/Journal.v ===== *)
(** * Journal: the minidb write-ahead log

    [src/minidb/journal.cpp]: the store seeded from the DATA pages, the replay of
    the journal entries with its staging buffer, and the decoding of what is
    committed. The specification decides which mutations survive by looking at the
    transaction markers around them, without a staging buffer. *)

From S2P Require Import Prelude Status ByteIO OrdMap MiniPages MiniRecord.

Abbreviation RecordKey := (Z * Z)%type.
Abbreviation RawStore := (gmap RecordKey bytes).

Inductive JournalOp := kBegin | kInsert | kUpdate | kDelete | kCommit | kRollback.

Definition journal_op_of (b : Z) : option JournalOp :=
  match b with
  | 1 => Some kBegin | 2 => Some kInsert | 3 => Some kUpdate
  | 4 => Some kDelete | 5 => Some kCommit | 6 => Some kRollback
  | _ => None
  end.

Definition journal_op_name (op : option JournalOp) : string :=
  match op with
  | Some kBegin => "BEGIN" | Some kInsert => "INSERT" | Some kUpdate => "UPDATE"
  | Some kDelete => "DELETE" | Some kCommit => "COMMIT" | Some kRollback => "ROLLBACK"
  | None => "UNKNOWN"
  end.

Record StagedOp := MkStaged { op_key : RecordKey; tombstone : bool; op_bytes : bytes }.

Definition read_key : Rd RecordKey :=
  let! page := read_u32le in let! slot := read_u16le in rd_ret (page, slot).

(** ** Seeding from the pages *)

(** The slots of one page from index [s] on. *)
Fixpoint seed_slots (data : bytes) (page_index base : Z) (s : Z) (l : list Slot) (store : RawStore)
    : outcome RawStore :=
  match l with
  | [] => Ok store
  | slot :: l' =>
      let skip := seed_slots data page_index base (s + 1) l' store in
      if negb (in_bounds slot) || (rec_length slot =? 0) then skip
      else
        let size := Z.of_nat (length data) in
        let abs := base + rec_offset slot in
        let e := abs + rec_length slot in
        if (size <=? abs) || (size <? e) || (e <? abs) then skip
        else
          let? b := copy_range data (Z.to_nat abs) (Z.to_nat (rec_length slot)) in
          seed_slots data page_index base (s + 1) l' (<[(page_index, s) := b]> store)
  end.

Fixpoint seed_from_pages (data : bytes) (spans : list PageSpan) (pages : list Page) (store : RawStore)
    : outcome RawStore :=
  match pages with
  | [] => Ok store
  | page :: pages' =>
      if negb (bool_decide (pg_type page = kData)) then seed_from_pages data spans pages' store
      else if Z.of_nat (length spans) <=? pg_index page then seed_from_pages data spans pages' store
      else
        let? span := at_idx spans (Z.to_nat (pg_index page)) in
        let? store := seed_slots data (pg_index page) (file_offset span) 0 (slots page) store in
        seed_from_pages data spans pages' store
  end.

(** ** Replay *)

Record jstate := MkJ {
  committed : RawStore;
  in_txn : bool;
  staged : list StagedOp;
  committed_ops : Z;
  rolled_back_ops : Z;
}.

Definition apply_committed (store : RawStore) (op : StagedOp) : RawStore :=
  if tombstone op then delete (op_key op) store else <[op_key op := op_bytes op]> store.

Definition count32 (n : Z) : Z := u32 (n + 1).

Definition route (st : jstate) (op : StagedOp) : jstate :=
  if in_txn st
  then MkJ (committed st) true (staged st ++ [op]) (committed_ops st) (rolled_back_ops st)
  else MkJ (apply_committed (committed st) op) false (staged st) (count32 (committed_ops st))
         (rolled_back_ops st).

Definition commit_all (st : jstate) : jstate :=
  if in_txn st
  then MkJ (foldl apply_committed (committed st) (staged st)) false []
         (foldl (fun n _ => count32 n) (committed_ops st) (staged st)) (rolled_back_ops st)
  else st.

Definition roll_back (st : jstate) : jstate :=
  if in_txn st
  then MkJ (committed st) false [] (committed_ops st)
         (u32 (rolled_back_ops st + u32 (Z.of_nat (length (staged st)))))
  else st.

(** The body of [while (!stop && !r.eof())]; an entry takes at least its op byte. *)
Fixpoint replay_loop (turns : nat) (st : jstate) : Rd jstate :=
  match turns with
  | O => fun _ => NoFuel
  | S turns' =>
      let! done := get_eof in
      if (done : bool) then rd_ret st
      else
        let! op_byte := read_u8 in
        match journal_op_of op_byte with
        | Some kBegin =>
            replay_loop turns' (MkJ (committed st) true [] (committed_ops st) (rolled_back_ops st))
        | Some kInsert | Some kUpdate =>
            let! key := read_key in
            let! rec_len := read_varint in
            require rec_len ;!
            let! b := read_bytes rec_len in
            replay_loop turns' (route st (MkStaged key false b))
        | Some kDelete =>
            let! key := read_key in
            replay_loop turns' (route st (MkStaged key true []))
        | Some kCommit => replay_loop turns' (commit_all st)
        | Some kRollback => replay_loop turns' (roll_back st)
        | None => rd_ret st
        end
  end.

(** The journal part of [replay_journal], from the seeded store. *)
Definition replay_entries (data : bytes) (journal_offset : Z) (store : RawStore) : outcome jstate :=
  let size := Z.of_nat (length data) in
  let st := MkJ store false [] 0 0 in
  let? st := (if negb (journal_offset =? 0) && (journal_offset <? size) then
                let? body := copy_range data (Z.to_nat journal_offset) (Z.to_nat (size - journal_offset)) in
                let? (st, _) := replay_loop (S (length body)) st (mk_reader body) in
                Ok st
              else Ok st) in
  Ok (if in_txn st
      then MkJ (committed st) true [] (committed_ops st)
             (u32 (rolled_back_ops st + u32 (Z.of_nat (length (staged st)))))
      else st).

(** Decoding the settled store, in key order. *)
Fixpoint decode_all (l : list (RecordKey * bytes)) (table : list bytes) (records : gmap RecordKey Record_)
    : outcome (gmap RecordKey Record_) :=
  match l with
  | [] => Ok records
  | (k, b) :: l' =>
      let? rec := decode_record b table in
      decode_all l' table (match records !! k with Some _ => records | None => <[k := rec]> records end)
  end.

Record replayed := MkReplayed {
  rp_has_journal : bool;
  rp_committed_ops : Z;
  rp_rolled_back_ops : Z;
  rp_records : gmap RecordKey Record_;
}.

Definition replay_journal (data : bytes) (hdr : FileHeader) (spans : list PageSpan) (pages : list Page)
    (table : list bytes) : outcome replayed :=
  let? store := seed_from_pages data spans pages ∅ in
  let? st := replay_entries data (h_journal_offset hdr) store in
  let? records := decode_all (entries (committed st)) table ∅ in
  Ok (MkReplayed (negb (h_journal_offset hdr =? 0)) (committed_ops st) (rolled_back_ops st) records).

(** ** Specification *)

Inductive entry :=
  | EBegin | ECommit | ERollback
  | EPut (update : bool) (k : RecordKey) (b : bytes)
  | EDel (k : RecordKey).

#[export] Instance entry_eq_dec : EqDecision entry.
Proof. solve_decision. Defined.

Definition key_ok (k : RecordKey) : Prop := is_u32 k.1 /\ is_u16 k.2.
Definition entry_ok (e : entry) : Prop :=
  match e with
  | EPut _ k b => key_ok k /\ bytes_ok b /\ is_u64 (Z.of_nat (length b))
  | EDel k => key_ok k
  | _ => True
  end.

Definition key_bytes (k : RecordKey) : bytes := le_bytes 4 k.1 ++ le_bytes 2 k.2.
Definition entry_bytes (e : entry) : bytes :=
  match e with
  | EBegin => [1] | ECommit => [5] | ERollback => [6]
  | EPut u k b => (if u then 3 else 2) :: key_bytes k ++ lenprefixed b
  | EDel k => 4 :: key_bytes k
  end.

Inductive marker := MBegin | MCommit | MRollback.
#[export] Instance marker_eq_dec : EqDecision marker.
Proof. solve_decision. Defined.

Definition marker_of (e : entry) : option marker :=
  match e with EBegin => Some MBegin | ECommit => Some MCommit | ERollback => Some MRollback | _ => None end.

(** A mutation: new bytes under a key, or its removal. *)
Definition mutation_of (e : entry) : option (RecordKey * option bytes) :=
  match e with EPut _ k b => Some (k, Some b) | EDel k => Some (k, None) | _ => None end.

Definition apply_mutation (store : RawStore) (m : RecordKey * option bytes) : RawStore :=
  match m.2 with Some b => <[m.1 := b]> store | None => delete m.1 store end.

(** The first marker of a journal. *)
Fixpoint next_marker (es : list entry) : option marker :=
  match es with
  | [] => None
  | e :: es' => match marker_of e with Some m => Some m | None => next_marker es' end
  end.

(** The mutations that survive: those outside any transaction, and those inside one
    whose next marker is COMMIT. [open] says the last marker before was BEGIN. *)
Fixpoint survivors (open : bool) (es : list entry) : list (RecordKey * option bytes) :=
  match es with
  | [] => []
  | e :: es' =>
      match mutation_of e with
      | Some m =>
          (if negb open || bool_decide (next_marker es' = Some MCommit) then [m] else []) ++
          survivors open es'
      | None => survivors (bool_decide (marker_of e = Some MBegin)) es'
      end
  end.

(** Mutations rolled back: in a transaction ended by ROLLBACK or by the end of the
    journal. (Those dropped by a second BEGIN are not counted.) *)
Fixpoint rolled_back (open : bool) (es : list entry) : Z :=
  match es with
  | [] => 0
  | e :: es' =>
      match mutation_of e with
      | Some _ =>
          (if open && bool_decide (next_marker es' <> Some MCommit /\ next_marker es' <> Some MBegin)
           then 1 else 0) + rolled_back open es'
      | None => rolled_back (bool_decide (marker_of e = Some MBegin)) es'
      end
  end.

(** ** Replaying an encoded journal *)

Definition staged_of (k : RecordKey) (b : option bytes) : StagedOp :=
  match b with Some b => MkStaged k false b | None => MkStaged k true [] end.

Definition step_entry (st : jstate) (e : entry) : jstate :=
  match e with
  | EBegin => MkJ (committed st) true [] (committed_ops st) (rolled_back_ops st)
  | ECommit => commit_all st
  | ERollback => roll_back st
  | EPut _ k b => route st (MkStaged k false b)
  | EDel k => route st (MkStaged k true [])
  end.

Lemma parses_key k : key_ok k -> parses read_key (key_bytes k) k.
Proof.
  intros [H1 H2]. destruct k as [p s]. unfold read_key, key_bytes. cbn [fst snd] in *.
  eapply parses_bind; [by apply parses_u32le|]. eapply parses_bind_nil; [by apply parses_u16le|].
  apply parses_ret.
Qed.

Lemma le_bytes_key_ok k : bytes_ok (key_bytes k).
Proof. unfold key_bytes. apply bytes_ok_app. split; apply le_bytes_ok. Qed.

Lemma lenprefixed_ok b : bytes_ok b -> is_u64 (Z.of_nat (length b)) -> bytes_ok (lenprefixed b).
Proof. intros. apply bytes_ok_app. split; [by apply varint_bytes_ok|done]. Qed.

Lemma entry_bytes_ok e : entry_ok e -> bytes_ok (entry_bytes e).
Proof.
  destruct e as [| | |u k b|k]; cbn [entry_ok entry_bytes]; intros H;
    [by apply (bool_decide_unpack _); vm_compute..| |].
  - destruct H as (Hk & Hb & Hl). constructor; [unfold is_byte; destruct u; lia|].
    apply bytes_ok_app. split; [apply le_bytes_key_ok|by apply lenprefixed_ok].
  - constructor; [unfold is_byte; lia|apply le_bytes_key_ok].
Qed.

(** What stops the replay: the end of the file, or an unknown op byte. *)
Definition stops (tail : bytes) : Prop :=
  match tail with [] => True | b :: _ => journal_op_of b = None end.

Definition read_put : Rd (RecordKey * bytes) :=
  let! key := read_key in let! b := read_lenprefixed in rd_ret (key, b).

Lemma parses_put k b : key_ok k -> bytes_ok b -> is_u64 (Z.of_nat (length b)) ->
  parses read_put (key_bytes k ++ lenprefixed b) (k, b).
Proof.
  intros Hk Hb Hl. eapply parses_bind; [by apply parses_key|].
  eapply parses_bind_nil; [by apply parses_lenprefixed|apply parses_ret].
Qed.

Lemma replay_put_fold turns st r :
  (let! key := read_key in let! rec_len := read_varint in require rec_len ;!
    let! b := read_bytes rec_len in replay_loop turns (route st (MkStaged key false b))) r =
  (let! kb := read_put in replay_loop turns (route st (MkStaged kb.1 false kb.2))) r.
Proof.
  unfold read_put, read_lenprefixed, rd_bind, rd_ret. destruct (read_key r) as [[k r1]|e| |]; try done.
  cbn [obind]. destruct (read_varint r1) as [[n r2]|e| |]; try done. cbn [obind].
  destruct (require n r2) as [[[] r3]|e| |]; try done. cbn [obind].
  by destruct (read_bytes n r3) as [[s r4]|e| |].
Qed.

Lemma replay_at turns st pre b rest :
  replay_loop (S turns) st (Rdr (pre ++ b :: rest) (length pre)) =
  (let here := Rdr (pre ++ b :: rest) (length (pre ++ [b])) in
   match journal_op_of b with
   | Some kBegin =>
       replay_loop turns (MkJ (committed st) true [] (committed_ops st) (rolled_back_ops st)) here
   | Some kInsert | Some kUpdate =>
       (let! kb := read_put in replay_loop turns (route st (MkStaged kb.1 false kb.2))) here
   | Some kDelete =>
       (let! key := read_key in replay_loop turns (route st (MkStaged key true []))) here
   | Some kCommit => replay_loop turns (commit_all st) here
   | Some kRollback => replay_loop turns (roll_back st) here
   | None => Ok (st, here)
   end).
Proof.
  cbn [replay_loop]. unfold rd_bind at 1, get_eof, rd_eof, rd_size. cbn [rd_data rd_pos obind].
  rewrite (proj2 (Nat.leb_gt _ _)) by (rewrite length_app; simpl; lia).
  assert (Hu : read_u8 (Rdr (pre ++ b :: rest) (length pre)) =
    Ok (b, Rdr (pre ++ b :: rest) (length (pre ++ [b])))).
  { unfold read_u8, rd_bind, require, rd_remaining, rd_size, rd_at, at_idx, rd_advance.
    cbn [rd_data rd_pos]. rewrite length_app, (proj2 (Nat.leb_le _ _)), (proj2 (Z.ltb_ge _ _)) by (simpl; lia).
    cbn [obind rd_data rd_pos]. rewrite Nat.add_0_r, lookup_app_mid. cbn [obind].
    by rewrite length_app. }
  unfold rd_bind at 1. rewrite Hu. cbn [obind].
  destruct (journal_op_of b) as [[]|]; try done; apply replay_put_fold.
Qed.

Lemma replay_loop_entries turns es st pre tail :
  Forall entry_ok es -> bytes_ok pre -> bytes_ok tail -> stops tail -> (length es < turns)%nat ->
  exists r, replay_loop turns st (Rdr (pre ++ concat (map entry_bytes es) ++ tail) (length pre)) =
    Ok (foldl step_entry st es, r).
Proof.
  intros Hes. revert turns st pre. induction Hes as [|e es He Hes IH]; intros turns st pre Hp Htl Hst Ht;
    (destruct turns as [|turns]; [simpl in Ht; lia|]).
  { cbn [map concat app foldl]. destruct tail as [|b tail].
    - rewrite app_nil_r. eexists. cbn [replay_loop]. unfold rd_bind at 1, get_eof, rd_eof, rd_size.
      cbn [rd_data rd_pos obind]. by rewrite (proj2 (Nat.leb_le _ _)) by done.
    - eexists. rewrite replay_at. cbv zeta. unfold stops in Hst. by rewrite Hst. }
  cbn [map concat foldl length] in *. rewrite <- app_assoc.
  assert (Hcat : bytes_ok (concat (map entry_bytes es))).
  { clear -Hes. induction Hes as [|x l Hx Hl IH]; cbn [map concat]; [constructor|].
    apply bytes_ok_app. split; [by apply entry_bytes_ok|done]. }
  set (rest := concat (map entry_bytes es) ++ tail) in *.
  assert (Hrest : bytes_ok rest) by (by apply bytes_ok_app).
  assert (Hnext : forall st', exists r,
    replay_loop turns st' (Rdr (pre ++ entry_bytes e ++ rest) (length (pre ++ entry_bytes e))) =
    Ok (foldl step_entry st' es, r)).
  { intros st'. rewrite app_assoc. apply IH; [|done|done|lia].
    apply bytes_ok_app. split; [done|by apply entry_bytes_ok]. }
  assert (Hb : bytes_ok (pre ++ entry_bytes e ++ rest)).
  { rewrite !bytes_ok_app. split; [done|]. split; [by apply entry_bytes_ok|done]. }
  assert (Hmove : forall A (m : Rd A) b bs v (f : A -> Rd jstate), entry_bytes e = b :: bs -> parses m bs v ->
    rd_bind m f (Rdr (pre ++ b :: bs ++ rest) (length (pre ++ [b]))) =
    f v (Rdr (pre ++ entry_bytes e ++ rest) (length (pre ++ entry_bytes e)))).
  { intros A m b bs v f Heb Hm. rewrite Heb in *. unfold rd_bind. specialize (Hm (pre ++ [b]) rest).
    rewrite <- !app_assoc in Hm. cbn [app] in *. rewrite Hm by done. cbn [obind].
    do 2 f_equal. rewrite !length_app. simpl. lia. }
  destruct e as [| | |u k b|k]; cbn [entry_bytes entry_ok] in *.
  - cbn [app]. rewrite replay_at. apply Hnext.
  - cbn [app]. rewrite replay_at. apply Hnext.
  - cbn [app]. rewrite replay_at. apply Hnext.
  - destruct He as (Hk & Hbb & Hbl). rewrite <- app_comm_cons in *. rewrite replay_at. cbv zeta.
    replace (match journal_op_of (if u then 3 else 2) with Some kBegin => _ | _ => _ end)
      with ((let! kb := read_put in replay_loop turns (route st (MkStaged kb.1 false kb.2)))
        (Rdr (pre ++ (if u then 3 else 2) :: (key_bytes k ++ lenprefixed b) ++ rest)
          (length (pre ++ [if u then 3 else 2])))) by (by destruct u).
    rewrite (Hmove _ read_put (if u then 3 else 2) (key_bytes k ++ lenprefixed b) (k, b) _ eq_refl
      (parses_put k b Hk Hbb Hbl)). apply Hnext.
  - rewrite <- app_comm_cons in *. rewrite replay_at. cbv zeta. cbn [journal_op_of].
    rewrite (Hmove _ read_key 4 (key_bytes k) k _ eq_refl (parses_key k He)). apply Hnext.
Qed.

(** ** What survives *)

Definition txn_clean (st : jstate) : Prop := in_txn st = false -> staged st = [].

Definition staged_mutation (op : StagedOp) : RecordKey * option bytes :=
  (op_key op, if tombstone op then None else Some (op_bytes op)).

(** The end of the replay: an open transaction is rolled back. *)
Definition finish (st : jstate) : jstate :=
  if in_txn st
  then MkJ (committed st) true [] (committed_ops st)
         (u32 (rolled_back_ops st + u32 (Z.of_nat (length (staged st)))))
  else st.

Lemma apply_staged store op : apply_committed store op = apply_mutation store (staged_mutation op).
Proof. unfold apply_committed, apply_mutation, staged_mutation. by destruct (tombstone op). Qed.

Lemma apply_staged_all l store :
  foldl apply_committed store l = foldl apply_mutation store (map staged_mutation l).
Proof.
  revert store. induction l as [|op l IH]; intros store; [done|]. cbn [foldl map].
  by rewrite apply_staged, IH.
Qed.

Lemma u32_idem a : u32 (u32 a) = u32 a.
Proof. unfold u32. by rewrite Z.mod_mod. Qed.
Lemma u32_add_l a b : u32 (u32 a + b) = u32 (a + b).
Proof. unfold u32. by rewrite Zplus_mod_idemp_l. Qed.
Lemma u32_add_r a b : u32 (a + u32 b) = u32 (a + b).
Proof. unfold u32. by rewrite Zplus_mod_idemp_r. Qed.

Lemma count32_all {A} (l : list A) c :
  u32 (foldl (fun n _ => count32 n) c l) = u32 (c + Z.of_nat (length l)).
Proof.
  revert c. induction l as [|x l IH]; intros c; cbn [foldl length].
  - f_equal. lia.
  - rewrite IH. unfold count32. rewrite u32_add_l. f_equal. lia.
Qed.

(** The fate of what is already staged when the entries [es] follow. *)
Definition pending (st : jstate) (es : list entry) : list (RecordKey * option bytes) :=
  if in_txn st && bool_decide (next_marker es = Some MCommit) then map staged_mutation (staged st) else [].
Definition dropping (st : jstate) (es : list entry) : Z :=
  if in_txn st && bool_decide (next_marker es <> Some MCommit /\ next_marker es <> Some MBegin)
  then Z.of_nat (length (staged st)) else 0.

Lemma route_fate st op es : txn_clean st ->
  let m := staged_mutation op in
  let st1 := route st op in
  let now := if negb (in_txn st) || bool_decide (next_marker es = Some MCommit) then [m] else [] in
  in_txn st1 = in_txn st /\ txn_clean st1 /\
  foldl apply_mutation (committed st1) (pending st1 es) =
    foldl apply_mutation (committed st) (pending st es ++ now) /\
  u32 (committed_ops st1 + Z.of_nat (length (pending st1 es))) =
    u32 (committed_ops st + Z.of_nat (length (pending st es ++ now))) /\
  rolled_back_ops st1 = rolled_back_ops st /\
  dropping st1 es = dropping st es +
    (if in_txn st && bool_decide (next_marker es <> Some MCommit /\ next_marker es <> Some MBegin) then 1 else 0).
Proof.
  intros Hc. unfold route, pending, dropping, txn_clean in *.
  destruct (in_txn st) eqn:Et; cbn [in_txn staged committed committed_ops rolled_back_ops andb orb negb].
  - split; [done|]. split; [done|]. rewrite map_app, !length_app. cbn [map length].
    repeat case_bool; cbn [app foldl length]; rewrite ?length_app, ?app_nil_r; cbn [length];
      (split; [done|]); (split; [f_equal; lia|]); (split; [done|]); lia.
  - split; [done|]. split; [done|]. cbn [app foldl length]. rewrite apply_staged. split; [done|].
    unfold count32. rewrite u32_add_l. split; [f_equal; lia|]. done.
Qed.

(** One mutation, given what the rest of the journal does. *)
Lemma foldl_entries_step st st1 es now one : in_txn st1 = in_txn st -> txn_clean st1 ->
  foldl apply_mutation (committed st1) (pending st1 es) =
    foldl apply_mutation (committed st) (pending st es ++ now) ->
  u32 (committed_ops st1 + Z.of_nat (length (pending st1 es))) =
    u32 (committed_ops st + Z.of_nat (length (pending st es ++ now))) ->
  rolled_back_ops st1 = rolled_back_ops st -> dropping st1 es = dropping st es + one ->
  (let st' := finish (foldl step_entry st1 es) in
   let applied := pending st1 es ++ survivors (in_txn st1) es in
   committed st' = foldl apply_mutation (committed st1) applied /\
   u32 (committed_ops st') = u32 (committed_ops st1 + Z.of_nat (length applied)) /\
   u32 (rolled_back_ops st') = u32 (rolled_back_ops st1 + (dropping st1 es + rolled_back (in_txn st1) es))) ->
  let st' := finish (foldl step_entry st1 es) in
  let applied := pending st es ++ (now ++ survivors (in_txn st) es) in
  committed st' = foldl apply_mutation (committed st) applied /\
  u32 (committed_ops st') = u32 (committed_ops st + Z.of_nat (length applied)) /\
  u32 (rolled_back_ops st') =
    u32 (rolled_back_ops st + (dropping st es + (one + rolled_back (in_txn st) es))).
Proof.
  intros Ein Hc1 H1 H2 H3 H4. cbv zeta. rewrite Ein, H3, H4. intros (-> & -> & ->).
  split; [by rewrite app_assoc, !foldl_app, H1, foldl_app|]. split; [|f_equal; lia].
  rewrite app_assoc, (length_app (pending st es ++ now)), (length_app (pending st1 es)), !Nat2Z.inj_add, !Z.add_assoc.
  by rewrite <- u32_add_l, H2, u32_add_l.
Qed.

(** What the entries [es] make of a state. *)
Definition replays (st : jstate) (es : list entry) : Prop :=
  let st' := finish (foldl step_entry st es) in
  let applied := pending st es ++ survivors (in_txn st) es in
  committed st' = foldl apply_mutation (committed st) applied /\
  u32 (committed_ops st') = u32 (committed_ops st + Z.of_nat (length applied)) /\
  u32 (rolled_back_ops st') = u32 (rolled_back_ops st + (dropping st es + rolled_back (in_txn st) es)).

Lemma replays_nil st : replays st [].
Proof.
  unfold replays. cbn [foldl survivors rolled_back next_marker]. unfold finish, pending, dropping. cbn [next_marker].
  rewrite bool_decide_false, bool_decide_true, andb_false_r, andb_true_r by (try split; discriminate).
  cbn [app foldl length]. destruct (in_txn st); cbn [committed committed_ops rolled_back_ops].
  - split; [done|]. split; [f_equal; lia|]. rewrite u32_idem, u32_add_r. f_equal. lia.
  - split; [done|]. split; f_equal; lia.
Qed.

Lemma replays_begin st es : replays (step_entry st EBegin) es -> replays st (EBegin :: es).
Proof.
  intros (H1 & H2 & H3). unfold replays. cbn [foldl step_entry survivors rolled_back mutation_of marker_of next_marker] in *.
  cbn [committed in_txn staged committed_ops rolled_back_ops] in *. rewrite H1, H2, H3.
  unfold pending, dropping. cbn [in_txn staged map length next_marker marker_of].
  rewrite (bool_decide_eq_true_2 (Some MBegin = Some MBegin)) by done.
  rewrite !(bool_decide_eq_false_2 (Some MBegin = Some MCommit)) by done.
  rewrite (bool_decide_eq_false_2 (Some MBegin <> Some MCommit /\ Some MBegin <> Some MBegin)) by naive_solver.
  rewrite !andb_false_r. repeat case_match; cbn [app]; done.
Qed.

Lemma replays_commit st es : replays (step_entry st ECommit) es -> replays st (ECommit :: es).
Proof.
  intros (H1 & H2 & H3). unfold replays. cbn [foldl step_entry survivors rolled_back mutation_of marker_of next_marker] in *.
  unfold commit_all in *. destruct (in_txn st) eqn:Et.
  - cbn [committed in_txn staged committed_ops rolled_back_ops] in *. rewrite H1, H2, H3. clear H1 H2 H3.
    unfold pending, dropping. cbn [in_txn staged next_marker marker_of andb app]. rewrite Et.
    rewrite (bool_decide_eq_false_2 (Some MCommit = Some MBegin)) by done.
    rewrite !(bool_decide_eq_true_2 (Some MCommit = Some MCommit)) by done. cbn [andb].
    rewrite (bool_decide_eq_false_2 (Some MCommit <> Some MCommit /\ _)) by naive_solver. split; [|split].
    + by rewrite apply_staged_all, foldl_app.
    + rewrite <- u32_add_l, count32_all, u32_add_l, length_app, length_map. f_equal. lia.
    + done.
  - rewrite Et in *. unfold pending, dropping in *. rewrite Et in *.
    cbn [andb] in *. rewrite (bool_decide_eq_false_2 (Some MCommit = Some MBegin)) by done. auto.
Qed.

Lemma replays_rollback st es : replays (step_entry st ERollback) es -> replays st (ERollback :: es).
Proof.
  intros (H1 & H2 & H3). unfold replays. cbn [foldl step_entry survivors rolled_back mutation_of marker_of next_marker] in *.
  unfold roll_back in *. destruct (in_txn st) eqn:Et.
  - cbn [committed in_txn staged committed_ops rolled_back_ops] in *. rewrite H1, H2, H3. clear H1 H2 H3.
    unfold pending, dropping. cbn [in_txn staged next_marker marker_of andb app]. rewrite Et.
    rewrite !(bool_decide_eq_false_2 (Some MRollback = Some MBegin)) by done.
    rewrite (bool_decide_eq_false_2 (Some MRollback = Some MCommit)) by done.
    rewrite (bool_decide_eq_true_2 (Some MRollback <> Some MCommit /\ _)) by done.
    cbn [andb app]. split; [done|]. split; [done|]. rewrite u32_add_l, <- Z.add_assoc.
    rewrite (Z.add_comm (u32 _)), Z.add_assoc, u32_add_r. f_equal. lia.
  - rewrite Et in *. unfold pending, dropping in *. rewrite Et in *.
    cbn [andb] in *. rewrite (bool_decide_eq_false_2 (Some MRollback = Some MBegin)) by done. auto.
Qed.

Lemma foldl_entries es st : txn_clean st -> replays st es.
Proof.
  revert st. induction es as [|e es IH]; intros st Hc; [apply replays_nil|].
  destruct e as [| | |u k b|k].
  - by apply replays_begin, IH.
  - apply replays_commit, IH. cbn [step_entry]. unfold commit_all. by destruct (in_txn st) eqn:Et.
  - apply replays_rollback, IH. cbn [step_entry]. unfold roll_back. by destruct (in_txn st) eqn:Et.
  - destruct (route_fate st (MkStaged k false b) es Hc) as (Ein & Hc1 & H1 & H2 & H3 & H4).
    by apply (foldl_entries_step st _ es _ _ Ein Hc1 H1 H2 H3 H4 (IH _ Hc1)).
  - destruct (route_fate st (MkStaged k true []) es Hc) as (Ein & Hc1 & H1 & H2 & H3 & H4).
    by apply (foldl_entries_step st _ es _ _ Ein Hc1 H1 H2 H3 H4 (IH _ Hc1)).
Qed.

Lemma foldl_inv {A B} (P : A -> Prop) (f : A -> B -> A) l a :
  (forall a b, P a -> P (f a b)) -> P a -> P (foldl f a l).
Proof. intros Hf. revert a. induction l as [|b l IH]; intros a Ha; cbn [foldl]; auto. Qed.

Lemma step_entry_range st e : is_u32 (committed_ops st) /\ is_u32 (rolled_back_ops st) ->
  is_u32 (committed_ops (step_entry st e)) /\ is_u32 (rolled_back_ops (step_entry st e)).
Proof.
  assert (Hone : forall n, is_u32 (count32 n)) by (intros n; unfold count32; width; lia).
  intros [H1 H2]. destruct e; cbn [step_entry]; unfold route, commit_all, roll_back;
    try destruct (in_txn st); cbn [committed_ops rolled_back_ops]; split; auto;
    first [by apply foldl_inv | width; lia].
Qed.

Lemma is_u32_u32 n : is_u32 n -> u32 n = n.
Proof. width. intros. by apply Z.mod_small. Qed.

(** The replay of an encoded journal. *)
Definition replay_spec (store : RawStore) (es : list entry) (open_at_end : bool) : jstate :=
  MkJ (foldl apply_mutation store (survivors false es)) open_at_end []
    (u32 (Z.of_nat (length (survivors false es)))) (u32 (rolled_back false es)).

Fixpoint open_after (open : bool) (es : list entry) : bool :=
  match es with
  | [] => open
  | e :: es' =>
      open_after (match mutation_of e with Some _ => open | None => bool_decide (marker_of e = Some MBegin) end) es'
  end.

Lemma in_txn_after es st : in_txn (foldl step_entry st es) = open_after (in_txn st) es.
Proof.
  revert st. induction es as [|e es IH]; intros st; [done|]. cbn [foldl open_after]. rewrite IH. f_equal.
  destruct e; cbn [step_entry mutation_of marker_of]; unfold route, commit_all, roll_back;
    destruct (in_txn st) eqn:E; cbn [in_txn]; rewrite ?E; done.
Qed.

Lemma staged_after es st : txn_clean st -> txn_clean (foldl step_entry st es).
Proof.
  revert st. induction es as [|e es IH]; intros st Hc; [done|]. cbn [foldl]. apply IH. unfold txn_clean in *.
  destruct e; cbn [step_entry]; unfold route, commit_all, roll_back;
    destruct (in_txn st) eqn:E; cbn [in_txn staged]; rewrite ?E; try done; auto.
Qed.

Lemma replay_loop_spec es store :
  finish (foldl step_entry (MkJ store false [] 0 0) es) = replay_spec store es (open_after false es).
Proof.
  set (st0 := MkJ store false [] 0 0).
  destruct (foldl_entries es st0 ltac:(done)) as (H1 & H2 & H3). cbn [in_txn st0] in *.
  unfold pending, dropping in *. cbn [in_txn st0 andb app committed committed_ops rolled_back_ops] in *.
  rewrite !Z.add_0_l in *.
  pose proof (in_txn_after es st0) as Ht. pose proof (staged_after es st0 ltac:(done)) as Hs.
  assert (Hr : is_u32 (committed_ops (foldl step_entry st0 es)) /\ is_u32 (rolled_back_ops (foldl step_entry st0 es))).
  { apply (foldl_inv (fun st => is_u32 (committed_ops st) /\ is_u32 (rolled_back_ops st)));
      [apply step_entry_range|unfold is_u32; cbn; lia]. }
  cbn [in_txn st0] in Ht. unfold finish, txn_clean in *. rewrite <- Ht in *. unfold replay_spec.
  destruct (foldl step_entry st0 es) as [c t sg co ro]. cbn [in_txn staged committed committed_ops rolled_back_ops] in *.
  destruct Hr as [Hco Hro].
  destruct t; cbn [committed committed_ops rolled_back_ops] in *; rewrite (is_u32_u32 co) in H2 by done.
  - rewrite u32_idem in H3. by rewrite <- H1, <- H2, <- H3.
  - rewrite Hs by done. rewrite (is_u32_u32 ro) in H3 by done. by rewrite <- H1, <- H2, <- H3.
Qed.

Definition journal_bytes (es : list entry) : bytes := concat (map entry_bytes es).

Lemma journal_bytes_length es : (length es <= length (journal_bytes es))%nat.
Proof.
  induction es as [|e es IH]; [done|]. unfold journal_bytes in *. cbn [map concat length]. rewrite length_app.
  destruct e; simpl; lia.
Qed.

Lemma copy_tail (data : bytes) (n : nat) : (n <= length data)%nat ->
  copy_range data n (length data - n) = Ok (drop n data).
Proof.
  intros H. unfold copy_range. rewrite (proj2 (Nat.leb_le _ _)) by lia. f_equal.
  apply take_ge. rewrite length_drop. lia.
Qed.

Lemma replay_entries_spec pre es tail store :
  pre <> [] -> bytes_ok tail -> Forall entry_ok es -> stops tail ->
  replay_entries (pre ++ journal_bytes es ++ tail) (Z.of_nat (length pre)) store =
    Ok (replay_spec store es (open_after false es)).
Proof.
  intros Hpre Htl Hes Hst. unfold replay_entries.
  assert (Hl : (length pre <> 0)%nat) by (by destruct pre).
  rewrite (proj2 (Z.eqb_neq _ _)) by lia. cbn [negb andb].
  destruct (Z.of_nat (length pre) <? Z.of_nat (length (pre ++ journal_bytes es ++ tail))) eqn:E; reflect_bools.
  - rewrite Nat2Z.id.
    replace (Z.to_nat (Z.of_nat (length (pre ++ journal_bytes es ++ tail)) - Z.of_nat (length pre)))
      with (length (pre ++ journal_bytes es ++ tail) - length pre)%nat by lia.
    rewrite copy_tail by (rewrite length_app; lia). rewrite drop_app_exact. cbn [obind].
    destruct (replay_loop_entries (S (length (journal_bytes es ++ tail))) es (MkJ store false [] 0 0) [] tail) as [r Hr];
      [done|constructor|done|done| |].
    { rewrite length_app. pose proof (journal_bytes_length es). lia. }
    unfold mk_reader. cbn [app length] in Hr. unfold journal_bytes in *. rewrite Hr. cbn [obind]. f_equal.
    apply replay_loop_spec.
  - rewrite !length_app in E. pose proof (journal_bytes_length es).
    destruct es; [done|simpl in *; lia].
Qed.

(** ** Replay of arbitrary bytes *)

Definition store_ok (store : RawStore) : Prop := forall k b, store !! k = Some b -> bytes_ok b.
Definition jstate_ok (st : jstate) : Prop :=
  store_ok (committed st) /\ Forall (fun op => bytes_ok (op_bytes op)) (staged st).

Lemma store_ok_insert store k b : store_ok store -> bytes_ok b -> store_ok (<[k := b]> store).
Proof. intros H Hb k' b'. rewrite lookup_insert_Some. intros [[_ <-]|[_ ?]]; eauto. Qed.

Lemma apply_committed_ok store op : store_ok store -> bytes_ok (op_bytes op) -> store_ok (apply_committed store op).
Proof.
  intros H Hb. unfold apply_committed. destruct (tombstone op); [|by apply store_ok_insert].
  intros k b. rewrite lookup_delete_Some. intros [_ ?]; eauto.
Qed.

Lemma commit_all_ok st : jstate_ok st -> jstate_ok (commit_all st).
Proof.
  intros [H1 H2]. unfold commit_all. destruct (in_txn st); [|done]. split; cbn [committed staged]; [|constructor].
  generalize dependent (committed st). induction H2 as [|op l Hop Hl IH]; intros s Hs; cbn [foldl]; [done|].
  apply IH. by apply apply_committed_ok.
Qed.

Lemma route_ok st op : jstate_ok st -> bytes_ok (op_bytes op) -> jstate_ok (route st op).
Proof.
  intros [H1 H2] Hb. unfold route. destruct (in_txn st); split; cbn [committed staged]; [done| | |done].
  - apply Forall_app_2; [done|by constructor].
  - by apply apply_committed_ok.
Qed.

Lemma roll_back_ok st : jstate_ok st -> jstate_ok (roll_back st).
Proof. intros [H1 H2]. unfold roll_back. by destruct (in_txn st). Qed.

Lemma triple_key : triple 6 read_key (fun _ => True).
Proof.
  unfold read_key. eapply (triple_bind 4); [apply triple_u32le|]. intros p _.
  eapply (triple_bind 2); [apply triple_u16le|]. intros s _. by apply triple_ret.
Qed.

Lemma triple_eof : triple 0 get_eof (fun _ => True).
Proof. intros r Hr. unfold get_eof. cbn. split; [|done]. split_and!; [apply Hr..|done|lia]. Qed.

Lemma triple_put : triple 0 read_put (fun kb => bytes_ok kb.2).
Proof.
  unfold read_put. eapply triple_step; [apply triple_key|]. intros k _.
  eapply triple_step; [apply triple_lenprefixed|]. intros b Hb. by apply triple_ret.
Qed.

Lemma replay_loop_safe turns st r : rd_ok r -> (rd_left r < turns)%nat -> jstate_ok st ->
  oholds (replay_loop turns st r) (fun '(st', _) => jstate_ok st').
Proof.
  revert st r. induction turns as [|turns IH]; intros st r Hr Ht Hst; [lia|]. cbn [replay_loop].
  eapply bind_left; [apply triple_eof|done|]. intros done' r1 Hr1 Hl1 _. destruct done'; [done|].
  eapply bind_left; [apply triple_u8|done|]. intros b r2 Hr2 Hl2 _.
  assert (Hnext : forall st', jstate_ok st' -> oholds (replay_loop turns st' r2) (fun '(st', _) => jstate_ok st'))
    by (intros st' H; apply IH; [done|lia|done]).
  destruct (journal_op_of b) as [[]|]; try rewrite replay_put_fold; try done; try apply Hnext;
    try by first [apply commit_all_ok | apply roll_back_ok].
  - split; [apply Hst|constructor].
  - eapply bind_left; [apply triple_put|done|]. intros kb r3 Hr3 Hl3 Hkb.
    apply IH; [done|lia|by apply route_ok].
  - eapply bind_left; [apply triple_put|done|]. intros kb r3 Hr3 Hl3 Hkb.
    apply IH; [done|lia|by apply route_ok].
  - eapply bind_left; [apply triple_key|done|]. intros k r3 Hr3 Hl3 _.
    apply IH; [done|lia|apply route_ok; [done|constructor]].
Qed.

Lemma replay_entries_safe data off store : bytes_ok data -> 0 <= off -> store_ok store ->
  oholds (replay_entries data off store) jstate_ok.
Proof.
  intros Hd Ho Hs. unfold replay_entries.
  assert (H0 : jstate_ok (MkJ store false [] 0 0)) by (split; [done|constructor]).
  eapply oholds_bind with (P := jstate_ok).
  - case_bool; [|done]. reflect_bools.
    replace (Z.to_nat (Z.of_nat (length data) - off)) with (length data - Z.to_nat off)%nat by lia.
    rewrite copy_tail by lia. cbn [obind]. set (body := drop (Z.to_nat off) data).
    eapply oholds_bind; [apply (replay_loop_safe _ _ (mk_reader body))|].
    + apply rd_ok_mk. unfold body. auto with bw.
    + unfold rd_left. simpl. lia.
    + done.
    + by intros [st r] Hx.
  - intros st [H1 H2]. cbn. destruct (in_txn st); split; done || constructor.
Qed.

(** ** Seeding and decoding *)

(** The bytes of one slot of a page at [base], when it lies inside its page and
    its bytes are physically there. *)
Definition slot_bytes (data : bytes) (base : Z) (slot : Slot) : option bytes :=
  let abs := base + rec_offset slot in
  if in_bounds slot && negb (rec_length slot =? 0) && (abs <? Z.of_nat (length data)) &&
     (abs + rec_length slot <=? Z.of_nat (length data))
  then Some (take (Z.to_nat (rec_length slot)) (drop (Z.to_nat abs) data)) else None.

(** The record resident under a key: slot [k.2] of the data page [k.1]. *)
Definition resident (data : bytes) (spans : list PageSpan) (pages : list Page) (k : RecordKey) : option bytes :=
  if bool_decide (0 <= k.1 /\ 0 <= k.2) then
    match pages !! Z.to_nat k.1, spans !! Z.to_nat k.1 with
    | Some page, Some span =>
        if bool_decide (pg_type page = kData)
        then slots page !! Z.to_nat k.2 ≫= slot_bytes data (file_offset span) else None
    | _, _ => None
    end
  else None.

Definition or_else {A} (a b : option A) : option A := match a with Some _ => a | None => b end.

Lemma or_else_None_r {A} (a : option A) : or_else a None = a.
Proof. by destruct a. Qed.

Definition slots_ok (l : list Slot) : Prop := Forall (fun s => 0 <= rec_offset s /\ 0 <= rec_length s) l.

Lemma seed_slots_cons data p base s slot l store :
  0 <= base -> 0 <= rec_offset slot /\ 0 <= rec_length slot ->
  seed_slots data p base s (slot :: l) store =
  seed_slots data p base (s + 1) l
    (match slot_bytes data base slot with Some b => <[(p, s) := b]> store | None => store end).
Proof.
  intros Hb [Ho Hl]. cbn [seed_slots]. cbv zeta. unfold slot_bytes. cbv zeta.
  destruct (in_bounds slot); cbn [negb orb andb]; [|done].
  destruct (rec_length slot =? 0); cbn [negb orb andb]; [done|].
  destruct (base + rec_offset slot <? Z.of_nat (length data)) eqn:E1; reflect_bools; cbn [andb].
  - rewrite (proj2 (Z.leb_gt _ _)) by done. cbn [orb].
    destruct (base + rec_offset slot + rec_length slot <=? Z.of_nat (length data)) eqn:E2; reflect_bools.
    + rewrite (proj2 (Z.ltb_ge _ _)) by done. rewrite (proj2 (Z.ltb_ge _ _)) by lia. cbn [orb].
      unfold copy_range. by rewrite (proj2 (Nat.leb_le _ _)) by lia.
    + by rewrite (proj2 (Z.ltb_lt _ _)) by done.
  - by rewrite (proj2 (Z.leb_le _ _)) by done.
Qed.

Lemma seed_slots_spec data p base s l store : 0 <= base -> slots_ok l ->
  exists store', seed_slots data p base s l store = Ok store' /\
    forall k, store' !! k =
      or_else (if bool_decide (k.1 = p /\ s <= k.2)
               then l !! Z.to_nat (k.2 - s) ≫= slot_bytes data base else None) (store !! k).
Proof.
  intros Hb Hl. revert s store. induction Hl as [|slot l Hslot Hl IH]; intros s store.
  { exists store. split; [done|]. intros k. by case_bool. }
  rewrite seed_slots_cons by done.
  set (store1 := match slot_bytes data base slot with Some b => _ | None => store end).
  destruct (IH (s + 1) store1) as (store' & E & H). exists store'. split; [done|].
  assert (H1 : forall k, store1 !! k =
    or_else (if bool_decide (k = (p, s)) then slot_bytes data base slot else None) (store !! k)).
  { intros k. unfold store1. case_bool_decide as Ek; [subst k|];
      destruct (slot_bytes data base slot); cbn [or_else]; try done.
    - by rewrite lookup_insert_eq.
    - by rewrite lookup_insert_ne. }
  intros [kp ks]. rewrite H, H1. cbn [fst snd]. destruct (decide (kp = p)) as [->|Hp].
  - destruct (Z.lt_trichotomy ks s) as [Hlt|[->|Hlt]].
    + rewrite !bool_decide_false by (intros ?; simplify_eq; lia). done.
    + rewrite (bool_decide_false (_ /\ s + 1 <= s)) by lia. rewrite !bool_decide_true by (done || lia).
      by rewrite Z.sub_diag.
    + rewrite !(bool_decide_true (p = p /\ _)) by lia. rewrite bool_decide_false by (intros ?; simplify_eq; lia).
      by replace (Z.to_nat (ks - s)) with (S (Z.to_nat (ks - (s + 1)))) by lia.
  - rewrite !bool_decide_false by naive_solver. done.
Qed.

(** Geometry of the page array from index [i] on. *)
Definition pages_numbered (i : Z) (pages : list Page) : Prop :=
  forall j page, pages !! j = Some page -> pg_index page = i + Z.of_nat j /\ slots_ok (slots page).

Lemma pages_numbered_tail i page pages : pages_numbered i (page :: pages) -> pages_numbered (i + 1) pages.
Proof. intros H j q Hj. destruct (H (S j) q Hj) as [E Hs]. split; [lia|done]. Qed.

Lemma or_else_assoc {A} (a b c : option A) : or_else (or_else a b) c = or_else a (or_else b c).
Proof. by destruct a. Qed.

Lemma seed_from_pages_spec data spans i pages store :
  spans_ok data spans -> 0 <= i -> pages_numbered i pages -> i + Z.of_nat (length pages) <= Z.of_nat (length spans) ->
  exists store', seed_from_pages data spans pages store = Ok store' /\
    forall k, store' !! k =
      or_else (if bool_decide (i <= k.1)
               then resident data (drop (Z.to_nat i) spans) pages (k.1 - i, k.2) else None) (store !! k).
Proof.
  intros Hsp. revert i store. induction pages as [|page pages IH]; intros i store Hi Hn Hlen.
  { exists store. split; [done|]. intros k. unfold resident. cbn [fst snd]. repeat case_bool; done. }
  destruct (Hn 0%nat page eq_refl) as [Eidx Hslots]. simpl in Hlen.
  destruct (at_idx_ok spans (Z.to_nat i)) as (span & Hspan & Eat); [lia|].
  assert (Hspanok : 0 <= file_offset span).
  { unfold spans_ok in Hsp. rewrite Forall_lookup in Hsp. by destruct (Hsp _ _ Hspan) as (? & _). }
  assert (Hdrop : drop (Z.to_nat i) spans = span :: drop (Z.to_nat (i + 1)) spans).
  { rewrite (drop_S _ _ _ Hspan). do 2 f_equal. lia. }
  set (here := fun k : RecordKey =>
    if bool_decide (k.1 = i) && bool_decide (0 <= k.2) && bool_decide (pg_type page = kData)
    then slots page !! Z.to_nat k.2 ≫= slot_bytes data (file_offset span) else None).
  assert (Hstep : exists store1, seed_from_pages data spans (page :: pages) store =
      seed_from_pages data spans pages store1 /\ forall k, store1 !! k = or_else (here k) (store !! k)).
  { cbn [seed_from_pages]. rewrite (proj2 (Z.leb_gt _ _)) by lia. rewrite Eidx, Z.add_0_r, Eat. cbn [obind].
    unfold here. destruct (bool_decide (pg_type page = kData)); cbn [negb].
    - destruct (seed_slots_spec data i (file_offset span) 0 (slots page) store Hspanok Hslots) as (s1 & -> & H1).
      exists s1. split; [done|]. intros k. rewrite H1, Z.sub_0_r. f_equal.
      rewrite andb_true_r. repeat case_bool_decide; done || (exfalso; tauto).
    - exists store. split; [done|]. intros k. by rewrite andb_false_r. }
  destruct Hstep as (store1 & -> & H1).
  destruct (IH (i + 1) store1) as (store' & E & H); [lia|by eapply pages_numbered_tail|lia|].
  exists store'. split; [done|]. intros [kp ks]. rewrite H, H1, <- or_else_assoc. f_equal. unfold here, resident.
  rewrite Hdrop. cbn [fst snd]. destruct (Z.lt_trichotomy kp i) as [Hlt|[->|Hlt]].
  - rewrite (bool_decide_false (i + 1 <= kp)), (bool_decide_false (kp = i)), (bool_decide_false (i <= kp)) by lia. done.
  - rewrite (bool_decide_false (i + 1 <= i)) by lia. rewrite (bool_decide_true (i <= i)) by lia.
    rewrite (bool_decide_true (i = i)) by lia. rewrite Z.sub_diag. cbn [or_else andb].
    rewrite (bool_decide_ext (0 <= 0 <= ks) (0 <= ks)) by lia. by destruct (bool_decide (0 <= ks)).
  - rewrite (bool_decide_true (i + 1 <= kp)), (bool_decide_true (i <= kp)), (bool_decide_false (kp = i)) by lia.
    cbn [andb]. replace (Z.to_nat (kp - i)) with (S (Z.to_nat (kp - (i + 1)))) by lia. cbn [lookup list_lookup].
    rewrite (bool_decide_ext (0 <= kp - (i + 1) /\ 0 <= ks) (0 <= ks)), (bool_decide_ext (0 <= kp - i /\ 0 <= ks) (0 <= ks))
      by lia.
    apply or_else_None_r.
Qed.

Lemma seeded_store data spans pages :
  spans_ok data spans -> pages_numbered 0 pages -> (length pages <= length spans)%nat ->
  exists store, seed_from_pages data spans pages ∅ = Ok store /\
    forall k, store !! k = resident data spans pages k.
Proof.
  intros Hsp Hn Hlen. destruct (seed_from_pages_spec data spans 0 pages ∅) as (store & E & H); [done..|lia|].
  exists store. split; [done|]. intros [kp ks]. rewrite H. cbn [fst snd].
  change (drop (Z.to_nat 0) spans) with spans. rewrite Z.sub_0_r, lookup_empty, or_else_None_r.
  case_bool_decide; [done|]. unfold resident. cbn [fst snd]. by rewrite bool_decide_false by lia.
Qed.

Lemma decode_all_spec l table records (recs : RecordKey -> Record_) :
  (forall k b, (k, b) ∈ l -> decode_record b table = Ok (recs k)) ->
  (forall k, k ∈ l.*1 -> records !! k = None) -> NoDup l.*1 ->
  exists records', decode_all l table records = Ok records' /\
    forall k, records' !! k = if bool_decide (k ∈ l.*1) then Some (recs k) else records !! k.
Proof.
  revert records. induction l as [|[k b] l IH]; intros records Hd Hn Hnd; cbn [decode_all].
  { exists records. split; [done|]. intros k. rewrite bool_decide_false; [done|]. apply not_elem_of_nil. }
  rewrite (Hd k b) by left. cbn [obind]. rewrite fmap_cons in *. cbn [fst] in *.
  rewrite (Hn k) by left. apply NoDup_cons in Hnd as [Hk Hnd].
  destruct (IH (<[k := recs k]> records)) as (records' & E & H).
  - intros k' b' Hin. apply (Hd k' b'). by right.
  - intros k' Hin. rewrite lookup_insert_ne by (intros ->; done). apply Hn. by right.
  - done.
  - exists records'. split; [done|]. intros k'. rewrite H. destruct (decide (k' = k)) as [->|Hne].
    + rewrite bool_decide_false by done. rewrite bool_decide_true by left. by rewrite lookup_insert_eq.
    + rewrite lookup_insert_ne by done. erewrite bool_decide_ext; [done|].
      rewrite elem_of_cons. naive_solver.
Qed.

(** Every settled record decodes, so the decoded map has the store's keys. *)
Lemma decode_store store table (recs : RecordKey -> Record_) :
  (forall k b, store !! k = Some b -> decode_record b table = Ok (recs k)) ->
  exists records, decode_all (entries store) table ∅ = Ok records /\
    forall k, records !! k = (fun _ => recs k) <$> store !! k.
Proof.
  intros Hd. destruct (decode_all_spec (entries store) table ∅ recs) as (records & E & H).
  - intros k b Hin. apply Hd. by apply elem_of_entries.
  - intros k _. apply lookup_empty.
  - apply NoDup_entries_fst.
  - exists records. split; [done|]. intros k. rewrite H, lookup_empty. case_bool_decide as Hk.
    + apply list_elem_of_fmap in Hk as ([k' b] & -> & Hin). apply elem_of_entries in Hin. cbn. by rewrite Hin.
    + destruct (store !! k) as [b|] eqn:Es; [|done]. destruct Hk. apply elem_of_entries in Es.
      apply list_elem_of_fmap. by exists (k, b).
Qed.

Lemma decode_all_safe l table records : (forall k b, (k, b) ∈ l -> bytes_ok b) ->
  (forall k r, records !! k = Some r -> Forall (field_ok table) r) ->
  oholds (decode_all l table records) (fun rs => forall k r, rs !! k = Some r -> Forall (field_ok table) r).
Proof.
  revert records. induction l as [|[k b] l IH]; intros records Hl Hr; cbn [decode_all]; [done|].
  eapply oholds_bind; [apply decode_record_safe; apply (Hl k); left|]. intros rec Hrec.
  apply IH; [intros k' b' Hin; apply (Hl k' b'); by right|].
  destruct (records !! k); [done|]. intros k' r'. rewrite lookup_insert_Some. naive_solver.
Qed.

(** ** Transactions *)

Lemma survivors_app open es es' : next_marker es' <> Some MCommit ->
  survivors open (es ++ es') = survivors open es ++ survivors (open_after open es) es'.
Proof.
  intros Hn. revert open. induction es as [|e es IH]; intros open; [done|]. cbn [survivors app open_after].
  assert (Hm : bool_decide (next_marker (es ++ es') = Some MCommit) = bool_decide (next_marker es = Some MCommit)).
  { clear IH. induction es as [|x es IH]; cbn [app next_marker].
    - rewrite !bool_decide_false by done. done.
    - by destruct (marker_of x). }
  rewrite Hm. destruct (mutation_of e); rewrite IH; [by rewrite app_assoc|done].
Qed.

Definition put_entries (ms : list (RecordKey * option bytes)) : list entry :=
  map (fun m => match m.2 with Some b => EPut false m.1 b | None => EDel m.1 end) ms.

Lemma next_marker_puts ms es : next_marker (put_entries ms ++ es) = next_marker es.
Proof. induction ms as [|[k [b|]] ms IH]; [done|exact IH..]. Qed.

Lemma survivors_puts ms es :
  survivors true (put_entries ms ++ es) =
  (if bool_decide (next_marker es = Some MCommit) then ms else []) ++ survivors true es.
Proof.
  induction ms as [|[k b] ms IH]; cbn [put_entries map app survivors].
  - by case_bool_decide.
  - fold (put_entries ms). cbn [fst snd]. destruct b as [b|]; cbn [mutation_of negb orb];
      rewrite next_marker_puts, IH; by case_bool_decide.
Qed.

(** A transaction placed after the entries [es]. *)
Lemma survivors_txn es ms after :
  survivors false (es ++ EBegin :: put_entries ms ++ after) =
  survivors false es ++ (if bool_decide (next_marker after = Some MCommit) then ms else []) ++ survivors true after.
Proof. rewrite survivors_app by done. cbn [survivors mutation_of marker_of]. by rewrite survivors_puts. Qed.

Definition journal_store (store : RawStore) (es : list entry) : RawStore :=
  foldl apply_mutation store (survivors false es).

Lemma journal_store_txn store es ms after : (forall x, x ∈ after -> mutation_of x = None) ->
  journal_store store (es ++ EBegin :: put_entries ms ++ after) =
  if bool_decide (head after = Some ECommit) then foldl apply_mutation (journal_store store es) ms
  else journal_store store es.
Proof.
  intros Ha. unfold journal_store. rewrite survivors_txn.
  assert (Hs : forall o, survivors o after = []).
  { induction after as [|x l IH]; intros o; [done|]. cbn [survivors]. rewrite Ha by left.
    apply IH. intros y Hy. apply Ha. by right. }
  rewrite Hs, app_nil_r, foldl_app.
  assert (Hh : next_marker after = Some MCommit <-> head after = Some ECommit).
  { destruct after as [|x l]; [done|]. specialize (Ha x ltac:(left)). cbn. by destruct x. }
  by rewrite (bool_decide_ext _ _ Hh); case_bool_decide.
Qed.

Lemma replay_refines_spec (pre : bytes) (es : list entry) (tail : bytes) (hdr : FileHeader)
    (spans : list PageSpan) (pages : list Page) (table : list bytes) :
  let data := pre ++ journal_bytes es ++ tail in
  pre <> [] -> h_journal_offset hdr = Z.of_nat (length pre) -> bytes_ok tail -> Forall entry_ok es ->
  stops tail -> spans_ok data spans -> pages_numbered 0 pages -> (length pages <= length spans)%nat ->
  exists seeded : RawStore,
    (forall k, seeded !! k = resident data spans pages k) /\
    replay_journal data hdr spans pages table =
      (let? records := decode_all (entries (foldl apply_mutation seeded (survivors false es))) table ∅ in
       Ok (MkReplayed true (u32 (Z.of_nat (length (survivors false es)))) (u32 (rolled_back false es)) records)).
Proof.
  intros data Hpre Hoff Htl Hes Hst Hsp Hn Hlen.
  destruct (seeded_store data spans pages Hsp Hn Hlen) as (seeded & E & H).
  exists seeded. split; [done|]. unfold replay_journal. rewrite E. cbn [obind]. rewrite Hoff.
  unfold data. rewrite replay_entries_spec by done. cbn [obind replay_spec committed committed_ops rolled_back_ops].
  assert (length pre <> 0)%nat by (by destruct pre). by rewrite (proj2 (Z.eqb_neq _ _)) by lia.
Qed.

(** ** Claims *)

(** C7. Replay refines the marker semantics of the journal: on a store whose
    journal holds the entries [es], followed by nothing or by an unknown op, the
    committed state is the one resident in the data pages changed by exactly the
    mutations that survive - outside a transaction, or in one that reaches its
    COMMIT - in order, the counters count the survivors and the ones rolled back,
    and the records are the decoding of that store. *)
Theorem replay_refines (pre : bytes) (es : list entry) (tail : bytes) (hdr : FileHeader)
    (spans : list PageSpan) (pages : list Page) (table : list bytes) :
  let data := pre ++ journal_bytes es ++ tail in
  pre <> [] -> h_journal_offset hdr = Z.of_nat (length pre) -> bytes_ok tail -> Forall entry_ok es ->
  stops tail -> spans_ok data spans -> pages_numbered 0 pages -> (length pages <= length spans)%nat ->
  exists seeded : RawStore,
    (forall k, seeded !! k = resident data spans pages k) /\
    replay_journal data hdr spans pages table =
      (let? records := decode_all (entries (foldl apply_mutation seeded (survivors false es))) table ∅ in
       Ok (MkReplayed true (u32 (Z.of_nat (length (survivors false es)))) (u32 (rolled_back false es)) records)).
Proof. apply replay_refines_spec. Qed.

Definition sample_journal : list entry :=
  [EPut false (0, 0) [1; 1; 1]; EBegin; EPut true (0, 1) [1; 1; 0]; EDel (0, 0); ECommit;
   EBegin; EPut false (9, 9) [7]; ERollback; EBegin; EDel (0, 1)].

Lemma replay_refines_witness :
  exists seeded : RawStore, (forall k, seeded !! k = resident ([0] ++ journal_bytes sample_journal ++ [99]) [] [] k) /\
  replay_journal ([0] ++ journal_bytes sample_journal ++ [99]) (MkHeader 1 64 0 0 0 1 0 0 true) [] [] [] =
  (let? records := decode_all (entries (foldl apply_mutation seeded
     [((0, 0), Some [1; 1; 1]); ((0, 1), Some [1; 1; 0]); ((0, 0), None)])) [] ∅ in
   Ok (MkReplayed true 3 2 records)).
Proof.
  refine (replay_refines [0] sample_journal [99] (MkHeader 1 64 0 0 0 1 0 0 true) [] [] [] _ _ _ _ _ _ _ _).
  - discriminate.
  - reflexivity.
  - repeat constructor; cbn; unfold is_byte; lia.
  - repeat constructor; cbn; unfold is_u32, is_u16, is_u64, is_byte; lia.
  - reflexivity.
  - constructor.
  - intros j page. cbn. discriminate.
  - cbn. lia.
Defined.

(** C13. Transactions are atomic and durable: whatever the journal holds before, a
    transaction's mutations are all applied, in order and over what was there,
    when its COMMIT follows, and none of them is when the journal ends or rolls
    back or opens another transaction instead - even if an earlier transaction was
    left open. *)
Theorem transactions_atomic (pre : bytes) (es : list entry) (ms : list (RecordKey * option bytes))
    (last : list entry) (store : RawStore) :
  pre <> [] -> Forall entry_ok es -> Forall entry_ok (put_entries ms) ->
  last ∈ [[]; [ECommit]; [ERollback]; [EBegin]] ->
  exists before after,
    replay_entries (pre ++ journal_bytes es) (Z.of_nat (length pre)) store = Ok before /\
    replay_entries (pre ++ journal_bytes (es ++ EBegin :: put_entries ms ++ last)) (Z.of_nat (length pre)) store =
      Ok after /\
    committed after =
      (if bool_decide (last = [ECommit]) then foldl apply_mutation (committed before) ms else committed before).
Proof.
  intros Hpre Hes Hms Hlast.
  assert (Hok : Forall entry_ok (es ++ EBegin :: put_entries ms ++ last)).
  { apply Forall_app. split; [done|]. constructor; [done|]. apply Forall_app. split; [done|].
    rewrite !elem_of_cons, elem_of_nil in Hlast. by destruct Hlast as [->|[->|[->|[->|[]]]]]; repeat constructor. }
  eexists _, _. rewrite <- (app_nil_r (journal_bytes es)), replay_entries_spec by (done || constructor).
  split; [reflexivity|]. rewrite <- (app_nil_r (journal_bytes (es ++ _))), replay_entries_spec by (done || constructor).
  split; [reflexivity|]. unfold replay_spec. cbn [committed].
  change (foldl apply_mutation store (survivors false ?x)) with (journal_store store x). rewrite journal_store_txn.
  - rewrite !elem_of_cons, elem_of_nil in Hlast. by destruct Hlast as [->|[->|[->|[->|[]]]]].
  - intros x Hx. rewrite !elem_of_cons, elem_of_nil in Hlast.
    destruct Hlast as [->|[->|[->|[->|[]]]]]; [by apply elem_of_nil in Hx|by apply list_elem_of_singleton in Hx as ->..].
Qed.

Lemma transactions_atomic_witness :
  exists before after,
    replay_entries ([0] ++ journal_bytes sample_journal) 1 ∅ = Ok before /\
    replay_entries ([0] ++ journal_bytes (sample_journal ++ EBegin :: put_entries [((0, 5), Some [4]); ((0, 1), None)]
      ++ [ECommit])) 1 ∅ = Ok after /\
    committed after = foldl apply_mutation (committed before) [((0, 5), Some [4]); ((0, 1), None)].
Proof.
  refine (transactions_atomic [0] sample_journal [((0, 5), Some [4]); ((0, 1), None)] [ECommit] ∅ _ _ _ _).
  - discriminate.
  - repeat constructor; cbn; unfold is_u32, is_u16, is_u64, is_byte; lia.
  - repeat constructor; cbn; unfold is_u32, is_u16, is_u64, is_byte; lia.
  - right. left.
Defined.

(** ** A torn journal tail *)

(** An entry cut short makes the whole replay throw, including what was committed
    before it; an unknown op byte in the same place would keep it. *)
Lemma torn_entry_loses_everything :
  (exists e, replay_entries ([0] ++ journal_bytes [EBegin; EPut false (0, 0) [1; 1; 1]; ECommit] ++ [2; 0; 0]) 1 ∅ =
     Throw e /\ pe_code e = kShortRead) /\
  (exists st, replay_entries ([0] ++ journal_bytes [EBegin; EPut false (0, 0) [1; 1; 1]; ECommit] ++ [99; 0; 0]) 1 ∅ =
     Ok st /\ committed st !! (0, 0) = Some [1; 1; 1]).
Proof. split; eexists; (split; [vm_compute; reflexivity|reflexivity]). Qed.

(** A second BEGIN drops what is staged without counting it as rolled back. *)
Lemma dropped_by_begin_uncounted :
  exists st, replay_entries ([0] ++ journal_bytes [EBegin; EDel (0, 0); EBegin; ECommit]) 1 ∅ = Ok st /\
    committed_ops st = 0 /\ rolled_back_ops st = 0.
Proof. eexists. split; [vm_compute; reflexivity|done]. Qed.
