(* ===== verification/MiniOpen.v ===== *)
(** * MiniOpen: opening a minidb store

    [src/minidb/minidb.cpp] and the [Database] of [include/minidb/model.hpp]: the
    four decode stages chained by [open]. *)

From S2P Require Import Prelude Status ByteIO Checksum OrdMap MiniPages MiniRecord Journal.

Record Database := MkDatabase {
  version : Z;
  page_size : Z;
  page_count : Z;
  root_page : Z;
  string_table_page : Z;
  journal_offset : Z;
  flags : Z;
  checksum_ok : bool;
  has_journal : bool;
  string_table : list bytes;
  db_pages : list Page;
  db_committed_ops : Z;
  db_rolled_back_ops : Z;
  db_records : gmap RecordKey Record_;
}.

(** [open(data, size, opts)]; [strict] is the only option. *)
Definition open_db (strict : bool) (data : bytes) : outcome Database :=
  let? (hdr, _) := parse_header strict (mk_reader data) in
  let? (spans, pages) := parse_pages data hdr in
  let? table := parse_string_table data hdr spans pages in
  let? rp := replay_journal data hdr spans pages table in
  Ok (MkDatabase (h_version hdr) (h_page_size hdr) (h_page_count hdr) (h_root_page hdr)
        (h_string_table_page hdr) (h_journal_offset hdr) (h_flags hdr) (h_checksum_ok hdr)
        (rp_has_journal rp) table pages (rp_committed_ops rp) (rp_rolled_back_ops rp) (rp_records rp)).

Definition open_default (data : bytes) : outcome Database := open_db false data.

(** ** The stages around the replay *)

Section stages.
Context (data : bytes) (Hd : bytes_ok data).

Definition file_size : Z := Z.of_nat (length data).
Definition ids (hdr : FileHeader) : list Z :=
  seqZ 0 (pages_present file_size (h_page_size hdr) (h_page_count hdr)).
Definition pages_of (hdr : FileHeader) : list Page := map (page_at data (h_page_size hdr)) (ids hdr).
Definition spans_of (hdr : FileHeader) : list PageSpan := map (span_at file_size (h_page_size hdr)) (ids hdr).

Lemma spans_of_ok hdr : 0 < h_page_size hdr -> spans_ok data (spans_of hdr).
Proof.
  intros Hps. unfold spans_ok, spans_of. apply Forall_forall. intros s Hs.
  change (map ?f ?l) with (f <$> l) in Hs. apply list_elem_of_fmap in Hs as (i & -> & Hi).
  unfold ids in Hi. apply elem_of_seqZ in Hi.
  pose proof (page_avail_bounds file_size (h_page_size hdr) (h_page_count hdr) i Hps ltac:(lia)) as [H1 H2].
  cbn [span_at file_offset sp_length]. unfold page_offset, kHeaderSize, file_size in *. nia.
Qed.

Lemma slots_of_ok hdr i : slots_ok (slots (page_at data (h_page_size hdr) i)).
Proof.
  unfold slots_ok, page_at. case_bool; [constructor|]. cbn [slots]. apply Forall_forall. intros s Hs.
  change (map ?f ?l) with (f <$> l) in Hs. apply list_elem_of_fmap in Hs as (j & -> & _).
  assert (Hb : bytes_ok (page_body data (h_page_size hdr) i)) by (unfold page_body; auto with bw).
  unfold slot_at. cbn [rec_offset rec_length]. split; apply le_at_range; done.
Qed.

Lemma pages_of_numbered hdr : pages_numbered 0 (pages_of hdr).
Proof.
  intros j page Hj. unfold pages_of, ids in Hj. change (map ?f ?l) with (f <$> l) in Hj.
  rewrite list_lookup_fmap in Hj. apply fmap_Some in Hj as (i & Hi & ->).
  apply lookup_seqZ in Hi as [-> Hi]. split; [|apply slots_of_ok].
  unfold page_at. by case_bool.
Qed.

Lemma pages_spans_length hdr : length (pages_of hdr) = length (spans_of hdr).
Proof. unfold pages_of, spans_of. by rewrite !length_map. Qed.

(** What [open] does once the header is accepted. *)
Lemma open_after_header strict hdr r :
  header_spec strict data = Ok (hdr, r) ->
  0 < h_page_size hdr /\ 0 <= h_string_table_page hdr /\ 0 <= h_journal_offset hdr /\ hdr = header_at data /\
  open_db strict data =
    (let? table := parse_string_table data hdr (spans_of hdr) (pages_of hdr) in
     let? rp := replay_journal data hdr (spans_of hdr) (pages_of hdr) table in
     Ok (MkDatabase (h_version hdr) (h_page_size hdr) (h_page_count hdr) (h_root_page hdr)
           (h_string_table_page hdr) (h_journal_offset hdr) (h_flags hdr) (h_checksum_ok hdr)
           (rp_has_journal rp) table (pages_of hdr) (rp_committed_ops rp) (rp_rolled_back_ops rp) (rp_records rp))).
Proof.
  intros Hh. assert (Heq : hdr = header_at data /\ page_size_bad (h_page_size (header_at data)) = false).
  { unfold header_spec in Hh.
    destruct (length data <? 32)%nat; [done|]. destruct (negb (bool_decide _)); [done|].
    destruct (negb (_ =? kSupportedVersion)); [done|]. destruct (page_size_bad _) eqn:Ep; [done|].
    destruct (negb _ && strict); [done|]. injection Hh as <- _. done. }
  destruct Heq as [-> Hbad].
  assert (Hps : 0 < h_page_size (header_at data)).
  { unfold page_size_bad in Hbad. apply orb_false_elim in Hbad as [[H1 _]%orb_false_elim _]. reflect_bools.
    unfold kMinPageSize in *. lia. }
  split; [done|]. split; [by apply le_at_range|]. split; [by apply le_at_range|]. split; [done|].
  unfold open_db. rewrite parse_header_is_spec by done. rewrite Hh. cbn [obind].
  rewrite parse_pages_at by done. reflexivity.
Qed.
End stages.

(** ** Safety of the replay inside [open] *)

Lemma replay_journal_safe data hdr spans pages table :
  bytes_ok data -> spans_ok data spans -> pages_numbered 0 pages -> (length pages <= length spans)%nat ->
  0 <= h_journal_offset hdr ->
  oholds (replay_journal data hdr spans pages table)
    (fun rp => forall k r, rp_records rp !! k = Some r -> Forall (field_ok table) r).
Proof.
  intros Hd Hsp Hn Hlen Ho. unfold replay_journal.
  destruct (seeded_store data spans pages Hsp Hn Hlen) as (store & -> & Hst). cbn [obind].
  assert (Hok : store_ok store).
  { intros k b. rewrite Hst. unfold resident. case_bool_decide; [|done]. repeat case_match; try done.
    intros (slot & _ & Hb)%bind_Some. unfold slot_bytes in Hb. cbv zeta in Hb. case_match; [|done].
    injection Hb as <-. auto with bw. }
  eapply oholds_bind; [by apply replay_entries_safe|]. intros st [Hc _].
  eapply oholds_bind; [apply (decode_all_safe _ _ ∅)|].
  - intros k b Hin. apply (Hc k). by apply elem_of_entries.
  - intros k r. by rewrite lookup_empty.
  - intros recs Hrecs. exact Hrecs.
Qed.

Lemma open_db_sound (strict : bool) (data : bytes) :
  bytes_ok data ->
  match header_spec strict data with
  | Throw e => open_db strict data = Throw e
  | Ok (hdr, _) =>
      oholds (open_db strict data) (fun db =>
        version db = 1 /\ page_size db = le_at data 6 2 /\ page_count db = le_at data 8 4 /\
        checksum_ok db = (crc32 (take 28 data) =? le_at data 28 4) /\
        (strict = true -> checksum_ok db = true) /\
        db_pages db = pages_of data hdr /\ Forall bytes_ok (string_table db) /\
        forall k r, db_records db !! k = Some r -> Forall (field_ok (string_table db)) r)
  | _ => False
  end.
Proof.
  intros Hd. pose proof (parse_header_is_spec strict data Hd) as Hp.
  destruct (header_spec strict data) as [[hdr r]|e| |] eqn:Eh.
  2: { unfold open_db. by rewrite Hp. }
  2,3: unfold header_spec in Eh; repeat case_match; discriminate.
  destruct (open_after_header data Hd strict hdr r Eh) as (Hps & Hst & Hj & Hat & ->).
  assert (Hv : h_version hdr = 1 /\ (strict = true -> h_checksum_ok hdr = true)).
  { subst hdr. unfold header_spec in Eh. destruct (length data <? 32)%nat; [done|].
    destruct (negb (bool_decide _)); [done|]. destruct (negb (_ =? kSupportedVersion)) eqn:Ev; [done|].
    destruct (page_size_bad _); [done|]. destruct (negb _ && strict) eqn:Ec; [done|].
    apply negb_false_iff, Z.eqb_eq in Ev. split; [exact Ev|]. intros ->.
    rewrite andb_true_r in Ec. by apply negb_false_iff in Ec. }
  eapply oholds_bind with (P := Forall bytes_ok).
  - pose proof (parse_string_table_safe data hdr (spans_of data hdr) (pages_of data hdr) Hd
      (spans_of_ok data hdr Hps) Hst) as H. by destruct (parse_string_table _ _ _ _).
  - intros table Htable. eapply oholds_bind; [apply replay_journal_safe|].
    + done.
    + by apply spans_of_ok.
    + by apply pages_of_numbered.
    + by rewrite (pages_spans_length data hdr).
    + done.
    + intros rp Hrp. cbn [oholds version page_size page_count checksum_ok db_pages string_table db_records].
      destruct Hv as [Hv1 Hv2]. split; [done|]. subst hdr. done.
Qed.

(** ** Claims *)

(** C15. Opening any file, strict or not, is safe: no read leaves the buffer and
    every loop ends. A rejected header is exactly the error of [open]; otherwise
    whatever [open] returns carries the header fields, the pages present in the
    file, a string table of byte strings, and records whose fields are in range and
    whose references agree with that string table. *)
Theorem open_safe (strict : bool) (data : bytes) :
  bytes_ok data ->
  match header_spec strict data with
  | Throw e => open_db strict data = Throw e
  | Ok (hdr, _) =>
      oholds (open_db strict data) (fun db =>
        version db = 1 /\ page_size db = le_at data 6 2 /\ page_count db = le_at data 8 4 /\
        checksum_ok db = (crc32 (take 28 data) =? le_at data 28 4) /\
        (strict = true -> checksum_ok db = true) /\
        db_pages db = pages_of data hdr /\ Forall bytes_ok (string_table db) /\
        forall k r, db_records db !! k = Some r -> Forall (field_ok (string_table db)) r)
  | _ => False
  end.
Proof. apply open_db_sound. Qed.

Definition store_header : bytes :=
  kMagic ++ [1; 0; 64; 0] ++ [2; 0; 0; 0] ++ [0; 0; 0; 0] ++ [1; 0; 0; 0] ++ [160; 0; 0; 0] ++
  [0; 0; 0; 0] ++ [0; 0; 0; 0].
Definition store_pages : bytes :=
  [1; 0; 1; 0; 15; 0; 255; 255; 12; 0; 3; 0; 1; 5; 1] ++ replicate 49 0 ++
  [2; 0; 0; 0; 0; 0; 255; 255; 2; 2; 104; 105; 1; 65] ++ replicate 50 0.
Definition store_journal : list entry :=
  [EBegin; EPut false (0, 1) (record_bytes [VRef 0; VInt (-1)]); ECommit; EBegin; EDel (0, 0)].
Definition store_file : bytes := (store_header ++ store_pages) ++ journal_bytes store_journal ++ [].

Lemma open_safe_witness :
  open_db true store_file = Throw (parse_error kBadChecksum 28 "header CRC mismatch").
Proof.
  assert (H : bytes_ok store_file) by (by apply (bool_decide_unpack _); vm_compute).
  pose proof (open_safe true store_file H) as Hs.
  replace (header_spec true store_file) with
    (Throw (parse_error kBadChecksum 28 "header CRC mismatch") : outcome (FileHeader * reader)) in Hs
    by (vm_compute; reflexivity).
  exact Hs.
Defined.

(** C3. End to end: opening a file whose header is accepted and whose journal
    holds [es] returns a database whose records are exactly the ones the page
    records and the surviving journal mutations leave, each decoded against the
    string table, provided every surviving record is the wire form of some values;
    the string table is the one of the strings page and the counters count the
    journal's mutations. *)
Theorem open_committed_records (strict : bool) (pre : bytes) (es : list entry) (tail : bytes)
    (hdr : FileHeader) (r : reader) (table : list bytes) (seeded : RawStore) (vals : RecordKey -> list value) :
  let data := pre ++ journal_bytes es ++ tail in
  let final := foldl apply_mutation seeded (survivors false es) in
  bytes_ok data -> pre <> [] -> Forall entry_ok es -> stops tail ->
  header_spec strict data = Ok (hdr, r) -> h_journal_offset hdr = Z.of_nat (length pre) ->
  parse_string_table data hdr (spans_of data hdr) (pages_of data hdr) = Ok table ->
  (forall k, seeded !! k = resident data (spans_of data hdr) (pages_of data hdr) k) ->
  (forall k b, final !! k = Some b -> bytes_ok b /\ Forall value_ok (vals k) /\
     is_u64 (Z.of_nat (length (vals k))) /\ exists rest, b = record_bytes (vals k) ++ rest) ->
  exists db, open_db strict data = Ok db /\ string_table db = table /\ db_pages db = pages_of data hdr /\
    has_journal db = true /\
    db_committed_ops db = u32 (Z.of_nat (length (survivors false es))) /\
    db_rolled_back_ops db = u32 (rolled_back false es) /\
    forall k, db_records db !! k = (fun _ => map (field_of table) (vals k)) <$> final !! k.
Proof.
  intros data final Hd Hpre Hes Hst Hh Hoff Htab Hseed Hvals.
  destruct (open_after_header data Hd strict hdr r Hh) as (Hps & _ & _ & _ & ->).
  rewrite Htab. cbn [obind].
  assert (Htl : bytes_ok tail) by (unfold data in Hd; rewrite !bytes_ok_app in Hd; by destruct Hd as (_ & _ & ?)).
  destruct (replay_refines_spec pre es tail hdr (spans_of data hdr) (pages_of data hdr) table) as (seeded' & Hs' & E);
    try done.
  { by apply spans_of_ok. }
  { by apply pages_of_numbered. }
  { by rewrite (pages_spans_length data hdr). }
  assert (seeded' = seeded) as -> by (apply map_eq; intros k; by rewrite Hs', Hseed).
  fold data in E. fold final in E. rewrite E.
  destruct (decode_store final table (fun k => map (field_of table) (vals k))) as (recs & -> & Hrecs).
  { intros k b Hb. destruct (Hvals k b Hb) as (Hok & Hv & H64 & rest & ->). by apply decode_record_spec. }
  cbn [obind]. eexists. split; [reflexivity|]. done.
Qed.

Lemma open_committed_records_witness :
  exists db, open_db false store_file = Ok db /\
    string_table db = [[104; 105]; [65]] /\ db_committed_ops db = 1 /\ db_rolled_back_ops db = 1 /\
    db_records db !! (0, 0) = Some [ref_field 1 true [65]] /\
    db_records db !! (0, 1) = Some [ref_field 0 true [104; 105]; int_field (-1)].
Proof.
  destruct (open_committed_records false (store_header ++ store_pages) store_journal []
    (header_at store_file) (Rdr store_file 32) [[104; 105]; [65]] {[ (0, 0) := [1; 5; 1] ]}
    (fun k => if bool_decide (k = (0, 0)) then [VRef 1] else [VRef 0; VInt (-1)]))
    as (db & E & Et & _ & _ & Ec & Er & Hr).
  - by apply (bool_decide_unpack _); vm_compute.
  - discriminate.
  - let v := eval vm_compute in store_journal in change store_journal with v.
    repeat constructor; cbn; unfold is_u32, is_u16, is_u64, is_byte; lia.
  - exact I.
  - vm_compute. reflexivity.
  - vm_compute. reflexivity.
  - vm_compute. reflexivity.
  - destruct (seeded_store store_file (spans_of store_file (header_at store_file))
      (pages_of store_file (header_at store_file))) as (st & Est & Hst).
    + apply spans_of_ok. by vm_compute.
    + apply pages_of_numbered. by apply (bool_decide_unpack _); vm_compute.
    + by rewrite (pages_spans_length store_file).
    + assert (E : seed_from_pages store_file (spans_of store_file (header_at store_file))
        (pages_of store_file (header_at store_file)) ∅ = Ok {[ (0, 0) := [1; 5; 1] ]}) by (vm_compute; reflexivity).
      rewrite Est in E. injection E as <-. exact Hst.
  - intros k b Hk. change (foldl _ _ _) with (<[(0, 1) := record_bytes [VRef 0; VInt (-1)]]>
      ({[ (0, 0) := [1; 5; 1] ]} : RawStore)) in Hk.
    rewrite lookup_insert_Some, lookup_singleton_Some in Hk.
    destruct Hk as [[<- <-]|[_ [<- <-]]]; (split; [by apply (bool_decide_unpack _); vm_compute|]);
      (split; [match goal with |- Forall _ ?l => let v := eval vm_compute in l in change l with v end;
        rewrite ?Forall_cons, ?Forall_nil; cbn; unfold is_u64, is_i64; lia|]); (split; [by vm_compute|]);
      exists []; by vm_compute.
  - exists db. split; [exact E|]. split; [exact Et|]. split; [exact Ec|]. split; [exact Er|].
    split; rewrite Hr; vm_compute; reflexivity.
Defined.
