(* ===== verification/Btree.v ===== *)
(** * Btree: minidb index pages

    [src/minidb/btree.cpp]: the byte-string order on keys, decoding an INDEX page,
    binary-search lookup and range scans over its sorted entries. *)

From S2P Require Import Prelude Status ByteIO MiniPages MiniRecord.

(** ** Keys *)

(** The loop of [key_compare] over the common prefix, then the lengths. *)
Fixpoint key_compare (a b : bytes) : Z :=
  match a, b with
  | x :: a', y :: b' => if negb (x =? y) then (if x <? y then -1 else 1) else key_compare a' b'
  | [], [] => 0
  | [], _ :: _ => -1
  | _ :: _, [] => 1
  end.

Definition key_less (a b : bytes) : bool := key_compare a b <? 0.

Record IndexEntry := MkEntry { key : bytes; ie_page : Z; ie_slot : Z }.

Record IndexPage := MkIndex {
  page_index : Z;
  ix_truncated : bool;
  ix_entries : list IndexEntry;
}.

#[export] Instance IndexEntry_eq_dec : EqDecision IndexEntry.
Proof. solve_decision. Defined.

(** ** Lookup and range *)

(** [while (lo < hi)]; the interval shrinks at every turn. *)
Fixpoint lower_bound (turns : nat) (l : list IndexEntry) (k : bytes) (lo hi : Z) : outcome Z :=
  match turns with
  | O => NoFuel
  | S turns' =>
      if lo <? hi then
        let mid := lo + (hi - lo) / 2 in
        let? e := at_idx l (Z.to_nat mid) in
        if key_compare (key e) k <? 0 then lower_bound turns' l k (mid + 1) hi
        else lower_bound turns' l k lo mid
      else Ok lo
  end.

Definition lookup_entry (l : list IndexEntry) (k : bytes) : outcome (option IndexEntry) :=
  let? lo := lower_bound (S (length l)) l k 0 (Z.of_nat (length l)) in
  if lo <? Z.of_nat (length l) then
    let? e := at_idx l (Z.to_nat lo) in
    if key_compare (key e) k =? 0 then Ok (Some e) else Ok None
  else Ok None.

(** The scan of [range]: skip before the window, stop after it. *)
Fixpoint range_loop (l : list IndexEntry) (lo hi : bytes) (out : list IndexEntry) : list IndexEntry :=
  match l with
  | [] => out
  | e :: l' =>
      if key_compare (key e) lo <? 0 then range_loop l' lo hi out
      else if 0 <? key_compare (key e) hi then out
      else range_loop l' lo hi (out ++ [e])
  end.

Definition range_entries (l : list IndexEntry) (lo hi : bytes) : list IndexEntry :=
  if 0 <? key_compare lo hi then [] else range_loop l lo hi [].

(** ** Decoding *)

Definition read_index_entry : Rd IndexEntry :=
  let! bkey_len := read_varint in
  require bkey_len ;!
  let! k := read_string bkey_len in
  let! page := read_u32le in
  let! slot := read_u16le in
  rd_ret (MkEntry k page slot).

(** The entry loop inside the [try] block; the flag says an error ended it. *)
Fixpoint index_loop (turns : nat) (entry_count i : Z) (acc : list IndexEntry) (r : reader)
    : outcome (list IndexEntry * bool) :=
  match turns with
  | O => NoFuel
  | S turns' =>
      if i <? entry_count then
        match read_index_entry r with
        | Ok (e, r') => index_loop turns' entry_count (i + 1) (acc ++ [e]) r'
        | Throw _ => Ok (acc, true)
        | UB => UB
        | NoFuel => NoFuel
        end
      else Ok (acc, false)
  end.

Definition read_index (body : bytes) : outcome (list IndexEntry * bool) :=
  match read_varint (mk_reader body) with
  | Ok (entry_count, r) => index_loop (S (length body)) entry_count 0 [] r
  | Throw _ => Ok ([], true)
  | UB => UB
  | NoFuel => NoFuel
  end.

(** [std::stable_sort] by key. *)
Fixpoint insert_entry (e : IndexEntry) (l : list IndexEntry) : list IndexEntry :=
  match l with
  | [] => [e]
  | x :: l' => if key_less (key x) (key e) then x :: insert_entry e l' else e :: x :: l'
  end.
Definition stable_sort (l : list IndexEntry) : list IndexEntry := foldr insert_entry [] l.

Definition decode_index_page (page_bytes : bytes) (index : Z) : outcome IndexPage :=
  let page_len := Z.of_nat (length page_bytes) in
  if page_len <? kPageHeaderSize then Ok (MkIndex index true [])
  else
    let? b := at_idx page_bytes 0 in
    if negb (bool_decide (page_type_of b = kIndex)) then Ok (MkIndex index false [])
    else
      let? body := copy_range page_bytes (Z.to_nat kPageHeaderSize) (Z.to_nat (page_len - kPageHeaderSize)) in
      let? (es, cut) := read_index body in
      Ok (MkIndex index cut (stable_sort es)).

(** ** The key order *)

Lemma key_compare_range a b : key_compare a b = -1 \/ key_compare a b = 0 \/ key_compare a b = 1.
Proof.
  revert b. induction a as [|x a IH]; intros [|y b]; cbn [key_compare]; auto.
  repeat case_bool; auto.
Qed.

Lemma key_compare_eq a b : key_compare a b = 0 <-> a = b.
Proof.
  revert b. induction a as [|x a IH]; intros [|y b]; cbn [key_compare]; try done.
  destruct (Z.eqb_spec x y) as [->|Hne]; cbn [negb].
  - rewrite IH. naive_solver.
  - case_bool; split; intros; congruence.
Qed.

Lemma key_compare_swap a b : key_compare b a = - key_compare a b.
Proof.
  revert b. induction a as [|x a IH]; intros [|y b]; cbn [key_compare]; try done.
  destruct (Z.eqb_spec x y) as [->|Hne]; cbn [negb]; [rewrite Z.eqb_refl; apply IH|].
  rewrite (proj2 (Z.eqb_neq _ _)) by done. cbn [negb]. repeat case_bool; reflect_bools; lia.
Qed.

(** The order is the lexicographic one. *)
Definition bkey_le (a b : bytes) : Prop := key_compare a b <= 0.
#[export] Instance bkey_le_dec a b : Decision (bkey_le a b).
Proof. unfold bkey_le. apply _. Defined.

Lemma bkey_le_trans a b c : bkey_le a b -> bkey_le b c -> bkey_le a c.
Proof.
  unfold bkey_le. revert b c. induction a as [|x a IH]; intros [|y b] [|z c]; cbn [key_compare]; try lia.
  destruct (Z.eqb_spec x y) as [->|], (Z.eqb_spec y z) as [->|]; cbn [negb].
  - apply IH.
  - auto.
  - rewrite (proj2 (Z.eqb_neq _ _)) by done. cbn [negb]. auto.
  - repeat case_bool; reflect_bools; try lia.
    all: destruct (Z.eqb_spec x z); cbn [negb]; reflect_bools; try lia.
Qed.

Lemma bkey_le_total a b : bkey_le a b \/ bkey_le b a.
Proof. unfold bkey_le. pose proof (key_compare_swap a b). pose proof (key_compare_range a b). lia. Qed.

Lemma key_less_not_le a b : key_less a b = negb (bool_decide (bkey_le b a)).
Proof.
  unfold key_less. pose proof (key_compare_swap a b).
  destruct (Z.ltb_spec (key_compare a b) 0); case_bool_decide as Hle; unfold bkey_le in Hle; cbn; lia || done.
Qed.

(** ** Sorting *)

Definition entry_le (x y : IndexEntry) : Prop := bkey_le (key x) (key y).
#[export] Instance entry_le_trans : Transitive entry_le.
Proof. intros x y z. apply bkey_le_trans. Qed.

Lemma insert_entry_perm e l : insert_entry e l ≡ₚ e :: l.
Proof.
  induction l as [|x l IH]; cbn [insert_entry]; [done|]. case_bool; [|done].
  rewrite IH. apply Permutation_swap.
Qed.

Lemma stable_sort_perm l : stable_sort l ≡ₚ l.
Proof. induction l as [|e l IH]; [done|]. cbn. fold (stable_sort l). by rewrite insert_entry_perm, IH. Qed.

Lemma insert_entry_sorted e l : StronglySorted entry_le l -> StronglySorted entry_le (insert_entry e l).
Proof.
  induction 1 as [|x l Hs IH Hx]; cbn [insert_entry]; [repeat constructor|].
  destruct (key_less (key x) (key e)) eqn:E; rewrite key_less_not_le in E.
  - apply negb_true_iff, bool_decide_eq_false in E. constructor; [done|].
    rewrite insert_entry_perm. constructor; [|done]. by destruct (bkey_le_total (key x) (key e)).
  - apply negb_false_iff, bool_decide_eq_true in E. constructor; [by constructor|].
    constructor; [done|]. eapply Forall_impl; [exact Hx|]. intros y. by apply bkey_le_trans.
Qed.

Lemma stable_sort_sorted l : StronglySorted entry_le (stable_sort l).
Proof. induction l as [|e l IH]; [constructor|]. by apply insert_entry_sorted. Qed.

(** Entries with equal keys keep their order. *)
Definition with_key (k : bytes) (l : list IndexEntry) : list IndexEntry := filter (fun e => key e = k) l.

Lemma insert_entry_stable k e l : with_key k (insert_entry e l) = with_key k (e :: l).
Proof.
  unfold with_key. induction l as [|x l IH]; cbn [insert_entry]; [done|].
  destruct (key_less (key x) (key e)) eqn:E; [|done].
  rewrite filter_cons, IH, !filter_cons. unfold key_less in E. reflect_bools.
  repeat case_decide; try done. subst k. replace (key e) with (key x) in E.
  pose proof (proj2 (key_compare_eq (key x) (key x)) eq_refl). lia.
Qed.

Lemma stable_sort_stable k l : with_key k (stable_sort l) = with_key k l.
Proof.
  induction l as [|e l IH]; [done|]. change (stable_sort (e :: l)) with (insert_entry e (stable_sort l)).
  rewrite insert_entry_stable.
  unfold with_key in *. by rewrite !filter_cons, IH.
Qed.

(** ** Binary search *)

Lemma sorted_lookup_le l i j x y : StronglySorted entry_le l -> (i <= j)%nat ->
  l !! i = Some x -> l !! j = Some y -> entry_le x y.
Proof.
  intros Hs. revert i j. induction Hs as [|z l Hs IH Hz]; intros i j Hij Hi Hj; [done|].
  destruct i as [|i], j as [|j]; cbn in Hi, Hj; simplify_eq.
  - unfold entry_le, bkey_le. by rewrite (proj2 (key_compare_eq _ _) eq_refl).
  - rewrite Forall_lookup in Hz. by eapply Hz.
  - lia.
  - apply (IH i j); [lia|done..].
Qed.

Definition splits_at (l : list IndexEntry) (k : bytes) (p : Z) : Prop :=
  0 <= p <= Z.of_nat (length l) /\
  (forall i e, l !! i = Some e -> Z.of_nat i < p -> key_compare (key e) k < 0) /\
  (forall i e, l !! i = Some e -> p <= Z.of_nat i -> 0 <= key_compare (key e) k).

Lemma lower_bound_spec turns l k lo hi : StronglySorted entry_le l ->
  0 <= lo <= hi -> hi <= Z.of_nat (length l) -> hi - lo < Z.of_nat turns ->
  (forall i e, l !! i = Some e -> Z.of_nat i < lo -> key_compare (key e) k < 0) ->
  (forall i e, l !! i = Some e -> hi <= Z.of_nat i -> 0 <= key_compare (key e) k) ->
  ototal (lower_bound turns l k lo hi) (splits_at l k).
Proof.
  intros Hs. revert lo hi. induction turns as [|turns IH]; intros lo hi Hlo Hhi Ht Hl Hr; [lia|].
  cbn [lower_bound]. case_bool; reflect_bools; [|split; [lia|split; [done|intros; apply (Hr i e); [done|lia]]]].
  assert (Hm : lo <= lo + (hi - lo) / 2 < hi) by dlia. set (mid := lo + (hi - lo) / 2) in *.
  destruct (at_idx_ok l (Z.to_nat mid)) as (e & He & ->); [lia|]. cbn [obind].
  destruct (key_compare (key e) k <? 0) eqn:Ec; reflect_bools.
  - apply IH; [lia..| |done]. intros i x Hx Hi.
    assert (Hle : entry_le x e) by (eapply (sorted_lookup_le l i (Z.to_nat mid)); [done|lia|done..]).
    apply Z.nle_gt. intros Hge. assert (Hk : bkey_le k (key x)) by (unfold bkey_le; rewrite key_compare_swap; lia).
    pose proof (bkey_le_trans _ _ _ Hk Hle) as H. unfold bkey_le in H. rewrite key_compare_swap in H. lia.
  - apply IH; [lia..|done|]. intros i x Hx Hi.
    assert (Hle : entry_le e x) by (eapply (sorted_lookup_le l (Z.to_nat mid) i); [done|lia|done..]).
    assert (Hk : bkey_le k (key e)) by (unfold bkey_le; rewrite key_compare_swap; lia).
    pose proof (bkey_le_trans _ _ _ Hk Hle) as H. unfold bkey_le in H. rewrite key_compare_swap in H. lia.
Qed.

Lemma lookup_entry_spec l k : StronglySorted entry_le l -> lookup_entry l k = Ok (head (with_key k l)).
Proof.
  intros Hs. unfold lookup_entry.
  assert (H : ototal (lower_bound (S (length l)) l k 0 (Z.of_nat (length l))) (splits_at l k)).
  { apply lower_bound_spec; [done|lia..| |]; intros i e Hi; apply lookup_lt_Some in Hi; lia. }
  destruct (lower_bound _ _ _ _ _) as [p|e| |]; try done. cbn [obind].
  destruct H as (Hp & Hlt & Hge).
  set (n := Z.to_nat p). assert (Hsplit : with_key k l = with_key k (drop n l)).
  { rewrite <- (take_drop n l) at 1. unfold with_key. rewrite filter_app, (filter_none _ (take n l)); [done|].
    intros x Hx Hk. apply list_elem_of_lookup in Hx as (i & Hi). apply lookup_take_Some in Hi as [Hi Hn].
    specialize (Hlt i x Hi ltac:(lia)). apply key_compare_eq in Hk. lia. }
  rewrite Hsplit. destruct (Z.ltb_spec p (Z.of_nat (length l))) as [Hin|Hout].
  - destruct (at_idx_ok l n) as (e & He & ->); [lia|]. cbn [obind]. rewrite (drop_S _ _ _ He).
    unfold with_key. rewrite filter_cons. destruct (Z.eqb_spec (key_compare (key e) k) 0) as [Hk|Hk].
    + rewrite decide_True by (by apply key_compare_eq). done.
    + rewrite decide_False by (by rewrite <- key_compare_eq). rewrite filter_none; [done|].
      intros x Hx Hkx. apply list_elem_of_lookup in Hx as (i & Hi). rewrite lookup_drop in Hi.
      assert (Hle : entry_le e x) by (eapply (sorted_lookup_le l n (S n + i)); [done|lia|done..]).
      specialize (Hge n e He ltac:(lia)). unfold entry_le, bkey_le in Hle. rewrite Hkx in Hle. lia.
  - rewrite drop_ge by lia. done.
Qed.

(** ** Ranges *)

Lemma sorted_filter (P : IndexEntry -> Prop) `{!forall x, Decision (P x)} l :
  StronglySorted entry_le l -> StronglySorted entry_le (filter P l).
Proof.
  induction 1 as [|x l Hs IH Hx]; [constructor|]. rewrite filter_cons. case_decide; [|done].
  constructor; [done|]. apply Forall_forall. intros y [_ Hy]%list_elem_of_filter.
  rewrite Forall_forall in Hx. by apply Hx.
Qed.

Definition in_window (lo hi : bytes) (e : IndexEntry) : Prop := bkey_le lo (key e) /\ bkey_le (key e) hi.
#[export] Instance in_window_dec lo hi e : Decision (in_window lo hi e).
Proof. unfold in_window. apply _. Defined.

Lemma range_loop_spec l lo hi out : StronglySorted entry_le l ->
  range_loop l lo hi out = out ++ filter (in_window lo hi) l.
Proof.
  intros Hs. revert out. induction Hs as [|e l Hs IH He]; intros out; cbn [range_loop]; [by rewrite app_nil_r|].
  rewrite filter_cons. destruct (Z.ltb_spec (key_compare (key e) lo) 0) as [H1|H1].
  { rewrite decide_False; [apply IH|]. intros [H _]. unfold bkey_le in H. rewrite key_compare_swap in H. lia. }
  destruct (Z.ltb_spec 0 (key_compare (key e) hi)) as [H2|H2].
  { rewrite decide_False by (intros [_ H]; unfold bkey_le in H; lia). rewrite filter_none; [by rewrite app_nil_r|].
    intros x Hx [_ H]. rewrite Forall_forall in He. pose proof (bkey_le_trans _ _ _ (He x Hx) H) as H'.
    unfold bkey_le in H'. lia. }
  rewrite decide_True.
  - by rewrite IH, <- app_assoc.
  - split; unfold bkey_le; [rewrite key_compare_swap; lia|lia].
Qed.

Lemma range_entries_spec l lo hi : StronglySorted entry_le l ->
  range_entries l lo hi = filter (in_window lo hi) l.
Proof.
  intros Hs. unfold range_entries. destruct (Z.ltb_spec 0 (key_compare lo hi)) as [H|H].
  - symmetry. apply filter_none. intros x _ [H1 H2]. pose proof (bkey_le_trans _ _ _ H1 H2) as H'.
    unfold bkey_le in H'. lia.
  - by apply range_loop_spec.
Qed.

(** ** Decoding *)

Definition entry_fits (e : IndexEntry) : Prop :=
  bytes_ok (key e) /\ is_u64 (Z.of_nat (length (key e))) /\ is_u32 (ie_page e) /\ is_u16 (ie_slot e).

Definition index_entry_bytes (e : IndexEntry) : bytes :=
  lenprefixed (key e) ++ le_bytes 4 (ie_page e) ++ le_bytes 2 (ie_slot e).

Definition read_index_entry' : Rd IndexEntry :=
  let! k := read_lenprefixed in let! p := read_u32le in let! s := read_u16le in rd_ret (MkEntry k p s).

Lemma read_index_entry_fold r : read_index_entry r = read_index_entry' r.
Proof.
  unfold read_index_entry, read_index_entry', read_lenprefixed, rd_bind.
  destruct (read_varint r) as [[n r1]|e| |]; try done. cbn [obind].
  destruct (require n r1) as [[[] r2]|e| |]; try done.
Qed.

Lemma parses_index_entry e : entry_fits e -> parses read_index_entry' (index_entry_bytes e) e.
Proof.
  destruct e as [k p s]. intros (Hk & Hl & Hp & Hs). unfold read_index_entry', index_entry_bytes. cbn [key ie_page ie_slot] in *.
  eapply parses_bind; [by apply parses_lenprefixed|].
  eapply parses_bind; [by apply parses_u32le|]. eapply parses_bind_nil; [by apply parses_u16le|apply parses_ret].
Qed.

Lemma triple_index_entry : triple 1 read_index_entry' (fun e => bytes_ok (key e) /\ is_u32 (ie_page e) /\ is_u16 (ie_slot e)).
Proof.
  unfold read_index_entry'. eapply triple_first; [apply triple_lenprefixed|]. intros k Hk.
  eapply triple_step; [apply triple_u32le|]. intros p Hp. eapply triple_step; [apply triple_u16le|]. intros s Hs.
  by apply triple_ret.
Qed.

Lemma index_entry_bytes_ok e : entry_fits e -> bytes_ok (index_entry_bytes e).
Proof.
  intros (Hk & Hl & _ & _). unfold index_entry_bytes, lenprefixed. rewrite !bytes_ok_app.
  pose proof (varint_bytes_ok _ Hl). auto using le_bytes_ok.
Qed.

Definition cut_ok (es : list IndexEntry * bool) : Prop :=
  Forall (fun e => bytes_ok (key e) /\ is_u32 (ie_page e) /\ is_u16 (ie_slot e)) es.1.

Lemma index_loop_safe turns n i acc r : rd_ok r -> (rd_left r < turns)%nat -> cut_ok (acc, false) ->
  ototal (index_loop turns n i acc r) cut_ok.
Proof.
  revert i acc r. induction turns as [|turns IH]; intros i acc r Hr Ht Hacc; [lia|].
  cbn [index_loop]. case_bool; [|done]. rewrite read_index_entry_fold. pose proof (triple_index_entry r Hr) as H.
  destruct (read_index_entry' r) as [[e r']|e| |]; [|done|destruct H..].
  destruct H as [Hadv He]. pose proof (advances_left 1 r r' Hr Hadv). apply IH; [apply Hadv|lia|].
  unfold cut_ok in *. cbn [fst] in *. apply Forall_app. split; [done|by constructor].
Qed.

Lemma decode_index_safe page_bytes index : bytes_ok page_bytes ->
  ototal (decode_index_page page_bytes index) (fun ip =>
    page_index ip = index /\ StronglySorted entry_le (ix_entries ip) /\ cut_ok (ix_entries ip, ix_truncated ip)).
Proof.
  intros Hb. unfold decode_index_page. unfold kPageHeaderSize.
  assert (Hnil : forall c, cut_ok ([], c)) by constructor.
  destruct (Z.ltb_spec (Z.of_nat (length page_bytes)) 8).
  { split; [done|]. split; [constructor|apply Hnil]. }
  destruct (at_idx_ok page_bytes 0) as (b & _ & ->); [lia|]. cbn [obind]. case_bool.
  { split; [done|]. split; [constructor|apply Hnil]. }
  unfold copy_range. rewrite (proj2 (Nat.leb_le _ _)) by lia. cbn [obind].
  set (body := take _ _). assert (Hbody : bytes_ok body) by (unfold body; auto with bw).
  assert (Hri : ototal (read_index body) cut_ok).
  { unfold read_index. pose proof (triple_varint (mk_reader body) (rd_ok_mk body Hbody)) as Hv.
    destruct (read_varint _) as [[n r]|e| |]; [|constructor|destruct Hv..]. destruct Hv as [Hadv _].
    pose proof (advances_left 1 _ _ (rd_ok_mk body Hbody) Hadv) as Hl. unfold rd_left at 2 in Hl. simpl in Hl.
    apply index_loop_safe; [apply Hadv|lia|constructor]. }
  destruct (read_index body) as [[es c]|e| |]; try done. cbn [obind ototal page_index ix_entries ix_truncated].
  split; [done|]. split; [apply stable_sort_sorted|]. unfold cut_ok in *. cbn [fst] in *. by rewrite stable_sort_perm.
Qed.

Lemma index_loop_all turns es n i acc pre rest :
  Forall entry_fits es -> bytes_ok pre -> bytes_ok rest -> (length es < turns)%nat ->
  i + Z.of_nat (length es) = n \/ (i + Z.of_nat (length es) < n /\ rest = []) ->
  index_loop turns n i acc (Rdr (pre ++ concat (map index_entry_bytes es) ++ rest) (length pre)) =
    Ok (acc ++ es, negb (i + Z.of_nat (length es) =? n)).
Proof.
  intros Hes. revert turns i acc pre. induction Hes as [|e es He Hes IH]; intros turns i acc pre Hp Hr Ht Hn;
    (destruct turns as [|turns]; [simpl in Ht; lia|]); cbn [index_loop map concat length app] in *.
  - rewrite app_nil_r. destruct Hn as [Hn|[Hn ->]].
    + rewrite (proj2 (Z.ltb_ge _ _)), (proj2 (Z.eqb_eq _ _)) by lia. done.
    + rewrite (proj2 (Z.ltb_lt _ _)), (proj2 (Z.eqb_neq _ _)) by lia. rewrite app_nil_r.
      unfold read_index_entry, read_varint, rd_bind at 1 2, get_offset. cbn [obind varint_loop].
      unfold rd_bind at 1, read_u8, rd_bind at 1, require, rd_remaining, rd_size. cbn [rd_data rd_pos].
      rewrite (proj2 (Nat.leb_le _ _)), Nat.sub_diag by lia. done.
  - rewrite (proj2 (Z.ltb_lt _ _)) by lia. rewrite <- app_assoc.
    assert (Hcat : bytes_ok (concat (map index_entry_bytes es))).
    { clear -Hes. induction Hes as [|x l Hx Hl IH]; cbn [map concat]; [constructor|].
      apply bytes_ok_app. split; [by apply index_entry_bytes_ok|done]. }
    pose proof (index_entry_bytes_ok e He) as Hbe.
    rewrite read_index_entry_fold, (parses_index_entry e He pre) by (rewrite !bytes_ok_app; auto).
    rewrite (app_assoc pre), <- length_app. rewrite IH; [|by apply bytes_ok_app|done|lia|].
    + rewrite <- app_assoc. by replace (i + 1 + Z.of_nat (length es)) with (i + Z.of_nat (S (length es))) by lia.
    + destruct Hn as [?|[? ?]]; [left|right; split; [|done]]; lia.
Qed.

Definition index_page_bytes (header : bytes) (n : Z) (es : list IndexEntry) (rest : bytes) : bytes :=
  header ++ varint_bytes n ++ concat (map index_entry_bytes es) ++ rest.

Lemma index_entries_length es : (length es <= length (concat (map index_entry_bytes es)))%nat.
Proof.
  induction es as [|e es IH]; [done|]. cbn [map concat length]. rewrite length_app.
  assert (1 <= length (index_entry_bytes e))%nat; [|lia].
  unfold index_entry_bytes. rewrite !length_app, !length_le_bytes. lia.
Qed.

Lemma decode_index_spec header n es rest index :
  bytes_ok header -> length header = 8%nat -> head header = Some 3 -> is_u64 n -> Forall entry_fits es ->
  bytes_ok rest -> n = Z.of_nat (length es) \/ (Z.of_nat (length es) < n /\ rest = []) ->
  decode_index_page (index_page_bytes header n es rest) index =
    Ok (MkIndex index (negb (Z.of_nat (length es) =? n)) (stable_sort es)).
Proof.
  intros Hh Hl Hty H64 Hes Hr Hn. unfold decode_index_page, index_page_bytes, kPageHeaderSize.
  set (body := varint_bytes n ++ concat (map index_entry_bytes es) ++ rest).
  rewrite length_app, Hl, (proj2 (Z.ltb_ge _ _)) by lia.
  destruct header as [|b header]; [done|]. injection Hty as ->. cbn [app at_idx lookup list_lookup obind].
  unfold at_idx. cbn [lookup list_lookup obind]. change (page_type_of 3) with kIndex.
  rewrite bool_decide_eq_true_2 by done. cbn [negb]. rewrite app_comm_cons.
  assert (Hcopy : copy_range ((3 :: header) ++ body) (Z.to_nat 8) (Z.to_nat (Z.of_nat (8 + length body) - 8)) = Ok body).
  { unfold copy_range. rewrite length_app, Hl, (proj2 (Nat.leb_le _ _)) by lia. f_equal.
    change (Z.to_nat 8) with 8%nat. rewrite <- Hl, drop_app_exact. apply take_ge. lia. }
  rewrite Hcopy. cbn [obind]. unfold read_index, mk_reader.
  assert (Hcat : bytes_ok (concat (map index_entry_bytes es))).
  { clear -Hes. induction Hes as [|x l Hx Hl IH]; cbn [map concat]; [constructor|].
    apply bytes_ok_app. split; [by apply index_entry_bytes_ok|done]. }
  pose proof (parses_varint n H64 [] (concat (map index_entry_bytes es) ++ rest)) as Hp. cbn [app length] in Hp.
  unfold body. rewrite Hp by (rewrite !bytes_ok_app; split; [by apply varint_bytes_ok|auto]). cbn [Nat.add].
  rewrite (index_loop_all _ es n 0 []); [done|done|by apply varint_bytes_ok|done| |].
  2: { destruct Hn as [?|[? ?]]; [left|right; split; [|done]]; lia. }
  rewrite !length_app. pose proof (index_entries_length es). lia.
Qed.

(** ** Claims *)

(** C20. Index pages: decoding never fails, whatever the page bytes, and its
    entries come out sorted, so a lookup or a range scan on them always answers.
    For a page that lists the entries [es] - all the declared ones, or the prefix
    that is present - [lookup] finds the entry written first among those with the
    key, or nothing, and [range] lists in key order exactly the written entries
    inside the bounds. *)
Theorem index_page_correct (page_bytes header : bytes) (index n : Z) (es : list IndexEntry) (rest : bytes) :
  bytes_ok page_bytes -> bytes_ok header -> length header = 8%nat -> head header = Some 3 -> is_u64 n ->
  Forall entry_fits es -> bytes_ok rest ->
  n = Z.of_nat (length es) \/ (Z.of_nat (length es) < n /\ rest = []) ->
  ototal (decode_index_page page_bytes index) (fun ip =>
    StronglySorted entry_le (ix_entries ip) /\
    forall k, ototal (lookup_entry (ix_entries ip) k) (fun _ => True)) /\
  exists ip, decode_index_page (index_page_bytes header n es rest) index = Ok ip /\
    ix_truncated ip = negb (Z.of_nat (length es) =? n) /\ ix_entries ip ≡ₚ es /\
    (forall k, lookup_entry (ix_entries ip) k = Ok (head (filter (fun e => key e = k) es))) /\
    forall lo hi,
      StronglySorted entry_le (range_entries (ix_entries ip) lo hi) /\
      range_entries (ix_entries ip) lo hi ≡ₚ filter (in_window lo hi) es.
Proof.
  intros Hpb Hh Hl Hty H64 Hes Hr Hn. split.
  - eapply ototal_mono; [by apply decode_index_safe|]. intros ip (_ & Hs & _). split; [done|].
    intros k. by rewrite lookup_entry_spec.
  - eexists. split; [by apply decode_index_spec|]. cbn [ix_truncated ix_entries]. split; [done|].
    split; [apply stable_sort_perm|]. split.
    + intros k. rewrite lookup_entry_spec by apply stable_sort_sorted. by rewrite stable_sort_stable.
    + intros lo hi. rewrite range_entries_spec by apply stable_sort_sorted. split.
      * apply sorted_filter, stable_sort_sorted.
      * by rewrite stable_sort_perm.
Qed.

Definition sample_index : list IndexEntry :=
  [MkEntry [98] 1 0; MkEntry [97; 0x80] 2 1; MkEntry [98] 3 2; MkEntry [97] 4 3].

Lemma index_page_correct_witness :
  exists ip, decode_index_page (index_page_bytes [3; 0; 0; 0; 0; 0; 255; 255] 9 sample_index []) 7 = Ok ip /\
    ix_truncated ip = true /\ lookup_entry (ix_entries ip) [98] = Ok (Some (MkEntry [98] 1 0)) /\
    map ie_page (range_entries (ix_entries ip) [97; 1] [99]) = [2; 1; 3].
Proof.
  destruct (index_page_correct [] [3; 0; 0; 0; 0; 0; 255; 255] 7 9 sample_index []) as (_ & ip & E & Et & _ & El & _).
  - constructor.
  - by apply (bool_decide_unpack _); vm_compute.
  - reflexivity.
  - reflexivity.
  - unfold is_u64. lia.
  - repeat constructor; cbn; unfold is_u64, is_u32, is_u16, is_byte; lia.
  - constructor.
  - right. split; [cbn; lia|reflexivity].
  - exists ip. split; [exact E|]. split; [exact Et|]. split; [rewrite El; reflexivity|].
    vm_compute in E. injection E as <-. vm_compute. reflexivity.
Defined.
