(* ===== verification/Overflow.v ===== *)
(** * Overflow: minidb overflow chains

    [src/minidb/overflow.cpp]: the walk along [overflow_next] from a starting page,
    guarded against cycles, long chains and large payloads, and the page spans
    re-derived from a decoded database. *)

From S2P Require Import Prelude Status ByteIO OrdMap MiniPages MiniRecord Journal MiniOpen.

Inductive OverflowStatus :=
  | kComplete | kCycle | kPageLimit | kLengthLimit | kDanglingPage | kBadStart.

#[export] Instance OverflowStatus_eq_dec : EqDecision OverflowStatus.
Proof. solve_decision. Defined.

Definition overflow_status_name (s : OverflowStatus) : string :=
  match s with
  | kComplete => "COMPLETE" | kCycle => "CYCLE" | kPageLimit => "PAGE_LIMIT"
  | kLengthLimit => "LENGTH_LIMIT" | kDanglingPage => "DANGLING_PAGE" | kBadStart => "BAD_START"
  end.

Record OverflowResult := MkOverflow { status : OverflowStatus; ov_bytes : bytes; visited : list Z }.
Record OverflowLimits := MkLimits { max_pages : Z; max_bytes : Z }.

Definition default_limits : OverflowLimits := MkLimits 1024 (16 * 1024 * 1024).

Definition out_of_array (pages : list Page) (spans : list PageSpan) (i : Z) : bool :=
  (Z.of_nat (length pages) <=? i) || (Z.of_nat (length spans) <=? i).

(** The payload range of one page, when it has one. The offsets of a span are the caller's,
    so the two sums wrap around at the width of [size_t]. *)
Definition payload_range (size : Z) (page : Page) (span : PageSpan) : option (Z * Z) :=
  let payload_end := if sp_length span <? free_start page then sp_length span else free_start page in
  if (kPageHeaderSize <? payload_end) && (kPageHeaderSize <? sp_length span) then
    let abs_start := u64 (file_offset span + kPageHeaderSize) in
    let abs_end := u64 (file_offset span + payload_end) in
    if (abs_start <? size) && (abs_end <=? size) && (abs_start <=? abs_end)
    then Some (abs_start, abs_end) else None
  else None.

(** [while (true)]: every turn visits a new page of the array, so one turn more
    than there are pages is enough. *)
Fixpoint walk (turns : nat) (data : bytes) (spans : list PageSpan) (pages : list Page)
    (limits : OverflowLimits) (seen : gset Z) (visited : list Z) (out : bytes) (current : Z)
    : outcome OverflowResult :=
  match turns with
  | O => NoFuel
  | S turns' =>
      if bool_decide (current ∈ seen) then Ok (MkOverflow kCycle out visited)
      else if max_pages limits <=? Z.of_nat (length visited) then Ok (MkOverflow kPageLimit out visited)
      else
        let seen := {[ current ]} ∪ seen in
        let visited := visited ++ [current] in
        let? page := at_idx pages (Z.to_nat current) in
        let? span := at_idx spans (Z.to_nat current) in
        let follow (out : bytes) :=
          let nxt := overflow_next page in
          if nxt =? kNoOverflow then Ok (MkOverflow kComplete out visited)
          else if out_of_array pages spans nxt then Ok (MkOverflow kDanglingPage out visited)
          else walk turns' data spans pages limits seen visited out nxt in
        match payload_range (Z.of_nat (length data)) page span with
        | Some (abs_start, abs_end) =>
            let add := abs_end - abs_start in
            if max_bytes limits <? u64 (Z.of_nat (length out) + add)
            then Ok (MkOverflow kLengthLimit out visited)
            else
              let? s := copy_range data (Z.to_nat abs_start) (Z.to_nat add) in
              follow (out ++ s)
        | None => follow out
        end
  end.

Definition reconstruct_spans (data : bytes) (spans : list PageSpan) (pages : list Page)
    (start_page : Z) (limits : OverflowLimits) : outcome OverflowResult :=
  if out_of_array pages spans start_page then Ok (MkOverflow kBadStart [] [])
  else walk (S (length pages)) data spans pages limits ∅ [] [] start_page.

Definition derive_spans (size : Z) (db : Database) : list PageSpan :=
  map (fun i =>
    let off := u64 (kHeaderSize + u64 (i * page_size db)) in
    if (size <=? off) || (page_size db =? 0) then MkSpan off 0
    else
      let avail := size - off in
      MkSpan off (if avail <? page_size db then avail else page_size db))
    (seqZ 0 (Z.of_nat (length (db_pages db)))).

Definition reconstruct_overflow (data : bytes) (db : Database) (start_page : Z) (limits : OverflowLimits)
    : outcome OverflowResult :=
  reconstruct_spans data (derive_spans (Z.of_nat (length data)) db) (db_pages db) start_page limits.

(** The overloads with the default limits. *)
Definition reconstruct_spans_default (data : bytes) (spans : list PageSpan) (db : Database) (start_page : Z)
    : outcome OverflowResult := reconstruct_spans data spans (db_pages db) start_page default_limits.
Definition reconstruct_overflow_default (data : bytes) (db : Database) (start_page : Z) : outcome OverflowResult :=
  reconstruct_overflow data db start_page default_limits.

(** ** Specification *)

Section chain.
Context (data : bytes) (spans : list PageSpan) (pages : list Page) (limits : OverflowLimits).

(** The payload of page [i]: from the end of its header to its watermark or to the end of
    its span, when the buffer has all of it. An offset in the last eight bytes of the address
    range wraps around to the front of the buffer. *)
Definition payload (i : Z) : bytes :=
  match pages !! Z.to_nat i, spans !! Z.to_nat i with
  | Some page, Some span =>
      let stop := Z.min (free_start page) (sp_length span) in
      let start := (file_offset span + kPageHeaderSize) mod 2 ^ 64 in
      let add := stop - kPageHeaderSize in
      if (0 <? add) && (start + add <=? Z.of_nat (length data))
      then take (Z.to_nat add) (drop (Z.to_nat start) data)
      else []
  | _, _ => []
  end.

Definition link (i : Z) : Z := match pages !! Z.to_nat i with Some p => overflow_next p | None => kNoOverflow end.

Definition in_array (i : Z) : Prop := 0 <= i /\ out_of_array pages spans i = false.

(** [vs] is a path from [start] along the links, inside the page array. *)
Fixpoint path (start : Z) (vs : list Z) : Prop :=
  match vs with
  | [] => True
  | v :: vs' =>
      v = start /\ in_array v /\
      match vs' with [] => True | _ => link v <> kNoOverflow /\ path (link v) vs' end
  end.

(** Where the path goes next. *)
Definition next_of (start : Z) (vs : list Z) : Z := match last vs with Some v => link v | None => start end.

(** The reason a walk gives for stopping, in terms of the path it took. *)
Definition stop_reason (start : Z) (vs : list Z) (s : OverflowStatus) : Prop :=
  let nxt := next_of start vs in
  match s with
  | kComplete => vs <> [] /\ nxt = kNoOverflow
  | kCycle => nxt ∈ vs
  | kPageLimit => Z.of_nat (length vs) = Z.max 0 (max_pages limits) /\ nxt ∉ vs /\ in_array nxt
  | kLengthLimit => vs <> [] /\ max_bytes limits < Z.of_nat (length (concat (map payload vs)))
  | kDanglingPage => vs <> [] /\ nxt <> kNoOverflow /\ out_of_array pages spans nxt = true
  | kBadStart => vs = [] /\ out_of_array pages spans start = true
  end.

(** What a walk collects: the payloads of its pages, the last one left out when the
    size limit stopped it. *)
Definition collected (vs : list Z) (s : OverflowStatus) : bytes :=
  concat (map payload (if bool_decide (s = kLengthLimit) then removelast vs else vs)).

Definition walk_ok (start : Z) (res : OverflowResult) : Prop :=
  path start (visited res) /\ NoDup (visited res) /\
  Z.of_nat (length (visited res)) <= Z.max 0 (max_pages limits) /\
  ov_bytes res = collected (visited res) (status res) /\
  Z.of_nat (length (ov_bytes res)) <= Z.max 0 (max_bytes limits) /\
  stop_reason start (visited res) (status res).
End chain.

(** ** The walk follows the specification *)

Section proofs.
Context (data : bytes) (spans : list PageSpan) (pages : list Page) (limits : OverflowLimits).
Context (Hdata : Z.of_nat (length data) < 2 ^ 64) (Hspans : Forall (fun s => is_u64 (file_offset s)) spans)
  (Hpages : Forall (fun p => is_u16 (free_start p) /\ is_u16 (overflow_next p)) pages).

Lemma in_array_get i : in_array spans pages i ->
  exists p s, at_idx pages (Z.to_nat i) = Ok p /\ at_idx spans (Z.to_nat i) = Ok s /\
    pages !! Z.to_nat i = Some p /\ spans !! Z.to_nat i = Some s /\ is_u64 (file_offset s) /\
    is_u16 (free_start p) /\ is_u16 (overflow_next p) /\
    (Z.to_nat i < length pages)%nat.
Proof.
  intros [Hi H]. unfold out_of_array in H. apply orb_false_elim in H as [H1 H2]. reflect_bools.
  destruct (at_idx_ok pages (Z.to_nat i)) as (p & Hp & Ep); [lia|].
  destruct (at_idx_ok spans (Z.to_nat i)) as (s & Hs & Es); [lia|].
  exists p, s. pose proof (Forall_lookup_1 _ _ _ _ Hspans Hs). destruct (Forall_lookup_1 _ _ _ _ Hpages Hp).
  repeat (split; [by auto|]). lia.
Qed.

(** The wrapped ends of a payload, in a buffer that fits the address range. *)
Lemma wrapped_range o add len : is_u64 o -> 0 < add < 2 ^ 16 -> len < 2 ^ 64 ->
  let a := u64 (o + 8) in let e := u64 (o + (8 + add)) in
  (a <? len) && (e <=? len) && (a <=? e) = (a + add <=? len) /\ (a + add <= len -> e = a + add).
Proof.
  intros Ho Ha Hlen a e. assert (Hs : is_u64 a) by apply u64_range. assert (He : is_u64 e) by apply u64_range.
  assert (E : e = a + add \/ e = a + add - 2 ^ 64).
  { unfold e. replace (o + (8 + add)) with (o + 8 + add) by lia. unfold u64. rewrite <- Zplus_mod_idemp_l. fold (u64 (o + 8)). fold a.
    unfold is_u64 in Hs. destruct (Z.lt_ge_cases (a + add) (2 ^ 64)); [left; apply Z.mod_small; lia|right].
    symmetry. apply (Z.mod_unique_pos _ _ 1); lia. }
  unfold is_u64 in *. split; [|lia].
  by destruct (Z.ltb_spec a len), (Z.leb_spec e len), (Z.leb_spec a e), (Z.leb_spec (a + add) len); (done || lia).
Qed.

(** The clamped range of the code is the payload. *)
Lemma payload_range_spec i p s : pages !! Z.to_nat i = Some p -> spans !! Z.to_nat i = Some s ->
  is_u64 (file_offset s) -> is_u16 (free_start p) ->
  match payload_range (Z.of_nat (length data)) p s with
  | Some (a, e) => copy_range data (Z.to_nat a) (Z.to_nat (e - a)) = Ok (payload data spans pages i) /\
      e - a = Z.of_nat (length (payload data spans pages i))
  | None => payload data spans pages i = []
  end.
Proof.
  intros Hp Hs Ho Hf. unfold payload, payload_range. rewrite Hp, Hs. unfold kPageHeaderSize.
  replace (if sp_length s <? free_start p then sp_length s else free_start p) with (Z.min (free_start p) (sp_length s))
    by (case_bool; reflect_bools; lia).
  set (stop := Z.min _ _). change ((file_offset s + 8) mod 2 ^ 64) with (u64 (file_offset s + 8)).
  destruct (Z.ltb_spec 8 stop) as [H1|H1]; cbn [andb]; [|by rewrite (proj2 (Z.ltb_ge 0 _)) by lia].
  rewrite (proj2 (Z.ltb_lt 8 (sp_length s))), (proj2 (Z.ltb_lt 0 _)) by (unfold stop in *; lia). cbn [andb].
  destruct (wrapped_range (file_offset s) (stop - 8) (Z.of_nat (length data)) Ho) as [Eb Ee];
    [unfold is_u16, stop in *; lia|done|]. replace (8 + (stop - 8)) with stop in * by lia.
  rewrite Eb. pose proof (u64_range (file_offset s + 8)) as [H0 _].
  destruct (Z.leb_spec (u64 (file_offset s + 8) + (stop - 8)) (Z.of_nat (length data))) as [H2|H2]; [|done].
  rewrite (Ee H2). replace (_ + _ - _) with (stop - 8) by lia.
  unfold copy_range. rewrite (proj2 (Nat.leb_le _ _)) by lia. split; [done|].
  rewrite length_take, length_drop. lia.
Qed.

(** A payload is shorter than a page can be, and a path visits no more pages than links can
    name: the byte count of a walk stays far below the width of [size_t]. *)
Lemma length_payload i : (length (payload data spans pages i) <= Z.to_nat (2 ^ 16))%nat.
Proof.
  unfold payload. destruct (pages !! _) as [p|] eqn:Hp; [|simpl; lia]. destruct (spans !! _) as [s|]; [|simpl; lia].
  pose proof (Forall_lookup_1 _ _ _ _ Hpages Hp) as [Hf _]. cbv zeta. destruct (_ && _); [|simpl; lia].
  rewrite length_take. unfold is_u16, kPageHeaderSize in *. lia.
Qed.

Lemma link_range i : is_u16 (link pages i).
Proof.
  unfold link. destruct (pages !! _) as [p|] eqn:Hp; [|by split]. by apply (Forall_lookup_1 _ _ _ _ Hpages Hp).
Qed.

Lemma path_links start vs : path spans pages start vs -> vs ⊆ start :: seqZ 0 (2 ^ 16).
Proof.
  revert start. induction vs as [|v vs IH]; intros start; [intros _ x Hx; by apply elem_of_nil in Hx|]. intros (-> & _ & Hp).
  intros x [->|Hx]%elem_of_cons; [left|]. destruct vs as [|w vs]; [by apply elem_of_nil in Hx|].
  destruct Hp as [_ Hp]. specialize (IH _ Hp x Hx). apply elem_of_cons in IH as [->|IH]; right; [|done].
  apply elem_of_seqZ. pose proof (link_range start). unfold is_u16 in *. lia.
Qed.

Lemma walked_bytes start vs : path spans pages start vs -> NoDup vs ->
  Z.of_nat (length (concat (map (payload data spans pages) vs))) < 2 ^ 34.
Proof.
  intros Hp Hnd. pose proof (submseteq_length _ _ (NoDup_submseteq _ _ Hnd (path_links _ _ Hp))) as Hl.
  cbn [length] in Hl. rewrite length_seqZ in Hl.
  assert (H : forall l, (length (concat (map (payload data spans pages) l)) <= length l * Z.to_nat (2 ^ 16))%nat).
  { induction l as [|v l IH]; [simpl; lia|]. cbn [map concat length]. rewrite length_app.
    pose proof (length_payload v). lia. }
  specialize (H vs). apply Nat2Z.inj_le in H. rewrite Nat2Z.inj_mul, Z2Nat.id in H by lia. lia.
Qed.

Lemma path_snoc start vs : path spans pages start vs -> in_array spans pages (next_of pages start vs) ->
  (vs <> [] -> next_of pages start vs <> kNoOverflow) -> path spans pages start (vs ++ [next_of pages start vs]).
Proof.
  revert start. induction vs as [|v vs IH]; intros start Hp Hin Hn; [done|].
  destruct Hp as (-> & Hv & Hp). destruct vs as [|w vs].
  - cbn. split; [done|]. split; [done|]. split; [by apply Hn|done].
  - assert (E : next_of pages start (start :: w :: vs) = next_of pages (link pages start) (w :: vs)).
    { unfold next_of. rewrite last_cons_cons. destruct (last (w :: vs)) eqn:El; [done|]. by apply last_None in El. }
    rewrite E in *. destruct Hp as [Hl Hp]. change (path spans pages start (start :: (w :: vs) ++ [next_of pages (link pages start) (w :: vs)])).
    cbn [path app]. split; [done|]. split; [done|]. split; [done|]. apply (IH (link pages start)); [done|done|].
    intros _. by apply Hn.
Qed.

Lemma path_in_array start vs : path spans pages start vs -> Forall (in_array spans pages) vs.
Proof.
  revert start. induction vs as [|v vs IH]; intros start; [constructor|]. intros (_ & Hv & Hp). constructor; [done|].
  destruct vs as [|w vs]; [constructor|]. destruct Hp as [_ Hp]. by apply (IH (link pages v)).
Qed.

(** Distinct pages of the array are at most as many as the array has. *)
Lemma path_length start vs : path spans pages start vs -> NoDup vs -> (length vs <= length pages)%nat.
Proof.
  intros Hp Hnd. apply path_in_array in Hp.
  assert (Hsub : vs ⊆ seqZ 0 (Z.of_nat (length pages))).
  { intros v Hv. rewrite Forall_forall in Hp. destruct (in_array_get v (Hp v Hv)) as (? & ? & ? & ? & ? & ? & ? & ? & ? & Hl).
    destruct (Hp v Hv) as [Hv0 _]. apply elem_of_seqZ. lia. }
  pose proof (submseteq_length _ _ (NoDup_submseteq _ _ Hnd Hsub)) as H. rewrite length_seqZ in H. lia.
Qed.

Lemma next_snoc start vs v : next_of pages start (vs ++ [v]) = link pages v.
Proof. unfold next_of. by rewrite last_snoc. Qed.

Lemma concat_map_snoc {A} (f : A -> bytes) vs v : concat (map f (vs ++ [v])) = concat (map f vs) ++ f v.
Proof. rewrite map_app, concat_app. cbn [map concat]. by rewrite app_nil_r. Qed.

Lemma collected_snoc vs v s : s <> kLengthLimit ->
  collected data spans pages (vs ++ [v]) s = concat (map (payload data spans pages) vs) ++ payload data spans pages v.
Proof.
  intros Hs. unfold collected. rewrite bool_decide_eq_false_2 by done. by rewrite concat_map_snoc.
Qed.

(** Where the walk goes after a page: to the next one, or to one of its two stops. *)
Lemma walk_follow turns start vs v n :
  let vs' := vs ++ [v] in let out := concat (map (payload data spans pages) vs') in
  path spans pages start vs' -> NoDup vs' -> link pages v = n ->
  Z.of_nat (length vs') <= Z.max 0 (max_pages limits) -> Z.of_nat (length out) <= Z.max 0 (max_bytes limits) ->
  (n <> kNoOverflow -> out_of_array pages spans n = false ->
     ototal (walk turns data spans pages limits (list_to_set vs') vs' out n) (walk_ok data spans pages limits start)) ->
  ototal (if n =? kNoOverflow then Ok (MkOverflow kComplete out vs')
          else if out_of_array pages spans n then Ok (MkOverflow kDanglingPage out vs')
          else walk turns data spans pages limits (list_to_set vs') vs' out n) (walk_ok data spans pages limits start).
Proof.
  intros vs' out Hp Hnd Hl Hvl Hol Hrec. assert (Hne : vs' <> []) by (by destruct vs).
  assert (Hout : forall s, s <> kLengthLimit -> out = collected data spans pages vs' s).
  { intros s Hs. unfold collected. by rewrite bool_decide_eq_false_2 by done. }
  assert (Hnx : next_of pages start vs' = n) by by unfold vs'; rewrite next_snoc.
  destruct (Z.eqb_spec n kNoOverflow) as [He|He].
  { unfold walk_ok. cbn [visited ov_bytes status stop_reason ototal]. rewrite Hnx, <- Hout by done. auto 10. }
  destruct (out_of_array pages spans n) eqn:Eo; [|by apply Hrec].
  unfold walk_ok. cbn [visited ov_bytes status stop_reason ototal]. rewrite Hnx, <- Hout by done. auto 10.
Qed.

Lemma walk_spec turns start vs current :
  let seen := list_to_set vs : gset Z in
  let out := concat (map (payload data spans pages) vs) in
  path spans pages start vs -> NoDup vs -> current = next_of pages start vs ->
  (vs <> [] -> current <> kNoOverflow) -> in_array spans pages current ->
  Z.of_nat (length vs) <= Z.max 0 (max_pages limits) -> Z.of_nat (length out) <= Z.max 0 (max_bytes limits) ->
  (length pages < length vs + turns)%nat ->
  ototal (walk turns data spans pages limits seen vs out current) (walk_ok data spans pages limits start).
Proof.
  intros seen out Hp Hnd. revert vs seen out current Hp Hnd.
  induction turns as [|turns IH]; intros vs seen out current Hp Hnd Hcur Hlink Hin Hvl Hol Ht.
  { pose proof (path_length start vs Hp Hnd). lia. }
  assert (Hcol : forall s, s <> kLengthLimit -> out = collected data spans pages vs s).
  { intros s Hs. unfold collected. by rewrite bool_decide_eq_false_2 by done. }
  cbn [walk]. case_bool_decide as Hseen.
  { unfold seen in Hseen. apply elem_of_list_to_set in Hseen.
    unfold walk_ok. cbn [visited ov_bytes status stop_reason ototal]. rewrite <- Hcur. auto 10. }
  destruct (Z.leb_spec (max_pages limits) (Z.of_nat (length vs))) as [Hlim|Hlim].
  { unfold walk_ok. cbn [visited ov_bytes status stop_reason ototal]. rewrite <- Hcur.
    unfold seen in Hseen. rewrite elem_of_list_to_set in Hseen. split; [done|]. split; [done|]. split; [done|].
    split; [by apply Hcol|]. split; [done|]. split; [lia|done]. }
  unfold seen in Hseen. rewrite elem_of_list_to_set in Hseen.
  assert (Hp' : path spans pages start (vs ++ [current])) by (subst current; by apply path_snoc).
  assert (Hnd' : NoDup (vs ++ [current])).
  { apply NoDup_app. split; [done|]. split; [|apply NoDup_singleton]. intros x Hx Hc.
    apply list_elem_of_singleton in Hc as ->. done. }
  assert (Hvl' : Z.of_nat (length (vs ++ [current])) <= Z.max 0 (max_pages limits)) by (rewrite length_app; simpl; lia).
  destruct (in_array_get current Hin) as (p & s & -> & -> & Hpg & Hsp & Ho & Hfs & Hnx & _). cbn [obind].
  assert (Hl : link pages current = overflow_next p) by (unfold link; by rewrite Hpg).
  set (out' := out ++ payload data spans pages current).
  assert (Eout : out' = concat (map (payload data spans pages) (vs ++ [current]))) by (unfold out', out; by rewrite concat_map_snoc).
  assert (Es : {[current]} ∪ seen = list_to_set (vs ++ [current])) by (unfold seen; set_solver).
  rewrite Es. assert (Hfollow : Z.of_nat (length out') <= Z.max 0 (max_bytes limits) -> _) by
    (intros Hout; rewrite Eout in Hout; refine (walk_follow turns start vs current (overflow_next p) Hp' Hnd' Hl Hvl' Hout _);
     intros He Hin'; apply IH; [done|done|by rewrite next_snoc|done|by split; [apply Hnx|]|done|done|rewrite length_app; simpl; lia]).
  rewrite <- Eout in Hfollow.
  pose proof (walked_bytes start _ Hp' Hnd') as Hwb. rewrite <- Eout in Hwb. unfold out' in Hwb. rewrite length_app in Hwb.
  pose proof (payload_range_spec current p s Hpg Hsp Ho Hfs) as Hr.
  destruct (payload_range _ p s) as [[a e]|].
  - destruct Hr as [Hcopy Hadd]. rewrite Hcopy. cbn [obind].
    assert (Ew : u64 (Z.of_nat (length out) + (e - a)) = Z.of_nat (length out) + (e - a)) by (apply Z.mod_small; lia). rewrite Ew.
    destruct (Z.ltb_spec (max_bytes limits) (Z.of_nat (length out) + (e - a))) as [Hbig|Hok].
    + unfold walk_ok. cbn [visited ov_bytes status stop_reason ototal]. unfold collected.
      rewrite bool_decide_eq_true_2, removelast_last by done.
      split; [done|]. split; [done|]. split; [done|]. split; [done|]. split; [done|].
      split; [by destruct vs|]. rewrite concat_map_snoc, length_app. fold out. lia.
    + apply Hfollow. unfold out'. rewrite length_app. lia.
  - assert (Eo : out' = out) by (unfold out'; by rewrite Hr, app_nil_r).
    rewrite Eo in Hfollow. by apply Hfollow.
Qed.
End proofs.

(** ** Claims *)

(** C28. Overflow reconstruction always ends with a result, whatever the links and the
    caller's spans, at the widths of their fields (64-bit offsets, 16-bit watermarks and links,
    a buffer within the address range): the visited pages are a repetition-free path along
    [overflow_next] from the start, inside the page array and within the page limit; the bytes
    are exactly the concatenated payloads, within the byte limit, where the offset of a payload
    wraps around at 2^64 as the code's sum does; the status says truly why the walk stopped. *)
Theorem overflow_walk_correct (data : bytes) (spans : list PageSpan) (pages : list Page)
    (start_page : Z) (limits : OverflowLimits) :
  Z.of_nat (length data) < 2 ^ 64 -> Forall (fun s => is_u64 (file_offset s)) spans ->
  Forall (fun p => is_u16 (free_start p) /\ is_u16 (overflow_next p)) pages -> 0 <= start_page ->
  ototal (reconstruct_spans data spans pages start_page limits)
    (walk_ok data spans pages limits start_page).
Proof.
  intros Hd Hs Hp H0. unfold reconstruct_spans. destruct (out_of_array pages spans start_page) eqn:E.
  - unfold walk_ok. cbn [ototal visited ov_bytes status path collected stop_reason length].
    split; [done|]. split; [constructor|]. split; [lia|]. split; [done|]. split; [simpl; lia|done].
  - apply (walk_spec data spans pages limits Hd Hs Hp (S (length pages)) start_page []);
      [done|constructor|done|done|done|simpl; lia|simpl; lia|simpl; lia].
Qed.

Definition chain_pages : list Page :=
  [MkPage 0 kOverflow 0 0 10 2 false []; MkPage 1 kData 0 0 8 0xFFFF false [];
   MkPage 2 kOverflow 0 0 9 0 false []].
(** The third span begins below the buffer, six bytes before the address range wraps. *)
Definition chain_spans : list PageSpan := [MkSpan 0 10; MkSpan 10 10; MkSpan (2 ^ 64 - 6) 10].
Definition chain_data : bytes := seqZ 0 30.

Lemma overflow_walk_correct_witness :
  exists res, reconstruct_spans chain_data chain_spans chain_pages 0 default_limits = Ok res /\
    walk_ok chain_data chain_spans chain_pages default_limits 0 res /\
    res = MkOverflow kCycle [8; 9; 2] [0; 2].
Proof.
  assert (H : ototal (reconstruct_spans chain_data chain_spans chain_pages 0 default_limits)
    (walk_ok chain_data chain_spans chain_pages default_limits 0)).
  { apply overflow_walk_correct; [by vm_compute|repeat constructor; cbn; lia..|lia]. }
  assert (E : reconstruct_spans chain_data chain_spans chain_pages 0 default_limits =
    Ok (MkOverflow kCycle [8; 9; 2] [0; 2])) by (vm_compute; reflexivity).
  rewrite E in H. exists (MkOverflow kCycle [8; 9; 2] [0; 2]). split; [exact E|]. split; [exact H|reflexivity].
Defined.

(** The spans re-derived from an opened database are the ones the page walk of
    [open] recorded, so the two overloads agree. *)
Lemma derive_spans_agree strict data db hdr r : bytes_ok data -> Z.of_nat (length data) < 2 ^ 64 ->
  header_spec strict data = Ok (hdr, r) -> open_db strict data = Ok db ->
  derive_spans (Z.of_nat (length data)) db = spans_of data hdr.
Proof.
  intros Hd H64 Hh Hopen. destruct (open_after_header data Hd strict hdr r Hh) as (Hps & _ & _ & _ & E).
  rewrite E in Hopen. apply obind_ok_inv in Hopen as (table & _ & Hopen).
  apply obind_ok_inv in Hopen as (rp & _ & [= <-]). unfold derive_spans. cbn [page_size db_pages].
  unfold pages_of, spans_of. rewrite length_map. unfold ids. rewrite length_seqZ.
  set (n := pages_present _ _ _). assert (Hn : 0 <= n) by (unfold n, pages_present; lia).
  rewrite Z2Nat.id by done. apply list_fmap_ext. intros k i Hi. apply lookup_seqZ in Hi as [-> Hi].
  pose proof (pages_present_spec (file_size data) (h_page_size hdr) (h_page_count hdr) (0 + Z.of_nat k) Hps ltac:(lia)) as Hin.
  destruct (proj1 Hin ltac:(fold n; lia)) as [_ Hoff]. unfold span_at, page_avail, page_offset, file_size in *.
  assert (0 <= (0 + Z.of_nat k) * h_page_size hdr) by (apply Z.mul_nonneg_nonneg; lia).
  assert (Eo : u64 (kHeaderSize + u64 ((0 + Z.of_nat k) * h_page_size hdr)) = kHeaderSize + (0 + Z.of_nat k) * h_page_size hdr).
  { unfold u64, kHeaderSize in *. rewrite (Z.mod_small ((0 + _) * _)), Z.mod_small by lia. done. }
  rewrite Eo.
  rewrite (proj2 (Z.leb_gt _ _)), (proj2 (Z.eqb_neq _ 0)) by lia. cbn [orb]. f_equal.
  case_bool; reflect_bools; lia.
Qed.
