(* ===== verification/MiniViews.v ===== *)
(** * MiniViews: cursor and catalog over an opened store

    [src/minidb/cursor.cpp]: ordered iteration over the committed records.
    [src/minidb/catalog.cpp]: the roll-up of pages, slots and strings. *)

From S2P Require Import Prelude Status OrdMap MiniPages MiniRecord Journal MiniOpen.

(** ** Cursor *)

(** The iterator is the list of entries from the current one on; [end()] is []. *)
Record Cursor := MkCursor { it : list (RecordKey * Record_); started : bool }.

Definition cursor (db : Database) : Cursor := MkCursor [] false.

Definition at_end (l : list (RecordKey * Record_)) : bool := match l with [] => true | _ => false end.

Definition next (db : Database) (c : Cursor) : bool * Cursor :=
  if negb (started c) then
    let l := entries (db_records db) in (negb (at_end l), MkCursor l true)
  else
    match it c with
    | [] => (false, c)
    | _ :: l => (negb (at_end l), MkCursor l (started c))
    end.

Definition valid (c : Cursor) : bool := started c && negb (at_end (it c)).

Definition seek (db : Database) (page slot : Z) (c : Cursor) : bool * Cursor :=
  let l := entries_from (page, slot) (db_records db) in (negb (at_end l), MkCursor l true).

(** [key()], [record()]: dereferencing the end is undefined. *)
Definition cursor_key (c : Cursor) : outcome RecordKey :=
  match it c with [] => UB | kv :: _ => Ok kv.1 end.
Definition cursor_record (c : Cursor) : outcome Record_ :=
  match it c with [] => UB | kv :: _ => Ok kv.2 end.

Definition field (c : Cursor) (index : Z) : outcome (option Field) :=
  if negb (valid c) then Ok None
  else
    let? rec := cursor_record c in
    if Z.of_nat (length rec) <=? index then Ok None
    else let? f := at_idx rec (Z.to_nat index) in Ok (Some f).

(** Advancing until [next] answers false, collecting the records on the way:
    [while (c.next()) use(c.key(), c.record())]. *)
Fixpoint scan (turns : nat) (db : Database) (c : Cursor) : outcome (list (RecordKey * Record_)) :=
  match turns with
  | O => NoFuel
  | S turns' =>
      let '(more, c) := next db c in
      if more then
        let? k := cursor_key c in
        let? r := cursor_record c in
        let? l := scan turns' db c in
        Ok ((k, r) :: l)
      else Ok []
  end.

(** ** Catalog *)

Record PageStats := MkPageStats {
  ps_index : Z; ps_type : PageType; total_slots : Z; used_slots : Z; dead_slots : Z; ps_truncated : bool }.

Record StringStats := MkStringStats { ss_count : Z; total_bytes : Z; ss_max_bytes : Z; empty_count : Z }.

Record Catalog := MkCatalog {
  page_type_counts : list Z;
  total_pages : Z;
  total_live_records : Z;
  total_used_slots : Z;
  total_dead_slots : Z;
  cat_strings : StringStats;
  cat_pages : list PageStats;
}.

Definition page_type_code (t : PageType) : Z :=
  match t with kFree => 0 | kData => 1 | kStrings => 2 | kIndex => 3 | kOverflow => 4 | kOtherPage b => b end.

Definition kPageTypeSlots : nat := 5.

Definition count_of (cat : Catalog) (t : PageType) : outcome Z :=
  let idx := page_type_code t in
  if Z.of_nat (length (page_type_counts cat)) <=? idx then Ok 0
  else at_idx (page_type_counts cat) (Z.to_nat idx).

Definition slot_used (s : Slot) : bool := in_bounds s && (0 <? rec_length s).

(** The inner loop over the slots, with its two counters. *)
Definition page_stats (p : Page) : PageStats :=
  let '(used, dead) :=
    foldl (fun '(u, d) s => if slot_used s then (u + 1, d) else (u, d + 1)) (0, 0) (slots p) in
  MkPageStats (pg_index p) (pg_type p) (Z.of_nat (length (slots p))) used dead (truncated p).

Definition bump (counts : list Z) (t : PageType) : list Z :=
  let idx := page_type_code t in
  if idx <? Z.of_nat (length counts) then alter (fun n => n + 1) (Z.to_nat idx) counts else counts.

Definition string_stats (table : list bytes) : StringStats :=
  foldl (fun st s =>
    let n := Z.of_nat (length s) in
    MkStringStats (ss_count st) (total_bytes st + n) (if ss_max_bytes st <? n then n else ss_max_bytes st)
      (if n =? 0 then empty_count st + 1 else empty_count st))
    (MkStringStats (Z.of_nat (length table)) 0 0 0) table.

(** The pass over the pages. *)
Definition add_page (acc : list Z * Z * Z * list PageStats) (p : Page) : list Z * Z * Z * list PageStats :=
  let '(counts, used, dead, out) := acc in
  let ps := page_stats p in
  (bump counts (pg_type p), used + used_slots ps, dead + dead_slots ps, out ++ [ps]).

Definition build_catalog (db : Database) : Catalog :=
  let '(counts, used, dead, out) := foldl add_page (replicate kPageTypeSlots 0, 0, 0, []) (db_pages db) in
  MkCatalog counts (Z.of_nat (length (db_pages db))) (Z.of_nat (size (db_records db))) used dead
    (string_stats (string_table db)) out.

(** ** The cursor visits the records in order *)

Lemma scan_from db l turns : (length l < turns)%nat ->
  forall kv, scan turns db (MkCursor (kv :: l) true) = Ok l.
Proof.
  revert turns. induction l as [|kv l IH]; intros turns Ht kv'; (destruct turns as [|turns]; [simpl in Ht; lia|]);
    cbn [scan next started it negb at_end]; [done|].
  cbn [cursor_key cursor_record it obind]. rewrite IH by (simpl in Ht; lia). by destruct kv.
Qed.

Lemma scan_fresh db turns : (length (entries (db_records db)) < turns)%nat ->
  scan turns db (cursor db) = Ok (entries (db_records db)).
Proof.
  intros Ht. destruct turns as [|turns]; [lia|]. cbn [scan next cursor started negb].
  destruct (entries (db_records db)) as [|kv l] eqn:E; [done|]. cbn [at_end negb].
  cbn [cursor_key cursor_record it obind]. rewrite scan_from by (simpl in Ht; lia). by destruct kv.
Qed.

(** ** Counting *)

Lemma slot_counts l u d :
  foldl (fun '(u, d) s => if slot_used s then (u + 1, d) else (u, d + 1)) (u, d) l =
  (u + Z.of_nat (length (filter (fun s => slot_used s = true) l)),
   d + Z.of_nat (length (filter (fun s => slot_used s = false) l))).
Proof.
  revert u d. induction l as [|s l IH]; intros u d; cbn [foldl]; [rewrite !filter_nil; f_equal; simpl; lia|].
  rewrite !filter_cons. destruct (slot_used s); rewrite IH; cbn [decide]; repeat case_decide; try done;
    cbn [length]; f_equal; lia.
Qed.

Definition sum_of {A} (f : A -> Z) (l : list A) : Z := fold_right (fun a n => f a + n) 0 l.

Lemma sum_of_cons {A} (f : A -> Z) a l : sum_of f (a :: l) = f a + sum_of f l.
Proof. done. Qed.
Lemma sum_of_app {A} (f : A -> Z) l k : sum_of f (l ++ k) = sum_of f l + sum_of f k.
Proof. induction l as [|a l IH]; [done|]. cbn. fold (sum_of f (l ++ k)) (sum_of f l). lia. Qed.

(** How many pages have the type with code [t]. *)
Definition typed (t : nat) (l : list Page) : Z :=
  sum_of (fun p => if page_type_code (pg_type p) =? Z.of_nat t then 1 else 0) l.

Lemma catalog_pass l counts used dead out :
  Forall (fun p => 0 <= page_type_code (pg_type p)) l ->
  exists counts', foldl add_page (counts, used, dead, out) l =
    (counts', used + sum_of (fun p => used_slots (page_stats p)) l,
     dead + sum_of (fun p => dead_slots (page_stats p)) l, out ++ map page_stats l) /\
  length counts' = length counts /\
  forall t n, counts !! t = Some n -> counts' !! t = Some (n + typed t l).
Proof.
  intros Hl. revert counts used dead out. induction Hl as [|p l Hp Hl IH]; intros counts used dead out.
  { exists counts. cbn. rewrite app_nil_r, !Z.add_0_r. split; [done|]. split; [done|]. intros t n. by rewrite Z.add_0_r. }
  cbn [foldl add_page map]. destruct (IH (bump counts (pg_type p)) (used + used_slots (page_stats p))
    (dead + dead_slots (page_stats p)) (out ++ [page_stats p])) as (counts' & E & Hlen & H).
  exists counts'. rewrite E. split; [|split].
  - by rewrite <- app_assoc, !sum_of_cons, !Z.add_assoc.
  - rewrite Hlen. unfold bump. case_bool; [|done]. apply length_alter.
  - intros t n Ht. assert (Hb : bump counts (pg_type p) !! t =
      Some (n + if page_type_code (pg_type p) =? Z.of_nat t then 1 else 0)).
    { unfold bump. pose proof (lookup_lt_Some _ _ _ Ht). destruct (Z.eqb_spec (page_type_code (pg_type p)) (Z.of_nat t)) as [Eq|Ne].
      - rewrite (proj2 (Z.ltb_lt _ _)) by lia. rewrite Eq, Nat2Z.id, list_lookup_alter_eq, Ht. done.
      - rewrite Z.add_0_r. case_bool; [|done]. by rewrite list_lookup_alter_ne by lia. }
    rewrite (H t _ Hb). unfold typed. by rewrite sum_of_cons, Z.add_assoc.
Qed.

(** ** Seeking *)

Lemma entries_from_head (m : gmap RecordKey Record_) k0 :
  match entries_from k0 m with
  | [] => forall k r, m !! k = Some r -> ~ key_le k0 k
  | (k, r) :: _ => m !! k = Some r /\ key_le k0 k /\
      forall k' r', m !! k' = Some r' -> key_le k0 k' -> key_le k k'
  end.
Proof.
  unfold entries_from. pose proof (entries_sorted m) as Hs. pose proof (fun k v => elem_of_entries m k v) as He.
  assert (Hin : forall k r, (k, r) ∈ filter (fun kv => key_le k0 kv.1) (entries m) <-> m !! k = Some r /\ key_le k0 k).
  { intros k r. rewrite list_elem_of_filter, He. cbn. tauto. }
  assert (Hsf : StronglySorted kv_le (filter (fun kv => key_le k0 kv.1) (entries m))).
  { clear He Hin. induction Hs as [|x l Hs IH Hx]; [constructor|]. rewrite filter_cons. case_decide; [|done].
    constructor; [done|]. apply Forall_forall. intros y [_ Hy]%list_elem_of_filter. rewrite Forall_forall in Hx.
    by apply Hx. }
  destruct (filter _ (entries m)) as [|[k r] l].
  - intros k r Hk Hle. by apply (not_elem_of_nil (k, r)), Hin.
  - destruct (proj1 (Hin k r) ltac:(left)) as [Hk Hle]. split; [done|]. split; [done|].
    intros k' r' Hk' Hle'. assert (H : (k', r') ∈ (k, r) :: l) by (by apply Hin).
    apply elem_of_cons in H as [[= -> ->]|H]; [apply key_le_refl|].
    apply StronglySorted_inv in Hsf as [_ HF]. rewrite Forall_forall in HF. apply (HF _ H).
Qed.

(** ** Claims *)

(** C38. A fresh cursor is not valid, and advancing it until it answers false
    visits every committed record exactly once, in ascending (page, slot) order;
    [seek] lands on the record with the smallest key at or above the target, and
    answers false exactly when there is none; [field] is the field at the index of
    the current record, or null outside it. *)
Theorem cursor_correct (db : Database) (page slot index : Z) (turns : nat) :
  0 <= index -> (size (db_records db) < turns)%nat ->
  valid (cursor db) = false /\ field (cursor db) index = Ok None /\
  (exists l, scan turns db (cursor db) = Ok l /\ StronglySorted kv_le l /\ NoDup l.*1 /\
     forall k r, (k, r) ∈ l <-> db_records db !! k = Some r) /\
  forall c0,
    let '(found, c) := seek db page slot c0 in
    valid c = found /\
    if found
    then exists k r, cursor_key c = Ok k /\ cursor_record c = Ok r /\ db_records db !! k = Some r /\
      key_le (page, slot) k /\
      (forall k' r', db_records db !! k' = Some r' -> key_le (page, slot) k' -> key_le k k') /\
      field c index = Ok (r !! Z.to_nat index)
    else forall k r, db_records db !! k = Some r -> ~ key_le (page, slot) k.
Proof.
  intros Hi Ht. split; [done|]. split; [done|]. split.
  { exists (entries (db_records db)). split; [apply scan_fresh; by rewrite length_entries|].
    split; [apply entries_sorted|]. split; [apply NoDup_entries_fst|apply elem_of_entries]. }
  intros c0. unfold seek. pose proof (entries_from_head (db_records db) (page, slot)) as H.
  destruct (entries_from (page, slot) (db_records db)) as [|[k r] l]; [by split|].
  split; [done|]. cbn [negb at_end]. exists k, r. destruct H as (H1 & H2 & H3).
  split; [done|]. split; [done|]. split; [done|]. split; [done|]. split; [done|].
  unfold field, valid, cursor_record. cbn [started it at_end negb andb obind snd].
  destruct (Z.leb_spec (Z.of_nat (length r)) index) as [Hl|Hl].
  - by rewrite lookup_ge_None_2 by lia.
  - destruct (at_idx_ok r (Z.to_nat index)) as (f & -> & ->); [lia|done].
Qed.

Definition sample_db : Database :=
  MkDatabase 1 64 2 0 0 0 0 true false [[65]] [MkPage 0 kData 0 2 0 0xFFFF false [MkSlot 12 3 true; MkSlot 0 0 false]] 0 0
    {[ (1, 0) := [int_field 5]; (0, 7) := [null_field]; (0, 2) := [] ]}.

Lemma cursor_correct_witness :
  (exists l, scan 4 sample_db (cursor sample_db) = Ok l /\ NoDup l.*1) /\
  let '(found, c) := seek sample_db 0 3 (cursor sample_db) in
  found = true /\ cursor_key c = Ok (0, 7) /\ field c 0 = Ok (Some null_field).
Proof.
  assert (H0 : 0 <= 0) by lia. assert (Hs : (size (db_records sample_db) < 4)%nat) by (vm_compute; lia).
  destruct (cursor_correct sample_db 0 3 0 4 H0 Hs) as (_ & _ & (l & E & _ & Hn & _) & _).
  split; [exists l; split; [exact E|exact Hn]|]. vm_compute. auto.
Defined.

(** The catalog of any database: the histogram counts the pages of each known
    type and [count_of] is zero for any other, every slot is counted once as used
    (in bounds and not empty) or dead, and the totals are the sums over the pages,
    which are listed in order. *)
Theorem catalog_counts (db : Database) (t : PageType) :
  Forall (fun p => 0 <= page_type_code (pg_type p)) (db_pages db) -> 0 <= page_type_code t ->
  let cat := build_catalog db in
  total_pages cat = Z.of_nat (length (db_pages db)) /\
  total_live_records cat = Z.of_nat (size (db_records db)) /\
  count_of cat t = Ok (if page_type_code t <? 5 then typed (Z.to_nat (page_type_code t)) (db_pages db) else 0) /\
  cat_pages cat = map page_stats (db_pages db) /\
  total_used_slots cat =
    sum_of (fun p => Z.of_nat (length (filter (fun s => slot_used s = true) (slots p)))) (db_pages db) /\
  total_used_slots cat + total_dead_slots cat = sum_of (fun p => Z.of_nat (length (slots p))) (db_pages db).
Proof.
  intros Hp H0. unfold build_catalog.
  destruct (catalog_pass (db_pages db) (replicate kPageTypeSlots 0) 0 0 [] Hp) as (counts & -> & Hlen & Hc).
  cbn [total_pages total_live_records count_of cat_pages total_used_slots total_dead_slots page_type_counts app].
  split; [done|]. split; [done|]. rewrite length_replicate in Hlen. split; [|split; [done|]].
  - unfold count_of. cbn [page_type_counts]. rewrite Hlen. unfold kPageTypeSlots in *.
    destruct (Z.ltb_spec (page_type_code t) 5).
    + rewrite (proj2 (Z.leb_gt _ _)) by lia. unfold at_idx. rewrite (Hc _ 0); [done|].
      apply lookup_replicate_2. lia.
    + by rewrite (proj2 (Z.leb_le _ _)) by lia.
  - assert (Hps : forall p, used_slots (page_stats p) = Z.of_nat (length (filter (fun s => slot_used s = true) (slots p))) /\
      dead_slots (page_stats p) = Z.of_nat (length (filter (fun s => slot_used s = false) (slots p)))).
    { intros p. unfold page_stats. by rewrite slot_counts. }
    assert (Hall : forall s, Z.of_nat (length (filter (fun s => slot_used s = true) s)) +
      Z.of_nat (length (filter (fun s => slot_used s = false) s)) = Z.of_nat (length s)).
    { clear. intros l. induction l as [|s l IH]; [done|]. rewrite !filter_cons.
      destruct (slot_used s); cbn [decide]; repeat case_decide; try done; cbn [length]; lia. }
    rewrite !Z.add_0_l. clear -Hps Hall. induction (db_pages db) as [|p l [IH1 IH2]]; [done|]. rewrite !sum_of_cons, IH1.
    pose proof (Hps p) as [Hu Hd]. specialize (Hall (slots p)). split; lia.
Qed.

Lemma catalog_counts_witness :
  count_of (build_catalog sample_db) kData = Ok 1 /\ total_used_slots (build_catalog sample_db) = 1 /\
  total_used_slots (build_catalog sample_db) + total_dead_slots (build_catalog sample_db) = 2.
Proof.
  destruct (catalog_counts sample_db kData) as (_ & _ & Hc & _ & Hu & Ht).
  - repeat constructor. cbn. lia.
  - cbn. lia.
  - split; [exact Hc|]. split; [exact Hu|exact Ht].
Defined.
