(* ===== verification/BinRecord.v ===== *)
(** * BinRecord: binpack records

    [include/binpack/model.hpp] (Record), [src/binpack/record_parser.cpp] and the
    record half of [src/binpack/builder.cpp]: the recursive record grammar, its
    decoder with a depth budget, and its encoder. *)

From S2P Require Import Prelude Status ByteIO.

Inductive RecordTag := kInt | kUint | kFloat | kString | kBlob | kArray | kGroup | kKeyval.

#[export] Instance RecordTag_eq_dec : EqDecision RecordTag.
Proof. solve_decision. Defined.

Definition tag_name (t : RecordTag) : string :=
  match t with
  | kInt => "INT" | kUint => "UINT" | kFloat => "FLOAT" | kString => "STRING"
  | kBlob => "BLOB" | kArray => "ARRAY" | kGroup => "GROUP" | kKeyval => "KEYVAL"
  end.

(** A decoded record; a [double] is its 64 bits. *)
Inductive BRecord := MkRec {
  r_tag : RecordTag;
  r_group : bool;
  r_i64 : Z;
  r_u64 : Z;
  r_f64 : Z;
  r_str : bytes;
  r_blob : bytes;
  r_children : list BRecord;
  r_key : bytes;
}.

Definition scalar_rec (t : RecordTag) (g : bool) (i u f : Z) (s b : bytes) : BRecord :=
  MkRec t g i u f s b [] [].
Definition nested_rec (t : RecordTag) (g : bool) (children : list BRecord) (k : bytes) : BRecord :=
  MkRec t g 0 0 0 [] [] children k.

(** ** The decoder *)

Definition tag_of (b : Z) : option RecordTag :=
  match b with
  | 1 => Some kInt | 2 => Some kUint | 3 => Some kFloat | 4 => Some kString
  | 5 => Some kBlob | 6 => Some kArray | 7 => Some kGroup | 8 => Some kKeyval
  | _ => None
  end.

(** [while (!r.eof())]; a record takes at least its tag byte. *)
Fixpoint stream_loop (turns : nat) (parse_one : Rd BRecord) (out : list BRecord) : Rd (list BRecord) :=
  match turns with
  | O => fun _ => NoFuel
  | S turns' =>
      let! done := get_eof in
      if (done : bool) then rd_ret out
      else let! rec := parse_one in stream_loop turns' parse_one (out ++ [rec])
  end.

(** [for (i = 0; i < count; ++i)]. *)
Fixpoint count_loop (turns : nat) (parse_one : Rd BRecord) (count i : Z) (out : list BRecord)
    : Rd (list BRecord) :=
  match turns with
  | O => fun _ => NoFuel
  | S turns' =>
      if i <? count
      then let! rec := parse_one in count_loop turns' parse_one count (i + 1) (out ++ [rec])
      else rd_ret out
  end.

(** [for (i = 0; i < 8; ++i) bits |= p[i] << (8 * i)]. *)
Fixpoint bits_loop (turns : nat) (p : bytes) (i bits : Z) : outcome Z :=
  match turns with
  | O => Ok bits
  | S turns' =>
      let? b := at_idx p (Z.to_nat i) in
      bits_loop turns' p (i + 1) (Z.lor bits (Z.shiftl b (8 * i)))
  end.
Definition f64_bits (p : bytes) : Rd Z := fun r => let? v := bits_loop 8 p 0 0 in Ok (v, r).

(** The payload, in a reader over exactly its bytes; [parse_one] decodes a nested
    record one level deeper and [base] is the payload's file offset. The loops get
    one turn more than there are bytes left. *)
Definition parse_payload (parse_one : Rd BRecord) (tag : RecordTag) (g : bool) (base : Z) : Rd BRecord :=
  match tag with
  | kInt => let! v := read_svarint in rd_ret (scalar_rec kInt g v 0 0 [] [])
  | kUint => let! v := read_varint in rd_ret (scalar_rec kUint g 0 v 0 [] [])
  | kFloat => let! p := read_raw 8 in let! bits := f64_bits p in rd_ret (scalar_rec kFloat g 0 0 bits [] [])
  | kString =>
      let! n := get_remaining in
      let! s := read_string (Z.of_nat n) in rd_ret (scalar_rec kString g 0 0 0 s [])
  | kBlob =>
      let! n := get_remaining in
      let! b := read_bytes (Z.of_nat n) in rd_ret (scalar_rec kBlob g 0 0 0 [] b)
  | kArray =>
      let! count := read_varint in
      let! avail := get_remaining in
      let! cs := count_loop (S avail) parse_one count 0 [] in
      rd_ret (nested_rec kArray g cs [])
  | kGroup =>
      let! avail := get_remaining in
      let! cs := stream_loop (S avail) parse_one [] in
      rd_ret (nested_rec kGroup g cs [])
  | kKeyval =>
      let! key_len := read_varint in
      let! k := read_string key_len in
      let! v := parse_one in
      let! done := get_eof in
      if (done : bool) then rd_ret (nested_rec kKeyval g [v] k)
      else
        let! o := get_offset in
        rd_throw (parse_error kBadLength (base + o) "trailing bytes after keyval value")
  end.

(** [parse_record]; a nested record lies strictly inside its parent's payload, so
    as many [levels] as bytes are enough. *)
Fixpoint parse_record (levels : nat) (max_depth base depth : Z) : Rd BRecord :=
  match levels with
  | O => fun _ => NoFuel
  | S levels' =>
      if max_depth <? depth
      then
        let! o := get_offset in
        rd_throw (parse_error kDepthExceeded (base + o) "record nesting exceeded max depth")
      else
        let! rec_off := get_offset in
        let! tag_byte := read_u8 in
        let! flags := read_u8 in
        let g := negb (Z.land flags 1 =? 0) in
        match tag_of tag_byte with
        | None => rd_throw (parse_error kBadType (base + rec_off) "unknown record tag")
        | Some tag =>
            let! length := read_varint in
            let! payload_off := get_offset in
            let! payload := read_raw length in
            let inner := base + payload_off in
            with_sub payload (parse_payload (parse_record levels' max_depth inner (depth + 1)) tag g inner)
        end
  end.

Definition parse_stream (max_depth base depth : Z) (body : bytes) : outcome (list BRecord) :=
  let? (out, _) := stream_loop (S (length body)) (parse_record (S (length body)) max_depth base depth) []
                     (mk_reader body) in
  Ok out.

(** ** The encoder *)

Inductive RecordSpec := MkSpec {
  s_tag : RecordTag;
  s_group : bool;
  s_i64 : Z;
  s_u64 : Z;
  s_f64 : Z;
  s_str : bytes;
  s_blob : bytes;
  s_key : bytes;
  s_children : list RecordSpec;
}.

Definition Int (v : Z) := MkSpec kInt false v 0 0 [] [] [] [].
Definition Uint (v : Z) := MkSpec kUint false 0 v 0 [] [] [] [].
Definition Float (bits : Z) := MkSpec kFloat false 0 0 bits [] [] [] [].
Definition String (s : bytes) := MkSpec kString false 0 0 0 s [] [] [].
Definition Blob (b : bytes) := MkSpec kBlob false 0 0 0 [] b [] [].
Definition Array (l : list RecordSpec) := MkSpec kArray false 0 0 0 [] [] [] l.
Definition Group (l : list RecordSpec) := MkSpec kGroup true 0 0 0 [] [] [] l.
Definition Keyval (k : bytes) (v : RecordSpec) := MkSpec kKeyval false 0 0 0 [] [] k [v].

Definition tag_byte (t : RecordTag) : Z :=
  match t with
  | kInt => 1 | kUint => 2 | kFloat => 3 | kString => 4
  | kBlob => 5 | kArray => 6 | kGroup => 7 | kKeyval => 8
  end.

(** The four writes that frame a payload. *)
Definition put_framed (w : bytes) (t : RecordTag) (g : bool) (payload : bytes) : bytes :=
  let w := put_u8 w (tag_byte t) in
  let w := put_u8 w (if g then 1 else 0) in
  let w := put_varint w (Z.of_nat (length payload)) in
  put_bytes w payload.

Fixpoint encode_payload_into (w : bytes) (rec : RecordSpec) : bytes :=
  match rec with
  | MkSpec t g i u f s b k cs =>
      let put_child (w : bytes) (c : RecordSpec) :=
        put_framed w (s_tag c) (s_group c) (encode_payload_into [] c) in
      match t with
      | kInt => put_svarint w i
      | kUint => put_varint w u
      | kFloat => fold_left (fun w i => put_u8 w (u8 (Z.shiftr f (8 * i)))) [0; 1; 2; 3; 4; 5; 6; 7] w
      | kString => put_string w s
      | kBlob => put_bytes w b
      | kArray => fold_left put_child cs (put_varint w (Z.of_nat (length cs)))
      | kGroup => fold_left put_child cs w
      | kKeyval =>
          let w := put_string (put_varint w (Z.of_nat (length k))) k in
          match cs with [] => w | v :: _ => put_child w v end
      end
  end.

Definition encode_record_payload (rec : RecordSpec) : bytes := encode_payload_into [] rec.
Definition encode_record (rec : RecordSpec) : bytes :=
  put_framed [] (s_tag rec) (s_group rec) (encode_record_payload rec).

(** ** Induction over nested records *)

Section induction.
Variable P : BRecord -> Prop.
Hypothesis step : forall t g i u f s b cs k, Forall P cs -> P (MkRec t g i u f s b cs k).

Fixpoint brecord_nested_ind (r : BRecord) : P r :=
  match r with
  | MkRec t g i u f s b cs k =>
      step t g i u f s b cs k
        ((fix all (l : list BRecord) : Forall P l :=
            match l with [] => @List.Forall_nil _ P | x :: l' => @List.Forall_cons _ P x l' (brecord_nested_ind x) (all l') end) cs)
  end.
End induction.

Section spec_induction.
Variable P : RecordSpec -> Prop.
Hypothesis step : forall t g i u f s b k cs, Forall P cs -> P (MkSpec t g i u f s b k cs).

Fixpoint spec_nested_ind (r : RecordSpec) : P r :=
  match r with
  | MkSpec t g i u f s b k cs =>
      step t g i u f s b k cs
        ((fix all (l : list RecordSpec) : Forall P l :=
            match l with [] => @List.Forall_nil _ P | x :: l' => @List.Forall_cons _ P x l' (spec_nested_ind x) (all l') end) cs)
  end.
End spec_induction.

(** ** What the encoder writes *)

(** The bytes of a framed payload. *)
Definition framed (t : RecordTag) (g : bool) (payload : bytes) : bytes :=
  tag_byte t :: (if g then 1 else 0) :: varint_bytes (Z.of_nat (length payload)) ++ payload.

Definition payload_bytes (s : RecordSpec) : bytes := encode_payload_into [] s.
Definition spec_bytes (s : RecordSpec) : bytes := framed (s_tag s) (s_group s) (payload_bytes s).

Lemma put_framed_app w t g payload : put_framed w t g payload = w ++ framed t g payload.
Proof.
  unfold put_framed, put_bytes, put_u8, framed. rewrite put_varint_app. by rewrite <- !app_assoc.
Qed.

Lemma put_children_app cs w :
  fold_left (fun w c => put_framed w (s_tag c) (s_group c) (encode_payload_into [] c)) cs w =
  w ++ concat (map spec_bytes cs).
Proof.
  revert w. induction cs as [|c cs IH]; intros w; cbn [fold_left map concat]; [by rewrite app_nil_r|].
  rewrite IH, put_framed_app. by rewrite <- app_assoc.
Qed.

Lemma put_f64_app w f :
  fold_left (fun w i => put_u8 w (u8 (Z.shiftr f (8 * i)))) [0; 1; 2; 3; 4; 5; 6; 7] w = w ++ le_bytes 8 f.
Proof.
  rewrite <- put_u64le_app. unfold put_u64le, put_shifts, put_u8. cbn [fold_left map].
  assert (H : forall k, u8 (Z.land (Z.shiftr f k) 255) = u8 (Z.shiftr f k)).
  { intros k. rewrite land_ff. unfold u8. by rewrite Z.mod_mod. }
  rewrite !H. by rewrite <- !app_assoc.
Qed.

(** The payload of each kind of record. *)
Lemma payload_bytes_eq s :
  payload_bytes s =
  match s_tag s with
  | kInt => put_svarint [] (s_i64 s)
  | kUint => varint_bytes (s_u64 s)
  | kFloat => le_bytes 8 (s_f64 s)
  | kString => s_str s
  | kBlob => s_blob s
  | kArray => varint_bytes (Z.of_nat (length (s_children s))) ++ concat (map spec_bytes (s_children s))
  | kGroup => concat (map spec_bytes (s_children s))
  | kKeyval => varint_bytes (Z.of_nat (length (s_key s))) ++ s_key s ++
      match s_children s with [] => [] | v :: _ => spec_bytes v end
  end.
Proof.
  destruct s as [t g i u f s b k cs]. unfold payload_bytes. cbn [s_tag s_i64 s_u64 s_f64 s_str s_blob s_children s_key].
  destruct t; cbn [encode_payload_into]; rewrite ?put_children_app, ?put_f64_app; try done.
  destruct cs as [|v cs]; rewrite ?put_framed_app; unfold put_string; rewrite put_varint_app; cbn [app].
  - by rewrite app_nil_r.
  - by rewrite <- app_assoc.
Qed.

(** The record a specification describes: only the members its tag selects. *)
Fixpoint record_of (s : RecordSpec) : BRecord :=
  match s with
  | MkSpec t g i u f str b k cs =>
      match t with
      | kInt => scalar_rec kInt g i 0 0 [] []
      | kUint => scalar_rec kUint g 0 u 0 [] []
      | kFloat => scalar_rec kFloat g 0 0 f [] []
      | kString => scalar_rec kString g 0 0 0 str []
      | kBlob => scalar_rec kBlob g 0 0 0 [] b
      | kArray => nested_rec kArray g (map record_of cs) []
      | kGroup => nested_rec kGroup g (map record_of cs) []
      | kKeyval => nested_rec kKeyval g (map record_of cs) k
      end
  end.

(** Specifications the encoder handles faithfully: values at their width, payloads
    of representable length, exactly one value under a key, and at most [d] more
    levels of nesting. *)
Fixpoint spec_ok (d : Z) (s : RecordSpec) : Prop :=
  match s with
  | MkSpec t g i u f str b k cs =>
      0 <= d /\ is_u64 (Z.of_nat (length (payload_bytes s))) /\
      match t with
      | kInt => is_i64 i
      | kUint => is_u64 u
      | kFloat => is_u64 f
      | kString => bytes_ok str
      | kBlob => bytes_ok b
      | kArray | kGroup => fold_right (fun c P => spec_ok (d - 1) c /\ P) True cs
      | kKeyval => bytes_ok k /\ length cs = 1%nat /\ fold_right (fun c P => spec_ok (d - 1) c /\ P) True cs
      end
  end.

Lemma fold_right_Forall {A} (P : A -> Prop) l : fold_right (fun c Q => P c /\ Q) True l <-> Forall P l.
Proof. induction l as [|x l IH]; cbn [fold_right]; [by split|]. rewrite Forall_cons. tauto. Qed.

Lemma spec_bytes_length s : (3 <= length (spec_bytes s))%nat.
Proof.
  unfold spec_bytes, framed. cbn [length]. rewrite length_app. unfold varint_bytes, put_varint.
  generalize 9%nat. intros n. cbn [put_varint_loop]. case_bool; [|simpl; lia].
  rewrite put_varint_loop_app, length_app. simpl. lia.
Qed.

Lemma children_length cs : (length cs <= length (concat (map spec_bytes cs)))%nat.
Proof.
  induction cs as [|c cs IH]; [done|]. cbn [map concat length]. rewrite length_app.
  pose proof (spec_bytes_length c). lia.
Qed.

Lemma tag_of_byte t : tag_of (tag_byte t) = Some t.
Proof. by destruct t. Qed.

Lemma put_svarint_ok v : is_i64 v -> bytes_ok (put_svarint [] v).
Proof.
  intros Hv. unfold put_svarint. rewrite zigzag_put by done. apply varint_bytes_ok.
  width. case_bool; reflect_bools; lia.
Qed.

Lemma framed_ok t g payload : is_u64 (Z.of_nat (length payload)) -> bytes_ok payload -> bytes_ok (framed t g payload).
Proof.
  intros Hl Hb. unfold framed. constructor; [unfold is_byte; destruct t; simpl; lia|].
  constructor; [unfold is_byte; destruct g; lia|]. apply bytes_ok_app. split; [by apply varint_bytes_ok|done].
Qed.

Lemma record_bytes_ok s : forall d, spec_ok d s -> bytes_ok (payload_bytes s) /\ bytes_ok (spec_bytes s).
Proof.
  induction s as [t g i u f str b k cs IH] using spec_nested_ind. intros d (Hd & Hl & Ht).
  assert (Hcs : fold_right (fun c P => spec_ok (d - 1) c /\ P) True cs -> bytes_ok (concat (map spec_bytes cs))).
  { intros H. apply fold_right_Forall in H. clear Hl Ht. induction IH as [|c cs Hc IHcs IH']; [constructor|].
    apply Forall_cons in H as [H1 H2]. cbn [map concat]. apply bytes_ok_app. split; [by eapply Hc|by apply IH']. }
  assert (Hp : bytes_ok (payload_bytes (MkSpec t g i u f str b k cs))).
  { rewrite payload_bytes_eq in Hl |- *. cbn [s_tag s_i64 s_u64 s_f64 s_str s_blob s_children s_key] in *.
    destruct t; try done.
    - by apply put_svarint_ok.
    - by apply varint_bytes_ok.
    - apply le_bytes_ok.
    - apply bytes_ok_app. split; [|by apply Hcs]. apply varint_bytes_ok. rewrite length_app in Hl.
      pose proof (children_length cs). unfold is_u64 in *. lia.
    - by apply Hcs.
    - destruct Ht as (Hk & Hlen & Hc). rewrite !length_app in Hl. rewrite !bytes_ok_app. split; [|split; [done|]].
      + apply varint_bytes_ok. unfold is_u64 in *. lia.
      + specialize (Hcs Hc). destruct cs as [|v [|]]; try done. cbn [map concat] in Hcs. by rewrite app_nil_r in Hcs. }
  split; [done|]. by apply framed_ok.
Qed.

(** ** Decoding what the encoder wrote *)

Lemma parses_all_remaining {A} (f : nat -> Rd A) bs v :
  parses_all (f (length bs)) bs v -> parses_all (let! n := get_remaining in f n) bs v.
Proof.
  intros H pre Hok. unfold rd_bind, get_remaining. cbn [obind].
  replace (rd_remaining (Rdr (pre ++ bs) (length pre))) with (length bs); [by apply H|].
  unfold rd_remaining, rd_size. cbn [rd_data rd_pos]. rewrite length_app, (proj2 (Nat.leb_le _ _)) by lia. lia.
Qed.

Lemma parses_all_eof {A} (f : bool -> Rd A) v : parses_all (f true) [] v -> parses_all (let! d := get_eof in f d) [] v.
Proof.
  intros H pre Hok. unfold rd_bind, get_eof. cbn [obind].
  replace (rd_eof (Rdr (pre ++ []) (length pre))) with true; [by apply H|].
  unfold rd_eof, rd_size. cbn [rd_data rd_pos]. symmetry. apply Nat.leb_le. rewrite length_app. simpl. lia.
Qed.

Lemma parses_all_no_eof {A} (f : bool -> Rd A) bs v : bs <> [] ->
  parses_all (f false) bs v -> parses_all (let! d := get_eof in f d) bs v.
Proof.
  intros Hne H pre Hok. unfold rd_bind, get_eof. cbn [obind].
  replace (rd_eof (Rdr (pre ++ bs) (length pre))) with false; [by apply H|].
  unfold rd_eof, rd_size. cbn [rd_data rd_pos]. symmetry. apply Nat.leb_gt. rewrite length_app.
  destruct bs; [done|simpl; lia].
Qed.

Lemma parses_all_ret {A} (v : A) : parses_all (rd_ret v) [] v.
Proof. apply parses_end, parses_ret. Qed.

Lemma parses_all_bind_nil {A B} (m : Rd A) (f : A -> Rd B) bs a b :
  parses_all m bs a -> parses_all (f a) [] b -> parses_all (rd_bind m f) bs b.
Proof.
  intros Hm Hf pre Hok. unfold rd_bind. rewrite Hm by done. cbn [obind].
  specialize (Hf (pre ++ bs)). rewrite app_nil_r, length_app in Hf. rewrite Hf by done.
  do 3 f_equal. simpl. lia.
Qed.

Section loops.
Context (p : Rd BRecord).

Definition reads (w : bytes) (v : BRecord) : Prop := w <> [] /\ parses p w v.

Lemma stream_loop_all ws vs turns out : Forall2 reads ws vs -> (length ws < turns)%nat ->
  parses_all (stream_loop turns p out) (concat ws) (out ++ vs).
Proof.
  intros H. revert turns out. induction H as [|w v ws vs [Hne Hw] H IH]; intros turns out Ht;
    (destruct turns as [|turns]; [simpl in Ht; lia|]); cbn [stream_loop concat].
  - apply parses_all_eof. rewrite app_nil_r. apply parses_all_ret.
  - apply parses_all_no_eof; [by destruct w|]. eapply parses_all_bind; [exact Hw|].
    replace (out ++ v :: vs) with ((out ++ [v]) ++ vs) by (by rewrite <- app_assoc).
    apply IH. simpl in Ht. lia.
Qed.

Lemma count_loop_all ws vs turns n i out : Forall2 reads ws vs -> (length ws < turns)%nat ->
  i + Z.of_nat (length ws) = n -> parses (count_loop turns p n i out) (concat ws) (out ++ vs).
Proof.
  intros H. revert turns i out. induction H as [|w v ws vs [Hne Hw] H IH]; intros turns i out Ht Hn;
    (destruct turns as [|turns]; [simpl in Ht; lia|]); cbn [count_loop concat length] in *.
  - rewrite (proj2 (Z.ltb_ge _ _)) by lia. rewrite app_nil_r. apply parses_ret.
  - rewrite (proj2 (Z.ltb_lt _ _)) by lia. eapply parses_bind; [exact Hw|].
    replace (out ++ v :: vs) with ((out ++ [v]) ++ vs) by (by rewrite <- app_assoc).
    apply IH; lia.
Qed.
End loops.

Lemma bits_loop_val (p : bytes) : bytes_ok p -> length p = 8%nat -> bits_loop 8 p 0 0 = Ok (le_val p).
Proof.
  intros Hp Hl. assert (H : forall n k bits, (k + n = 8)%nat -> bits = le_val (take k p) ->
    bits_loop n p (Z.of_nat k) bits = Ok (le_val p)).
  { induction n as [|n IH]; intros k bits Hk Hb; cbn [bits_loop].
    - rewrite Hb, take_ge by lia. done.
    - rewrite Nat2Z.id. destruct (at_idx_ok p k) as (b & Hbk & ->); [lia|]. cbn [obind].
      replace (Z.of_nat k + 1) with (Z.of_nat (S k)) by lia. apply IH; [lia|].
      rewrite (take_S_r _ _ _ Hbk), Hb. pose proof (le_val_bound (take k p) ltac:(auto with bw)) as Hv.
      rewrite length_take, Nat.min_l in Hv by lia.
      replace (256 ^ Z.of_nat k) with (2 ^ (8 * Z.of_nat k)) in Hv by (rewrite Z.pow_mul_r by lia; done).
      rewrite lor_shiftl_add by lia. rewrite le_val_app, length_take, Nat.min_l by lia. cbn [le_val].
      replace (256 ^ Z.of_nat k) with (2 ^ (8 * Z.of_nat k)) by (rewrite Z.pow_mul_r by lia; done). lia. }
  apply (H 8%nat 0%nat 0); done.
Qed.

Lemma parses_f64 v : is_u64 v -> forall pre post (f : Z -> Rd BRecord) r, r = Rdr pre post ->
  rd_bind (f64_bits (le_bytes 8 v)) f r = f v r.
Proof.
  intros Hv pre post f r ->. unfold rd_bind, f64_bits.
  rewrite bits_loop_val by (apply le_bytes_ok || apply length_le_bytes). cbn [obind].
  rewrite le_val_le_bytes by (unfold is_u64 in Hv; simpl; lia). done.
Qed.

Lemma parses_sub {A} (m : Rd A) bs v : bytes_ok bs -> parses_all m bs v -> parses (with_sub bs m) [] v.
Proof.
  intros Hb H pre post Hok. unfold with_sub, mk_reader. specialize (H [] Hb). cbn [app length] in H.
  rewrite H. cbn [obind length]. by rewrite Nat.add_0_r.
Qed.

Definition nested (t : RecordTag) : Prop := t = kArray \/ t = kGroup \/ t = kKeyval.

Lemma nested_children d t g i u f str b k cs :
  spec_ok d (MkSpec t g i u f str b k cs) -> nested t ->
  Forall (spec_ok (d - 1)) cs /\
  (length (concat (map spec_bytes cs)) <= length (payload_bytes (MkSpec t g i u f str b k cs)))%nat.
Proof.
  intros (Hd & _ & Ht) Hn. rewrite payload_bytes_eq. cbn [s_tag s_children s_key].
  destruct Hn as [->|[->| ->]]; rewrite ?length_app.
  - apply fold_right_Forall in Ht. split; [done|lia].
  - apply fold_right_Forall in Ht. split; [done|lia].
  - destruct Ht as (_ & Hlen & Ht). apply fold_right_Forall in Ht. split; [done|].
    destruct cs as [|v [|]]; try done. cbn [map concat]. rewrite app_nil_r. lia.
Qed.

(** The payload, given that nested records read back. *)
Lemma payload_roundtrip p base d t g i u f str b k cs :
  spec_ok d (MkSpec t g i u f str b k cs) ->
  (nested t -> Forall2 (reads p) (map spec_bytes cs) (map record_of cs)) ->
  parses_all (parse_payload p t g base) (payload_bytes (MkSpec t g i u f str b k cs))
    (record_of (MkSpec t g i u f str b k cs)).
Proof.
  intros (Hd & Hl & Ht) Hcs. rewrite payload_bytes_eq in Hl |- *.
  cbn [s_tag s_i64 s_u64 s_f64 s_str s_blob s_children s_key] in *.
  destruct t; cbn [parse_payload record_of].
  - apply parses_end. eapply parses_bind_nil; [by apply parses_svarint|apply parses_ret].
  - apply parses_end. eapply parses_bind_nil; [by apply parses_varint|apply parses_ret].
  - apply parses_end. eapply parses_bind_nil.
    + apply (parses_read_bytes 8 (le_bytes 8 f)). by rewrite length_le_bytes.
    + intros pre post _. cbn [app length]. rewrite Nat.add_0_r. rewrite (parses_f64 f Ht _ _ _ _ eq_refl). done.
  - apply parses_all_remaining. apply parses_end. eapply parses_bind_nil; [by apply parses_read_bytes|apply parses_ret].
  - apply parses_all_remaining. apply parses_end. eapply parses_bind_nil; [by apply parses_read_bytes|apply parses_ret].
  - rewrite length_app in Hl. pose proof (children_length cs).
    eapply parses_all_bind; [apply parses_varint; unfold is_u64 in *; lia|]. apply parses_all_remaining, parses_end.
    eapply parses_bind_nil; [|apply parses_ret]. rewrite <- (app_nil_l (map record_of cs)).
    apply count_loop_all; rewrite ?length_map; [apply Hcs; by left|lia|lia].
  - pose proof (children_length cs). apply parses_all_remaining.
    eapply parses_all_bind_nil; [|apply parses_all_ret]. rewrite <- (app_nil_l (map record_of cs)).
    apply stream_loop_all; rewrite ?length_map; [apply Hcs; right; by left|lia].
  - destruct Ht as (Hk & Hlen & _). destruct cs as [|v [|]]; try done. rewrite !length_app in Hl.
    specialize (Hcs ltac:(right; by right)). cbn [map] in *. inversion Hcs as [|? ? ? ? [_ Hv]]; subst.
    eapply parses_all_bind; [apply parses_varint; unfold is_u64 in *; lia|].
    eapply parses_all_bind; [by apply parses_read_bytes|].
    rewrite <- (app_nil_r (spec_bytes v)). eapply parses_all_bind; [exact Hv|].
    apply parses_all_eof, parses_all_ret.
Qed.

Lemma record_roundtrip_at s d levels max_depth base depth :
  spec_ok d s -> d = max_depth - depth -> (length (spec_bytes s) <= levels)%nat ->
  parses (parse_record levels max_depth base depth) (spec_bytes s) (record_of s).
Proof.
  revert d levels base depth. induction s as [t g i u f str b k cs IH] using spec_nested_ind.
  intros d levels base depth Hok Hd Hlev. pose proof (spec_bytes_length (MkSpec t g i u f str b k cs)).
  destruct levels as [|levels]; [lia|]. pose proof (record_bytes_ok _ _ Hok) as [Hpb _].
  assert (Hl : is_u64 (Z.of_nat (length (payload_bytes (MkSpec t g i u f str b k cs))))) by apply Hok.
  assert (Hlen : (length (spec_bytes (MkSpec t g i u f str b k cs)) =
    2 + length (varint_bytes (Z.of_nat (length (payload_bytes (MkSpec t g i u f str b k cs)))))
    + length (payload_bytes (MkSpec t g i u f str b k cs)))%nat).
  { unfold spec_bytes, framed. cbn [length]. rewrite length_app. simpl. lia. }
  assert (Hcs : forall inner, nested t -> Forall2 (reads (parse_record levels max_depth inner (depth + 1)))
    (map spec_bytes cs) (map record_of cs)).
  { intros inner Hn. destruct (nested_children _ _ _ _ _ _ _ _ _ _ Hok Hn) as [Hcs Hsub].
    assert (Hlc : (length (concat (map spec_bytes cs)) <= levels)%nat) by lia. clear -IH Hcs Hlc Hd.
    induction Hcs as [|c cs Hc Hcs IHcs]; cbn [map]; [constructor|]. apply Forall_cons in IH as [IHc IH].
    cbn [map concat] in Hlc. rewrite length_app in Hlc. constructor; [|apply IHcs; [done|lia]].
    split; [intros E; pose proof (spec_bytes_length c) as H; rewrite E in H; simpl in H; lia|]. apply (IHc (d - 1)); [done|lia|lia]. }
  cbn [parse_record]. rewrite (proj2 (Z.ltb_ge _ _)) by (destruct Hok; lia).
  apply parses_get_offset. intros rec_off. unfold spec_bytes, framed. cbn [s_tag s_group].
  apply parses_cons, parses_cons. rewrite tag_of_byte.
  replace (negb (Z.land (if g then 1 else 0) 1 =? 0)) with g by (by destruct g).
  eapply parses_bind; [by apply parses_varint|]. apply parses_get_offset. intros o.
  eapply parses_bind_nil; [by apply parses_read_bytes|]. apply parses_sub; [done|].
  apply (payload_roundtrip _ _ d); [done|apply Hcs].
Qed.

(** ** Decoding arbitrary bytes *)

(** Decoded records: values at their width, no children under a scalar, one value
    under a key, and at most [d] more levels of nesting. *)
Fixpoint rec_ok (d : Z) (r : BRecord) : Prop :=
  match r with
  | MkRec t g i u f str b cs k =>
      0 <= d /\
      match t with
      | kInt => is_i64 i /\ cs = []
      | kUint => is_u64 u /\ cs = []
      | kFloat => is_u64 f /\ cs = []
      | kString => bytes_ok str /\ cs = []
      | kBlob => bytes_ok b /\ cs = []
      | kArray | kGroup => fold_right (fun c P => rec_ok (d - 1) c /\ P) True cs
      | kKeyval => bytes_ok k /\ length cs = 1%nat /\ fold_right (fun c P => rec_ok (d - 1) c /\ P) True cs
      end
  end.

Section safety.
Context (p : Rd BRecord) (N : nat) (Q : BRecord -> Prop).
Context (Hp : forall r, rd_ok r -> (rd_left r < N)%nat -> oholds (p r) (fun '(x, r') => advances 1 r r' /\ Q x)).

Lemma child_step {B} (f : BRecord -> Rd B) P r : rd_ok r -> (rd_left r < N)%nat ->
  (forall x r', rd_ok r' -> (rd_left r' + 1 <= rd_left r)%nat -> Q x -> oholds (f x r') P) ->
  oholds (rd_bind p f r) P.
Proof.
  intros Hr Hl Hf. unfold rd_bind. eapply oholds_bind; [by apply Hp|]. intros [x r'] [Hadv Hx].
  apply Hf; [apply Hadv|by apply advances_left|done].
Qed.

Lemma stream_loop_safe turns out r : rd_ok r -> (rd_left r < N)%nat -> (rd_left r < turns)%nat -> Forall Q out ->
  oholds (stream_loop turns p out r) (fun '(l, r') => rd_ok r' /\ (rd_left r' <= rd_left r)%nat /\ Forall Q l).
Proof.
  revert out r. induction turns as [|turns IH]; intros out r Hr HN Ht Hout; [lia|].
  cbn [stream_loop]. unfold rd_bind at 1, get_eof. cbn [obind]. case_bool; [done|].
  apply child_step; [done|done|]. intros x r' Hr' Hl Hx.
  eapply oholds_mono; [apply (IH (out ++ [x]) r'); [done|lia|lia|]|].
  - apply Forall_app. split; [done|by constructor].
  - intros [l r''] (H1 & H2 & H3). split; [done|]. split; [lia|done].
Qed.

Lemma count_loop_safe turns n i out r : rd_ok r -> (rd_left r < N)%nat -> (rd_left r < turns)%nat -> Forall Q out ->
  oholds (count_loop turns p n i out r) (fun '(l, r') => rd_ok r' /\ (rd_left r' <= rd_left r)%nat /\ Forall Q l).
Proof.
  revert i out r. induction turns as [|turns IH]; intros i out r Hr HN Ht Hout; [lia|].
  cbn [count_loop]. case_bool; [|done].
  apply child_step; [done|done|]. intros x r' Hr' Hl Hx.
  eapply oholds_mono; [apply (IH (i + 1) (out ++ [x]) r'); [done|lia|lia|]|].
  - apply Forall_app. split; [done|by constructor].
  - intros [l r''] (H1 & H2 & H3). split; [done|]. split; [lia|done].
Qed.
End safety.

Lemma remaining_step {B} (f : nat -> Rd B) P r : rd_ok r ->
  oholds (f (rd_left r) r) P -> oholds (rd_bind get_remaining f r) P.
Proof. intros Hr H. unfold rd_bind, get_remaining. cbn [obind]. by rewrite rd_remaining_left. Qed.

Lemma triple_f64 p : bytes_ok p -> length p = 8%nat -> triple 0 (f64_bits p) is_u64.
Proof.
  intros Hp Hl r Hr. unfold f64_bits. rewrite bits_loop_val by done. cbn [obind oholds].
  split; [split_and!; [apply Hr..|done|lia]|]. pose proof (le_val_bound p Hp). rewrite Hl in *. unfold is_u64. simpl in *. lia.
Qed.

Lemma payload_safe p d t g base body : 0 <= d -> bytes_ok body ->
  (forall r, rd_ok r -> (rd_left r < S (length body))%nat ->
     oholds (p r) (fun '(x, r') => advances 1 r r' /\ rec_ok (d - 1) x)) ->
  oholds (parse_payload p t g base (mk_reader body)) (fun '(rec, _) => rec_ok d rec).
Proof.
  intros Hd Hb Hp. pose proof (rd_ok_mk body Hb) as Hr.
  assert (Hl : (rd_left (mk_reader body) = length body)%nat) by (unfold rd_left; simpl; lia).
  destruct t; cbn [parse_payload].
  - eapply bind_left; [apply triple_svarint|done|]. intros v r' Hr' _ Hv. cbn. auto.
  - eapply bind_left; [apply triple_varint|done|]. intros v r' Hr' _ Hv. cbn. auto.
  - eapply bind_left; [by apply triple_bytes|done|]. intros s r' Hr' _ [Hs Hsl].
    eapply bind_left; [apply triple_f64; [done|lia]|done|]. intros v r'' _ _ Hv. cbn. auto.
  - apply remaining_step; [done|]. eapply bind_left; [apply triple_bytes; lia|done|]. intros s r' Hr' _ [Hs _]. cbn. auto.
  - apply remaining_step; [done|]. eapply bind_left; [apply triple_bytes; lia|done|]. intros s r' Hr' _ [Hs _]. cbn. auto.
  - eapply bind_left; [apply triple_varint|done|]. intros n r' Hr' Hl' Hn. apply remaining_step; [done|].
    unfold rd_bind at 1. eapply oholds_bind;
      [apply (count_loop_safe p (S (length body)) (rec_ok (d - 1)) Hp (S (rd_left r')) n 0 [] r' Hr'); [lia|lia|constructor]|].
    intros [l r''] (_ & _ & Hq). cbn. split; [done|]. by apply fold_right_Forall.
  - apply remaining_step; [done|]. unfold rd_bind at 1. eapply oholds_bind;
      [apply (stream_loop_safe p (S (length body)) (rec_ok (d - 1)) Hp (S (rd_left (mk_reader body))) [] _ Hr); [lia|lia|constructor]|].
    intros [l r''] (_ & _ & Hq). cbn. split; [done|]. by apply fold_right_Forall.
  - eapply bind_left; [apply triple_varint|done|]. intros n r' Hr' Hl' Hn.
    eapply bind_left; [apply triple_bytes; unfold is_u64 in Hn; lia|done|]. intros s r'' Hr'' Hl'' [Hs _].
    eapply (child_step p (S (length body)) (rec_ok (d - 1)) Hp); [done|lia|]. intros x r3 Hr3 Hl3 Hx.
    unfold rd_bind at 1, get_eof. cbn [obind]. case_bool; [|done]. cbn. auto 10.
Qed.

Lemma parse_record_safe levels max_depth base depth r : rd_ok r -> (rd_left r < levels)%nat ->
  oholds (parse_record levels max_depth base depth r)
    (fun '(rec, r') => advances 1 r r' /\ rec_ok (max_depth - depth) rec).
Proof.
  revert base depth r. induction levels as [|levels IH]; intros base depth r Hr Hl; [lia|].
  cbn [parse_record]. destruct (Z.ltb_spec max_depth depth) as [Hdeep|Hdeep]; [done|].
  unfold rd_bind at 1, get_offset at 1. cbn [obind].
  pose proof (triple_u8 r Hr) as H1. unfold rd_bind at 1. destruct (read_u8 r) as [[tb r1]|e| |]; [|done|destruct H1..].
  destruct H1 as [Ha1 _]. pose proof (advances_left 1 r r1 Hr Ha1). cbn [obind].
  pose proof (triple_u8 r1 (proj1 Ha1)) as H2. unfold rd_bind at 1. destruct (read_u8 r1) as [[fl r2]|e| |]; [|done|destruct H2..].
  destruct H2 as [Ha2 _]. pose proof (advances_left 1 r1 r2 (proj1 Ha1) Ha2). cbn [obind].
  destruct (tag_of tb) as [t|]; [|done].
  pose proof (triple_varint r2 (proj1 Ha2)) as H3. unfold rd_bind at 1.
  destruct (read_varint r2) as [[n r3]|e| |]; [|done|destruct H3..].
  destruct H3 as [Ha3 Hn]. pose proof (advances_left 1 r2 r3 (proj1 Ha2) Ha3). cbn [obind].
  unfold rd_bind at 1, get_offset. cbn [obind].
  pose proof (triple_bytes n ltac:(unfold is_u64 in Hn; lia) r3 (proj1 Ha3)) as H4. unfold rd_bind at 1.
  unfold read_raw. destruct (read_bytes n r3) as [[body r4]|e| |]; [|done|destruct H4..].
  destruct H4 as [Ha4 [Hb Hbl]]. pose proof (advances_left _ r3 r4 (proj1 Ha3) Ha4). cbn [obind].
  unfold with_sub. eapply oholds_bind.
  - apply (payload_safe _ (max_depth - depth) t _ _ body); [lia|done|]. intros r' Hr' Hl'.
    replace (max_depth - depth - 1) with (max_depth - (depth + 1)) by lia. apply IH; [done|lia].
  - intros [rec r5] Hrec. cbn [oholds]. split; [|done].
    destruct Ha1 as (_ & E1 & P1), Ha2 as (_ & E2 & P2), Ha3 as (_ & E3 & P3), Ha4 as (O4 & E4 & P4).
    split; [done|]. split; [congruence|lia].
Qed.

Lemma parse_stream_safe max_depth base depth body : bytes_ok body ->
  oholds (parse_stream max_depth base depth body) (Forall (rec_ok (max_depth - depth))).
Proof.
  intros Hb. unfold parse_stream. pose proof (rd_ok_mk body Hb) as Hr.
  assert (Hl : (rd_left (mk_reader body) = length body)%nat) by (unfold rd_left; simpl; lia).
  eapply oholds_bind.
  - apply (stream_loop_safe _ (S (length body)) (rec_ok (max_depth - depth))); [|done|lia|lia|constructor].
    intros r Hr' Hl'. by apply parse_record_safe.
  - by intros [l r] (_ & _ & H).
Qed.

Lemma reads_all specs levels max_depth base depth :
  Forall (spec_ok (max_depth - depth)) specs -> Forall (fun s => (length (spec_bytes s) <= levels)%nat) specs ->
  Forall2 (reads (parse_record levels max_depth base depth)) (map spec_bytes specs) (map record_of specs).
Proof.
  intros Hs. induction Hs as [|s l Hs Hl IH]; intros Hlen; cbn [map]; [apply Forall2_nil_2|].
  apply Forall_cons in Hlen as [H1 H2]. apply Forall2_cons. split; [|by apply IH].
  split; [intros E; pose proof (spec_bytes_length s) as Hx; rewrite E in Hx; simpl in Hx; lia|].
  by apply (record_roundtrip_at s (max_depth - depth)).
Qed.

Lemma parse_stream_encoded max_depth base depth specs :
  Forall (spec_ok (max_depth - depth)) specs ->
  parse_stream max_depth base depth (concat (map spec_bytes specs)) = Ok (map record_of specs).
Proof.
  intros Hs. unfold parse_stream. set (body := concat (map spec_bytes specs)).
  assert (Hb : bytes_ok body).
  { clear -Hs. unfold body. induction Hs as [|s l H Hl IH]; cbn [map concat]; [constructor|].
    apply bytes_ok_app. split; [by eapply record_bytes_ok|done]. }
  pose proof (stream_loop_all (parse_record (S (length body)) max_depth base depth) (map spec_bytes specs)
    (map record_of specs) (S (length body)) []) as H. rewrite length_map in H.
  assert (Hlen : Forall (fun s => (length (spec_bytes s) <= S (length body))%nat) specs).
  { apply Forall_forall. intros s Hin. unfold body. clear -Hin. induction specs as [|x l IH]; [by apply elem_of_nil in Hin|].
    cbn [map concat]. rewrite length_app. apply elem_of_cons in Hin as [->|Hin]; [lia|]. specialize (IH Hin). lia. }
  specialize (H (reads_all specs _ _ base depth Hs Hlen)).
  specialize (H ltac:(pose proof (children_length specs); unfold body; lia)).
  specialize (H [] Hb). cbn [app length] in H. fold body in H. unfold mk_reader. rewrite H. done.
Qed.

(** ** Claims *)

Lemma encode_record_eq s : encode_record s = spec_bytes s.
Proof. unfold encode_record. by rewrite put_framed_app. Qed.

(** Records round-trip: the bytes [encode_record] writes for a record tree
    within the depth limit, placed anywhere in a buffer, decode to exactly that
    tree and leave the cursor at its end, and a stream of them decodes to the list
    of their trees. *)
Theorem record_roundtrip (s : RecordSpec) (specs : list RecordSpec) (max_depth base depth : Z) (levels : nat) :
  spec_ok (max_depth - depth) s -> Forall (spec_ok (max_depth - depth)) specs ->
  (length (encode_record s) <= levels)%nat ->
  parses (parse_record levels max_depth base depth) (encode_record s) (record_of s) /\
  parse_stream max_depth base depth (concat (map encode_record specs)) = Ok (map record_of specs).
Proof.
  rewrite encode_record_eq. intros Hs Hl Hlev. split; [by apply (record_roundtrip_at s (max_depth - depth))|].
  rewrite <- parse_stream_encoded with (max_depth := max_depth) (base := base) (depth := depth) by done.
  f_equal. f_equal. apply map_ext, encode_record_eq.
Qed.

Definition sample_spec : RecordSpec :=
  Group [Int (-5); Keyval [107] (Array [Uint 300; String [104; 105]]); Float (2 ^ 62); Blob [0; 255]; Array []].

Lemma sample_spec_ok : spec_ok 3 sample_spec.
Proof.
  cbv [spec_ok fold_right sample_spec Group Int Keyval Array Uint String Float Blob].
  repeat first [apply conj | exact I | lia | by vm_compute | by apply (bool_decide_unpack _); vm_compute].
Qed.

Lemma record_roundtrip_witness :
  spec_ok 3 sample_spec /\
  parse_stream 3 40 0 (encode_record sample_spec ++ encode_record (Int 1)) = Ok [record_of sample_spec; record_of (Int 1)].
Proof.
  split; [exact sample_spec_ok|].
  assert (H1 : spec_ok 3 (Int 1)).
  { cbv [spec_ok Int]. repeat first [apply conj | lia | by vm_compute]. }
  refine (proj2 (record_roundtrip sample_spec [sample_spec; Int 1] 3 40 0 (length (encode_record sample_spec))
    sample_spec_ok _ (le_n _))).
  apply Forall_cons. split; [exact sample_spec_ok|]. apply Forall_cons. split; [exact H1|apply Forall_nil; exact I].
Defined.

(** Decoding arbitrary bytes as records is safe for every depth limit: the
    decoder never reads outside its buffer, ends by itself, and returns trees that
    respect the limit, with a single value under every key and no children under a
    scalar - or throws. *)
Theorem record_decoding_safe (max_depth base depth : Z) (body : bytes) :
  bytes_ok body -> oholds (parse_stream max_depth base depth body) (Forall (rec_ok (max_depth - depth))).
Proof. intros Hb. by apply parse_stream_safe. Qed.

Lemma record_decoding_safe_witness :
  oholds (parse_stream 1 0 0 [7; 0; 6; 7; 0; 3; 7; 0; 0]) (Forall (rec_ok 1)) /\
  parse_stream 1 0 0 [7; 0; 6; 7; 0; 3; 7; 0; 0] =
    Throw (parse_error kDepthExceeded 6 "record nesting exceeded max depth").
Proof.
  split; [|vm_compute; reflexivity]. refine (record_decoding_safe 1 0 0 _ _).
  by apply (bool_decide_unpack _); vm_compute.
Defined.

(** An error thrown by a nested reader carries an offset inside the nested buffer,
    not in the file, although the offsets of the decoder's own errors are. *)
Lemma nested_short_read_offset :
  parse_stream 32 1000 0 [7; 0; 2; 1; 0] = Throw (parse_error' kShortRead 2) /\
  parse_stream 32 1000 0 [7; 0; 2; 9; 0] = Throw (parse_error kBadType 1003 "unknown record tag").
Proof. split; vm_compute; reflexivity. Qed.
