(* ===== verification/BinPack.v ===== *)
(** * BinPack: the BPK1 container

    [include/binpack/model.hpp], [src/binpack/parser.cpp] and
    [src/binpack/builder.cpp]: the header, the section table, the section bodies
    and the checksums, parsed and built. *)

From S2P Require Import Prelude Status ByteIO Checksum BinRecord.

Inductive SectionType := kFree | kData | kMetadata | kIndex | kStrings.

#[export] Instance SectionType_eq_dec : EqDecision SectionType.
Proof. solve_decision. Defined.

Definition section_type_of (raw : Z) : option SectionType :=
  match raw with
  | 0 => Some kFree | 1 => Some kData | 2 => Some kMetadata | 3 => Some kIndex | 4 => Some kStrings
  | _ => None
  end.
Definition section_type_code (t : SectionType) : Z :=
  match t with kFree => 0 | kData => 1 | kMetadata => 2 | kIndex => 3 | kStrings => 4 end.
Definition section_type_name (t : SectionType) : string :=
  match t with
  | kFree => "FREE" | kData => "DATA" | kMetadata => "METADATA" | kIndex => "INDEX" | kStrings => "STRINGS"
  end.

Record BSection := MkSection {
  sec_type : SectionType;
  sec_id : Z;
  sec_flags : Z;
  sec_offset : Z;
  sec_length : Z;
  item_count : Z;
  crc32_stored : Z;
  body_checksum_ok : bool;
  sec_records : list BRecord;
}.

Record Container := MkContainer {
  c_version : Z;
  c_flags : Z;
  section_count : Z;
  has_metadata : bool;
  has_trailer_crc : bool;
  header_checksum_ok : bool;
  trailer_checksum_ok : bool;
  checksum_ok : bool;
  sections : list BSection;
  metadata : list (bytes * BRecord);
}.

Definition kMagic : bytes := [66; 80; 75; 49].
Definition kHeaderBytes : Z := 12.
Definition kHeaderTotal : Z := 16.
Definition kSectionEntryBytes : Z := 24.
Definition kTrailerBytes : Z := 4.

(** ** Parsing *)

Definition verify_crc (computed stored : Z) (strict : bool) (offset : Z) (what : string) : outcome bool :=
  if computed =? stored then Ok true
  else if strict then Throw (parse_error kBadChecksum offset what)
  else Ok false.

Record Header := MkHead { hd_version : Z; hd_flags : Z; hd_section_count : Z; hd_checksum_ok : bool }.

Definition parse_header (strict : bool) : Rd Header :=
  let! magic := read_raw 4 in
  if negb (bool_decide (magic = kMagic)) then rd_throw (parse_error kBadMagic 0 "not a BPK1 container") else
  let! version := read_u16le in
  if negb (version =? 1) then rd_throw (parse_error kBadVersion 4 "unsupported binpack version") else
  let! flags := read_u16le in
  let! count := read_u16le in
  let! reserved := read_u16le in
  let! header_crc_stored := read_u32le in
  fun r =>
    let? covered := copy_range (rd_data r) 0 (Z.to_nat kHeaderBytes) in
    let? ok := verify_crc (crc32 covered) header_crc_stored strict 0 "header crc mismatch" in
    Ok (MkHead version flags count ok, r).

Record Entry := MkEntry {
  e_type : SectionType; e_id : Z; e_flags : Z; e_offset : Z; e_length : Z; e_item_count : Z; e_crc32 : Z }.

Definition read_entry : Rd Entry :=
  let! raw_type := read_u16le in
  match section_type_of raw_type with
  | None => let! o := get_offset in rd_throw (parse_error kBadType (o - 2) "unknown section type")
  | Some t =>
      let! i := read_u16le in
      let! flags := read_u16le in
      let! reserved := read_u16le in
      let! offset := read_u32le in
      let! length := read_u32le in
      let! items := read_u32le in
      let! crc := read_u32le in
      rd_ret (MkEntry t i flags offset length items crc)
  end.

(** [for (i = 0; i < section_count; ++i)]. *)
Fixpoint table_loop (n : nat) (entries : list Entry) : Rd (list Entry) :=
  match n with
  | O => rd_ret entries
  | S n' => let! e := read_entry in table_loop n' (entries ++ [e])
  end.

Definition read_table (size : Z) (hdr : Header) : Rd (list Entry) :=
  if size <? kHeaderTotal + hd_section_count hdr * kSectionEntryBytes
  then rd_throw (parse_error kBadLength kHeaderTotal "section table exceeds file size")
  else table_loop (Z.to_nat (hd_section_count hdr)) [].

(** The top-level KEYVAL records of a METADATA section. *)
Fixpoint collect_metadata (records : list BRecord) : list (bytes * BRecord) :=
  match records with
  | [] => []
  | rec :: records' =>
      match r_tag rec, r_children rec with
      | kKeyval, v :: _ => (r_key rec, v) :: collect_metadata records'
      | _, _ => collect_metadata records'
      end
  end.

Definition parse_section (strict : bool) (max_depth : Z) (data : bytes) (e : Entry) : outcome BSection :=
  let size := Z.of_nat (length data) in
  let fin := e_offset e + e_length e in
  if (size <? e_offset e) || (size <? fin) || (fin <? e_offset e)
  then Throw (parse_error kBadLength (e_offset e) "section body out of range")
  else
    let? body := copy_range data (Z.to_nat (e_offset e)) (Z.to_nat (e_length e)) in
    let? ok := verify_crc (crc32 body) (e_crc32 e) strict (e_offset e) "section crc mismatch" in
    let? records := (if bool_decide (e_type e = kFree) then Ok []
                     else parse_stream max_depth (e_offset e) 0 body) in
    Ok (MkSection (e_type e) (e_id e) (e_flags e) (e_offset e) (e_length e) (e_item_count e) (e_crc32 e)
          ok records).

Fixpoint sections_loop (strict : bool) (max_depth : Z) (data : bytes) (entries : list Entry)
    (secs : list BSection) (meta : list (bytes * BRecord)) : outcome (list BSection * list (bytes * BRecord)) :=
  match entries with
  | [] => Ok (secs, meta)
  | e :: entries' =>
      let? s := parse_section strict max_depth data e in
      let meta := if bool_decide (e_type e = kMetadata) then meta ++ collect_metadata (sec_records s) else meta in
      sections_loop strict max_depth data entries' (secs ++ [s]) meta
  end.

Definition check_trailer (strict : bool) (data : bytes) : outcome bool :=
  let size := Z.of_nat (length data) in
  if size <? kHeaderTotal + kTrailerBytes
  then Throw (parse_error kTruncated size "trailer crc flagged but file too small")
  else
    let trailer_off := size - kTrailerBytes in
    let? tail := copy_range data (Z.to_nat trailer_off) (Z.to_nat kTrailerBytes) in
    let? (stored, _) := read_u32le (mk_reader tail) in
    let? covered := copy_range data 0 (Z.to_nat trailer_off) in
    verify_crc (crc32 covered) stored strict trailer_off "trailer crc mismatch".

(** [parse]; the buffer is never null. *)
Definition parse (strict : bool) (max_depth : Z) (data : bytes) : outcome Container :=
  let? ((hdr, entries), _) := (let! hdr := parse_header strict in
                               let! entries := read_table (Z.of_nat (length data)) hdr in
                               rd_ret (hdr, entries)) (mk_reader data) in
  let? (secs, meta) := sections_loop strict max_depth data entries [] [] in
  let has_trailer := negb (Z.land (hd_flags hdr) 2 =? 0) in
  let? trailer_ok := (if has_trailer then check_trailer strict data else Ok true) in
  let ok := fold_left (fun b s => b && body_checksum_ok s) secs (hd_checksum_ok hdr && trailer_ok) in
  Ok (MkContainer (hd_version hdr) (hd_flags hdr) (hd_section_count hdr)
        (negb (Z.land (hd_flags hdr) 1 =? 0)) has_trailer (hd_checksum_ok hdr) trailer_ok ok secs meta).

(** [Options{}]. *)
Definition parse_default (data : bytes) : outcome Container := parse false 32 data.

(** ** Building *)

Record SectionSpec := MkSpecSection {
  sp_type : SectionType; sp_id : Z; sp_flags : Z; sp_item_count : Z; sp_records : list RecordSpec }.

Record Builder := MkBuilder {
  b_version : Z;
  b_has_metadata : bool;
  b_has_trailer_crc : bool;
  b_sections : list SectionSpec;
  b_explicit : list bool;
}.

Definition new_builder : Builder := MkBuilder 1 false false [] [].

Definition set_version (v : Z) (b : Builder) : Builder :=
  MkBuilder v (b_has_metadata b) (b_has_trailer_crc b) (b_sections b) (b_explicit b).
Definition set_has_metadata (on : bool) (b : Builder) : Builder :=
  MkBuilder (b_version b) on (b_has_trailer_crc b) (b_sections b) (b_explicit b).
Definition set_has_trailer_crc (on : bool) (b : Builder) : Builder :=
  MkBuilder (b_version b) (b_has_metadata b) on (b_sections b) (b_explicit b).

Definition add_section (t : SectionType) (i flags : Z) (b : Builder) : Builder :=
  MkBuilder (b_version b) (b_has_metadata b) (b_has_trailer_crc b)
    (b_sections b ++ [MkSpecSection t i flags 0 []]) (b_explicit b ++ [false]).

(** [sections_.back()] updated, when there is one. *)
Definition update_last {A} (f : A -> A) (l : list A) : list A :=
  match l with [] => [] | _ => alter f (length l - 1)%nat l end.

Definition add_record (rec : RecordSpec) (b : Builder) : Builder :=
  MkBuilder (b_version b) (b_has_metadata b) (b_has_trailer_crc b)
    (update_last (fun s => MkSpecSection (sp_type s) (sp_id s) (sp_flags s) (sp_item_count s) (sp_records s ++ [rec]))
       (b_sections b))
    (b_explicit b).

Definition set_item_count (n : Z) (b : Builder) : Builder :=
  MkBuilder (b_version b) (b_has_metadata b) (b_has_trailer_crc b)
    (update_last (fun s => MkSpecSection (sp_type s) (sp_id s) (sp_flags s) n (sp_records s)) (b_sections b))
    (match b_sections b with [] => b_explicit b | _ => update_last (fun _ => true) (b_explicit b) end).

(** A write through the reference [add_section] returned, which until the next
    [add_section] denotes [sections_.back()]: any member may change. *)
Definition edit_section (f : SectionSpec -> SectionSpec) (b : Builder) : Builder :=
  MkBuilder (b_version b) (b_has_metadata b) (b_has_trailer_crc b) (update_last f (b_sections b)) (b_explicit b).

Definition builder_section_count (b : Builder) : Z := Z.of_nat (length (b_sections b)).

(** A section body: empty for a FREE section. *)
Definition section_body (s : SectionSpec) : bytes :=
  if bool_decide (sp_type s = kFree) then []
  else fold_left (fun w rec => put_framed w (s_tag rec) (s_group rec) (encode_record_payload rec)) (sp_records s) [].

Definition build_header (b : Builder) : outcome bytes :=
  let flags := Z.lor (if b_has_metadata b then 1 else 0) (if b_has_trailer_crc b then 2 else 0) in
  let w := put_u8 (put_u8 (put_u8 (put_u8 [] 66) 80) 75) 49 in
  let w := put_u16le w (b_version b) in
  let w := put_u16le w flags in
  let w := put_u16le w (u16 (Z.of_nat (length (b_sections b)))) in
  let w := put_u16le w 0 in
  let? covered := copy_range w 0 (Z.to_nat kHeaderBytes) in
  Ok (put_u32le w (crc32 covered)).

Definition put_entry (w : bytes) (s : SectionSpec) (explicit : bool) (body : bytes) : nat * bytes :=
  let w := put_u16le w (section_type_code (sp_type s)) in
  let w := put_u16le w (sp_id s) in
  let w := put_u16le w (sp_flags s) in
  let w := put_u16le w 0 in
  let '(slot, w) := reserve_u32le w in
  let w := put_u32le w (u32 (Z.of_nat (length body))) in
  let count := if explicit then sp_item_count s else u32 (Z.of_nat (length (sp_records s))) in
  let w := put_u32le w count in
  (slot, put_u32le w (crc32 body)).

(** The first pass over the sections, with the offsets reserved. *)
Fixpoint put_table (w : bytes) (specs : list SectionSpec) (explicit : list bool) (i : nat) (bodies : list bytes)
    (slots : list nat) : outcome (bytes * list nat) :=
  match specs, bodies with
  | s :: specs', body :: bodies' =>
      let? e := at_idx explicit i in
      let '(slot, w) := put_entry w s e body in
      put_table w specs' explicit (S i) bodies' (slots ++ [slot])
  | _, _ => Ok (w, slots)
  end.

(** The second pass: each offset is patched as its body is placed. *)
Fixpoint put_bodies (w : bytes) (slots : list nat) (bodies : list bytes) : outcome bytes :=
  match slots, bodies with
  | slot :: slots', body :: bodies' =>
      let body_offset := u32 (Z.of_nat (length w)) in
      let? w := patch_u32le w slot body_offset in
      put_bodies (put_bytes w body) slots' bodies'
  | _, _ => Ok w
  end.

Definition build (b : Builder) : outcome bytes :=
  let? w := build_header b in
  let bodies := map section_body (b_sections b) in
  let? (w, slots) := put_table w (b_sections b) (b_explicit b) 0 bodies [] in
  let? w := put_bodies w slots bodies in
  if b_has_trailer_crc b
  then let? covered := copy_range w 0 (length w) in Ok (put_u32le w (crc32 covered))
  else Ok w.

(** ** What [build] writes *)

Definition entry_bytes (e : Entry) : bytes :=
  le_bytes 2 (section_type_code (e_type e)) ++ le_bytes 2 (e_id e) ++ le_bytes 2 (e_flags e) ++ le_bytes 2 0 ++
  le_bytes 4 (e_offset e) ++ le_bytes 4 (e_length e) ++ le_bytes 4 (e_item_count e) ++ le_bytes 4 (e_crc32 e).

Lemma length_entry_bytes e : length (entry_bytes e) = 24%nat.
Proof. unfold entry_bytes. by rewrite !length_app, !length_le_bytes. Qed.

Lemma table_entry_ok e : bytes_ok (entry_bytes e).
Proof. unfold entry_bytes. rewrite !bytes_ok_app. auto 10 using le_bytes_ok. Qed.

Definition at_offset (off : Z) (e : Entry) : Entry :=
  MkEntry (e_type e) (e_id e) (e_flags e) off (e_length e) (e_item_count e) (e_crc32 e).

(** The table entry of a section, before its body is placed, and its body. *)
Definition item_of (s : SectionSpec) (explicit : bool) : Entry * bytes :=
  let body := section_body s in
  (MkEntry (sp_type s) (sp_id s) (sp_flags s) 0 (u32 (Z.of_nat (length body)))
     (if explicit then sp_item_count s else u32 (Z.of_nat (length (sp_records s)))) (crc32 body), body).

Definition items_of (b : Builder) : list (Entry * bytes) := zip_with item_of (b_sections b) (b_explicit b).

(** Bodies placed one after the other from [off] on. *)
Fixpoint placed (off : Z) (items : list (Entry * bytes)) : list Entry :=
  match items with
  | [] => []
  | (e, body) :: items' => at_offset off e :: placed (off + Z.of_nat (length body)) items'
  end.

Definition table_bytes (entries : list Entry) : bytes := concat (map entry_bytes entries).

Lemma length_table_bytes l : length (table_bytes l) = (24 * length l)%nat.
Proof.
  unfold table_bytes. induction l as [|e l IH]; [done|]. cbn [map concat length]. rewrite length_app, length_entry_bytes, IH. lia.
Qed.

Lemma length_placed off items : length (placed off items) = length items.
Proof. revert off. induction items as [|[e b] items IH]; intros off; cbn; [done|]. by rewrite IH. Qed.

Fixpoint slots_from (a : nat) (items : list (Entry * bytes)) : list nat :=
  match items with [] => [] | _ :: items' => (a + 8)%nat :: slots_from (a + 24) items' end.

Lemma put_entry_eq w s explicit :
  put_entry w s explicit (section_body s) = ((length w + 8)%nat, w ++ entry_bytes (item_of s explicit).1).
Proof.
  unfold put_entry, reserve_u32le, item_of, entry_bytes. cbn [fst e_type e_id e_flags e_offset e_length e_item_count e_crc32].
  rewrite !put_u32le_app, !put_u16le_app. rewrite !length_app, !length_le_bytes. f_equal; [lia|].
  rewrite <- !app_assoc. done.
Qed.

Lemma put_table_eq w specs explicit i slots :
  length (drop i explicit) = length specs ->
  put_table w specs explicit i (map section_body specs) slots =
  let items := zip_with item_of specs (drop i explicit) in
  Ok (w ++ table_bytes (map fst items), slots ++ slots_from (length w) items).
Proof.
  revert w i slots. induction specs as [|s specs IH]; intros w i slots Hl; cbv zeta.
  { cbn. by rewrite !app_nil_r. }
  destruct (drop i explicit) as [|ex l] eqn:Ed; [done|]. cbn [map put_table length] in *.
  assert (Hi : explicit !! i = Some ex) by (by rewrite <- (Nat.add_0_r i), <- lookup_drop, Ed).
  assert (Hd : drop (S i) explicit = l) by (rewrite (drop_S _ _ _ Hi) in Ed; by injection Ed).
  unfold at_idx. rewrite Hi. cbn [obind]. rewrite put_entry_eq, IH by (rewrite Hd; lia). rewrite Hd.
  cbn [zip_with map slots_from]. unfold table_bytes. cbn [map concat]. rewrite <- !app_assoc, length_app, length_entry_bytes.
  done.
Qed.

(** The entry with its reserved offset patched. *)
Lemma patch_entry w e rest off : e_offset e = 0 ->
  patch_u32le (w ++ entry_bytes e ++ rest) (length w + 8) off = Ok (w ++ entry_bytes (at_offset off e) ++ rest).
Proof.
  intros He. unfold entry_bytes at 1. rewrite He.
  pose proof (patch_reserved (w ++ le_bytes 2 (section_type_code (e_type e)) ++ le_bytes 2 (e_id e) ++
    le_bytes 2 (e_flags e) ++ le_bytes 2 0) (le_bytes 4 (e_length e) ++ le_bytes 4 (e_item_count e) ++
    le_bytes 4 (e_crc32 e) ++ rest) off) as H.
  rewrite !length_app, !length_le_bytes in H. change (2 + (2 + (2 + 2)))%nat with 8%nat in H.
  unfold entry_bytes, at_offset. cbn [e_type e_id e_flags e_offset e_length e_item_count e_crc32].
  rewrite <- !app_assoc in *. exact H.
Qed.

Lemma put_bodies_eq items : forall A B,
  Forall (fun it => e_offset it.1 = 0) items ->
  Z.of_nat (length (A ++ table_bytes (map fst items) ++ B ++ concat (map snd items))) < 2 ^ 32 ->
  put_bodies (A ++ table_bytes (map fst items) ++ B) (slots_from (length A) items) (map snd items) =
  Ok (A ++ table_bytes (placed (Z.of_nat (length (A ++ table_bytes (map fst items) ++ B))) items) ++ B ++
      concat (map snd items)).
Proof.
  induction items as [|[e body] items IH]; intros A B Hz Hlen.
  { cbn. by rewrite !app_nil_r. }
  apply Forall_cons in Hz as [He Hz]. cbn [fst] in He.
  cbn [map slots_from put_bodies fst snd placed concat] in *. unfold table_bytes in *. cbn [map concat] in *.
  set (n := length (A ++ (entry_bytes e ++ concat (map entry_bytes (map fst items))) ++ B)) in *.
  assert (Hn : Z.of_nat n < 2 ^ 32) by (unfold n; rewrite !length_app in *; lia).
  assert (Hu : u32 (Z.of_nat n) = Z.of_nat n) by (unfold u32; apply Z.mod_small; lia). rewrite Hu.
  rewrite <- (app_assoc (entry_bytes e)), patch_entry by done. cbn [obind]. unfold put_bytes.
  set (A' := A ++ entry_bytes (at_offset (Z.of_nat n) e)).
  assert (HA : length A' = (length A + 24)%nat) by (unfold A'; by rewrite length_app, length_entry_bytes).
  replace ((A ++ entry_bytes (at_offset (Z.of_nat n) e) ++ concat (map entry_bytes (map fst items)) ++ B) ++ body)
    with (A' ++ concat (map entry_bytes (map fst items)) ++ (B ++ body)) by (unfold A'; by rewrite <- !app_assoc).
  assert (Hl' : length (A' ++ concat (map entry_bytes (map fst items)) ++ B ++ body) = (n + length body)%nat).
  { unfold n. rewrite !length_app, HA, length_entry_bytes. lia. }
  rewrite <- HA, IH; [|done|].
  - rewrite Hl'. rewrite Nat2Z.inj_add. unfold A'. by rewrite <- !app_assoc.
  - unfold A'. rewrite !length_app, !length_entry_bytes in *. lia.
Qed.

Definition header_flags (b : Builder) : Z :=
  Z.lor (if b_has_metadata b then 1 else 0) (if b_has_trailer_crc b then 2 else 0).

(** The twelve covered bytes of the header. *)
Definition header_fields (b : Builder) : bytes :=
  kMagic ++ le_bytes 2 (b_version b) ++ le_bytes 2 (header_flags b) ++
  le_bytes 2 (u16 (Z.of_nat (length (b_sections b)))) ++ le_bytes 2 0.
Definition header_bytes (b : Builder) : bytes := header_fields b ++ le_bytes 4 (crc32 (header_fields b)).

Definition with_trailer (b : Builder) (w : bytes) : bytes :=
  if b_has_trailer_crc b then w ++ le_bytes 4 (crc32 w) else w.

Definition table_end (b : Builder) : Z := 16 + 24 * Z.of_nat (length (b_sections b)).
Definition body_bytes (b : Builder) : bytes := concat (map snd (items_of b)).

(** The file without its trailer. *)
Definition file_bytes (b : Builder) : bytes :=
  header_bytes b ++ table_bytes (placed (table_end b) (items_of b)) ++ body_bytes b.

Lemma build_header_eq b : build_header b = Ok (header_bytes b).
Proof.
  unfold build_header. rewrite !put_u16le_app. unfold put_u8. cbn [app].
  fold (header_flags b). cbv zeta.
  match goal with |- context [copy_range ?w 0 _] =>
    replace w with (header_fields b) by (unfold header_fields, kMagic; by rewrite <- !app_assoc) end.
  unfold copy_range. change (Z.to_nat kHeaderBytes) with 12%nat.
  assert (Hl : length (header_fields b) = 12%nat) by (unfold header_fields; by rewrite !length_app, !length_le_bytes).
  rewrite Hl. cbn [Nat.add Nat.leb obind]. rewrite drop_0, take_ge by lia. by rewrite put_u32le_app.
Qed.

Lemma length_header_bytes b : length (header_bytes b) = 16%nat.
Proof. unfold header_bytes, header_fields. by rewrite !length_app, !length_le_bytes. Qed.

Definition builder_ok (b : Builder) : Prop := length (b_explicit b) = length (b_sections b).

Lemma length_items b : builder_ok b -> length (items_of b) = length (b_sections b).
Proof. intros H. unfold items_of. rewrite length_zip_with, H. apply Nat.min_id. Qed.

Lemma items_snd b : builder_ok b -> map snd (items_of b) = map section_body (b_sections b).
Proof.
  unfold builder_ok, items_of. generalize (b_explicit b) as ex. induction (b_sections b) as [|s l IH]; intros ex H; [done|].
  destruct ex as [|e ex]; [done|]. cbn [zip_with map]. f_equal. apply IH. by injection H.
Qed.

Lemma items_unplaced b : Forall (fun it => e_offset it.1 = 0) (items_of b).
Proof.
  unfold items_of. generalize (b_explicit b) as ex. induction (b_sections b) as [|s l IH]; intros ex; [by constructor|].
  destruct ex as [|e ex]; cbn [zip_with]; [by apply Forall_nil|]. apply Forall_cons. by split.
Qed.

Lemma build_eq b : builder_ok b -> Z.of_nat (length (file_bytes b)) < 2 ^ 32 ->
  build b = Ok (with_trailer b (file_bytes b)).
Proof.
  intros Hb Hlen. unfold build. rewrite build_header_eq. cbn [obind].
  rewrite put_table_eq by done. cbv zeta. rewrite drop_0. fold (items_of b). cbn [obind].
  rewrite length_header_bytes. rewrite <- items_snd by done.
  assert (Hend : Z.of_nat (length (header_bytes b ++ table_bytes (map fst (items_of b)) ++ [])) = table_end b).
  { rewrite !length_app, length_header_bytes, length_table_bytes, length_map, length_items by done.
    unfold table_end. simpl. lia. }
  pose proof (put_bodies_eq (items_of b) (header_bytes b) [] (items_unplaced b)) as H.
  rewrite Hend in H. rewrite app_nil_r, length_header_bytes in H. cbn [app] in H |- *. rewrite H.
  - cbn [obind]. fold (body_bytes b) (file_bytes b). unfold with_trailer. destruct (b_has_trailer_crc b); [|done].
    unfold copy_range. rewrite (proj2 (Nat.leb_le _ _)) by lia. rewrite drop_0, take_ge by lia. cbn [obind].
    by rewrite put_u32le_app.
  - unfold file_bytes, body_bytes in Hlen. rewrite !length_app, length_table_bytes, length_placed in *.
    rewrite length_map. lia.
Qed.

(** ** Parsing what [build] wrote *)

Definition entry_ok (e : Entry) : Prop :=
  is_u16 (e_id e) /\ is_u16 (e_flags e) /\ is_u32 (e_offset e) /\ is_u32 (e_length e) /\
  is_u32 (e_item_count e) /\ is_u32 (e_crc32 e).

Lemma parses_entry e : entry_ok e -> parses read_entry (entry_bytes e) e.
Proof.
  destruct e as [t i fl off len n crc]. intros (H1 & H2 & H3 & H4 & H5 & H6).
  unfold read_entry, entry_bytes. cbn [e_type e_id e_flags e_offset e_length e_item_count e_crc32] in *.
  eapply parses_bind; [apply parses_u16le; unfold is_u16; destruct t; cbn [section_type_code]; lia|].
  replace (section_type_of (section_type_code t)) with (Some t) by (by destruct t).
  eapply parses_bind; [by apply parses_u16le|]. eapply parses_bind; [by apply parses_u16le|].
  eapply parses_bind; [apply parses_u16le; unfold is_u16; lia|].
  eapply parses_bind; [by apply parses_u32le|]. eapply parses_bind; [by apply parses_u32le|].
  eapply parses_bind; [by apply parses_u32le|]. eapply parses_bind_nil; [by apply parses_u32le|apply parses_ret].
Qed.

Lemma parses_table l acc : Forall entry_ok l -> parses (table_loop (length l) acc) (table_bytes l) (acc ++ l).
Proof.
  intros H. revert acc. unfold table_bytes. induction H as [|e l He Hl IH]; intros acc; cbn [length table_loop map concat].
  - rewrite app_nil_r. apply parses_ret.
  - eapply parses_bind; [by apply parses_entry|]. replace (acc ++ e :: l) with ((acc ++ [e]) ++ l) by (by rewrite <- app_assoc).
    apply IH.
Qed.

Lemma header_flags_ok b : is_u16 (header_flags b).
Proof.
  assert (H : 0 <= header_flags b <= 3); [|unfold is_u16; lia].
  unfold header_flags. destruct (b_has_metadata b), (b_has_trailer_crc b); vm_compute; split; discriminate.
Qed.

Lemma parse_header_built strict b rest : b_version b = 1 -> bytes_ok (header_bytes b ++ rest) ->
  parse_header strict (mk_reader (header_bytes b ++ rest)) =
  Ok (MkHead 1 (header_flags b) (u16 (Z.of_nat (length (b_sections b)))) true,
      Rdr (header_bytes b ++ rest) 16).
Proof.
  intros Hv Hok. unfold parse_header, mk_reader.
  set (data := header_bytes b ++ rest) in *.
  assert (Hf : header_fields b ++ le_bytes 4 (crc32 (header_fields b)) ++ rest = data).
  { unfold data, header_bytes. by rewrite <- app_assoc. }
  assert (Hlf : length (header_fields b) = 12%nat) by (unfold header_fields; by rewrite !length_app, !length_le_bytes).
  pose proof (crc32_width (header_fields b)) as Hcrc.
  pose proof (header_flags_ok b) as Hfl.
  assert (Hstep : forall A B (m : Rd A) bs v (f : A -> Rd B) pre post, parses m bs v -> data = pre ++ bs ++ post ->
    rd_bind m f (Rdr data (length pre)) = f v (Rdr data (length (pre ++ bs)))).
  { intros A B m bs v f pre post Hm E. unfold rd_bind. rewrite E in *. rewrite (Hm pre post Hok). cbn [obind].
    by rewrite length_app. }
  change (Rdr data 0) with (Rdr data (length ([] : bytes))).
  assert (E : data = kMagic ++ le_bytes 2 1 ++ le_bytes 2 (header_flags b) ++
    le_bytes 2 (u16 (Z.of_nat (length (b_sections b)))) ++ le_bytes 2 0 ++ le_bytes 4 (crc32 (header_fields b)) ++ rest).
  { rewrite <- Hf. unfold header_fields at 1. rewrite Hv. by rewrite <- !app_assoc. }
  rewrite (Hstep _ _ (read_raw 4) kMagic kMagic _ [] _ (parses_read_bytes 4 kMagic eq_refl) E).
  rewrite bool_decide_eq_true_2 by done. cbn [negb app].
  erewrite (Hstep _ _ read_u16le (le_bytes 2 1) 1); [|apply parses_u16le; unfold is_u16; lia|exact E].
  change (negb (1 =? 1)) with false. cbv iota.
  erewrite (Hstep _ _ read_u16le (le_bytes 2 (header_flags b))); [|by apply parses_u16le|rewrite E, <- !app_assoc; reflexivity].
  erewrite (Hstep _ _ read_u16le (le_bytes 2 (u16 (Z.of_nat (length (b_sections b))))));
    [|apply parses_u16le; width; lia|rewrite E, <- !app_assoc; reflexivity].
  erewrite (Hstep _ _ read_u16le (le_bytes 2 0)); [|apply parses_u16le; unfold is_u16; lia|rewrite E, <- !app_assoc; reflexivity].
  erewrite (Hstep _ _ read_u32le (le_bytes 4 (crc32 (header_fields b))));
    [|by apply parses_u32le|rewrite E, <- !app_assoc; reflexivity].
  cbv beta. cbn [rd_data]. unfold copy_range. change (Z.to_nat kHeaderBytes) with 12%nat.
  assert (Hld : (12 <= length data)%nat) by (rewrite <- Hf, length_app, Hlf; lia).
  rewrite (proj2 (Nat.leb_le (0 + 12) _) Hld). cbn [obind]. rewrite drop_0.
  replace (take 12 data) with (header_fields b) by (rewrite <- Hf, <- Hlf; by rewrite take_app_length).
  unfold verify_crc. rewrite Z.eqb_refl. cbn [obind]. do 3 f_equal.
Qed.

(** The sections [build] wrote, as [parse] returns them. *)
Definition section_records (s : SectionSpec) : list BRecord :=
  if bool_decide (sp_type s = kFree) then [] else map record_of (sp_records s).

Definition section_of (s : SectionSpec) (explicit : bool) (off : Z) : BSection :=
  let e := (item_of s explicit).1 in
  MkSection (sp_type s) (sp_id s) (sp_flags s) off (e_length e) (e_item_count e) (e_crc32 e) true (section_records s).

Fixpoint built_sections (off : Z) (specs : list SectionSpec) (explicit : list bool) : list BSection :=
  match specs, explicit with
  | s :: specs', e :: explicit' =>
      section_of s e off :: built_sections (off + Z.of_nat (length (section_body s))) specs' explicit'
  | _, _ => []
  end.

Definition built_metadata (specs : list SectionSpec) : list (bytes * BRecord) :=
  concat (map (fun s => if bool_decide (sp_type s = kMetadata) then collect_metadata (section_records s) else []) specs).

Definition spec_section_ok (max_depth : Z) (s : SectionSpec) : Prop :=
  is_u16 (sp_id s) /\ is_u16 (sp_flags s) /\ is_u32 (sp_item_count s) /\ Forall (spec_ok max_depth) (sp_records s).

Lemma section_body_eq s :
  section_body s = if bool_decide (sp_type s = kFree) then [] else concat (map spec_bytes (sp_records s)).
Proof.
  unfold section_body. case_bool_decide; [done|].
  by rewrite <- (app_nil_l (concat _)), <- put_children_app.
Qed.

Lemma section_body_ok max_depth s : spec_section_ok max_depth s -> bytes_ok (section_body s).
Proof.
  intros (_ & _ & _ & H). rewrite section_body_eq. case_bool_decide; [by constructor|].
  induction H as [|r l Hr Hl IH]; cbn [map concat]; [by constructor|].
  apply bytes_ok_app. split; [by eapply record_bytes_ok|done].
Qed.

Lemma copy_mid (P B T : bytes) : copy_range (P ++ B ++ T) (length P) (length B) = Ok B.
Proof.
  unfold copy_range. rewrite (proj2 (Nat.leb_le _ _)) by (rewrite !length_app; lia).
  by rewrite drop_app_exact, take_app_length.
Qed.

Lemma parse_section_built strict max_depth P T s explicit :
  spec_section_ok max_depth s -> Z.of_nat (length (section_body s)) < 2 ^ 32 ->
  parse_section strict max_depth (P ++ section_body s ++ T) (at_offset (Z.of_nat (length P)) (item_of s explicit).1) =
  Ok (section_of s explicit (Z.of_nat (length P))).
Proof.
  intros Hs Hlen. unfold parse_section, at_offset, item_of, section_of.
  cbn [fst e_type e_id e_flags e_offset e_length e_item_count e_crc32]. unfold item_of. cbn [fst e_length e_item_count e_crc32].
  set (data := P ++ section_body s ++ T) in *.
  assert (Hl : (length P + length (section_body s) <= length data)%nat) by (unfold data; rewrite !length_app; lia).
  assert (Hu : u32 (Z.of_nat (length (section_body s))) = Z.of_nat (length (section_body s))).
  { unfold u32. apply Z.mod_small. lia. }
  rewrite Hu. rewrite (proj2 (Z.ltb_ge (Z.of_nat (length data)) (Z.of_nat (length P)))) by lia.
  rewrite (proj2 (Z.ltb_ge (Z.of_nat (length data)) _)) by lia.
  rewrite (proj2 (Z.ltb_ge _ (Z.of_nat (length P)))) by lia. cbn [orb].
  rewrite !Nat2Z.id. unfold data. rewrite copy_mid. cbn [obind]. unfold verify_crc. rewrite Z.eqb_refl. cbn [obind].
  unfold section_records. case_bool_decide as Ht; [done|]. rewrite section_body_eq at 1.
  rewrite bool_decide_eq_false_2 by done.
  rewrite parse_stream_encoded by (rewrite Z.sub_0_r; apply Hs). done.
Qed.

Lemma sections_loop_built strict max_depth specs : forall explicit P T secs meta,
  Forall (spec_section_ok max_depth) specs -> length explicit = length specs ->
  Z.of_nat (length (concat (map section_body specs))) < 2 ^ 32 ->
  sections_loop strict max_depth (P ++ concat (map section_body specs) ++ T)
    (placed (Z.of_nat (length P)) (zip_with item_of specs explicit)) secs meta =
  Ok (secs ++ built_sections (Z.of_nat (length P)) specs explicit, meta ++ built_metadata specs).
Proof.
  induction specs as [|s specs IH]; intros explicit P T secs meta Hok Hex Hlen.
  { cbn. by rewrite !app_nil_r. }
  destruct explicit as [|ex explicit]; [done|]. apply Forall_cons in Hok as [Hs Hok].
  cbn [map concat zip_with] in *. rewrite length_app in Hlen. rewrite <- (app_assoc (section_body s)).
  change (item_of s ex) with ((item_of s ex).1, section_body s). cbn [placed sections_loop].
  rewrite parse_section_built by (done || lia). cbn [obind].
  specialize (IH explicit (P ++ section_body s) T (secs ++ [section_of s ex (Z.of_nat (length P))])
    (if bool_decide (sp_type s = kMetadata) then meta ++ collect_metadata (section_records s) else meta) Hok).
  rewrite <- !app_assoc in IH. rewrite (length_app P (section_body s)), (Nat2Z.inj_add (length P) (length (section_body s))) in IH.
  change (e_type (at_offset _ _)) with (sp_type s). change (sec_records (section_of _ _ _)) with (section_records s).
  rewrite IH; [|by injection Hex|lia]. f_equal. f_equal.
  unfold built_metadata. cbn [map concat]. case_bool_decide; [by rewrite <- app_assoc|done].
Qed.

Lemma built_sections_clean off specs explicit b :
  fold_left (fun b s => b && body_checksum_ok s) (built_sections off specs explicit) b = b.
Proof.
  revert off explicit b. induction specs as [|s specs IH]; intros off [|e explicit] b; try done.
  cbn [built_sections fold_left section_of body_checksum_ok]. by rewrite andb_true_r, IH.
Qed.

Lemma check_trailer_built strict w : bytes_ok w -> (16 <= length w)%nat ->
  check_trailer strict (w ++ le_bytes 4 (crc32 w)) = Ok true.
Proof.
  intros Hw Hl. unfold check_trailer, kHeaderTotal, kTrailerBytes. rewrite length_app, length_le_bytes.
  rewrite (proj2 (Z.ltb_ge _ _)) by lia.
  replace (Z.to_nat (Z.of_nat (length w + 4) - 4)) with (length w) by lia.
  pose proof (copy_mid w (le_bytes 4 (crc32 w)) []) as Hc. rewrite app_nil_r, length_le_bytes in Hc.
  change (Z.to_nat 4) with 4%nat. rewrite Hc. cbn [obind].
  pose proof (parses_end _ _ _ (parses_u32le _ (crc32_width w)) [] (le_bytes_ok 4 (crc32 w))) as Hr.
  cbn [app length] in Hr. unfold mk_reader. rewrite Hr. cbn [obind].
  pose proof (copy_mid [] w (le_bytes 4 (crc32 w))) as Hc2. cbn [app length] in Hc2. rewrite Hc2. cbn [obind].
  unfold verify_crc. by rewrite Z.eqb_refl.
Qed.

Definition built_container (b : Builder) : Container :=
  MkContainer 1 (header_flags b) (Z.of_nat (length (b_sections b))) (b_has_metadata b) (b_has_trailer_crc b)
    true true true (built_sections (table_end b) (b_sections b) (b_explicit b)) (built_metadata (b_sections b)).

Lemma placed_ok max_depth off specs : forall explicit,
  Forall (spec_section_ok max_depth) specs -> 0 <= off ->
  off + Z.of_nat (length (concat (map section_body specs))) < 2 ^ 32 ->
  Forall entry_ok (placed off (zip_with item_of specs explicit)).
Proof.
  revert off. induction specs as [|s specs IH]; intros off explicit Hok Hoff Hlen; [by constructor|].
  destruct explicit as [|ex explicit]; [by apply Forall_nil|]. apply Forall_cons in Hok as [(Hi & Hf & Hn & _) Hok].
  cbn [map concat] in Hlen. rewrite length_app in Hlen. cbn [zip_with].
  change (item_of s ex) with ((item_of s ex).1, section_body s). cbn [placed]. apply Forall_cons. split.
  - unfold entry_ok, at_offset, item_of. cbn [fst e_id e_flags e_offset e_length e_item_count e_crc32].
    split; [done|]. split; [done|]. split; [unfold is_u32; lia|]. split; [width; lia|].
    split; [destruct ex; [done|width; lia]|apply crc32_width].
  - apply IH; [done|lia|lia].
Qed.

Lemma file_bytes_ok max_depth b : Forall (spec_section_ok max_depth) (b_sections b) -> builder_ok b -> bytes_ok (file_bytes b).
Proof.
  intros Hs Hb. unfold file_bytes. rewrite !bytes_ok_app. split; [|split].
  - unfold header_bytes, header_fields, kMagic. rewrite !bytes_ok_app.
    split; [|apply le_bytes_ok]. split; [by apply (bool_decide_unpack _); vm_compute|]. auto using le_bytes_ok.
  - unfold table_bytes. induction (placed _ _) as [|e l IH]; cbn [map concat]; [by constructor|].
    apply bytes_ok_app. split; [apply table_entry_ok|done].
  - unfold body_bytes. rewrite items_snd by done. induction Hs as [|s l H Hl IH]; cbn [map concat]; [by constructor|].
    apply bytes_ok_app. split; [by eapply section_body_ok|done].
Qed.

(** The trailer, and the layout of a file with it. *)
Definition trailer_bytes (b : Builder) : bytes :=
  if b_has_trailer_crc b then le_bytes 4 (crc32 (file_bytes b)) else [].

Lemma with_trailer_app b : with_trailer b (file_bytes b) = file_bytes b ++ trailer_bytes b.
Proof. unfold with_trailer, trailer_bytes. case_bool; [done|by rewrite app_nil_r]. Qed.

Lemma trailer_bytes_ok b : bytes_ok (trailer_bytes b).
Proof. unfold trailer_bytes. case_bool; [apply le_bytes_ok|by constructor]. Qed.

Lemma file_layout b T : builder_ok b -> file_bytes b ++ T =
  header_bytes b ++ table_bytes (placed (table_end b) (items_of b)) ++ concat (map section_body (b_sections b)) ++ T.
Proof. intros Hb. unfold file_bytes, body_bytes. rewrite items_snd by done. by rewrite <- !app_assoc. Qed.

Lemma length_file_bytes b : builder_ok b ->
  length (file_bytes b) = (16 + (24 * length (b_sections b) + length (concat (map section_body (b_sections b)))))%nat.
Proof.
  intros Hb. unfold file_bytes, body_bytes. rewrite !length_app, length_header_bytes, length_table_bytes, length_placed,
    length_items, items_snd by done. done.
Qed.

Lemma header_flags_bits b : negb (Z.land (header_flags b) 1 =? 0) = b_has_metadata b /\
  negb (Z.land (header_flags b) 2 =? 0) = b_has_trailer_crc b.
Proof. unfold header_flags. by destruct (b_has_metadata b), (b_has_trailer_crc b). Qed.

Lemma parse_built strict max_depth b :
  builder_ok b -> b_version b = 1 -> Forall (spec_section_ok max_depth) (b_sections b) ->
  Z.of_nat (length (b_sections b)) < 2 ^ 16 -> Z.of_nat (length (file_bytes b)) < 2 ^ 32 ->
  parse strict max_depth (with_trailer b (file_bytes b)) = Ok (built_container b).
Proof.
  intros Hb Hv Hs Hn Hlen. pose proof (file_bytes_ok max_depth b Hs Hb) as Hfb.
  pose proof (length_file_bytes b Hb) as Hl16. pose proof (trailer_bytes_ok b) as HT.
  unfold parse. rewrite with_trailer_app. set (T := trailer_bytes b) in *. pose proof (file_layout b T Hb) as E.
  set (data := file_bytes b ++ T) in *. assert (Hok : bytes_ok data) by (by apply bytes_ok_app).
  assert (Hu : u16 (Z.of_nat (length (b_sections b))) = Z.of_nat (length (b_sections b))).
  { unfold u16. apply Z.mod_small. lia. }
  assert (Hh : parse_header strict (mk_reader data) = Ok (MkHead 1 (header_flags b) (Z.of_nat (length (b_sections b))) true, Rdr data 16)).
  { rewrite <- Hu, E. apply parse_header_built; [done|by rewrite <- E]. }
  unfold rd_bind at 1. rewrite Hh. cbn [obind]. unfold rd_bind at 1, read_table. cbn [hd_section_count].
  unfold kHeaderTotal, kSectionEntryBytes. rewrite (proj2 (Z.ltb_ge _ _)) by (unfold data; rewrite length_app, Hl16; lia).
  rewrite Nat2Z.id. assert (Hentries : Forall entry_ok (placed (table_end b) (items_of b))).
  { apply (placed_ok max_depth); [done|unfold table_end; lia|unfold table_end; lia]. }
  pose proof (parses_table _ [] Hentries (header_bytes b) (concat (map section_body (b_sections b)) ++ T)) as Ht.
  rewrite length_placed, length_items, length_header_bytes, <- E in Ht by done. rewrite Ht by done. cbn [obind app].
  unfold rd_ret. cbn [obind].
  assert (Hend : table_end b = Z.of_nat (length (header_bytes b ++ table_bytes (placed (table_end b) (items_of b))))).
  { rewrite length_app, length_header_bytes, length_table_bytes, length_placed, length_items by done. unfold table_end. lia. }
  pose proof (sections_loop_built strict max_depth (b_sections b) (b_explicit b)
    (header_bytes b ++ table_bytes (placed (table_end b) (items_of b))) T [] [] Hs Hb) as Hsec.
  rewrite <- Hend, <- app_assoc, <- E in Hsec. fold (items_of b) in Hsec. rewrite Hsec by lia. cbn [obind].
  cbn [hd_flags hd_checksum_ok hd_version hd_section_count]. destruct (header_flags_bits b) as [-> ->].
  assert (Htr : (if b_has_trailer_crc b then check_trailer strict data else Ok true) = Ok true).
  { unfold data, T, trailer_bytes. destruct (b_has_trailer_crc b); [|done]. apply check_trailer_built; [done|lia]. }
  rewrite Htr. cbn [obind app]. unfold built_container. by rewrite built_sections_clean.
Qed.

(** ** Building through the interface *)

Inductive builder_op :=
  | OpVersion (v : Z) | OpMetadata (on : bool) | OpTrailer (on : bool)
  | OpSection (t : SectionType) (i flags : Z) | OpRecord (r : RecordSpec) | OpCount (n : Z)
  | OpEdit (f : SectionSpec -> SectionSpec).

Definition apply_op (b : Builder) (op : builder_op) : Builder :=
  match op with
  | OpVersion v => set_version v b | OpMetadata on => set_has_metadata on b | OpTrailer on => set_has_trailer_crc on b
  | OpSection t i f => add_section t i f b | OpRecord r => add_record r b | OpCount n => set_item_count n b
  | OpEdit f => edit_section f b
  end.

Definition run_builder (ops : list builder_op) : Builder := fold_left apply_op ops new_builder.

Lemma length_update_last {A} (f : A -> A) l : length (update_last f l) = length l.
Proof. unfold update_last. destruct l; [done|apply length_alter]. Qed.

Lemma run_builder_ok ops : builder_ok (run_builder ops).
Proof.
  unfold run_builder. assert (H : builder_ok new_builder) by done. revert H. generalize new_builder.
  induction ops as [|op ops IH]; intros b Hb; [done|]. cbn [fold_left]. apply IH. unfold builder_ok in *.
  destruct op; cbn [apply_op set_version set_has_metadata set_has_trailer_crc add_section add_record set_item_count edit_section
    b_explicit b_sections]; rewrite ?length_app, ?length_update_last; try done.
  - simpl. lia.
  - destruct (b_sections b); [done|]. by rewrite length_update_last.
Qed.

(** ** Parsing arbitrary bytes *)

Lemma verify_crc_holds computed stored strict off what :
  oholds (verify_crc computed stored strict off what) (fun ok => ok = (computed =? stored) /\ (strict = true -> ok = true)).
Proof. unfold verify_crc. destruct (computed =? stored); [done|]. destruct strict; done. Qed.

Lemma triple_table_entry : triple 24 read_entry entry_ok.
Proof.
  unfold read_entry. apply (triple_bind 2 22 _ _ is_u16); [apply triple_u16le|]. intros raw _.
  destruct (section_type_of raw) as [t|]; [|intros r Hr; done].
  apply (triple_bind 2 20 _ _ is_u16); [apply triple_u16le|]. intros i Hi.
  apply (triple_bind 2 18 _ _ is_u16); [apply triple_u16le|]. intros f Hf.
  apply (triple_bind 2 16 _ _ is_u16); [apply triple_u16le|]. intros _ _.
  apply (triple_bind 4 12 _ _ is_u32); [apply triple_u32le|]. intros o Ho.
  apply (triple_bind 4 8 _ _ is_u32); [apply triple_u32le|]. intros l Hl.
  apply (triple_bind 4 4 _ _ is_u32); [apply triple_u32le|]. intros n Hn.
  apply (triple_bind 4 0 _ _ is_u32); [apply triple_u32le|]. intros c Hc.
  apply triple_ret. unfold entry_ok. auto 10.
Qed.

Lemma triple_table n acc : Forall entry_ok acc ->
  triple 0 (table_loop n acc) (fun l => Forall entry_ok l /\ length l = (length acc + n)%nat).
Proof.
  revert acc. induction n as [|n IH]; intros acc Hacc; cbn [table_loop].
  - apply triple_ret. split; [done|lia].
  - eapply triple_step; [apply triple_table_entry|]. intros e He.
    eapply triple_mono; [apply IH|done|].
    + apply Forall_app. split; [done|]. apply Forall_cons. split; [done|by apply Forall_nil].
    + intros l [Hl Hn]. split; [done|]. rewrite Hn, length_app. simpl. lia.
Qed.

Definition crc_of (data : bytes) (off len : Z) : Z := crc32 (take (Z.to_nat len) (drop (Z.to_nat off) data)).

(** What a parsed section satisfies. *)
Definition section_sound (strict : bool) (max_depth : Z) (data : bytes) (s : BSection) : Prop :=
  0 <= sec_offset s /\ 0 <= sec_length s /\ sec_offset s + sec_length s <= Z.of_nat (length data) /\
  body_checksum_ok s = (crc_of data (sec_offset s) (sec_length s) =? crc32_stored s) /\
  (strict = true -> body_checksum_ok s = true) /\
  (sec_type s = kFree -> sec_records s = []) /\ Forall (rec_ok max_depth) (sec_records s).

Lemma parse_section_safe strict max_depth data e : bytes_ok data -> entry_ok e ->
  oholds (parse_section strict max_depth data e) (fun s => section_sound strict max_depth data s /\ sec_type s = e_type e).
Proof.
  intros Hd (Hi & Hf & Ho & Hl & Hn & Hc). unfold parse_section, is_u32 in *.
  destruct (Z.ltb_spec (Z.of_nat (length data)) (e_offset e)); [done|].
  destruct (Z.ltb_spec (Z.of_nat (length data)) (e_offset e + e_length e)); [done|].
  rewrite (proj2 (Z.ltb_ge _ (e_offset e))) by lia. cbn [orb].
  unfold copy_range. rewrite (proj2 (Nat.leb_le _ _)) by lia. cbn [obind].
  eapply oholds_bind; [apply verify_crc_holds|]. intros ok [Hok Hstrict].
  eapply oholds_bind with (P := fun rs => (e_type e = kFree -> rs = []) /\ Forall (rec_ok max_depth) rs).
  - case_bool_decide; [cbn; split; [done|by apply Forall_nil]|].
    eapply oholds_mono; [apply parse_stream_safe; auto with bw|]. intros rs Hrs. rewrite Z.sub_0_r in Hrs. by split.
  - intros rs [Hfree Hrs]. cbn. split; [|done]. unfold section_sound.
    cbn [sec_offset sec_length crc32_stored body_checksum_ok sec_type sec_records].
    split; [lia|]. split; [lia|]. split; [lia|]. split; [done|]. split; [done|]. by split.
Qed.

Lemma sections_loop_safe strict max_depth data entries secs meta :
  bytes_ok data -> Forall entry_ok entries -> Forall (section_sound strict max_depth data) secs ->
  oholds (sections_loop strict max_depth data entries secs meta) (fun '(ss, ms) =>
    Forall (section_sound strict max_depth data) ss /\ length ss = (length secs + length entries)%nat).
Proof.
  intros Hd He. revert secs meta. induction He as [|e l He Hl IH]; intros secs meta Hs; cbn [sections_loop].
  - split; [done|]. simpl. lia.
  - eapply oholds_bind; [by apply parse_section_safe|]. intros s [Hsec _].
    eapply oholds_mono; [apply IH; apply Forall_app; split; [done|]; apply Forall_cons; split; [done|by apply Forall_nil]|].
    intros [ss ms] [H1 H2]. split; [done|]. rewrite H2, length_app. simpl. lia.
Qed.

Lemma fold_ok l b : fold_left (fun b s => b && body_checksum_ok s) l b = b && forallb body_checksum_ok l.
Proof.
  revert b. induction l as [|s l IH]; intros b; cbn [fold_left forallb]; [by rewrite andb_true_r|].
  rewrite IH. by rewrite andb_assoc.
Qed.

(** One step, keeping track of the progress since [r0]. *)
Lemma bind_adv {A B} k n (m : Rd A) (f : A -> Rd B) P Q r0 r :
  advances k r0 r -> triple n m P ->
  (forall a r', advances (k + n) r0 r' -> P a -> oholds (f a r') Q) -> oholds (rd_bind m f r) Q.
Proof.
  intros (Hr & Hd & Hp) Hm Hf. unfold rd_bind. eapply oholds_bind; [by apply Hm|]. intros [a r'] [(Hr' & Hd' & Hp') HP].
  apply Hf; [|done]. split; [done|]. split; [congruence|lia].
Qed.

Lemma parse_header_safe strict data : bytes_ok data ->
  oholds (parse_header strict (mk_reader data)) (fun '(h, r) => rd_ok r /\ rd_data r = data /\ (16 <= rd_pos r)%nat /\
    hd_version h = 1 /\ is_u16 (hd_flags h) /\ is_u16 (hd_section_count h) /\
    (strict = true -> hd_checksum_ok h = true)).
Proof.
  intros Hd. unfold parse_header.
  assert (H0 : advances 0 (mk_reader data) (mk_reader data)) by (split; [by apply rd_ok_mk|split; [done|simpl; lia]]).
  eapply (bind_adv 0 4); [exact H0|apply (triple_bytes 4); lia|]. intros magic r1 Hr1 _.
  destruct (negb _); [done|]. eapply bind_adv; [exact Hr1|apply triple_u16le|]. intros v r2 Hr2 _.
  destruct (negb (v =? 1)) eqn:Ev; [done|]. apply negb_false_iff, Z.eqb_eq in Ev.
  eapply bind_adv; [exact Hr2|apply triple_u16le|]. intros f r3 Hr3 Hf.
  eapply bind_adv; [exact Hr3|apply triple_u16le|]. intros n r4 Hr4 Hn.
  eapply bind_adv; [exact Hr4|apply triple_u16le|]. intros _ r5 Hr5 _.
  eapply bind_adv; [exact Hr5|apply triple_u32le|]. intros crc r6 Hr6 _.
  destruct Hr6 as (Hok & Hdata & Hpos). cbn [rd_data rd_pos mk_reader] in Hdata, Hpos.
  assert (Hlen : (16 <= length data)%nat) by (destruct Hok as [_ Hle]; rewrite Hdata in Hle; simpl in Hpos; lia).
  unfold copy_range. change (Z.to_nat kHeaderBytes) with 12%nat. rewrite Hdata.
  rewrite (proj2 (Nat.leb_le _ _)) by lia. cbn [obind].
  eapply oholds_bind; [apply verify_crc_holds|]. intros ok [_ Hst]. cbn.
  split; [done|]. split; [done|]. split; [simpl in Hpos; lia|]. split; [done|]. split; [done|]. split; done.
Qed.

Lemma check_trailer_safe strict data : bytes_ok data ->
  oholds (check_trailer strict data) (fun ok => strict = true -> ok = true).
Proof.
  intros Hd. unfold check_trailer, kHeaderTotal, kTrailerBytes.
  destruct (Z.ltb_spec (Z.of_nat (length data)) (16 + 4)); [done|].
  unfold copy_range. rewrite (proj2 (Nat.leb_le _ _)) by lia. cbn [obind].
  eapply oholds_bind; [apply triple_u32le, rd_ok_mk; auto with bw|]. intros [stored r'] _.
  rewrite (proj2 (Nat.leb_le _ _)) by lia. cbn [obind].
  eapply oholds_mono; [apply verify_crc_holds|]. by intros ok [_ H'].
Qed.

(** What a parsed container satisfies. *)
Definition container_sound (strict : bool) (max_depth : Z) (data : bytes) (c : Container) : Prop :=
  c_version c = 1 /\ section_count c = Z.of_nat (length (sections c)) /\
  Forall (section_sound strict max_depth data) (sections c) /\
  checksum_ok c = header_checksum_ok c && trailer_checksum_ok c && forallb body_checksum_ok (sections c) /\
  (strict = true -> checksum_ok c = true).

Lemma parse_container_sound strict max_depth data : bytes_ok data ->
  oholds (parse strict max_depth data) (container_sound strict max_depth data).
Proof.
  intros Hd. unfold parse, container_sound. unfold rd_bind at 1.
  pose proof (parse_header_safe strict data Hd) as Hh.
  destruct (parse_header strict (mk_reader data)) as [[hdr r]|e| |]; [|done|destruct Hh..]. cbn [obind].
  destruct Hh as (Hr & Hrd & Hrp & Hv & Hf & Hn & Hst).
  eapply oholds_bind with (P := fun '((h, es), _) => h = hdr /\ Forall entry_ok es /\
    Z.of_nat (length es) = hd_section_count hdr).
  - unfold rd_bind at 1, read_table. destruct (_ <? _); [done|].
    eapply oholds_bind; [apply (triple_table _ [] ltac:(by apply Forall_nil) r Hr)|].
    intros [es r'] [_ [Hes Hl]]. cbn. split; [done|]. split; [done|]. rewrite Hl. cbn. unfold is_u16 in Hn. lia.
  - intros [[h es] r'] (-> & Hes & Hl).
    eapply oholds_bind; [by apply (sections_loop_safe strict max_depth data es [] [] Hd Hes), Forall_nil|].
    intros [ss ms] [Hss Hlen]. eapply oholds_bind with (P := fun ok => strict = true -> ok = true).
    { destruct (negb _); [by apply check_trailer_safe|done]. }
    intros tok Htok. cbn. split; [done|]. split; [rewrite Hlen; simpl; lia|]. split; [done|].
    rewrite fold_ok. split; [done|]. intros Hs. rewrite Hst, Htok by done. cbn [andb].
    apply forallb_forall. intros s Hin. apply list_elem_of_In in Hin. rewrite Forall_forall in Hss.
    destruct (Hss s Hin) as (_ & _ & _ & _ & H & _). by apply H.
Qed.

(** A declared count written through that reference is not the one in the file: without
    [set_item_count], [build] counts the records. *)
Lemma item_count_by_reference_ignored n :
  build (run_builder [OpSection kData 1 0;
    OpEdit (fun s => MkSpecSection (sp_type s) (sp_id s) (sp_flags s) n (sp_records s))]) =
  build (run_builder [OpSection kData 1 0]).
Proof. reflexivity. Qed.

(** ** Claims *)

(** C16. Parsing any bytes as a container, with any options, never reads outside
    the buffer and always ends. What it returns is sound: as many sections as the
    header declares, every body inside the file with its checksum verdict right and
    its records within the depth limit, FREE sections without records; the overall
    verdict is the conjunction of the header's, the trailer's and every section's;
    and in strict mode it is true. *)
Theorem parse_sound (strict : bool) (max_depth : Z) (data : bytes) :
  bytes_ok data ->
  oholds (parse strict max_depth data) (fun c =>
    c_version c = 1 /\ section_count c = Z.of_nat (length (sections c)) /\
    Forall (section_sound strict max_depth data) (sections c) /\
    checksum_ok c = header_checksum_ok c && trailer_checksum_ok c && forallb body_checksum_ok (sections c) /\
    (strict = true -> checksum_ok c = true)).
Proof. apply parse_container_sound. Qed.

Definition sample_ops : list builder_op :=
  [OpTrailer true; OpSection BinPack.kMetadata 7 0; OpRecord (Keyval [107] (Uint 300)); OpSection BinPack.kFree 0 0;
   OpSection BinPack.kData 1 2; OpRecord sample_spec; OpRecord (Int (-1)); OpCount 9;
   OpEdit (fun s => MkSpecSection (sp_type s) 3 (sp_flags s) (sp_item_count s) (rev (sp_records s)))].

Definition sample_file : bytes :=
  match build (run_builder sample_ops) with Ok d => d | _ => [] end.

Lemma parse_sound_witness :
  (exists c, parse true 32 sample_file = Ok c /\ checksum_ok c = true /\ length (sections c) = 3%nat) /\
  parse false 32 (take 30 sample_file) = Throw (parse_error kBadLength 16 "section table exceeds file size").
Proof.
  split; [|vm_compute; reflexivity].
  assert (Hd : bytes_ok sample_file) by (by apply (bool_decide_unpack _); vm_compute).
  pose proof (parse_sound true 32 sample_file Hd) as H.
  destruct (parse true 32 sample_file) as [c|e| |] eqn:E; [|vm_compute in E; discriminate E..].
  destruct H as (_ & Hn & _ & _ & Hs). exists c. split; [reflexivity|]. split; [by apply Hs|].
  vm_compute in E. injection E as <-. reflexivity.
Defined.

(** C4. Building and parsing are inverse: any container put together through the
    builder's operations and writes through the references it returns, with values at their widths, nesting within the limit and
    a size that fits the offsets, is serialised without error, and parsing it back,
    even strictly, gives exactly its sections in order - types, ids, flags, item
    counts (declared or counted), placed one after the other - with every record
    tree, the metadata view, and every checksum verified. *)
Theorem build_parse_roundtrip (ops : list builder_op) (strict : bool) (max_depth : Z) :
  let b := run_builder ops in
  b_version b = 1 -> Forall (spec_section_ok max_depth) (b_sections b) ->
  Z.of_nat (length (b_sections b)) < 2 ^ 16 -> Z.of_nat (length (file_bytes b)) < 2 ^ 32 ->
  exists data, build b = Ok data /\ parse strict max_depth data = Ok (built_container b).
Proof.
  intros b Hv Hs Hn Hlen. pose proof (run_builder_ok ops) as Hb. exists (with_trailer b (file_bytes b)).
  split; [by apply build_eq|by apply parse_built].
Qed.

Lemma build_parse_roundtrip_witness :
  exists data, build (run_builder sample_ops) = Ok data /\
    parse true 32 data = Ok (built_container (run_builder sample_ops)).
Proof.
  refine (build_parse_roundtrip sample_ops true 32 _ _ _ _).
  - reflexivity.
  - assert (H1 : spec_ok 32 sample_spec).
    { cbv [spec_ok fold_right sample_spec Group Int Keyval Array Uint String Float Blob].
      repeat first [apply conj | exact I | lia | by vm_compute | by apply (bool_decide_unpack _); vm_compute]. }
    assert (H2 : spec_ok 32 (Int (-1))) by (cbv [spec_ok Int]; repeat first [apply conj | lia | by vm_compute]).
    assert (H3 : spec_ok 32 (Keyval [107] (Uint 300))).
    { cbv [spec_ok fold_right Keyval Uint].
      repeat first [apply conj | exact I | lia | by vm_compute | by apply (bool_decide_unpack _); vm_compute]. }
    cbn. rewrite !Forall_cons, Forall_nil. unfold spec_section_ok, is_u16, is_u32. cbn [sp_id sp_flags sp_item_count sp_records].
    rewrite !Forall_cons, !Forall_nil. auto 12 with lia.
  - vm_compute. reflexivity.
  - vm_compute. reflexivity.
Defined.
