(* ===== verification/Integrity.v ===== *)
(** * Integrity: what the checksums of a container are good for

    The CRC-32 ([common/checksum.cpp]), the order in which the parser verifies it
    ([binpack/parser.cpp]) and the builder that writes it ([binpack/builder.cpp]),
    composed: damage to a file with a trailer does not go unnoticed. *)

From S2P Require Import Prelude Status ByteIO Checksum BinRecord BinPack.

(** ** Codewords *)

(** A message followed by its own checksum, least significant byte first. *)
Definition codeword (w : bytes) : Prop :=
  (4 <= length w)%nat /\ le_val (drop (length w - 4) w) = crc32 (take (length w - 4) w).

#[export] Instance codeword_dec w : Decision (codeword w).
Proof. unfold codeword. apply _. Defined.

(** Feeding bytes is running the register over their value. *)
Lemma crc32_update_bits l : forall s, bytes_ok l ->
  crc32_update s l = Nat.iter (8 * length l) crc_step (Z.lxor s (le_val l)).
Proof.
  induction l as [|b l IH]; intros s Hok; [by rewrite Z.lxor_0_r|]. apply Forall_cons in Hok as [Hb Hl].
  cbn [crc32_update foldl length]. fold (crc32_update (crc32_byte s b) l). rewrite crc32_byte_is_ref, IH by done.
  unfold crc32_byte_ref. rewrite le_val_cons, <- Z.lxor_assoc by done.
  replace (8 * S (length l))%nat with (8 * length l + 8)%nat by lia.
  rewrite Nat.iter_add, !(crc_iter_lxor 8). pose proof (crc_iter_shift 8 (le_val l)) as E. change (Z.of_nat 8) with 8 in E.
  by rewrite E.
Qed.

(** All codewords have the same checksum. *)
Definition residue : Z := 0x2144DF1C.

Lemma codeword_residue w : bytes_ok w -> codeword w -> crc32 w = residue.
Proof.
  intros Hok [Hl Hc]. rewrite <- (take_drop (length w - 4) w) at 1.
  set (m := take (length w - 4) w) in *. set (c := drop (length w - 4) w) in *.
  assert (Hlc : length c = 4%nat) by (unfold c; rewrite length_drop; lia).
  assert (Hokc : bytes_ok c) by (unfold c; auto with bw).
  unfold crc32 at 1. rewrite crc32_update_app, crc32_update_bits, Hlc, Hc by done.
  unfold crc32, crc32_final. rewrite <- Z.lxor_assoc, Z.lxor_nilpotent, Z.lxor_0_l. by vm_compute.
Qed.


(** A codeword damaged in at most four consecutive bytes is not one any more, even
    when the damage reaches into the checksum. *)
Lemma codeword_burst p x y q : bytes_ok (p ++ x ++ q) -> bytes_ok y -> length x = length y -> (length x <= 4)%nat ->
  codeword (p ++ x ++ q) -> codeword (p ++ y ++ q) -> x = y.
Proof.
  intros Hok Hy Hl H4 Hcx Hcy. pose proof Hok as Hok'. rewrite !bytes_ok_app in Hok'. destruct Hok' as (Hp & Hx & Hq).
  apply codeword_residue in Hcx; [|done]. apply codeword_residue in Hcy; [|by rewrite !bytes_ok_app].
  apply (crc32_burst_inj p x y q); congruence || done.
Qed.

(** The same for the first bytes of a damaged buffer. *)
Lemma codeword_burst_take n p x y q : bytes_ok (p ++ x ++ q) -> bytes_ok y -> length x = length y -> (length x <= 4)%nat ->
  codeword (take n (p ++ x ++ q)) -> codeword (take n (p ++ y ++ q)) -> take n (p ++ x ++ q) = take n (p ++ y ++ q).
Proof.
  intros Hok Hy Hl H4. rewrite !take_app, <- Hl. intros Hcx Hcy.
  rewrite !bytes_ok_app in Hok. destruct Hok as (Hp & Hx & Hq). do 2 f_equal.
  eapply codeword_burst; [| | | |exact Hcx|exact Hcy].
  - rewrite !bytes_ok_app. auto with bw.
  - auto with bw.
  - rewrite !length_take. lia.
  - rewrite length_take. lia.
Qed.

(** ** What the parser has verified *)

Definition header_flags_of (data : bytes) : Z := le_val (take 2 (drop 6 data)).

Lemma parse_header_facts strict data h r : bytes_ok data -> parse_header strict (mk_reader data) = Ok (h, r) ->
  (16 <= length data)%nat /\ hd_flags h = header_flags_of data /\ (hd_checksum_ok h = true -> codeword (take 16 data)).
Proof.
  intros Hd H. assert (Hr0 : rd_ok (mk_reader data)) by by apply rd_ok_mk.
  unfold parse_header in H. unfold rd_bind in H.
  apply obind_ok_inv in H as ([magic r1] & H1 & H). apply (fixed_read_ok (Z.to_nat 4) _ id) in H1 as (-> & -> & Hr1); [|exact (fixed_bytes 4 ltac:(lia))|done].
  destruct (negb _); [done|].
  apply obind_ok_inv in H as ([v r2] & H2 & H). apply (fixed_read_ok _ _ _ _ _ _ fixed_u16le) in H2 as (-> & -> & Hr2); [|done].
  destruct (negb _); [done|].
  apply obind_ok_inv in H as ([f r3] & H3 & H). apply (fixed_read_ok _ _ _ _ _ _ fixed_u16le) in H3 as (-> & -> & Hr3); [|done].
  apply obind_ok_inv in H as ([n r4] & H4 & H). apply (fixed_read_ok _ _ _ _ _ _ fixed_u16le) in H4 as (-> & -> & Hr4); [|done].
  apply obind_ok_inv in H as ([z r5] & H5 & H). apply (fixed_read_ok _ _ _ _ _ _ fixed_u16le) in H5 as (-> & -> & Hr5); [|done].
  apply obind_ok_inv in H as ([crc r6] & H6 & H). apply (fixed_read_ok _ _ _ _ _ _ fixed_u32le) in H6 as (-> & -> & Hr6); [|done].
  destruct Hr6 as [_ Hlen]. cbn [rd_data rd_pos mk_reader] in *. unfold window in H. cbn [rd_data rd_pos mk_reader] in H.
  change (0 + Z.to_nat 4 + 2 + 2 + 2 + 2 + 4)%nat with 16%nat in Hlen. change (0 + Z.to_nat 4 + 2)%nat with 6%nat in H.
  change (6 + 2 + 2 + 2)%nat with 12%nat in H.
  apply obind_ok_inv in H as (covered & Hc & H). apply obind_ok_inv in H as (ok & Hv & H). injection H as <- <-.
  cbn [hd_flags hd_checksum_ok]. split; [done|]. split; [done|]. intros ->.
  unfold copy_range in Hc. destruct (_ <=? _)%nat; [|done]. injection Hc as <-. rewrite drop_0 in Hv. change (Z.to_nat kHeaderBytes) with 12%nat in Hv.
  pose proof (verify_crc_holds (crc32 (take 12 data)) (le_val (take 4 (drop 12 data))) strict 0 "header crc mismatch") as Hh.
  rewrite Hv in Hh. destruct Hh as [Hh _]. symmetry in Hh. apply Z.eqb_eq in Hh.
  unfold codeword. rewrite length_take. replace (16 `min` length data - 4)%nat with 12%nat by lia.
  split; [lia|]. pose proof (take_drop_commute data 4 12) as E. change (12 + 4)%nat with 16%nat in E. rewrite <- E, take_take. exact (eq_sym Hh).
Qed.

Lemma check_trailer_facts strict data : bytes_ok data -> check_trailer strict data = Ok true -> codeword data.
Proof.
  intros Hd. unfold check_trailer, kHeaderTotal, kTrailerBytes.
  destruct (Z.ltb_spec (Z.of_nat (length data)) (16 + 4)) as [|Hl]; [done|]. intros H.
  apply obind_ok_inv in H as (tail & Ht & H). apply obind_ok_inv in H as ([stored r] & Hs & H).
  apply obind_ok_inv in H as (covered & Hc & Hv). unfold copy_range in Ht, Hc.
  destruct (_ <=? _)%nat in Ht; [|done]. destruct (_ <=? _)%nat in Hc; [|done]. injection Ht as <-. injection Hc as <-.
  replace (Z.to_nat (Z.of_nat (length data) - 4)) with (length data - 4)%nat in * by lia. rewrite drop_0 in Hv.
  change (Z.to_nat 4) with 4%nat in Hs.
  rewrite take_ge in Hs by (rewrite length_drop; lia).
  apply (fixed_read_ok _ _ _ _ _ _ fixed_u32le) in Hs as (-> & _); [|apply rd_ok_mk; auto with bw].
  unfold window in Hv. cbn [mk_reader rd_data rd_pos] in Hv. rewrite drop_0, (take_ge (drop _ _)) in Hv by (rewrite length_drop; lia).
  match type of Hv with verify_crc ?a ?b ?s ?o ?w = _ => pose proof (verify_crc_holds a b s o w) as Hh end.
  rewrite Hv in Hh. destruct Hh as [Hh _]. symmetry in Hh. apply Z.eqb_eq in Hh. split; [lia|by rewrite Hh].
Qed.

(** A file parsed with every checksum right is a codeword twice over: its header, and,
    when its flags announce a trailer, the whole of it. *)
Lemma parse_codewords strict max_depth data c : bytes_ok data -> parse strict max_depth data = Ok c -> checksum_ok c = true ->
  (16 <= length data)%nat /\ codeword (take 16 data) /\
  has_trailer_crc c = negb (Z.land (header_flags_of data) 2 =? 0) /\ (has_trailer_crc c = true -> codeword data).
Proof.
  intros Hd H Hok. pose proof (parse_container_sound strict max_depth data Hd) as Hsound. rewrite H in Hsound.
  destruct Hsound as (_ & _ & _ & Hall & _). rewrite Hall in Hok. apply andb_true_iff in Hok as [Hok _].
  apply andb_true_iff in Hok as [Hhd Htr]. clear Hall.
  unfold parse in H. apply obind_ok_inv in H as ([[hdr entries] r] & Hp & H).
  unfold rd_bind in Hp. apply obind_ok_inv in Hp as ([h r1] & Hh & Hp). apply obind_ok_inv in Hp as ([es r2] & _ & Hp).
  injection Hp as -> -> ->. destruct (parse_header_facts strict data hdr r1 Hd Hh) as (Hlen & Hfl & Hcw).
  apply obind_ok_inv in H as ([secs meta] & _ & H). apply obind_ok_inv in H as (tok & Ht & H). injection H as <-.
  cbn [header_checksum_ok trailer_checksum_ok has_trailer_crc] in *. rewrite Hfl in *.
  split; [done|]. split; [by apply Hcw|]. split; [done|]. intros Hf. rewrite Hf in Ht. subst tok.
  by eapply check_trailer_facts.
Qed.

(** ** Strict and lenient parsing *)

(** [strict] succeeds exactly when [lenient] does with a value that passed its checks. *)
Definition checked {A} (passed : A -> bool) (strict lenient : outcome A) : Prop :=
  forall a, strict = Ok a <-> lenient = Ok a /\ passed a = true.

Lemma checked_same {A} (m : outcome A) : checked (fun _ => true) m m.
Proof. intros a. tauto. Qed.

Lemma checked_bind {A B} pa pb (m m' : outcome A) (f f' : A -> outcome B) :
  checked pa m m' -> (forall a, pa a = true -> checked pb (f a) (f' a)) ->
  (forall a b, m' = Ok a -> f' a = Ok b -> pb b = true -> pa a = true) -> checked pb (obind m f) (obind m' f').
Proof.
  intros Hm Hf Hb b. split.
  - intros (a & [Ha Hp]%Hm & H)%obind_ok_inv. rewrite Ha. cbn [obind]. by apply (Hf a Hp).
  - intros [(a & Ha & H)%obind_ok_inv Hp]. pose proof (Hb a b Ha H Hp) as Hpa.
    rewrite (proj2 (Hm a)) by done. cbn [obind]. by apply (Hf a Hpa).
Qed.

Lemma verify_crc_checked computed stored off what :
  checked id (verify_crc computed stored true off what) (verify_crc computed stored false off what).
Proof. intros ok. unfold verify_crc, id. destruct (computed =? stored); destruct ok; split; intros H; try done; by destruct H. Qed.

Lemma parse_section_checked max_depth data e :
  checked body_checksum_ok (parse_section true max_depth data e) (parse_section false max_depth data e).
Proof.
  unfold parse_section. destruct (_ || _); [intros s; split; [done|by intros []]|].
  apply (checked_bind (fun _ => true)); [apply checked_same| |done]. intros body _.
  apply (checked_bind id); [apply verify_crc_checked| |].
  - intros ok Hok s. split; [|by intros []]. intros H. split; [done|]. apply obind_ok_inv in H as (rs & _ & H). by injection H as <-.
  - intros ok s _ H Hs. apply obind_ok_inv in H as (rs & _ & H). by injection H as <-.
Qed.

Definition all_ok (r : list BSection * list (bytes * BRecord)) : bool := forallb body_checksum_ok r.1.

Lemma sections_loop_extends strict max_depth data entries : forall secs meta r,
  sections_loop strict max_depth data entries secs meta = Ok r -> all_ok r = true -> forallb body_checksum_ok secs = true.
Proof.
  induction entries as [|e entries IH]; intros secs meta r H Hr; cbn [sections_loop] in H; [by injection H as <-|].
  apply obind_ok_inv in H as (s & _ & H). apply IH in H; [|done]. rewrite forallb_app in H. by apply andb_true_iff in H as [? _].
Qed.

Lemma sections_loop_checked max_depth data entries : forall secs meta, forallb body_checksum_ok secs = true ->
  checked all_ok (sections_loop true max_depth data entries secs meta) (sections_loop false max_depth data entries secs meta).
Proof.
  induction entries as [|e entries IH]; intros secs meta Hs; cbn [sections_loop].
  { intros r. split; [|by intros []]. intros [= <-]. by split. }
  apply (checked_bind body_checksum_ok); [apply parse_section_checked| |].
  - intros s Hok. apply IH. rewrite forallb_app, Hs. cbn [forallb andb]. by rewrite Hok.
  - intros s r _ H Hr. apply sections_loop_extends in H; [|done]. rewrite forallb_app in H.
    apply andb_true_iff in H as [_ H]. cbn [forallb] in H. by rewrite andb_true_r in H.
Qed.

Lemma parse_header_checked r : checked (fun x => hd_checksum_ok x.1) (parse_header true r) (parse_header false r).
Proof.
  assert (Hno : forall A (p : A -> bool) e, checked p (Throw e) (Throw e)) by (intros A p e a; split; [done|by intros []]).
  unfold parse_header, rd_bind. apply (checked_bind (fun _ => true)); [apply checked_same| |done]. intros [magic r1] _.
  destruct (negb _); [apply Hno|]. apply (checked_bind (fun _ => true)); [apply checked_same| |done]. intros [v r2] _.
  destruct (negb _); [apply Hno|]. do 4 (apply (checked_bind (fun _ => true)); [apply checked_same| |done]; intros [? ?] _).
  apply (checked_bind (fun _ => true)); [apply checked_same| |done]. intros covered _.
  apply (checked_bind id); [apply verify_crc_checked| |].
  - intros ok Hok x. split; [|by intros []]. intros [= <-]. by split.
  - intros ok x _ [= <-] Hx. exact Hx.
Qed.

Lemma check_trailer_checked data : checked id (check_trailer true data) (check_trailer false data).
Proof.
  unfold check_trailer. case_match; [intros a; split; [done|by intros []]|].
  apply (checked_bind (fun _ => true)); [apply checked_same| |done]. intros tail _.
  apply (checked_bind (fun _ => true)); [apply checked_same| |done]. intros [stored r] _.
  apply (checked_bind (fun _ => true)); [apply checked_same| |done]. intros covered _. apply verify_crc_checked.
Qed.

Lemma parse_checked max_depth data : checked checksum_ok (parse true max_depth data) (parse false max_depth data).
Proof.
  unfold parse. apply (checked_bind (fun x => hd_checksum_ok x.1.1)).
  - unfold rd_bind at 1 3. apply (checked_bind (fun x => hd_checksum_ok x.1)); [apply parse_header_checked| |].
    + intros [h r] Hh x. split; [|by intros []]. intros H. split; [done|].
      apply obind_ok_inv in H as ([es r'] & _ & H). by injection H as <-.
    + intros [h r] x _ H Hx. apply obind_ok_inv in H as ([es r'] & _ & H). by injection H as <-.
  - intros [[h es] r] Hh. apply (checked_bind all_ok); [by apply sections_loop_checked| |].
    + intros [secs meta] Hs. apply (checked_bind id).
      * destruct (negb _); [apply check_trailer_checked|]. intros ok. split; [|by intros []]. by intros [= <-].
      * intros ok Hok c. split; [|by intros []]. intros [= <-]. split; [done|]. cbn [checksum_ok].
        rewrite fold_ok. unfold all_ok in Hs. cbn [fst] in *. unfold id in Hok. by rewrite Hh, Hok, Hs.
      * intros ok c _ [= <-] Hc. cbn [checksum_ok] in Hc. rewrite fold_ok in Hc.
        apply andb_true_iff in Hc as [Hc _]. by apply andb_true_iff in Hc as [_ Hc].
    + intros [secs meta] c _ H Hc. apply obind_ok_inv in H as (ok & _ & H). injection H as <-. cbn [checksum_ok] in Hc.
      rewrite fold_ok in Hc. by apply andb_true_iff in Hc as [_ Hc].
  - intros [[h es] r] c _ H Hc. apply obind_ok_inv in H as ([secs meta] & _ & H). apply obind_ok_inv in H as (ok & _ & H).
    injection H as <-. cbn [checksum_ok] in Hc. rewrite fold_ok in Hc. apply andb_true_iff in Hc as [Hc _].
    by apply andb_true_iff in Hc as [Hc _].
Qed.

(** ** Claims *)

(** C17. Damage to a file is noticed: take a container with a trailer that parses with
    every checksum right, and change at most four consecutive bytes of it anywhere, the
    header, the flags that announce the trailer, the section table, a body or the stored
    checksums included. Strict parsing then ends in an error, and lenient parsing in an
    error or in a container whose checksum verdict is false. *)
Theorem damage_detected (strict : bool) (max_depth depth' : Z) (p x y q : bytes) (c : Container) :
  bytes_ok (p ++ x ++ q) -> bytes_ok y -> length x = length y -> (length x <= 4)%nat -> x <> y ->
  parse strict max_depth (p ++ x ++ q) = Ok c -> checksum_ok c = true -> has_trailer_crc c = true ->
  (exists e, parse true depth' (p ++ y ++ q) = Throw e) /\
  ((exists e, parse false depth' (p ++ y ++ q) = Throw e) \/
   exists c', parse false depth' (p ++ y ++ q) = Ok c' /\ checksum_ok c' = false).
Proof.
  intros Hok Hy Hl H4 Hne Hp Hsum Htr.
  destruct (parse_codewords _ _ _ _ Hok Hp Hsum) as (Hlen & Hcw & Hflag & Hall).
  assert (Hok' : bytes_ok (p ++ y ++ q)) by (rewrite !bytes_ok_app in *; tauto).
  assert (Hbad : forall s c', parse s depth' (p ++ y ++ q) = Ok c' -> checksum_ok c' = false).
  { intros s c' Hp'. apply not_true_iff_false. intros Hsum'.
    destruct (parse_codewords _ _ _ _ Hok' Hp' Hsum') as (_ & Hcw' & Hflag' & Hall').
    pose proof (codeword_burst_take 16 p x y q Hok Hy Hl H4 Hcw Hcw') as Hsame.
    assert (Hfl : header_flags_of (p ++ x ++ q) = header_flags_of (p ++ y ++ q)).
    { unfold header_flags_of. apply (f_equal (fun l => take 2 (drop 6 l))) in Hsame.
      change 16%nat with (6 + 10)%nat in Hsame. rewrite <- !take_drop_commute, !take_take in Hsame. exact (f_equal le_val Hsame). }
    apply Hne, (codeword_burst p x y q); try done; [by apply Hall|]. apply Hall'. by rewrite Hflag', <- Hfl, <- Hflag. }
  pose proof (parse_container_sound true depth' _ Hok') as Hs. pose proof (parse_container_sound false depth' _ Hok') as Hl'.
  split.
  - destruct (parse true depth' (p ++ y ++ q)) as [c'|e| |] eqn:E; [|by exists e|destruct Hs..].
    exfalso. destruct Hs as (_ & _ & _ & _ & Hs). rewrite (Hbad true c' E) in Hs. by discriminate Hs.
  - destruct (parse false depth' (p ++ y ++ q)) as [c'|e| |] eqn:E; [|left; by exists e|destruct Hl'..].
    right. exists c'. split; [done|by apply (Hbad false)].
Qed.

(** Clearing the trailer flag of a file does not get it past the checks. *)
Lemma damage_detected_witness :
  (exists e, parse true 32 (take 6 sample_file ++ [0; 0] ++ drop 8 sample_file) = Throw e) /\
  exists c', parse false 32 (take 6 sample_file ++ [0; 0] ++ drop 8 sample_file) = Ok c' /\
    has_trailer_crc c' = false /\ checksum_ok c' = false.
Proof.
  assert (E : sample_file = take 6 sample_file ++ take 2 (drop 6 sample_file) ++ drop 8 sample_file) by (vm_compute; reflexivity).
  destruct (parse true 32 sample_file) as [c|e| |] eqn:Hp; [|vm_compute in Hp; discriminate Hp..].
  assert (Hc : checksum_ok c = true /\ has_trailer_crc c = true) by (vm_compute in Hp; injection Hp as <-; split; reflexivity).
  rewrite E in Hp.
  destruct (damage_detected true 32 32 (take 6 sample_file) (take 2 (drop 6 sample_file)) [0; 0] (drop 8 sample_file) c) as (H1 & H2).
  - rewrite <- E. by apply (bool_decide_unpack _); vm_compute.
  - by apply (bool_decide_unpack _); vm_compute.
  - vm_compute. reflexivity.
  - vm_compute. lia.
  - vm_compute. discriminate.
  - exact Hp.
  - apply Hc.
  - apply Hc.
  - split; [exact H1|]. destruct H2 as [[e H2]|(c' & H2 & H3)]; [vm_compute in H2; discriminate H2|].
    exists c'. split; [exact H2|]. split; [vm_compute in H2; injection H2 as <-; reflexivity|exact H3].
Defined.

(** C18. Strict parsing is lenient parsing with the verdict enforced: it returns a
    container exactly when lenient parsing returns that container with every checksum
    right, so no other part of the result or of the error checks depends on the mode. *)
Theorem strict_exact (max_depth : Z) (data : bytes) (c : Container) :
  parse true max_depth data = Ok c <-> parse false max_depth data = Ok c /\ checksum_ok c = true.
Proof. apply parse_checked. Qed.
