(* ===== verification/BinViews.v ===== *)
(** * BinViews: visiting, validating and querying a binpack container

    [src/binpack/visitor.cpp], [src/binpack/validate.cpp] and
    [src/binpack/query.cpp]. The visitor is an interface with a state; a walk calls
    its hooks on it in order. *)

From S2P Require Import Prelude Status BinRecord BinPack.

(** ** Visitors *)

(** The hooks of [RecordVisitor], acting on the visitor's state. *)
Class RecordVisitor (St : Type) := {
  enter_section : St -> BSection -> Z -> St;
  leave_section : St -> BSection -> Z -> St;
  visit_scalar : St -> BRecord -> Z -> Z -> St;
  enter_array : St -> BRecord -> Z -> Z -> St;
  leave_array : St -> BRecord -> Z -> Z -> St;
  enter_group : St -> BRecord -> Z -> Z -> St;
  leave_group : St -> BRecord -> Z -> Z -> St;
  enter_keyval : St -> BRecord -> Z -> Z -> St;
  leave_keyval : St -> BRecord -> Z -> Z -> St;
}.

Section walks.
Context {St : Type} `{RecordVisitor St}.

(** [walk_record(rec, visitor, depth, index)]. *)
Fixpoint walk_record (rec : BRecord) (depth index : Z) (v : St) : St :=
  match rec with
  | MkRec t g i u f s b cs k =>
      let children := (fix loop (n : Z) (l : list BRecord) (v : St) : St :=
        match l with [] => v | c :: l' => loop (n + 1) l' (walk_record c (depth + 1) n v) end) in
      match t with
      | kInt | kUint | kFloat | kString | kBlob => visit_scalar v rec depth index
      | kArray => leave_array (children 0 cs (enter_array v rec depth index)) rec depth index
      | kGroup => leave_group (children 0 cs (enter_group v rec depth index)) rec depth index
      | kKeyval => leave_keyval (children 0 cs (enter_keyval v rec depth index)) rec depth index
      end
  end.

Fixpoint walk_records (n : Z) (l : list BRecord) (v : St) : St :=
  match l with [] => v | rec :: l' => walk_records (n + 1) l' (walk_record rec 0 n v) end.

Fixpoint walk_sections (n : Z) (l : list BSection) (v : St) : St :=
  match l with
  | [] => v
  | s :: l' => walk_sections (n + 1) l' (leave_section (walk_records 0 (sec_records s) (enter_section v s n)) s n)
  end.

Definition walk (c : Container) (v : St) : St := walk_sections 0 (sections c) v.
End walks.

(** ** Queries *)

Definition find_section (c : Container) (t : SectionType) : option BSection :=
  find (fun s => bool_decide (sec_type s = t)) (sections c).
Definition find_section_by_id (c : Container) (i : Z) : option BSection :=
  find (fun s => sec_id s =? i) (sections c).
Definition find_sections (c : Container) (t : SectionType) : list BSection :=
  filter (fun s => sec_type s = t) (sections c).

(** The overloads for a mutable container return a pointer into it. A caller that gets
    one and writes [w] through it changes that section in place; [None] is the null
    pointer. *)
Fixpoint edit_first (P : BSection -> bool) (w : BSection -> BSection) (l : list BSection) : option (list BSection) :=
  match l with
  | [] => None
  | s :: l' => if P s then Some (w s :: l') else cons s <$> edit_first P w l'
  end.

Definition set_sections (c : Container) (l : list BSection) : Container :=
  MkContainer (c_version c) (c_flags c) (section_count c) (has_metadata c) (has_trailer_crc c)
    (header_checksum_ok c) (trailer_checksum_ok c) (checksum_ok c) l (metadata c).

Definition edit_found (c : Container) (t : SectionType) (w : BSection -> BSection) : option Container :=
  set_sections c <$> edit_first (fun s => bool_decide (sec_type s = t)) w (sections c).
Definition edit_found_by_id (c : Container) (i : Z) (w : BSection -> BSection) : option Container :=
  set_sections c <$> edit_first (fun s => sec_id s =? i) w (sections c).

(** The write reaches the section the search returns, and no other. *)
Lemma edit_first_spec P w l :
  match edit_first P w l with
  | None => find P l = None
  | Some l' => exists l1 s l2, l = l1 ++ s :: l2 /\ find P l = Some s /\ l' = l1 ++ w s :: l2 /\
      (P (w s) = true -> find P l' = Some (w s))
  end.
Proof.
  induction l as [|s l IH]; [done|]. cbn [edit_first find]. destruct (P s) eqn:Es.
  - exists [], s, l. split_and!; try done. intros Hw. cbn [app find]. by rewrite Hw.
  - destruct (edit_first P w l) as [l'|]; [|done]. destruct IH as (l1 & x & l2 & -> & Hf & -> & Hw).
    exists (s :: l1), x, l2. split_and!; try done. intros Hx. cbn [app find]. rewrite Es. by apply Hw.
Qed.

Lemma edit_found_spec c t w : (forall s, sec_type (w s) = sec_type s) ->
  match edit_found c t w with
  | None => find_section c t = None
  | Some c' => exists l1 s l2, sections c = l1 ++ s :: l2 /\ find_section c t = Some s /\
      sections c' = l1 ++ w s :: l2 /\ find_section c' t = Some (w s)
  end.
Proof.
  intros Hw. unfold edit_found, find_section. pose proof (edit_first_spec (fun s => bool_decide (sec_type s = t)) w (sections c)) as H.
  destruct (edit_first _ w (sections c)) as [l'|]; [|done]. destruct H as (l1 & s & l2 & Hl & Hf & -> & Hx).
  exists l1, s, l2. split_and!; try done. apply Hx. apply find_some in Hf as [_ Hf]. by rewrite Hw.
Qed.

Definition metadata_value (c : Container) (key : bytes) : option BRecord :=
  snd <$> find (fun kv => bool_decide (kv.1 = key)) (metadata c).
Definition metadata_string (c : Container) (key : bytes) : option bytes :=
  match metadata_value c key with
  | Some v => if bool_decide (r_tag v = kString) then Some (r_str v) else None
  | None => None
  end.
Definition metadata_uint (c : Container) (key : bytes) : option Z :=
  match metadata_value c key with
  | Some v => if bool_decide (r_tag v = kUint) then Some (r_u64 v) else None
  | None => None
  end.
Definition metadata_int (c : Container) (key : bytes) : option Z :=
  match metadata_value c key with
  | Some v => if bool_decide (r_tag v = kInt) then Some (r_i64 v) else None
  | None => None
  end.

(** [collect_into] for one record of the list: it, then its children. *)
Fixpoint collect_one (rec : BRecord) (t : RecordTag) (recursive : bool) (out : list BRecord) : list BRecord :=
  match rec with
  | MkRec t' g i u f s b cs k =>
      let out := if bool_decide (t' = t) then out ++ [rec] else out in
      if recursive
      then (fix loop (l : list BRecord) (out : list BRecord) : list BRecord :=
              match l with [] => out | c :: l' => loop l' (collect_one c t recursive out) end) cs out
      else out
  end.
Definition collect_into (recs : list BRecord) (t : RecordTag) (recursive : bool) (out : list BRecord) : list BRecord :=
  fold_left (fun out rec => collect_one rec t recursive out) recs out.

Definition collect_records (c : Container) (t : RecordTag) (recursive : bool) : list BRecord :=
  fold_left (fun out s => collect_into (sec_records s) t recursive out) (sections c) [].
Definition collect_section_records (s : BSection) (t : RecordTag) (recursive : bool) : list BRecord :=
  collect_into (sec_records s) t recursive [].

(** ** Validation *)

Inductive IssueSeverity := kWarning | kError.
Inductive IssueKind :=
  | kEmptyGroup | kEmptyArray | kDuplicateMetadataKey | kOversizedBlob | kItemCountMismatch
  | kMalformedKeyval | kDepthExceeded | kEmptyMetadataKey.

#[export] Instance IssueSeverity_eq_dec : EqDecision IssueSeverity.
Proof. solve_decision. Defined.
#[export] Instance IssueKind_eq_dec : EqDecision IssueKind.
Proof. solve_decision. Defined.

Definition issue_kind_name (k : IssueKind) : string :=
  match k with
  | kEmptyGroup => "empty_group" | kEmptyArray => "empty_array"
  | kDuplicateMetadataKey => "duplicate_metadata_key" | kOversizedBlob => "oversized_blob"
  | kItemCountMismatch => "item_count_mismatch" | kMalformedKeyval => "malformed_keyval"
  | kDepthExceeded => "depth_exceeded" | kEmptyMetadataKey => "empty_metadata_key"
  end.

Record Issue := MkIssue {
  severity : IssueSeverity; kind : IssueKind; section_index : Z; path : string; detail : string }.

Record ValidateOptions := MkOptions { max_blob_bytes : Z; max_depth : Z; check_item_count : bool }.
Definition default_options : ValidateOptions := MkOptions (2 ^ 20) 32 true.

Definition report_ok (issues : list Issue) : bool :=
  forallb (fun i => negb (bool_decide (severity i = kError))) issues.
Definition error_count (issues : list Issue) : Z :=
  fold_left (fun n i => if bool_decide (severity i = kError) then n + 1 else n) issues 0.
Definition warning_count (issues : list Issue) : Z :=
  fold_left (fun n i => if bool_decide (severity i = kWarning) then n + 1 else n) issues 0.

Definition component (k : string) (index : Z) : string := (k +:+ "[" +:+ to_dec index +:+ "]")%string.

(** Text made of raw bytes. *)
Definition text (b : bytes) : string :=
  String.string_of_list_ascii (map (fun z => Ascii.ascii_of_nat (Z.to_nat z)) b).
Definition quote : string := String.String (Ascii.ascii_of_nat 34) String.EmptyString.

Definition count_text (before : string) (n : Z) (between : string) (m : Z) : string :=
  (before +:+ to_dec n +:+ between +:+ to_dec m)%string.

(** [validate_record]; the report is the list of issues so far. *)
Fixpoint validate_record (rec : BRecord) (si : Z) (p : string) (depth : Z) (opts : ValidateOptions)
    (report : list Issue) : list Issue :=
  match rec with
  | MkRec t g i u f s b cs k =>
      if max_depth opts <? depth
      then report ++ [MkIssue kError kDepthExceeded si p (count_text "nesting depth " depth " exceeds limit " (max_depth opts))]
      else
        let children (what : string) :=
          (fix loop (n : Z) (l : list BRecord) (report : list Issue) : list Issue :=
             match l with
             | [] => report
             | c :: l' =>
                 loop (n + 1) l' (validate_record c si (p +:+ "/" +:+ component what n)%string (depth + 1) opts report)
             end) in
        match t with
        | kBlob =>
            if max_blob_bytes opts <? Z.of_nat (length b)
            then report ++ [MkIssue kWarning kOversizedBlob si p
                   (count_text "blob of " (Z.of_nat (length b)) " bytes exceeds limit " (max_blob_bytes opts))]
            else report
        | kArray =>
            let report := if bool_decide (length cs = 0%nat)
              then report ++ [MkIssue kWarning kEmptyArray si p "array has no elements"] else report in
            children "array"%string 0 cs report
        | kGroup =>
            let report := if bool_decide (length cs = 0%nat)
              then report ++ [MkIssue kWarning kEmptyGroup si p "group has no records"] else report in
            children "group"%string 0 cs report
        | kKeyval =>
            let report := if negb (bool_decide (length cs = 1%nat))
              then report ++ [MkIssue kError kMalformedKeyval si p
                     ("keyval has " +:+ to_dec (Z.of_nat (length cs)) +:+ " children (expected 1)")%string]
              else report in
            let report := if bool_decide (k = [])
              then report ++ [MkIssue kWarning kEmptyMetadataKey si p "keyval has an empty key"] else report in
            children "keyval"%string 0 cs report
        | kInt | kUint | kFloat | kString => report
        end
  end.

Fixpoint validate_records (n : Z) (l : list BRecord) (si : Z) (base : string) (opts : ValidateOptions)
    (report : list Issue) : list Issue :=
  match l with
  | [] => report
  | rec :: l' =>
      validate_records (n + 1) l' si base opts
        (validate_record rec si (base +:+ "/" +:+ component "record" n)%string 0 opts report)
  end.

Definition count_mismatch (opts : ValidateOptions) (s : BSection) : bool :=
  check_item_count opts && negb (bool_decide (sec_type s = kFree)) &&
  negb (item_count s =? Z.of_nat (length (sec_records s))).

Fixpoint validate_sections (si : Z) (l : list BSection) (opts : ValidateOptions) (report : list Issue) : list Issue :=
  match l with
  | [] => report
  | s :: l' =>
      let base := component "section" si in
      let report := if count_mismatch opts s
        then report ++ [MkIssue kError kItemCountMismatch si base
               (count_text "declared item_count " (item_count s) " != actual record count "
                  (Z.of_nat (length (sec_records s))))]
        else report in
      validate_sections (si + 1) l' opts (validate_records 0 (sec_records s) si base opts report)
  end.

(** The pass over the metadata view; [seen] maps a key to its first index. *)
Fixpoint validate_metadata (i : Z) (l : list (bytes * BRecord)) (seen : gmap bytes Z) (report : list Issue) : list Issue :=
  match l with
  | [] => report
  | (k, _) :: l' =>
      match seen !! k with
      | Some first =>
          validate_metadata (i + 1) l' seen
            (report ++ [MkIssue kError kDuplicateMetadataKey 0 (component "metadata" i)
               ("metadata key " +:+ quote +:+ text k +:+ quote +:+ " first seen at index " +:+ to_dec first)%string])
      | None => validate_metadata (i + 1) l' (<[k := i]> seen) report
      end
  end.

Definition validate (c : Container) (opts : ValidateOptions) : list Issue :=
  validate_metadata 0 (metadata c) ∅ (validate_sections 0 (sections c) opts []).

Definition validate_default (c : Container) : list Issue := validate c default_options.

(** ** The validator's verdict *)

Lemma report_ok_app a b : report_ok (a ++ b) = report_ok a && report_ok b.
Proof. apply forallb_app. Qed.

Lemma report_warning report k si p d : report_ok (report ++ [MkIssue kWarning k si p d]) = report_ok report.
Proof. rewrite report_ok_app. apply andb_true_r. Qed.
Lemma report_error report k si p d : report_ok (report ++ [MkIssue kError k si p d]) = false.
Proof. rewrite report_ok_app. apply andb_false_r. Qed.

(** A record within the depth limit and with one value per key adds no error. *)
Lemma validate_record_warns rec : forall d si p depth opts report,
  rec_ok d rec -> depth + d <= max_depth opts ->
  report_ok (validate_record rec si p depth opts report) = report_ok report.
Proof.
  induction rec as [t g i u f s b cs k IH] using brecord_nested_ind. intros d si p depth opts report (Hd & Ht) Hmax.
  assert (Hloop : forall what n report, fold_right (fun c P => rec_ok (d - 1) c /\ P) True cs ->
    report_ok ((fix loop (n : Z) (l : list BRecord) (report : list Issue) : list Issue :=
      match l with
      | [] => report
      | c :: l' => loop (n + 1) l' (validate_record c si (p +:+ "/" +:+ component what n)%string (depth + 1) opts report)
      end) n cs report) = report_ok report).
  { intros what n rep H. apply fold_right_Forall in H. clear Ht. revert n rep.
    induction IH as [|c l Hc Hl IHl]; intros n rep; [done|]. apply Forall_cons in H as [H1 H2].
    rewrite (IHl H2), (Hc (d - 1)); [done|done|lia]. }
  cbn [validate_record]. rewrite (proj2 (Z.ltb_ge _ _)) by lia.
  destruct t; try done.
  - case_bool; [by rewrite report_warning|done].
  - rewrite Hloop by done. case_bool_decide; [by rewrite report_warning|done].
  - rewrite Hloop by done. case_bool_decide; [by rewrite report_warning|done].
  - destruct Ht as (_ & Hlen & Hcs). rewrite Hloop by done. rewrite Hlen, (bool_decide_eq_true_2 (1%nat = 1%nat)) by done.
    cbn [negb]. case_bool_decide; [by rewrite report_warning|done].
Qed.

Lemma validate_records_warn l : forall d n si base opts report,
  Forall (rec_ok d) l -> d <= max_depth opts ->
  report_ok (validate_records n l si base opts report) = report_ok report.
Proof.
  induction l as [|rec l IH]; intros d n si base opts report Hl Hd; [done|]. apply Forall_cons in Hl as [H1 H2].
  cbn [validate_records]. rewrite (IH d) by done. by apply (validate_record_warns rec d).
Qed.

Lemma validate_sections_verdict l : forall d si opts report,
  Forall (fun s => Forall (rec_ok d) (sec_records s)) l -> d <= max_depth opts ->
  report_ok (validate_sections si l opts report) = report_ok report && forallb (fun s => negb (count_mismatch opts s)) l.
Proof.
  induction l as [|s l IH]; intros d si opts report Hl Hd; cbn [validate_sections forallb]; [by rewrite andb_true_r|].
  apply Forall_cons in Hl as [H1 H2]. rewrite (IH d) by done. rewrite (validate_records_warn _ d) by done.
  destruct (count_mismatch opts s); cbn [negb andb]; [by rewrite report_error, andb_false_r|done].
Qed.

Lemma validate_metadata_verdict l : forall i seen report,
  report_ok (validate_metadata i l seen report) = true <->
  report_ok report = true /\ NoDup l.*1 /\ forall k, k ∈ l.*1 -> seen !! k = None.
Proof.
  induction l as [|[k r] l IH]; intros i seen report; cbn [validate_metadata].
  { split; [|tauto]. intros Hr. split; [done|]. split; [constructor|]. intros k Hk. by apply elem_of_nil in Hk. }
  rewrite fmap_cons. cbn [fst]. destruct (seen !! k) as [first|] eqn:E; rewrite IH.
  - rewrite report_error. split; [by intros [? _]|]. intros (_ & _ & H). specialize (H k ltac:(left)). congruence.
  - rewrite NoDup_cons. split.
    + intros (Hr & Hn & H). split; [done|]. split; [split; [|done]|].
      * intros Hk. specialize (H k Hk). by rewrite lookup_insert_eq in H.
      * intros k' Hk'. apply elem_of_cons in Hk' as [->|Hk']; [done|].
        specialize (H k' Hk'). rewrite lookup_insert_None in H. apply H.
    + intros (Hr & [Hk Hn] & H). split; [done|]. split; [done|]. intros k' Hk'. rewrite lookup_insert_None. split.
      * apply H. by right.
      * intros ->. done.
Qed.

(** ** A walk is its sequence of events *)

Inductive event :=
  | EvEnterSection (s : BSection) (n : Z) | EvLeaveSection (s : BSection) (n : Z)
  | EvScalar (r : BRecord) (depth index : Z)
  | EvEnter (r : BRecord) (depth index : Z) | EvLeave (r : BRecord) (depth index : Z).

(** The hook an event stands for. *)
Definition fire {St} `{RecordVisitor St} (v : St) (e : event) : St :=
  match e with
  | EvEnterSection s n => enter_section v s n
  | EvLeaveSection s n => leave_section v s n
  | EvScalar r d i => visit_scalar v r d i
  | EvEnter r d i =>
      match r_tag r with kArray => enter_array v r d i | kGroup => enter_group v r d i | _ => enter_keyval v r d i end
  | EvLeave r d i =>
      match r_tag r with kArray => leave_array v r d i | kGroup => leave_group v r d i | _ => leave_keyval v r d i end
  end.

Definition is_scalar (t : RecordTag) : bool :=
  match t with kArray | kGroup | kKeyval => false | _ => true end.

Fixpoint record_events (depth index : Z) (rec : BRecord) : list event :=
  match rec with
  | MkRec t g i u f s b cs k =>
      if is_scalar t then [EvScalar rec depth index]
      else EvEnter rec depth index ::
        (fix loop (n : Z) (l : list BRecord) : list event :=
           match l with [] => [] | c :: l' => record_events (depth + 1) n c ++ loop (n + 1) l' end) 0 cs ++
        [EvLeave rec depth index]
  end.

Fixpoint records_events (n : Z) (l : list BRecord) : list event :=
  match l with [] => [] | rec :: l' => record_events 0 n rec ++ records_events (n + 1) l' end.

Fixpoint sections_events (n : Z) (l : list BSection) : list event :=
  match l with
  | [] => []
  | s :: l' => EvEnterSection s n :: records_events 0 (sec_records s) ++ EvLeaveSection s n :: sections_events (n + 1) l'
  end.

Section walk_events.
Context {St : Type} `{RecordVisitor St}.

Lemma walk_record_events rec : forall depth index (v : St),
  walk_record rec depth index v = fold_left fire (record_events depth index rec) v.
Proof.
  induction rec as [t g i u f s b cs k IH] using brecord_nested_ind. intros depth index v.
  assert (Hloop : forall n v, (fix loop (n : Z) (l : list BRecord) (v : St) : St :=
        match l with [] => v | c :: l' => loop (n + 1) l' (walk_record c (depth + 1) n v) end) n cs v =
    fold_left fire ((fix loop (n : Z) (l : list BRecord) : list event :=
           match l with [] => [] | c :: l' => record_events (depth + 1) n c ++ loop (n + 1) l' end) n cs) v).
  { induction IH as [|c l Hc Hl IHl]; intros n w; [done|]. by rewrite fold_left_app, <- Hc, IHl. }
  cbn [walk_record record_events].
  destruct t; cbn [is_scalar fold_left fire r_tag]; rewrite ?fold_left_app, ?Hloop; done.
Qed.

Lemma walk_events c (v : St) : walk c v = fold_left fire (sections_events 0 (sections c)) v.
Proof.
  assert (Hr : forall l n (v : St), walk_records n l v = fold_left fire (records_events n l) v).
  { induction l as [|r l IH]; intros n w; [done|]. cbn [walk_records records_events].
    by rewrite fold_left_app, <- walk_record_events, IH. }
  unfold walk. generalize 0. revert v. induction (sections c) as [|s l IH]; intros v n; [done|].
  cbn [walk_sections sections_events fold_left]. rewrite fold_left_app, <- Hr. cbn [fold_left fire]. by rewrite IH.
Qed.
End walk_events.

(** The records an event sequence comes to, in order. *)
Definition visits (l : list event) : list BRecord :=
  omap (fun e => match e with EvScalar r _ _ | EvEnter r _ _ => Some r | _ => None end) l.

(** Nested in brackets: every record left was the last one entered. *)
Fixpoint bracketed (open : list event) (l : list event) : Prop :=
  match l with
  | [] => open = []
  | e :: l' =>
      match e with
      | EvScalar _ _ _ => bracketed open l'
      | EvEnter r d i => bracketed (EvLeave r d i :: open) l'
      | EvEnterSection s n => bracketed (EvLeaveSection s n :: open) l'
      | EvLeave _ _ _ | EvLeaveSection _ _ => match open with e' :: open' => e' = e /\ bracketed open' l' | [] => False end
      end
  end.

Lemma bracketed_scalar open r d i l : bracketed open (EvScalar r d i :: l) <-> bracketed open l.
Proof. done. Qed.

(** Whole records can be inserted into a bracketed sequence. *)
Lemma record_bracketed rec : forall depth index open l,
  bracketed open (record_events depth index rec ++ l) <-> bracketed open l.
Proof.
  induction rec as [t g i u f s b cs k IH] using brecord_nested_ind. intros depth index open l.
  assert (Hloop : forall n open l, bracketed open ((fix loop (n : Z) (l : list BRecord) : list event :=
           match l with [] => [] | c :: l' => record_events (depth + 1) n c ++ loop (n + 1) l' end) n cs ++ l) <->
    bracketed open l).
  { induction IH as [|c cs' Hc Hl IHl]; intros n o l'; [done|]. by rewrite <- app_assoc, Hc, IHl. }
  cbn [record_events]. destruct (is_scalar t); [done|]. cbn [app bracketed]. rewrite <- app_assoc, Hloop. cbn [app bracketed].
  tauto.
Qed.

Lemma records_bracketed l : forall n open k, bracketed open (records_events n l ++ k) <-> bracketed open k.
Proof.
  induction l as [|r l IH]; intros n open k; [done|]. cbn [records_events]. by rewrite <- app_assoc, record_bracketed, IH.
Qed.

Lemma sections_bracketed l : forall n, bracketed [] (sections_events n l).
Proof.
  induction l as [|s l IH]; intros n; [done|]. cbn [sections_events bracketed].
  rewrite records_bracketed. cbn [bracketed]. split; [done|apply IH].
Qed.

Lemma visits_app a b : visits (a ++ b) = visits a ++ visits b.
Proof. apply omap_app. Qed.

(** Collecting is filtering the records in the order the walk comes to them. *)
Lemma collect_one_visits rec t : forall d depth index out, rec_ok d rec ->
  collect_one rec t true out = out ++ filter (fun r => r_tag r = t) (visits (record_events depth index rec)).
Proof.
  induction rec as [t' g i u f s b cs k IH] using brecord_nested_ind. intros d depth index out (_ & Ht).
  assert (Hloop : forall n out, Forall (rec_ok (d - 1)) cs ->
    (fix loop (l : list BRecord) (out : list BRecord) : list BRecord :=
              match l with [] => out | c :: l' => loop l' (collect_one c t true out) end) cs out =
    out ++ filter (fun r => r_tag r = t) (visits ((fix loop (n : Z) (l : list BRecord) : list event :=
           match l with [] => [] | c :: l' => record_events (depth + 1) n c ++ loop (n + 1) l' end) n cs))).
  { clear Ht. induction IH as [|c l Hc Hl IHl]; intros n o Hok; [by rewrite app_nil_r|].
    apply Forall_cons in Hok as [H1 H2]. rewrite visits_app, filter_app, app_assoc, <- (Hc (d - 1)) by done.
    by rewrite <- IHl. }
  assert (Hone : forall r : BRecord, r_tag r = t' -> forall l, filter (fun r => r_tag r = t) (r :: l) =
    (if bool_decide (t' = t) then [r] else []) ++ filter (fun r => r_tag r = t) l).
  { intros r Hr l. rewrite filter_cons, Hr. by destruct (decide (t' = t)); [rewrite bool_decide_eq_true_2|rewrite bool_decide_eq_false_2]. }
  cbn [collect_one record_events]. destruct (is_scalar t') eqn:Es.
  - assert (cs = []) as -> by (destruct t'; try done; apply Ht). cbn [visits omap]. unfold visits. cbn [omap list_omap].
    rewrite Hone, filter_nil, app_nil_r by done. case_bool_decide; [done|by rewrite app_nil_r].
  - rewrite (Hloop 0) by (destruct t'; try done; [by apply fold_right_Forall..|by apply fold_right_Forall, Ht]).
    unfold visits at 2. cbn [omap list_omap]. fold (visits). rewrite Hone by done.
    change (omap _ ?l) with (visits l). rewrite visits_app, app_nil_r, app_assoc.
    case_bool_decide; [done|by rewrite app_nil_r].
Qed.

Lemma collect_into_visits l t : forall d n out, Forall (rec_ok d) l ->
  collect_into l t true out = out ++ filter (fun r => r_tag r = t) (visits (records_events n l)).
Proof.
  unfold collect_into. induction l as [|r l IH]; intros d n out Hl; [by rewrite app_nil_r|].
  apply Forall_cons in Hl as [H1 H2]. cbn [fold_left records_events].
  rewrite visits_app, filter_app, app_assoc, <- (collect_one_visits r t d) by done. by apply (IH d).
Qed.

Lemma collect_records_visits c t d : Forall (fun s => Forall (rec_ok d) (sec_records s)) (sections c) ->
  collect_records c t true = filter (fun r => r_tag r = t) (visits (sections_events 0 (sections c))).
Proof.
  unfold collect_records. generalize 0 at 1. intros n. rewrite <- (app_nil_l (filter _ _)). generalize (@nil BRecord).
  revert n. induction (sections c) as [|s l IH]; intros n out Hl; [by rewrite app_nil_r|].
  apply Forall_cons in Hl as [H1 H2]. cbn [fold_left sections_events].
  change (visits (EvEnterSection s n :: ?l)) with (visits l). rewrite visits_app, filter_app, app_assoc.
  change (visits (EvLeaveSection s n :: ?l)) with (visits l).
  rewrite <- (collect_into_visits _ t d) by done. by apply IH.
Qed.

Lemma parsed_records_ok strict max_depth data c : bytes_ok data -> parse strict max_depth data = Ok c ->
  Forall (fun s => Forall (rec_ok max_depth) (sec_records s)) (sections c).
Proof.
  intros Hd Hp. pose proof (parse_container_sound strict max_depth data Hd) as H. rewrite Hp in H.
  destruct H as (_ & _ & H & _). eapply Forall_impl; [exact H|]. by intros s (_ & _ & _ & _ & _ & _ & Hs).
Qed.

(** ** Claims *)

(** C27. The validator is exact on what the parser returns: for any container
    parsed within the validator's depth limit, the report has no error precisely
    when every section holds as many top-level records as its table entry declares
    (FREE sections and a disabled check excepted) and no metadata key occurs twice -
    depth and key-value errors cannot occur on parsed input, everything else is a
    warning. *)
Theorem validate_parsed (strict : bool) (max_depth' : Z) (data : bytes) (c : Container) (opts : ValidateOptions) :
  bytes_ok data -> parse strict max_depth' data = Ok c -> max_depth' <= max_depth opts ->
  report_ok (validate c opts) = true <->
  (forall s, s ∈ sections c -> check_item_count opts = true -> sec_type s <> kFree ->
     item_count s = Z.of_nat (length (sec_records s))) /\
  NoDup (metadata c).*1.
Proof.
  intros Hd Hp Hmax. pose proof (parsed_records_ok _ _ _ _ Hd Hp) as Hok.
  unfold validate. rewrite validate_metadata_verdict, (validate_sections_verdict _ max_depth') by done. cbn [report_ok forallb andb].
  rewrite forallb_forall. split.
  - intros (Hs & Hn & _). split; [|done]. intros s Hin Hc Hf. apply list_elem_of_In, Hs in Hin.
    unfold count_mismatch in Hin. rewrite Hc, bool_decide_eq_false_2 in Hin by done. cbn in Hin.
    rewrite negb_involutive in Hin. by apply Z.eqb_eq.
  - intros [Hs Hn]. split; [|by split]. intros s Hin%list_elem_of_In. specialize (Hs s Hin). unfold count_mismatch.
    destruct (check_item_count opts); [|done]. case_bool_decide as Hf; [done|]. cbn. rewrite Hs by done. by rewrite Z.eqb_refl.
Qed.

Lemma validate_parsed_witness :
  exists c, parse true 32 sample_file = Ok c /\ report_ok (validate c default_options) = false /\
    exists s, s ∈ sections c /\ item_count s <> Z.of_nat (length (sec_records s)).
Proof.
  destruct (parse true 32 sample_file) as [c|e| |] eqn:E; [|vm_compute in E; discriminate E..].
  exists c. split; [reflexivity|].
  assert (Hd : bytes_ok sample_file) by (by apply (bool_decide_unpack _); vm_compute).
  pose proof (validate_parsed true 32 sample_file c default_options Hd E ltac:(vm_compute; discriminate)) as [H _].
  vm_compute in E. injection E as <-. split; [vm_compute; reflexivity|].
  eexists. split; [do 2 right; left|vm_compute; discriminate].
Defined.

(** Walking and collecting agree: for any visitor and any container, [walk]
    fires one fixed sequence of events in order, in which every section, array,
    group and key-value pair that is entered is left again, properly nested; and for
    a parsed container the recursive [collect_records] returns exactly the records
    of the wanted tag in the order a walk comes to them. *)
Theorem walk_correct {St : Type} `{RecordVisitor St} (c : Container) (v : St) :
  let evs := sections_events 0 (sections c) in
  walk c v = fold_left fire evs v /\ bracketed [] evs /\
  forall strict depth data t, bytes_ok data -> parse strict depth data = Ok c ->
    collect_records c t true = filter (fun r => r_tag r = t) (visits evs).
Proof.
  intros evs. split; [apply walk_events|]. split; [apply sections_bracketed|].
  intros strict depth data t Hd Hp. by apply (collect_records_visits c t depth), (parsed_records_ok strict _ data).
Qed.

(** A visitor that counts the scalars it sees. *)
#[local] Instance scalar_counter : RecordVisitor Z := {
  enter_section n _ _ := n; leave_section n _ _ := n; visit_scalar n _ _ _ := n + 1;
  enter_array n _ _ _ := n; leave_array n _ _ _ := n; enter_group n _ _ _ := n; leave_group n _ _ _ := n;
  enter_keyval n _ _ _ := n; leave_keyval n _ _ _ := n }.

Lemma walk_correct_witness :
  exists c, parse true 32 sample_file = Ok c /\ walk c 0 = 7 /\
    length (filter (fun r => r_tag r = kUint) (visits (sections_events 0 (sections c)))) = 2%nat.
Proof.
  destruct (parse true 32 sample_file) as [c|e| |] eqn:E; [|vm_compute in E; discriminate E..].
  exists c. split; [reflexivity|].
  assert (Hd : bytes_ok sample_file) by (by apply (bool_decide_unpack _); vm_compute).
  destruct (walk_correct c 0) as (Hw & _ & Hc). rewrite <- (Hc true 32 sample_file kUint Hd E), Hw.
  vm_compute in E. injection E as <-. split; vm_compute; reflexivity.
Defined.
