(* ===== verification/Stateful.v ===== *)
(** * Stateful: computations with a state that can fail

    The state-and-outcome monad the cfgscript lexer and parser are written in, and
    the triples their safety proofs use, against an interface of what such a state
    promises. *)

From S2P Require Import Prelude Status.

Definition St (S A : Type) : Type := S -> outcome (A * S).

Section monad.
Context {S : Type}.

Definition st_ret {A} (a : A) : St S A := fun s => Ok (a, s).
Definition st_bind {A B} (m : St S A) (f : A -> St S B) : St S B := fun s => let? (a, s') := m s in f a s'.
Definition st_throw {A} (e : ParseError) : St S A := fun _ => Throw e.
Definition st_get {A} (f : S -> A) : St S A := fun s => Ok (f s, s).
End monad.

Declare Scope stateful_scope.
Delimit Scope stateful_scope with stateful.
Notation "'let*' x := m 'in' k" := (st_bind m (fun x => k))
  (at level 10, x pattern, k at level 200) : stateful_scope.
Notation "m ;* k" := (st_bind m (fun _ => k)) (at level 199, right associativity) : stateful_scope.
#[global] Open Scope stateful_scope.

(** A value satisfying [Q] or an error satisfying [E]: no undefined behaviour, and
    every loop bound was enough. *)
Definition ospec {A} (E : ParseError -> Prop) (Q : A -> Prop) (o : outcome A) : Prop :=
  match o with Ok a => Q a | Throw e => E e | UB | NoFuel => False end.

Lemma ospec_mono {A} (E E' : ParseError -> Prop) (P Q : A -> Prop) o :
  ospec E P o -> (forall e, E e -> E' e) -> (forall a, P a -> Q a) -> ospec E' Q o.
Proof. destruct o; simpl; auto. Qed.

Lemma ospec_bind {A B} E (P : A -> Prop) (Q : B -> Prop) m f :
  ospec E P m -> (forall a, P a -> ospec E Q (f a)) -> ospec E Q (obind m f).
Proof. destruct m; simpl; auto. Qed.

(** ** Progressing states *)

(** A state over a fixed input: its invariant, what an error may be, and progress by
    at least [n] units between two states. *)
Class Progress (S : Type) := {
  st_ok : S -> Prop;
  st_err : S -> ParseError -> Prop;
  st_adv : nat -> S -> S -> Prop;
  st_adv_refl s : st_adv 0 s s;
  st_adv_trans n m s s' s'' : st_adv n s s' -> st_adv m s' s'' -> st_adv (n + m) s s'';
  st_adv_weaken n m s s' : (m <= n)%nat -> st_adv n s s' -> st_adv m s s';
  st_err_adv n s s' e : st_adv n s s' -> st_err s' e -> st_err s e;
}.

Section triples.
Context {S : Type} `{Progress S}.

(** From any good state, [m] ends: with a result satisfying [Q], in a good state at
    least [n] further on, or with an error. *)
Definition runs_at {A} (n : nat) (s : S) (Q : A -> Prop) (o : outcome (A * S)) : Prop :=
  ospec (st_err s) (fun '(a, s') => st_ok s' /\ st_adv n s s' /\ Q a) o.
Definition runs {A} (n : nat) (m : St S A) (Q : A -> Prop) : Prop := forall s, st_ok s -> runs_at n s Q (m s).

Lemma runs_at_mono {A} n n' s (P Q : A -> Prop) o :
  runs_at n s P o -> (n' <= n)%nat -> (forall a, P a -> Q a) -> runs_at n' s Q o.
Proof.
  intros Ho Hn HQ. eapply ospec_mono; [exact Ho|done|]. intros [a s'] (H1 & H2 & H3).
  eauto using st_adv_weaken.
Qed.

Lemma runs_at_le {A} n n' s (Q : A -> Prop) o : runs_at n s Q o -> (n' <= n)%nat -> runs_at n' s Q o.
Proof. intros H1 Hn. by eapply runs_at_mono. Qed.

Lemma runs_at_ret {A} s (a : A) (Q : A -> Prop) : st_ok s -> Q a -> runs_at 0 s Q (st_ret a s).
Proof. intros Hs Ha. split; [done|]. split; [apply st_adv_refl|done]. Qed.

Lemma runs_at_bind {A B} n m k s (P : A -> Prop) (Q : B -> Prop) (x : St S A) (f : A -> St S B) :
  runs_at n s P (x s) -> (forall a s', st_ok s' -> st_adv n s s' -> P a -> runs_at m s' Q (f a s')) -> (k <= n + m)%nat ->
  runs_at k s Q (st_bind x f s).
Proof.
  intros Ho Hf Hk. eapply ospec_bind; [exact Ho|]. intros [a s'] (H1 & H2 & H3).
  eapply ospec_mono; [by apply Hf|intros e; by eapply st_err_adv|].
  intros [b s''] (H4 & H5 & H6). eauto using st_adv_trans, st_adv_weaken.
Qed.

Lemma runs_ret {A} (a : A) (Q : A -> Prop) : Q a -> runs 0 (st_ret a) Q.
Proof. intros Ha s Hs. by apply runs_at_ret. Qed.

Lemma runs_get {A} (f : S -> A) (Q : A -> Prop) : (forall s, st_ok s -> Q (f s)) -> runs 0 (st_get f) Q.
Proof. intros HQ s Hs. split; [done|]. split; [apply st_adv_refl|by apply HQ]. Qed.

Lemma runs_mono {A} n n' (m : St S A) (P Q : A -> Prop) :
  runs n m P -> (n' <= n)%nat -> (forall a, P a -> Q a) -> runs n' m Q.
Proof. intros Hm Hn HQ s Hs. by eapply runs_at_mono; [apply Hm| |]. Qed.

Lemma runs_bind {A B} n k (m : St S A) (f : A -> St S B) P Q :
  runs n m P -> (forall a, P a -> runs k (f a) Q) -> runs (n + k) (st_bind m f) Q.
Proof. intros Hm Hf s Hs. eapply runs_at_bind; [by apply Hm| |done]. intros a s' Hs' _ Ha. by apply Hf. Qed.

(** [m] only observes: the continuation runs, however far it gets. *)
Lemma runs_step {A B} n (m : St S A) (f : A -> St S B) P Q :
  runs 0 m P -> (forall a, P a -> runs n (f a) Q) -> runs n (st_bind m f) Q.
Proof. intros Hm Hf. by apply (runs_bind 0 n _ _ P). Qed.
End triples.
