(* ===== verification/CfgNumber.v ===== *)
(** * CfgNumber: the numbers of cfgscript and their text

    cfgscript has two kinds of numbers, [std::int64_t] and [double]. The second is
    modelled by the binary64 instance of the Standard Library's [SpecFloat]
    (round to nearest, ties to even, one NaN). [to_string] and [stod] are the
    conversions [std::to_string] and [std::stod], of which the lexer, the evaluator
    and the renderers use these instances. *)

From S2P Require Import Prelude Status.
From Stdlib Require Import SpecFloat.

(** A string literal of the source, as bytes. *)
Definition lit (s : string) : bytes :=
  map (fun c => Z.of_nat (Ascii.nat_of_ascii c)) (String.list_ascii_of_string s).

(** Bytes in a message. *)
Definition text_of (b : bytes) : string :=
  String.string_of_list_ascii (map (fun z => Ascii.ascii_of_nat (Z.to_nat z)) b).

(** ** Decimal digits *)

Fixpoint dec_digits (fuel : nat) (v : Z) (acc : bytes) : bytes :=
  match fuel with
  | O => acc
  | S fuel' => if v <? 10 then (48 + v) :: acc else dec_digits fuel' (v / 10) ((48 + v mod 10) :: acc)
  end.

(** The digits of [v >= 0]; a number has at most as many as it has bits. *)
Definition dec_bytes (v : Z) : bytes := dec_digits (S (Z.to_nat (Z.log2 v))) v [].

(** [std::to_string(std::int64_t)]. *)
Definition to_string_int (v : Z) : bytes := if v <? 0 then 45 :: dec_bytes (- v) else dec_bytes v.

Definition dec_val (l : bytes) : Z := fold_left (fun acc d => acc * 10 + (d - 48)) l 0.

Definition is_digit (c : Z) : bool := (48 <=? c) && (c <=? 57).

(** [std::stoll] of a digit string: [None] when it is out of range. *)
Definition stoll (lexeme : bytes) : option Z :=
  let v := dec_val lexeme in if v <? 2 ^ 63 then Some v else None.

(** ** Doubles *)

Definition double : Type := spec_float.

Definition prec : Z := 53.
Definition emax : Z := 1024.

Definition double_add : double -> double -> double := SFadd prec emax.
Definition double_sub : double -> double -> double := SFsub prec emax.
Definition double_mul : double -> double -> double := SFmul prec emax.
Definition double_div : double -> double -> double := SFdiv prec emax.
Definition double_opp : double -> double := SFopp.
Definition double_ltb : double -> double -> bool := SFltb.
Definition double_eqb : double -> double -> bool := SFeqb.
Definition double_zero : double := S754_zero false.

(** [static_cast<double>(i)]. *)
Definition double_of_int (i : Z) : double := binary_normalize prec emax i 0 false.

(** [static_cast<std::int64_t>(d)]: truncation, undefined out of range. *)
Definition int_of_double (d : double) : outcome Z :=
  match d with
  | S754_zero _ => Ok 0
  | S754_infinity _ | S754_nan => UB
  | S754_finite s m e =>
      let t := Z.shiftl (Z.pos m) e in
      let v := if s then - t else t in
      if bool_decide (is_i64 v) then Ok v else UB
  end.

(** The six decimals of ["%f"], exactly rounded to the even neighbour on a tie. *)
Definition round_div (num den : Z) : Z :=
  let q := num / den in
  let r := num mod den in
  if (den <? 2 * r) || ((den =? 2 * r) && Z.odd q) then q + 1 else q.

Definition micros (m : positive) (e : Z) : Z :=
  if 0 <=? e then Z.pos m * 2 ^ e * 10 ^ 6 else round_div (Z.pos m * 10 ^ 6) (2 ^ (- e)).

(** [v] with at least [width] digits. *)
Definition pad_dec (width : nat) (v : Z) : bytes :=
  let d := dec_bytes v in replicate (width - length d) 48 ++ d.

(** [std::to_string(double)]. *)
Definition to_string_double (d : double) : bytes :=
  let sign (s : bool) := if s then [45] else [] in
  match d with
  | S754_nan => lit "nan"
  | S754_infinity s => sign s ++ lit "inf"
  | S754_zero s => sign s ++ lit "0.000000"
  | S754_finite s m e =>
      let n := micros m e in
      sign s ++ dec_bytes (n / 10 ^ 6) ++ [46] ++ pad_dec 6 (n mod 10 ^ 6)
  end.

(** The value [num / 10 ^ k] rounded to a float with the given exponent range. *)
Definition round_decimal (em : Z) (num : Z) (k : Z) : double :=
  if k <=? 0 then binary_normalize prec em (num * 10 ^ (- k)) 0 false
  else match num with
       | Z.pos m => SFdiv prec em (S754_finite false m 0) (S754_finite false (Z.to_pos (10 ^ k)) 0)
       | _ => S754_zero false
       end.

(** Is [num / 10 ^ k] below the normal range, and is [d] not exactly it? The
    exponent range [2 ^ 20] stands for an unbounded one. *)
Definition underflows (num k : Z) (d : double) : bool :=
  (0 <? num) &&
  match round_decimal (2 ^ 20) num k with
  | S754_finite _ m e => Zdigits2 (Z.pos m) + e <=? -1022
  | S754_infinity _ => false
  | _ => true
  end &&
  negb match d with
       | S754_finite _ m e => Z.pos m * 10 ^ Z.max k 0 =? num * 10 ^ Z.max (- k) 0 * 2 ^ (- e)
       | _ => false
       end.

(** A float literal split into its parts: the digits before the point, after it,
    and the exponent. *)
Definition split_while (p : Z -> bool) : bytes -> bytes * bytes :=
  fix go l := match l with
              | c :: l' => if p c then let '(a, b) := go l' in (c :: a, b) else ([], l)
              | [] => ([], [])
              end.

Definition split_float (lexeme : bytes) : bytes * bytes * Z :=
  let '(int_part, rest) := split_while is_digit lexeme in
  let '(frac, rest) := match rest with 46 :: rest' => split_while is_digit rest' | _ => ([], rest) end in
  let ex := match rest with
            | _ :: 45 :: ds => - dec_val ds
            | _ :: 43 :: ds => dec_val ds
            | _ :: ds => dec_val ds
            | [] => 0
            end in
  (int_part, frac, ex).

(** [std::stod] of such a lexeme: [None] is [std::out_of_range], thrown when the
    value overflows or underflows. *)
Definition stod (lexeme : bytes) : option double :=
  let '(int_part, frac, ex) := split_float lexeme in
  let num := dec_val (int_part ++ frac) in
  let k := Z.of_nat (length frac) - ex in
  match round_decimal emax num k with
  | S754_infinity _ => None
  | d => if underflows num k d then None else Some d
  end.

(** ** Digits and values *)

Definition digits_ok (l : bytes) : Prop := Forall (fun c => is_digit c = true) l.

Lemma dec_val_snoc l d : dec_val (l ++ [d]) = dec_val l * 10 + (d - 48).
Proof. unfold dec_val. by rewrite fold_left_app. Qed.

Lemma dec_val_app l k : dec_val (l ++ k) = dec_val l * 10 ^ Z.of_nat (length k) + dec_val k.
Proof.
  induction k as [|d k IH] using rev_ind; [rewrite app_nil_r; cbn; lia|].
  rewrite app_assoc, !dec_val_snoc, IH, length_app. cbn [length]. rewrite Nat2Z.inj_add, Z.pow_add_r by lia. lia.
Qed.

Lemma is_digit_add v : 0 <= v < 10 -> is_digit (48 + v) = true.
Proof. intros Hv. unfold is_digit. rewrite !(proj2 (Z.leb_le _ _)) by lia. done. Qed.

Lemma dec_digits_spec fuel : forall v acc, 0 <= v < 2 ^ Z.of_nat fuel -> (0 < fuel)%nat ->
  exists l, dec_digits fuel v acc = l ++ acc /\ digits_ok l /\ dec_val l = v /\ l <> [].
Proof.
  induction fuel as [|fuel IH]; intros v acc Hv Hf; [lia|]. cbn [dec_digits].
  destruct (Z.ltb_spec v 10).
  - exists [48 + v]. split; [done|]. split; [apply Forall_cons; split; [apply is_digit_add; lia|by apply Forall_nil]|].
    split; [cbn; lia|done].
  - rewrite Nat2Z.inj_succ, Z.pow_succ_r in Hv by lia.
    destruct fuel as [|fuel']; [cbn in Hv; lia|].
    destruct (IH (v / 10) ((48 + v mod 10) :: acc)) as (l & E & Hl & Hval & Hne);
      [split; [apply Z.div_pos; lia|apply Z.div_lt_upper_bound; lia]|lia|].
    exists (l ++ [48 + v mod 10]). split; [by rewrite E, <- app_assoc|].
    split; [apply Forall_app; split; [done|]; apply Forall_cons; split; [|by apply Forall_nil]; apply is_digit_add, Z.mod_pos_bound; lia|].
    split; [|by destruct l]. rewrite dec_val_snoc, Hval. pose proof (Z_div_mod_eq_full v 10). lia.
Qed.

(** The text of a number is made of digits and reads back as it. *)
Lemma dec_bytes_spec v : 0 <= v -> digits_ok (dec_bytes v) /\ dec_val (dec_bytes v) = v /\ dec_bytes v <> [].
Proof.
  intros Hv. unfold dec_bytes.
  destruct (dec_digits_spec (S (Z.to_nat (Z.log2 v))) v []) as (l & E & H1 & H2 & H3); [|lia|].
  - rewrite Nat2Z.inj_succ, Z2Nat.id by apply Z.log2_nonneg. split; [done|].
    destruct (Z.eq_dec v 0) as [->|]; [done|]. apply Z.log2_spec. lia.
  - rewrite E, app_nil_r. done.
Qed.

Lemma stoll_dec_bytes v : 0 <= v < 2 ^ 63 -> stoll (dec_bytes v) = Some v.
Proof.
  intros Hv. destruct (dec_bytes_spec v ltac:(lia)) as (_ & E & _). unfold stoll. rewrite E.
  by rewrite (proj2 (Z.ltb_lt _ _)) by lia.
Qed.

Lemma dec_val_nonneg l : digits_ok l -> 0 <= dec_val l.
Proof.
  induction l as [|d l IH] using rev_ind; intros H; [done|]. apply Forall_app in H as [H1 H2].
  apply Forall_cons in H2 as [H2 _]. rewrite dec_val_snoc. specialize (IH H1).
  unfold is_digit in H2. reflect_bools. lia.
Qed.

Lemma stoll_ok l v : digits_ok l -> stoll l = Some v -> is_i64 v.
Proof.
  intros Hl. unfold stoll. destruct (Z.ltb_spec (dec_val l) (2 ^ 63)); [|done]. intros [= <-].
  pose proof (dec_val_nonneg l Hl). unfold is_i64. lia.
Qed.

Lemma lit_ok s : bytes_ok (lit s).
Proof.
  unfold lit. apply Forall_fmap, Forall_forall. intros c _. cbn. unfold is_byte.
  pose proof (Ascii.nat_ascii_bounded c). lia.
Qed.

Lemma digits_bytes_ok l : digits_ok l -> bytes_ok l.
Proof. intros H. eapply Forall_impl; [exact H|]. intros c Hc. unfold is_digit in Hc. reflect_bools. unfold is_byte. lia. Qed.

Lemma dec_bytes_ok v : 0 <= v -> bytes_ok (dec_bytes v).
Proof. intros Hv. by apply digits_bytes_ok, dec_bytes_spec. Qed.

Lemma to_string_int_ok v : bytes_ok (to_string_int v).
Proof.
  unfold to_string_int. destruct (Z.ltb_spec v 0); [|by apply dec_bytes_ok].
  apply Forall_cons. split; [done|]. apply dec_bytes_ok. lia.
Qed.

Lemma micros_nonneg m e : 0 <= micros m e.
Proof.
  unfold micros, round_div. case_bool; [apply Z.mul_nonneg_nonneg; [apply Z.mul_nonneg_nonneg; [done|]|done]; by apply Z.pow_nonneg|].
  reflect_bools. assert (0 <= Z.pos m * 10 ^ 6 / 2 ^ (- e)); [|case_bool; lia].
  apply Z.div_pos; [lia|]. apply Z.pow_pos_nonneg; lia.
Qed.

Lemma to_string_double_ok d : bytes_ok (to_string_double d).
Proof.
  assert (Hsign : forall s : bool, bytes_ok (if s then [45] else [])) by (by intros []; apply (bool_decide_unpack _); vm_compute).
  unfold to_string_double. destruct d as [s|s| |s m e]; rewrite ?bytes_ok_app; cbv zeta.
  - split; [apply Hsign|apply lit_ok].
  - split; [apply Hsign|apply lit_ok].
  - apply lit_ok.
  - pose proof (micros_nonneg m e) as Hm. split; [apply Hsign|]. split; [apply dec_bytes_ok, Z.div_pos; [done|lia]|].
    split; [by apply (bool_decide_unpack _)|]. unfold pad_dec. apply bytes_ok_app. split.
    + by apply Forall_replicate.
    + apply dec_bytes_ok. apply Z.mod_pos_bound. lia.
Qed.

Example stod_samples :
  stod (lit "0.1") = Some (S754_finite false 7205759403792794 (-56)) /\
  stod (lit "1e308") <> None /\ stod (lit "1e309") = None /\ stod (lit "2.2250738585072014e-308") <> None /\ stod (lit "5e-324") = None /\ stod (lit "1e-400") = None /\
  option_map to_string_double (stod (lit "2.5e-1")) = Some (lit "0.250000") /\
  to_string_double (double_div (double_of_int 1) (double_of_int 3)) = lit "0.333333".
Proof. vm_compute. repeat split; discriminate. Qed.
