(* ===== verification/CfgLexer.v ===== *)
(** * CfgLexer: the cfgscript scanner

    [include/cfgscript/token.hpp], [src/cfgscript/token.cpp] and
    [src/cfgscript/lexer.cpp]. The lexer is a cursor over a byte buffer with its
    line and column; every loop is bounded by the bytes that are left. *)

From S2P Require Import Prelude Status Stateful CfgNumber Utf8.

(** ** Tokens *)

Module TokenKind.
Inductive TokenKind :=
  | kEof
  | kIdent | kInt | kFloat | kString
  | kTrue | kFalse | kNull | kInclude
  | kLBrace | kRBrace | kLBracket | kRBracket | kLParen | kRParen | kSemicolon | kComma | kAssign | kDot
  | kQuestion | kColon
  | kPlus | kMinus | kStar | kSlash | kPercent | kShl | kShr | kLt | kLe | kGt | kGe | kEq | kNe
  | kAmp | kCaret | kPipe | kAndAnd | kOrOr | kBang | kTilde.

#[export] Instance TokenKind_eq_dec : EqDecision TokenKind.
Proof. solve_decision. Defined.
End TokenKind.
Export (hints) TokenKind.
Abbreviation TokenKind := TokenKind.TokenKind.

Definition token_kind_name (k : TokenKind) : string :=
  match k with
  | TokenKind.kEof => "end of input"
  | TokenKind.kIdent => "identifier" | TokenKind.kInt => "integer"
  | TokenKind.kFloat => "float" | TokenKind.kString => "string"
  | TokenKind.kTrue => "'true'" | TokenKind.kFalse => "'false'"
  | TokenKind.kNull => "'null'" | TokenKind.kInclude => "'include'"
  | TokenKind.kLBrace => "'{'" | TokenKind.kRBrace => "'}'"
  | TokenKind.kLBracket => "'['" | TokenKind.kRBracket => "']'"
  | TokenKind.kLParen => "'('" | TokenKind.kRParen => "')'"
  | TokenKind.kSemicolon => "';'" | TokenKind.kComma => "','" | TokenKind.kAssign => "'='"
  | TokenKind.kDot => "'.'" | TokenKind.kQuestion => "'?'" | TokenKind.kColon => "':'"
  | TokenKind.kPlus => "'+'" | TokenKind.kMinus => "'-'" | TokenKind.kStar => "'*'"
  | TokenKind.kSlash => "'/'" | TokenKind.kPercent => "'%'"
  | TokenKind.kShl => "'<<'" | TokenKind.kShr => "'>>'"
  | TokenKind.kLt => "'<'" | TokenKind.kLe => "'<='" | TokenKind.kGt => "'>'" | TokenKind.kGe => "'>='"
  | TokenKind.kEq => "'=='" | TokenKind.kNe => "'!='"
  | TokenKind.kAmp => "'&'" | TokenKind.kCaret => "'^'" | TokenKind.kPipe => "'|'"
  | TokenKind.kAndAnd => "'&&'" | TokenKind.kOrOr => "'||'"
  | TokenKind.kBang => "'!'" | TokenKind.kTilde => "'~'"
  end.

Record Token := MkToken {
  tk_kind : TokenKind;
  tk_offset : Z;
  tk_text : bytes;
  tk_int : Z;
  tk_float : double;
}.

Definition plain_token (k : TokenKind) (offset : Z) : Token := MkToken k offset [] 0 double_zero.
Definition text_token (k : TokenKind) (offset : Z) (t : bytes) : Token := MkToken k offset t 0 double_zero.
Definition int_token (offset v : Z) : Token := MkToken TokenKind.kInt offset [] v double_zero.
Definition float_token (offset : Z) (d : double) : Token := MkToken TokenKind.kFloat offset [] 0 d.

(** ** Characters *)

Definition is_ident_start (c : Z) : bool :=
  ((65 <=? c) && (c <=? 90)) || ((97 <=? c) && (c <=? 122)) || (c =? 95).
Definition is_ident_part (c : Z) : bool := is_ident_start c || is_digit c.
Definition is_hex_digit (c : Z) : bool :=
  is_digit c || ((97 <=? c) && (c <=? 102)) || ((65 <=? c) && (c <=? 70)).
Definition hex_value (c : Z) : Z :=
  if is_digit c then c - 48
  else if (97 <=? c) && (c <=? 102) then c - 97 + 10
  else if (65 <=? c) && (c <=? 70) then c - 65 + 10 else -1.

(** ** The cursor *)

Record lexer := Lex { lx_data : bytes; lx_pos : nat; lx_line : Z; lx_col : Z }.

Definition new_lexer (data : bytes) : lexer := Lex data 0 1 1.

Definition lx_offset (l : lexer) : Z := Z.of_nat (lx_pos l).
Definition lx_at_end (l : lexer) : bool := (length (lx_data l) <=? lx_pos l)%nat.
Definition lx_peek (ahead : nat) (l : lexer) : Z := default 0 (lx_data l !! (lx_pos l + ahead)%nat).
(** One more turn than bytes are left. *)
Definition lx_turns (l : lexer) : nat := S (length (lx_data l) - lx_pos l).

Definition advance : St lexer Z := fun l =>
  let? c := at_idx (lx_data l) (lx_pos l) in
  Ok (c, if c =? 10 then Lex (lx_data l) (S (lx_pos l)) (lx_line l + 1) 1
         else Lex (lx_data l) (S (lx_pos l)) (lx_line l) (lx_col l + 1)).

Definition lx_error {A} (at_ : Z) (msg : string) : St lexer A := fun l =>
  Throw (parse_error kBadType at_
    (msg +:+ " (line " +:+ to_dec (lx_line l) +:+ ", column " +:+ to_dec (lx_col l) +:+ ")")%string).

(** [while (!at_end() && p(peek())) advance();]. *)
Fixpoint skip_loop (turns : nat) (p : Z -> bool) : St lexer unit := fun l =>
  match turns with
  | O => NoFuel
  | S turns' =>
      if negb (lx_at_end l) && p (lx_peek 0 l) then (advance ;* skip_loop turns' p) l else Ok (tt, l)
  end.
Definition skip_while (p : Z -> bool) : St lexer unit := fun l => skip_loop (lx_turns l) p l.

(** The bytes from [start] up to the cursor. *)
Definition lexeme_from (start : nat) : St lexer bytes := fun l =>
  let? w := copy_range (lx_data l) start (lx_pos l - start) in Ok (w, l).

(** ** Trivia *)

Definition is_space (c : Z) : bool :=
  (c =? 32) || (c =? 9) || (c =? 13) || (c =? 10) || (c =? 12) || (c =? 11).

(** The body of a block comment, up to its end: was it closed? *)
Fixpoint comment_loop (turns : nat) : St lexer bool := fun l =>
  match turns with
  | O => NoFuel
  | S turns' =>
      if lx_at_end l then Ok (false, l)
      else if (lx_peek 0 l =? 42) && (lx_peek 1 l =? 47) then (advance ;* advance ;* st_ret true) l
      else (advance ;* comment_loop turns') l
  end.

Fixpoint trivia_loop (turns : nat) : St lexer unit := fun l =>
  match turns with
  | O => NoFuel
  | S turns' =>
      if lx_at_end l then Ok (tt, l)
      else
        let c := lx_peek 0 l in
        if is_space c then (advance ;* trivia_loop turns') l
        else if c =? 35 then (skip_while (fun c => negb (c =? 10)) ;* trivia_loop turns') l
        else if (c =? 47) && (lx_peek 1 l =? 47)
        then (advance ;* advance ;* skip_while (fun c => negb (c =? 10)) ;* trivia_loop turns') l
        else if (c =? 47) && (lx_peek 1 l =? 42)
        then (let* start := st_get lx_offset in
              advance ;* advance ;*
              let* turns := st_get lx_turns in
              let* closed := comment_loop turns in
              (if negb closed then lx_error start "unterminated block comment" else st_ret tt) ;*
              trivia_loop turns') l
        else Ok (tt, l)
  end.
Definition skip_trivia : St lexer unit := fun l => trivia_loop (lx_turns l) l.

(** ** Words and numbers *)

Definition keyword_kind (word : bytes) : TokenKind :=
  if bool_decide (word = lit "true") then TokenKind.kTrue
  else if bool_decide (word = lit "false") then TokenKind.kFalse
  else if bool_decide (word = lit "null") then TokenKind.kNull
  else if bool_decide (word = lit "include") then TokenKind.kInclude
  else TokenKind.kIdent.

Definition lex_ident_or_keyword : St lexer Token :=
  let* start := st_get lx_pos in
  skip_while is_ident_part ;*
  let* word := lexeme_from start in
  st_ret (text_token (keyword_kind word) (Z.of_nat start) word).

Fixpoint hex_loop (turns : nat) (acc : Z) : St lexer Z := fun l =>
  match turns with
  | O => NoFuel
  | S turns' =>
      if negb (lx_at_end l) && is_hex_digit (lx_peek 0 l)
      then let acc := u64 (acc * 16 + hex_value (lx_peek 0 l)) in (advance ;* hex_loop turns' acc) l
      else Ok (acc, l)
  end.

Definition lex_hex (start : Z) : St lexer Token :=
  advance ;* advance ;*
  let* digits_start := st_get lx_offset in
  let* turns := st_get lx_turns in
  let* acc := hex_loop turns 0 in
  let* pos := st_get lx_offset in
  if pos =? digits_start then lx_error start "hex literal has no digits"
  else st_ret (int_token start (i64 acc)).

(** [.digits], when a digit follows the point. *)
Definition lex_fraction : St lexer bool := fun l =>
  if negb (lx_at_end l) && (lx_peek 0 l =? 46) && is_digit (lx_peek 1 l)
  then (advance ;* skip_while is_digit ;* st_ret true) l
  else Ok (false, l).

(** [e[+-]digits], when a digit follows. *)
Definition lex_exponent : St lexer bool := fun l =>
  if negb (lx_at_end l) && ((lx_peek 0 l =? 101) || (lx_peek 0 l =? 69)) then
    let look := if (lx_peek 1 l =? 43) || (lx_peek 1 l =? 45) then 2%nat else 1%nat in
    if is_digit (lx_peek look l) then
      (advance ;*
       let* c := st_get (lx_peek 0) in
       (if (c =? 43) || (c =? 45) then advance ;* st_ret tt else st_ret tt) ;*
       skip_while is_digit ;* st_ret true) l
    else Ok (false, l)
  else Ok (false, l).

Definition lex_decimal (start : nat) : St lexer Token :=
  skip_while is_digit ;*
  let* frac := lex_fraction in
  let* ex := lex_exponent in
  let* lexeme := lexeme_from start in
  let range_error := st_throw (parse_error kBadLength (Z.of_nat start) "numeric literal out of range") in
  if frac || ex
  then match stod lexeme with Some d => st_ret (float_token (Z.of_nat start) d) | None => range_error end
  else match stoll lexeme with Some v => st_ret (int_token (Z.of_nat start) v) | None => range_error end.

Definition lex_number : St lexer Token := fun l =>
  if (lx_peek 0 l =? 48) && ((lx_peek 1 l =? 120) || (lx_peek 1 l =? 88))
  then lex_hex (lx_offset l) l else lex_decimal (lx_pos l) l.

(** ** Strings *)

Definition append_utf8 (out : bytes) (cp : Z) (err_offset : Z) : St lexer bytes :=
  if (0x10FFFF <? cp) || ((0xD800 <=? cp) && (cp <=? 0xDFFF))
  then lx_error err_offset "invalid Unicode code point"
  else if cp <=? 0x7F then st_ret (out ++ [u8 cp])
  else if cp <=? 0x7FF
  then st_ret (out ++ [u8 (Z.lor 0xC0 (Z.shiftr cp 6)); u8 (Z.lor 0x80 (Z.land cp 0x3F))])
  else if cp <=? 0xFFFF
  then st_ret (out ++ [u8 (Z.lor 0xE0 (Z.shiftr cp 12)); u8 (Z.lor 0x80 (Z.land (Z.shiftr cp 6) 0x3F));
                       u8 (Z.lor 0x80 (Z.land cp 0x3F))])
  else st_ret (out ++ [u8 (Z.lor 0xF0 (Z.shiftr cp 18)); u8 (Z.lor 0x80 (Z.land (Z.shiftr cp 12) 0x3F));
                       u8 (Z.lor 0x80 (Z.land (Z.shiftr cp 6) 0x3F)); u8 (Z.lor 0x80 (Z.land cp 0x3F))]).

(** The digits of a unicode escape: the code point and their number. *)
Fixpoint code_point_loop (turns : nat) (esc cp count : Z) : St lexer (Z * Z) := fun l =>
  match turns with
  | O => NoFuel
  | S turns' =>
      if negb (lx_at_end l) && is_hex_digit (lx_peek 0 l) then
        (let* c := advance in
         let cp := u32 (cp * 16 + hex_value c) in
         let count := count + 1 in
         if 6 <? count then lx_error esc "\u escape has too many digits"
         else code_point_loop turns' esc cp count) l
      else Ok ((cp, count), l)
  end.

Definition lex_unicode (out : bytes) (esc : Z) : St lexer bytes :=
  let* c := st_get (lx_peek 0) in
  if negb (c =? 123) then lx_error esc "\u escape needs '{'" else
  advance ;*
  let* turns := st_get lx_turns in
  let* (cp, count) := code_point_loop turns esc 0 0 in
  if count =? 0 then lx_error esc "\u escape needs at least one hex digit" else
  let* closed := st_get (fun l => lx_at_end l || negb (lx_peek 0 l =? 125)) in
  if closed : bool then lx_error esc "\u escape needs '}'" else
  advance ;* append_utf8 out cp esc.

Definition lex_hex_byte (out : bytes) (esc : Z) : St lexer bytes :=
  let* two := st_get (fun l => is_hex_digit (lx_peek 0 l) && is_hex_digit (lx_peek 1 l)) in
  if negb two then lx_error esc "\x escape needs two hex digits" else
  let* hi := advance in
  let* lo := advance in
  st_ret (out ++ [u8 (Z.lor (Z.shiftl (hex_value hi) 4) (hex_value lo))]).

(** An escape, from its backslash on. *)
Definition lex_escape (out : bytes) : St lexer bytes :=
  let* esc := st_get lx_offset in
  advance ;*
  let* ended := st_get lx_at_end in
  if ended : bool then lx_error esc "unterminated escape sequence" else
  let* e := advance in
  match e with
  | 110 => st_ret (out ++ [10])
  | 116 => st_ret (out ++ [9])
  | 114 => st_ret (out ++ [13])
  | 48 => st_ret (out ++ [0])
  | 92 => st_ret (out ++ [92])
  | 34 => st_ret (out ++ [34])
  | 120 => lex_hex_byte out esc
  | 117 => lex_unicode out esc
  | _ => lx_error esc "unknown escape sequence"
  end.

Fixpoint string_loop (turns : nat) (open : Z) (out : bytes) : St lexer bytes := fun l =>
  match turns with
  | O => NoFuel
  | S turns' =>
      if lx_at_end l then lx_error open "unterminated string literal" l
      else
        let c := lx_peek 0 l in
        if c =? 34 then (advance ;* st_ret out) l
        else if c =? 10 then lx_error (lx_offset l) "unterminated string literal (newline in string)" l
        else if negb (c =? 92) then (advance ;* string_loop turns' open (out ++ [c])) l
        else (let* out := lex_escape out in string_loop turns' open out) l
  end.

Definition lex_string : St lexer Token :=
  let* open := st_get lx_offset in
  advance ;*
  let* turns := st_get lx_turns in
  let* out := string_loop turns open [] in
  st_ret (text_token TokenKind.kString open out).

(** ** The next token *)

(** An operator of one character, or of two when [second] follows. *)
Definition lex_op2 (offset second : Z) (two one : TokenKind) : St lexer Token := fun l =>
  if lx_peek 0 l =? second then (advance ;* st_ret (plain_token two offset)) l
  else Ok (plain_token one offset, l).

Definition lex_op3 (offset second third : Z) (two two' one : TokenKind) : St lexer Token := fun l =>
  if lx_peek 0 l =? second then (advance ;* st_ret (plain_token two offset)) l
  else lex_op2 offset third two' one l.

Definition lex_operator : St lexer Token :=
  let* start := st_get lx_offset in
  let* c := advance in
  let one k := st_ret (plain_token k start) in
  match c with
  | 123 => one TokenKind.kLBrace | 125 => one TokenKind.kRBrace
  | 91 => one TokenKind.kLBracket | 93 => one TokenKind.kRBracket
  | 40 => one TokenKind.kLParen | 41 => one TokenKind.kRParen
  | 59 => one TokenKind.kSemicolon | 44 => one TokenKind.kComma | 46 => one TokenKind.kDot
  | 63 => one TokenKind.kQuestion | 58 => one TokenKind.kColon
  | 43 => one TokenKind.kPlus | 45 => one TokenKind.kMinus | 42 => one TokenKind.kStar
  | 47 => one TokenKind.kSlash | 37 => one TokenKind.kPercent
  | 94 => one TokenKind.kCaret | 126 => one TokenKind.kTilde
  | 61 => lex_op2 start 61 TokenKind.kEq TokenKind.kAssign
  | 33 => lex_op2 start 61 TokenKind.kNe TokenKind.kBang
  | 60 => lex_op3 start 60 61 TokenKind.kShl TokenKind.kLe TokenKind.kLt
  | 62 => lex_op3 start 62 61 TokenKind.kShr TokenKind.kGe TokenKind.kGt
  | 38 => lex_op2 start 38 TokenKind.kAndAnd TokenKind.kAmp
  | 124 => lex_op2 start 124 TokenKind.kOrOr TokenKind.kPipe
  | _ => lx_error start "unexpected character"
  end.

Definition next : St lexer Token :=
  skip_trivia ;* fun l =>
  if lx_at_end l then Ok (plain_token TokenKind.kEof (lx_offset l), l)
  else
    let c := lx_peek 0 l in
    if is_ident_start c then lex_ident_or_keyword l
    else if is_digit c then lex_number l
    else if c =? 34 then lex_string l
    else lex_operator l.

(** ** Safety *)

(** An error of the scanner, the parser or the evaluator points into the source. *)
Definition cfg_error (size : nat) (e : ParseError) : Prop :=
  pe_code e ∈ [kBadType; kBadLength; kDepthExceeded; kStateViolation] /\ 0 <= pe_offset e <= Z.of_nat size.

Definition lx_ok (l : lexer) : Prop := (lx_pos l <= length (lx_data l))%nat /\ bytes_ok (lx_data l).

#[export] Program Instance lexer_progress : Progress lexer := {
  st_ok := lx_ok;
  st_err l := cfg_error (length (lx_data l));
  st_adv n l l' := lx_data l' = lx_data l /\ (lx_pos l + n <= lx_pos l')%nat;
}.
Next Obligation. intros l. split; [done|lia]. Qed.
Next Obligation. intros n m l l' l'' [H1 H2] [H3 H4]. split; [congruence|lia]. Qed.
Next Obligation. intros n m l l' Hm [H1 H2]. split; [done|lia]. Qed.
Next Obligation. intros n l l' e [H1 _] He. cbn in *. by rewrite H1 in He. Qed.

Definition lx_left (l : lexer) : nat := length (lx_data l) - lx_pos l.

Lemma lx_error_ok {A} at_ msg n l (Q : A -> Prop) : 0 <= at_ <= Z.of_nat (length (lx_data l)) ->
  runs_at n l Q (lx_error at_ msg l).
Proof. intros H. split; [left|done]. Qed.

Lemma lx_peek_in n l : lx_ok l -> lx_peek n l <> 0 -> (lx_pos l + n < length (lx_data l))%nat.
Proof.
  intros Hl H. unfold lx_peek in H. destruct (lx_data l !! (lx_pos l + n)%nat) eqn:E; [|done].
  by apply lookup_lt_Some in E.
Qed.

Lemma lx_peek_byte n l : lx_ok l -> is_byte (lx_peek n l).
Proof.
  intros [_ Hl]. unfold lx_peek. destruct (lx_data l !! (lx_pos l + n)%nat) eqn:E; [|done].
  by eapply bytes_ok_lookup.
Qed.

Lemma lx_at_end_false l : lx_at_end l = false <-> (lx_pos l < length (lx_data l))%nat.
Proof. unfold lx_at_end. rewrite Nat.leb_gt. done. Qed.

Lemma advance_at l : lx_ok l -> (lx_pos l < length (lx_data l))%nat ->
  exists l', advance l = Ok (lx_peek 0 l, l') /\ lx_ok l' /\ lx_data l' = lx_data l /\ lx_pos l' = S (lx_pos l).
Proof.
  intros [Hp Hb] Hlt. destruct (at_idx_ok (lx_data l) (lx_pos l) Hlt) as (c & Hc & E).
  unfold advance, lx_peek. rewrite E, Nat.add_0_r, Hc. cbn [obind default from_option].
  destruct (c =? 10); eexists; (split; [reflexivity|]); unfold lx_ok; cbn; auto with lia.
Qed.

Lemma advance_runs l : lx_ok l -> (lx_pos l < length (lx_data l))%nat ->
  runs_at 1 l (fun c => c = lx_peek 0 l) (advance l).
Proof.
  intros Hl Hlt. destruct (advance_at l Hl Hlt) as (l' & E & H1 & H2 & H3). rewrite E.
  split; [done|]. split; [|done]. split; [done|lia].
Qed.

(** Advance, and go on with the facts about the new state. *)
Lemma advance_then {B} k l (f : Z -> St lexer B) (Q : B -> Prop) : lx_ok l -> (lx_pos l < length (lx_data l))%nat ->
  (forall l', lx_ok l' -> lx_data l' = lx_data l -> lx_pos l' = S (lx_pos l) -> runs_at k l' Q (f (lx_peek 0 l) l')) ->
  runs_at (S k) l Q (st_bind advance f l).
Proof.
  intros Hl Hlt Hf. destruct (advance_at l Hl Hlt) as (l' & E & H1 & H2 & H3).
  unfold st_bind. rewrite E. cbn [obind].
  eapply ospec_mono; [by apply (Hf l')|intros e He; cbn in *; by rewrite <- H2|].
  intros [b l''] (H4 & [H5 H6] & H7). split; [done|]. split; [|done]. split; [congruence|lia].
Qed.

(** The input from the cursor on. *)
Definition lx_rest (l : lexer) : bytes := drop (lx_pos l) (lx_data l).

Lemma lx_rest_cons l : (lx_pos l < length (lx_data l))%nat ->
  lx_rest l = lx_peek 0 l :: drop (S (lx_pos l)) (lx_data l).
Proof.
  intros H. unfold lx_rest, lx_peek. rewrite Nat.add_0_r.
  destruct (lookup_lt_is_Some_2 _ _ H) as [c Hc]. by rewrite (drop_S _ _ _ Hc), Hc.
Qed.

(** [l'] is [l] after the bytes [w]. *)
Definition lx_after (l : lexer) (w : bytes) (l' : lexer) : Prop :=
  lx_ok l' /\ lx_data l' = lx_data l /\ lx_pos l' = (lx_pos l + length w)%nat /\ lx_rest l = w ++ lx_rest l'.

Lemma lx_after_nil l : lx_ok l -> lx_after l [] l.
Proof. intros Hl. split; [done|]. split; [done|]. split; [simpl; lia|done]. Qed.

Lemma lx_after_trans l w l' w' l'' : lx_after l w l' -> lx_after l' w' l'' -> lx_after l (w ++ w') l''.
Proof.
  intros (H1 & H2 & H3 & H4) (H5 & H6 & H7 & H8). split; [done|]. split; [congruence|].
  rewrite length_app. split; [lia|]. by rewrite H4, H8, app_assoc.
Qed.

Lemma lx_after_adv l w l' : lx_after l w l' -> st_adv (length w) l l'.
Proof. intros (_ & H1 & H2 & _). split; [done|lia]. Qed.

Lemma advance_after l : lx_ok l -> (lx_pos l < length (lx_data l))%nat ->
  exists l', advance l = Ok (lx_peek 0 l, l') /\ lx_after l [lx_peek 0 l] l'.
Proof.
  intros Hl Hlt. destruct (advance_at l Hl Hlt) as (l' & E & H1 & H2 & H3). exists l'. split; [done|].
  split; [done|]. split; [done|]. split; [simpl; lia|]. rewrite (lx_rest_cons l Hlt). unfold lx_rest. by rewrite H2, H3.
Qed.

(** [skip_while] stops at the first byte outside [p]. *)
Lemma skip_loop_spec p turns : forall l, lx_ok l -> (lx_left l < turns)%nat ->
  exists l' w, skip_loop turns p l = Ok (tt, l') /\ lx_after l w l' /\ Forall (fun c => p c = true) w /\
    (lx_at_end l' = true \/ p (lx_peek 0 l') = false).
Proof.
  induction turns as [|turns IH]; intros l Hl Ht; [lia|]. cbn [skip_loop].
  destruct (lx_at_end l) eqn:E; cbn [negb andb].
  { exists l, []. split; [done|]. split; [by apply lx_after_nil|]. split; [by apply Forall_nil|by left]. }
  apply lx_at_end_false in E. destruct (p (lx_peek 0 l)) eqn:Ep.
  2: { exists l, []. split; [done|]. split; [by apply lx_after_nil|]. split; [by apply Forall_nil|by right]. }
  destruct (advance_after l Hl E) as (l1 & E1 & H1). unfold st_bind. rewrite E1. cbn [obind].
  destruct (IH l1) as (l2 & w & E2 & H2 & Hw & Hstop).
  { apply H1. } { destruct H1 as (_ & Hd & Hpos & _). unfold lx_left in *. rewrite Hd, Hpos. cbn [length]. lia. }
  exists l2, (lx_peek 0 l :: w). split; [done|]. split; [exact (lx_after_trans _ _ _ _ _ H1 H2)|].
  split; [by apply Forall_cons|done].
Qed.

Lemma skip_while_spec p l : lx_ok l ->
  exists l' w, skip_while p l = Ok (tt, l') /\ lx_after l w l' /\ Forall (fun c => p c = true) w /\
    (lx_at_end l' = true \/ p (lx_peek 0 l') = false).
Proof. intros Hl. apply skip_loop_spec; [done|]. unfold lx_left, lx_turns. lia. Qed.

Lemma skip_while_runs p l : lx_ok l -> runs_at 0 l (fun _ => True) (skip_while p l).
Proof.
  intros Hl. destruct (skip_while_spec p l Hl) as (l' & w & -> & Ha & _ & _).
  split; [apply Ha|]. split; [|done]. eapply st_adv_weaken; [|by apply lx_after_adv]. lia.
Qed.

Lemma lexeme_runs start l : lx_ok l -> (start <= lx_pos l)%nat ->
  runs_at 0 l (fun w => w = take (lx_pos l - start) (drop start (lx_data l))) (lexeme_from start l).
Proof.
  intros [Hp Hb] Hs. unfold lexeme_from, copy_range. rewrite (proj2 (Nat.leb_le _ _)) by lia.
  by apply runs_at_ret.
Qed.

(** ** Every piece of the scanner is safe *)

Ltac lx_facts :=
  repeat match goal with
  | H : lx_at_end _ = false |- _ => apply lx_at_end_false in H
  | H : st_adv _ _ _ |- _ => destruct H as [? ?]
  | H : (_ && _)%bool = true |- _ => apply andb_prop in H; destruct H
  | H : negb _ = true |- _ => apply negb_true_iff in H
  | H : negb _ = false |- _ => apply negb_false_iff in H
  | H : (_ =? _) = true |- _ => apply Z.eqb_eq in H
  end.

(** Arithmetic on positions, knowing that the input stays the same. *)
Ltac lx_lia :=
  unfold lx_left, lx_turns, lx_offset, lx_ok in *;
  repeat match goal with
  | H : lx_data ?a = lx_data ?b |- _ =>
      lazymatch goal with
      | _ : length (lx_data a) = length (lx_data b) |- _ => fail
      | _ => pose proof (f_equal (@length Z) H)
      end
  end; lia.

Ltac lx_advance l' :=
  let H := fresh "Hok" in let D := fresh "D" in let P := fresh "P" in
  eapply runs_at_le; [apply (advance_then 0); [done|lx_lia|]; intros l' H D P|lia].

Lemma comment_loop_runs turns : forall l, lx_ok l -> (lx_left l < turns)%nat -> runs_at 0 l (fun _ => True) (comment_loop turns l).
Proof.
  induction turns as [|turns IH]; intros l Hl Ht; [lia|]. cbn [comment_loop]. unfold lx_left in *.
  destruct (lx_at_end l) eqn:E; [by apply runs_at_ret|]. lx_facts. case_bool; lx_facts.
  - pose proof (lx_peek_in 1 l Hl ltac:(lia)). lx_advance l1. lx_advance l2. by apply runs_at_ret.
  - lx_advance l1. apply IH; [done|lx_lia].
Qed.

Lemma runs_at_after {A} k l w l' (Q : A -> Prop) o : lx_after l w l' -> runs_at k l' Q o -> runs_at (length w + k) l Q o.
Proof.
  intros (_ & D & P & _) Ho. eapply ospec_mono; [exact Ho|cbn; by rewrite D|].
  intros [a l2] (H2 & [D2 P2] & HQ). split; [done|]. split; [|done]. split; [congruence|lia].
Qed.

Lemma skip_then {B} k l p (f : unit -> St lexer B) (Q : B -> Prop) : lx_ok l ->
  (forall l' w, lx_after l w l' -> Forall (fun c => p c = true) w -> lx_at_end l' = true \/ p (lx_peek 0 l') = false ->
     runs_at k l' Q (f tt l')) ->
  runs_at k l Q (st_bind (skip_while p) f l).
Proof.
  intros Hl Hf. destruct (skip_while_spec p l Hl) as (l' & w & E & Ha & Hw & Hs). unfold st_bind. rewrite E. cbn [obind].
  eapply runs_at_le; [eapply runs_at_after; [exact Ha|by eapply Hf]|lia].
Qed.

(** Skipping from a byte that is to be skipped makes progress. *)
Lemma skip_progress p l l' w : lx_after l w l' -> lx_at_end l' = true \/ p (lx_peek 0 l') = false ->
  (lx_pos l < length (lx_data l))%nat -> p (lx_peek 0 l) = true -> (lx_pos l < lx_pos l')%nat.
Proof.
  intros (_ & D & P & _) Hs Hlt Hp. destruct w; cbn [length] in P; [|lia]. exfalso.
  rewrite Nat.add_0_r in P. unfold lx_at_end, lx_peek in *. rewrite D, P in Hs.
  destruct Hs as [Hs|Hs]; [apply Nat.leb_le in Hs; lia|congruence].
Qed.

Lemma trivia_loop_runs turns : forall l, lx_ok l -> (lx_left l < turns)%nat -> runs_at 0 l (fun _ => True) (trivia_loop turns l).
Proof.
  induction turns as [|turns IH]; intros l Hl Ht; [lia|]. cbn [trivia_loop]. unfold lx_left in *.
  destruct (lx_at_end l) eqn:E; [by apply runs_at_ret|]. lx_facts.
  case_bool; [lx_advance l1; apply IH; [done|lx_lia]|].
  case_bool; lx_facts.
  { apply skip_then; [done|]. intros l1 w Ha _ Hs. pose proof (skip_progress (fun c => negb (c =? 10)) _ _ _ Ha Hs E ltac:(cbv beta; by rewrite E1)).
    destruct Ha as (H1 & D & _). apply IH; [done|lx_lia]. }
  case_bool; lx_facts.
  { pose proof (lx_peek_in 1 l Hl ltac:(lia)). lx_advance l1. lx_advance l2.
    apply skip_then; [done|]. intros l3 w (H3 & D3 & P3 & _) _ _. apply IH; [done|lx_lia]. }
  case_bool; lx_facts; [|by apply runs_at_ret].
  pose proof (lx_peek_in 1 l Hl ltac:(lia)). change (st_bind (st_get lx_offset) ?f l) with (f (lx_offset l) l). cbv beta.
  lx_advance l1. lx_advance l2.
  change (st_bind (st_get lx_turns) ?f l2) with (f (lx_turns l2) l2). cbv beta.
  eapply (runs_at_bind 0 0); [apply comment_loop_runs; [done|lx_lia]| |lia].
  intros closed l3 H3 [D3 P3] _. unfold lx_offset.
  eapply (runs_at_bind 0 0 _ _ (fun _ => True)); [destruct closed; cbn [negb];
    [by apply runs_at_ret|apply lx_error_ok; lx_lia]| |lia].
  intros _ l4 H4 [D4 P4] _. apply IH; [done|lx_lia].
Qed.

Lemma skip_trivia_runs : runs 0 skip_trivia (fun _ => True).
Proof. intros l Hl. apply trivia_loop_runs; [done|]. lx_lia. Qed.

(** A word, and a word that is no keyword. *)
Definition is_word (w : bytes) : Prop :=
  match w with c :: _ => is_ident_start c = true /\ Forall (fun c => is_ident_part c = true) w | [] => False end.
Definition identifier (w : bytes) : Prop := is_word w /\ keyword_kind w = TokenKind.kIdent.

Lemma is_ident_part_byte c : is_ident_part c = true -> is_byte c.
Proof.
  unfold is_ident_part, is_ident_start, is_digit, is_byte. intros H.
  repeat match goal with H : (_ || _)%bool = true |- _ => apply orb_prop in H as [H|H] end; reflect_bools; lia.
Qed.

(** What a token read at [l] satisfies. *)
Definition token_ok (t : Token) : Prop :=
  bytes_ok (tk_text t) /\ is_i64 (tk_int t) /\ (tk_kind t = TokenKind.kIdent -> identifier (tk_text t)).
Definition token_here (l : lexer) (t : Token) : Prop :=
  tk_offset t = lx_offset l /\ tk_kind t <> TokenKind.kEof /\ token_ok t.

Lemma plain_token_here k l o : k <> TokenKind.kEof -> k <> TokenKind.kIdent -> o = lx_offset l -> token_here l (plain_token k o).
Proof. intros Hk Hi ->. repeat split; try done. by apply Forall_nil. Qed.

Lemma lx_get_then {A B} k (f : lexer -> A) l (g : A -> St lexer B) (Q : B -> Prop) :
  runs_at k l Q (g (f l) l) -> runs_at k l Q (st_bind (st_get f) g l).
Proof. done. Qed.

(** The bytes skipped since [start] are the lexeme. *)
Lemma lexeme_then {B} k start (l0 l : lexer) w (f : bytes -> St lexer B) (Q : B -> Prop) :
  lx_pos l0 = start -> lx_after l0 w l -> runs_at k l Q (f w l) -> runs_at k l Q (st_bind (lexeme_from start) f l).
Proof.
  intros <- (Hl & D & P & R) Hf. unfold st_bind, lexeme_from, copy_range.
  rewrite (proj2 (Nat.leb_le _ _)) by (destruct Hl; lia). cbn [obind]. rewrite D, P.
  replace (lx_pos l0 + length w - lx_pos l0)%nat with (length w) by lia.
  unfold lx_rest in R. rewrite R, take_app_length. done.
Qed.

Lemma ident_part_not c : is_ident_start c = true -> is_ident_part c = true.
Proof. unfold is_ident_part. by intros ->. Qed.

Lemma ident_runs l : lx_ok l -> (lx_pos l < length (lx_data l))%nat -> is_ident_start (lx_peek 0 l) = true ->
  runs_at 1 l (token_here l) (lex_ident_or_keyword l).
Proof.
  intros Hl Hlt Hc. unfold lex_ident_or_keyword. apply lx_get_then.
  destruct (skip_while_spec is_ident_part l Hl) as (l' & w & E & Ha & Hw & Hs).
  pose proof (skip_progress _ _ _ _ Ha Hs Hlt (ident_part_not _ Hc)) as Hp. unfold st_bind at 1. rewrite E. cbn [obind].
  eapply runs_at_le; [eapply runs_at_after; [exact Ha|]; eapply lexeme_then; [done|exact Ha|]; apply runs_at_ret; [apply Ha|]|].
  - split; [done|]. split.
    + cbn [tk_kind text_token]. unfold keyword_kind. by repeat case_bool.
    + cbn. destruct Ha as (_ & _ & P' & R). destruct Hl as [_ Hb].
      assert (H : bytes_ok (lx_rest l)) by (unfold lx_rest; auto with bw). rewrite R in H. apply bytes_ok_app in H.
      split; [apply H|]. split; [done|]. intros Hk. split; [|done].
      rewrite (lx_rest_cons l Hlt) in R. destruct w as [|c w]; [cbn in Hp, P'; lia|]. injection R as <- _. by split.
  - destruct Ha as (_ & _ & P & _). lia.
Qed.

Lemma hex_loop_runs turns : forall acc l, lx_ok l -> (lx_left l < turns)%nat -> runs_at 0 l (fun _ => True) (hex_loop turns acc l).
Proof.
  induction turns as [|turns IH]; intros acc l Hl Ht; [lia|]. cbn [hex_loop].
  destruct (lx_at_end l) eqn:E; cbn [negb andb]; [by apply runs_at_ret|]. lx_facts.
  case_bool; [|by apply runs_at_ret]. lx_advance l1. apply IH; [done|lx_lia].
Qed.

Lemma i64_ok z : is_i64 (i64 z).
Proof. unfold is_i64, i64, u64. pose proof (Z.mod_pos_bound z (2 ^ 64)). destruct (Z.ltb_spec (z mod 2 ^ 64) (2 ^ 63)); lia. Qed.

Lemma hex_runs l : lx_ok l -> (lx_pos l + 1 < length (lx_data l))%nat ->
  runs_at 1 l (token_here l) (lex_hex (lx_offset l) l).
Proof.
  intros Hl Hlt. unfold lex_hex. eapply runs_at_le; [apply (advance_then 0); [done|lia|]; intros l1 H1 D1 P1|lia].
  lx_advance l2. do 2 apply lx_get_then.
  eapply (runs_at_bind 0 0); [apply hex_loop_runs; [done|lx_lia]| |lia]. intros acc l3 H3 [D3 P3] _. apply lx_get_then.
  case_bool; [apply lx_error_ok; lx_lia|]. apply runs_at_ret; [done|]. split; [done|]. split; [done|].
  split; [by apply Forall_nil|]. split; [apply i64_ok|done].
Qed.

(** The optional parts of a number: how far they go, and what they skipped. *)
Definition optional_part (l : lexer) (o : outcome (bool * lexer)) : Prop :=
  exists b l' w, o = Ok (b, l') /\ lx_after l w l' /\ (b = false -> w = []).

Lemma fraction_spec l : lx_ok l -> optional_part l (lex_fraction l).
Proof.
  intros Hl. unfold lex_fraction, optional_part. case_bool; lx_facts.
  2: { exists false, l, []. split; [done|]. split; [by apply lx_after_nil|done]. }
  destruct (advance_after l Hl ltac:(lia)) as (l1 & E1 & A1). unfold st_bind. rewrite E1. cbn [obind].
  destruct (skip_while_spec is_digit l1 (proj1 A1)) as (l2 & w & E2 & A2 & _ & _). rewrite E2. cbn [obind].
  exists true, l2, ([lx_peek 0 l] ++ w). split; [done|]. split; [|done]. by eapply lx_after_trans.
Qed.

Lemma exponent_spec l : lx_ok l -> optional_part l (lex_exponent l).
Proof.
  intros Hl. unfold lex_exponent, optional_part.
  assert (Hno : exists b l' w, Ok (false, l) = Ok (b, l') /\ lx_after l w l' /\ (b = false -> w = [])).
  { exists false, l, []. split; [done|]. split; [by apply lx_after_nil|done]. }
  destruct (negb (lx_at_end l) && ((lx_peek 0 l =? 101) || (lx_peek 0 l =? 69))) eqn:E; [|done]. lx_facts.
  set (look := if _ || _ then 2%nat else 1%nat). destruct (is_digit (lx_peek look l)) eqn:Ed; [|done].
  assert (lx_peek look l <> 0) as Hne by (intros Hz; by rewrite Hz in Ed). apply lx_peek_in in Hne; [|done].
  destruct (advance_after l Hl ltac:(lia)) as (l1 & E1 & A1). unfold st_bind at 1. rewrite E1. cbn [obind].
  change (st_bind (st_get (lx_peek 0)) ?f l1) with (f (lx_peek 0 l1) l1). cbv beta.
  assert (Hsign : exists l2 w, (if (lx_peek 0 l1 =? 43) || (lx_peek 0 l1 =? 45) then advance ;* st_ret tt else st_ret tt) l1 = Ok (tt, l2) /\
    lx_after l1 w l2).
  { destruct ((lx_peek 0 l1 =? 43) || (lx_peek 0 l1 =? 45)) eqn:Es; [|exists l1, []; split; [done|apply lx_after_nil, A1]].
    destruct (advance_after l1 (proj1 A1)) as (l2 & E2 & A2).
    { apply Nat.ltb_lt. destruct (Nat.ltb_spec (lx_pos l1) (length (lx_data l1))) as [|Hge]; [done|].
      exfalso. unfold lx_peek in Es. rewrite lookup_ge_None_2 in Es by lia. done. }
    exists l2, [lx_peek 0 l1]. unfold st_bind. rewrite E2. done. }
  destruct Hsign as (l2 & w2 & E2 & A2). unfold st_bind at 1. rewrite E2. cbn [obind].
  destruct (skip_while_spec is_digit l2 (proj1 A2)) as (l3 & w3 & E3 & A3 & _ & _). unfold st_bind. rewrite E3. cbn [obind].
  exists true, l3, ([lx_peek 0 l] ++ w2 ++ w3). split; [done|]. split; [|done].
  eapply lx_after_trans; [exact A1|]. by eapply lx_after_trans.
Qed.

Lemma decimal_runs l : lx_ok l -> (lx_pos l < length (lx_data l))%nat -> is_digit (lx_peek 0 l) = true ->
  runs_at 1 l (token_here l) (lex_decimal (lx_pos l) l).
Proof.
  intros Hl Hlt Hc. unfold lex_decimal.
  destruct (skip_while_spec is_digit l Hl) as (l1 & w & E & H1 & Hw & Hs). unfold st_bind at 1. rewrite E. cbn [obind].
  pose proof (skip_progress _ _ _ _ H1 Hs Hlt Hc) as Hp.
  destruct (fraction_spec l1 (proj1 H1)) as (b2 & l2 & w2 & E2 & H2 & N2). unfold st_bind at 1. rewrite E2. cbn [obind].
  destruct (exponent_spec l2 (proj1 H2)) as (b3 & l3 & w3 & E3 & H3 & N3). unfold st_bind at 1. rewrite E3. cbn [obind].
  assert (Ha : lx_after l (w ++ w2 ++ w3) l3) by (eapply lx_after_trans; [exact H1|]; by eapply lx_after_trans).
  eapply runs_at_le; [eapply runs_at_after; [exact Ha|]|rewrite length_app; destruct H1 as (_ & _ & P & _); lia].
  eapply (lexeme_then 0); [done|exact Ha|].
  assert (Herr : forall (Q : Token -> Prop), runs_at 0 l3 Q (st_throw (parse_error kBadLength (Z.of_nat (lx_pos l)) "numeric literal out of range") l3)).
  { intros Q. split; [right; left|]. destruct Ha as (_ & D & _). cbn. rewrite D. destruct Hl. lia. }
  destruct (b2 || b3) eqn:Eb.
  - destruct (stod _); [|apply Herr]. apply runs_at_ret; [apply H3|]. repeat split; try done. by apply Forall_nil.
  - apply orb_false_elim in Eb as [-> ->]. rewrite (N2 eq_refl), (N3 eq_refl), !app_nil_r.
    destruct (stoll w) as [v|] eqn:Ev; [|apply Herr]. apply runs_at_ret; [apply H3|]. split; [done|]. split; [done|].
    split; [by apply Forall_nil|]. split; [by eapply stoll_ok|done].
Qed.

Lemma number_runs l : lx_ok l -> (lx_pos l < length (lx_data l))%nat -> is_digit (lx_peek 0 l) = true ->
  runs_at 1 l (token_here l) (lex_number l).
Proof.
  intros Hl Hlt Hc. unfold lex_number. case_bool; [|by apply decimal_runs]. apply andb_prop in E as [_ E].
  apply hex_runs; [done|]. apply lx_peek_in; [done|]. intros Hz. by rewrite Hz in E.
Qed.

Lemma u8_byte z : is_byte (u8 z).
Proof. unfold is_byte, u8. apply Z.mod_pos_bound. lia. Qed.

Lemma bytes_ok_snoc l c : bytes_ok l -> is_byte c -> bytes_ok (l ++ [c]).
Proof. intros Hl Hc. apply bytes_ok_app. split; [done|]. apply Forall_cons. split; [done|by apply Forall_nil]. Qed.

#[local] Hint Resolve u8_byte bytes_ok_snoc : bw.

Lemma append_utf8_runs out cp esc l : lx_ok l -> bytes_ok out -> 0 <= esc <= Z.of_nat (length (lx_data l)) ->
  runs_at 0 l bytes_ok (append_utf8 out cp esc l).
Proof.
  intros Hl Ho He. unfold append_utf8. case_bool; [by apply lx_error_ok|].
  repeat (case_bool; [apply runs_at_ret; [done|]; apply bytes_ok_app; split; [done|];
    repeat (apply Forall_cons; split; [apply u8_byte|]); by apply Forall_nil|]).
  apply runs_at_ret; [done|]. apply bytes_ok_app. split; [done|].
  repeat (apply Forall_cons; split; [apply u8_byte|]). by apply Forall_nil.
Qed.

Lemma code_point_runs turns : forall esc cp count l, lx_ok l -> (lx_left l < turns)%nat ->
  0 <= esc <= Z.of_nat (length (lx_data l)) -> runs_at 0 l (fun _ => True) (code_point_loop turns esc cp count l).
Proof.
  induction turns as [|turns IH]; intros esc cp count l Hl Ht He; [lia|]. cbn [code_point_loop].
  case_bool; lx_facts; [|by apply runs_at_ret]. lx_advance l1. cbv zeta.
  case_bool; [apply lx_error_ok; lx_lia|]. apply IH; [done|lx_lia..].
Qed.

Lemma unicode_runs out esc l : lx_ok l -> bytes_ok out -> 0 <= esc <= Z.of_nat (length (lx_data l)) ->
  runs_at 0 l bytes_ok (lex_unicode out esc l).
Proof.
  intros Hl Ho He. unfold lex_unicode. apply lx_get_then. case_bool; lx_facts; [by apply lx_error_ok|].
  pose proof (lx_peek_in 0 l Hl ltac:(lia)). lx_advance l1. apply lx_get_then.
  eapply (runs_at_bind 0 0); [apply code_point_runs; [done|lx_lia..]| |lia]. intros [cp count] l2 H2 [D2 P2] _.
  case_bool; [apply lx_error_ok; lx_lia|]. apply lx_get_then.
  destruct (lx_at_end l2 || negb (lx_peek 0 l2 =? 125)) eqn:Eb; [apply lx_error_ok; lx_lia|].
  apply orb_false_elim in Eb as [Eb1 Eb2]. lx_facts. lx_advance l3. apply append_utf8_runs; [done|done|lx_lia].
Qed.

Lemma hex_byte_runs out esc l : lx_ok l -> bytes_ok out -> 0 <= esc <= Z.of_nat (length (lx_data l)) ->
  runs_at 0 l bytes_ok (lex_hex_byte out esc l).
Proof.
  intros Hl Ho He. unfold lex_hex_byte. apply lx_get_then. case_bool; lx_facts; [by apply lx_error_ok|].
  assert (lx_peek 1 l <> 0) as Hne by (intros Hz; by rewrite Hz in *). apply lx_peek_in in Hne; [|done].
  lx_advance l1. lx_advance l2. apply runs_at_ret; [done|]. auto with bw.
Qed.

Lemma escape_runs out l : lx_ok l -> bytes_ok out -> (lx_pos l < length (lx_data l))%nat ->
  runs_at 1 l bytes_ok (lex_escape out l).
Proof.
  intros Hl Ho Hlt. unfold lex_escape. apply lx_get_then. apply advance_then; [done|done|]. intros l1 H1 D1 P1.
  apply lx_get_then. destruct (lx_at_end l1) eqn:E; [apply lx_error_ok; lx_lia|]. lx_facts. lx_advance l2.
  assert (He : 0 <= lx_offset l <= Z.of_nat (length (lx_data l2))) by lx_lia.
  repeat match goal with |- context [match ?x with _ => _ end] =>
    lazymatch x with lx_peek _ _ => idtac | _ => is_var x end; destruct x
  end; first [by apply lx_error_ok | by apply hex_byte_runs | by apply unicode_runs
             | apply runs_at_ret; [done|by apply bytes_ok_snoc]].
Qed.

Lemma string_loop_runs turns : forall open out l, lx_ok l -> (lx_left l < turns)%nat -> bytes_ok out ->
  0 <= open <= Z.of_nat (length (lx_data l)) -> runs_at 0 l bytes_ok (string_loop turns open out l).
Proof.
  induction turns as [|turns IH]; intros open out l Hl Ht Ho Hopen; [lia|]. cbn [string_loop].
  destruct (lx_at_end l) eqn:E; [by apply lx_error_ok|]. lx_facts.
  case_bool; [lx_advance l1; by apply runs_at_ret|].
  case_bool; [apply lx_error_ok; lx_lia|].
  case_bool.
  - lx_advance l1. apply IH; [done|lx_lia| |lx_lia]. apply bytes_ok_snoc; [done|by apply lx_peek_byte].
  - eapply (runs_at_bind 1 0); [by apply escape_runs| |lia]. intros out' l1 H1 [D1 P1] Hout. apply IH; [done|lx_lia|done|lx_lia].
Qed.

Lemma string_runs l : lx_ok l -> (lx_pos l < length (lx_data l))%nat -> runs_at 1 l (token_here l) (lex_string l).
Proof.
  intros Hl Hlt. unfold lex_string. apply lx_get_then. apply advance_then; [done|done|]. intros l1 H1 D1 P1.
  apply lx_get_then. eapply (runs_at_bind 0 0); [apply string_loop_runs; [done|lx_lia|by apply Forall_nil|lx_lia]| |lia].
  intros out l2 H2 _ Ho. apply runs_at_ret; [done|]. done.
Qed.

Lemma op2_runs k o second two one l : lx_ok l -> second <> 0 ->
  (forall t, t = plain_token two o \/ t = plain_token one o -> k t) ->
  runs_at 0 l k (lex_op2 o second two one l).
Proof.
  intros Hl Hs Hk. unfold lex_op2. case_bool; lx_facts; [|apply runs_at_ret; [done|by apply Hk; right]].
  pose proof (lx_peek_in 0 l Hl ltac:(lia)). lx_advance l1. apply runs_at_ret; [done|by apply Hk; left].
Qed.

Lemma op3_runs k o second third two two' one l : lx_ok l -> second <> 0 -> third <> 0 ->
  (forall t, t = plain_token two o \/ t = plain_token two' o \/ t = plain_token one o -> k t) ->
  runs_at 0 l k (lex_op3 o second third two two' one l).
Proof.
  intros Hl Hs Ht Hk. unfold lex_op3. case_bool; lx_facts.
  - pose proof (lx_peek_in 0 l Hl ltac:(lia)). lx_advance l1. apply runs_at_ret; [done|by apply Hk; left].
  - apply op2_runs; [done|done|]. intros t H. apply Hk. tauto.
Qed.

Lemma operator_runs l : lx_ok l -> (lx_pos l < length (lx_data l))%nat -> runs_at 1 l (token_here l) (lex_operator l).
Proof.
  intros Hl Hlt. unfold lex_operator. apply lx_get_then. apply advance_then; [done|done|]. intros l1 H1 D1 P1.
  cbv zeta.
  repeat match goal with |- context [match ?x with _ => _ end] =>
    lazymatch x with lx_peek _ _ => idtac | _ => is_var x end; destruct x
  end;
  first [ apply lx_error_ok; lx_lia
        | apply runs_at_ret; [done|]; by apply plain_token_here
        | apply op2_runs; [done|done|]; intros t [->| ->]; by apply plain_token_here
        | apply op3_runs; [done|done|done|]; intros t [->|[->| ->]]; by apply plain_token_here ].
Qed.

(** [next] on any state: it skips trivia and reads one token. *)
Definition next_post (l : lexer) (x : Token * lexer) : Prop :=
  let '(t, l') := x in
  lx_ok l' /\ lx_data l' = lx_data l /\ token_ok t /\
  lx_offset l <= tk_offset t <= lx_offset l' /\
  if bool_decide (tk_kind t = TokenKind.kEof) then lx_at_end l' = true else tk_offset t < lx_offset l'.

Lemma next_spec l : lx_ok l -> ospec (st_err l) (next_post l) (next l).
Proof.
  intros Hl. unfold next, st_bind. eapply ospec_bind; [by apply skip_trivia_runs|]. intros [[] l1] (H1 & [D1 P1] & _).
  cbv beta iota. destruct (lx_at_end l1) eqn:E.
  { cbn. rewrite bool_decide_eq_true_2 by done. split; [done|]. split; [done|].
    split; [split; [by apply Forall_nil|done]|]. split; [lx_lia|done]. }
  lx_facts.
  assert (H : forall o, runs_at 1 l1 (token_here l1) o -> ospec (st_err l) (next_post l) o).
  { intros o Ho. eapply ospec_mono; [exact Ho|cbn; by rewrite D1|]. intros [t l2] (H2 & [D2 P2] & Ht1 & Ht2 & Ht3).
    cbn. split; [done|]. split; [congruence|]. split; [done|]. rewrite Ht1, (bool_decide_eq_false_2 _ Ht2). lx_lia. }
  case_bool; [by apply H, ident_runs|]. case_bool; [by apply H, number_runs|].
  case_bool; [by apply H, string_runs|by apply H, operator_runs].
Qed.
