(* ===== verification/CfgParser.v ===== *)
(** * CfgParser: the cfgscript parser

    [include/cfgscript/ast.hpp], [include/cfgscript/parser.hpp] and
    [src/cfgscript/parser.cpp]: expression trees, parsed statements, and the
    recursive-descent parser with its one token of lookahead. Recursion is bounded
    by the depth guard, so a fixed number of levels is enough; every loop takes a
    token per turn. *)

From S2P Require Import Prelude Status Stateful CfgNumber CfgLexer.

(** ** Syntax *)

Inductive Expr :=
  | ENull (offset : Z)
  | EBool (offset : Z) (b : bool)
  | EInt (offset : Z) (i : Z)
  | EFloat (offset : Z) (f : double)
  | EStr (offset : Z) (s : bytes)
  | EIdent (offset : Z) (s : bytes)
  | EArray (offset : Z) (elements : list Expr)
  | EObject (offset : Z) (fields : list (bytes * Expr))
  | EUnary (offset : Z) (op : TokenKind) (lhs : Expr)
  | EBinary (offset : Z) (op : TokenKind) (lhs rhs : Expr)
  | ETernary (offset : Z) (lhs rhs third : Expr).

Definition expr_offset (e : Expr) : Z :=
  match e with
  | ENull o | EBool o _ | EInt o _ | EFloat o _ | EStr o _ | EIdent o _ | EArray o _ | EObject o _
  | EUnary o _ _ | EBinary o _ _ _ | ETernary o _ _ _ => o
  end.

(** [has_label] and [label] are one option. *)
Inductive ParsedStatement :=
  | SAssignment (offset : Z) (path : list bytes) (expr : Expr)
  | SBlock (offset : Z) (name : bytes) (label : option bytes) (children : list ParsedStatement)
  | SInclude (offset : Z) (include_path : bytes).

Definition kMaxDepth : Z := 64.

(** ** The token stream *)

Record parser := Parser { ps_lexer : lexer; ps_cur : Token }.
Abbreviation P A := (St parser A).

Definition new_parser (data : bytes) : outcome parser :=
  let? (t, l) := next (new_lexer data) in Ok (Parser l t).

Definition kind_now (p : parser) : TokenKind := tk_kind (ps_cur p).
Definition offset_now (p : parser) : Z := tk_offset (ps_cur p).

Definition take : P Token := fun p =>
  let? (t, l) := next (ps_lexer p) in Ok (ps_cur p, Parser l t).

Definition check (k : TokenKind) : P bool := st_get (fun p => bool_decide (kind_now p = k)).

Definition accept (k : TokenKind) : P bool :=
  let* c := check k in if c then take ;* st_ret true else st_ret false.

Definition ps_error {A} (at_ : Z) (msg : string) : P A := st_throw (parse_error kBadType at_ msg).

Definition expect (k : TokenKind) (what : string) : P Token :=
  let* c := check k in
  if c then take
  else fun p => ps_error (offset_now p)
         ("expected " +:+ what +:+ ", found " +:+ token_kind_name (kind_now p))%string p.

Definition check_depth (depth : Z) (at_ : Z) : P unit :=
  if kMaxDepth <? depth then st_throw (parse_error kDepthExceeded at_ "nesting too deep") else st_ret tt.
Definition check_depth_here (depth : Z) : P unit := fun p => check_depth depth (offset_now p) p.

(** One turn per token that can still be read, and one more. *)
Definition ps_turns (p : parser) : nat := S (S (length (lx_data (ps_lexer p)) - lx_pos (ps_lexer p))).

(** ** Expressions *)

Definition binary_precedence (k : TokenKind) : Z :=
  match k with
  | TokenKind.kStar | TokenKind.kSlash | TokenKind.kPercent => 11
  | TokenKind.kPlus | TokenKind.kMinus => 10
  | TokenKind.kShl | TokenKind.kShr => 9
  | TokenKind.kLt | TokenKind.kLe | TokenKind.kGt | TokenKind.kGe => 8
  | TokenKind.kEq | TokenKind.kNe => 7
  | TokenKind.kAmp => 6
  | TokenKind.kCaret => 5
  | TokenKind.kPipe => 4
  | TokenKind.kAndAnd => 3
  | TokenKind.kOrOr => 2
  | _ => -1
  end.

(** The climbing loop: [rhs] parses a right operand at a given precedence. *)
Fixpoint binary_loop (turns : nat) (rhs : Z -> P Expr) (min_prec : Z) (lhs : Expr) : P Expr := fun p =>
  match turns with
  | O => NoFuel
  | S turns' =>
      let prec := binary_precedence (kind_now p) in
      if prec <? min_prec then Ok (lhs, p)
      else (let* op := take in
            let* r := rhs (prec + 1) in
            binary_loop turns' rhs min_prec (EBinary (tk_offset op) (tk_kind op) lhs r)) p
  end.

Fixpoint elements_loop (turns : nat) (element : P Expr) (elements : list Expr) : P (list Expr) := fun p =>
  match turns with
  | O => NoFuel
  | S turns' =>
      (let* e := element in
       let elements := elements ++ [e] in
       let* comma := accept TokenKind.kComma in
       if comma then
         let* closing := check TokenKind.kRBracket in
         if closing then st_ret elements else elements_loop turns' element elements
       else st_ret elements) p
  end.

Fixpoint fields_loop (turns : nat) (value : P Expr) (offset : Z) (fields : list (bytes * Expr)) : P (list (bytes * Expr)) :=
  fun p =>
  match turns with
  | O => NoFuel
  | S turns' =>
      if bool_decide (kind_now p = TokenKind.kRBrace) then Ok (fields, p)
      else if bool_decide (kind_now p = TokenKind.kEof)
      then ps_error offset "unterminated object literal (missing '}')" p
      else (let* semi := accept TokenKind.kSemicolon in
            if semi then fields_loop turns' value offset fields
            else
              let* key := expect TokenKind.kIdent "key identifier in object literal" in
              expect TokenKind.kAssign "'=' after object key" ;*
              let* v := value in
              expect TokenKind.kSemicolon "';' after object field" ;*
              fields_loop turns' value offset (fields ++ [(tk_text key, v)])) p
  end.

(** A literal: the current token is its value. *)
Definition literal (e : Expr) : P Expr := take ;* st_ret e.

(** The mutually recursive productions. [n] levels of calls are left. *)
Fixpoint parse_ternary (n : nat) (depth : Z) : P Expr :=
  match n with
  | O => fun _ => NoFuel
  | S n' =>
      check_depth_here depth ;*
      let* cond := parse_binary n' 1 depth in
      let* c := check TokenKind.kQuestion in
      if c then
        let* op := take in
        let* then_branch := parse_ternary n' (depth + 1) in
        expect TokenKind.kColon "':' in ternary expression" ;*
        let* else_branch := parse_ternary n' (depth + 1) in
        st_ret (ETernary (tk_offset op) cond then_branch else_branch)
      else st_ret cond
  end
with parse_binary (n : nat) (min_prec depth : Z) : P Expr :=
  match n with
  | O => fun _ => NoFuel
  | S n' =>
      check_depth_here depth ;*
      let* lhs := parse_unary n' (depth + 1) in
      let* turns := st_get ps_turns in
      binary_loop turns (fun prec => parse_binary n' prec (depth + 1)) min_prec lhs
  end
with parse_unary (n : nat) (depth : Z) : P Expr :=
  match n with
  | O => fun _ => NoFuel
  | S n' =>
      check_depth_here depth ;*
      let* k := st_get kind_now in
      match k with
      | TokenKind.kMinus | TokenKind.kBang | TokenKind.kTilde =>
          let* op := take in
          let* operand := parse_unary n' (depth + 1) in
          st_ret (EUnary (tk_offset op) (tk_kind op) operand)
      | _ => parse_primary n' depth
      end
  end
with parse_primary (n : nat) (depth : Z) : P Expr :=
  match n with
  | O => fun _ => NoFuel
  | S n' =>
      check_depth_here depth ;*
      let* t := st_get ps_cur in
      let off := tk_offset t in
      match tk_kind t with
      | TokenKind.kInt => literal (EInt off (tk_int t))
      | TokenKind.kFloat => literal (EFloat off (tk_float t))
      | TokenKind.kString => literal (EStr off (tk_text t))
      | TokenKind.kTrue => literal (EBool off true)
      | TokenKind.kFalse => literal (EBool off false)
      | TokenKind.kNull => literal (ENull off)
      | TokenKind.kIdent => literal (EIdent off (tk_text t))
      | TokenKind.kLParen =>
          take ;*
          let* inner := parse_ternary n' (depth + 1) in
          expect TokenKind.kRParen "')' to close parenthesized expression" ;*
          st_ret inner
      | TokenKind.kLBracket => parse_array n' off depth
      | TokenKind.kLBrace => parse_object n' off depth
      | k => ps_error off ("expected an expression, found " +:+ token_kind_name k)%string
      end
  end
with parse_array (n : nat) (offset depth : Z) : P Expr :=
  match n with
  | O => fun _ => NoFuel
  | S n' =>
      check_depth depth offset ;*
      expect TokenKind.kLBracket "'['" ;*
      let* empty := check TokenKind.kRBracket in
      let* turns := st_get ps_turns in
      let* elements := (if empty then st_ret [] else elements_loop turns (parse_ternary n' (depth + 1)) []) in
      expect TokenKind.kRBracket "']' to close array literal" ;*
      st_ret (EArray offset elements)
  end
with parse_object (n : nat) (offset depth : Z) : P Expr :=
  match n with
  | O => fun _ => NoFuel
  | S n' =>
      check_depth depth offset ;*
      expect TokenKind.kLBrace "'{'" ;*
      let* turns := st_get ps_turns in
      let* fields := fields_loop turns (parse_ternary n' (depth + 1)) offset [] in
      expect TokenKind.kRBrace "'}' to close object literal" ;*
      st_ret (EObject offset fields)
  end.

(** Four productions call each other per level of depth. *)
Definition expr_levels : nat := 270.

Definition parse_expr (depth : Z) : P Expr := parse_ternary expr_levels depth.

(** ** Statements *)

Fixpoint path_loop (turns : nat) (path : list bytes) : P (list bytes) := fun p =>
  match turns with
  | O => NoFuel
  | S turns' =>
      (let* dot := accept TokenKind.kDot in
       if dot then
         let* part := expect TokenKind.kIdent "identifier after '.'" in
         path_loop turns' (path ++ [tk_text part])
       else st_ret path) p
  end.

Definition parse_assignment (path : list bytes) (offset : Z) : P ParsedStatement :=
  expect TokenKind.kAssign "'=' in assignment" ;*
  let* e := parse_expr 1 in
  expect TokenKind.kSemicolon "';' after assignment" ;*
  st_ret (SAssignment offset path e).

Definition parse_include (offset : Z) : P ParsedStatement :=
  take ;*
  let* path := expect TokenKind.kString "string path after 'include'" in
  expect TokenKind.kSemicolon "';' after include path" ;*
  st_ret (SInclude offset (tk_text path)).

(** The statements of a block, up to its closing brace. *)
Fixpoint block_loop (turns : nat) (statement : P ParsedStatement) (offset : Z) (children : list ParsedStatement) :
    P (list ParsedStatement) := fun p =>
  match turns with
  | O => NoFuel
  | S turns' =>
      if bool_decide (kind_now p = TokenKind.kRBrace) then Ok (children, p)
      else if bool_decide (kind_now p = TokenKind.kEof)
      then ps_error offset "unterminated block (missing '}')" p
      else (let* semi := accept TokenKind.kSemicolon in
            if semi then block_loop turns' statement offset children
            else let* st := statement in block_loop turns' statement offset (children ++ [st])) p
  end.

Definition parse_block (statement : P ParsedStatement) (name : bytes) (label : option bytes) (offset : Z) :
    P ParsedStatement :=
  expect TokenKind.kLBrace "'{' to open block" ;*
  let* turns := st_get ps_turns in
  let* children := block_loop turns statement offset [] in
  expect TokenKind.kRBrace "'}' to close block" ;*
  st_ret (SBlock offset name label children).

Fixpoint parse_statement (n : nat) (depth : Z) : P ParsedStatement :=
  match n with
  | O => fun _ => NoFuel
  | S n' =>
      check_depth_here depth ;*
      let* offset := st_get offset_now in
      let* include := check TokenKind.kInclude in
      if include then parse_include offset
      else
        let* first := expect TokenKind.kIdent "identifier at start of statement" in
        let name := tk_text first in
        let* labelled := check TokenKind.kString in
        if labelled then
          let* label := take in
          let* opening := check TokenKind.kLBrace in
          if opening then parse_block (parse_statement n' (depth + 1)) name (Some (tk_text label)) offset
          else fun p => ps_error (offset_now p) "expected '{' after block label" p
        else
          let* opening := check TokenKind.kLBrace in
          if opening then parse_block (parse_statement n' (depth + 1)) name None offset
          else
            let* turns := st_get ps_turns in
            let* path := path_loop turns [name] in
            parse_assignment path offset
  end.

Definition stmt_levels : nat := 70.

Fixpoint document_loop (turns : nat) (stmts : list ParsedStatement) : P (list ParsedStatement) := fun p =>
  match turns with
  | O => NoFuel
  | S turns' =>
      if bool_decide (kind_now p = TokenKind.kEof) then Ok (stmts, p)
      else (let* semi := accept TokenKind.kSemicolon in
            if semi then document_loop turns' stmts
            else let* st := parse_statement stmt_levels 1 in document_loop turns' (stmts ++ [st])) p
  end.

Definition parse_document : P (list ParsedStatement) :=
  let* turns := st_get ps_turns in document_loop turns [].

(** The whole input: [Parser(data, size).parse_document()]. *)
Definition parse_source (data : bytes) : outcome (list ParsedStatement) :=
  let? p := new_parser data in
  let? (stmts, _) := parse_document p in
  Ok stmts.

Example parse_source_sample :
  parse_source (lit "a.b = 1 + 2 * x; srv { p = [1, -2,]; }") =
  Ok [SAssignment 0 [lit "a"; lit "b"]
        (EBinary 8 TokenKind.kPlus (EInt 6 1) (EBinary 12 TokenKind.kStar (EInt 10 2) (EIdent 14 (lit "x"))));
      SBlock 17 (lit "srv") None
        [SAssignment 23 [lit "p"] (EArray 27 [EInt 28 1; EUnary 31 TokenKind.kMinus (EInt 32 2)])]].
Proof. vm_compute. reflexivity. Qed.

(** ** Safety and termination *)

(** Parsing a source of [size] bytes. *)
Section safety.
Context (size : nat).

Definition in_source (offset : Z) : Prop := 0 <= offset <= Z.of_nat size.

Definition parser_ok (p : parser) : Prop :=
  lx_ok (ps_lexer p) /\ token_ok (ps_cur p) /\ in_source (offset_now p) /\
  (kind_now p = TokenKind.kEof -> lx_at_end (ps_lexer p) = true) /\ length (lx_data (ps_lexer p)) = size.

(** How many tokens can still be taken. *)
Definition ps_left (p : parser) : nat :=
  if bool_decide (kind_now p = TokenKind.kEof) then 0 else S (lx_left (ps_lexer p)).

#[local] Program Instance parser_progress : Progress parser := {
  st_ok := parser_ok;
  st_err _ := cfg_error size;
  st_adv n p p' := (ps_left p' + n <= ps_left p)%nat;
}.
Next Obligation. cbn. intros. lia. Qed.
Next Obligation. cbn. intros. lia. Qed.
Next Obligation. cbn. intros. lia. Qed.
Next Obligation. done. Qed.

Lemma ps_left_turns p : (ps_left p < ps_turns p)%nat.
Proof. unfold ps_left, ps_turns, lx_left. case_bool_decide; lia. Qed.

Lemma next_parser l t l' : next_post l (t, l') -> lx_ok l -> length (lx_data l) = size ->
  parser_ok (Parser l' t) /\ (ps_left (Parser l' t) <= lx_left l)%nat.
Proof.
  intros (H1 & H2 & H3 & H4 & H5) Hl Hs. unfold parser_ok, ps_left, offset_now, kind_now, in_source in *.
  cbn [ps_cur ps_lexer] in *. split.
  - split; [done|]. split; [done|]. split; [lx_lia|]. split; [|by rewrite H2]. intros E. by rewrite bool_decide_eq_true_2 in H5.
  - case_bool_decide; [lia|]. lx_lia.
Qed.

Lemma take_at p : parser_ok p ->
  runs_at (if bool_decide (kind_now p = TokenKind.kEof) then 0 else 1) p (fun t => t = ps_cur p) (take p).
Proof.
  intros Hp. unfold take. pose proof (next_spec (ps_lexer p) (proj1 Hp)) as H.
  pose proof Hp as (Hl & _ & _ & He & Hs).
  destruct (next (ps_lexer p)) as [[t l']|e| |]; [|cbn in H; by rewrite Hs in H|done..]. cbn [obind].
  destruct (next_parser _ _ _ H Hl Hs) as (H1 & H3). split; [done|]. split; [|done]. cbn [st_adv parser_progress].
  unfold ps_left at 2. case_bool_decide as E; [|lia].
  specialize (He E). unfold lx_at_end in He. apply Nat.leb_le in He. unfold lx_left in H3. lia.
Qed.

Section steps.
Context {B : Type} (p : parser) (Q : B -> Prop) (Hp : parser_ok p).

Lemma ps_get_then {A} k (f : parser -> A) (g : A -> P B) : runs_at k p Q (g (f p) p) -> runs_at k p Q (st_bind (st_get f) g p).
Proof. done. Qed.

Lemma take_then k (f : Token -> P B) : kind_now p <> TokenKind.kEof ->
  (forall p', parser_ok p' -> st_adv 1 p p' -> runs_at k p' Q (f (ps_cur p) p')) -> runs_at (S k) p Q (st_bind take f p).
Proof.
  intros Hk Hf. pose proof (take_at p Hp) as Ht. rewrite bool_decide_eq_false_2 in Ht by done.
  eapply (runs_at_bind 1 k); [exact Ht| |lia]. intros t p' H1 H2 ->. by apply Hf.
Qed.

Lemma expect_then k kd what (f : Token -> P B) : kd <> TokenKind.kEof ->
  (forall t p', parser_ok p' -> st_adv 1 p p' -> token_ok t -> tk_kind t = kd -> runs_at k p' Q (f t p')) ->
  runs_at (S k) p Q (st_bind (expect kd what) f p).
Proof.
  intros Hk Hf. unfold st_bind at 1, expect.
  change (st_bind (check kd) ?g p) with (g (bool_decide (kind_now p = kd)) p). cbv beta.
  case_bool_decide as E.
  - apply (take_then k f); [congruence|]. intros p' H1 H2. apply Hf; [done|done|apply Hp|done].
  - split; [by left|]. apply Hp.
Qed.

Lemma accept_then k kd (f : bool -> P B) : kd <> TokenKind.kEof ->
  (kind_now p = kd -> forall p', parser_ok p' -> st_adv 1 p p' -> runs_at k p' Q (f true p')) ->
  (kind_now p <> kd -> runs_at (S k) p Q (f false p)) ->
  runs_at (S k) p Q (st_bind (accept kd) f p).
Proof.
  intros Hk H1 H2. unfold accept. unfold st_bind at 1. change (st_bind (check kd) ?g p) with (g (bool_decide (kind_now p = kd)) p).
  cbv beta. case_bool_decide as E; [|by apply H2].
  pose proof (take_then k (fun _ => f true)) as Ht. unfold st_bind in *.
  specialize (Ht ltac:(congruence) (H1 E)). cbn. destruct (take p) as [[t p']| | |]; exact Ht.
Qed.

Lemma check_depth_then k depth at_ (f : unit -> P B) : in_source at_ ->
  (depth <= kMaxDepth -> runs_at k p Q (f tt p)) -> runs_at k p Q (st_bind (check_depth depth at_) f p).
Proof.
  intros Ha Hf. unfold check_depth, st_bind. destruct (Z.ltb_spec kMaxDepth depth); [|by apply Hf].
  split; [right; right; left|done].
Qed.

Lemma check_depth_here_then k depth (f : unit -> P B) :
  (depth <= kMaxDepth -> runs_at k p Q (f tt p)) -> runs_at k p Q (st_bind (check_depth_here depth) f p).
Proof. intros Hf. apply (check_depth_then k depth (offset_now p)); [apply Hp|done]. Qed.
End steps.

(** Offsets in the source, integers in range and strings made of bytes. *)
Fixpoint expr_ok (e : Expr) : Prop :=
  in_source (expr_offset e) /\
  match e with
  | ENull _ | EBool _ _ | EFloat _ _ => True
  | EInt _ i => is_i64 i
  | EStr _ s | EIdent _ s => bytes_ok s
  | EArray _ l => fold_right (fun x P => expr_ok x /\ P) True l
  | EObject _ l => fold_right (fun x P => (identifier x.1 /\ expr_ok x.2) /\ P) True l
  | EUnary _ _ a => expr_ok a
  | EBinary _ _ a b => expr_ok a /\ expr_ok b
  | ETernary _ a b c => expr_ok a /\ expr_ok b /\ expr_ok c
  end.

Lemma fold_right_Forall_iff {A} (R : A -> Prop) l : fold_right (fun x P => R x /\ P) True l <-> Forall R l.
Proof.
  induction l as [|x l IH]; cbn [fold_right]; [split; [intros _; apply Forall_nil; done|done]|].
  rewrite Forall_cons, IH. done.
Qed.

Definition field_ok (x : bytes * Expr) : Prop := identifier x.1 /\ expr_ok x.2.

Lemma Forall_snoc {A} (R : A -> Prop) l x : Forall R l -> R x -> Forall R (l ++ [x]).
Proof. intros Hl Hx. apply Forall_app. split; [done|]. apply Forall_cons. split; [done|by apply Forall_nil]. Qed.

(** Arithmetic on the tokens left. *)
Ltac ps_lia := unfold st_adv in *; cbn [parser_progress] in *; lia.

Lemma binary_loop_runs rhs (Hr : forall prec, 0 <= prec -> runs 1 (rhs prec) expr_ok) turns : forall min_prec lhs p,
  parser_ok p -> (ps_left p < turns)%nat -> 0 <= min_prec -> expr_ok lhs ->
  runs_at 0 p expr_ok (binary_loop turns rhs min_prec lhs p).
Proof.
  induction turns as [|turns IH]; intros min_prec lhs p Hp Ht Hm Hl; [lia|]. cbn [binary_loop].
  destruct (Z.ltb_spec (binary_precedence (kind_now p)) min_prec) as [|Hprec]; [by apply runs_at_ret|].
  eapply runs_at_le; [apply (take_then p expr_ok Hp 0)|lia].
  - intros E. rewrite E in Hprec. cbn in Hprec. lia.
  - intros p1 H1 A1. eapply (runs_at_bind 1 0); [apply Hr; [lia|done]| |lia].
    intros r p2 H2 A2 Hr2. apply IH; [done|ps_lia|done|]. split; [apply Hp|by split].
Qed.

Lemma elements_loop_runs element (He : runs 1 element expr_ok) turns : forall elements p,
  parser_ok p -> (ps_left p < turns)%nat -> Forall expr_ok elements ->
  runs_at 0 p (Forall expr_ok) (elements_loop turns element elements p).
Proof.
  induction turns as [|turns IH]; intros els p Hp Ht Hl; [lia|]. cbn [elements_loop].
  eapply (runs_at_bind 1 0); [by apply He| |lia]. intros e p1 H1 A1 Hok.
  assert (Hels : Forall expr_ok (els ++ [e])) by (by apply Forall_snoc).
  destruct (decide (kind_now p1 = TokenKind.kComma)) as [E|E].
  - eapply runs_at_le; [apply (accept_then p1 _ H1 0); [done| |done]|lia]. intros _ p2 H2 A2. apply ps_get_then.
    case_bool; [by apply runs_at_ret|]. apply IH; [done|ps_lia|done].
  - unfold accept, st_bind, check, st_get. cbn. rewrite bool_decide_eq_false_2 by done. by apply runs_at_ret.
Qed.

Lemma fields_loop_runs value (Hv : runs 1 value expr_ok) offset turns : forall fields p,
  parser_ok p -> (ps_left p < turns)%nat -> in_source offset -> Forall field_ok fields ->
  runs_at 0 p (Forall field_ok) (fields_loop turns value offset fields p).
Proof.
  induction turns as [|turns IH]; intros fields p Hp Ht Ho Hl; [lia|]. cbn [fields_loop].
  case_bool; [by apply runs_at_ret|]. case_bool; [by split; [left|]|].
  eapply runs_at_le; [apply (accept_then p _ Hp 0); [done|..]|lia].
  - intros _ p1 H1 A1. apply IH; [done|ps_lia|done|done].
  - intros _. apply (expect_then p _ Hp 0); [done|]. intros key p1 H1 A1 Hkey Hkind.
    eapply runs_at_le; [apply (expect_then p1 _ H1 0); [done|]|lia]. intros _ p2 H2 A2 _ _.
    eapply (runs_at_bind 1 0); [by apply Hv| |lia]. intros v p3 H3 A3 Hvok.
    eapply runs_at_le; [apply (expect_then p3 _ H3 0); [done|]|lia]. intros _ p4 H4 A4 _ _.
    apply IH; [done|ps_lia|done|]. apply Forall_snoc; [done|]. split; [by apply Hkey|done].
Qed.

Lemma literal_runs e p : parser_ok p -> kind_now p <> TokenKind.kEof -> expr_ok e -> runs_at 1 p expr_ok (literal e p).
Proof. intros Hp Hk He. apply (take_then p _ Hp 0); [done|]. intros p1 H1 _. by apply runs_at_ret. Qed.

(** One production at a time, given those it calls one level below. *)
Section productions.
Context (n : nat).
Hypothesis IHt : forall d, d <= 65 -> 4 * (66 - d) + 1 <= Z.of_nat n -> runs 1 (parse_ternary n d) expr_ok.
Hypothesis IHb : forall m d, 0 <= m -> d <= 65 -> 4 * (66 - d) <= Z.of_nat n -> runs 1 (parse_binary n m d) expr_ok.
Hypothesis IHu : forall d, d <= 65 -> 4 * (66 - d) + 3 <= Z.of_nat n -> runs 1 (parse_unary n d) expr_ok.
Hypothesis IHp : forall d, d <= 65 -> 4 * (66 - d) + 2 <= Z.of_nat n -> runs 1 (parse_primary n d) expr_ok.
Hypothesis IHa : forall d p, d <= 65 -> 4 * (66 - d) - 2 <= Z.of_nat n -> parser_ok p ->
  runs_at 1 p expr_ok (parse_array n (offset_now p) d p).
Hypothesis IHo : forall d p, d <= 65 -> 4 * (66 - d) - 2 <= Z.of_nat n -> parser_ok p ->
  runs_at 1 p expr_ok (parse_object n (offset_now p) d p).
Let Hd : kMaxDepth = 64 := eq_refl.

Lemma ternary_runs : forall d, d <= 65 -> 4 * (66 - d) + 1 <= Z.of_nat (S n) -> runs 1 (parse_ternary (S n) d) expr_ok.
Proof.
  intros d Hd1 Hn p Hp. cbn [parse_ternary]. apply check_depth_here_then; [done|]. intros Hd2.
  eapply (runs_at_bind 1 0); [apply IHb; [lia..|done]| |lia]. intros cond p1 H1 A1 Hc. apply ps_get_then.
  case_bool_decide as E; [|by apply runs_at_ret].
  eapply runs_at_le; [apply (take_then p1 _ H1 0); [by rewrite E|]|lia]. intros p2 H2 A2.
  eapply (runs_at_bind 1 0); [apply IHt; [lia..|done]| |lia]. intros a p3 H3 A3 Ha.
  eapply runs_at_le; [apply (expect_then p3 _ H3 0); [done|]|lia]. intros _ p4 H4 A4 _ _.
  eapply (runs_at_bind 1 0); [apply IHt; [lia..|done]| |lia]. intros b p5 H5 A5 Hb. apply runs_at_ret; [done|]. split; [apply H1|done].
Qed.

Lemma binary_runs : forall m d, 0 <= m -> d <= 65 -> 4 * (66 - d) <= Z.of_nat (S n) -> runs 1 (parse_binary (S n) m d) expr_ok.
Proof.
  intros m d Hm Hd1 Hn p Hp. cbn [parse_binary]. apply check_depth_here_then; [done|]. intros Hd2.
  eapply (runs_at_bind 1 0); [apply IHu; [lia..|done]| |lia]. intros lhs p1 H1 A1 Hl. apply ps_get_then.
  apply binary_loop_runs; [intros prec Hprec; apply IHb; lia|done|apply ps_left_turns|done|done].
Qed.

Lemma unary_runs : forall d, d <= 65 -> 4 * (66 - d) + 3 <= Z.of_nat (S n) -> runs 1 (parse_unary (S n) d) expr_ok.
Proof.
  intros d Hd1 Hn p Hp. cbn [parse_unary]. apply check_depth_here_then; [done|]. intros Hd2. apply ps_get_then.
  assert (Hprim : runs_at 1 p expr_ok (parse_primary n d p)) by (apply IHp; [lia..|done]).
  destruct (kind_now p) eqn:E; try exact Hprim;
    (apply take_then; [done|by rewrite E|]; intros p1 H1 A1;
     eapply (runs_at_bind 1 0); [apply IHu; [lia..|done]| |lia]; intros e p2 H2 A2 He; apply runs_at_ret; [done|]; split; [apply Hp|done]).
Qed.

Lemma primary_runs : forall d, d <= 65 -> 4 * (66 - d) + 2 <= Z.of_nat (S n) -> runs 1 (parse_primary (S n) d) expr_ok.
Proof.
  intros d Hd1 Hn p Hp. cbn [parse_primary]. apply check_depth_here_then; [done|]. intros Hd2. apply ps_get_then.
  pose proof Hp as (_ & (Htext & Hint & _) & Ho & _).
  change (tk_kind (ps_cur p)) with (kind_now p).
  destruct (kind_now p) eqn:E;
    first [ by (apply literal_runs; [done|by rewrite E|by split])
          | by (split; [left|done])
          | by (apply IHa; [lia..|done])
          | by (apply IHo; [lia..|done])
          | idtac ].
  apply take_then; [done|by rewrite E|]. intros p1 H1 A1.
  eapply (runs_at_bind 1 0); [apply IHt; [lia..|done]| |lia]. intros e p2 H2 A2 He.
  eapply runs_at_le; [apply (expect_then p2 _ H2 0); [done|]|lia]. intros _ p3 H3 A3 _ _. by apply runs_at_ret.
Qed.

Lemma array_runs : forall d p, d <= 65 -> 4 * (66 - d) - 2 <= Z.of_nat (S n) -> parser_ok p ->
  runs_at 1 p expr_ok (parse_array (S n) (offset_now p) d p).
Proof.
  intros d p Hd1 Hn Hp. cbn [parse_array]. apply check_depth_then; [apply Hp|]. intros Hd2.
  apply (expect_then p _ Hp 0); [done|]. intros _ p1 H1 A1 _ _. do 2 apply ps_get_then.
  eapply (runs_at_bind 0 0 _ _ (Forall expr_ok)); [| |lia].
  + case_bool; [apply runs_at_ret; [done|by apply Forall_nil]|].
    apply elements_loop_runs; [apply IHt; lia|done|apply ps_left_turns|by apply Forall_nil].
  + intros els p2 H2 A2 Hels. eapply runs_at_le; [apply (expect_then p2 _ H2 0); [done|]|lia]. intros _ p3 H3 A3 _ _.
    apply runs_at_ret; [done|]. split; [apply Hp|by apply fold_right_Forall_iff].
Qed.

Lemma object_runs : forall d p, d <= 65 -> 4 * (66 - d) - 2 <= Z.of_nat (S n) -> parser_ok p ->
  runs_at 1 p expr_ok (parse_object (S n) (offset_now p) d p).
Proof.
  intros d p Hd1 Hn Hp. cbn [parse_object]. apply check_depth_then; [apply Hp|]. intros Hd2.
  apply (expect_then p _ Hp 0); [done|]. intros _ p1 H1 A1 _ _. apply ps_get_then.
  eapply (runs_at_bind 0 0 _ _ (Forall field_ok)); [| |lia].
  + apply fields_loop_runs; [apply IHt; lia|done|apply ps_left_turns|apply Hp|by apply Forall_nil].
  + intros els p2 H2 A2 Hels. eapply runs_at_le; [apply (expect_then p2 _ H2 0); [done|]|lia]. intros _ p3 H3 A3 _ _.
    apply runs_at_ret; [done|]. split; [apply Hp|by apply (fold_right_Forall_iff field_ok)].
Qed.

End productions.

(** Every production ends, whatever the tokens, when it has its levels. *)
Lemma productions_run n :
  (forall d, d <= 65 -> 4 * (66 - d) + 1 <= Z.of_nat n -> runs 1 (parse_ternary n d) expr_ok) /\
  (forall m d, 0 <= m -> d <= 65 -> 4 * (66 - d) <= Z.of_nat n -> runs 1 (parse_binary n m d) expr_ok) /\
  (forall d, d <= 65 -> 4 * (66 - d) + 3 <= Z.of_nat n -> runs 1 (parse_unary n d) expr_ok) /\
  (forall d, d <= 65 -> 4 * (66 - d) + 2 <= Z.of_nat n -> runs 1 (parse_primary n d) expr_ok) /\
  (forall d p, d <= 65 -> 4 * (66 - d) - 2 <= Z.of_nat n -> parser_ok p ->
     runs_at 1 p expr_ok (parse_array n (offset_now p) d p)) /\
  (forall d p, d <= 65 -> 4 * (66 - d) - 2 <= Z.of_nat n -> parser_ok p ->
     runs_at 1 p expr_ok (parse_object n (offset_now p) d p)).
Proof.
  induction n as [|n (IHt & IHb & IHu & IHp & IHa & IHo)]; [repeat split; intros; lia|].
  split; [by apply ternary_runs|]. split; [by apply binary_runs|]. split; [by apply unary_runs|].
  split; [by apply primary_runs|]. split; [by apply array_runs|by apply object_runs].
Qed.

Fixpoint stmt_ok (s : ParsedStatement) : Prop :=
  match s with
  | SAssignment _ path e => path <> [] /\ Forall identifier path /\ expr_ok e
  | SBlock _ name label children =>
      identifier name /\ match label with Some l => bytes_ok l | None => True end /\
      fold_right (fun x P => stmt_ok x /\ P) True children
  | SInclude _ path => bytes_ok path
  end.

Lemma parse_expr_runs : runs 1 (parse_expr 1) expr_ok.
Proof. apply productions_run; [lia|]. unfold expr_levels. lia. Qed.

Lemma path_loop_runs turns : forall path p,
  parser_ok p -> (ps_left p < turns)%nat -> path <> [] -> Forall identifier path ->
  runs_at 0 p (fun path => path <> [] /\ Forall identifier path) (path_loop turns path p).
Proof.
  induction turns as [|turns IH]; intros path p Hp Ht Hne Hl; [lia|]. cbn [path_loop].
  destruct (decide (kind_now p = TokenKind.kDot)) as [E|E].
  - eapply runs_at_le; [apply (accept_then p _ Hp 0); [done| |done]|lia]. intros _ p1 H1 A1.
    eapply runs_at_le; [apply (expect_then p1 _ H1 0); [done|]|lia]. intros t p2 H2 A2 Htok Hkind.
    apply IH; [done|ps_lia|by destruct path|]. apply Forall_snoc; [done|by apply Htok].
  - unfold accept, st_bind, check, st_get. cbn. rewrite bool_decide_eq_false_2 by done. by apply runs_at_ret.
Qed.

Lemma assignment_runs path offset : path <> [] -> Forall identifier path -> runs 1 (parse_assignment path offset) stmt_ok.
Proof.
  intros Hne Hpath p Hp. unfold parse_assignment. apply (expect_then p _ Hp 0); [done|]. intros _ p1 H1 A1 _ _.
  eapply (runs_at_bind 1 0); [by apply parse_expr_runs| |lia]. intros e p2 H2 A2 He.
  eapply runs_at_le; [apply (expect_then p2 _ H2 0); [done|]|lia]. intros _ p3 H3 A3 _ _. by apply runs_at_ret.
Qed.

Lemma block_loop_runs statement (Hs : runs 1 statement stmt_ok) offset turns : forall children p,
  parser_ok p -> (ps_left p < turns)%nat -> in_source offset -> Forall stmt_ok children ->
  runs_at 0 p (Forall stmt_ok) (block_loop turns statement offset children p).
Proof.
  induction turns as [|turns IH]; intros children p Hp Ht Ho Hl; [lia|]. cbn [block_loop].
  case_bool; [by apply runs_at_ret|]. case_bool; [by split; [left|]|].
  eapply runs_at_le; [apply (accept_then p _ Hp 0); [done|..]|lia].
  - intros _ p1 H1 A1. apply IH; [done|ps_lia|done|done].
  - intros _. eapply (runs_at_bind 1 0); [by apply Hs| |lia]. intros st p1 H1 A1 Hst.
    apply IH; [done|ps_lia|done|]. by apply Forall_snoc.
Qed.

Lemma block_runs statement name label offset p : runs 1 statement stmt_ok -> identifier name ->
  match label with Some l => bytes_ok l | None => True end ->
  parser_ok p -> in_source offset ->
  runs_at 1 p stmt_ok (parse_block statement name label offset p).
Proof.
  intros Hs Hname Hlabel Hp Ho. unfold parse_block. apply (expect_then p _ Hp 0); [done|]. intros _ p1 H1 A1 _ _. apply ps_get_then.
  eapply (runs_at_bind 0 0); [apply block_loop_runs; [done|done|apply ps_left_turns|done|by apply Forall_nil]| |lia].
  intros cs p2 H2 A2 Hcs. eapply runs_at_le; [apply (expect_then p2 _ H2 0); [done|]|lia]. intros _ p3 H3 A3 _ _.
  apply runs_at_ret; [done|]. split; [done|]. split; [done|by apply fold_right_Forall_iff].
Qed.

Lemma statement_runs n : forall d, d <= 65 -> 66 - d <= Z.of_nat n -> runs 1 (parse_statement n d) stmt_ok.
Proof.
  induction n as [|n IH]; intros d Hd1 Hn p Hp; [lia|]. cbn [parse_statement]. assert (kMaxDepth = 64) by done.
  apply check_depth_here_then; [done|]. intros Hd2. do 2 apply ps_get_then.
  pose proof Hp as (_ & _ & Ho & _).
  case_bool_decide as Ei.
  { apply take_then; [done|by rewrite Ei|]. intros p1 H1 A1.
    eapply runs_at_le; [apply (expect_then p1 _ H1 0); [done|]|lia]. intros t p2 H2 A2 Ht _.
    eapply runs_at_le; [apply (expect_then p2 _ H2 0); [done|]|lia]. intros _ p3 H3 A3 _ _.
    apply runs_at_ret; [done|]. apply Ht. }
  apply (expect_then p _ Hp 0); [done|]. intros first p1 H1 A1 (_ & _ & Hfirst) Hkind. specialize (Hfirst Hkind). cbv zeta. apply ps_get_then.
  assert (Hst : runs 1 (parse_statement n (d + 1)) stmt_ok) by (apply IH; lia).
  case_bool_decide as Es.
  { eapply runs_at_le; [apply (take_then p1 _ H1 0); [by rewrite Es|]|lia]. intros p2 H2 A2. apply ps_get_then.
    case_bool.
    - eapply runs_at_le; [apply block_runs; [done|done|apply H1|done|done]|lia].
    - split; [left|apply H2]. }
  apply ps_get_then. case_bool.
  { eapply runs_at_le; [apply block_runs; [done|done|done|done|done]|lia]. }
  apply ps_get_then. eapply (runs_at_bind 0 0); [apply path_loop_runs; [done|apply ps_left_turns|done|]| |lia].
  { apply Forall_cons. split; [done|by apply Forall_nil]. }
  intros path p2 H2 A2 [Hne Hpath]. eapply runs_at_le; [by apply assignment_runs|lia].
Qed.

Lemma document_loop_runs turns : forall stmts p,
  parser_ok p -> (ps_left p < turns)%nat -> Forall stmt_ok stmts ->
  runs_at 0 p (Forall stmt_ok) (document_loop turns stmts p).
Proof.
  induction turns as [|turns IH]; intros stmts p Hp Ht Hl; [lia|]. cbn [document_loop].
  case_bool; [by apply runs_at_ret|].
  eapply runs_at_le; [apply (accept_then p _ Hp 0); [done|..]|lia].
  - intros _ p1 H1 A1. apply IH; [done|ps_lia|done].
  - intros _. eapply (runs_at_bind 1 0); [apply statement_runs; [lia|unfold stmt_levels; lia|done]| |lia].
    intros st p1 H1 A1 Hst. apply IH; [done|ps_lia|]. by apply Forall_snoc.
Qed.
End safety.

Lemma parse_source_runs data : bytes_ok data ->
  ospec (cfg_error (length data)) (Forall (stmt_ok (length data))) (parse_source data).
Proof.
  intros Hd. unfold parse_source, new_parser. assert (Hl : lx_ok (new_lexer data)) by (split; [cbn; lia|done]).
  pose proof (next_spec _ Hl) as H. destruct (next (new_lexer data)) as [[t l]|e| |]; [|exact H|done..]. cbn [obind].
  destruct (next_parser (length data) _ _ _ H Hl eq_refl) as (H1 & _). unfold parse_document.
  eapply (ospec_bind _ (fun x => Forall (stmt_ok (length data)) x.1)); [|by intros [stmts p'] Hs].
  eapply ospec_mono; [apply (document_loop_runs (length data) _ []); [exact H1|apply ps_left_turns|by apply Forall_nil]|done|].
  by intros [stmts p'] (_ & _ & Hs).
Qed.
