(* ===== verification/CfgEval.v ===== *)
(** * CfgEval: values, scopes and evaluation of cfgscript

    [include/cfgscript/value.hpp], [include/cfgscript/environment.hpp],
    [src/cfgscript/evaluator.cpp], [include/cfgscript/model.hpp] and the driver of
    [src/cfgscript/document.cpp]. *)

From S2P Require Import Prelude Status Stateful CfgNumber CfgLexer CfgParser.

(** ** Values *)

Module ValueType.
Inductive ValueType := kNull | kBool | kInt | kFloat | kStr | kArray | kObject.

#[export] Instance ValueType_eq_dec : EqDecision ValueType.
Proof. solve_decision. Defined.
End ValueType.
Export (hints) ValueType.
Abbreviation ValueType := ValueType.ValueType.

Definition value_type_name (t : ValueType) : string :=
  match t with
  | ValueType.kNull => "null" | ValueType.kBool => "bool" | ValueType.kInt => "int"
  | ValueType.kFloat => "float" | ValueType.kStr => "string" | ValueType.kArray => "array"
  | ValueType.kObject => "object"
  end.

Inductive Value :=
  | VNull
  | VBool (b : bool)
  | VInt (i : Z)
  | VFloat (f : double)
  | VStr (s : bytes)
  | VArray (array : list Value)
  | VObject (object : list (bytes * Value)).

Definition value_type (v : Value) : ValueType :=
  match v with
  | VNull => ValueType.kNull | VBool _ => ValueType.kBool | VInt _ => ValueType.kInt
  | VFloat _ => ValueType.kFloat | VStr _ => ValueType.kStr | VArray _ => ValueType.kArray
  | VObject _ => ValueType.kObject
  end.

Definition is_number (v : Value) : bool := match v with VInt _ | VFloat _ => true | _ => false end.

(** [as_double]; the integer member of any other value is 0. *)
Definition as_double (v : Value) : double :=
  match v with VFloat f => f | VInt i => double_of_int i | _ => double_of_int 0 end.

Definition truthy (v : Value) : bool :=
  match v with
  | VNull => false
  | VBool b => b
  | VInt i => negb (i =? 0)
  | VFloat f => negb (double_eqb f double_zero)
  | VStr s => negb (bool_decide (s = []))
  | VArray l => match l with [] => false | _ => true end
  | VObject l => match l with [] => false | _ => true end
  end.

(** ** Scopes *)

(** A scope and its enclosing ones, innermost first. *)
Definition Environment : Type := list (gmap bytes Value).

Definition define (name : bytes) (v : Value) (env : Environment) : Environment :=
  match env with [] => [] | table :: parents => <[name := v]> table :: parents end.

Fixpoint lookup_name (name : bytes) (env : Environment) : option Value :=
  match env with
  | [] => None
  | table :: parents => match table !! name with Some v => Some v | None => lookup_name name parents end
  end.

(** ** Operators *)

Definition eval_error {A} (code : ErrorCode) (at_ : Z) (msg : string) : outcome A := Throw (parse_error code at_ msg).

Definition compare_numbers (a b : Value) : Z :=
  match a, b with
  | VInt x, VInt y => if x <? y then -1 else if y <? x then 1 else 0
  | _, _ =>
      let x := as_double a in let y := as_double b in
      if double_ltb x y then -1 else if double_ltb y x then 1 else 0
  end.

Fixpoint values_equal (a b : Value) : bool :=
  if is_number a && is_number b then compare_numbers a b =? 0
  else match a, b with
       | VNull, VNull => true
       | VBool x, VBool y => eqb x y
       | VStr x, VStr y => bool_decide (x = y)
       | VArray x, VArray y =>
           bool_decide (length x = length y) &&
           (fix go (x y : list Value) : bool :=
              match x, y with u :: x', v :: y' => values_equal u v && go x' y' | _, _ => true end) x y
       | VObject x, VObject y =>
           bool_decide (length x = length y) &&
           (fix go (x y : list (bytes * Value)) : bool :=
              match x, y with
              | (k, u) :: x', (k', v) :: y' => bool_decide (k = k') && values_equal u v && go x' y'
              | _, _ => true
              end) x y
       | _, _ => false
       end.

Definition to_concat_string (v : Value) : bytes :=
  match v with
  | VStr s => s
  | VInt i => to_string_int i
  | VFloat f => to_string_double f
  | VBool b => if b then lit "true" else lit "false"
  | VNull => lit "null"
  | VArray _ | VObject _ => []
  end.

Definition require_int (v : Value) (at_ : Z) (op : string) : outcome Z :=
  match v with
  | VInt i => Ok i
  | _ => eval_error kBadType at_ ("operator '" +:+ op +:+ "' requires integer operands")%string
  end.

Definition is_str (v : Value) : bool := match v with VStr _ => true | _ => false end.
Definition is_float (v : Value) : bool := match v with VFloat _ => true | _ => false end.

(** The integer member of a number. *)
Definition int_of (v : Value) : Z := match v with VInt i => i | _ => 0 end.

Definition eval_arith (op : TokenKind) (l r : Value) (at_ : Z) : outcome Value :=
  if bool_decide (op = TokenKind.kPlus) && (is_str l || is_str r)
  then Ok (VStr (to_concat_string l ++ to_concat_string r))
  else if negb (is_number l) || negb (is_number r)
  then eval_error kBadType at_ "arithmetic requires numeric operands"
  else
    let unsupported := eval_error kBadType at_ "unsupported arithmetic operator" in
    if is_float l || is_float r then
      let x := as_double l in let y := as_double r in
      match op with
      | TokenKind.kPlus => Ok (VFloat (double_add x y))
      | TokenKind.kMinus => Ok (VFloat (double_sub x y))
      | TokenKind.kStar => Ok (VFloat (double_mul x y))
      | _ => unsupported
      end
    else
      let x := u64 (int_of l) in let y := u64 (int_of r) in
      match op with
      | TokenKind.kPlus => Ok (VInt (i64 (u64 (x + y))))
      | TokenKind.kMinus => Ok (VInt (i64 (u64 (x - y))))
      | TokenKind.kStar => Ok (VInt (i64 (u64 (x * y))))
      | _ => unsupported
      end.

Definition INT64_MIN : Z := - 2 ^ 63.

Definition eval_div_mod (op : TokenKind) (l r : Value) (at_ : Z) : outcome Value :=
  let slash := bool_decide (op = TokenKind.kSlash) in
  if negb (is_number l) || negb (is_number r)
  then eval_error kBadType at_ "division requires numeric operands"
  else if is_float l || is_float r then
    let y := as_double r in
    if double_eqb y double_zero then eval_error kStateViolation at_ "division by zero"
    else let x := as_double l in
         if slash then Ok (VFloat (double_div x y))
         else eval_error kBadType at_ "'%' requires integer operands"
  else
    let y := int_of r in
    if y =? 0 then eval_error kStateViolation at_ (if slash then "division by zero" else "modulo by zero")
    else
      let x := int_of l in
      if (y =? -1) && (x =? INT64_MIN) then (if slash then Ok (VInt INT64_MIN) else Ok (VInt 0))
      else if slash then Ok (VInt (Z.quot x y)) else Ok (VInt (Z.rem x y)).

Definition eval_shift (op : TokenKind) (l r : Value) (at_ : Z) : outcome Value :=
  let? a := require_int l at_ "shift" in
  let? b := require_int r at_ "shift" in
  if (b <? 0) || (63 <? b) then eval_error kStateViolation at_ "shift amount out of range"
  else if bool_decide (op = TokenKind.kShl) then Ok (VInt (i64 (u64 (Z.shiftl (u64 a) b))))
  else Ok (VInt (Z.shiftr a b)).

Definition eval_bitwise (f : Z -> Z -> Z) (name : string) (l r : Value) (at_ : Z) : outcome Value :=
  let? a := require_int l at_ name in
  let? b := require_int r at_ name in
  Ok (VInt (f a b)).

(** [std::string::compare]: bytes as unsigned, then the lengths; only the sign is used. *)
Fixpoint string_compare (a b : bytes) : Z :=
  match a, b with
  | [], [] => 0
  | [], _ => -1
  | _, [] => 1
  | x :: a', y :: b' => if x <? y then -1 else if y <? x then 1 else string_compare a' b'
  end.

Definition eval_compare (op : TokenKind) (l r : Value) (at_ : Z) : outcome Value :=
  let? cmp := (if is_number l && is_number r then Ok (compare_numbers l r)
               else match l, r with
                    | VStr a, VStr b => Ok (string_compare a b)
                    | _, _ => eval_error kBadType at_ "comparison requires two numbers or two strings"
                    end) in
  match op with
  | TokenKind.kLt => Ok (VBool (cmp <? 0))
  | TokenKind.kLe => Ok (VBool (cmp <=? 0))
  | TokenKind.kGt => Ok (VBool (0 <? cmp))
  | TokenKind.kGe => Ok (VBool (0 <=? cmp))
  | _ => eval_error kBadType at_ "bad comparison"
  end.

(** The operators that evaluate both sides. *)
Definition eval_binary (op : TokenKind) (l r : Value) (at_ : Z) : outcome Value :=
  match op with
  | TokenKind.kPlus | TokenKind.kMinus | TokenKind.kStar => eval_arith op l r at_
  | TokenKind.kSlash | TokenKind.kPercent => eval_div_mod op l r at_
  | TokenKind.kShl | TokenKind.kShr => eval_shift op l r at_
  | TokenKind.kAmp => eval_bitwise Z.land "&" l r at_
  | TokenKind.kCaret => eval_bitwise Z.lxor "^" l r at_
  | TokenKind.kPipe => eval_bitwise Z.lor "|" l r at_
  | TokenKind.kEq => Ok (VBool (values_equal l r))
  | TokenKind.kNe => Ok (VBool (negb (values_equal l r)))
  | TokenKind.kLt | TokenKind.kLe | TokenKind.kGt | TokenKind.kGe => eval_compare op l r at_
  | _ => eval_error kBadType at_ "unsupported binary operator"
  end.

Definition eval_unary (op : TokenKind) (v : Value) (at_ : Z) : outcome Value :=
  match op with
  | TokenKind.kMinus =>
      match v with
      | VInt i => Ok (VInt (i64 (u64 (0 - u64 i))))
      | VFloat f => Ok (VFloat (double_opp f))
      | _ => eval_error kBadType at_ "unary '-' requires a number"
      end
  | TokenKind.kBang => Ok (VBool (negb (truthy v)))
  | TokenKind.kTilde => let? i := require_int v at_ "~" in Ok (VInt (Z.lnot i))
  | _ => eval_error kBadType at_ "unsupported unary operator"
  end.

(** ** Evaluation *)

Definition unknown_identifier {A} (name : bytes) (at_ : Z) : outcome A :=
  eval_error kStateViolation at_ ("unknown identifier '" +:+ text_of name +:+ "'")%string.

Fixpoint evaluate (e : Expr) (env : Environment) (depth : Z) : outcome Value :=
  if kMaxDepth <? depth then eval_error kDepthExceeded (expr_offset e) "expression nested too deep"
  else
    match e with
    | ENull _ => Ok VNull
    | EBool _ b => Ok (VBool b)
    | EInt _ i => Ok (VInt i)
    | EFloat _ f => Ok (VFloat f)
    | EStr _ s => Ok (VStr s)
    | EIdent o s => match lookup_name s env with Some v => Ok v | None => unknown_identifier s o end
    | EArray _ l =>
        let? items := (fix go (l : list Expr) : outcome (list Value) :=
          match l with
          | [] => Ok []
          | x :: l' => let? v := evaluate x env (depth + 1) in let? vs := go l' in Ok (v :: vs)
          end) l in
        Ok (VArray items)
    | EObject _ l =>
        let? fields := (fix go (l : list (bytes * Expr)) : outcome (list (bytes * Value)) :=
          match l with
          | [] => Ok []
          | (k, x) :: l' => let? v := evaluate x env (depth + 1) in let? vs := go l' in Ok ((k, v) :: vs)
          end) l in
        Ok (VObject fields)
    | EUnary o op a => let? v := evaluate a env (depth + 1) in eval_unary op v o
    | ETernary _ c a b =>
        let? cond := evaluate c env (depth + 1) in
        if truthy cond then evaluate a env (depth + 1) else evaluate b env (depth + 1)
    | EBinary o op a b =>
        if bool_decide (op = TokenKind.kAndAnd) then
          let? l := evaluate a env (depth + 1) in
          if negb (truthy l) then Ok (VBool false)
          else let? r := evaluate b env (depth + 1) in Ok (VBool (truthy r))
        else if bool_decide (op = TokenKind.kOrOr) then
          let? l := evaluate a env (depth + 1) in
          if truthy l then Ok (VBool true)
          else let? r := evaluate b env (depth + 1) in Ok (VBool (truthy r))
        else
          let? l := evaluate a env (depth + 1) in
          let? r := evaluate b env (depth + 1) in
          eval_binary op l r o
    end.

(** ** Documents *)

(** [has_label] and [label] are one option. *)
Inductive Node :=
  | NAssignment (path : list bytes) (value : Value)
  | NBlock (name : bytes) (label : option bytes) (children : list Node)
  | NInclude (include_path : bytes).

Abbreviation Document := (list Node).

(** One statement: its node, and the scopes after it. *)
Fixpoint build_node (st : ParsedStatement) (env : Environment) : outcome (Node * Environment) :=
  match st with
  | SAssignment _ path e =>
      let? v := evaluate e env 1 in
      Ok (NAssignment path v, match last path with Some leaf => define leaf v env | None => env end)
  | SBlock _ name label children =>
      let? (nodes, _) := (fix go (l : list ParsedStatement) (env : Environment) : outcome (list Node * Environment) :=
        match l with
        | [] => Ok ([], env)
        | s :: l' => let? (n, env) := build_node s env in let? (ns, env) := go l' env in Ok (n :: ns, env)
        end) children (∅ :: env) in
      Ok (NBlock name label nodes, env)
  | SInclude _ path => Ok (NInclude path, env)
  end.

Fixpoint build_nodes (l : list ParsedStatement) (env : Environment) : outcome (list Node * Environment) :=
  match l with
  | [] => Ok ([], env)
  | s :: l' => let? (n, env) := build_node s env in let? (ns, env) := build_nodes l' env in Ok (n :: ns, env)
  end.

Definition parse (data : bytes) : outcome Document :=
  let? stmts := parse_source data in
  let? (nodes, _) := build_nodes stmts [∅] in
  Ok nodes.

Example parse_sample :
  parse (lit "x = 3; b { x = x * 2; y = [x, -1, x > 5 && nope || true]; } z = x;") =
  Throw (parse_error kStateViolation 43 "unknown identifier 'nope'") /\
  parse (lit "x = 3; b { x = x * 2; y = [x, -1]; } z = x;") =
  Ok [NAssignment [lit "x"] (VInt 3);
      NBlock (lit "b") None [NAssignment [lit "x"] (VInt 6); NAssignment [lit "y"] (VArray [VInt 6; VInt (-1)])];
      NAssignment [lit "z"] (VInt 3)].
Proof. vm_compute. split; reflexivity. Qed.

(** ** Induction over nested trees *)

Section expr_induction.
Context (R : Expr -> Prop).
Context (Hnull : forall o, R (ENull o)) (Hbool : forall o b, R (EBool o b)) (Hint : forall o i, R (EInt o i))
  (Hfloat : forall o f, R (EFloat o f)) (Hstr : forall o s, R (EStr o s)) (Hident : forall o s, R (EIdent o s))
  (Harray : forall o l, Forall R l -> R (EArray o l)) (Hobject : forall o l, Forall (fun x => R x.2) l -> R (EObject o l))
  (Hunary : forall o op a, R a -> R (EUnary o op a)) (Hbinary : forall o op a b, R a -> R b -> R (EBinary o op a b))
  (Hternary : forall o a b c, R a -> R b -> R c -> R (ETernary o a b c)).

Fixpoint expr_nested_ind (e : Expr) : R e :=
  match e with
  | ENull o => Hnull o | EBool o b => Hbool o b | EInt o i => Hint o i | EFloat o f => Hfloat o f
  | EStr o s => Hstr o s | EIdent o s => Hident o s
  | EArray o l => Harray o l ((fix go l : Forall R l :=
      match l with [] => @List.Forall_nil _ R | x :: l' => @List.Forall_cons _ R x l' (expr_nested_ind x) (go l') end) l)
  | EObject o l => Hobject o l ((fix go l : Forall (fun x => R x.2) l :=
      match l with
      | [] => @List.Forall_nil _ (fun x => R x.2)
      | x :: l' => @List.Forall_cons _ (fun x => R x.2) x l' (expr_nested_ind x.2) (go l')
      end) l)
  | EUnary o op a => Hunary o op a (expr_nested_ind a)
  | EBinary o op a b => Hbinary o op a b (expr_nested_ind a) (expr_nested_ind b)
  | ETernary o a b c => Hternary o a b c (expr_nested_ind a) (expr_nested_ind b) (expr_nested_ind c)
  end.
End expr_induction.

Section stmt_induction.
Context (R : ParsedStatement -> Prop).
Context (Hassign : forall o p e, R (SAssignment o p e)) (Hblock : forall o n l cs, Forall R cs -> R (SBlock o n l cs))
  (Hinclude : forall o p, R (SInclude o p)).

Fixpoint stmt_nested_ind (s : ParsedStatement) : R s :=
  match s with
  | SAssignment o p e => Hassign o p e
  | SBlock o n l cs => Hblock o n l cs ((fix go l : Forall R l :=
      match l with [] => @List.Forall_nil _ R | x :: l' => @List.Forall_cons _ R x l' (stmt_nested_ind x) (go l') end) cs)
  | SInclude o p => Hinclude o p
  end.
End stmt_induction.

Section value_induction.
Context (R : Value -> Prop).
Context (Hnull : R VNull) (Hbool : forall b, R (VBool b)) (Hint : forall i, R (VInt i)) (Hfloat : forall f, R (VFloat f))
  (Hstr : forall s, R (VStr s)) (Harray : forall l, Forall R l -> R (VArray l))
  (Hobject : forall l, Forall (fun x => R x.2) l -> R (VObject l)).

Fixpoint value_nested_ind (v : Value) : R v :=
  match v with
  | VNull => Hnull | VBool b => Hbool b | VInt i => Hint i | VFloat f => Hfloat f | VStr s => Hstr s
  | VArray l => Harray l ((fix go l : Forall R l :=
      match l with [] => @List.Forall_nil _ R | x :: l' => @List.Forall_cons _ R x l' (value_nested_ind x) (go l') end) l)
  | VObject l => Hobject l ((fix go l : Forall (fun x => R x.2) l :=
      match l with
      | [] => @List.Forall_nil _ (fun x => R x.2)
      | x :: l' => @List.Forall_cons _ (fun x => R x.2) x l' (value_nested_ind x.2) (go l')
      end) l)
  end.
End value_induction.

Section node_induction.
Context (R : Node -> Prop).
Context (Hassign : forall p v, R (NAssignment p v)) (Hblock : forall n l cs, Forall R cs -> R (NBlock n l cs))
  (Hinclude : forall p, R (NInclude p)).

Fixpoint node_nested_ind (n : Node) : R n :=
  match n with
  | NAssignment p v => Hassign p v
  | NBlock n l cs => Hblock n l cs ((fix go cs : Forall R cs :=
      match cs with [] => @List.Forall_nil _ R | x :: cs' => @List.Forall_cons _ R x cs' (node_nested_ind x) (go cs') end) cs)
  | NInclude p => Hinclude p
  end.
End node_induction.

(** The two list loops of [evaluate] and the one of [build_node], by name. *)
Definition eval_list (ev : Expr -> outcome Value) : list Expr -> outcome (list Value) :=
  fix go l := match l with
              | [] => Ok []
              | x :: l' => let? v := ev x in let? vs := go l' in Ok (v :: vs)
              end.
Definition eval_fields (ev : Expr -> outcome Value) : list (bytes * Expr) -> outcome (list (bytes * Value)) :=
  fix go l := match l with
              | [] => Ok []
              | (k, x) :: l' => let? v := ev x in let? vs := go l' in Ok ((k, v) :: vs)
              end.

Lemma evaluate_array o l env d : d <= kMaxDepth ->
  evaluate (EArray o l) env d = let? vs := eval_list (fun x => evaluate x env (d + 1)) l in Ok (VArray vs).
Proof. intros Hd. cbn [evaluate]. by rewrite (proj2 (Z.ltb_ge _ _)). Qed.
Lemma evaluate_object o l env d : d <= kMaxDepth ->
  evaluate (EObject o l) env d = let? vs := eval_fields (fun x => evaluate x env (d + 1)) l in Ok (VObject vs).
Proof. intros Hd. cbn [evaluate]. by rewrite (proj2 (Z.ltb_ge _ _)). Qed.

Lemma build_node_block o name label cs env :
  build_node (SBlock o name label cs) env = let? (ns, _) := build_nodes cs (∅ :: env) in Ok (NBlock name label ns, env).
Proof. reflexivity. Qed.

(** ** Well-typed values *)

Fixpoint value_ok (v : Value) : Prop :=
  match v with
  | VNull | VBool _ | VFloat _ => True
  | VInt i => is_i64 i
  | VStr s => bytes_ok s
  | VArray l => fold_right (fun x P => value_ok x /\ P) True l
  | VObject l => fold_right (fun x P => (identifier x.1 /\ value_ok x.2) /\ P) True l
  end.

Definition env_ok (env : Environment) : Prop := Forall (map_Forall (fun _ v => value_ok v)) env.

Lemma lookup_ok name env v : env_ok env -> lookup_name name env = Some v -> value_ok v.
Proof.
  induction 1 as [|t ps Ht Hps IH]; cbn [lookup_name]; [done|].
  destruct (t !! name) as [u|] eqn:E; [|done]. intros [= <-]. exact (Ht name u E).
Qed.

Lemma define_ok name v env : env_ok env -> value_ok v -> env_ok (define name v env).
Proof.
  intros He Hv. destruct env as [|t ps]; [done|]. apply Forall_cons in He as [Ht Hps].
  apply Forall_cons. split; [by apply map_Forall_insert_2|done].
Qed.

Lemma concat_ok v : value_ok v -> bytes_ok (to_concat_string v).
Proof.
  destruct v; cbn [to_concat_string value_ok]; intros Hv; [..|done|apply Forall_nil; done|apply Forall_nil; done].
  - apply lit_ok.
  - destruct b; apply lit_ok.
  - apply to_string_int_ok.
  - apply to_string_double_ok.
Qed.

(** ** Operators on integers *)

Lemma i64_u64 z : i64 (u64 z) = i64 z.
Proof. unfold i64, u64. by rewrite Z.mod_mod by lia. Qed.

Lemma i64_small z : is_i64 z -> i64 z = z.
Proof.
  unfold is_i64, i64, u64. intros Hz. destruct (Z.le_gt_cases 0 z).
  - rewrite Z.mod_small by lia. by rewrite (proj2 (Z.ltb_lt _ _)) by lia.
  - rewrite <- (Z.mod_add z 1), Z.mod_small by lia. rewrite (proj2 (Z.ltb_ge _ _)) by lia. lia.
Qed.

(** Two's complement: the value is right modulo 2^64. *)
Lemma i64_mod z : i64 z mod 2 ^ 64 = z mod 2 ^ 64.
Proof.
  unfold i64, u64. case_bool; [by rewrite Z.mod_mod by lia|].
  replace (z mod 2 ^ 64 - 2 ^ 64) with (z mod 2 ^ 64 + (-1) * 2 ^ 64) by lia. rewrite Z.mod_add by lia. by rewrite Z.mod_mod by lia.
Qed.

Lemma i64_congr a b : a mod 2 ^ 64 = b mod 2 ^ 64 -> i64 a = i64 b.
Proof. unfold i64, u64. by intros ->. Qed.

Lemma is_i64_bits x : is_i64 x <-> forall n, 63 <= n -> Z.testbit x n = Z.testbit x 63.
Proof.
  split.
  - intros Hx n Hn. unfold is_i64 in Hx. destruct (Z.le_gt_cases 0 x).
    + rewrite !(testbit_small x 63) by lia. done.
    + assert (Hneg : forall k, 63 <= k -> Z.testbit x k = true).
      { intros k Hk. apply negb_false_iff. rewrite <- Z.lnot_spec by lia.
        apply (testbit_small (Z.lnot x) 63); [unfold Z.lnot; lia|lia]. }
      by rewrite !Hneg by lia.
  - intros Hb. assert (Hz : forall y, (forall n, 63 <= n -> Z.testbit y n = false) -> 0 <= y < 2 ^ 63).
    { intros y Hy. replace y with (y mod 2 ^ 63); [apply Z.mod_pos_bound; lia|]. apply Z.bits_inj'. intros n Hn.
      destruct (Z.lt_ge_cases n 63); [by rewrite Z.mod_pow2_bits_low by lia|].
      rewrite Z.mod_pow2_bits_high by lia. by rewrite Hy. }
    unfold is_i64. destruct (Z.testbit x 63) eqn:E.
    + specialize (Hz (Z.lnot x)). assert (0 <= Z.lnot x < 2 ^ 63); [|unfold Z.lnot in *; lia].
      apply Hz. intros n Hn. rewrite Z.lnot_spec, Hb by lia. done.
    + specialize (Hz x). assert (0 <= x < 2 ^ 63); [|lia]. apply Hz. intros n Hn. rewrite Hb by lia. done.
Qed.

Lemma bitwise_ok f g x y : (forall m, Z.testbit (f x y) m = g (Z.testbit x m) (Z.testbit y m)) ->
  is_i64 x -> is_i64 y -> is_i64 (f x y).
Proof.
  intros Hg Hx Hy. apply is_i64_bits. intros n Hn. rewrite !Hg. rewrite is_i64_bits in Hx, Hy. by rewrite Hx, Hy by lia.
Qed.

Lemma land_i64 x y : is_i64 x -> is_i64 y -> is_i64 (Z.land x y).
Proof. apply (bitwise_ok Z.land andb). intros m. apply Z.land_spec. Qed.
Lemma lor_i64 x y : is_i64 x -> is_i64 y -> is_i64 (Z.lor x y).
Proof. apply (bitwise_ok Z.lor orb). intros m. apply Z.lor_spec. Qed.
Lemma lxor_i64 x y : is_i64 x -> is_i64 y -> is_i64 (Z.lxor x y).
Proof. apply (bitwise_ok Z.lxor xorb). intros m. apply Z.lxor_spec. Qed.

Lemma lnot_i64 x : is_i64 x -> is_i64 (Z.lnot x).
Proof. unfold is_i64, Z.lnot. lia. Qed.

Lemma shiftr_i64 x n : is_i64 x -> 0 <= n -> is_i64 (Z.shiftr x n).
Proof.
  intros Hx Hn. rewrite Z.shiftr_div_pow2 by done. unfold is_i64 in *. assert (1 <= 2 ^ n) by (pose proof (Z.pow_pos_nonneg 2 n); lia).
  split; [apply Z.div_le_lower_bound; nia|apply Z.div_lt_upper_bound; nia].
Qed.

Lemma quot_i64 x y : is_i64 x -> y <> 0 -> ~ (y = -1 /\ x = INT64_MIN) -> is_i64 (Z.quot x y).
Proof.
  unfold is_i64, INT64_MIN. intros Hx Hy Hmin. destruct (Z.eq_dec y (-1)) as [->|].
  - change (-1) with (- (1)). rewrite Z.quot_opp_r, Z.quot_1_r by lia. lia.
  - destruct (Z.eq_dec y 1) as [->|]; [by rewrite Z.quot_1_r|].
    assert (Habs : Z.abs (Z.quot x y) <= 2 ^ 62).
    { rewrite <- Z.quot_abs by done. etransitivity; [apply Z.quot_le_compat_l with (q := 2); lia|].
      rewrite Z.quot_div_nonneg by lia. apply Z.div_le_upper_bound; lia. }
    lia.
Qed.

Lemma rem_i64 x y : is_i64 x -> is_i64 y -> y <> 0 -> is_i64 (Z.rem x y).
Proof. unfold is_i64. intros Hx Hy H0. pose proof (Z.rem_bound_abs x y H0). lia. Qed.

(** ** Evaluation preserves types *)

Section typing.
Context (size : nat).

Lemma eval_error_ok {A} code at_ msg (Q : A -> Prop) : in_source size at_ ->
  code ∈ [kBadType; kBadLength; kDepthExceeded; kStateViolation] -> ospec (cfg_error size) Q (eval_error code at_ msg).
Proof. intros Ha Hc. by split. Qed.

Ltac eval_error_tac := by (apply eval_error_ok; [done|]; set_solver).

Lemma require_int_ok v at_ op : in_source size at_ -> value_ok v -> ospec (cfg_error size) is_i64 (require_int v at_ op).
Proof. intros Ha Hv. destruct v; first [done|eval_error_tac]. Qed.

Lemma number_int l : is_number l = true -> is_float l = false -> exists i, l = VInt i.
Proof. destruct l; try done. eauto. Qed.

Lemma eval_arith_ok op l r at_ : in_source size at_ -> value_ok l -> value_ok r ->
  ospec (cfg_error size) value_ok (eval_arith op l r at_).
Proof.
  intros Ha Hl Hr. unfold eval_arith. case_bool.
  { cbn. apply bytes_ok_app. auto using concat_ok. }
  case_bool; [eval_error_tac|]. cbv zeta.
  case_bool; destruct op; first [eval_error_tac|exact I|apply i64_ok].
Qed.

Lemma eval_div_mod_ok op l r at_ : in_source size at_ -> value_ok l -> value_ok r ->
  ospec (cfg_error size) value_ok (eval_div_mod op l r at_).
Proof.
  intros Ha Hl Hr. unfold eval_div_mod. cbv zeta. case_bool; [eval_error_tac|].
  apply orb_false_elim in E as [E1%negb_false_iff E2%negb_false_iff].
  case_bool; [repeat (case_bool; try eval_error_tac); done|]. apply orb_false_elim in E as [E3 E4].
  destruct (number_int l E1 E3) as [x ->], (number_int r E2 E4) as [y ->]. cbn [int_of value_ok] in *.
  destruct (Z.eqb_spec y 0) as [|Hy]; [eval_error_tac|].
  case_bool; [by case_bool|]. assert (Hmin : ~ (y = -1 /\ x = INT64_MIN)).
  { intros [-> ->]. done. }
  case_bool; cbn; [by apply quot_i64|by apply rem_i64].
Qed.

Lemma eval_bitwise_ok f name l r at_ : (forall x y, is_i64 x -> is_i64 y -> is_i64 (f x y)) ->
  in_source size at_ -> value_ok l -> value_ok r -> ospec (cfg_error size) value_ok (eval_bitwise f name l r at_).
Proof.
  intros Hf Ha Hl Hr. unfold eval_bitwise. eapply ospec_bind; [by apply require_int_ok|]. intros x Hx.
  eapply ospec_bind; [by apply require_int_ok|]. intros y Hy. by apply Hf.
Qed.

Lemma eval_shift_ok op l r at_ : in_source size at_ -> value_ok l -> value_ok r ->
  ospec (cfg_error size) value_ok (eval_shift op l r at_).
Proof.
  intros Ha Hl Hr. unfold eval_shift. eapply ospec_bind; [by apply require_int_ok|]. intros x Hx.
  eapply ospec_bind; [by apply require_int_ok|]. intros y Hy. case_bool; [eval_error_tac|].
  apply orb_false_elim in E as [E1 E2]. reflect_bools. case_bool; [apply i64_ok|by apply shiftr_i64].
Qed.

Lemma eval_compare_ok op l r at_ : in_source size at_ -> ospec (cfg_error size) value_ok (eval_compare op l r at_).
Proof.
  intros Ha. unfold eval_compare. eapply (ospec_bind _ (fun _ => True)).
  - case_bool; [done|]. destruct l, r; first [done|eval_error_tac].
  - intros cmp _. destruct op; first [done|eval_error_tac].
Qed.

Lemma eval_binary_ok op l r at_ : in_source size at_ -> value_ok l -> value_ok r ->
  ospec (cfg_error size) value_ok (eval_binary op l r at_).
Proof.
  intros Ha Hl Hr. destruct op; cbn [eval_binary];
    first [ by apply eval_arith_ok | by apply eval_div_mod_ok | by apply eval_shift_ok
          | by apply eval_compare_ok | by (apply eval_bitwise_ok; eauto using land_i64, lor_i64, lxor_i64)
          | exact I | eval_error_tac ].
Qed.

Lemma eval_unary_ok op v at_ : in_source size at_ -> value_ok v -> ospec (cfg_error size) value_ok (eval_unary op v at_).
Proof.
  intros Ha Hv. destruct op; cbn [eval_unary]; try exact I; try eval_error_tac.
  - destruct v; first [eval_error_tac|exact I|apply i64_ok].
  - eapply ospec_bind; [by apply require_int_ok|]. intros i Hi. by apply lnot_i64.
Qed.

Lemma eval_list_ok ev l : Forall (fun x => ospec (cfg_error size) value_ok (ev x)) l ->
  ospec (cfg_error size) (Forall value_ok) (eval_list ev l).
Proof.
  induction 1 as [|x l Hx Hl IH]; [by apply Forall_nil|]. cbn [eval_list].
  eapply ospec_bind; [exact Hx|]. intros v Hv. eapply ospec_bind; [exact IH|]. intros vs Hvs. by apply Forall_cons.
Qed.

Lemma eval_fields_ok ev l : Forall (fun x => identifier x.1 /\ ospec (cfg_error size) value_ok (ev x.2)) l ->
  ospec (cfg_error size) (Forall (fun x => identifier x.1 /\ value_ok x.2)) (eval_fields ev l).
Proof.
  induction 1 as [|[k x] l [Hk Hx] Hl IH]; [by apply Forall_nil|]. cbn [eval_fields].
  eapply ospec_bind; [exact Hx|]. intros v Hv. eapply ospec_bind; [exact IH|]. intros vs Hvs. by apply Forall_cons.
Qed.

Lemma evaluate_ok e env : env_ok env -> forall d, expr_ok size e -> ospec (cfg_error size) value_ok (evaluate e env d).
Proof.
  intros Henv. induction e as [o|o b|o i|o f|o s|o s|o l IH|o l IH|o op a IHa|o op a b IHa IHb|o c a b IHc IHa IHb]
    using expr_nested_ind; intros d Hok;
    destruct (Z.ltb_spec kMaxDepth d) as [Hd|Hd];
    try (cbn [evaluate]; rewrite (proj2 (Z.ltb_lt _ _)) by done; apply eval_error_ok; [apply Hok|set_solver]);
    destruct Hok as [Ho Hok]; cbn [expr_offset] in Ho.
  7: { rewrite evaluate_array by done. eapply ospec_bind; [apply eval_list_ok|intros vs Hvs; by apply fold_right_Forall_iff].
       apply fold_right_Forall_iff in Hok. induction IH as [|x l Hx Hl IHl]; [by apply Forall_nil|].
       apply Forall_cons in Hok as [H1 H2]. apply Forall_cons. split; [by apply Hx|by apply IHl]. }
  7: { rewrite evaluate_object by done.
       eapply ospec_bind; [apply eval_fields_ok|intros vs Hvs; by apply (fold_right_Forall_iff (fun x => identifier x.1 /\ value_ok x.2))].
       apply (fold_right_Forall_iff (fun x => identifier x.1 /\ expr_ok size x.2)) in Hok.
       induction IH as [|x l Hx Hl IHl]; [by apply Forall_nil|].
       apply Forall_cons in Hok as [[H1 H1'] H2]. apply Forall_cons. split; [split; [done|by apply Hx]|by apply IHl]. }
  all: cbn [evaluate]; rewrite (proj2 (Z.ltb_ge _ _)) by done; try exact I; try done.
  - destruct (lookup_name s env) eqn:E; [by eapply lookup_ok|]. apply eval_error_ok; [done|set_solver].
  - eapply ospec_bind; [by apply IHa|]. intros v Hv. by apply eval_unary_ok.
  - destruct Hok as [H1 H2].
    case_bool; [|case_bool]; (eapply ospec_bind; [by apply IHa|]; intros l Hl).
    + case_bool; [done|]. eapply ospec_bind; [by apply IHb|]. done.
    + case_bool; [done|]. eapply ospec_bind; [by apply IHb|]. done.
    + eapply ospec_bind; [by apply IHb|]. intros r Hr. by apply eval_binary_ok.
  - destruct Hok as (H1 & H2 & H3). eapply ospec_bind; [by apply IHc|]. intros v Hv. case_bool; [by apply IHa|by apply IHb].
Qed.

Fixpoint node_ok (n : Node) : Prop :=
  match n with
  | NAssignment path v => path <> [] /\ Forall identifier path /\ value_ok v
  | NBlock name label children =>
      identifier name /\ match label with Some l => bytes_ok l | None => True end /\
      fold_right (fun x P => node_ok x /\ P) True children
  | NInclude path => bytes_ok path
  end.

Definition built_ok (x : Node * Environment) : Prop := node_ok x.1 /\ env_ok x.2.

Lemma build_list_ok l : Forall (fun s => forall env, env_ok env -> stmt_ok size s -> ospec (cfg_error size) built_ok (build_node s env)) l ->
  forall env, env_ok env -> Forall (stmt_ok size) l ->
  ospec (cfg_error size) (fun x => Forall node_ok x.1 /\ env_ok x.2) (build_nodes l env).
Proof.
  induction 1 as [|s l Hs Hl IH]; intros env He Hok; [split; [by apply Forall_nil|done]|].
  apply Forall_cons in Hok as [H1 H2]. cbn [build_nodes].
  eapply ospec_bind; [by apply Hs|]. intros [n env1] [Hn He1]. eapply ospec_bind; [by apply IH|].
  intros [ns env2] [Hns He2]. split; [by apply Forall_cons|done].
Qed.

Lemma build_node_ok s : forall env, env_ok env -> stmt_ok size s -> ospec (cfg_error size) built_ok (build_node s env).
Proof.
  induction s as [o path e|o name label cs IH|o path] using stmt_nested_ind; intros env He Hok.
  - destruct Hok as (H1 & H2 & H3). cbn [build_node]. eapply ospec_bind; [by apply evaluate_ok|]. intros v Hv.
    split; [done|]. cbn. destruct (last path); [by apply define_ok|done].
  - destruct Hok as (H1 & H2 & H3). rewrite build_node_block.
    eapply ospec_bind; [apply build_list_ok; [exact IH| |by apply fold_right_Forall_iff]|].
    + apply Forall_cons. split; [by apply map_Forall_empty|done].
    + intros [ns env'] [Hns _]. split; [|done]. split; [done|]. split; [done|by apply fold_right_Forall_iff].
  - by split.
Qed.

Lemma build_nodes_ok l env : env_ok env -> Forall (stmt_ok size) l ->
  ospec (cfg_error size) (fun x => Forall node_ok x.1 /\ env_ok x.2) (build_nodes l env).
Proof. apply build_list_ok. apply Forall_true. intros s. apply build_node_ok. Qed.
End typing.

(** The root scope binds nothing. *)
Lemma root_ok : env_ok [∅].
Proof. apply Forall_cons. split; [by apply map_Forall_empty|by apply Forall_nil]. Qed.

Lemma parse_ok data : bytes_ok data -> ospec (cfg_error (length data)) (Forall node_ok) (parse data).
Proof.
  intros Hd. unfold parse. eapply ospec_bind; [by apply parse_source_runs|]. intros stmts Hs.
  eapply ospec_bind; [by apply build_nodes_ok; [apply root_ok|]|]. by intros [ns env] [Hns _].
Qed.

(** ** Natural semantics *)

(** What an expression means, without a depth limit: logical operators and the
    conditional evaluate only the branch they need. *)
Inductive evals (env : Environment) : Expr -> Value -> Prop :=
  | EvNull o : evals env (ENull o) VNull
  | EvBool o b : evals env (EBool o b) (VBool b)
  | EvInt o i : evals env (EInt o i) (VInt i)
  | EvFloat o f : evals env (EFloat o f) (VFloat f)
  | EvStr o s : evals env (EStr o s) (VStr s)
  | EvIdent o s v : lookup_name s env = Some v -> evals env (EIdent o s) v
  | EvArray o l vs : Forall2 (evals env) l vs -> evals env (EArray o l) (VArray vs)
  | EvObject o l vs : Forall2 (fun x y => x.1 = y.1 /\ evals env x.2 y.2) l vs -> evals env (EObject o l) (VObject vs)
  | EvUnary o op a v w : evals env a v -> eval_unary op v o = Ok w -> evals env (EUnary o op a) w
  | EvAndFalse o a b v : evals env a v -> truthy v = false -> evals env (EBinary o TokenKind.kAndAnd a b) (VBool false)
  | EvAnd o a b v w : evals env a v -> truthy v = true -> evals env b w ->
      evals env (EBinary o TokenKind.kAndAnd a b) (VBool (truthy w))
  | EvOrTrue o a b v : evals env a v -> truthy v = true -> evals env (EBinary o TokenKind.kOrOr a b) (VBool true)
  | EvOr o a b v w : evals env a v -> truthy v = false -> evals env b w ->
      evals env (EBinary o TokenKind.kOrOr a b) (VBool (truthy w))
  | EvBinary o op a b v w x : op <> TokenKind.kAndAnd -> op <> TokenKind.kOrOr ->
      evals env a v -> evals env b w -> eval_binary op v w o = Ok x -> evals env (EBinary o op a b) x
  | EvThen o c a b v w : evals env c v -> truthy v = true -> evals env a w -> evals env (ETernary o c a b) w
  | EvElse o c a b v w : evals env c v -> truthy v = false -> evals env b w -> evals env (ETernary o c a b) w.

(** The levels of an expression tree. *)
Fixpoint expr_height (e : Expr) : Z :=
  match e with
  | ENull _ | EBool _ _ | EInt _ _ | EFloat _ _ | EStr _ _ | EIdent _ _ => 0
  | EArray _ l => fold_right (fun x h => Z.max (1 + expr_height x) h) 0 l
  | EObject _ l => fold_right (fun x h => Z.max (1 + expr_height x.2) h) 0 l
  | EUnary _ _ a => 1 + expr_height a
  | EBinary _ _ a b => 1 + Z.max (expr_height a) (expr_height b)
  | ETernary _ a b c => 1 + Z.max (expr_height a) (Z.max (expr_height b) (expr_height c))
  end.

Lemma eval_list_inv ev l vs : eval_list ev l = Ok vs -> Forall2 (fun x v => ev x = Ok v) l vs.
Proof.
  revert vs. induction l as [|x l IH]; intros vs H; cbn [eval_list] in H; [injection H as <-; by apply Forall2_nil|].
  apply obind_ok_inv in H as (v & Hv & H). apply obind_ok_inv in H as (vs' & Hvs & H). injection H as <-.
  apply Forall2_cons. split; [done|by apply IH].
Qed.

Lemma eval_fields_inv ev l vs : eval_fields ev l = Ok vs -> Forall2 (fun x y => x.1 = y.1 /\ ev x.2 = Ok y.2) l vs.
Proof.
  revert vs. induction l as [|[k x] l IH]; intros vs H; cbn [eval_fields] in H; [injection H as <-; by apply Forall2_nil|].
  apply obind_ok_inv in H as (v & Hv & H). apply obind_ok_inv in H as (vs' & Hvs & H). injection H as <-.
  apply Forall2_cons. split; [done|by apply IH].
Qed.

Lemma eval_list_intro ev l vs : Forall2 (fun x v => ev x = Ok v) l vs -> eval_list ev l = Ok vs.
Proof. induction 1 as [|x v l vs Hx Hl IH]; [done|]. cbn [eval_list]. by rewrite Hx, IH. Qed.

Lemma eval_fields_intro ev l vs : Forall2 (fun x y => x.1 = y.1 /\ ev x.2 = Ok y.2) l vs -> eval_fields ev l = Ok vs.
Proof. induction 1 as [|[k x] [k' v] l vs [Hk Hx] Hl IH]; [done|]. cbn [eval_fields fst snd] in *. by rewrite Hx, IH, Hk. Qed.

Lemma evaluate_sound e env : forall d v, evaluate e env d = Ok v -> evals env e v.
Proof.
  induction e as [o|o b|o i|o f|o s|o s|o l IH|o l IH|o op a IHa|o op a b IHa IHb|o c a b IHc IHa IHb]
    using expr_nested_ind; intros d v He;
    (destruct (Z.ltb_spec kMaxDepth d) as [Hd|Hd];
     [cbn [evaluate] in He; by rewrite (proj2 (Z.ltb_lt _ _)) in He|]).
  7: { rewrite evaluate_array in He by done. apply obind_ok_inv in He as (vs & Hvs%eval_list_inv & [= <-]). constructor.
       clear -Hvs IH. revert vs Hvs. induction IH as [|x l Hx Hl IHl]; intros vs H; [apply Forall2_nil_inv_l in H as ->; by apply Forall2_nil|].
       apply Forall2_cons_inv_l in H as (v & vs' & Hv & Hvs & ->). apply Forall2_cons. split; [by eapply Hx|by apply IHl]. }
  7: { rewrite evaluate_object in He by done. apply obind_ok_inv in He as (vs & Hvs%eval_fields_inv & [= <-]). constructor.
       clear -Hvs IH. revert vs Hvs. induction IH as [|x l Hx Hl IHl]; intros vs H; [apply Forall2_nil_inv_l in H as ->; by apply Forall2_nil|].
       apply Forall2_cons_inv_l in H as (v & vs' & [Hk Hv] & Hvs & ->). apply Forall2_cons.
       split; [split; [done|by eapply Hx]|by apply IHl]. }
  all: cbn [evaluate] in He; rewrite (proj2 (Z.ltb_ge _ _)) in He by done; try (injection He as <-; constructor).
  - destruct (lookup_name s env) eqn:E; [|done]. injection He as <-. by constructor.
  - apply obind_ok_inv in He as (w & Hw & He). econstructor; [by eapply IHa|done].
  - destruct (bool_decide_reflect (op = TokenKind.kAndAnd)) as [->|Hand];
      [|destruct (bool_decide_reflect (op = TokenKind.kOrOr)) as [->|Hor]];
      apply obind_ok_inv in He as (w & Hw & He); apply IHa in Hw.
    + destruct (truthy w) eqn:Et; cbn [negb] in He; [|injection He as <-; by eapply EvAndFalse].
      apply obind_ok_inv in He as (x & Hx & He). injection He as <-. apply IHb in Hx. by eapply EvAnd.
    + destruct (truthy w) eqn:Et; [injection He as <-; by eapply EvOrTrue|].
      apply obind_ok_inv in He as (x & Hx & He). injection He as <-. apply IHb in Hx. by eapply EvOr.
    + apply obind_ok_inv in He as (x & Hx & He). apply IHb in Hx. by eapply EvBinary.
  - apply obind_ok_inv in He as (w & Hw & He). apply IHc in Hw. destruct (truthy w) eqn:Et.
    + apply IHa in He. by eapply EvThen.
    + apply IHb in He. by eapply EvElse.
Qed.

Lemma expr_height_nonneg e : 0 <= expr_height e.
Proof.
  induction e as [o|o b|o i|o f|o s|o s|o l IH|o l IH|o op a IHa|o op a b IHa IHb|o c a b IHc IHa IHb]
    using expr_nested_ind; cbn [expr_height]; try lia.
  - clear IH. induction l; cbn [fold_right]; lia.
  - clear IH. induction l; cbn [fold_right]; lia.
Qed.

Lemma height_element (f : Expr -> Z) {A} (g : A -> Expr) l h :
  fold_right (fun x m => Z.max (1 + f (g x)) m) 0 l <= h -> Forall (fun x => f (g x) <= h - 1) l.
Proof.
  induction l as [|x l IH]; cbn [fold_right]; intros H; [by apply Forall_nil|].
  apply Forall_cons. split; [lia|apply IH; lia].
Qed.

Lemma evaluate_complete e env : forall d v, d + expr_height e <= kMaxDepth -> evals env e v -> evaluate e env d = Ok v.
Proof.
  induction e as [o|o b|o i|o f|o s|o s|o l IH|o l IH|o op a IHa|o op a b IHa IHb|o c a b IHc IHa IHb]
    using expr_nested_ind; intros d v Hd He;
    match type of Hd with _ + expr_height ?e <= _ => pose proof (expr_height_nonneg e) end.
  7: { rewrite evaluate_array by lia. inversion He as [| | | | | |? ? vs Hvs| | | | | | | | |]; subst.
       rewrite (eval_list_intro _ _ vs); [done|]. cbn [expr_height] in Hd.
       pose proof (height_element expr_height (fun x => x) l (kMaxDepth - d)) as Hh. cbv beta in Hh. specialize (Hh ltac:(lia)). clear -Hvs IH Hh.
       revert IH Hh. induction Hvs as [|x v l vs Hx Hl IHl]; intros IH Hh; [by apply Forall2_nil|].
       apply Forall_cons in IH as [I1 I2], Hh as [H1 H2]. apply Forall2_cons. split; [apply I1; [lia|done]|by apply IHl]. }
  7: { rewrite evaluate_object by lia. inversion He as [| | | | | | |? ? vs Hvs| | | | | | | |]; subst.
       rewrite (eval_fields_intro _ _ vs); [done|]. cbn [expr_height] in Hd.
       pose proof (height_element expr_height (fun x : bytes * Expr => x.2) l (kMaxDepth - d)) as Hh. cbv beta in Hh. specialize (Hh ltac:(lia)). clear -Hvs IH Hh.
       revert IH Hh. induction Hvs as [|x v l vs [Hk Hx] Hl IHl]; intros IH Hh; [by apply Forall2_nil|].
       apply Forall_cons in IH as [I1 I2], Hh as [H1 H2]. apply Forall2_cons.
       split; [split; [done|apply I1; [lia|done]]|by apply IHl]. }
  all: cbn [evaluate expr_height] in *; rewrite (proj2 (Z.ltb_ge kMaxDepth d)) by lia;
    inversion He; subst; try done;
    repeat match goal with
    | H : lookup_name _ _ = Some _ |- _ => by rewrite H
    | IH : (forall d v, _ -> evals _ ?a v -> evaluate ?a _ d = Ok v), H : evals _ ?a ?v |- context [evaluate ?a _ (?d + 1)] =>
        rewrite (IH (d + 1) v) by (lia || exact H)
    | H : truthy _ = _ |- _ => rewrite H
    | |- context [bool_decide (?x = ?y)] => first [rewrite (bool_decide_eq_true_2 (x = y)) by done | rewrite (bool_decide_eq_false_2 (x = y)) by done]
    | |- _ => progress cbn [obind negb]
    end; done.
Qed.

(** ** Scoping *)






(** *** What a place of the document can see *)










(** ** Integer operators, one kind at a time *)

Lemma wrap_spec f a b : (forall x y : Z, f (x mod 2 ^ 64) (y mod 2 ^ 64) mod 2 ^ 64 = f x y mod 2 ^ 64) ->
  let z := i64 (u64 (f (u64 a) (u64 b))) in
  is_i64 z /\ z mod 2 ^ 64 = f a b mod 2 ^ 64 /\ (is_i64 (f a b) -> z = f a b).
Proof.
  intros Hf z. assert (Hz : z = i64 (f a b)) by (subst z; rewrite i64_u64; apply i64_congr; unfold u64; apply Hf).
  rewrite Hz. split; [apply i64_ok|]. split; [apply i64_mod|apply i64_small].
Qed.

Lemma div_mod_int x y at_ : is_i64 x -> is_i64 y -> y <> 0 ->
  exists q r, eval_div_mod TokenKind.kSlash (VInt x) (VInt y) at_ = Ok (VInt q) /\
    eval_div_mod TokenKind.kPercent (VInt x) (VInt y) at_ = Ok (VInt r) /\
    is_i64 q /\ is_i64 r /\ Z.abs r < Z.abs y /\ 0 <= r * x /\
    (x = y * q + r \/ (x = INT64_MIN /\ y = -1 /\ q = INT64_MIN /\ r = 0)).
Proof.
  intros Hx Hy H0. unfold eval_div_mod. cbn [is_number is_float negb orb int_of].
  rewrite (bool_decide_eq_true_2 (TokenKind.kSlash = TokenKind.kSlash)), (bool_decide_eq_false_2 (TokenKind.kPercent = TokenKind.kSlash)) by done.
  cbv zeta. rewrite (proj2 (Z.eqb_neq y 0)) by done.
  destruct ((y =? -1) && (x =? INT64_MIN)) eqn:E.
  - lx_facts. subst. exists INT64_MIN, 0. repeat split; try done. by right.
  - assert (Hmin : ~ (y = -1 /\ x = INT64_MIN)) by (by intros [-> ->]).
    exists (Z.quot x y), (Z.rem x y). split; [done|]. split; [done|]. split; [by apply quot_i64|].
    split; [by apply rem_i64|]. split; [by apply Z.rem_bound_abs|]. split; [by apply Z.rem_sign_mul|].
    left. apply Z.quot_rem'.
Qed.

Lemma shift_int x y at_ : is_i64 x -> 0 <= y <= 63 ->
  eval_shift TokenKind.kShr (VInt x) (VInt y) at_ = Ok (VInt (x / 2 ^ y)) /\
  exists z, eval_shift TokenKind.kShl (VInt x) (VInt y) at_ = Ok (VInt z) /\ is_i64 z /\ z mod 2 ^ 64 = x * 2 ^ y mod 2 ^ 64.
Proof.
  intros Hx Hy. unfold eval_shift. cbn [require_int obind].
  rewrite (proj2 (Z.ltb_ge y 0)), (proj2 (Z.ltb_ge 63 y)) by lia. cbn [orb]. split.
  - rewrite bool_decide_eq_false_2 by done. by rewrite Z.shiftr_div_pow2 by lia.
  - rewrite bool_decide_eq_true_2 by done. eexists. split; [reflexivity|]. split; [apply i64_ok|].
    rewrite i64_u64, i64_mod, Z.shiftl_mul_pow2 by lia. unfold u64. by rewrite Z.mul_mod_idemp_l by lia.
Qed.

(** ** Claims *)

(** C14. Parsing and evaluating any source ends, without undefined behaviour: with a
    document whose names are identifiers, whose integers fit 64 bits and whose strings
    are bytes, or with a
    [ParseError] whose offset lies inside the source. *)
Theorem parse_total (data : bytes) :
  bytes_ok data ->
  match parse data with
  | Ok doc => Forall node_ok doc
  | Throw e => pe_code e ∈ [kBadType; kBadLength; kDepthExceeded; kStateViolation] /\
               0 <= pe_offset e <= Z.of_nat (length data)
  | UB | NoFuel => False
  end.
Proof. intros Hd. pose proof (parse_ok data Hd) as H. by destruct (parse data). Qed.

Lemma parse_total_witness :
  (exists doc, parse (lit "a = 0x8000000000000000; b = -a / -1;") = Ok doc /\ Forall node_ok doc) /\
  (exists e, parse (lit "a = 1 << 64;") = Throw e /\ pe_code e = kStateViolation /\ pe_offset e <= 12).
Proof.
  pose proof (parse_total (lit "a = 0x8000000000000000; b = -a / -1;") (lit_ok _)) as H1.
  pose proof (parse_total (lit "a = 1 << 64;") (lit_ok _)) as H2. split.
  - destruct (parse (lit "a = 0x8000000000000000; b = -a / -1;")) as [doc|e| |] eqn:E; [|vm_compute in E; discriminate E..].
    exists doc. split; [reflexivity|exact H1].
  - destruct (parse (lit "a = 1 << 64;")) as [doc|e| |] eqn:E; [vm_compute in E; discriminate E| |vm_compute in E; discriminate E..].
    exists e. split; [reflexivity|]. split; [vm_compute in E; by injection E as <-|apply H2].
Defined.

(** The evaluator implements the natural semantics of expressions: a value it
    returns is one the semantics gives, the semantics gives at most one value, and
    the evaluator finds it whenever the expression is not deeper than the limit
    allows. *)
Theorem evaluate_semantics (e : Expr) (env : Environment) (depth : Z) (v : Value) :
  (evaluate e env depth = Ok v -> evals env e v) /\
  (depth + expr_height e <= kMaxDepth -> evals env e v -> evaluate e env depth = Ok v) /\
  (forall w, evals env e v -> evals env e w -> expr_height e <= kMaxDepth -> v = w).
Proof.
  split; [apply evaluate_sound|]. split; [apply evaluate_complete|]. intros w Hv Hw Hh.
  apply (evaluate_complete e env 0) in Hv; [|lia]. apply (evaluate_complete e env 0) in Hw; [|lia]. congruence.
Qed.

Definition sample_env : Environment := [<[lit "x" := VInt 5]> ∅; <[lit "y" := VStr (lit "s")]> ∅].
Definition sample_expr : Expr :=
  ETernary 0 (EBinary 1 TokenKind.kLt (EIdent 2 (lit "x")) (EInt 3 6))
    (EBinary 4 TokenKind.kPlus (EIdent 5 (lit "y")) (EInt 6 1)) (EIdent 7 (lit "nope")).

Lemma evaluate_semantics_witness :
  evals sample_env sample_expr (VStr (lit "s1")) /\ evaluate sample_expr sample_env 62 = Ok (VStr (lit "s1")).
Proof.
  destruct (evaluate_semantics sample_expr sample_env 62 (VStr (lit "s1"))) as (H1 & H2 & _).
  assert (Hs : evals sample_env sample_expr (VStr (lit "s1"))) by (apply H1; vm_compute; reflexivity).
  split; [exact Hs|]. apply H2; [vm_compute; discriminate|exact Hs].
Defined.

(** C23. Integer operators stay within 64 bits on every pair of operands: sums,
    differences and products are the exact result wrapped around, and exact when it
    fits; division and remainder truncate, except that the one quotient that does not
    fit stays itself, and a zero divisor is an error; shifts by 0 to 63 multiply or
    divide by powers of two and other amounts are errors; the bitwise operators act on
    every bit. *)
Theorem integer_operators (x y at_ : Z) :
  is_i64 x -> is_i64 y ->
  let run op := eval_binary op (VInt x) (VInt y) at_ in
  (forall op f, (op, f) ∈ [(TokenKind.kPlus, Z.add); (TokenKind.kMinus, Z.sub); (TokenKind.kStar, Z.mul)] ->
     exists z, run op = Ok (VInt z) /\ is_i64 z /\ z mod 2 ^ 64 = f x y mod 2 ^ 64 /\ (is_i64 (f x y) -> z = f x y)) /\
  (y = 0 -> run TokenKind.kSlash = Throw (parse_error kStateViolation at_ "division by zero") /\
            run TokenKind.kPercent = Throw (parse_error kStateViolation at_ "modulo by zero")) /\
  (y <> 0 -> exists q r, run TokenKind.kSlash = Ok (VInt q) /\ run TokenKind.kPercent = Ok (VInt r) /\
     is_i64 q /\ is_i64 r /\ Z.abs r < Z.abs y /\ 0 <= r * x /\
     (x = y * q + r \/ (x = INT64_MIN /\ y = -1 /\ q = INT64_MIN /\ r = 0))) /\
  (0 <= y <= 63 -> run TokenKind.kShr = Ok (VInt (x / 2 ^ y)) /\
     exists z, run TokenKind.kShl = Ok (VInt z) /\ is_i64 z /\ z mod 2 ^ 64 = x * 2 ^ y mod 2 ^ 64) /\
  (~ 0 <= y <= 63 -> forall op, op ∈ [TokenKind.kShl; TokenKind.kShr] ->
     run op = Throw (parse_error kStateViolation at_ "shift amount out of range")) /\
  (forall op g, (op, g) ∈ [(TokenKind.kAmp, andb); (TokenKind.kCaret, xorb); (TokenKind.kPipe, orb)] ->
     exists z, run op = Ok (VInt z) /\ is_i64 z /\ forall n, Z.testbit z n = g (Z.testbit x n) (Z.testbit y n)).
Proof.
  intros Hx Hy run. subst run. split; [|split; [|split; [|split; [|split]]]].
  - intros op f Hin. rewrite !elem_of_cons, elem_of_nil in Hin.
    destruct Hin as [[= -> ->]|[[= -> ->]|[[= -> ->]|[]]]]; eexists; (split; [reflexivity|]); cbn [int_of].
    + apply (wrap_spec Z.add). intros a b. by rewrite <- Z.add_mod by lia.
    + apply (wrap_spec Z.sub). intros a b. by rewrite <- Zminus_mod.
    + apply (wrap_spec Z.mul). intros a b. by rewrite <- Z.mul_mod by lia.
  - by intros ->.
  - by apply div_mod_int.
  - by apply shift_int.
  - intros Hr op Hin. assert (Hb : (y <? 0) || (63 <? y) = true).
    { destruct (Z.ltb_spec y 0), (Z.ltb_spec 63 y); (done || lia). }
    rewrite !elem_of_cons, elem_of_nil in Hin. destruct Hin as [->|[->|[]]]; cbn [eval_binary]; unfold eval_shift;
      cbn [require_int obind]; by rewrite Hb.
  - intros op g Hin. rewrite !elem_of_cons, elem_of_nil in Hin.
    destruct Hin as [[= -> ->]|[[= -> ->]|[[= -> ->]|[]]]]; eexists; (split; [reflexivity|]).
    + split; [by apply land_i64|]. intros n. apply Z.land_spec.
    + split; [by apply lxor_i64|]. intros n. apply Z.lxor_spec.
    + split; [by apply lor_i64|]. intros n. apply Z.lor_spec.
Qed.

Lemma integer_operators_witness :
  eval_binary TokenKind.kPlus (VInt (2 ^ 63 - 1)) (VInt 1) 0 = Ok (VInt INT64_MIN) /\
  exists z, eval_binary TokenKind.kPlus (VInt 7) (VInt (-2)) 0 = Ok (VInt z) /\ z = 5.
Proof.
  destruct (integer_operators 7 (-2) 0 ltac:(unfold is_i64; lia) ltac:(unfold is_i64; lia)) as [H _].
  destruct (H TokenKind.kPlus Z.add ltac:(left)) as (z & Hz & _ & _ & He). split; [vm_compute; reflexivity|].
  exists z. split; [exact Hz|]. apply He. unfold is_i64. cbn. lia.
Defined.




(** ** Behaviours worth knowing *)

(** A flat sum of seventy terms is a left-leaning tree of that height: the evaluator
    rejects it as nested too deep. *)
Definition long_sum : bytes := lit "x = 1" ++ concat (replicate 69 (lit "+1")) ++ lit ";".

Lemma flat_sum_rejected : exists e, parse long_sum = Throw e /\ pe_code e = kDepthExceeded.
Proof. eexists. split; vm_compute; reflexivity. Qed.

(** A comparison with NaN finds the operands equal. *)
Lemma nan_equals_everything v : is_number v = true -> values_equal (VFloat SpecFloat.S754_nan) v = true.
Proof.
  intros Hv. assert (H : compare_numbers (VFloat SpecFloat.S754_nan) v = 0).
  { destruct v; try done; unfold compare_numbers; cbn [as_double]; [by destruct (double_of_int i)|by destruct f]. }
  unfold values_equal. cbn [is_number]. by destruct v; try done; rewrite Hv || cbn [is_number andb]; rewrite H.
Qed.

(** Infinity minus infinity is NaN, and so equal to five. *)
Lemma nan_reachable : parse (lit "x = 1e308 * 10; y = x - x == 5;") =
  Ok [NAssignment [lit "x"] (VFloat (SpecFloat.S754_infinity false)); NAssignment [lit "y"] (VBool true)].
Proof. vm_compute. reflexivity. Qed.
