(* ===== verification/CfgSerializer.v ===== *)
(** * CfgSerializer: the canonical text of a document

    [src/cfgscript/serializer.cpp]. The C++ functions append to an output string;
    each definition here is the text it appends. *)

From S2P Require Import Prelude Status CfgNumber CfgEval Hexdump.

Record SerializeOptions := MkSerialize { indent_width : Z; inline_threshold : Z }.
Definition default_serialize : SerializeOptions := MkSerialize 2 4.

Definition serial_hex_digit (d : Z) : Z := Z.of_nat (Ascii.nat_of_ascii (hex_digit d)).
Definition serial_hex_byte (c : Z) : bytes :=
  [92; 120; serial_hex_digit (Z.land (Z.shiftr c 4) 0xF); serial_hex_digit (Z.land c 0xF)].

(** One byte of a string literal. *)
Definition escape_char (c : Z) : bytes :=
  match c with
  | 92 => [92; 92]
  | 34 => [92; 34]
  | 10 => [92; 110]
  | 13 => [92; 114]
  | 9 => [92; 116]
  | _ => if (c <? 0x20) || (0x7F <=? c) then serial_hex_byte c else [c]
  end.
Definition escape_string (s : bytes) : bytes := concat (map escape_char s).

Definition append_quoted (s : bytes) : bytes := [34] ++ escape_string s ++ [34].

Definition append_indent (depth : nat) (width : Z) : bytes := concat (replicate depth (replicate (Z.to_nat width) 32)).

Definition render_inline (count : nat) (opts : SerializeOptions) : bool := Z.of_nat count <=? inline_threshold opts.

(** The elements of an aggregate: inline with [sep] before all but the first, or one
    per line with [fin] after each. *)
Definition inline_items (sep : bytes) : list bytes -> bytes :=
  fix go l := match l with
              | [] => []
              | x :: l' => x ++ match l' with [] => [] | _ => sep ++ go l' end
              end.
Definition line_items (depth : nat) (width : Z) (fin : bytes) (l : list bytes) : bytes :=
  concat (map (fun x => append_indent (S depth) width ++ x ++ fin) l).

Fixpoint render_value (opts : SerializeOptions) (depth : nat) (v : Value) : bytes :=
  match v with
  | VNull => lit "null"
  | VBool b => if b then lit "true" else lit "false"
  | VInt i => to_string_int i
  | VFloat f => to_string_double f
  | VStr s => append_quoted s
  | VArray l =>
      if bool_decide (length l = 0%nat) then lit "[]"
      else if render_inline (length l) opts
      then lit "[" ++ inline_items (lit ", ") (map (render_value opts depth) l) ++ lit "]"
      else lit "[" ++ [10] ++
           line_items depth (indent_width opts) (lit "," ++ [10]) (map (render_value opts (S depth)) l) ++
           append_indent depth (indent_width opts) ++ lit "]"
  | VObject l =>
      if bool_decide (length l = 0%nat) then lit "{}"
      else if render_inline (length l) opts
      then lit "{ " ++
           inline_items (lit " ") (map (fun kv => kv.1 ++ lit " = " ++ render_value opts depth kv.2 ++ lit ";") l) ++
           lit " }"
      else lit "{" ++ [10] ++
           line_items depth (indent_width opts) (lit ";" ++ [10])
             (map (fun kv => kv.1 ++ lit " = " ++ render_value opts (S depth) kv.2) l) ++
           append_indent depth (indent_width opts) ++ lit "}"
  end.

Definition render_path (path : list bytes) : bytes := inline_items (lit ".") path.

Fixpoint render_node (opts : SerializeOptions) (depth : nat) (n : Node) : bytes :=
  append_indent depth (indent_width opts) ++
  match n with
  | NAssignment path v => render_path path ++ lit " = " ++ render_value opts depth v ++ lit ";" ++ [10]
  | NBlock name label children =>
      name ++ match label with Some l => lit " " ++ append_quoted l | None => [] end ++
      if bool_decide (length children = 0%nat) then lit " {}" ++ [10]
      else lit " {" ++ [10] ++ concat (map (render_node opts (S depth)) children) ++
           append_indent depth (indent_width opts) ++ lit "}" ++ [10]
  | NInclude path => lit "include " ++ append_quoted path ++ lit ";" ++ [10]
  end.

Definition render_nodes (opts : SerializeOptions) (depth : nat) (nodes : list Node) : bytes :=
  concat (map (render_node opts depth) nodes).

Definition serialize_value (opts : SerializeOptions) (v : Value) : bytes := render_value opts 0 v.
Definition serialize (opts : SerializeOptions) (doc : Document) : bytes := render_nodes opts 0 doc.

Example serialize_sample :
  match parse (lit "a.b = [1,2,3,4,-5]; s 'x' { }") with Throw _ => True | _ => False end /\
  match parse (lit "a.b = [1,2,3,4,-5]; s { k = { u = null; }; }") with
  | Ok doc => parse (serialize default_serialize doc) = Ok doc /\
      serialize default_serialize doc =
        lit "a.b = [" ++ [10] ++ lit "  1," ++ [10] ++ lit "  2," ++ [10] ++ lit "  3," ++ [10] ++ lit "  4," ++ [10] ++
        lit "  -5," ++ [10] ++ lit "];" ++ [10] ++ lit "s {" ++ [10] ++ lit "  k = { u = null; };" ++ [10] ++ lit "}" ++ [10]
  | _ => False
  end.
Proof. vm_compute. auto. Qed.
