(* ===== verification/CfgFlatten.v ===== *)
(** * CfgFlatten: flattened documents and their differences

    [src/cfgscript/flatten.cpp]: a document as a list of path and text pairs, and the
    difference of two such lists. *)

From S2P Require Import Prelude Status CfgNumber CfgEval CfgSerializer.

Record FlatEntry := MkFlat { fe_path : bytes; fe_value : bytes }.

Definition join_path (prefix leaf : bytes) : bytes :=
  if bool_decide (prefix = []) then leaf else prefix ++ [46] ++ leaf.
Definition join_index (prefix : bytes) (index : nat) : bytes := prefix ++ [91] ++ to_string_int (Z.of_nat index) ++ [93].

Definition render_scalar (v : Value) : bytes :=
  match v with
  | VNull => lit "null"
  | VBool b => if b then lit "true" else lit "false"
  | VInt i => to_string_int i
  | VFloat f => to_string_double f
  | VStr s => [34] ++ escape_string s ++ [34]
  | VArray _ => lit "[]"
  | VObject _ => lit "{}"
  end.

(** [flatten_into]: what it appends. *)
Fixpoint flatten_value (prefix : bytes) (v : Value) : list FlatEntry :=
  match v with
  | VNull | VBool _ | VInt _ | VFloat _ | VStr _ => [MkFlat prefix (render_scalar v)]
  | VArray l =>
      if bool_decide (length l = 0%nat) then [MkFlat prefix (lit "[]")]
      else (fix go (k : nat) (l : list Value) : list FlatEntry :=
              match l with [] => [] | x :: l' => flatten_value (join_index prefix k) x ++ go (S k) l' end) 0%nat l
  | VObject l =>
      if bool_decide (length l = 0%nat) then [MkFlat prefix (lit "{}")]
      else (fix go (l : list (bytes * Value)) : list FlatEntry :=
              match l with [] => [] | (k, x) :: l' => flatten_value (join_path prefix k) x ++ go l' end) l
  end.

Definition block_prefix (prefix name : bytes) (label : option bytes) : bytes :=
  join_path prefix (match label with Some l => name ++ [91] ++ l ++ [93] | None => name end).

(** One node of [flatten_nodes]. *)
Fixpoint flatten_node (prefix : bytes) (n : Node) : list FlatEntry :=
  match n with
  | NAssignment path v => flatten_value (fold_left join_path path prefix) v
  | NBlock name label children => concat (map (flatten_node (block_prefix prefix name label)) children)
  | NInclude path => [MkFlat (join_path prefix (lit "include")) path]
  end.
Definition flatten_nodes (prefix : bytes) (nodes : list Node) : list FlatEntry := concat (map (flatten_node prefix) nodes).

Definition flatten (doc : Document) : list FlatEntry := flatten_nodes [] doc.

(** ** Differences *)

Inductive DiffKind := kAdded | kRemoved | kChanged.

#[export] Instance DiffKind_eq_dec : EqDecision DiffKind.
Proof. solve_decision. Defined.

Record DiffEntry := MkDiff { de_kind : DiffKind; de_path : bytes; de_old : bytes; de_new : bytes }.

(** The last occurrence of a path wins. *)
Definition flat_index (l : list FlatEntry) : gmap bytes bytes :=
  fold_left (fun m e => <[fe_path e := fe_value e]> m) l ∅.

(** [b_index[path]]: an absent key reads as the empty string. *)
Definition index_at (m : gmap bytes bytes) (path : bytes) : bytes := default [] (m !! path).

Fixpoint removed_loop (a_index b_index : gmap bytes bytes) (l : list FlatEntry) (seen : gset bytes) (out : list DiffEntry) : list DiffEntry :=
  match l with
  | [] => out
  | e :: l' =>
      let path := fe_path e in
      if bool_decide (path ∈ seen) then removed_loop a_index b_index l' seen out
      else
        let seen := {[path]} ∪ seen in
        match b_index !! path with
        | None => removed_loop a_index b_index l' seen (out ++ [MkDiff kRemoved path (index_at a_index path) []])
        | Some _ => removed_loop a_index b_index l' seen out
        end
  end.

Fixpoint added_loop (a_index b_index : gmap bytes bytes) (l : list FlatEntry) (seen : gset bytes) (out : list DiffEntry) : list DiffEntry :=
  match l with
  | [] => out
  | e :: l' =>
      let path := fe_path e in
      if bool_decide (path ∈ seen) then added_loop a_index b_index l' seen out
      else
        let seen := {[path]} ∪ seen in
        match a_index !! path with
        | None => added_loop a_index b_index l' seen (out ++ [MkDiff kAdded path [] (index_at b_index path)])
        | Some old =>
            if bool_decide (old = index_at b_index path) then added_loop a_index b_index l' seen out
            else added_loop a_index b_index l' seen (out ++ [MkDiff kChanged path old (index_at b_index path)])
        end
  end.

Definition diff (a b : list FlatEntry) : list DiffEntry :=
  let a_index := flat_index a in
  let b_index := flat_index b in
  added_loop a_index b_index b ∅ (removed_loop a_index b_index a ∅ []).

Definition diff_documents (a b : Document) : list DiffEntry := diff (flatten a) (flatten b).

(** ** The difference, declaratively *)

(** The paths of [l] outside [seen], each at its first occurrence. *)
Fixpoint firsts (l : list FlatEntry) (seen : gset bytes) : list bytes :=
  match l with
  | [] => []
  | e :: l' => if bool_decide (fe_path e ∈ seen) then firsts l' seen
               else fe_path e :: firsts l' ({[fe_path e]} ∪ seen)
  end.

Lemma elem_of_firsts l : forall seen p, p ∈ firsts l seen <-> p ∈ map fe_path l /\ p ∉ seen.
Proof.
  induction l as [|e l IH]; intros seen p; cbn [firsts map]; [split; [intros H; by apply elem_of_nil in H|intros [H _]; by apply elem_of_nil in H]|].
  rewrite elem_of_cons. case_bool_decide as E.
  - rewrite IH. split; [intros [? ?]; auto|]. intros [[->|H] Hn]; [by destruct Hn|by split].
  - rewrite elem_of_cons, IH, not_elem_of_union, not_elem_of_singleton. destruct (decide (p = fe_path e)) as [->|]; intuition.
Qed.

Lemma NoDup_firsts l : forall seen, NoDup (firsts l seen).
Proof.
  induction l as [|e l IH]; intros seen; cbn [firsts]; [constructor|]. case_bool; [apply IH|].
  constructor; [|apply IH]. rewrite elem_of_firsts. set_solver.
Qed.

Lemma firsts_sublist l : forall seen, sublist (firsts l seen) (map fe_path l).
Proof. induction l as [|e l IH]; intros seen; cbn [firsts map]; [constructor|]. case_bool; constructor; apply IH. Qed.

Definition removed_entry (A B : gmap bytes bytes) (p : bytes) : option DiffEntry :=
  match B !! p with None => Some (MkDiff kRemoved p (index_at A p) []) | Some _ => None end.
Definition added_entry (A B : gmap bytes bytes) (p : bytes) : option DiffEntry :=
  match A !! p with
  | None => Some (MkDiff kAdded p [] (index_at B p))
  | Some old => if bool_decide (old = index_at B p) then None else Some (MkDiff kChanged p old (index_at B p))
  end.

Lemma removed_loop_eq A B l : forall seen out,
  removed_loop A B l seen out = out ++ omap (removed_entry A B) (firsts l seen).
Proof.
  induction l as [|e l IH]; intros seen out; cbn [removed_loop firsts]; [by rewrite app_nil_r|]. cbv zeta.
  case_bool; [apply IH|]. cbn [omap list_omap]. unfold removed_entry at 1.
  destruct (B !! fe_path e); rewrite IH; [done|by rewrite <- app_assoc].
Qed.

Lemma added_loop_eq A B l : forall seen out,
  added_loop A B l seen out = out ++ omap (added_entry A B) (firsts l seen).
Proof.
  induction l as [|e l IH]; intros seen out; cbn [added_loop firsts]; [by rewrite app_nil_r|]. cbv zeta.
  case_bool; [apply IH|]. cbn [omap list_omap]. unfold added_entry at 1.
  destruct (A !! fe_path e); [case_bool|]; rewrite IH; [done|by rewrite <- app_assoc..].
Qed.

Lemma flat_index_app l k : flat_index (l ++ k) = fold_left (fun m e => <[fe_path e := fe_value e]> m) k (flat_index l).
Proof. apply fold_left_app. Qed.

Lemma flat_index_dom l p : is_Some (flat_index l !! p) <-> p ∈ map fe_path l.
Proof.
  induction l as [|e l IH] using rev_ind; [split; [by intros [? H]|intros H; by apply elem_of_nil in H]|].
  rewrite flat_index_app, map_app. cbn [fold_left map]. rewrite elem_of_app, list_elem_of_singleton, <- IH.
  destruct (decide (fe_path e = p)) as [<-|Hne].
  - rewrite lookup_insert_eq. split; [by right|]. intros _. by eexists.
  - rewrite lookup_insert_ne by done. split; [by left|]. intros [H|H]; [done|congruence].
Qed.

Lemma diff_eq a b : diff a b =
  omap (removed_entry (flat_index a) (flat_index b)) (firsts a ∅) ++
  omap (added_entry (flat_index a) (flat_index b)) (firsts b ∅).
Proof. unfold diff. by rewrite added_loop_eq, removed_loop_eq. Qed.

Definition apply_entry (m : gmap bytes bytes) (d : DiffEntry) : gmap bytes bytes :=
  match de_kind d with kRemoved => delete (de_path d) m | kAdded | kChanged => <[de_path d := de_new d]> m end.

(** What a difference may contain. *)
Definition diff_entry_ok (A B : gmap bytes bytes) (d : DiffEntry) : Prop :=
  match de_kind d with
  | kRemoved => A !! de_path d = Some (de_old d) /\ B !! de_path d = None /\ de_new d = []
  | kAdded => A !! de_path d = None /\ B !! de_path d = Some (de_new d) /\ de_old d = []
  | kChanged => A !! de_path d = Some (de_old d) /\ B !! de_path d = Some (de_new d) /\ de_old d <> de_new d
  end.

Lemma elem_of_diff a b d : d ∈ diff a b <-> diff_entry_ok (flat_index a) (flat_index b) d.
Proof.
  rewrite diff_eq, elem_of_app, !list_elem_of_omap.
  assert (Hf : forall l p, p ∈ firsts l ∅ <-> is_Some (flat_index l !! p)).
  { intros l p. rewrite elem_of_firsts, flat_index_dom. set_solver. }
  setoid_rewrite Hf. set (A := flat_index a). set (B := flat_index b). unfold diff_entry_ok, removed_entry, added_entry, index_at.
  split.
  - intros [(p & [v Hv] & H)|(p & [v Hv] & H)].
    + destruct (B !! p) eqn:E; [done|]. injection H as <-. cbn. by rewrite Hv.
    + destruct (A !! p) eqn:E; [case_bool_decide; [done|]|]; injection H as <-; cbn; rewrite Hv in *; done.
  - destruct d as [[] p old new]; cbn [de_kind de_path de_old de_new]; intros (H1 & H2 & H3).
    + right. exists p. rewrite H1, H2. cbn. subst. split; [by eexists|done].
    + left. exists p. rewrite H1, H2. cbn. subst. split; [by eexists|done].
    + right. exists p. rewrite H1, H2. cbn. rewrite bool_decide_eq_false_2 by done. split; [by eexists|done].
Qed.

Lemma omap_paths (f : bytes -> option DiffEntry) l : (forall p d, f p = Some d -> de_path d = p) ->
  sublist (map de_path (omap f l)) l.
Proof.
  intros Hf. induction l as [|p l IH]; [constructor|]. cbn [omap list_omap]. destruct (f p) as [d|] eqn:E.
  - cbn [map]. rewrite (Hf p d E). by constructor.
  - by constructor.
Qed.

Lemma removed_path A B p d : removed_entry A B p = Some d -> de_path d = p /\ de_kind d = kRemoved.
Proof. unfold removed_entry. destruct (B !! p); [done|]. by intros [= <-]. Qed.
Lemma added_path A B p d : added_entry A B p = Some d -> de_path d = p /\ de_kind d <> kRemoved.
Proof. unfold added_entry. destruct (A !! p); [case_bool; [done|]|]; by intros [= <-]. Qed.

Lemma NoDup_diff a b : NoDup (map de_path (diff a b)).
Proof.
  assert (Hone : forall (f : bytes -> option DiffEntry) l, (forall p d, f p = Some d -> de_path d = p) -> NoDup (map de_path (omap f (firsts l ∅)))).
  { intros f l Hf. eapply sublist_NoDup; [apply (NoDup_firsts l ∅)|by apply omap_paths]. }
  rewrite diff_eq, map_app. apply NoDup_app. split; [apply Hone; intros p d H; apply (removed_path _ _ _ _ H)|].
  split; [|apply Hone; intros p d H; apply (added_path _ _ _ _ H)].
  intros p H1 H2. apply list_elem_of_fmap in H1 as (d & -> & H1), H2 as (d' & Hp & H2).
  apply list_elem_of_omap in H1 as (q & Hq & H1), H2 as (q' & Hq' & H2).
  pose proof (removed_path _ _ _ _ H1) as [Hq1 _]. pose proof (added_path _ _ _ _ H2) as [Hq2 _].
  assert (q = q') as <- by congruence. apply elem_of_firsts in Hq' as [Hb _]. apply flat_index_dom in Hb as [v Hv].
  unfold removed_entry in H1. by rewrite Hv in H1.
Qed.

(** Applying entries with distinct paths decides every path separately. *)
Lemma apply_entries ds : forall m p, NoDup (map de_path ds) ->
  fold_left apply_entry ds m !! p =
    match list_find (fun d => de_path d = p) ds with
    | Some (_, d) => if bool_decide (de_kind d = kRemoved) then None else Some (de_new d)
    | None => m !! p
    end.
Proof.
  induction ds as [|d ds IH] using rev_ind; intros m p Hn; [done|].
  rewrite map_app in Hn. apply NoDup_app in Hn as (Hn & Hd & _). rewrite fold_left_app. cbn [fold_left].
  assert (Hap : apply_entry (fold_left apply_entry ds m) d !! p =
    if decide (de_path d = p) then if bool_decide (de_kind d = kRemoved) then None else Some (de_new d)
    else fold_left apply_entry ds m !! p).
  { unfold apply_entry. destruct (decide (de_path d = p)) as [<-|Hne]; destruct (de_kind d); cbn [bool_decide];
      rewrite ?lookup_insert_eq, ?lookup_delete_eq; try done; by rewrite ?lookup_insert_ne, ?lookup_delete_ne. }
  rewrite Hap. clear Hap. destruct (decide (de_path d = p)) as [Hp|Hne].
  - rewrite list_find_app_r; [cbn; by rewrite decide_True|].
    apply list_find_None. apply Forall_forall. intros d' Hin Hp'. apply (Hd (de_path d')); [by apply list_elem_of_fmap_2|].
    rewrite Hp', <- Hp. cbn. left.
  - rewrite IH by done. destruct (list_find (fun d => de_path d = p) ds) as [[i e]|] eqn:E.
    + by rewrite (list_find_app_l _ _ _ _ _ E).
    + rewrite list_find_app_r by done. cbn. by rewrite decide_False.
Qed.

Lemma diff_patches a b : fold_left apply_entry (diff a b) (flat_index a) = flat_index b.
Proof.
  apply map_eq. intros p. rewrite apply_entries by apply NoDup_diff.
  destruct (list_find (fun d => de_path d = p) (diff a b)) as [[i d]|] eqn:E.
  - apply list_find_Some in E as (Hi & Hp & _). apply list_elem_of_lookup_2, elem_of_diff in Hi.
    unfold diff_entry_ok in Hi. destruct (de_kind d); rewrite Hp in Hi; cbn; symmetry; apply Hi.
  - apply list_find_None in E. rewrite Forall_forall in E.
    assert (Hno : forall d, de_path d = p -> ~ diff_entry_ok (flat_index a) (flat_index b) d).
    { intros d Hp Hd. apply elem_of_diff in Hd. by apply (E d). }
    destruct (flat_index a !! p) as [u|] eqn:Ea, (flat_index b !! p) as [v|] eqn:Eb; try done.
    + destruct (decide (u = v)) as [->|Hne]; [done|]. by destruct (Hno (MkDiff kChanged p u v)).
    + by destruct (Hno (MkDiff kRemoved p u [])).
    + by destruct (Hno (MkDiff kAdded p [] v)).
Qed.

(** ** Claims *)

(** C25. A difference says exactly what changed: an entry is listed if and only if its
    path is gone, new or has another value - with the last occurrence of a repeated
    path counting -, no path is listed twice, the list is empty just when nothing
    changed, applying it to the old view gives the new one, and removals come first,
    each part in the order of its document. *)
Theorem diff_correct (a b : list FlatEntry) :
  (forall d, d ∈ diff a b <-> diff_entry_ok (flat_index a) (flat_index b) d) /\
  NoDup (map de_path (diff a b)) /\
  (diff a b = [] <-> flat_index a = flat_index b) /\
  fold_left apply_entry (diff a b) (flat_index a) = flat_index b /\
  exists removed changed, diff a b = removed ++ changed /\
    Forall (fun d => de_kind d = kRemoved) removed /\ Forall (fun d => de_kind d <> kRemoved) changed /\
    sublist (map de_path removed) (map fe_path a) /\ sublist (map de_path changed) (map fe_path b).
Proof.
  split; [apply elem_of_diff|]. split; [apply NoDup_diff|]. split; [|split; [apply diff_patches|]].
  - split; intros H; [by rewrite <- (diff_patches a b), H|].
    destruct (diff a b) as [|d l] eqn:E; [done|]. assert (Hd : d ∈ diff a b) by (rewrite E; left).
    apply elem_of_diff in Hd. unfold diff_entry_ok in Hd. rewrite H in Hd. destruct (de_kind d); naive_solver congruence.
  - rewrite diff_eq. do 2 eexists. split; [reflexivity|]. split; [|split].
    + apply Forall_forall. intros d (p & _ & H)%list_elem_of_omap. apply (removed_path _ _ _ _ H).
    + apply Forall_forall. intros d (p & _ & H)%list_elem_of_omap. apply (added_path _ _ _ _ H).
    + split; (etransitivity; [apply omap_paths|apply firsts_sublist]);
        [intros p d H; apply (removed_path _ _ _ _ H)|intros p d H; apply (added_path _ _ _ _ H)].
Qed.

Example diff_sample :
  diff_documents [NAssignment [lit "x"] (VInt 1); NAssignment [lit "y"] (VStr (lit "1"))]
                 [NAssignment [lit "y"] (VInt 1); NAssignment [lit "z"] (VArray [])] =
  [MkDiff kRemoved (lit "x") (lit "1") []; MkDiff kChanged (lit "y") ([34] ++ lit "1" ++ [34]) (lit "1");
   MkDiff kAdded (lit "z") [] (lit "[]")].
Proof. vm_compute. reflexivity. Qed.
