(* ===== verification/CfgQuery.v ===== *)
(** * CfgQuery: looking values up and checking them

    [src/cfgscript/query.cpp] and [src/cfgscript/schema.cpp]: dotted-path queries over
    a document with their typed accessors, and schema validation on top of them. *)

From S2P Require Import Prelude Status CfgNumber CfgEval.
From Stdlib Require Import SpecFloat.

(** ** Paths *)

Inductive Step := StepName (name : bytes) | StepIndex (index : Z).

(** [value = value * 10 + digit] on a 64-bit [size_t], over the digits at [i]. *)
Fixpoint index_digits (path : bytes) (value : Z) (any : bool) : Z * bool * bytes :=
  match path with
  | c :: path' => if is_digit c then index_digits path' (u64 (value * 10 + (c - 48))) true else (value, any, path)
  | [] => (value, any, [])
  end.

Definition name_end (c : Z) : bool := (c =? 46) || (c =? 91).

(** The loop of [tokenize], on the characters that are left; every turn takes one. *)
Fixpoint tokenize_loop (turns : nat) (path : bytes) (out : list Step) : option (list Step) :=
  match turns with
  | O => None
  | S turns' =>
      match path with
      | [] => Some out
      | c :: path' =>
          if (c =? 46) && bool_decide (out = []) then None else
          match (if c =? 46 then path' else path) with
          | [] => None
          | c :: path' =>
              if c =? 91 then
                if bool_decide (out = []) then None else
                let '(value, any, rest) := index_digits path' 0 false in
                if negb any then None else
                match rest with
                | 93 :: rest' => tokenize_loop turns' rest' (out ++ [StepIndex value])
                | _ => None
                end
              else
                let '(name, rest) := split_while (fun c => negb (name_end c)) (c :: path') in
                if bool_decide (name = []) then None else tokenize_loop turns' rest (out ++ [StepName name])
          end
      end
  end.

Definition tokenize (path : bytes) : option (list Step) := tokenize_loop (S (length path)) path [].

(** ** Resolution *)

Definition find_field (fields : list (bytes * Value)) (name : bytes) : option Value :=
  snd <$> find (fun kv => bool_decide (kv.1 = name)) fields.

Fixpoint walk_value (current : Value) (steps : list Step) : option Value :=
  match steps with
  | [] => Some current
  | StepIndex i :: steps' =>
      match current with
      | VArray l => if i <? Z.of_nat (length l)
                    then match l !! Z.to_nat i with Some v => walk_value v steps' | None => None end
                    else None
      | _ => None
      end
  | StepName n :: steps' =>
      match current with
      | VObject l => match find_field l n with Some v => walk_value v steps' | None => None end
      | _ => None
      end
  end.

(** The steps an assignment's path leaves, when it matches. *)
Fixpoint match_path (path : list bytes) (steps : list Step) : option (list Step) :=
  match path with
  | [] => Some steps
  | component :: path' =>
      match steps with
      | StepName n :: steps' => if bool_decide (n = component) then match_path path' steps' else None
      | _ => None
      end
  end.

(** The second scan: the first assignment whose path matches decides. *)
Fixpoint find_assignment (nodes : list Node) (steps : list Step) : option Value :=
  match nodes with
  | [] => None
  | NAssignment path value :: nodes' =>
      if bool_decide (path = []) then find_assignment nodes' steps
      else match match_path path steps with
           | Some rest => walk_value value rest
           | None => find_assignment nodes' steps
           end
  | _ :: nodes' => find_assignment nodes' steps
  end.

(** [walk_nodes], following one step into blocks at a time. *)
Fixpoint walk_nodes (steps : list Step) (nodes : list Node) : option Value :=
  match steps with
  | [] | StepIndex _ :: _ => None
  | StepName name :: steps' =>
      match (fix blocks (l : list Node) : option Value :=
               match l with
               | [] => None
               | NBlock n _ children :: l' =>
                   if bool_decide (n = name)
                   then match walk_nodes steps' children with Some v => Some v | None => blocks l' end
                   else blocks l'
               | _ :: l' => blocks l'
               end) nodes with
      | Some v => Some v
      | None => find_assignment nodes steps
      end
  end.

Definition query (doc : Document) (path : bytes) : option Value :=
  match tokenize path with
  | Some (s :: steps) => walk_nodes (s :: steps) doc
  | _ => None
  end.

(** ** Typed access *)

(** A [QueryResult]: the value, when found. *)
Definition find (doc : Document) (path : bytes) : option Value := query doc path.

Definition as_int (r : option Value) (fallback : Z) : outcome Z :=
  match r with
  | Some (VInt i) => Ok i
  | Some (VFloat f) => int_of_double f
  | _ => Ok fallback
  end.
Definition query_as_double (r : option Value) (fallback : double) : double :=
  match r with Some (VFloat f) => f | Some (VInt i) => double_of_int i | _ => fallback end.
Definition as_bool (r : option Value) (fallback : bool) : bool :=
  match r with Some (VBool b) => b | _ => fallback end.
Definition as_string (r : option Value) (fallback : bytes) : bytes :=
  match r with Some (VStr s) => s | _ => fallback end.
Definition as_array (r : option Value) : list Value := match r with Some (VArray l) => l | _ => [] end.
Definition as_object (r : option Value) : list (bytes * Value) := match r with Some (VObject l) => l | _ => [] end.

(** ** Schemas *)

Record FieldRule := MkRule {
  rule_path : bytes;
  rule_type : ValueType;
  rule_required : bool;
  rule_min : option double;
  rule_max : option double;
  rule_allowed : list bytes;
}.

(** A schema under construction; bounds go to the rule added last. *)
Abbreviation Schema := (list FieldRule).

Definition add_rule (rule : FieldRule) (s : Schema) : Schema := s ++ [rule].
Definition schema_require (path : bytes) (t : ValueType) (s : Schema) : Schema := add_rule (MkRule path t true None None []) s.
Definition schema_optional (path : bytes) (t : ValueType) (s : Schema) : Schema := add_rule (MkRule path t false None None []) s.
Definition update_rule (f : FieldRule -> FieldRule) (s : Schema) : Schema :=
  match s with [] => [] | _ => alter f (length s - 1)%nat s end.
Definition schema_min (m : double) : Schema -> Schema :=
  update_rule (fun r => MkRule (rule_path r) (rule_type r) (rule_required r) (Some m) (rule_max r) (rule_allowed r)).
Definition schema_max (m : double) : Schema -> Schema :=
  update_rule (fun r => MkRule (rule_path r) (rule_type r) (rule_required r) (rule_min r) (Some m) (rule_allowed r)).
Definition schema_range (lo hi : double) : Schema -> Schema :=
  update_rule (fun r => MkRule (rule_path r) (rule_type r) (rule_required r) (Some lo) (Some hi) (rule_allowed r)).
Definition schema_enum_values (values : list bytes) : Schema -> Schema :=
  update_rule (fun r => MkRule (rule_path r) (rule_type r) (rule_required r) (rule_min r) (rule_max r) values).

Inductive ViolationKind := kMissingRequired | kTypeMismatch | kBelowMinimum | kAboveMaximum | kNotAllowed.

#[export] Instance ViolationKind_eq_dec : EqDecision ViolationKind.
Proof. solve_decision. Defined.

Definition violation_kind_name (k : ViolationKind) : string :=
  match k with
  | kMissingRequired => "missing-required" | kTypeMismatch => "type-mismatch"
  | kBelowMinimum => "below-minimum" | kAboveMaximum => "above-maximum" | kNotAllowed => "not-allowed"
  end.

Record Violation := MkViolation { v_kind : ViolationKind; v_path : bytes; v_message : bytes }.

Definition type_matches (v : Value) (expected : ValueType) : bool :=
  if bool_decide (value_type v = expected) then true
  else bool_decide (expected = ValueType.kFloat) && bool_decide (value_type v = ValueType.kInt).

Definition check_range (rule : FieldRule) (v : Value) : list Violation :=
  if negb (is_number v) then []
  else
    let n := as_double v in
    match rule_min rule with
    | Some m => if double_ltb n m
                then [MkViolation kBelowMinimum (rule_path rule)
                        (lit "value " ++ to_string_double n ++ lit " is below minimum " ++ to_string_double m)] else []
    | None => []
    end ++
    match rule_max rule with
    | Some m => if double_ltb m n
                then [MkViolation kAboveMaximum (rule_path rule)
                        (lit "value " ++ to_string_double n ++ lit " is above maximum " ++ to_string_double m)] else []
    | None => []
    end.

Definition check_allowed (rule : FieldRule) (v : Value) : list Violation :=
  match rule_allowed rule, v with
  | [], _ => []
  | allowed, VStr s =>
      if existsb (fun c => bool_decide (c = s)) allowed then []
      else [MkViolation kNotAllowed (rule_path rule) (lit "value " ++ [34] ++ s ++ [34] ++ lit " is not an allowed option")]
  | _, _ => []
  end.

(** One turn of the loop over the rules. *)
Definition check_rule (doc : Document) (rule : FieldRule) : list Violation :=
  match query doc (rule_path rule) with
  | None => if rule_required rule
            then [MkViolation kMissingRequired (rule_path rule) (lit "required path is absent")] else []
  | Some v =>
      if negb (type_matches v (rule_type rule))
      then [MkViolation kTypeMismatch (rule_path rule)
              (lit ("expected " +:+ value_type_name (rule_type rule) +:+ " but found " +:+ value_type_name (value_type v))%string)]
      else check_range rule v ++ check_allowed rule v
  end.

Definition validate (doc : Document) (schema : Schema) : list Violation :=
  fold_left (fun out rule => out ++ check_rule doc rule) schema [].

Example query_sample :
  match parse (lit "srv { ports = [80, 443]; t.limits = { max = 7; }; } srv.name = 1;") with
  | Ok doc => query doc (lit "srv.ports[1]") = Some (VInt 443) /\ query doc (lit "srv.t.limits.max") = Some (VInt 7) /\
              query doc (lit "srv.name") = Some (VInt 1) /\ query doc (lit "srv.ports[2]") = None /\ query doc (lit "srv..x") = None
  | _ => False
  end.
Proof. vm_compute. auto. Qed.

(** ** What a schema demands *)

Definition rule_holds (doc : Document) (rule : FieldRule) : Prop :=
  match query doc (rule_path rule) with
  | None => rule_required rule = false
  | Some v =>
      (value_type v = rule_type rule \/ (rule_type rule = ValueType.kFloat /\ value_type v = ValueType.kInt)) /\
      (is_number v = true ->
         (forall m, rule_min rule = Some m -> double_ltb (as_double v) m = false) /\
         (forall m, rule_max rule = Some m -> double_ltb m (as_double v) = false)) /\
      (forall s, v = VStr s -> rule_allowed rule <> [] -> s ∈ rule_allowed rule)
  end.

Lemma type_matches_spec v t :
  type_matches v t = true <-> value_type v = t \/ (t = ValueType.kFloat /\ value_type v = ValueType.kInt).
Proof.
  unfold type_matches. case_bool_decide; [tauto|]. rewrite andb_true_iff, !bool_decide_eq_true. tauto.
Qed.

Lemma check_range_nil rule v : check_range rule v = [] <->
  (is_number v = true ->
   (forall m, rule_min rule = Some m -> double_ltb (as_double v) m = false) /\
   (forall m, rule_max rule = Some m -> double_ltb m (as_double v) = false)).
Proof.
  unfold check_range. destruct (is_number v); cbn [negb]; [|by split]. rewrite app_nil.
  destruct (rule_min rule) as [lo|], (rule_max rule) as [hi|]; repeat case_bool; split; try naive_solver congruence.
Qed.

Lemma check_allowed_nil rule v : check_allowed rule v = [] <->
  (forall s, v = VStr s -> rule_allowed rule <> [] -> s ∈ rule_allowed rule).
Proof.
  unfold check_allowed. destruct (rule_allowed rule) as [|c l] eqn:E; [by split|].
  destruct v as [| | | |s| |]; try (by split; [intros _ s Hs|]).
  destruct (existsb _ _) eqn:Ex; (split; [|try done]).
  - intros _ s' [= <-] _. apply existsb_exists in Ex as (c' & Hin & Hc). apply bool_decide_eq_true in Hc as <-.
    by apply list_elem_of_In.
  - done.
  - intros H. exfalso. specialize (H s eq_refl ltac:(done)). apply list_elem_of_In in H.
    assert (existsb (fun c => bool_decide (c = s)) (c :: l) = true) as Ht; [|congruence].
    apply existsb_exists. exists s. split; [done|]. by apply bool_decide_eq_true.
Qed.

Lemma check_rule_nil doc rule : check_rule doc rule = [] <-> rule_holds doc rule.
Proof.
  unfold check_rule, rule_holds. destruct (query doc (rule_path rule)) as [v|]; [|by destruct (rule_required rule)].
  rewrite <- type_matches_spec. destruct (type_matches v (rule_type rule)); cbn [negb]; [|by split; [|intros [? _]]].
  rewrite app_nil, check_range_nil, check_allowed_nil. tauto.
Qed.

Lemma check_rule_path doc rule x : x ∈ check_rule doc rule -> v_path x = rule_path rule.
Proof.
  unfold check_rule, check_range, check_allowed. intros H.
  repeat (case_match; try (by apply elem_of_nil in H));
    rewrite ?elem_of_app, ?elem_of_cons, ?elem_of_nil in H; naive_solver.
Qed.

Lemma validate_concat doc schema : validate doc schema = concat (map (check_rule doc) schema).
Proof.
  unfold validate. rewrite <- (app_nil_l (concat _)). generalize (@nil Violation).
  induction schema as [|r l IH]; intros out; cbn [fold_left map concat]; [by rewrite app_nil_r|]. by rewrite IH, app_assoc.
Qed.

(** ** Claims *)

(** C26. Schema validation is exact: a document has no violation precisely when every
    rule holds of it - required paths present, types matching (an integer passes for a
    float), numbers within their bounds, strings among those allowed - and every
    violation names the path of a rule that does not hold. *)
Theorem schema_exact (doc : Document) (schema : Schema) :
  (validate doc schema = [] <-> forall rule, rule ∈ schema -> rule_holds doc rule) /\
  (forall x, x ∈ validate doc schema -> exists rule, rule ∈ schema /\ v_path x = rule_path rule /\ ~ rule_holds doc rule).
Proof.
  rewrite validate_concat. split.
  - split.
    + intros H rule Hin. apply check_rule_nil. apply (concat_nil_Forall (map (check_rule doc) schema)) in H.
      rewrite Forall_forall in H. apply H. by apply list_elem_of_fmap_2.
    + intros H. apply concat_nil_Forall, Forall_forall. intros l Hl. apply list_elem_of_fmap in Hl as (rule & -> & Hin).
      by apply check_rule_nil, H.
  - intros x Hx. apply list_elem_of_In, in_concat in Hx as (l & Hl & Hx). apply list_elem_of_In in Hl, Hx.
    apply list_elem_of_fmap in Hl as (rule & -> & Hin). exists rule. split; [done|].
    split; [by apply check_rule_path in Hx|]. rewrite <- check_rule_nil. intros E. rewrite E in Hx. by apply elem_of_nil in Hx.
Qed.

Definition sample_schema : Schema :=
  schema_enum_values [lit "fast"; lit "slow"] (schema_require (lit "srv.mode") ValueType.kStr
    (schema_range (double_of_int 1) (double_of_int 65535) (schema_require (lit "srv.port") ValueType.kInt []))).

Lemma schema_exact_witness :
  exists rule, rule ∈ sample_schema /\ rule_path rule = lit "srv.port" /\
    ~ rule_holds [NBlock (lit "srv") None [NAssignment [lit "port"] (VInt 70000)]] rule.
Proof.
  destruct (schema_exact [NBlock (lit "srv") None [NAssignment [lit "port"] (VInt 70000)]] sample_schema) as [_ H].
  destruct (H (MkViolation kAboveMaximum (lit "srv.port") (lit "value 70000.000000 is above maximum 65535.000000")))
    as (rule & Hin & Hp & Hn).
  - vm_compute. left.
  - exists rule. split; [exact Hin|]. split; [by rewrite <- Hp|exact Hn].
Defined.

(** ** Behaviours worth knowing *)

(** An index is read modulo 2^64: this one finds the first element. *)
Lemma query_index_wraps :
  query [NAssignment [lit "a"] (VArray [VInt 7])] (lit "a[18446744073709551616]") = Some (VInt 7).
Proof. vm_compute. reflexivity. Qed.

(** Converting a large float to an integer is undefined. *)
Lemma as_int_undefined : as_int (Some (VFloat (double_mul (double_of_int (2 ^ 62)) (double_of_int 2)))) 0 = UB.
Proof. vm_compute. reflexivity. Qed.

(** After a reassignment, a query still answers the first value. *)
Lemma query_finds_first :
  match parse (lit "a = 1; a = 2; b = a;") with
  | Ok doc => query doc (lit "a") = Some (VInt 1) /\ query doc (lit "b") = Some (VInt 2)
  | _ => False
  end.
Proof. vm_compute. auto. Qed.
