(* ===== verification/CfgLookup.v ===== *)
(** * CfgLookup: queries and flattened views agree

    [src/cfgscript/flatten.cpp] names every leaf of a document by a path text, and
    [src/cfgscript/query.cpp] resolves such texts. For documents whose names can be
    told apart, querying a flattened path finds the leaf it was made from. *)

From S2P Require Import Prelude Status CfgNumber CfgEval CfgSerializer CfgFlatten CfgQuery.

(** ** Paths as steps *)

Definition name_ok (n : bytes) : Prop := n <> [] /\ Forall (fun c => name_end c = false) n.

Definition step_ok (s : Step) : Prop :=
  match s with StepName n => name_ok n | StepIndex i => 0 <= i < 2 ^ 64 end.

Definition step_bytes (s : Step) : bytes :=
  match s with StepName n => 46 :: n | StepIndex i => 91 :: dec_bytes i ++ [93] end.
Definition steps_bytes (l : list Step) : bytes := concat (map step_bytes l).

(** The text of a path: the dot of its first name is left out. *)
Definition path_text (l : list Step) : bytes := drop 1 (steps_bytes l).

Lemma steps_bytes_app l k : steps_bytes (l ++ k) = steps_bytes l ++ steps_bytes k.
Proof. unfold steps_bytes. by rewrite map_app, concat_app. Qed.

Lemma path_text_app n l k : path_text ((StepName n :: l) ++ k) = path_text (StepName n :: l) ++ steps_bytes k.
Proof. unfold path_text. by rewrite steps_bytes_app. Qed.

Lemma split_while_app p l k : Forall (fun c => p c = true) l -> match k with c :: _ => p c = false | [] => True end ->
  split_while p (l ++ k) = (l, k).
Proof.
  intros Hl Hk. induction Hl as [|c l Hc Hl IH]; cbn [app split_while].
  - destruct k as [|c k]; [done|]. cbn. by rewrite Hk.
  - rewrite Hc. fold (split_while p). by rewrite IH.
Qed.

Lemma index_digits_app ds : forall v any rest, digits_ok ds -> match rest with c :: _ => is_digit c = false | [] => True end ->
  0 <= v -> v * 10 ^ Z.of_nat (length ds) + dec_val ds < 2 ^ 64 ->
  index_digits (ds ++ rest) v any = (v * 10 ^ Z.of_nat (length ds) + dec_val ds, any || negb (bool_decide (ds = [])), rest).
Proof.
  induction ds as [|d ds IH]; intros v any rest Hd Hr Hv Hb.
  - cbn in *. rewrite orb_false_r. destruct rest as [|c rest]; [by rewrite Z.mul_1_r, Z.add_0_r|]. cbn. rewrite Hr.
    by rewrite Z.mul_1_r, Z.add_0_r.
  - apply Forall_cons in Hd as [H1 H2]. cbn [app index_digits]. rewrite H1.
    pose proof (dec_val_app [d] ds) as E. cbn [app] in E. change (dec_val [d]) with (d - 48) in E. rewrite E in *.
    cbn [length] in *. rewrite Nat2Z.inj_succ, Z.pow_succ_r in * by lia.
    pose proof (dec_val_nonneg ds H2). unfold is_digit in H1. reflect_bools.
    assert (1 <= 10 ^ Z.of_nat (length ds)) by (pose proof (Z.pow_pos_nonneg 10 (Z.of_nat (length ds))); lia).
    assert (Hu : u64 (v * 10 + (d - 48)) = v * 10 + (d - 48)) by (unfold u64; rewrite Z.mod_small; [done|nia]).
    rewrite Hu, IH by (done || nia). rewrite (bool_decide_eq_false_2 (d :: ds = [])), orb_true_r by done. cbn [orb]. do 2 f_equal. lia.
Qed.

Lemma tokenize_steps l : forall turns out, Forall step_ok l -> out <> [] -> (length (steps_bytes l) < turns)%nat ->
  tokenize_loop turns (steps_bytes l) out = Some (out ++ l).
Proof.
  induction l as [|s l IH]; intros turns out Hl Ho Ht.
  { destruct turns; [cbn in Ht; lia|]. cbn. by rewrite app_nil_r. }
  apply Forall_cons in Hl as [Hs Hl]. destruct turns as [|turns]; [cbn in Ht; lia|].
  assert (Hstop : forall p, p 46 = false -> p 91 = false -> match steps_bytes l with c :: _ => p c = false | [] => True end).
  { intros p H1 H2. destruct l as [|[n|i] l']; done. }
  change (steps_bytes (s :: l)) with (step_bytes s ++ steps_bytes l) in *. rewrite length_app in Ht.
  destruct s as [n|i]; cbn [step_bytes app] in *.
  - cbn [tokenize_loop]. change (46 =? 46) with true. rewrite (bool_decide_eq_false_2 _ Ho). cbn [andb].
    destruct Hs as [Hne Hn]. destruct n as [|c n]; [done|]. cbn [app].
    pose proof (proj1 (Forall_cons _ _ _) Hn) as [Hc _]. unfold name_end in Hc. apply orb_false_elim in Hc as [_ Hc]. rewrite Hc.
    change (c :: n ++ steps_bytes l) with ((c :: n) ++ steps_bytes l). rewrite split_while_app.
    + rewrite (bool_decide_eq_false_2 (_ = [])) by done. rewrite IH; [by rewrite <- app_assoc|done|by destruct out|cbn in Ht; lia].
    + eapply Forall_impl; [exact Hn|]. by intros x ->.
    + by apply Hstop.
  - cbn [tokenize_loop]. change (91 =? 46) with false. cbn [andb]. change (91 =? 91) with true.
    rewrite (bool_decide_eq_false_2 _ Ho). rewrite <- app_assoc. cbn [app].
    destruct (dec_bytes_spec i) as (H1 & H2 & H3); [cbn in Hs; lia|].
    rewrite index_digits_app; [|done|done|lia|rewrite H2; cbn in Hs; lia].
    rewrite (bool_decide_eq_false_2 _ H3), H2. cbn [negb orb]. rewrite Z.mul_0_l, Z.add_0_l. cbv beta iota. cbn [app].
    rewrite IH; [by rewrite <- app_assoc|done|by destruct out|]. cbn in Ht. rewrite length_app in Ht. lia.
Qed.

(** A path text is read back as its steps. *)
Lemma tokenize_path n l : name_ok n -> Forall step_ok l -> tokenize (path_text (StepName n :: l)) = Some (StepName n :: l).
Proof.
  intros [Hne Hn] Hl. unfold tokenize, path_text. change (drop 1 (steps_bytes (StepName n :: l))) with (n ++ steps_bytes l).
  assert (Ht : (length (n ++ steps_bytes l) <= length (n ++ steps_bytes l))%nat) by done. revert Ht.
  generalize (length (n ++ steps_bytes l)) at 2 3. intros turns Ht.
  destruct n as [|c n]; [done|]. cbn [app tokenize_loop].
  pose proof (proj1 (Forall_cons _ _ _) Hn) as [Hc _]. unfold name_end in Hc. apply orb_false_elim in Hc as [Hc1 Hc2]. rewrite Hc1, Hc2.
  cbn [andb]. change (c :: n ++ steps_bytes l) with ((c :: n) ++ steps_bytes l). rewrite split_while_app.
  - rewrite (bool_decide_eq_false_2 (_ = [])) by done. rewrite tokenize_steps; [done|done|done|].
    cbn in Ht. rewrite length_app in Ht. lia.
  - eapply Forall_impl; [exact Hn|]. by intros x ->.
  - destruct l as [|[m|i] l']; done.
Qed.

(** ** Leaves of a value *)

(** Names that can be told apart: object keys without dots or brackets, each once. *)
Fixpoint plain_value (v : Value) : Prop :=
  match v with
  | VArray l => Z.of_nat (length l) <= 2 ^ 64 /\ fold_right (fun x P => plain_value x /\ P) True l
  | VObject l => NoDup l.*1 /\ fold_right (fun x P => (name_ok x.1 /\ plain_value x.2) /\ P) True l
  | _ => True
  end.

Definition flatten_items (prefix : bytes) : nat -> list Value -> list FlatEntry :=
  fix go k l := match l with [] => [] | x :: l' => flatten_value (join_index prefix k) x ++ go (S k) l' end.
Definition flatten_fields (prefix : bytes) : list (bytes * Value) -> list FlatEntry :=
  fix go l := match l with [] => [] | (k, x) :: l' => flatten_value (join_path prefix k) x ++ go l' end.

(** [e] is the leaf of [v] that the steps [ps ++ ss] name. *)
Definition leaf_of (ps : list Step) (v : Value) (e : FlatEntry) : Prop :=
  exists ss leaf, Forall step_ok ss /\ fe_path e = path_text (ps ++ ss) /\
    walk_value v ss = Some leaf /\ fe_value e = render_scalar leaf.

Lemma leaf_here ps v : Forall (leaf_of ps v) [MkFlat (path_text ps) (render_scalar v)].
Proof.
  apply Forall_cons. split; [|by apply Forall_nil]. exists [], v. rewrite app_nil_r. split; [by apply Forall_nil|done].
Qed.

(** One step into the value. *)
Lemma leaf_step ps v s x l : step_ok s -> walk_value v [s] = Some x -> (forall ss, walk_value v (s :: ss) = walk_value x ss) ->
  Forall (leaf_of (ps ++ [s]) x) l -> Forall (leaf_of ps v) l.
Proof.
  intros Hs _ Hw Hl. eapply Forall_impl; [exact Hl|]. intros e (ss & leaf & H1 & H2 & H3 & H4).
  exists (s :: ss), leaf. split; [by apply Forall_cons|]. split; [by rewrite H2, <- app_assoc|]. by rewrite Hw.
Qed.

Lemma join_index_text n l k : join_index (path_text (StepName n :: l)) k = path_text ((StepName n :: l) ++ [StepIndex (Z.of_nat k)]).
Proof.
  rewrite path_text_app. unfold join_index, steps_bytes, to_string_int. rewrite (proj2 (Z.ltb_ge _ _)) by lia. cbn.
  by rewrite app_nil_r.
Qed.

Lemma join_path_text ps n m : name_ok n -> join_path (path_text (StepName n :: ps)) m = path_text ((StepName n :: ps) ++ [StepName m]).
Proof.
  intros [Hn _]. rewrite path_text_app. unfold join_path. rewrite bool_decide_eq_false_2; [by unfold steps_bytes; cbn; rewrite app_nil_r|].
  unfold path_text. change (drop 1 (steps_bytes (StepName n :: ps))) with (n ++ steps_bytes ps). by destruct n.
Qed.

Lemma find_field_nth l : forall i k x, NoDup l.*1 -> l !! i = Some (k, x) -> find_field l k = Some x.
Proof.
  unfold find_field. induction l as [|[k' y] l IH]; intros i k x Hn Hi; [done|]. cbn [List.find].
  rewrite fmap_cons, NoDup_cons in Hn. destruct Hn as [Hk Hn]. destruct i as [|i]; cbn in Hi.
  - injection Hi as -> ->. cbn [fst]. by rewrite bool_decide_eq_true_2.
  - change ((k', y).1) with k'. rewrite bool_decide_eq_false_2; [by apply (IH i k x Hn Hi)|]. intros ->. apply Hk.
    apply list_elem_of_fmap. exists (k, x). split; [done|]. exact (list_elem_of_lookup_2 l i (k, x) Hi).
Qed.

Lemma flatten_value_leaves v : forall n ps, name_ok n -> plain_value v ->
  Forall (leaf_of (StepName n :: ps) v) (flatten_value (path_text (StepName n :: ps)) v).
Proof.
  induction v as [|b|i|f|s|l IH|l IH] using value_nested_ind; intros n ps Hn Hp; try apply leaf_here.
  - cbn [flatten_value]. case_bool_decide as E; [destruct l; [apply leaf_here|done]|]. clear E.
    fold (flatten_items (path_text (StepName n :: ps))). destruct Hp as [Hlen Hp]. apply CfgParser.fold_right_Forall_iff in Hp.
    assert (Hgo : forall k, (k <= length l)%nat -> Forall (leaf_of (StepName n :: ps) (VArray l)) (flatten_items (path_text (StepName n :: ps)) k (drop k l))).
    { intros k Hk. remember (drop k l) as tl eqn:Etl. revert k Hk Etl. induction tl as [|x tl IHt]; intros k Hk Etl; [by apply Forall_nil|].
      assert (Hx : l !! k = Some x) by (rewrite <- (Nat.add_0_r k), <- lookup_drop, <- Etl; done).
      pose proof (lookup_lt_Some _ _ _ Hx) as Hlt. cbn [flatten_items]. fold (flatten_items (path_text (StepName n :: ps))).
      apply Forall_app. split.
      - rewrite join_index_text. apply (leaf_step _ _ (StepIndex (Z.of_nat k)) x); cbn [walk_value step_ok].
        + lia.
        + rewrite (proj2 (Z.ltb_lt _ _)), Nat2Z.id, Hx by lia. done.
        + intros ss. rewrite (proj2 (Z.ltb_lt _ _)), Nat2Z.id, Hx by lia. done.
        + rewrite Forall_forall in IH, Hp. pose proof (list_elem_of_lookup_2 _ _ _ Hx). by apply IH; [|auto|auto].
      - apply IHt; [lia|]. rewrite (drop_S _ _ _ Hx) in Etl. by injection Etl. }
    specialize (Hgo 0%nat ltac:(lia)). by rewrite drop_0 in Hgo.
  - cbn [flatten_value]. case_bool_decide as E; [destruct l; [apply leaf_here|done]|]. clear E.
    fold (flatten_fields (path_text (StepName n :: ps))). destruct Hp as [Hnd Hp].
    apply (CfgParser.fold_right_Forall_iff (fun x => name_ok x.1 /\ plain_value x.2)) in Hp.
    assert (Hgo : forall k, (k <= length l)%nat -> Forall (leaf_of (StepName n :: ps) (VObject l)) (flatten_fields (path_text (StepName n :: ps)) (drop k l))).
    { intros k Hk. remember (drop k l) as tl eqn:Etl. revert k Hk Etl. induction tl as [|[key x] tl IHt]; intros k Hk Etl; [by apply Forall_nil|].
      assert (Hx : l !! k = Some (key, x)) by (rewrite <- (Nat.add_0_r k), <- lookup_drop, <- Etl; done).
      pose proof (lookup_lt_Some _ _ _ Hx) as Hlt. cbn [flatten_fields]. fold (flatten_fields (path_text (StepName n :: ps))).
      rewrite Forall_forall in IH, Hp. pose proof (list_elem_of_lookup_2 _ _ _ Hx) as Hin. destruct (Hp _ Hin) as [Hkey Hpx].
      apply Forall_app. split.
      - rewrite join_path_text by done. apply (leaf_step _ _ (StepName key) x); cbn [walk_value step_ok]; [done|..].
        + by rewrite (find_field_nth l k key x).
        + intros ss. by rewrite (find_field_nth l k key x).
        + by apply (IH _ Hin).
      - apply (IHt (S k)); [lia|]. rewrite (drop_S _ _ _ Hx) in Etl. by injection Etl. }
    specialize (Hgo 0%nat ltac:(lia)). by rewrite drop_0 in Hgo.
Qed.

(** ** Leaves of a document *)

(** The names by which a node is addressed among its siblings. *)
Definition node_key (n : Node) : list bytes :=
  match n with NAssignment p _ => p | NBlock name _ _ => [name] | NInclude _ => [] end.

(** No sibling's name is another one's, or the start of it. *)
Definition siblings_apart (ns : list Node) : Prop :=
  forall i j a b, ns !! i = Some a -> ns !! j = Some b -> node_key a `prefix_of` node_key b -> i = j.

(** Documents whose every leaf has a path of its own that queries can spell: no
    includes, no labels, names without dots and brackets, nothing assigned twice. *)
Fixpoint plain_node (n : Node) : Prop :=
  match n with
  | NAssignment p v => p <> [] /\ Forall name_ok p /\ plain_value v
  | NBlock name None cs => name_ok name /\ siblings_apart cs /\ fold_right (fun x P => plain_node x /\ P) True cs
  | _ => False
  end.
Definition plain_nodes (ns : list Node) : Prop := siblings_apart ns /\ Forall plain_node ns.

Definition starts_named (ps : list Step) : Prop :=
  match ps with [] => True | StepName n :: _ => name_ok n | StepIndex _ :: _ => False end.

Lemma join_path_steps ps m : starts_named ps -> join_path (path_text ps) m = path_text (ps ++ [StepName m]).
Proof.
  destruct ps as [|[n|i] ps]; intros H; [by cbn; rewrite app_nil_r|by apply join_path_text|done].
Qed.

Lemma starts_named_app ps k : ps <> [] -> starts_named ps -> starts_named (ps ++ k).
Proof. by destruct ps. Qed.

Lemma join_path_list p : forall ps, starts_named ps -> Forall name_ok p ->
  fold_left join_path p (path_text ps) = path_text (ps ++ map StepName p).
Proof.
  induction p as [|m p IH]; intros ps Hs Hp; [by rewrite app_nil_r|]. apply Forall_cons in Hp as [H1 H2].
  cbn [fold_left map]. rewrite join_path_steps, IH, <- app_assoc by (done || by destruct ps). done.
Qed.

Definition blocks_loop (name : bytes) (steps : list Step) : list Node -> option Value :=
  fix blocks (l : list Node) : option Value :=
    match l with
    | [] => None
    | NBlock n _ children :: l' =>
        if bool_decide (n = name)
        then match walk_nodes steps children with Some v => Some v | None => blocks l' end
        else blocks l'
    | _ :: l' => blocks l'
    end.

Lemma walk_nodes_name name steps ns : walk_nodes (StepName name :: steps) ns =
  match blocks_loop name steps ns with Some v => Some v | None => find_assignment ns (StepName name :: steps) end.
Proof. done. Qed.

Lemma siblings_apart_tail a ns : siblings_apart (a :: ns) -> siblings_apart ns.
Proof. intros H i j x y Hi Hj Hp. by injection (H (S i) (S j) x y Hi Hj Hp). Qed.

(** A sibling's key differs from the first one's. *)
Lemma siblings_apart_head a ns b : siblings_apart (a :: ns) -> b ∈ ns ->
  ~ node_key a `prefix_of` node_key b /\ ~ node_key b `prefix_of` node_key a.
Proof. intros H [i Hi]%list_elem_of_lookup_1. split; intros Hp; [by specialize (H 0%nat (S i) a b eq_refl Hi Hp)|by specialize (H (S i) 0%nat b a Hi eq_refl Hp)]. Qed.

Lemma blocks_loop_none name steps ns : (forall l cs, NBlock name l cs ∉ ns) -> blocks_loop name steps ns = None.
Proof.
  induction ns as [|n ns IH]; intros H; [done|].
  assert (Hns : blocks_loop name steps ns = None) by (apply IH; intros l cs Hm; apply (H l cs); by right).
  destruct n as [p v|m l cs|p]; cbn [blocks_loop]; [done| |done].
  rewrite bool_decide_eq_false_2; [done|]. intros ->. apply (H l cs). left.
Qed.

Lemma blocks_loop_found name steps ns cs v : siblings_apart ns -> NBlock name None cs ∈ ns -> walk_nodes steps cs = Some v ->
  blocks_loop name steps ns = Some v.
Proof.
  induction ns as [|n ns IH]; intros Ha Hin Hv; [by apply elem_of_nil in Hin|].
  apply elem_of_cons in Hin as [<-|Hin]; [cbn [blocks_loop]; by rewrite bool_decide_eq_true_2, Hv|].
  pose proof (siblings_apart_head _ _ _ Ha Hin) as [Hh _]. apply siblings_apart_tail in Ha. specialize (IH Ha Hin Hv).
  destruct n as [p w|m l ds|p]; cbn [blocks_loop]; [done| |done].
  rewrite bool_decide_eq_false_2; [done|]. intros ->. by apply Hh.
Qed.

Lemma match_path_names p ss : match_path p (map StepName p ++ ss) = Some ss.
Proof. induction p as [|n p IH]; [done|]. cbn [map app match_path]. by rewrite bool_decide_eq_true_2. Qed.

Lemma match_path_apart q : forall p ss, ~ q `prefix_of` p -> ~ p `prefix_of` q -> match_path q (map StepName p ++ ss) = None.
Proof.
  induction q as [|m q IH]; intros p ss H1 H2; [by destruct H1; apply prefix_nil|].
  destruct p as [|n p]; [by destruct H2; apply prefix_nil|]. cbn [map app match_path].
  case_bool_decide as E; [subst|done]. apply IH; intros Hp; [apply H1|apply H2]; by apply prefix_cons.
Qed.

Lemma find_assignment_here ns p v ss : siblings_apart ns -> p <> [] -> NAssignment p v ∈ ns ->
  find_assignment ns (map StepName p ++ ss) = walk_value v ss.
Proof.
  induction ns as [|n ns IH]; intros Ha Hp Hin; [by apply elem_of_nil in Hin|].
  apply elem_of_cons in Hin as [<-|Hin].
  { cbn [find_assignment]. by rewrite bool_decide_eq_false_2, match_path_names. }
  pose proof (siblings_apart_head _ _ _ Ha Hin) as [H1 H2]. apply siblings_apart_tail in Ha. specialize (IH Ha Hp Hin).
  destruct n as [q w|m l ds|q]; cbn [find_assignment]; [|done..].
  case_bool_decide; [done|]. by rewrite match_path_apart.
Qed.

(** Walking to an assignment among its siblings. *)
Lemma walk_assignment ns p v ss : siblings_apart ns -> p <> [] -> NAssignment p v ∈ ns ->
  walk_nodes (map StepName p ++ ss) ns = walk_value v ss.
Proof.
  intros Ha Hp Hin. destruct p as [|name q]; [done|]. cbn [map app]. rewrite walk_nodes_name, blocks_loop_none.
  - exact (find_assignment_here ns (name :: q) v ss Ha Hp Hin).
  - intros l cs [j Hj]%list_elem_of_lookup_1. apply list_elem_of_lookup_1 in Hin as [i Hi].
    assert (Hij : j = i) by (apply (Ha j i _ _ Hj Hi); by exists q). subst j. by rewrite Hi in Hj.
Qed.

(** [e] is the leaf that the steps [ps ++ ss] name, through the node [n]. *)
Definition node_leaf_of (ps : list Step) (n : Node) (e : FlatEntry) : Prop :=
  exists ss leaf, Forall step_ok ss /\ starts_named ss /\ ss <> [] /\ fe_path e = path_text (ps ++ ss) /\
    (forall ns, siblings_apart ns -> n ∈ ns -> walk_nodes ss ns = Some leaf) /\ fe_value e = render_scalar leaf.

Lemma map_steps_ok p : Forall name_ok p -> Forall step_ok (map StepName p).
Proof. intros H. apply Forall_map. by eapply Forall_impl; [exact H|]. Qed.

Lemma flatten_node_leaves n : forall ps, starts_named ps -> plain_node n ->
  Forall (node_leaf_of ps n) (flatten_node (path_text ps) n).
Proof.
  induction n as [p v|name label cs IH|p] using node_nested_ind; intros ps Hs Hn; [| |done].
  - destruct Hn as (Hp & Hpn & Hv). cbn [flatten_node]. rewrite join_path_list by done.
    assert (Hhead : exists m qs, ps ++ map StepName p = StepName m :: qs /\ name_ok m).
    { destruct ps as [|[m|i] ps]; [|by eexists _, _|done]. destruct p as [|m p]; [done|]. apply Forall_cons in Hpn as [Hm _]. by eexists _, _. }
    destruct Hhead as (m & qs & E & Hm). rewrite E. eapply Forall_impl; [by apply flatten_value_leaves|].
    intros e (ss & leaf & H1 & H2 & H3 & H4). exists (map StepName p ++ ss), leaf.
    split; [apply Forall_app; split; [by apply map_steps_ok|done]|].
    split; [destruct p as [|k p]; [done|]; apply Forall_cons in Hpn as [Hk _]; exact Hk|].
    split; [by destruct p|]. split; [by rewrite app_assoc, E|]. split; [|done].
    intros ns Ha Hin. by rewrite (walk_assignment ns p v).
  - destruct label as [l|]; [done|]. destruct Hn as (Hname & Ha & Hcs). apply CfgParser.fold_right_Forall_iff in Hcs.
    cbn [flatten_node]. unfold block_prefix. rewrite join_path_steps by done.
    apply Forall_concat, Forall_map, Forall_forall. intros c Hc. rewrite Forall_forall in IH, Hcs.
    eapply Forall_impl; [apply (IH c Hc); [|by apply Hcs]|].
    { by destruct ps. }
    intros e (ss & leaf & H1 & H2 & Hne & H3 & H4 & H5). exists (StepName name :: ss), leaf.
    split; [by apply Forall_cons|]. split; [done|]. split; [done|]. split; [by rewrite H3, <- app_assoc|]. split; [|done].
    intros ns Hns Hin. rewrite walk_nodes_name. by rewrite (blocks_loop_found name ss ns cs leaf Hns Hin (H4 cs Ha Hc)).
Qed.

(** ** Claim *)

(** C24. The flattened view and queries agree: in a document whose names can be told
    apart, querying the path of any flattened entry finds the leaf of the document
    that the entry's value renders. *)
Theorem query_finds_flattened (doc : Document) (e : FlatEntry) :
  plain_nodes doc -> e ∈ flatten doc ->
  exists leaf, query doc (fe_path e) = Some leaf /\ fe_value e = render_scalar leaf.
Proof.
  intros [Ha Hd] Hin. unfold flatten, flatten_nodes in Hin. apply list_elem_of_In, in_concat in Hin as (l & Hl & Hin).
  apply list_elem_of_In, list_elem_of_fmap in Hl as (n & -> & Hn). apply list_elem_of_In in Hin.
  rewrite Forall_forall in Hd. pose proof (flatten_node_leaves n [] I (Hd n Hn)) as Hl. rewrite Forall_forall in Hl.
  destruct (Hl e Hin) as (ss & leaf & H1 & H2 & H3 & H4 & H5 & H6). exists leaf. split; [|done].
  unfold query. rewrite H4. cbn [app]. destruct ss as [|[m|i] ss]; [done| |done]. apply Forall_cons in H1 as [_ H1].
  rewrite tokenize_path by done. by apply H5.
Qed.

Definition lookup_sample : Document :=
  [NAssignment [lit "a"; lit "b"] (VArray [VInt 1; VObject [(lit "k", VStr (lit "x"))]]);
   NBlock (lit "srv") None [NAssignment [lit "a"] (VBool true)]].

Lemma query_finds_flattened_witness :
  flatten lookup_sample = [MkFlat (lit "a.b[0]") (lit "1"); MkFlat (lit "a.b[1].k") ([34] ++ lit "x" ++ [34]); MkFlat (lit "srv.a") (lit "true")] /\
  exists leaf, query lookup_sample (lit "a.b[1].k") = Some leaf /\ [34] ++ lit "x" ++ [34] = render_scalar leaf.
Proof.
  split; [vm_compute; reflexivity|].
  apply (query_finds_flattened lookup_sample (MkFlat (lit "a.b[1].k") ([34] ++ lit "x" ++ [34]))).
  - assert (Hk : forall s, negb (bool_decide (s = [])) && forallb (fun c => negb (name_end c)) s = true -> name_ok s).
    { intros s [H1 H2]%andb_true_iff. apply negb_true_iff, bool_decide_eq_false in H1. split; [done|].
      apply Forall_forall. intros c Hc. apply list_elem_of_In in Hc. apply forallb_forall with (x := c) in H2; [|done]. by apply negb_true_iff in H2. }
    split.
    + intros [|[|i]] [|[|j]] a b Hi Hj Hp; cbn in Hi, Hj; try done; injection Hi as <-; injection Hj as <-; apply prefix_cons_inv_1 in Hp; discriminate Hp.
    + apply Forall_cons. split; [|apply Forall_cons; split; [|by apply Forall_nil]].
      * split; [done|]. split; [apply Forall_cons; split; [by apply Hk|apply Forall_cons; split; [by apply Hk|by apply Forall_nil]]|].
        split; [done|]. split; [done|]. split; [|done]. split; [apply NoDup_singleton|]. split; [|done]. split; [by apply Hk|done].
      * split; [by apply Hk|]. split; [by intros [|i] [|j] a b Hi Hj Hp|]. split; [|done]. split; [done|]. split; [|done].
        apply Forall_cons. split; [by apply Hk|by apply Forall_nil].
  - vm_compute. right. left.
Defined.
