(* ===== verification/CfgTokens.v ===== *)
(** * CfgTokens: the scanner on well-spaced text

    A relation between a text and the tokens it spells, and the theorem that the
    scanner of [CfgLexer] reads exactly those tokens. It is stated on the input that
    is left of the cursor, so that the text of a document can be read piece by piece. *)

From S2P Require Import Prelude Status Stateful CfgNumber CfgLexer Hexdump CfgSerializer.

(** ** The input that is left *)

Lemma lx_at_end_rest l : lx_at_end l = match lx_rest l with [] => true | _ => false end.
Proof.
  unfold lx_at_end, lx_rest. destruct (Nat.leb_spec (length (lx_data l)) (lx_pos l)) as [H|H].
  - by rewrite drop_ge.
  - destruct (drop (lx_pos l) (lx_data l)) eqn:E; [|done]. apply (f_equal length) in E. rewrite length_drop in E. cbn in E. lia.
Qed.

Lemma lx_peek_rest n l : lx_peek n l = default 0 (lx_rest l !! n).
Proof. unfold lx_peek, lx_rest. by rewrite lookup_drop. Qed.

(** What the cursor sees when the input that is left is [c :: w]. *)
Lemma lx_rest_head l c w : lx_rest l = c :: w -> lx_at_end l = false /\ lx_peek 0 l = c /\ lx_peek 1 l = default 0 (w !! 0%nat).
Proof. intros E. by rewrite lx_at_end_rest, !lx_peek_rest, E. Qed.

Lemma advance_rest l c w : lx_ok l -> lx_rest l = c :: w -> exists l', advance l = Ok (c, l') /\ lx_after l [c] l' /\ lx_rest l' = w.
Proof.
  intros Hl E. destruct (lx_rest_head _ _ _ E) as (He & Hp & _). apply lx_at_end_false in He.
  destruct (advance_after l Hl He) as (l' & E1 & H1). rewrite Hp in *. exists l'. split; [done|]. split; [done|].
  destruct H1 as (_ & _ & _ & H1). rewrite E in H1. by injection H1.
Qed.

Lemma bind_ok {S A B} (m : St S A) (f : A -> St S B) s a s' : m s = Ok (a, s') -> st_bind m f s = f a s'.
Proof. intros H. unfold st_bind. by rewrite H. Qed.

Lemma bind_get {S A B} (g : S -> A) (f : A -> St S B) s : st_bind (st_get g) f s = f (g s) s.
Proof. done. Qed.

(** The next byte, if any, is outside [p]. *)
Definition head_not (p : Z -> bool) (w : bytes) : Prop := match w with c :: _ => p c = false | [] => True end.

Lemma span_unique p : forall w1 r1 w2 r2, w1 ++ r1 = w2 ++ r2 -> Forall (fun c => p c = true) w1 -> Forall (fun c => p c = true) w2 ->
  head_not p r1 -> head_not p r2 -> w1 = w2 /\ r1 = r2.
Proof.
  intros w1. induction w1 as [|c w1 IH]; intros r1 [|d w2] r2 E H1 H2 Hr1 Hr2; cbn in E.
  - done.
  - subst r1. apply Forall_cons in H2 as [H2 _]. cbn in Hr1. congruence.
  - subst r2. apply Forall_cons in H1 as [H1 _]. cbn in Hr2. congruence.
  - injection E as <- E. apply Forall_cons in H1 as [_ H1], H2 as [_ H2].
    by destruct (IH r1 w2 r2 E H1 H2 Hr1 Hr2) as [-> ->].
Qed.

Lemma skip_while_exact p l w r : lx_ok l -> lx_rest l = w ++ r -> Forall (fun c => p c = true) w -> head_not p r ->
  exists l', skip_while p l = Ok (tt, l') /\ lx_after l w l' /\ lx_rest l' = r.
Proof.
  intros Hl E Hw Hr. destruct (skip_while_spec p l Hl) as (l' & w' & E1 & H1 & Hw' & Hs). exists l'.
  assert (Hn : head_not p (lx_rest l')).
  { rewrite lx_at_end_rest, lx_peek_rest in Hs. destruct (lx_rest l') as [|c k]; [done|]. cbn in Hs |- *. by destruct Hs. }
  destruct (span_unique p w' (lx_rest l') w r) as [-> Er]; try done. destruct H1 as (_ & _ & _ & H1). by rewrite <- H1.
Qed.

(** The lexeme between two cursor positions. *)
Lemma lexeme_after l w l' : lx_after l w l' -> lexeme_from (lx_pos l) l' = Ok (w, l').
Proof.
  intros ([Hp Hb] & D & P & E). unfold lexeme_from, copy_range. rewrite (proj2 (Nat.leb_le _ _)) by lia. cbn [obind].
  rewrite P. replace (lx_pos l + length w - lx_pos l)%nat with (length w) by lia.
  unfold lx_rest in E at 1. by rewrite D, E, take_app_length.
Qed.

(** ** Trivia *)

Lemma trivia_loop_blank ws : forall turns l r, lx_ok l -> lx_rest l = ws ++ r -> Forall (fun c => is_space c = true) ws ->
  head_not (fun c => is_space c || (c =? 35) || (c =? 47)) r -> (length ws < turns)%nat ->
  exists l', trivia_loop turns l = Ok (tt, l') /\ lx_after l ws l' /\ lx_rest l' = r.
Proof.
  induction ws as [|c ws IH]; intros turns l r Hl E Hw Hr Ht; (destruct turns as [|turns]; [cbn in Ht; lia|]); cbn [trivia_loop].
  - exists l. split; [|by split; [apply lx_after_nil|]]. destruct r as [|c r]; [by rewrite lx_at_end_rest, E|].
    destruct (lx_rest_head _ _ _ E) as (-> & -> & _). cbn in Hr. apply orb_false_elim in Hr as [Hr H47]. apply orb_false_elim in Hr as [H32 H35].
    by rewrite H32, H35, H47.
  - apply Forall_cons in Hw as [Hc Hw]. destruct (lx_rest_head _ _ _ E) as (-> & -> & _). rewrite Hc.
    destruct (advance_rest l c (ws ++ r) Hl E) as (l1 & E1 & H1 & Er). rewrite (bind_ok _ _ _ _ _ E1).
    destruct (IH turns l1 r) as (l2 & E2 & H2 & Er2); [apply H1|done|done|done|cbn in Ht; lia|].
    exists l2. split; [done|]. split; [exact (lx_after_trans _ _ _ _ _ H1 H2)|done].
Qed.

(** ** Words *)

Lemma lex_word l w r : lx_ok l -> lx_rest l = w ++ r -> is_word w -> head_not is_ident_part r ->
  exists l', lex_ident_or_keyword l = Ok (text_token (keyword_kind w) (lx_offset l) w, l') /\ lx_after l w l' /\ lx_rest l' = r.
Proof.
  intros Hl E Hw Hr. destruct w as [|c w]; [done|]. destruct Hw as [_ Hw].
  destruct (skip_while_exact is_ident_part l (c :: w) r Hl E Hw Hr) as (l' & E1 & H1 & Er).
  exists l'. split; [|done]. unfold lex_ident_or_keyword. rewrite bind_get, (bind_ok _ _ _ _ _ E1), (bind_ok _ _ _ _ _ (lexeme_after _ _ _ H1)). done.
Qed.

(** ** Numbers *)

(** A byte that would go on with a number. *)
Definition number_part (c : Z) : bool := is_ident_part c || (c =? 46).

Lemma number_part_facts c : number_part c = false ->
  is_digit c = false /\ (c =? 46) = false /\ (c =? 101) = false /\ (c =? 69) = false /\ (c =? 120) = false /\ (c =? 88) = false.
Proof.
  unfold number_part, is_ident_part, is_ident_start, is_digit. intros H. apply orb_false_elim in H as [H H0].
  apply orb_false_elim in H as [H H1]. split; [done|]. split; [done|].
  repeat split; apply Z.eqb_neq; intros ->; discriminate.
Qed.

Lemma lex_int l i r : lx_ok l -> 0 <= i < 2 ^ 63 -> lx_rest l = dec_bytes i ++ r -> head_not number_part r ->
  exists l', lex_number l = Ok (int_token (lx_offset l) i, l') /\ lx_after l (dec_bytes i) l' /\ lx_rest l' = r.
Proof.
  intros Hl Hi E Hr. destruct (dec_bytes_spec i) as (Hd & _ & Hne); [lia|].
  assert (Hr' : head_not is_digit r) by (destruct r as [|c r]; [done|]; apply (number_part_facts c Hr)).
  destruct (skip_while_exact is_digit l (dec_bytes i) r Hl E Hd Hr') as (l' & E1 & H1 & Er).
  exists l'. split; [|done]. unfold lex_number.
  assert (Hx : (lx_peek 1 l =? 120) || (lx_peek 1 l =? 88) = false).
  { rewrite lx_peek_rest, E. destruct (dec_bytes i) as [|c [|d ds]]; [done| |].
    - destruct r as [|d r]; [done|]. cbn. by destruct (number_part_facts d Hr) as (_ & _ & _ & _ & -> & ->).
    - apply Forall_cons in Hd as [_ Hd]. apply Forall_cons in Hd as [Hd _]. cbn. unfold is_digit in Hd. reflect_bools.
      apply orb_false_intro; apply Z.eqb_neq; lia. }
  rewrite Hx, andb_false_r. unfold lex_decimal. rewrite (bind_ok _ _ _ _ _ E1).
  assert (Hp : (lx_peek 0 l' =? 46) = false /\ (lx_peek 0 l' =? 101) = false /\ (lx_peek 0 l' =? 69) = false).
  { rewrite lx_peek_rest, Er. destruct r as [|c r]; [done|]. cbn. by destruct (number_part_facts c Hr) as (_ & -> & -> & -> & _). }
  destruct Hp as (P1 & P2 & P3).
  assert (F1 : lex_fraction l' = Ok (false, l')) by (unfold lex_fraction; by rewrite P1, andb_false_r).
  assert (F2 : lex_exponent l' = Ok (false, l')) by (unfold lex_exponent; by rewrite P2, P3, andb_false_r).
  rewrite (bind_ok _ _ _ _ _ F1), (bind_ok _ _ _ _ _ F2), (bind_ok _ _ _ _ _ (lexeme_after _ _ _ H1)). cbn [orb].
  by rewrite stoll_dec_bytes.
Qed.

(** ** Strings *)

(** A hexadecimal escape reads back as its byte. *)
Definition hex_byte_back (c : Z) : bool :=
  let hi := serial_hex_digit (Z.land (Z.shiftr c 4) 0xF) in
  let lo := serial_hex_digit (Z.land c 0xF) in
  is_hex_digit hi && is_hex_digit lo && (u8 (Z.lor (Z.shiftl (hex_value hi) 4) (hex_value lo)) =? c).

Lemma hex_byte_back_ok c : is_byte c -> hex_byte_back c = true.
Proof. revert c. apply (byte_forallb hex_byte_back). by vm_compute. Qed.

(** How [escape_char] writes a byte. *)
Inductive escaped (c : Z) : bytes -> Prop :=
  | EscPlain : c <> 34 -> c <> 10 -> c <> 92 -> escaped c [c]
  | EscShort e : (e, c) ∈ [(92, 92); (34, 34); (110, 10); (114, 13); (116, 9)] -> escaped c [92; e]
  | EscHex : is_byte c -> escaped c (serial_hex_byte c).

Lemma escape_char_cases c : is_byte c -> escaped c (escape_char c).
Proof.
  intros Hc.
  destruct (decide (c = 92)) as [->|]; [apply EscShort; by vm_compute; left|].
  destruct (decide (c = 34)) as [->|]; [apply EscShort; by vm_compute; right; left|].
  destruct (decide (c = 10)) as [->|]; [apply EscShort; by vm_compute; right; right; left|].
  destruct (decide (c = 13)) as [->|]; [apply EscShort; by vm_compute; right; right; right; left|].
  destruct (decide (c = 9)) as [->|]; [apply EscShort; by vm_compute; right; right; right; right; left|].
  assert (E : escape_char c = if (c <? 0x20) || (0x7F <=? c) then serial_hex_byte c else [c]).
  { unfold escape_char. destruct c as [|q|q]; [done| |done]. do 7 (destruct q as [q|q|]; try done). }
  rewrite E. case_bool; [by apply EscHex|]. by apply EscPlain.
Qed.

Lemma lex_escape_short l out e c r : lx_ok l -> lx_rest l = [92; e] ++ r ->
  (e, c) ∈ [(92, 92); (34, 34); (110, 10); (114, 13); (116, 9)] ->
  exists l', lex_escape out l = Ok (out ++ [c], l') /\ lx_after l [92; e] l' /\ lx_rest l' = r.
Proof.
  intros Hl E He. destruct (advance_rest l 92 (e :: r) Hl E) as (l1 & E1 & A1 & R1).
  destruct (advance_rest l1 e r (proj1 A1) R1) as (l2 & E2 & A2 & R2).
  exists l2. split; [|by split; [exact (lx_after_trans _ _ _ _ _ A1 A2)|]].
  unfold lex_escape. rewrite bind_get, (bind_ok _ _ _ _ _ E1), bind_get.
  destruct (lx_rest_head _ _ _ R1) as (-> & _). rewrite (bind_ok _ _ _ _ _ E2).
  rewrite !elem_of_cons in He. by destruct He as [[= -> ->]|[[= -> ->]|[[= -> ->]|[[= -> ->]|[[= -> ->]|He%elem_of_nil]]]]].
Qed.

Lemma lex_escape_hex l out c r : lx_ok l -> lx_rest l = serial_hex_byte c ++ r -> is_byte c ->
  exists l', lex_escape out l = Ok (out ++ [c], l') /\ lx_after l (serial_hex_byte c) l' /\ lx_rest l' = r.
Proof.
  intros Hl E Hc. apply hex_byte_back_ok in Hc. unfold hex_byte_back in Hc. unfold serial_hex_byte in *.
  set (hi := serial_hex_digit (Z.land (Z.shiftr c 4) 0xF)) in *. set (lo := serial_hex_digit (Z.land c 0xF)) in *.
  apply andb_prop in Hc as [Hd Hv]. apply andb_prop in Hd as [Hhi Hlo]. apply Z.eqb_eq in Hv.
  destruct (advance_rest l 92 (120 :: hi :: lo :: r) Hl E) as (l1 & E1 & A1 & R1).
  destruct (advance_rest l1 120 (hi :: lo :: r) (proj1 A1) R1) as (l2 & E2 & A2 & R2).
  destruct (advance_rest l2 hi (lo :: r) (proj1 A2) R2) as (l3 & E3 & A3 & R3).
  destruct (advance_rest l3 lo r (proj1 A3) R3) as (l4 & E4 & A4 & R4).
  exists l4. split.
  - unfold lex_escape. rewrite bind_get, (bind_ok _ _ _ _ _ E1), bind_get. destruct (lx_rest_head _ _ _ R1) as (-> & _).
    rewrite (bind_ok _ _ _ _ _ E2). cbn iota. unfold lex_hex_byte. rewrite bind_get.
    destruct (lx_rest_head _ _ _ R2) as (_ & -> & ->). cbn [lookup list_lookup default from_option]. cbn. rewrite Hhi, Hlo. cbn [andb negb].
    by rewrite (bind_ok _ _ _ _ _ E3), (bind_ok _ _ _ _ _ E4), Hv.
  - split; [|done]. exact (lx_after_trans _ _ _ _ _ A1 (lx_after_trans _ _ _ _ _ A2 (lx_after_trans _ _ _ _ _ A3 A4))).
Qed.

Lemma string_step turns l open out c w r : lx_ok l -> lx_rest l = w ++ r -> escaped c w ->
  exists l', string_loop (S turns) open out l = string_loop turns open (out ++ [c]) l' /\ lx_after l w l' /\ lx_rest l' = r.
Proof.
  intros Hl E Hw.
  assert (Hesc : forall l', lex_escape out l = Ok (out ++ [c], l') -> lx_at_end l = false -> lx_peek 0 l = 92 ->
    string_loop (S turns) open out l = string_loop turns open (out ++ [c]) l').
  { intros l' He H1 H2. cbn [string_loop]. rewrite H1, H2. by rewrite (bind_ok _ _ _ _ _ He). }
  destruct Hw as [H1 H2 H3|e He|Hc]; destruct (lx_rest_head _ _ _ E) as (Ee & Ep & _).
  - destruct (advance_rest l c r Hl E) as (l1 & E1 & A1 & R1). exists l1. split; [|done]. cbn [string_loop].
    rewrite Ee, Ep, (proj2 (Z.eqb_neq c 34)), (proj2 (Z.eqb_neq c 10)), (proj2 (Z.eqb_neq c 92)) by done.
    cbn [negb]. by rewrite (bind_ok _ _ _ _ _ E1).
  - destruct (lex_escape_short l out e c r Hl E He) as (l' & E1 & A1 & R1). exists l'. split; [by apply Hesc|done].
  - destruct (lex_escape_hex l out c r Hl E Hc) as (l' & E1 & A1 & R1). exists l'. split; [by apply Hesc|done].
Qed.

Lemma escaped_length c w : escaped c w -> (0 < length w)%nat.
Proof. intros []; cbn; lia. Qed.

Lemma string_loop_back s : forall turns l open out r, bytes_ok s -> lx_ok l -> lx_rest l = escape_string s ++ 34 :: r ->
  (length (escape_string s) < turns)%nat ->
  exists l', string_loop turns open out l = Ok (out ++ s, l') /\ lx_after l (escape_string s ++ [34]) l' /\ lx_rest l' = r.
Proof.
  induction s as [|c s IH]; intros turns l open out r Hs Hl E Ht.
  - destruct turns as [|turns]; [cbn in Ht; lia|]. destruct (lx_rest_head _ _ _ E) as (Ee & Ep & _).
    destruct (advance_rest l 34 r Hl E) as (l1 & E1 & A1 & R1). exists l1. split; [|done]. cbn [string_loop]. rewrite Ee, Ep.
    cbn [Z.eqb Pos.eqb]. rewrite (bind_ok _ _ _ _ _ E1), app_nil_r. done.
  - apply Forall_cons in Hs as [Hc Hs]. change (escape_string (c :: s)) with (escape_char c ++ escape_string s) in *.
    pose proof (escape_char_cases c Hc) as He. pose proof (escaped_length _ _ He). rewrite length_app in Ht. rewrite <- app_assoc in E.
    destruct turns as [|turns]; [lia|]. destruct (string_step turns l open out c _ _ Hl E He) as (l1 & -> & A1 & R1).
    destruct (IH turns l1 open (out ++ [c]) r Hs (proj1 A1) R1) as (l2 & E2 & A2 & R2); [lia|].
    exists l2. split; [by rewrite E2, <- app_assoc|]. split; [|done]. rewrite <- app_assoc. exact (lx_after_trans _ _ _ _ _ A1 A2).
Qed.

Lemma lex_string_back l s r : bytes_ok s -> lx_ok l -> lx_rest l = append_quoted s ++ r ->
  exists l', lex_string l = Ok (text_token TokenKind.kString (lx_offset l) s, l') /\ lx_after l (append_quoted s) l' /\ lx_rest l' = r.
Proof.
  intros Hs Hl E. unfold append_quoted in *. rewrite <- !app_assoc in E.
  destruct (advance_rest l 34 (escape_string s ++ 34 :: r) Hl E) as (l1 & E1 & A1 & R1).
  destruct (string_loop_back s (lx_turns l1) l1 (lx_offset l) [] r Hs (proj1 A1) R1) as (l2 & E2 & A2 & R2).
  { unfold lx_turns. pose proof (f_equal length R1) as Hlen. unfold lx_rest in Hlen. rewrite length_drop, length_app in Hlen. cbn in Hlen. lia. }
  exists l2. split; [|by split; [exact (lx_after_trans _ _ _ _ _ A1 A2)|]].
  unfold lex_string. by rewrite bind_get, (bind_ok _ _ _ _ _ E1), bind_get, (bind_ok _ _ _ _ _ E2).
Qed.

(** ** Tokens of a text *)

(** A token read at some offset. *)
Definition at_offset (a : Token) (o : Z) : Token := MkToken (tk_kind a) o (tk_text a) (tk_int a) (tk_float a).

Definition word_token (w : bytes) : Token := text_token (keyword_kind w) 0 w.
Definition string_token (s : bytes) : Token := text_token TokenKind.kString 0 s.
Definition number_token (i : Z) : Token := int_token 0 i.
Definition punct (k : TokenKind) : Token := plain_token k 0.

(** The punctuation the serializer writes. *)
Definition punctuation : list (Z * TokenKind) :=
  [(123, TokenKind.kLBrace); (125, TokenKind.kRBrace); (91, TokenKind.kLBracket); (93, TokenKind.kRBracket);
   (59, TokenKind.kSemicolon); (44, TokenKind.kComma); (46, TokenKind.kDot); (45, TokenKind.kMinus)].

(** [token_text w a r]: before the text [r], [w] is the token [a]. *)
Inductive token_text : bytes -> Token -> bytes -> Prop :=
  | TtWord w r : is_word w -> head_not is_ident_part r -> token_text w (word_token w) r
  | TtInt i r : 0 <= i < 2 ^ 63 -> head_not number_part r -> token_text (dec_bytes i) (number_token i) r
  | TtString s r : bytes_ok s -> token_text (append_quoted s) (string_token s) r
  | TtPunct c k r : (c, k) ∈ punctuation -> token_text [c] (punct k) r
  | TtAssign r : head_not (fun c => c =? 61) r -> token_text [61] (punct TokenKind.kAssign) r.

(** [spells w ts]: the text [w] is the tokens [ts], with blanks before each of them
    and at the end. *)
Inductive spells : bytes -> list Token -> Prop :=
  | SpEnd ws : Forall (fun c => is_space c = true) ws -> spells ws []
  | SpToken ws w a r ts : Forall (fun c => is_space c = true) ws -> token_text w a r -> spells r ts -> spells (ws ++ w ++ r) (a :: ts).

Lemma lex_punct l c k r : lx_ok l -> lx_rest l = c :: r -> (c, k) ∈ punctuation ->
  exists l', lex_operator l = Ok (plain_token k (lx_offset l), l') /\ lx_after l [c] l' /\ lx_rest l' = r.
Proof.
  intros Hl E Hk. destruct (advance_rest l c r Hl E) as (l1 & E1 & A1 & R1). exists l1. split; [|done].
  unfold lex_operator. rewrite bind_get, (bind_ok _ _ _ _ _ E1). unfold punctuation in Hk. rewrite !elem_of_cons in Hk.
  by destruct Hk as [[= -> ->]|[[= -> ->]|[[= -> ->]|[[= -> ->]|[[= -> ->]|[[= -> ->]|[[= -> ->]|[[= -> ->]|Hk%elem_of_nil]]]]]]]].
Qed.

Lemma lex_assign l r : lx_ok l -> lx_rest l = 61 :: r -> head_not (fun c => c =? 61) r ->
  exists l', lex_operator l = Ok (plain_token TokenKind.kAssign (lx_offset l), l') /\ lx_after l [61] l' /\ lx_rest l' = r.
Proof.
  intros Hl E Hr. destruct (advance_rest l 61 r Hl E) as (l1 & E1 & A1 & R1). exists l1. split; [|done].
  unfold lex_operator. rewrite bind_get, (bind_ok _ _ _ _ _ E1). cbn iota. unfold lex_op2. rewrite lx_peek_rest, R1.
  destruct r as [|c r]; [done|]. cbn in Hr |- *. by rewrite Hr.
Qed.

(** What follows the trivia in [next]. *)
Definition next_body : St lexer Token := fun l =>
  if lx_at_end l then Ok (plain_token TokenKind.kEof (lx_offset l), l)
  else
    let c := lx_peek 0 l in
    if is_ident_start c then lex_ident_or_keyword l
    else if is_digit c then lex_number l
    else if c =? 34 then lex_string l
    else lex_operator l.

(** The first byte of a token is neither blank nor the start of a comment, and
    decides the scanner's branch. *)
Lemma token_text_head w a r : token_text w a r -> exists c w', w = c :: w' /\ is_space c = false /\ (c =? 35) = false /\ (c =? 47) = false.
Proof.
  intros [w' r' Hw _|i r' Hi _|s r' _|c k r' Hk|r' _].
  - destruct w' as [|c w']; [done|]. exists c, w'. split; [done|]. destruct Hw as [Hc _].
    unfold is_ident_start in Hc. unfold is_space. repeat split; repeat apply orb_false_intro; apply Z.eqb_neq; intros ->; discriminate.
  - destruct (dec_bytes_spec i) as (Hd & _ & Hne); [lia|]. destruct (dec_bytes i) as [|c ds]; [done|]. exists c, ds. split; [done|].
    apply Forall_cons in Hd as [Hd _]. unfold is_digit in Hd. unfold is_space.
    repeat split; repeat apply orb_false_intro; apply Z.eqb_neq; intros ->; discriminate.
  - by eexists 34, _.
  - eexists c, []. split; [done|]. unfold punctuation in Hk. rewrite !elem_of_cons in Hk.
    by destruct Hk as [[= -> ->]|[[= -> ->]|[[= -> ->]|[[= -> ->]|[[= -> ->]|[[= -> ->]|[[= -> ->]|[[= -> ->]|Hk%elem_of_nil]]]]]]]].
  - by eexists 61, [].
Qed.

Lemma skip_trivia_blank l ws r : lx_ok l -> lx_rest l = ws ++ r -> Forall (fun c => is_space c = true) ws ->
  head_not (fun c => is_space c || (c =? 35) || (c =? 47)) r ->
  exists l', skip_trivia l = Ok (tt, l') /\ lx_ok l' /\ lx_rest l' = r.
Proof.
  intros Hl E Hw Hr. destruct (trivia_loop_blank ws (lx_turns l) l r Hl E Hw Hr) as (l' & E1 & H1 & Er).
  - unfold lx_turns. pose proof (f_equal length E) as Hlen. unfold lx_rest in Hlen. rewrite length_drop, length_app in Hlen. lia.
  - exists l'. split; [done|]. split; [apply H1|done].
Qed.

Lemma next_body_token l w a r : lx_ok l -> lx_rest l = w ++ r -> token_text w a r ->
  exists o l', next_body l = Ok (at_offset a o, l') /\ lx_ok l' /\ lx_rest l' = r.
Proof.
  intros Hl E Ht. exists (lx_offset l).
  destruct (token_text_head w a r Ht) as (c & w' & Ew & _ & _ & _). rewrite Ew in E.
  destruct (lx_rest_head l c (w' ++ r) E) as (E1 & E2 & _). unfold next_body. rewrite E1, E2. cbv zeta. rewrite <- Ew in E. revert E Ew.
  destruct Ht as [w r Hw Hr|i r Hi Hr|s r Hs|b k r Hk|r Hr]; intros E Ew.
  - destruct (lex_word l w r Hl E Hw Hr) as (l' & -> & A & R). exists l'. rewrite Ew in Hw. destruct Hw as [-> _]. by repeat split; try apply A.
  - destruct (lex_int l i r Hl Hi E Hr) as (l' & -> & A & R). exists l'.
    destruct (dec_bytes_spec i) as (Hd & _ & _); [lia|]. rewrite Ew in Hd. apply Forall_cons in Hd as [Hd _]. rewrite Hd.
    assert (Hs : is_ident_start c = false).
    { unfold is_digit in Hd. reflect_bools. unfold is_ident_start. repeat apply orb_false_intro; try (apply andb_false_intro1, Z.leb_gt; lia). apply Z.eqb_neq. lia. }
    rewrite Hs. by repeat split; try apply A.
  - destruct (lex_string_back l s r Hs Hl E) as (l' & -> & A & R). exists l'. injection Ew as <- _. by repeat split; try apply A.
  - destruct (lex_punct l b k r Hl E Hk) as (l' & -> & A & R). exists l'. injection Ew as <- _.
    unfold punctuation in Hk. rewrite !elem_of_cons in Hk.
    destruct Hk as [[= -> ->]|[[= -> ->]|[[= -> ->]|[[= -> ->]|[[= -> ->]|[[= -> ->]|[[= -> ->]|[[= -> ->]|Hk%elem_of_nil]]]]]]]];
      [by repeat split; try apply A..|done].
  - destruct (lex_assign l r Hl E Hr) as (l' & -> & A & R). exists l'. injection Ew as <- _. by repeat split; try apply A.
Qed.

(** From the cursor on, the scanner reads the tokens [ts] and then the end. *)
Fixpoint streams (l : lexer) (ts : list Token) : Prop :=
  match ts with
  | [] => exists o l', next l = Ok (plain_token TokenKind.kEof o, l')
  | a :: ts' => exists o l', next l = Ok (at_offset a o, l') /\ lx_ok l' /\ streams l' ts'
  end.

Lemma next_at l l1 : skip_trivia l = Ok (tt, l1) -> next l = next_body l1.
Proof. intros E. unfold next. by rewrite (bind_ok _ _ _ _ _ E). Qed.

(** The scanner reads a text as the tokens it spells. *)
Lemma spells_streams w ts : spells w ts -> forall l, lx_ok l -> lx_rest l = w -> streams l ts.
Proof.
  induction 1 as [ws Hw|ws w a r ts Hw Ht Hr IH]; intros l Hl E.
  - destruct (skip_trivia_blank l ws [] Hl) as (l1 & E1 & H1 & R1); [by rewrite app_nil_r|done|done|].
    exists (lx_offset l1), l1. rewrite (next_at _ _ E1). unfold next_body. by rewrite lx_at_end_rest, R1.
  - destruct (skip_trivia_blank l ws (w ++ r) Hl) as (l1 & E1 & H1 & R1); [done|done| |].
    { destruct (token_text_head w a r Ht) as (c & w' & -> & H32 & H35 & H47). cbn. by rewrite H32, H35, H47. }
    destruct (next_body_token l1 w a r H1 R1 Ht) as (o & l2 & E2 & H2 & R2).
    exists o, l2. rewrite (next_at _ _ E1). split; [done|]. split; [done|by apply IH].
Qed.

(** Every token takes a byte. *)
Lemma streams_length ts : forall l, lx_ok l -> Forall (fun a => tk_kind a <> TokenKind.kEof) ts -> streams l ts -> (length ts <= lx_left l)%nat.
Proof.
  induction ts as [|a ts IH]; intros l Hl Hk Hs; [cbn; lia|]. apply Forall_cons in Hk as [Hk Hts].
  destruct Hs as (o & l' & E & Hl' & Hs). specialize (IH l' Hl' Hts Hs). pose proof (next_spec l Hl) as Hn. rewrite E in Hn.
  destruct Hn as (_ & D & _ & H1 & H2). rewrite bool_decide_eq_false_2 in H2 by done.
  unfold lx_left, lx_offset in *. rewrite D in IH. destruct Hl' as [Hl' _]. rewrite D in Hl'. cbn [length at_offset tk_offset] in *. lia.
Qed.
