(* ===== verification/CfgGrammar.v ===== *)
(** * CfgGrammar: the grammar of cfgscript, and the parser against it

    The concrete grammar as inductive relations between token lists and syntax trees:
    operators in twelve levels of precedence, all associating to the left, the ternary
    below them, the prefix operators above. Each relation carries the nesting depth
    the production is at, which the code limits to [kMaxDepth]. The parser of
    [CfgParser] accepts exactly the token sequences the grammar derives and returns
    the derived tree. *)

From S2P Require Import Prelude Status Stateful CfgNumber CfgLexer CfgParser CfgTokens.

(** ** The grammar of expressions *)

(** Tokens that are expressions by themselves. *)
Definition atom (t : Token) : option Expr :=
  let off := tk_offset t in
  match tk_kind t with
  | TokenKind.kInt => Some (EInt off (tk_int t))
  | TokenKind.kFloat => Some (EFloat off (tk_float t))
  | TokenKind.kString => Some (EStr off (tk_text t))
  | TokenKind.kTrue => Some (EBool off true)
  | TokenKind.kFalse => Some (EBool off false)
  | TokenKind.kNull => Some (ENull off)
  | TokenKind.kIdent => Some (EIdent off (tk_text t))
  | _ => None
  end.

Definition prefix_op (k : TokenKind) : bool := bool_decide (k = TokenKind.kMinus \/ k = TokenKind.kBang \/ k = TokenKind.kTilde).

Definition is_kind (k : TokenKind) (t : Token) : Prop := tk_kind t = k.

(** [g_ternary d ts e]: at depth [d], the tokens [ts] are the expression [e]; [g_binary]
    restricts the outermost operator to precedence [m] or more. *)
Inductive g_ternary : Z -> list Token -> Expr -> Prop :=
  | GPlain d ts e : g_binary d 1 ts e -> g_ternary d ts e
  | GTernary d cs q ts1 c ts2 ec e1 e2 :
      g_binary d 1 cs ec -> is_kind TokenKind.kQuestion q -> g_ternary (d + 1) ts1 e1 ->
      is_kind TokenKind.kColon c -> g_ternary (d + 1) ts2 e2 ->
      g_ternary d (cs ++ q :: ts1 ++ c :: ts2) (ETernary (tk_offset q) ec e1 e2)
with g_binary : Z -> Z -> list Token -> Expr -> Prop :=
  | GOperand d m ts e : d <= kMaxDepth -> g_unary (d + 1) ts e -> g_binary d m ts e
  | GBinary d m ls op rs l r :
      m <= binary_precedence (tk_kind op) ->
      g_binary d (binary_precedence (tk_kind op)) ls l ->
      g_binary (d + 1) (binary_precedence (tk_kind op) + 1) rs r ->
      g_binary d m (ls ++ op :: rs) (EBinary (tk_offset op) (tk_kind op) l r)
with g_unary : Z -> list Token -> Expr -> Prop :=
  | GPrimary d ts e : g_primary d ts e -> g_unary d ts e
  | GPrefix d op ts e : d <= kMaxDepth -> prefix_op (tk_kind op) = true -> g_unary (d + 1) ts e ->
      g_unary d (op :: ts) (EUnary (tk_offset op) (tk_kind op) e)
with g_primary : Z -> list Token -> Expr -> Prop :=
  | GAtom d t e : d <= kMaxDepth -> atom t = Some e -> g_primary d [t] e
  | GParen d o ts c e : d <= kMaxDepth -> is_kind TokenKind.kLParen o -> g_ternary (d + 1) ts e ->
      is_kind TokenKind.kRParen c -> g_primary d (o :: ts ++ [c]) e
  | GArray d o ts c es : d <= kMaxDepth -> is_kind TokenKind.kLBracket o -> g_elements (d + 1) ts es ->
      is_kind TokenKind.kRBracket c -> g_primary d (o :: ts ++ [c]) (EArray (tk_offset o) es)
  | GObject d o ts c fs : d <= kMaxDepth -> is_kind TokenKind.kLBrace o -> g_fields (d + 1) ts fs ->
      is_kind TokenKind.kRBrace c -> g_primary d (o :: ts ++ [c]) (EObject (tk_offset o) fs)
(** Elements between commas, with one more comma allowed at the end. *)
with g_elements : Z -> list Token -> list Expr -> Prop :=
  | GNoElement d : g_elements d [] []
  | GLastElement d ts e : g_ternary d ts e -> g_elements d ts [e]
  | GElement d ts c ts' e es : g_ternary d ts e -> is_kind TokenKind.kComma c -> g_elements d ts' es ->
      g_elements d (ts ++ c :: ts') (e :: es)
(** Fields ended by semicolons, with stray semicolons allowed. *)
with g_fields : Z -> list Token -> list (bytes * Expr) -> Prop :=
  | GNoField d : g_fields d [] []
  | GStray d s ts fs : is_kind TokenKind.kSemicolon s -> g_fields d ts fs -> g_fields d (s :: ts) fs
  | GField d key eq ts s ts' e fs : is_kind TokenKind.kIdent key -> is_kind TokenKind.kAssign eq -> g_ternary d ts e ->
      is_kind TokenKind.kSemicolon s -> g_fields d ts' fs ->
      g_fields d (key :: eq :: ts ++ s :: ts') ((tk_text key, e) :: fs).

Scheme g_ternary_min := Minimality for g_ternary Sort Prop
  with g_binary_min := Minimality for g_binary Sort Prop
  with g_unary_min := Minimality for g_unary Sort Prop
  with g_primary_min := Minimality for g_primary Sort Prop
  with g_elements_min := Minimality for g_elements Sort Prop
  with g_fields_min := Minimality for g_fields Sort Prop.
Combined Scheme grammar_min from g_ternary_min, g_binary_min, g_unary_min, g_primary_min, g_elements_min, g_fields_min.

(** ** Tokens taken by the parser *)

(** Taking the tokens [ts] one after the other leads from [p] to [p']. *)
Inductive takes : parser -> list Token -> parser -> Prop :=
  | TakesNone p : takes p [] p
  | TakesOne p t p1 ts p' : kind_now p <> TokenKind.kEof -> take p = Ok (t, p1) -> takes p1 ts p' -> takes p (t :: ts) p'.

Lemma takes_app p ts p1 ts' p' : takes p ts p1 -> takes p1 ts' p' -> takes p (ts ++ ts') p'.
Proof. induction 1 as [|p t p0 ts p1 Hk Ht H IH]; intros H'; [done|]. econstructor; [done|done|by apply IH]. Qed.

Lemma takes_split ts ts' p p' : takes p (ts ++ ts') p' -> exists p1, takes p ts p1 /\ takes p1 ts' p'.
Proof.
  revert p. induction ts as [|t ts IH]; intros p H; [by exists p; split; [constructor|]|].
  inversion H as [|? ? p0 ? ? Hk Ht H0]; subst. destruct (IH _ H0) as (p1 & H1 & H2).
  exists p1. split; [by econstructor|done].
Qed.

Lemma takes_cons t ts p p' : takes p (t :: ts) p' ->
  exists p1, kind_now p = tk_kind t /\ t = ps_cur p /\ take p = Ok (t, p1) /\ takes p1 ts p'.
Proof.
  intros H. inversion H as [|? ? p1 ? ? Hk Ht H0]; subst. exists p1.
  assert (E : t = ps_cur p). { unfold take in Ht. destruct (next (ps_lexer p)) as [[]| | |]; by inversion Ht. }
  by subst.
Qed.

Lemma takes_nil p p' : takes p [] p' -> p' = p.
Proof. intros H. by inversion H. Qed.

(** ** Inverting the parser's steps *)

Lemma bind_inv {A B} (m : P A) (f : A -> P B) p b p' : st_bind m f p = Ok (b, p') ->
  exists a p1, m p = Ok (a, p1) /\ f a p1 = Ok (b, p').
Proof. unfold st_bind. destruct (m p) as [[a p1]| | |]; cbn [obind]; [eauto|done..]. Qed.

Lemma take_inv p t p' : take p = Ok (t, p') -> t = ps_cur p.
Proof. unfold take. destruct (next (ps_lexer p)) as [[]| | |]; intros H; by inversion H. Qed.

Lemma expect_inv k what p t p' : k <> TokenKind.kEof -> expect k what p = Ok (t, p') ->
  kind_now p = k /\ is_kind k t /\ takes p [t] p'.
Proof.
  intros Hk. unfold expect, st_bind, check, st_get. cbn [obind]. case_bool_decide as E; [|done]. intros H.
  split; [done|]. split; [by rewrite (take_inv _ _ _ H)|]. econstructor; [congruence|exact H|constructor].
Qed.

Lemma accept_inv k p b p' : k <> TokenKind.kEof -> accept k p = Ok (b, p') ->
  if b then exists t, is_kind k t /\ kind_now p = k /\ takes p [t] p' else kind_now p <> k /\ p' = p.
Proof.
  intros Hk. unfold accept, st_bind, check, st_get. cbn [obind]. case_bool_decide as E; [|by intros [= <- <-]].
  destruct (take p) as [[t p1]| | |] eqn:Et; cbn; [|done..]. intros [= <- <-]. exists t.
  split; [by rewrite (take_inv _ _ _ Et)|]. split; [done|]. econstructor; [congruence|exact Et|constructor].
Qed.

Lemma check_depth_inv d o p x p' : check_depth d o p = Ok (x, p') -> d <= kMaxDepth /\ p' = p.
Proof. unfold check_depth. destruct (Z.ltb_spec kMaxDepth d); [done|]. intros [= _ <-]. done. Qed.

Lemma check_depth_here_inv d p x p' : check_depth_here d p = Ok (x, p') -> d <= kMaxDepth /\ p' = p.
Proof. apply check_depth_inv. Qed.

(** Split a run of [let*]s that ended, from the first on. *)
Ltac bind_step H :=
  let a := fresh "a" in let p := fresh "p" in let H1 := fresh "H" in
  apply bind_inv in H as (a & p & H1 & H);
  first [ apply check_depth_here_inv in H1 as [? ->]
        | apply check_depth_inv in H1 as [? ->]
        | (apply expect_inv in H1; [|done]; destruct H1 as (? & ? & ?))
        | (apply accept_inv in H1; [|done])
        | (unfold check, st_get in H1; injection H1 as <- <-)
        | idtac ].

(** [take] off the end of the input. *)
Lemma take_takes p t p' : kind_now p <> TokenKind.kEof -> take p = Ok (t, p') -> t = ps_cur p /\ takes p [t] p'.
Proof. intros Hk H. split; [by apply (take_inv _ _ _ H)|]. by econstructor; [|exact H|constructor]. Qed.

(** ** What the parser returns is derived *)

(** The next token does not go on an expression of precedence [m]. *)
Definition stops (m : Z) (p : parser) : Prop := binary_precedence (kind_now p) < m.

Section loops_sound.
Context (d : Z) (rhs : Z -> P Expr) (element : P Expr).
Context (Hrhs : forall q p r p', 1 <= q -> rhs q p = Ok (r, p') ->
  exists rs, takes p rs p' /\ g_binary (d + 1) q rs r /\ stops q p').
Context (Hel : forall p e p', element p = Ok (e, p') -> exists ts, takes p ts p' /\ g_ternary d ts e).

(** [Q] bounds the precedence at which the left operand is derived. *)
Lemma binary_loop_sound turns m Q : forall ls lhs p e p',
  1 <= m <= Q -> binary_precedence (kind_now p) <= Q -> (forall q, q <= Q -> g_binary d q ls lhs) ->
  binary_loop turns rhs m lhs p = Ok (e, p') ->
  exists ts, takes p ts p' /\ g_binary d m (ls ++ ts) e /\ stops m p'.
Proof.
  revert Q. induction turns as [|turns IH]; intros Q ls lhs p e p' Hm Hq Hl H; [done|]. cbn [binary_loop] in H.
  destruct (Z.ltb_spec (binary_precedence (kind_now p)) m) as [Hs|Hs].
  { injection H as <- <-. exists []. rewrite app_nil_r. split; [constructor|]. split; [apply Hl; lia|done]. }
  bind_step H. apply take_takes in H0 as [-> Ht]; [|intros E; rewrite E in Hs; cbn in Hs; lia].
  change (tk_kind (ps_cur p)) with (kind_now p) in H. set (q := binary_precedence (kind_now p)) in *.
  bind_step H. destruct (Hrhs (q + 1) _ _ _ ltac:(lia) H0) as (rs & Hr1 & Hr2 & Hr3).
  apply (IH q (ls ++ ps_cur p :: rs)) in H as (ts & H1 & H2 & H3);
    [|lia|unfold stops in Hr3; lia|intros q' Hq'; apply GBinary; [done|by apply Hl|done]].
  exists (ps_cur p :: rs ++ ts). split; [|split; [|done]].
  - apply (takes_app p [ps_cur p] p0); [done|]. by eapply takes_app.
  - by rewrite <- app_assoc in H2.
Qed.

Lemma elements_loop_sound turns : forall acc p es p', elements_loop turns element acc p = Ok (es, p') ->
  exists ts es', es = acc ++ es' /\ takes p ts p' /\ g_elements d ts es'.
Proof.
  induction turns as [|turns IH]; intros acc p es p' H; [done|]. cbn [elements_loop] in H.
  bind_step H. destruct (Hel _ _ _ H0) as (ts & Ht & Hg). cbv zeta in H. bind_step H. destruct a0.
  - destruct H1 as (c & Hc & _ & Hc2). bind_step H. case_bool_decide.
    + injection H as <- <-. exists (ts ++ [c]), [a]. split; [done|]. split; [by eapply takes_app|].
      apply GElement; [done|done|constructor].
    + destruct (IH _ _ _ _ H) as (ts' & es' & -> & Ht' & Hg'). exists (ts ++ c :: ts'), (a :: es').
      split; [by rewrite <- app_assoc|]. split; [|by apply GElement].
      eapply takes_app; [done|]. by apply (takes_app _ [c] _ ts' _ Hc2).
  - destruct H1 as [_ ->]. injection H as <- <-. exists ts, [a]. split; [done|]. split; [done|]. by apply GLastElement.
Qed.

Lemma fields_loop_sound turns o : forall acc p fs p', fields_loop turns element o acc p = Ok (fs, p') ->
  kind_now p' = TokenKind.kRBrace /\ exists ts fs', fs = acc ++ fs' /\ takes p ts p' /\ g_fields d ts fs'.
Proof.
  induction turns as [|turns IH]; intros acc p fs p' H; [done|]. cbn [fields_loop] in H.
  case_bool_decide as E1; [injection H as <- <-; split; [done|]; exists [], []; rewrite app_nil_r; split; [done|]; split; constructor|].
  case_bool_decide as E2; [done|]. bind_step H. destruct a.
  - destruct H0 as (s & Hs & _ & Hs2). destruct (IH _ _ _ _ H) as (Hk & ts & fs' & -> & Ht & Hg).
    split; [done|]. exists (s :: ts), fs'. split; [done|]. split; [by apply (takes_app _ [s] _ ts _ Hs2)|by apply GStray].
  - destruct H0 as [_ ->]. bind_step H. bind_step H. bind_step H. destruct (Hel _ _ _ H6) as (ts & Ht & Hg). bind_step H.
    destruct (IH _ _ _ _ H) as (Hk & ts' & fs' & -> & Ht' & Hg'). split; [done|].
    exists (a :: a0 :: ts ++ a2 :: ts'), ((tk_text a, a1) :: fs'). split; [by rewrite <- app_assoc|]. split; [|by apply GField].
    apply (takes_app _ [a] _ (a0 :: ts ++ a2 :: ts') _ H2). apply (takes_app _ [a0] _ (ts ++ a2 :: ts') _ H5).
    eapply takes_app; [exact Ht|]. by apply (takes_app _ [a2] _ ts' _ H9).
Qed.
End loops_sound.

(** An expression that was read whole: neither an operator nor [?] follows. *)
Definition ends (p : parser) : Prop := stops 1 p /\ kind_now p <> TokenKind.kQuestion.

Lemma literal_sound d p e p' t : d <= kMaxDepth -> ps_cur p = t -> atom t = Some e -> literal e p = Ok (e, p') ->
  takes p [t] p' /\ g_primary d [t] e.
Proof.
  intros Hd Hc Ha H. unfold literal in H. bind_step H. injection H as <-. split; [|by apply GAtom].
  apply take_takes in H0 as [-> H0]; [by rewrite Hc in H0|]. intros E. unfold kind_now in E. rewrite Hc in E. unfold atom in Ha. by rewrite E in Ha.
Qed.

(** One production at a time, given those it calls. *)
Section productions.
Context (n : nat).
Hypothesis IHt : forall d p e p', parse_ternary n d p = Ok (e, p') -> exists ts, takes p ts p' /\ g_ternary d ts e /\ ends p'.
Hypothesis IHb : forall m d p e p', 1 <= m -> parse_binary n m d p = Ok (e, p') ->
  exists ts, takes p ts p' /\ g_binary d m ts e /\ stops m p'.
Hypothesis IHu : forall d p e p', parse_unary n d p = Ok (e, p') -> exists ts, takes p ts p' /\ g_unary d ts e.
Hypothesis IHp : forall d p e p', parse_primary n d p = Ok (e, p') -> exists ts, takes p ts p' /\ g_primary d ts e.
Hypothesis IHa : forall d p e p', parse_array n (offset_now p) d p = Ok (e, p') -> exists ts, takes p ts p' /\ g_primary d ts e.
Hypothesis IHo : forall d p e p', parse_object n (offset_now p) d p = Ok (e, p') -> exists ts, takes p ts p' /\ g_primary d ts e.

Lemma element_sound d p e p' : parse_ternary n d p = Ok (e, p') -> exists ts, takes p ts p' /\ g_ternary d ts e.
Proof. intros H. destruct (IHt _ _ _ _ H) as (ts & H1 & H2 & _). eauto. Qed.

Lemma ternary_sound : forall d p e p', parse_ternary (S n) d p = Ok (e, p') -> exists ts, takes p ts p' /\ g_ternary d ts e /\ ends p'.
Proof.
  intros d p e p' H. cbn [parse_ternary] in H. bind_step H. bind_step H.
  destruct (IHb 1 _ _ _ _ ltac:(lia) H1) as (cs & Hc1 & Hc2 & Hc3). bind_step H. case_bool_decide as E.
  2: { injection H as <- <-. exists cs. split; [done|]. split; [by apply GPlain|by split]. }
  bind_step H. apply take_takes in H2 as [-> Hq]; [|by rewrite E]. bind_step H. destruct (IHt _ _ _ _ H2) as (ts1 & H3 & H4 & _).
  bind_step H. bind_step H. destruct (IHt _ _ _ _ H8) as (ts2 & H9 & H10 & Hend). injection H as <- <-.
  exists (cs ++ ps_cur p0 :: ts1 ++ a2 :: ts2). split; [|split; [by apply GTernary|done]].
  eapply takes_app; [done|]. apply (takes_app _ [ps_cur p0] p1); [done|]. eapply takes_app; [done|].
  by apply (takes_app _ [a2] _ ts2 _ H7).
Qed.

Lemma binary_sound : forall m d p e p', 1 <= m -> parse_binary (S n) m d p = Ok (e, p') -> exists ts, takes p ts p' /\ g_binary d m ts e /\ stops m p'.
Proof.
  intros m d p e p' Hm H. cbn [parse_binary] in H. bind_step H. bind_step H.
  destruct (IHu _ _ _ _ H1) as (us & Hu1 & Hu2). rewrite bind_get in H.
  destruct (binary_loop_sound d (fun prec => parse_binary n prec (d + 1)) (fun q p r p' => IHb q (d + 1) p r p')
    (ps_turns p0) m (Z.max m 12) us a0 p0 e p') as (ts & H2 & H3 & H4); [lia|destruct (kind_now p0); cbn; lia| |exact H|].
  + intros q Hq. by apply GOperand.
  + exists (us ++ ts). split; [by eapply takes_app|done].
Qed.

Lemma unary_sound : forall d p e p', parse_unary (S n) d p = Ok (e, p') -> exists ts, takes p ts p' /\ g_unary d ts e.
Proof.
  intros d p e p' H. cbn [parse_unary] in H. bind_step H. rewrite bind_get in H.
  assert (Hprim : parse_primary n d p = Ok (e, p') -> exists ts, takes p ts p' /\ g_unary d ts e).
  { intros Hp. destruct (IHp _ _ _ _ Hp) as (ts & H1 & H2). exists ts. split; [done|by apply GPrimary]. }
  assert (Hpre : prefix_op (kind_now p) = true -> (let* op := take in let* operand := parse_unary n (d + 1) in
    st_ret (EUnary (tk_offset op) (tk_kind op) operand)) p = Ok (e, p') -> exists ts, takes p ts p' /\ g_unary d ts e).
  { intros Hk Hp. bind_step Hp. apply take_takes in H1 as [-> Ht]; [|intros E; by rewrite E in Hk].
    bind_step Hp. destruct (IHu _ _ _ _ H1) as (ts & H2 & H3). injection Hp as <- <-.
    exists (ps_cur p :: ts). split; [by eapply (takes_app _ [ps_cur p])|by apply GPrefix]. }
  by destruct (kind_now p) eqn:E; first [by apply Hprim|by apply Hpre].
Qed.

Lemma primary_sound : forall d p e p', parse_primary (S n) d p = Ok (e, p') -> exists ts, takes p ts p' /\ g_primary d ts e.
Proof.
  intros d p e p' H. cbn [parse_primary] in H. bind_step H. rewrite bind_get in H. cbv zeta in H.
  assert (Hatom : forall e', atom (ps_cur p) = Some e' -> literal e' p = Ok (e, p') -> exists ts, takes p ts p' /\ g_primary d ts e).
  { intros e' Ha Hl. assert (e = e') as -> by (unfold literal in Hl; bind_step Hl; by injection Hl as <- _).
    exists [ps_cur p]. by eapply literal_sound. }
  change (tk_offset (ps_cur p)) with (offset_now p) in H. destruct (tk_kind (ps_cur p)) eqn:E;
    first [ done | by apply (IHa d) | by apply (IHo d)
          | (eapply Hatom; [unfold atom; by rewrite E|exact H]) | idtac ].
  bind_step H. apply take_takes in H1 as [-> Ht]; [|by unfold kind_now; rewrite E].
  bind_step H. destruct (element_sound _ _ _ _ H1) as (ts & H2 & H3). bind_step H. injection H as <- <-.
  exists (ps_cur p :: ts ++ [a1]). split; [|by apply GParen].
  apply (takes_app _ [ps_cur p] p0); [done|]. by eapply takes_app.
Qed.

Lemma array_sound : forall d p e p', parse_array (S n) (offset_now p) d p = Ok (e, p') -> exists ts, takes p ts p' /\ g_primary d ts e.
Proof.
  intros d p e p' H. cbn [parse_array] in H. bind_step H. bind_step H.
  assert (Ho : offset_now p = tk_offset a0). { apply takes_cons in H3 as (p1 & _ & -> & _). done. }
  bind_step H. rewrite bind_get in H. bind_step H. bind_step H. injection H as <- <-. rewrite Ho.
  assert (Hes : exists ts, takes p0 ts p1 /\ g_elements (d + 1) ts a1).
  { revert H4. case_bool_decide; [intros [= <- <-]; exists []; split; constructor|]. intros H4.
    destruct (elements_loop_sound (d + 1) _ (element_sound (d + 1)) _ _ _ _ _ H4) as (ts & es & -> & ? & ?). eauto. }
  destruct Hes as (ts & Ht & Hg). exists (a0 :: ts ++ [a2]). split; [|by apply GArray].
  apply (takes_app _ [a0] p0); [done|]. by eapply takes_app.
Qed.

Lemma object_sound : forall d p e p', parse_object (S n) (offset_now p) d p = Ok (e, p') -> exists ts, takes p ts p' /\ g_primary d ts e.
Proof.
  intros d p e p' H. cbn [parse_object] in H. bind_step H. bind_step H.
  assert (Ho : offset_now p = tk_offset a0). { apply takes_cons in H3 as (p1 & _ & -> & _). done. }
  rewrite bind_get in H. bind_step H. bind_step H. injection H as <- <-. rewrite Ho.
  destruct (fields_loop_sound (d + 1) _ (element_sound (d + 1)) _ _ _ _ _ _ H4) as (_ & ts & fs & -> & Ht & Hg).
  exists (a0 :: ts ++ [a2]). split; [|by apply GObject].
  apply (takes_app _ [a0] p0); [done|]. by eapply takes_app.
Qed.

End productions.

Lemma productions_sound n :
  (forall d p e p', parse_ternary n d p = Ok (e, p') -> exists ts, takes p ts p' /\ g_ternary d ts e /\ ends p') /\
  (forall m d p e p', 1 <= m -> parse_binary n m d p = Ok (e, p') -> exists ts, takes p ts p' /\ g_binary d m ts e /\ stops m p') /\
  (forall d p e p', parse_unary n d p = Ok (e, p') -> exists ts, takes p ts p' /\ g_unary d ts e) /\
  (forall d p e p', parse_primary n d p = Ok (e, p') -> exists ts, takes p ts p' /\ g_primary d ts e) /\
  (forall d p e p', parse_array n (offset_now p) d p = Ok (e, p') -> exists ts, takes p ts p' /\ g_primary d ts e) /\
  (forall d p e p', parse_object n (offset_now p) d p = Ok (e, p') -> exists ts, takes p ts p' /\ g_primary d ts e).
Proof.
  induction n as [|n (IHt & IHb & IHu & IHp & IHa & IHo)]; [by repeat split|].
  split; [by apply ternary_sound|]. split; [by apply binary_sound|]. split; [by apply unary_sound|].
  split; [by apply primary_sound|]. split; [by apply array_sound|by apply object_sound].
Qed.

(** ** What is derived, the parser returns *)

Lemma expect_step k what p t ts p' : takes p (t :: ts) p' -> is_kind k t -> exists p1, expect k what p = Ok (t, p1) /\ takes p1 ts p'.
Proof.
  intros H Hk. destruct (takes_cons _ _ _ _ H) as (p1 & Ek & _ & Et & H1). exists p1. split; [|done].
  unfold expect, check. rewrite bind_get, bool_decide_eq_true_2 by (by rewrite Ek). exact Et.
Qed.

Lemma accept_step k p t ts p' : takes p (t :: ts) p' -> is_kind k t -> exists p1, accept k p = Ok (true, p1) /\ takes p1 ts p'.
Proof.
  intros H Hk. destruct (takes_cons _ _ _ _ H) as (p1 & Ek & _ & Et & H1). exists p1. split; [|done].
  unfold accept, check. rewrite bind_get, bool_decide_eq_true_2 by (by rewrite Ek). by rewrite (bind_ok _ _ _ _ _ Et).
Qed.

Lemma accept_other k p : kind_now p <> k -> accept k p = Ok (false, p).
Proof. intros Hk. unfold accept, check. by rewrite bind_get, bool_decide_eq_false_2. Qed.

Lemma check_depth_fine d o (p : parser) : d <= kMaxDepth -> check_depth d o p = Ok (tt, p).
Proof. intros H. unfold check_depth. by rewrite (proj2 (Z.ltb_ge _ _)). Qed.

Lemma check_here_fine d (p : parser) : d <= kMaxDepth -> check_depth_here d p = Ok (tt, p).
Proof. apply check_depth_fine. Qed.

(** A derivation starts with a token, which closes nothing, and is not too deep. *)
Definition opens (d : Z) (ts : list Token) : Prop :=
  d <= kMaxDepth /\ exists t ts', ts = t :: ts' /\ tk_kind t <> TokenKind.kRBracket.

Lemma opens_app d ts ts' : opens d ts -> opens d (ts ++ ts').
Proof. intros (Hd & t & r & -> & Ht). split; [done|]. by exists t, (r ++ ts'). Qed.

Lemma derived_opens :
  (forall d ts e, g_ternary d ts e -> opens d ts) /\ (forall d m ts e, g_binary d m ts e -> opens d ts) /\
  (forall d ts e, g_unary d ts e -> opens d ts) /\ (forall d ts e, g_primary d ts e -> opens d ts) /\
  (forall d ts es, g_elements d ts es -> ts = [] \/ opens d ts) /\ (forall d ts fs, g_fields d ts fs -> True).
Proof.
  apply grammar_min; try done; try (intros; by apply opens_app).
  - intros d m ts e Hd _ [_ H]. by split.
  - intros d op ts e Hd Hop _ _. split; [done|]. exists op, ts. split; [done|]. intros E. by rewrite E in Hop.
  - intros d t e Hd Ha. split; [done|]. exists t, []. split; [done|]. intros E. unfold atom in Ha. by rewrite E in Ha.
  - intros d o ts c e Hd Ho _ _ _. split; [done|]. exists o, (ts ++ [c]). split; [done|]. by rewrite Ho.
  - intros d o ts c e Hd Ho _ _ _. split; [done|]. exists o, (ts ++ [c]). split; [done|]. by rewrite Ho.
  - intros d o ts c e Hd Ho _ _ _. split; [done|]. exists o, (ts ++ [c]). split; [done|]. by rewrite Ho.
  - by left.
  - intros d ts e _ H. by right.
  - intros d ts c ts' e es _ H _ _ _. right. by apply opens_app.
Qed.

Lemma no_elements d es : g_elements d [] es -> es = [].
Proof.
  intros H. remember [] as ts eqn:E. destruct H as [d|d ts e H|d ts c ts' e es _ _ _]; [done| |by destruct ts].
  subst. destruct (proj1 derived_opens _ _ _ H) as (_ & ? & ? & ? & _). done.
Qed.

Section completeness.
Context (size : nat).

Lemma takes_ok p ts p' : parser_ok size p -> takes p ts p' -> parser_ok size p' /\ (length ts + ps_left p' <= ps_left p)%nat.
Proof.
  intros Hp H. induction H as [p|p t p1 ts p' Hk Ht H IH]; [done|].
  pose proof (take_at size p Hp) as Hr. rewrite bool_decide_eq_false_2 in Hr by done. rewrite Ht in Hr.
  destruct Hr as (H1 & H2 & _). cbn in H2. destruct (IH H1). split; [done|]. cbn [length]. lia.
Qed.

Lemma takes_turns p ts p' : parser_ok size p -> takes p ts p' -> (length ts < ps_turns p)%nat.
Proof. intros Hp H. destruct (takes_ok _ _ _ Hp H). pose proof (ps_left_turns p). lia. Qed.

Definition levels (d k : Z) (n : nat) : Prop := 4 * (66 - d) + k <= Z.of_nat n.

Definition reads_ternary d ts e : Prop := forall n p p', levels d 1 n -> parser_ok size p -> takes p ts p' -> ends p' ->
  parse_ternary n d p = Ok (e, p').
Definition reads_unary d ts e : Prop := forall n p p', levels d 3 n -> parser_ok size p -> takes p ts p' ->
  parse_unary n d p = Ok (e, p').
Definition reads_primary d ts e : Prop := forall n p p', levels d 2 n -> parser_ok size p -> takes p ts p' ->
  parse_primary n d p = Ok (e, p').
Definition reads_elements d ts es : Prop := forall n turns acc p p', levels d 1 n -> parser_ok size p -> takes p ts p' ->
  kind_now p' = TokenKind.kRBracket -> (length ts <= turns)%nat -> ts <> [] ->
  elements_loop turns (parse_ternary n d) acc p = Ok (acc ++ es, p').
Definition reads_fields d ts fs : Prop := forall n turns o acc p p', levels d 1 n -> parser_ok size p -> takes p ts p' ->
  kind_now p' = TokenKind.kRBrace -> (length ts < turns)%nat ->
  fields_loop turns (parse_ternary n d) o acc p = Ok (acc ++ fs, p').

(** The first operand is read, and the climbing loop, started at any precedence [M] up
    to [m], gets to the whole expression. *)
Definition reads_binary d m ts e : Prop := 1 <= m -> forall n M p p', levels d 0 (S n) -> 1 <= M <= m -> parser_ok size p ->
  takes p ts p' -> stops (m + 1) p' ->
  exists us rest u pu, takes p us pu /\ takes pu rest p' /\ parse_unary n (d + 1) p = Ok (u, pu) /\
    forall turns, (length rest <= turns)%nat -> exists turns', (turns <= turns' + length rest)%nat /\
      binary_loop turns (fun prec => parse_binary n prec (d + 1)) M u pu =
      binary_loop turns' (fun prec => parse_binary n prec (d + 1)) M e p'.

Lemma reads_binary_whole d m ts e : reads_binary d m ts e -> d <= kMaxDepth -> 1 <= m -> forall n p p', levels d 0 n ->
  parser_ok size p -> takes p ts p' -> stops m p' -> parse_binary n m d p = Ok (e, p').
Proof.
  intros H Hd Hm n p p' Hn Hp Ht Hs. unfold levels, kMaxDepth in *. destruct n as [|n]; [lia|].
  destruct (H Hm n m p p' Hn ltac:(lia) Hp Ht) as (us & rest & u & pu & H1 & H2 & H3 & H4); [unfold stops in *; lia|].
  cbn [parse_binary]. rewrite (bind_ok _ _ _ _ _ (check_here_fine d p Hd)), (bind_ok _ _ _ _ _ H3), bind_get.
  destruct (takes_ok _ _ _ Hp H1) as [Hpu _]. pose proof (takes_turns _ _ _ Hpu H2) as Hlen.
  destruct (H4 (ps_turns pu)) as (turns' & Hle & ->); [lia|]. destruct turns' as [|turns']; [lia|]. cbn [binary_loop].
  by rewrite (proj2 (Z.ltb_lt _ _) Hs).
Qed.

Lemma read_operand d m ts e : d <= kMaxDepth -> reads_unary (d + 1) ts e -> reads_binary d m ts e.
Proof.
  intros Hd Hu Hm n M p p' Hn HM Hp Ht Hs. exists ts, [], e, p'.
  split; [done|]. split; [constructor|]. split; [apply Hu; [unfold levels in *; lia|done|done]|].
  intros turns _. exists turns. split; [lia|done].
Qed.

Lemma read_operator d m ls op rs l r : m <= binary_precedence (tk_kind op) ->
  reads_binary d (binary_precedence (tk_kind op)) ls l ->
  opens (d + 1) rs -> reads_binary (d + 1) (binary_precedence (tk_kind op) + 1) rs r ->
  reads_binary d m (ls ++ op :: rs) (EBinary (tk_offset op) (tk_kind op) l r).
Proof.
  set (q := binary_precedence (tk_kind op)). intros Hq Hl [Hd _] Hr Hm n M p p' Hn HM Hp Ht Hs.
  apply takes_split in Ht as (p1 & Ht1 & Ht2). destruct (takes_cons _ _ _ _ Ht2) as (p2 & Hk & _ & Et & Ht3).
  destruct (takes_ok _ _ _ Hp Ht1) as [Hp1 _]. destruct (takes_ok p1 [op] p2 Hp1) as [Hp2 _]; [econstructor; [|exact Et|constructor]|].
  { intros E. rewrite Hk in E. unfold q in Hq. rewrite E in Hq. cbn in Hq. lia. }
  destruct (Hl ltac:(lia) n M p p1 Hn ltac:(lia) Hp Ht1) as (us & rest & u & pu & H1 & H2 & H3 & H4).
  { unfold stops. rewrite Hk. fold q. lia. }
  exists us, (rest ++ op :: rs), u, pu. split; [done|]. split; [by eapply takes_app|]. split; [done|].
  intros turns Hturns. rewrite length_app in *. cbn [length] in *.
  destruct (H4 turns) as (t1 & Ht1' & ->); [lia|]. destruct t1 as [|t1]; [lia|]. exists t1. split; [lia|].
  cbn [binary_loop]. rewrite Hk. fold q. rewrite (proj2 (Z.ltb_ge _ _)) by lia. rewrite (bind_ok _ _ _ _ _ Et).
  fold q. rewrite (bind_ok _ _ p2 r p'); [done|].
  apply (reads_binary_whole (d + 1) (q + 1) rs r Hr); [done|lia|unfold levels in *; lia|done|done|unfold stops in *; lia].
Qed.

Lemma read_ternary_plain d ts e : opens d ts -> reads_binary d 1 ts e -> reads_ternary d ts e.
Proof.
  intros [Hd _] Hb n p p' Hn Hp Ht [Hs Hq]. unfold levels, kMaxDepth in *. destruct n as [|n]; [lia|]. cbn [parse_ternary].
  rewrite (bind_ok _ _ _ _ _ (check_here_fine d p Hd)).
  rewrite (bind_ok _ _ _ _ _ (reads_binary_whole d 1 ts e Hb Hd ltac:(lia) n p p' ltac:(unfold levels; lia) Hp Ht Hs)).
  unfold check. by rewrite bind_get, bool_decide_eq_false_2.
Qed.

Lemma read_ternary d cs q ts1 c ts2 ec e1 e2 : opens d cs -> reads_binary d 1 cs ec -> is_kind TokenKind.kQuestion q ->
  reads_ternary (d + 1) ts1 e1 -> is_kind TokenKind.kColon c -> reads_ternary (d + 1) ts2 e2 ->
  reads_ternary d (cs ++ q :: ts1 ++ c :: ts2) (ETernary (tk_offset q) ec e1 e2).
Proof.
  intros [Hd _] Hc Hq H1 Hcol H2 n p p' Hn Hp Ht Hend. unfold levels, kMaxDepth in *. destruct n as [|n]; [lia|]. cbn [parse_ternary].
  rewrite (bind_ok _ _ _ _ _ (check_here_fine d p Hd)).
  apply takes_split in Ht as (p1 & Ht1 & Ht2). destruct (takes_ok _ _ _ Hp Ht1) as [Hp1 _].
  destruct (takes_cons _ _ _ _ Ht2) as (p2 & Hk & _ & Et & Ht3). rewrite Hq in Hk.
  rewrite (bind_ok _ _ _ _ _ (reads_binary_whole d 1 cs ec Hc Hd ltac:(lia) n p p1 ltac:(unfold levels; lia) Hp Ht1
    ltac:(unfold stops; by rewrite Hk))).
  unfold check. rewrite bind_get, bool_decide_eq_true_2, (bind_ok _ _ _ _ _ Et) by done.
  destruct (takes_ok p1 [q] p2 Hp1) as [Hp2 _]; [econstructor; [by rewrite Hk|exact Et|constructor]|].
  apply takes_split in Ht3 as (p3 & Ht3 & Ht4). destruct (takes_ok _ _ _ Hp2 Ht3) as [Hp3 _].
  destruct (expect_step TokenKind.kColon "':' in ternary expression" _ _ _ _ Ht4 Hcol) as (p4 & E4 & Ht5).
  destruct (takes_cons _ _ _ _ Ht4) as (p4' & Hk3 & _). rewrite Hcol in Hk3.
  rewrite (bind_ok _ _ _ _ _ (H1 n p2 p3 ltac:(unfold levels; lia) Hp2 Ht3 ltac:(split; [unfold stops|]; by rewrite Hk3))).
  rewrite (bind_ok _ _ _ _ _ E4). apply expect_inv in E4 as (_ & _ & Ht6); [|done]. destruct (takes_ok _ _ _ Hp3 Ht6) as [Hp4 _].
  by rewrite (bind_ok _ _ _ _ _ (H2 n p4 p' ltac:(unfold levels; lia) Hp4 Ht5 Hend)).
Qed.

Lemma read_prefix d op ts e : d <= kMaxDepth -> prefix_op (tk_kind op) = true -> reads_unary (d + 1) ts e ->
  reads_unary d (op :: ts) (EUnary (tk_offset op) (tk_kind op) e).
Proof.
  intros Hd Hop He n p p' Hn Hp Ht. unfold levels, kMaxDepth in *. destruct n as [|n]; [lia|]. cbn [parse_unary].
  rewrite (bind_ok _ _ _ _ _ (check_here_fine d p Hd)), bind_get.
  destruct (takes_cons _ _ _ _ Ht) as (p1 & Hk & _ & Et & Ht1). rewrite Hk.
  destruct (takes_ok p [op] p1 Hp) as [Hp1 _]; [econstructor; [|exact Et|constructor]; intros E; rewrite Hk in E; by rewrite E in Hop|].
  assert (E : (let* op := take in let* operand := parse_unary n (d + 1) in st_ret (EUnary (tk_offset op) (tk_kind op) operand)) p =
    Ok (EUnary (tk_offset op) (tk_kind op) e, p')).
  { rewrite (bind_ok _ _ _ _ _ Et). by rewrite (bind_ok _ _ _ _ _ (He n p1 p' ltac:(unfold levels; lia) Hp1 Ht1)). }
  by destruct (tk_kind op) eqn:Ek; first [exact E|discriminate Hop].
Qed.

Lemma read_primary_plain d ts e : opens d ts -> g_primary d ts e -> reads_primary d ts e -> reads_unary d ts e.
Proof.
  intros [Hd _] Hg He n p p' Hn Hp Ht. unfold levels, kMaxDepth in *. destruct n as [|n]; [lia|]. cbn [parse_unary].
  rewrite (bind_ok _ _ _ _ _ (check_here_fine d p Hd)), bind_get.
  assert (Hk : prefix_op (kind_now p) = false).
  { destruct Hg as [d t e _ Ha|d o ts c e _ Ho _ _|d o ts c es _ Ho _ _|d o ts c fs _ Ho _ _];
      destruct (takes_cons _ _ _ _ Ht) as (p1 & -> & _); [|by rewrite Ho..].
    unfold atom in Ha. by destruct (tk_kind t). }
  pose proof (He n p p' ltac:(unfold levels; lia) Hp Ht) as E. by destruct (kind_now p); first [exact E|discriminate Hk].
Qed.

Lemma read_atom d t e : d <= kMaxDepth -> atom t = Some e -> reads_primary d [t] e.
Proof.
  intros Hd Ha n p p' Hn Hp Ht. unfold levels, kMaxDepth in *. destruct n as [|n]; [lia|]. cbn [parse_primary].
  rewrite (bind_ok _ _ _ _ _ (check_here_fine d p Hd)), bind_get. cbv zeta.
  destruct (takes_cons _ _ _ _ Ht) as (p1 & _ & <- & Et & ->%takes_nil). unfold atom in Ha.
  destruct (tk_kind t); try discriminate Ha; injection Ha as <-; unfold literal; by rewrite (bind_ok _ _ _ _ _ Et).
Qed.

(** Tokens between an opening and a closing one. *)
Lemma takes_between p o ts c p' : parser_ok size p -> takes p (o :: ts ++ [c]) p' -> tk_kind o <> TokenKind.kEof ->
  exists p1 p2, take p = Ok (o, p1) /\ takes p1 ts p2 /\ parser_ok size p1 /\ kind_now p2 = tk_kind c /\
    forall k what, is_kind k c -> expect k what p2 = Ok (c, p').
Proof.
  intros Hp Ht Ho. destruct (takes_cons _ _ _ _ Ht) as (p1 & Hk & _ & Et & Ht1). apply takes_split in Ht1 as (p2 & Ht1 & Ht2).
  exists p1, p2. split; [done|]. split; [done|]. split.
  { apply (takes_ok p [o] p1 Hp). econstructor; [by rewrite Hk|exact Et|constructor]. }
  split; [by destruct (takes_cons _ _ _ _ Ht2) as (p3 & E & _)|].
  intros k what Hc. by destruct (expect_step k what _ _ _ _ Ht2 Hc) as (p3 & E & ->%takes_nil).
Qed.

Lemma primary_opening n d p o p1 : d <= kMaxDepth -> take p = Ok (o, p1) ->
  parse_primary (S n) d p =
  match tk_kind o with
  | TokenKind.kLParen => (let* inner := parse_ternary n (d + 1) in
      expect TokenKind.kRParen "')' to close parenthesized expression" ;* st_ret inner) p1
  | TokenKind.kLBracket => parse_array n (tk_offset o) d p
  | TokenKind.kLBrace => parse_object n (tk_offset o) d p
  | _ => parse_primary (S n) d p
  end.
Proof.
  intros Hd Et. pose proof (take_inv _ _ _ Et) as Ho. cbn [parse_primary].
  rewrite (bind_ok _ _ _ _ _ (check_here_fine d p Hd)), bind_get. cbv zeta. rewrite <- Ho.
  destruct (tk_kind o); try done. by rewrite (bind_ok _ _ _ _ _ Et).
Qed.

Lemma read_paren d o ts c e : d <= kMaxDepth -> is_kind TokenKind.kLParen o -> reads_ternary (d + 1) ts e ->
  is_kind TokenKind.kRParen c -> reads_primary d (o :: ts ++ [c]) e.
Proof.
  intros Hd Ho He Hc n p p' Hn Hp Ht. unfold levels, kMaxDepth in *. destruct n as [|n]; [lia|].
  destruct (takes_between _ _ _ _ _ Hp Ht) as (p1 & p2 & Et & Hts & Hp1 & Hk & Hx); [by rewrite Ho|].
  rewrite (primary_opening _ _ _ _ _ Hd Et), Ho. rewrite Hc in Hk.
  rewrite (bind_ok _ _ _ _ _ (He n p1 p2 ltac:(unfold levels; lia) Hp1 Hts ltac:(split; [unfold stops|]; by rewrite Hk))).
  by rewrite (bind_ok _ _ _ _ _ (Hx _ _ Hc)).
Qed.

Lemma read_array d o ts c es : d <= kMaxDepth -> is_kind TokenKind.kLBracket o -> ts = [] \/ opens (d + 1) ts ->
  g_elements (d + 1) ts es -> reads_elements (d + 1) ts es -> is_kind TokenKind.kRBracket c ->
  reads_primary d (o :: ts ++ [c]) (EArray (tk_offset o) es).
Proof.
  intros Hd Ho Hopens Hg He Hc n p p' Hn Hp Ht. unfold levels, kMaxDepth in *. do 2 (destruct n as [|n]; [lia|]).
  destruct (takes_between _ _ _ _ _ Hp Ht) as (p1 & p2 & Et & Hts & Hp1 & Hk & Hx); [by rewrite Ho|].
  rewrite (primary_opening _ _ _ _ _ Hd Et), Ho. rewrite Hc in Hk. cbn [parse_array].
  rewrite (bind_ok _ _ _ _ _ (check_depth_fine d _ p Hd)).
  destruct (expect_step TokenKind.kLBracket "'['" _ _ _ _ Ht Ho) as (p1' & Eo & _).
  assert (p1' = p1) as ->.
  { unfold expect, check in Eo. rewrite bind_get in Eo. case_bool_decide; [|done]. congruence. }
  rewrite (bind_ok _ _ _ _ _ Eo). unfold check. rewrite !bind_get.
  assert (E : (if bool_decide (kind_now p1 = TokenKind.kRBracket) then st_ret []
    else elements_loop (ps_turns p1) (parse_ternary n (d + 1)) []) p1 = Ok (es, p2)).
  { destruct Hopens as [->|(_ & t & r & -> & Hr)].
    - apply takes_nil in Hts as ->. rewrite bool_decide_eq_true_2 by done. by rewrite (no_elements _ _ Hg).
    - pose proof (takes_turns _ _ _ Hp1 Hts) as Hlen. destruct (takes_cons _ _ _ _ Hts) as (p3 & Ek & _). rewrite bool_decide_eq_false_2 by (by rewrite Ek).
      apply He; [unfold levels; lia|done|done|done|lia|done]. }
  rewrite (bind_ok _ _ _ _ _ E). by rewrite (bind_ok _ _ _ _ _ (Hx _ _ Hc)).
Qed.

Lemma read_object d o ts c fs : d <= kMaxDepth -> is_kind TokenKind.kLBrace o ->
  reads_fields (d + 1) ts fs -> is_kind TokenKind.kRBrace c -> reads_primary d (o :: ts ++ [c]) (EObject (tk_offset o) fs).
Proof.
  intros Hd Ho He Hc n p p' Hn Hp Ht. unfold levels, kMaxDepth in *. do 2 (destruct n as [|n]; [lia|]).
  destruct (takes_between _ _ _ _ _ Hp Ht) as (p1 & p2 & Et & Hts & Hp1 & Hk & Hx); [by rewrite Ho|].
  rewrite (primary_opening _ _ _ _ _ Hd Et), Ho. rewrite Hc in Hk. cbn [parse_object].
  rewrite (bind_ok _ _ _ _ _ (check_depth_fine d _ p Hd)).
  destruct (expect_step TokenKind.kLBrace "'{'" _ _ _ _ Ht Ho) as (p1' & Eo & _).
  assert (p1' = p1) as ->.
  { unfold expect, check in Eo. rewrite bind_get in Eo. case_bool_decide; [|done]. congruence. }
  rewrite (bind_ok _ _ _ _ _ Eo), bind_get. pose proof (takes_turns _ _ _ Hp1 Hts) as Hlen.
  rewrite (bind_ok _ _ _ _ _ (He n (ps_turns p1) (tk_offset o) [] p1 p2 ltac:(unfold levels; lia) Hp1 Hts Hk Hlen)).
  by rewrite (bind_ok _ _ _ _ _ (Hx _ _ Hc)).
Qed.

Lemma read_last_element d ts e : reads_ternary d ts e -> reads_elements d ts [e].
Proof.
  intros He n turns acc p p' Hn Hp Ht Hk Hturns Hne. destruct turns as [|turns]; [destruct ts; [done|cbn in Hturns; lia]|]. cbn [elements_loop].
  rewrite (bind_ok _ _ _ _ _ (He n p p' Hn Hp Ht ltac:(split; [unfold stops|]; by rewrite Hk))). cbv zeta.
  by rewrite (bind_ok _ _ _ _ _ (accept_other TokenKind.kComma p' ltac:(by rewrite Hk))).
Qed.

Lemma read_element d ts c ts' e es : reads_ternary d ts e -> is_kind TokenKind.kComma c -> ts' = [] \/ opens d ts' ->
  g_elements d ts' es -> reads_elements d ts' es -> reads_elements d (ts ++ c :: ts') (e :: es).
Proof.
  intros He Hc Hopens Hg Hes n turns acc p p' Hn Hp Ht Hk Hturns _.
  rewrite length_app in Hturns. cbn [length] in Hturns. destruct turns as [|turns]; [lia|]. cbn [elements_loop].
  apply takes_split in Ht as (p1 & Ht1 & Ht2). destruct (takes_ok _ _ _ Hp Ht1) as [Hp1 _].
  destruct (takes_cons _ _ _ _ Ht2) as (p0 & Hk1 & _). rewrite Hc in Hk1.
  rewrite (bind_ok _ _ _ _ _ (He n p p1 Hn Hp Ht1 ltac:(split; [unfold stops|]; by rewrite Hk1))). cbv zeta.
  destruct (accept_step TokenKind.kComma _ _ _ _ Ht2 Hc) as (p2 & E2 & Ht3). rewrite (bind_ok _ _ _ _ _ E2). unfold check. rewrite bind_get.
  apply accept_inv in E2 as (c' & _ & _ & Htc); [|done]. destruct (takes_ok _ _ _ Hp1 Htc) as [Hp2 _].
  destruct Hopens as [->|(_ & t & r & -> & Hr)].
  - apply takes_nil in Ht3 as ->. rewrite bool_decide_eq_true_2 by done. by rewrite (no_elements _ _ Hg).
  - destruct (takes_cons _ _ _ _ Ht3) as (p3 & Ek & _). rewrite bool_decide_eq_false_2 by (by rewrite Ek).
    rewrite (Hes n turns (acc ++ [e]) p2 p' Hn Hp2 Ht3 Hk); [by rewrite <- app_assoc|cbn [length] in *; lia|done].
Qed.

Lemma read_no_field d : reads_fields d [] [].
Proof.
  intros n turns o acc p p' Hn Hp Ht Hk Hturns. apply takes_nil in Ht as ->. destruct turns as [|turns]; [lia|]. cbn [fields_loop].
  by rewrite bool_decide_eq_true_2, app_nil_r.
Qed.

Lemma read_stray d s ts fs : is_kind TokenKind.kSemicolon s -> reads_fields d ts fs -> reads_fields d (s :: ts) fs.
Proof.
  intros Hs Hf n turns o acc p p' Hn Hp Ht Hk Hturns. destruct turns as [|turns]; [lia|]. cbn [fields_loop].
  destruct (takes_cons _ _ _ _ Ht) as (p1 & Ek & _). rewrite Ek, Hs. rewrite !bool_decide_eq_false_2 by done.
  destruct (accept_step _ _ _ _ _ Ht Hs) as (p2 & E2 & Ht2). rewrite (bind_ok _ _ _ _ _ E2).
  apply accept_inv in E2 as (s' & _ & _ & Hts); [|done]. destruct (takes_ok _ _ _ Hp Hts) as [Hp2 _].
  apply Hf; [done..|cbn in Hturns; lia].
Qed.

Lemma read_field d key eq ts s ts' e fs : is_kind TokenKind.kIdent key -> is_kind TokenKind.kAssign eq -> reads_ternary d ts e ->
  is_kind TokenKind.kSemicolon s -> reads_fields d ts' fs ->
  reads_fields d (key :: eq :: ts ++ s :: ts') ((tk_text key, e) :: fs).
Proof.
  intros Hkey Heq He Hs Hf n turns o acc p p' Hn Hp Ht Hk Hturns. cbn [length] in Hturns. rewrite length_app in Hturns. cbn [length] in Hturns.
  destruct turns as [|turns]; [lia|]. cbn [fields_loop].
  destruct (takes_cons _ _ _ _ Ht) as (p0 & Ek & _). rewrite Ek, Hkey. rewrite !bool_decide_eq_false_2 by done.
  rewrite (bind_ok _ _ _ _ _ (accept_other TokenKind.kSemicolon p ltac:(by rewrite Ek, Hkey))).
  destruct (expect_step TokenKind.kIdent "key identifier in object literal" _ _ _ _ Ht Hkey) as (p1 & E1 & Ht1). rewrite (bind_ok _ _ _ _ _ E1).
  destruct (expect_step TokenKind.kAssign "'=' after object key" _ _ _ _ Ht1 Heq) as (p2 & E2 & Ht2). rewrite (bind_ok _ _ _ _ _ E2).
  apply expect_inv in E1 as (_ & _ & E1); [|done]. apply expect_inv in E2 as (_ & _ & E2); [|done].
  destruct (takes_ok _ _ _ Hp E1) as [Hp1 _]. destruct (takes_ok _ _ _ Hp1 E2) as [Hp2 _].
  apply takes_split in Ht2 as (p3 & Ht2 & Ht3). destruct (takes_ok _ _ _ Hp2 Ht2) as [Hp3 _].
  destruct (takes_cons _ _ _ _ Ht3) as (p3' & Ek3 & _). rewrite Hs in Ek3.
  rewrite (bind_ok _ _ _ _ _ (He n p2 p3 Hn Hp2 Ht2 ltac:(split; [unfold stops|]; by rewrite Ek3))).
  destruct (expect_step TokenKind.kSemicolon "';' after object field" _ _ _ _ Ht3 Hs) as (p4 & E4 & Ht4). rewrite (bind_ok _ _ _ _ _ E4).
  apply expect_inv in E4 as (_ & _ & E4); [|done]. destruct (takes_ok _ _ _ Hp3 E4) as [Hp4 _].
  rewrite (Hf n turns o _ p4 p' Hn Hp4 Ht4 Hk) by lia. by rewrite <- app_assoc.
Qed.

Lemma productions_complete :
  (forall d ts e, g_ternary d ts e -> reads_ternary d ts e) /\ (forall d m ts e, g_binary d m ts e -> reads_binary d m ts e) /\
  (forall d ts e, g_unary d ts e -> reads_unary d ts e) /\ (forall d ts e, g_primary d ts e -> reads_primary d ts e) /\
  (forall d ts es, g_elements d ts es -> reads_elements d ts es) /\ (forall d ts fs, g_fields d ts fs -> reads_fields d ts fs).
Proof.
  pose proof derived_opens as (Ot & Ob & Ou & Op & Oe & _).
  apply grammar_min; intros.
  - apply read_ternary_plain; [by eapply Ob|done].
  - apply read_ternary; try done. by eapply Ob.
  - by apply read_operand.
  - apply read_operator; try done. by eapply Ob.
  - apply read_primary_plain; [by eapply Op|done|done].
  - by apply read_prefix.
  - by apply read_atom.
  - by eapply read_paren.
  - eapply read_array; try done. by eapply Oe.
  - by eapply read_object.
  - by intros n turns acc p p' _ _ _ _ _ Hne.
  - by apply read_last_element.
  - apply read_element; try done. by eapply Oe.
  - apply read_no_field.
  - by apply read_stray.
  - by apply read_field.
Qed.

(** The parser reads an expression exactly where the grammar derives one that is not
    continued by the next token. *)
Lemma parse_expr_exact p e p' : parser_ok size p ->
  parse_expr 1 p = Ok (e, p') <-> exists ts, takes p ts p' /\ g_ternary 1 ts e /\ ends p'.
Proof.
  intros Hp. split; [apply productions_sound|]. intros (ts & Ht & Hg & He).
  apply (proj1 productions_complete _ _ _ Hg); [unfold levels, expr_levels; lia|done..].
Qed.
End completeness.

(** ** Statements *)

(** The rest of a dotted path. *)
Inductive g_path : list Token -> list bytes -> Prop :=
  | GPathEnd : g_path [] []
  | GPathPart dot part ts path : is_kind TokenKind.kDot dot -> is_kind TokenKind.kIdent part -> g_path ts path ->
      g_path (dot :: part :: ts) (tk_text part :: path).

Inductive g_label : list Token -> option bytes -> Prop :=
  | GNoLabel : g_label [] None
  | GLabel t : is_kind TokenKind.kString t -> g_label [t] (Some (tk_text t)).

Inductive g_statement : Z -> list Token -> ParsedStatement -> Prop :=
  | GAssignment d first pts path eq ts e s : d <= kMaxDepth -> is_kind TokenKind.kIdent first -> g_path pts path ->
      is_kind TokenKind.kAssign eq -> g_ternary 1 ts e -> is_kind TokenKind.kSemicolon s ->
      g_statement d (first :: pts ++ eq :: ts ++ [s]) (SAssignment (tk_offset first) (tk_text first :: path) e)
  | GBlock d first lts label o ts c sts : d <= kMaxDepth -> is_kind TokenKind.kIdent first -> g_label lts label ->
      is_kind TokenKind.kLBrace o -> g_statements (d + 1) ts sts -> is_kind TokenKind.kRBrace c ->
      g_statement d (first :: lts ++ o :: ts ++ [c]) (SBlock (tk_offset first) (tk_text first) label sts)
  | GInclude d i path s : d <= kMaxDepth -> is_kind TokenKind.kInclude i -> is_kind TokenKind.kString path ->
      is_kind TokenKind.kSemicolon s -> g_statement d [i; path; s] (SInclude (tk_offset i) (tk_text path))
(** Statements one after the other, with stray semicolons allowed. *)
with g_statements : Z -> list Token -> list ParsedStatement -> Prop :=
  | GNoStatement d : g_statements d [] []
  | GStraySemicolon d s ts sts : is_kind TokenKind.kSemicolon s -> g_statements d ts sts -> g_statements d (s :: ts) sts
  | GStatement d ts ts' st sts : g_statement d ts st -> g_statements d ts' sts -> g_statements d (ts ++ ts') (st :: sts).

Scheme g_statement_min := Minimality for g_statement Sort Prop
  with g_statements_min := Minimality for g_statements Sort Prop.
Combined Scheme statement_min from g_statement_min, g_statements_min.

(** The tokens of a source, up to its end. *)
Definition scans (data : bytes) (ts : list Token) : Prop :=
  exists p p', new_parser data = Ok p /\ takes p ts p' /\ kind_now p' = TokenKind.kEof.

(** *** What the parser returns is derived *)

Lemma path_loop_sound turns : forall acc p path p', path_loop turns acc p = Ok (path, p') ->
  exists ts rest, path = acc ++ rest /\ takes p ts p' /\ g_path ts rest.
Proof.
  induction turns as [|turns IH]; intros acc p path p' H; [done|]. cbn [path_loop] in H. bind_step H. destruct a.
  - destruct H0 as (dot & Hd & _ & Hd2). bind_step H. destruct (IH _ _ _ _ H) as (ts & rest & -> & Ht & Hg).
    exists (dot :: a :: ts), (tk_text a :: rest). split; [by rewrite <- app_assoc|]. split; [|by constructor].
    apply (takes_app _ [dot] _ (a :: ts) _ Hd2). by apply (takes_app _ [a] _ ts _ H2).
  - destruct H0 as [_ ->]. injection H as <- <-. exists [], []. rewrite app_nil_r. repeat split; constructor.
Qed.

Section block_sound.
Context (d : Z) (statement : P ParsedStatement).
Context (Hst : forall p st p', statement p = Ok (st, p') -> exists ts, takes p ts p' /\ g_statement d ts st).

Lemma block_loop_sound turns o : forall acc p sts p', block_loop turns statement o acc p = Ok (sts, p') ->
  exists ts sts', sts = acc ++ sts' /\ takes p ts p' /\ g_statements d ts sts'.
Proof.
  induction turns as [|turns IH]; intros acc p sts p' H; [done|]. cbn [block_loop] in H.
  case_bool_decide as E1; [injection H as <- <-; exists [], []; rewrite app_nil_r; repeat split; constructor|].
  case_bool_decide as E2; [done|]. bind_step H. destruct a.
  - destruct H0 as (s & Hs & _ & Hs2). destruct (IH _ _ _ _ H) as (ts & sts' & -> & Ht & Hg).
    exists (s :: ts), sts'. split; [done|]. split; [by apply (takes_app _ [s] _ ts _ Hs2)|by constructor].
  - destruct H0 as [_ ->]. bind_step H. destruct (Hst _ _ _ H0) as (ts & Ht & Hg).
    destruct (IH _ _ _ _ H) as (ts' & sts' & -> & Ht' & Hg'). exists (ts ++ ts'), (a :: sts').
    split; [by rewrite <- app_assoc|]. split; [by eapply takes_app|by constructor].
Qed.

Lemma parse_block_sound name label o p st p' : parse_block statement name label o p = Ok (st, p') ->
  exists b ts c sts, takes p (b :: ts ++ [c]) p' /\ is_kind TokenKind.kLBrace b /\ is_kind TokenKind.kRBrace c /\
    g_statements d ts sts /\ st = SBlock o name label sts.
Proof.
  unfold parse_block. intros H. bind_step H. rewrite bind_get in H. bind_step H.
  destruct (block_loop_sound _ _ _ _ _ _ H3) as (ts & sts & -> & Ht & Hg). bind_step H. injection H as <- <-.
  exists a, ts, a0, sts. split; [|done]. apply (takes_app _ [a] _ (ts ++ [a0]) _ H2). by eapply takes_app.
Qed.
End block_sound.

Lemma document_loop_sound turns : forall acc p sts p',
  (forall p st p', parse_statement stmt_levels 1 p = Ok (st, p') -> exists ts, takes p ts p' /\ g_statement 1 ts st) ->
  document_loop turns acc p = Ok (sts, p') ->
  kind_now p' = TokenKind.kEof /\ exists ts sts', sts = acc ++ sts' /\ takes p ts p' /\ g_statements 1 ts sts'.
Proof.
  induction turns as [|turns IH]; intros acc p sts p' Hst H; [done|]. cbn [document_loop] in H.
  case_bool_decide as E1; [injection H as <- <-; split; [done|]; exists [], []; rewrite app_nil_r; repeat split; constructor|].
  bind_step H. destruct a.
  - destruct H0 as (s & Hs & _ & Hs2). destruct (IH _ _ _ _ Hst H) as (Hk & ts & sts' & -> & Ht & Hg). split; [done|].
    exists (s :: ts), sts'. split; [done|]. split; [by apply (takes_app _ [s] _ ts _ Hs2)|by constructor].
  - destruct H0 as [_ ->]. bind_step H. destruct (Hst _ _ _ H0) as (ts & Ht & Hg).
    destruct (IH _ _ _ _ Hst H) as (Hk & ts' & sts' & -> & Ht' & Hg'). split; [done|]. exists (ts ++ ts'), (a :: sts').
    split; [by rewrite <- app_assoc|]. split; [by eapply takes_app|by constructor].
Qed.

Lemma assignment_sound path o p st p' : parse_assignment path o p = Ok (st, p') ->
  exists eq ts e s, takes p (eq :: ts ++ [s]) p' /\ is_kind TokenKind.kAssign eq /\ g_ternary 1 ts e /\
    is_kind TokenKind.kSemicolon s /\ st = SAssignment o path e.
Proof.
  unfold parse_assignment, parse_expr. intros H. bind_step H. bind_step H.
  destruct (proj1 (productions_sound _) _ _ _ _ H3) as (ts & Ht & Hg & _). bind_step H. injection H as <- <-.
  exists a, ts, a0, a1. split; [|done]. apply (takes_app _ [a] _ (ts ++ [a1]) _ H2). by eapply takes_app.
Qed.

Lemma takes_offset p t ts p' : takes p (t :: ts) p' -> offset_now p = tk_offset t.
Proof. intros H. by destruct (takes_cons _ _ _ _ H) as (p1 & _ & -> & _). Qed.

Lemma parse_statement_sound n : forall d p st p', parse_statement n d p = Ok (st, p') ->
  exists ts, takes p ts p' /\ g_statement d ts st.
Proof.
  induction n as [|n IH]; intros d p st p' H; [done|]. cbn [parse_statement] in H. bind_step H. rewrite bind_get in H.
  bind_step H. case_bool_decide as E.
  - unfold parse_include in H. bind_step H. apply take_takes in H1 as [-> Ht]; [|by rewrite E]. bind_step H. bind_step H.
    injection H as <- <-. change (offset_now p) with (tk_offset (ps_cur p)). exists [ps_cur p; a0; a1]. split; [|by constructor].
    apply (takes_app _ [ps_cur p] _ [a0; a1] _ Ht). by apply (takes_app _ [a0] _ [a1] _ H3).
  - bind_step H. cbv zeta in H. pose proof (takes_offset _ _ _ _ H3) as Ho. rewrite Ho in H. bind_step H. case_bool_decide as Es.
    + bind_step H. apply take_takes in H4 as [-> Ht]; [|by rewrite Es]. bind_step H. case_bool_decide; [|done].
      destruct (parse_block_sound (d + 1) _ (IH (d + 1)) _ _ _ _ _ _ H) as (b & ts & c & sts & Hts & Hb & Hc & Hg & ->).
      exists (a0 :: [ps_cur p0] ++ b :: ts ++ [c]). split; [|by apply GBlock; try done; constructor].
      apply (takes_app _ [a0] _ _ _ H3). by apply (takes_app _ [ps_cur p0] _ _ _ Ht).
    + bind_step H. case_bool_decide.
      * destruct (parse_block_sound (d + 1) _ (IH (d + 1)) _ _ _ _ _ _ H) as (b & ts & c & sts & Hts & Hb & Hc & Hg & ->).
        exists (a0 :: [] ++ b :: ts ++ [c]). split; [|by apply GBlock; try done; constructor]. by apply (takes_app _ [a0] _ _ _ H3).
      * rewrite bind_get in H. bind_step H. destruct (path_loop_sound _ _ _ _ _ H5) as (pts & rest & -> & Hpt & Hpg).
        destruct (assignment_sound _ _ _ _ _ H) as (eq & ts & e & s & Hts & Heq & Hg & Hs & ->).
        exists (a0 :: pts ++ eq :: ts ++ [s]). split; [|by apply GAssignment].
        apply (takes_app _ [a0] _ _ _ H3). by eapply takes_app.
Qed.

(** *** What is derived, the parser returns *)

(** A statement starts with a name or [include]. *)
Lemma statement_starts d ts st : g_statement d ts st ->
  d <= kMaxDepth /\ exists t ts', ts = t :: ts' /\ (tk_kind t = TokenKind.kIdent \/ tk_kind t = TokenKind.kInclude).
Proof. intros [? first|? first|? i]; (split; [done|]); eexists _, _; (split; [reflexivity|]); auto. Qed.

Section statements_complete.
Context (size : nat).

Lemma expect_ok k what p t ts p' : parser_ok size p -> takes p (t :: ts) p' -> is_kind k t -> k <> TokenKind.kEof ->
  exists p1, expect k what p = Ok (t, p1) /\ takes p1 ts p' /\ parser_ok size p1.
Proof.
  intros Hp Ht Hk Hne. destruct (expect_step k what _ _ _ _ Ht Hk) as (p1 & E & Ht1). exists p1. split; [done|]. split; [done|].
  apply expect_inv in E as (_ & _ & E); [|done]. by apply (takes_ok size p [t]).
Qed.

Lemma takes_kind p t ts p' : takes p (t :: ts) p' -> kind_now p = tk_kind t.
Proof. intros H. by destruct (takes_cons _ _ _ _ H) as (p1 & E & _). Qed.

Lemma read_path ts path : g_path ts path -> forall turns acc p p', parser_ok size p -> takes p ts p' ->
  kind_now p' <> TokenKind.kDot -> (length ts < turns)%nat -> path_loop turns acc p = Ok (acc ++ path, p').
Proof.
  induction 1 as [|dot part ts path Hdot Hpart Hg IH]; intros turns acc p p' Hp Ht Hk Hturns; (destruct turns as [|turns]; [lia|]); cbn [path_loop].
  - apply takes_nil in Ht as ->. rewrite (bind_ok _ _ _ _ _ (accept_other _ _ Hk)). by rewrite app_nil_r.
  - destruct (accept_step _ _ _ _ _ Ht Hdot) as (p1 & E1 & Ht1). rewrite (bind_ok _ _ _ _ _ E1).
    apply accept_inv in E1 as (dot' & _ & _ & E1); [|done]. destruct (takes_ok _ _ _ _ Hp E1) as [Hp1 _].
    destruct (expect_ok TokenKind.kIdent "identifier after '.'" _ _ _ _ Hp1 Ht1 Hpart) as (p2 & E2 & Ht2 & Hp2); [done|].
    rewrite (bind_ok _ _ _ _ _ E2). cbn [length] in Hturns. rewrite (IH turns _ p2 p' Hp2 Ht2 Hk) by lia. by rewrite <- app_assoc.
Qed.

Definition reads_statement d ts st : Prop := forall n p p', 66 - d <= Z.of_nat n -> parser_ok size p -> takes p ts p' ->
  parse_statement n d p = Ok (st, p').
Definition reads_statements d ts sts : Prop := forall n turns o acc p p', 66 - d <= Z.of_nat n -> parser_ok size p -> takes p ts p' ->
  kind_now p' = TokenKind.kRBrace -> (length ts < turns)%nat ->
  block_loop turns (parse_statement n d) o acc p = Ok (acc ++ sts, p').

Lemma read_include d i path s : d <= kMaxDepth -> is_kind TokenKind.kInclude i -> is_kind TokenKind.kString path ->
  is_kind TokenKind.kSemicolon s -> reads_statement d [i; path; s] (SInclude (tk_offset i) (tk_text path)).
Proof.
  intros Hd Hi Hpath Hs n p p' Hn Hp Ht. unfold kMaxDepth in *. destruct n as [|n]; [lia|]. cbn [parse_statement].
  rewrite (bind_ok _ _ _ _ _ (check_here_fine d p Hd)). unfold check at 1. rewrite !bind_get.
  rewrite bool_decide_eq_true_2 by (by rewrite (takes_kind _ _ _ _ Ht)). unfold parse_include. rewrite (takes_offset _ _ _ _ Ht).
  destruct (takes_cons _ _ _ _ Ht) as (p1 & Hk & _ & E1 & Ht1). rewrite (bind_ok _ _ _ _ _ E1).
  destruct (takes_ok size p [i] p1 Hp) as [Hp1 _]; [econstructor; [by rewrite Hk, Hi|exact E1|constructor]|].
  destruct (expect_ok TokenKind.kString "string path after 'include'" _ _ _ _ Hp1 Ht1 Hpath) as (p2 & E2 & Ht2 & Hp2); [done|].
  rewrite (bind_ok _ _ _ _ _ E2).
  destruct (expect_ok TokenKind.kSemicolon "';' after include path" _ _ _ _ Hp2 Ht2 Hs) as (p3 & E3 & Ht3 & Hp3); [done|].
  rewrite (bind_ok _ _ _ _ _ E3). by apply takes_nil in Ht3 as ->.
Qed.

(** The first name of an assignment or a block. *)
Lemma statement_name n d p first ts p' : d <= kMaxDepth -> parser_ok size p -> is_kind TokenKind.kIdent first ->
  takes p (first :: ts) p' ->
  exists p1, takes p1 ts p' /\ parser_ok size p1 /\ parse_statement (S n) d p =
    (let* labelled := check TokenKind.kString in
     if labelled then
       let* label := take in
       let* opening := check TokenKind.kLBrace in
       if opening then parse_block (parse_statement n (d + 1)) (tk_text first) (Some (tk_text label)) (tk_offset first)
       else fun p => ps_error (offset_now p) "expected '{' after block label" p
     else
       let* opening := check TokenKind.kLBrace in
       if opening then parse_block (parse_statement n (d + 1)) (tk_text first) None (tk_offset first)
       else let* turns := st_get ps_turns in
            let* path := path_loop turns [tk_text first] in
            parse_assignment path (tk_offset first)) p1.
Proof.
  intros Hd Hp Hf Ht. cbn [parse_statement]. rewrite (bind_ok _ _ _ _ _ (check_here_fine d p Hd)). unfold check at 1. rewrite !bind_get.
  rewrite bool_decide_eq_false_2 by (by rewrite (takes_kind _ _ _ _ Ht), Hf). rewrite (takes_offset _ _ _ _ Ht).
  destruct (expect_ok TokenKind.kIdent "identifier at start of statement" _ _ _ _ Hp Ht Hf) as (p1 & E1 & Ht1 & Hp1); [done|].
  exists p1. split; [done|]. split; [done|]. by rewrite (bind_ok _ _ _ _ _ E1).
Qed.

Lemma read_block_body d n p o ts c sts name label off p' : parser_ok size p -> is_kind TokenKind.kLBrace o ->
  reads_statements (d + 1) ts sts -> is_kind TokenKind.kRBrace c -> 66 - (d + 1) <= Z.of_nat n -> takes p (o :: ts ++ [c]) p' ->
  parse_block (parse_statement n (d + 1)) name label off p = Ok (SBlock off name label sts, p').
Proof.
  intros Hp Ho Hs Hc Hn Ht. unfold parse_block.
  destruct (expect_ok TokenKind.kLBrace "'{' to open block" _ _ _ _ Hp Ht Ho) as (p1 & E1 & Ht1 & Hp1); [done|].
  rewrite (bind_ok _ _ _ _ _ E1), bind_get. apply takes_split in Ht1 as (p2 & Ht1 & Ht2).
  pose proof (takes_turns _ _ _ _ Hp1 Ht1) as Hlen. destruct (takes_ok _ _ _ _ Hp1 Ht1) as [Hp2 _].
  rewrite (bind_ok _ _ _ _ _ (Hs n (ps_turns p1) off [] p1 p2 Hn Hp1 Ht1 ltac:(by rewrite (takes_kind _ _ _ _ Ht2)) Hlen)).
  destruct (expect_ok TokenKind.kRBrace "'}' to close block" _ _ _ _ Hp2 Ht2 Hc) as (p3 & E3 & Ht3 & _); [done|].
  rewrite (bind_ok _ _ _ _ _ E3). by apply takes_nil in Ht3 as ->.
Qed.

Lemma read_block d first lts label o ts c sts : d <= kMaxDepth -> is_kind TokenKind.kIdent first -> g_label lts label ->
  is_kind TokenKind.kLBrace o -> reads_statements (d + 1) ts sts -> is_kind TokenKind.kRBrace c ->
  reads_statement d (first :: lts ++ o :: ts ++ [c]) (SBlock (tk_offset first) (tk_text first) label sts).
Proof.
  intros Hd Hf Hl Ho Hs Hc n p p' Hn Hp Ht. unfold kMaxDepth in *. destruct n as [|n]; [lia|].
  destruct (statement_name n d p first _ p' Hd Hp Hf Ht) as (p1 & Ht1 & Hp1 & ->). unfold check. rewrite bind_get. destruct Hl as [|t Hl]; cbn [app] in Ht1.
  - rewrite bool_decide_eq_false_2, bind_get, bool_decide_eq_true_2 by (by rewrite (takes_kind _ _ _ _ Ht1), Ho).
    eapply read_block_body; try done. lia.
  - rewrite bool_decide_eq_true_2 by (by rewrite (takes_kind _ _ _ _ Ht1), Hl).
    destruct (takes_cons _ _ _ _ Ht1) as (p2 & Hk & _ & E2 & Ht2). rewrite (bind_ok _ _ _ _ _ E2), bind_get.
    destruct (takes_ok size p1 [t] p2 Hp1) as [Hp2 _]; [econstructor; [by rewrite Hk, Hl|exact E2|constructor]|].
    rewrite bool_decide_eq_true_2 by (by rewrite (takes_kind _ _ _ _ Ht2), Ho). eapply read_block_body; try done. lia.
Qed.

Lemma read_assignment_body path off p eq ts e s p' : parser_ok size p -> is_kind TokenKind.kAssign eq -> g_ternary 1 ts e ->
  is_kind TokenKind.kSemicolon s -> takes p (eq :: ts ++ [s]) p' -> parse_assignment path off p = Ok (SAssignment off path e, p').
Proof.
  intros Hp Heq Hg Hs Ht. unfold parse_assignment.
  destruct (expect_ok TokenKind.kAssign "'=' in assignment" _ _ _ _ Hp Ht Heq) as (p1 & E1 & Ht1 & Hp1); [done|].
  rewrite (bind_ok _ _ _ _ _ E1). apply takes_split in Ht1 as (p2 & Ht1 & Ht2). destruct (takes_ok _ _ _ _ Hp1 Ht1) as [Hp2 _].
  pose proof (takes_kind _ _ _ _ Ht2) as Hk. rewrite Hs in Hk.
  assert (E2 : parse_expr 1 p1 = Ok (e, p2)).
  { apply (parse_expr_exact size); [done|]. exists ts. split; [done|]. split; [done|]. split; [unfold stops|]; by rewrite Hk. }
  rewrite (bind_ok _ _ _ _ _ E2).
  destruct (expect_ok TokenKind.kSemicolon "';' after assignment" _ _ _ _ Hp2 Ht2 Hs) as (p3 & E3 & Ht3 & _); [done|].
  rewrite (bind_ok _ _ _ _ _ E3). by apply takes_nil in Ht3 as ->.
Qed.

Lemma read_assignment d first pts path eq ts e s : d <= kMaxDepth -> is_kind TokenKind.kIdent first -> g_path pts path ->
  is_kind TokenKind.kAssign eq -> g_ternary 1 ts e -> is_kind TokenKind.kSemicolon s ->
  reads_statement d (first :: pts ++ eq :: ts ++ [s]) (SAssignment (tk_offset first) (tk_text first :: path) e).
Proof.
  intros Hd Hf Hpath Heq Hg Hs n p p' Hn Hp Ht. unfold kMaxDepth in *. destruct n as [|n]; [lia|].
  destruct (statement_name n d p first _ p' Hd Hp Hf Ht) as (p1 & Ht1 & Hp1 & ->). unfold check.
  assert (Hk : kind_now p1 = TokenKind.kDot \/ kind_now p1 = TokenKind.kAssign).
  { destruct Hpath as [|dot part ts' path Hdot _ _]; cbn [app] in Ht1; rewrite (takes_kind _ _ _ _ Ht1); [right; exact Heq|left; exact Hdot]. }
  rewrite bind_get, bool_decide_eq_false_2 by (by destruct Hk as [-> | ->]).
  rewrite bind_get, bool_decide_eq_false_2, bind_get by (by destruct Hk as [-> | ->]).
  apply takes_split in Ht1 as (p2 & Ht1 & Ht2). destruct (takes_ok _ _ _ _ Hp1 Ht1) as [Hp2 _].
  pose proof (takes_turns _ _ _ _ Hp1 Ht1) as Hlen. pose proof (takes_kind _ _ _ _ Ht2) as Hk2. rewrite Heq in Hk2.
  rewrite (bind_ok _ _ _ _ _ (read_path _ _ Hpath (ps_turns p1) [tk_text first] p1 p2 Hp1 Ht1 ltac:(by rewrite Hk2) Hlen)).
  cbn [app]. exact (read_assignment_body _ _ _ _ _ _ _ _ Hp2 Heq Hg Hs Ht2).
Qed.

(** In a list, the next statement is neither a closing brace, nor a semicolon, nor the end. *)
Lemma at_statement d ts ts' st p p' : g_statement d ts st -> takes p (ts ++ ts') p' ->
  kind_now p = TokenKind.kIdent \/ kind_now p = TokenKind.kInclude.
Proof.
  intros Hg Ht. destruct (statement_starts _ _ _ Hg) as (_ & t & r & -> & Hk). cbn [app] in Ht. by rewrite (takes_kind _ _ _ _ Ht).
Qed.

Lemma statement_length d ts st : g_statement d ts st -> (1 <= length ts)%nat.
Proof. intros Hg. destruct (statement_starts _ _ _ Hg) as (_ & t & r & -> & _). cbn. lia. Qed.

Lemma statements_complete :
  (forall d ts st, g_statement d ts st -> reads_statement d ts st) /\
  (forall d ts sts, g_statements d ts sts -> reads_statements d ts sts).
Proof.
  apply statement_min; intros.
  - by apply read_assignment.
  - by apply read_block.
  - by apply read_include.
  - intros n turns o acc p p' Hn Hp Ht Hk Hturns. apply takes_nil in Ht as ->. destruct turns; [lia|]. cbn [block_loop].
    by rewrite bool_decide_eq_true_2, app_nil_r.
  - intros n turns o acc p p' Hn Hp Ht Hk Hturns. destruct turns as [|turns]; [lia|]. cbn [block_loop].
    rewrite (takes_kind _ _ _ _ Ht), H, !bool_decide_eq_false_2 by done.
    destruct (accept_step _ _ _ _ _ Ht H) as (p1 & E1 & Ht1). rewrite (bind_ok _ _ _ _ _ E1).
    apply accept_inv in E1 as (s' & _ & _ & E1); [|done]. destruct (takes_ok _ _ _ _ Hp E1) as [Hp1 _].
    apply H1; [done..|cbn in Hturns; lia].
  - intros n turns o acc p p' Hn Hp Ht Hk Hturns. destruct turns as [|turns]; [lia|]. cbn [block_loop].
    destruct (at_statement _ _ _ _ _ _ H Ht) as [Ek|Ek]; rewrite Ek, !bool_decide_eq_false_2 by done;
      rewrite (bind_ok _ _ _ _ _ (accept_other TokenKind.kSemicolon p ltac:(by rewrite Ek)));
      apply takes_split in Ht as (p1 & Ht1 & Ht2); rewrite (bind_ok _ _ _ _ _ (H0 n p p1 Hn Hp Ht1));
      destruct (takes_ok _ _ _ _ Hp Ht1) as [Hp1 _]; pose proof (statement_length _ _ _ H); rewrite length_app in Hturns;
      rewrite (H2 n turns o _ p1 p' Hn Hp1 Ht2 Hk) by lia; by rewrite <- app_assoc.
Qed.

Lemma document_complete d ts sts : g_statements d ts sts -> d = 1 -> forall turns acc p p', parser_ok size p -> takes p ts p' ->
  kind_now p' = TokenKind.kEof -> (length ts < turns)%nat -> document_loop turns acc p = Ok (acc ++ sts, p').
Proof.
  induction 1 as [d|d s ts sts Hs Hg IH|d ts ts' st sts Hst Hg IH]; intros -> turns acc p p' Hp Ht Hk Hturns;
    (destruct turns as [|turns]; [lia|]); cbn [document_loop].
  - apply takes_nil in Ht as ->. by rewrite bool_decide_eq_true_2, app_nil_r.
  - rewrite (takes_kind _ _ _ _ Ht), Hs, !bool_decide_eq_false_2 by done.
    destruct (accept_step _ _ _ _ _ Ht Hs) as (p1 & E1 & Ht1). rewrite (bind_ok _ _ _ _ _ E1).
    apply accept_inv in E1 as (s' & _ & _ & E1); [|done]. destruct (takes_ok _ _ _ _ Hp E1) as [Hp1 _].
    apply IH; [done..|cbn in Hturns; lia].
  - pose proof (at_statement _ _ _ _ _ _ Hst Ht) as Ek. rewrite bool_decide_eq_false_2 by (by destruct Ek as [-> | ->]).
    rewrite (bind_ok _ _ _ _ _ (accept_other TokenKind.kSemicolon p ltac:(by destruct Ek as [-> | ->]))).
    apply takes_split in Ht as (p1 & Ht1 & Ht2).
    rewrite (bind_ok _ _ _ _ _ (proj1 statements_complete _ _ _ Hst stmt_levels p p1 ltac:(unfold stmt_levels; lia) Hp Ht1)).
    destruct (takes_ok _ _ _ _ Hp Ht1) as [Hp1 _]. pose proof (statement_length _ _ _ Hst). rewrite length_app in Hturns.
    rewrite (IH eq_refl turns _ p1 p' Hp1 Ht2 Hk) by lia. by rewrite <- app_assoc.
Qed.
End statements_complete.

Lemma new_parser_ok data p : bytes_ok data -> new_parser data = Ok p -> parser_ok (length data) p.
Proof.
  intros Hd. unfold new_parser. assert (Hl : lx_ok (new_lexer data)) by (split; [cbn; lia|done]).
  pose proof (next_spec _ Hl) as H. destruct (next (new_lexer data)) as [[t l]|e| |]; [|done..]. cbn [obind]. intros [= <-].
  by destruct (next_parser (length data) _ _ _ H Hl eq_refl).
Qed.

(** ** Claims *)

(** The parser accepts exactly the grammar. A source parses to the statements
    [sts] if and only if its tokens are derived as [sts] by the grammar above: twelve
    levels of left-associative binary operators, the right-associative ternary below
    them and the prefix operators above, arrays with an optional trailing comma,
    objects and blocks with stray semicolons, dotted paths, labels and includes, all
    within the nesting limit. In particular the grammar is unambiguous: the tokens of
    a source have at most one tree. *)
Theorem parser_exact (data : bytes) : bytes_ok data ->
  (forall sts, parse_source data = Ok sts <-> exists ts, scans data ts /\ g_statements 1 ts sts) /\
  (forall ts sts1 sts2, scans data ts -> g_statements 1 ts sts1 -> g_statements 1 ts sts2 -> sts1 = sts2).
Proof.
  intros Hd. assert (Hc : forall ts sts, scans data ts -> g_statements 1 ts sts -> parse_source data = Ok sts).
  { intros ts sts (p & p' & E & Ht & Hk) Hg. pose proof (new_parser_ok data p Hd E) as Hp. unfold parse_source, parse_document.
    rewrite E. cbn [obind]. rewrite bind_get.
    by rewrite (document_complete (length data) 1 ts sts Hg eq_refl _ [] p p' Hp Ht Hk (takes_turns _ _ _ _ Hp Ht)). }
  split.
  - intros sts. split; [|by intros (ts & Hs & Hg); apply (Hc ts)]. unfold parse_source, parse_document.
    destruct (new_parser data) as [p|e| |] eqn:E; cbn [obind]; [|done..]. rewrite bind_get.
    destruct (document_loop _ _ _) as [[sts' p']|e| |] eqn:El; cbn [obind]; [|done..]. intros [= ->].
    destruct (document_loop_sound _ _ _ _ _ (parse_statement_sound stmt_levels 1) El) as (Hk & ts & sts' & -> & Ht & Hg).
    exists ts. split; [by exists p, p'|done].
  - intros ts sts1 sts2 Hs H1 H2. apply (Hc ts) in H1, H2; [|done..]. congruence.
Qed.

Lemma parser_exact_witness :
  (exists ts, scans (lit "a.b = x - 1 - 2 * -y ? p : q ? r : s;") ts /\
     g_statements 1 ts
       [SAssignment 0 [lit "a"; lit "b"]
          (ETernary 21 (EBinary 12 TokenKind.kMinus (EBinary 8 TokenKind.kMinus (EIdent 6 (lit "x")) (EInt 10 1))
              (EBinary 16 TokenKind.kStar (EInt 14 2) (EUnary 18 TokenKind.kMinus (EIdent 19 (lit "y")))))
            (EIdent 23 (lit "p"))
            (ETernary 29 (EIdent 27 (lit "q")) (EIdent 31 (lit "r")) (EIdent 35 (lit "s"))))]) /\
  ~ exists sts ts, scans (lit "a = [1,,];") ts /\ g_statements 1 ts sts.
Proof.
  split.
  - apply (parser_exact (lit "a.b = x - 1 - 2 * -y ? p : q ? r : s;") (lit_ok _)). vm_compute. reflexivity.
  - intros (sts & ts & H). pose proof (proj2 (proj1 (parser_exact (lit "a = [1,,];") (lit_ok _)) sts) (ex_intro _ ts H)) as E.
    vm_compute in E. discriminate E.
Defined.
