(* ===== verification/CfgLexical.v ===== *)
(** * CfgLexical: the lexical grammar of cfgscript, and the scanner against it

    White space and comments, words, numbers, strings with their escapes and operators
    as inductive relations on bytes, each with the boundary to what follows that makes
    the longest token the only reading. The scanner of [CfgLexer] reads a source as
    the tokens the grammar gives it, with [CfgGrammar] a description of the whole
    syntax from bytes to statements. *)

From S2P Require Import Prelude Status Stateful CfgNumber CfgLexer CfgParser CfgTokens CfgGrammar.
From S2P Require Utf8.

(** ** White space and comments *)

(** No end of a block comment inside. *)
Fixpoint no_close (w : bytes) : bool :=
  match w with
  | [] => true
  | c :: w' => negb ((c =? 42) && match w' with d :: _ => d =? 47 | [] => false end) && no_close w'
  end.

Definition not_newline (c : Z) : bool := negb (c =? 10).

(** [blank w r]: [w] is white space and comments, before [r]. A line comment goes up to
    a newline or the end of the input. *)
Inductive blank : bytes -> bytes -> Prop :=
  | BNone r : blank [] r
  | BSpace c w r : is_space c = true -> blank w r -> blank (c :: w) r
  | BLine open body w r : open ∈ [[35]; [47; 47]] -> Forall (fun c => not_newline c = true) body ->
      head_not not_newline (w ++ r) -> blank w r -> blank (open ++ body ++ w) r
  | BBlock body w r : no_close body = true -> blank w r -> blank ([47; 42] ++ body ++ [42; 47] ++ w) r.

(** Neither white space nor a comment begins here. *)
Definition token_start (r : bytes) : Prop :=
  match r with
  | [] => True
  | c :: r' => is_space c = false /\ c <> 35 /\ (c = 47 -> head_not (fun d => (d =? 47) || (d =? 42)) r')
  end.

(** *** Moving the cursor *)

(** The cursor [l] is before [w ++ r], and [l'] is after [w]. *)
Definition moved (l : lexer) (w r : bytes) (l' : lexer) : Prop := lx_after l w l' /\ lx_rest l' = r.

Lemma moved_ok l w r l' : moved l w r l' -> lx_ok l'.
Proof. by intros [[? _] _]. Qed.
Lemma moved_rest l w r l' : moved l w r l' -> lx_rest l' = r.
Proof. by intros [_ ?]. Qed.
Lemma moved_before l w r l' : moved l w r l' -> lx_rest l = w ++ r.
Proof. by intros [(_ & _ & _ & ->) <-]. Qed.
Lemma moved_nil l : lx_ok l -> moved l [] (lx_rest l) l.
Proof. intros Hl. split; [by apply lx_after_nil|done]. Qed.
Lemma moved_app l w r l' w' r' l'' : moved l w r l' -> moved l' w' r' l'' -> moved l (w ++ w') r' l''.
Proof. intros [H _] [H' ?]. split; [by eapply lx_after_trans|done]. Qed.
Lemma moved_cons l c r l' w' r' l'' : moved l [c] r l' -> moved l' w' r' l'' -> moved l (c :: w') r' l''.
Proof. apply moved_app. Qed.
Lemma moved_offset l w r l' : moved l w r l' -> lx_offset l' = lx_offset l + Z.of_nat (length w).
Proof. intros [(_ & _ & H & _) _]. unfold lx_offset. lia. Qed.

Lemma advance_moved l c w : lx_ok l -> lx_rest l = c :: w -> exists l', advance l = Ok (c, l') /\ moved l [c] w l'.
Proof. intros Hl E. destruct (advance_rest l c w Hl E) as (l' & E1 & H1 & H2). by exists l'. Qed.

Lemma lx_turns_rest l : lx_turns l = S (length (lx_rest l)).
Proof. unfold lx_turns, lx_rest. by rewrite length_drop. Qed.

Lemma at_end_rest l : lx_at_end l = true -> lx_rest l = [].
Proof. rewrite lx_at_end_rest. by destruct (lx_rest l). Qed.
Lemma not_end_rest l : lx_at_end l = false -> exists w, lx_rest l = lx_peek 0 l :: w.
Proof. rewrite lx_at_end_rest, lx_peek_rest. destruct (lx_rest l) as [|c w]; [done|]. by exists w. Qed.

Lemma peek_0 l c w : lx_rest l = c :: w -> lx_at_end l = false /\ lx_peek 0 l = c.
Proof. intros E. destruct (lx_rest_head l c w E) as (? & ? & _). done. Qed.
Lemma peek_1 l c d w : lx_rest l = c :: d :: w -> lx_peek 1 l = d.
Proof. intros E. by rewrite lx_peek_rest, E. Qed.

(** One step: [advance] on a known byte. *)
Ltac step l' H :=
  match goal with
  | Hl : lx_ok ?l, E : lx_rest ?l = ?c :: ?w |- context [st_bind advance _ ?l] =>
      let E1 := fresh "E" in destruct (advance_moved l c w Hl E) as (l' & E1 & H); rewrite (bind_ok _ _ _ _ _ E1)
  | Hl : lx_ok ?l, E : lx_rest ?l = ?c :: ?w, F : context [st_bind advance _ ?l] |- _ =>
      let E1 := fresh "E" in destruct (advance_moved l c w Hl E) as (l' & E1 & H); rewrite (bind_ok _ _ _ _ _ E1) in F
  end.

Lemma skip_while_moved p l w r : lx_ok l -> lx_rest l = w ++ r -> Forall (fun c => p c = true) w -> head_not p r ->
  exists l', skip_while p l = Ok (tt, l') /\ moved l w r l'.
Proof.
  intros Hl E Hw Hr. destruct (skip_while_exact p l w r Hl E Hw Hr) as (l' & E' & H1 & H2). by exists l'.
Qed.

(** The longest prefix in [p]. *)
Lemma span_exists p (w : bytes) : exists u r, w = u ++ r /\ Forall (fun c => p c = true) u /\ head_not p r.
Proof.
  induction w as [|c w (u & r & -> & Hu & Hr)]; [by exists [], []|]. destruct (p c) eqn:E.
  - exists (c :: u), r. split; [done|]. split; [by constructor|done].
  - exists [], (c :: u ++ r). split; [done|]. split; [constructor|done].
Qed.

Lemma skip_while_span p l : lx_ok l -> exists w r l', skip_while p l = Ok (tt, l') /\ moved l w r l' /\
  Forall (fun c => p c = true) w /\ head_not p r.
Proof.
  intros Hl. destruct (span_exists p (lx_rest l)) as (w & r & E & Hw & Hr).
  destruct (skip_while_moved p l w r Hl E Hw Hr) as (l' & E' & H). by exists w, r, l'.
Qed.

(** *** Block comments *)

Lemma comment_loop_complete body : forall turns l r, lx_ok l -> lx_rest l = body ++ 42 :: 47 :: r -> no_close body = true ->
  (length body < turns)%nat -> exists l', comment_loop turns l = Ok (true, l') /\ moved l (body ++ [42; 47]) r l'.
Proof.
  induction body as [|c body IH]; intros turns l r Hl E Hb Ht; (destruct turns as [|turns]; [cbn in Ht; lia|]); cbn [comment_loop].
  - cbn [app] in E. destruct (peek_0 _ _ _ E) as [-> ->]. rewrite (peek_1 _ _ _ _ E). cbn [Z.eqb Pos.eqb andb].
    step l1 H1. pose proof (moved_ok _ _ _ _ H1) as Hl1. pose proof (moved_rest _ _ _ _ H1) as E1.
    step l2 H2. exists l2. split; [done|]. by eapply moved_cons.
  - cbn [app] in E. destruct (peek_0 _ _ _ E) as [-> ->]. cbn [no_close] in Hb. apply andb_prop in Hb as [Hc Hb].
    assert (Hno : (c =? 42) && (lx_peek 1 l =? 47) = false).
    { apply negb_true_iff in Hc. rewrite lx_peek_rest, E. destruct body as [|d body]; cbn in Hc |- *; [|done].
      by rewrite andb_false_r. }
    rewrite Hno. step l1 H1. destruct (IH turns l1 r) as (l2 & E2 & H2);
      [by apply (moved_ok _ _ _ _ H1)|by apply (moved_rest _ _ _ _ H1)|done|cbn in Ht; lia|].
    exists l2. split; [done|]. by eapply moved_cons.
Qed.

Lemma comment_loop_sound turns : forall l l', lx_ok l -> comment_loop turns l = Ok (true, l') ->
  exists body r, moved l (body ++ [42; 47]) r l' /\ no_close body = true.
Proof.
  induction turns as [|turns IH]; intros l l' Hl H; [done|]. cbn [comment_loop] in H.
  destruct (lx_at_end l) eqn:Ee; [done|]. destruct (not_end_rest l Ee) as [w E].
  destruct ((lx_peek 0 l =? 42) && (lx_peek 1 l =? 47)) eqn:Ec.
  - apply andb_prop in Ec as [E0 E1]. apply Z.eqb_eq in E0, E1. rewrite E0 in E.
    destruct w as [|d w]; [by rewrite lx_peek_rest, E in E1|]. rewrite (peek_1 _ _ _ _ E) in E1. subst d.
    step l1 H1. pose proof (moved_ok _ _ _ _ H1) as Hl1. pose proof (moved_rest _ _ _ _ H1) as E2.
    step l2 H2. injection H as <-. exists [], w. split; [by eapply moved_cons|done].
  - step l1 H1. destruct (IH l1 l') as (body & r & H2 & Hb); [by apply (moved_ok _ _ _ _ H1)|done|].
    exists (lx_peek 0 l :: body), r. split; [by eapply moved_cons|]. cbn [no_close]. rewrite Hb, andb_true_r.
    apply negb_true_iff. destruct (lx_peek 0 l =? 42); [|done]. cbn [andb] in *.
    rewrite <- Ec, lx_peek_rest, E. cbn [lookup list_lookup].
    rewrite <- (moved_rest _ _ _ _ H1), (moved_before _ _ _ _ H2). by destruct body.
Qed.

(** *** All of it *)

Lemma not_newline_hash c : is_space c = true \/ c = 35 -> c <> 47.
Proof. unfold is_space. intros [H| ->]; [|done]. intros ->. done. Qed.

Lemma trivia_complete w r : blank w r -> forall turns l, lx_ok l -> lx_rest l = w ++ r -> token_start r ->
  (length w < turns)%nat -> exists l', trivia_loop turns l = Ok (tt, l') /\ moved l w r l'.
Proof.
  induction 1 as [r|c w r Hc Hw IH|open body w r Ho Hb Hn Hw IH|body w r Hb Hw IH]; intros turns l Hl E Hr Ht;
    (destruct turns as [|turns]; [lia|]); cbn [trivia_loop].
  - cbn [app] in E. exists l. split; [|rewrite <- E; by apply moved_nil]. destruct r as [|c r]; [by rewrite lx_at_end_rest, E|].
    destruct Hr as (H1 & H2 & H3). destruct (peek_0 _ _ _ E) as [-> ->].
    rewrite H1, (proj2 (Z.eqb_neq _ _)) by done. destruct (Z.eqb_spec c 47) as [->|]; [|done]. cbn [andb].
    rewrite lx_peek_rest, E. specialize (H3 eq_refl). destruct r as [|d r]; [done|]. cbn in H3 |- *.
    apply orb_false_elim in H3 as [-> ->]. done.
  - cbn [app] in E. destruct (peek_0 _ _ _ E) as [-> ->]. rewrite Hc. step l1 H1.
    destruct (IH turns l1) as (l2 & F2 & H2); [by apply (moved_ok _ _ _ _ H1)|by apply (moved_rest _ _ _ _ H1)|done|cbn in Ht; lia|].
    exists l2. split; [done|]. by eapply moved_cons.
  - rewrite <- !app_assoc in E. rewrite !length_app in Ht.
    apply elem_of_cons in Ho as [->|Ho%list_elem_of_singleton]; [|subst open].
    + cbn [app] in E. destruct (peek_0 _ _ _ E) as [-> ->]. cbn [is_space Z.eqb Pos.eqb orb].
      destruct (skip_while_moved not_newline l (35 :: body) (w ++ r) Hl E) as (l1 & F1 & H1); [by constructor|done|].
      rewrite (bind_ok _ _ _ _ _ F1).
      destruct (IH turns l1) as (l2 & F2 & H2); [by apply (moved_ok _ _ _ _ H1)|by apply (moved_rest _ _ _ _ H1)|done|cbn in Ht; lia|].
      exists l2. split; [done|]. apply (moved_app _ _ _ _ _ _ _ H1 H2).
    + cbn [app] in E. destruct (peek_0 _ _ _ E) as [-> ->]. cbn [is_space Z.eqb Pos.eqb orb]. rewrite (peek_1 _ _ _ _ E).
      cbn [Z.eqb Pos.eqb andb]. step l1 H1. pose proof (moved_ok _ _ _ _ H1) as Hl1. pose proof (moved_rest _ _ _ _ H1) as R1.
      step l2 H2. pose proof (moved_ok _ _ _ _ H2) as Hl2. pose proof (moved_rest _ _ _ _ H2) as R2.
      destruct (skip_while_moved not_newline l2 body (w ++ r) Hl2 R2 Hb Hn) as (l3 & F3 & H3). rewrite (bind_ok _ _ _ _ _ F3).
      destruct (IH turns l3) as (l4 & F4 & H4); [by apply (moved_ok _ _ _ _ H3)|by apply (moved_rest _ _ _ _ H3)|done|cbn in Ht; lia|].
      exists l4. split; [done|]. eapply moved_cons; [done|]. eapply moved_cons; [done|]. by eapply moved_app.
  - rewrite <- !app_assoc in E. rewrite !length_app in Ht. cbn [app] in E. destruct (peek_0 _ _ _ E) as [-> ->].
    cbn [is_space Z.eqb Pos.eqb orb]. rewrite (peek_1 _ _ _ _ E). cbn [Z.eqb Pos.eqb andb]. rewrite bind_get.
    step l1 H1. pose proof (moved_ok _ _ _ _ H1) as Hl1. pose proof (moved_rest _ _ _ _ H1) as R1.
    step l2 H2. pose proof (moved_ok _ _ _ _ H2) as Hl2. pose proof (moved_rest _ _ _ _ H2) as R2. rewrite bind_get.
    destruct (comment_loop_complete body (lx_turns l2) l2 (w ++ r) Hl2 R2 Hb) as (l3 & F3 & H3).
    { rewrite lx_turns_rest, R2, length_app. lia. }
    rewrite (bind_ok _ _ _ _ _ F3). cbn [negb]. rewrite (bind_ok _ _ _ tt l3) by done.
    destruct (IH turns l3) as (l4 & F4 & H4); [by apply (moved_ok _ _ _ _ H3)|by apply (moved_rest _ _ _ _ H3)|done|cbn in Ht; lia|].
    exists l4. split; [done|]. eapply moved_cons; [done|]. eapply moved_cons; [done|].
    rewrite app_assoc. by eapply moved_app.
Qed.

Lemma bind_ok_inv {S A B} (m : St S A) (f : A -> St S B) s b s' : st_bind m f s = Ok (b, s') ->
  exists a s1, m s = Ok (a, s1) /\ f a s1 = Ok (b, s').
Proof. unfold st_bind. destruct (m s) as [[a s1]| | |]; cbn [obind]; [eauto|done..]. Qed.

Lemma trivia_sound turns : forall l l', lx_ok l -> trivia_loop turns l = Ok (tt, l') ->
  exists w r, moved l w r l' /\ blank w r /\ token_start r.
Proof.
  induction turns as [|turns IH]; intros l l' Hl H; [done|]. cbn [trivia_loop] in H.
  destruct (lx_at_end l) eqn:Ee.
  { injection H as <-. exists [], (lx_rest l). split; [by apply moved_nil|]. split; [constructor|]. by rewrite (at_end_rest l Ee). }
  destruct (not_end_rest l Ee) as [w E]. set (c := lx_peek 0 l) in *. destruct (is_space c) eqn:Es; [|destruct (Z.eqb_spec c 35) as [Ec|Ec]].
  - step l1 H1. destruct (IH l1 l') as (w' & r & H2 & Hw & Hr); [by apply (moved_ok _ _ _ _ H1)|done|].
    exists (c :: w'), r. split; [by eapply moved_cons|]. split; [by constructor|done].
  - destruct (skip_while_span not_newline l Hl) as (body & k & l1 & F1 & H1 & Hb & Hk). rewrite (bind_ok _ _ _ _ _ F1) in H.
    destruct (IH l1 l') as (w' & r & H2 & Hw & Hr); [by apply (moved_ok _ _ _ _ H1)|done|].
    assert (Hk' : k = w' ++ r) by (rewrite <- (moved_rest _ _ _ _ H1); by apply (moved_before _ _ _ _ H2)).
    pose proof (moved_before _ _ _ _ H1) as E2. rewrite E, Ec in E2. destruct body as [|d body].
    { exfalso. change (35 :: w = k) in E2. rewrite <- E2 in Hk. discriminate Hk. }
    injection E2 as <- E2. apply Forall_cons in Hb as [_ Hb]. exists (35 :: body ++ w'), r.
    split; [by eapply (moved_app l (35 :: body))|]. split; [|done].
    apply (BLine [35] body w' r); [by left|done|by rewrite <- Hk'|done].
  - destruct ((c =? 47) && (lx_peek 1 l =? 47)) eqn:E47; [|destruct ((c =? 47) && (lx_peek 1 l =? 42)) eqn:E42].
    + apply andb_prop in E47 as [E0 E1]. apply Z.eqb_eq in E0, E1. rewrite E0 in E.
      destruct w as [|d w]; [by rewrite lx_peek_rest, E in E1|]. rewrite (peek_1 _ _ _ _ E) in E1. subst d.
      step l1 H1. pose proof (moved_ok _ _ _ _ H1) as Hl1. pose proof (moved_rest _ _ _ _ H1) as R1.
      step l2 H2. pose proof (moved_ok _ _ _ _ H2) as Hl2.
      destruct (skip_while_span not_newline l2 Hl2) as (body & k & l3 & F3 & H3 & Hb & Hk). rewrite (bind_ok _ _ _ _ _ F3) in H.
      destruct (IH l3 l') as (w' & r & H4 & Hw & Hr); [by apply (moved_ok _ _ _ _ H3)|done|].
      assert (Hk' : k = w' ++ r) by (rewrite <- (moved_rest _ _ _ _ H3); by apply (moved_before _ _ _ _ H4)).
      exists ([47; 47] ++ body ++ w'), r. split; [|split; [|done]].
      * eapply moved_cons; [done|]. eapply moved_cons; [done|]. by eapply moved_app.
      * apply BLine; [by right; left|done|by rewrite <- Hk'|done].
    + apply andb_prop in E42 as [E0 E1]. apply Z.eqb_eq in E0, E1. rewrite E0 in E.
      destruct w as [|d w]; [by rewrite lx_peek_rest, E in E1|]. rewrite (peek_1 _ _ _ _ E) in E1. subst d. rewrite bind_get in H.
      step l1 H1. pose proof (moved_ok _ _ _ _ H1) as Hl1. pose proof (moved_rest _ _ _ _ H1) as R1.
      step l2 H2. pose proof (moved_ok _ _ _ _ H2) as Hl2. rewrite bind_get in H.
      apply bind_ok_inv in H as (closed & l3 & F3 & H). destruct closed; cbn [negb] in H; [|done].
      rewrite (bind_ok _ _ _ tt l3) in H by done.
      destruct (comment_loop_sound _ l2 l3 Hl2 F3) as (body & k & H3 & Hb).
      destruct (IH l3 l') as (w' & r & H4 & Hw & Hr); [by apply (moved_ok _ _ _ _ H3)|done|].
      exists ([47; 42] ++ body ++ [42; 47] ++ w'), r. split; [|split; [by constructor|done]].
      eapply moved_cons; [done|]. eapply moved_cons; [done|]. rewrite app_assoc. by eapply moved_app.
    + injection H as <-. exists [], (lx_rest l). split; [by apply moved_nil|]. split; [constructor|]. rewrite E.
      split; [done|]. split; [done|]. intros E0. rewrite E0 in *. rewrite lx_peek_rest, E in E47, E42. cbn [Z.eqb Pos.eqb andb] in *.
      destruct w as [|d w]; [done|]. cbn in E47, E42 |- *. by rewrite E47, E42.
Qed.

(** ** Numbers *)

Definition digits (ds : bytes) : Prop := ds <> [] /\ Forall (fun c => is_digit c = true) ds.
Definition hex_digits (ds : bytes) : Prop := ds <> [] /\ Forall (fun c => is_hex_digit c = true) ds.
Definition hex_val (ds : bytes) : Z := fold_left (fun acc d => acc * 16 + hex_value d) ds 0.

(** A point or an exponent belongs to the number only when a digit follows. *)
Definition no_fraction (r : bytes) : Prop := forall d r', r = 46 :: d :: r' -> is_digit d = false.
Definition signs : list bytes := [[]; [43]; [45]].
Definition no_exponent (r : bytes) : Prop := forall e sign d r', r = e :: sign ++ d :: r' ->
  e ∈ [101; 69] -> sign ∈ signs -> is_digit d = false.

Inductive fraction : bytes -> bytes -> Prop :=
  | NoFraction r : no_fraction r -> fraction [] r
  | Fraction ds r : digits ds -> head_not is_digit r -> fraction (46 :: ds) r.

Inductive exponent : bytes -> bytes -> Prop :=
  | NoExponent r : no_exponent r -> exponent [] r
  | Exponent e sign ds r : e ∈ [101; 69] -> sign ∈ signs -> digits ds -> head_not is_digit r ->
      exponent (e :: sign ++ ds) r.

(** The parts of a decimal number before [r]; a [0] before an [x] is a hex number. *)
Definition is_x (c : Z) : bool := (c =? 120) || (c =? 88).
Record numeral (ds f e r : bytes) : Prop := {
  num_digits : digits ds;
  num_stop : head_not is_digit (f ++ e ++ r);
  num_frac : fraction f (e ++ r);
  num_exp : exponent e r;
  num_not_hex : ds = [48] -> head_not is_x (f ++ e ++ r);
}.

Lemma lex_fraction_spec l : lx_ok l ->
  exists f r l', lex_fraction l = Ok (bool_decide (f <> []), l') /\ moved l f r l' /\ fraction f r.
Proof.
  intros Hl. unfold lex_fraction. destruct (negb (lx_at_end l) && (lx_peek 0 l =? 46) && is_digit (lx_peek 1 l)) eqn:Ec.
  - apply andb_prop in Ec as [Ec Hd]. apply andb_prop in Ec as [Ee E0]. apply negb_true_iff in Ee. apply Z.eqb_eq in E0.
    destruct (not_end_rest l Ee) as [w E]. rewrite E0 in E. step l1 H1. pose proof (moved_ok _ _ _ _ H1) as Hl1.
    destruct (skip_while_span is_digit l1 Hl1) as (ds & r & l2 & F2 & H2 & Hds & Hr). rewrite (bind_ok _ _ _ _ _ F2).
    exists (46 :: ds), r, l2. split; [done|]. split; [by eapply moved_cons|]. constructor; [|done]. split; [|done].
    intros ->. pose proof (moved_rest _ _ _ _ H1) as R1. pose proof (moved_before _ _ _ _ H2) as R2. rewrite R1 in R2.
    cbn [app] in R2. rewrite lx_peek_rest, E, R2 in Hd. destruct r as [|d r]; cbn in Hd, Hr; [done|congruence].
  - exists [], (lx_rest l), l. split; [done|]. split; [by apply moved_nil|]. constructor. intros d r' E.
    destruct (peek_0 _ _ _ E) as [H0 H1]. rewrite H0, H1, (peek_1 _ _ _ _ E) in Ec. exact Ec.
Qed.

Lemma lex_exponent_spec l : lx_ok l ->
  exists e r l', lex_exponent l = Ok (bool_decide (e <> []), l') /\ moved l e r l' /\ exponent e r.
Proof.
  intros Hl. unfold lex_exponent.
  assert (Hno : no_exponent (lx_rest l) -> exists e r l', Ok (false, l) = Ok (bool_decide (e <> []), l') /\ moved l e r l' /\ exponent e r).
  { intros H. exists [], (lx_rest l), l. split; [done|]. split; [by apply moved_nil|by constructor]. }
  destruct (negb (lx_at_end l) && _) eqn:Ec.
  2: { apply Hno. intros e sign d r' E He _. destruct (peek_0 _ _ _ E) as [H0 H1]. rewrite H0, H1 in Ec.
       apply elem_of_cons in He as [->|He%list_elem_of_singleton]; [done|by subst]. }
  apply andb_prop in Ec as [Ee E0]. apply negb_true_iff in Ee. destruct (not_end_rest l Ee) as [w E].
  assert (Hc : lx_peek 0 l ∈ [101; 69]).
  { apply orb_prop in E0 as [E0|E0]; apply Z.eqb_eq in E0; rewrite E0; [by left|by right; left]. } clear E0.
  destruct (is_digit (lx_peek _ l)) eqn:Hd.
  2: { apply Hno. rewrite E. intros e' sign d r' [= <- Hw] _ Hs. rewrite !lx_peek_rest, E in Hd. subst w.
       unfold signs in Hs. rewrite !elem_of_cons, elem_of_nil in Hs. destruct Hs as [->|[->|[->|[]]]]; try exact Hd.
       cbn [app lookup list_lookup default from_option id] in Hd. destruct (Z.eqb_spec d 43) as [->|]; [done|].
       by destruct (Z.eqb_spec d 45) as [->|]. }
  set (c := lx_peek 0 l) in *. step l1 H1. pose proof (moved_ok _ _ _ _ H1) as Hl1. pose proof (moved_rest _ _ _ _ H1) as R1.
  rewrite bind_get.
  assert (Hsign : exists sign k l2, ((if (lx_peek 0 l1 =? 43) || (lx_peek 0 l1 =? 45) then advance ;* st_ret tt else st_ret tt) l1 = Ok (tt, l2)) /\
    moved l1 sign k l2 /\ sign ∈ signs /\ exists d k', k = d :: k' /\ is_digit d = true).
  { destruct w as [|x w]; [by rewrite !lx_peek_rest, E in Hd|]. rewrite !lx_peek_rest, E in Hd. cbn [lookup list_lookup default from_option id] in Hd.
    destruct (peek_0 _ _ _ R1) as [_ ->]. destruct ((x =? 43) || (x =? 45)) eqn:Ex.
    - step l2 H2. exists [x], w, l2. split; [done|]. split; [done|]. split.
      + apply orb_prop in Ex as [Ex|Ex]; apply Z.eqb_eq in Ex; subst x; [right; by left|right; right; by left].
      + destruct w as [|d w]; cbn in Hd; [done|]. by exists d, w.
    - exists [], (x :: w), l1. split; [done|]. split; [rewrite <- R1; by apply moved_nil|]. split; [by left|].
      by exists x, w. }
  destruct Hsign as (sign & k & l2 & F2 & H2 & Hs & d & k' & -> & Hd'). rewrite (bind_ok _ _ _ _ _ F2).
  destruct (skip_while_span is_digit l2 (moved_ok _ _ _ _ H2)) as (ds & r & l3 & F3 & H3 & Hds & Hr). rewrite (bind_ok _ _ _ _ _ F3).
  exists (c :: sign ++ ds), r, l3. split; [done|]. split; [eapply moved_cons; [done|]; by eapply moved_app|].
  constructor; try done. split; [|done]. intros ->. pose proof (moved_rest _ _ _ _ H2) as R2.
  pose proof (moved_before _ _ _ _ H3) as R3. rewrite R2 in R3. cbn [app] in R3. subst r. cbn in Hr. congruence.
Qed.

(** The value of a decimal number: an integer without the two optional parts. *)
Definition decimal_value (ds f e : bytes) : option Token :=
  if bool_decide (f ++ e = []) then number_token <$> stoll ds
  else (fun d => float_token 0 d) <$> stod (ds ++ f ++ e).

Lemma lex_decimal_spec l c w : lx_ok l -> lx_rest l = c :: w -> is_digit c = true ->
  exists ds f e r, lx_rest l = ds ++ f ++ e ++ r /\ digits ds /\ head_not is_digit (f ++ e ++ r) /\
    fraction f (e ++ r) /\ exponent e r /\
    match decimal_value ds f e with
    | Some a => exists l', lex_decimal (lx_pos l) l = Ok (at_offset a (lx_offset l), l') /\ moved l (ds ++ f ++ e) r l'
    | None => exists err, lex_decimal (lx_pos l) l = Throw err
    end.
Proof.
  intros Hl E Hc. unfold lex_decimal.
  destruct (skip_while_span is_digit l Hl) as (ds & r1 & l1 & F1 & H1 & Hds & Hr1). rewrite (bind_ok _ _ _ _ _ F1).
  destruct (lex_fraction_spec l1 (moved_ok _ _ _ _ H1)) as (f & r2 & l2 & F2 & H2 & Hf). rewrite (bind_ok _ _ _ _ _ F2).
  destruct (lex_exponent_spec l2 (moved_ok _ _ _ _ H2)) as (e & r & l3 & F3 & H3 & He). rewrite (bind_ok _ _ _ _ _ F3).
  pose proof (moved_before _ _ _ _ H1) as R1. pose proof (moved_before _ _ _ _ H2) as R2. pose proof (moved_before _ _ _ _ H3) as R3.
  rewrite (moved_rest _ _ _ _ H1) in R2. rewrite (moved_rest _ _ _ _ H2) in R3. subst r2 r1.
  assert (H : moved l (ds ++ f ++ e) r l3) by (eapply moved_app; [done|]; by eapply moved_app).
  exists ds, f, e, r. split; [done|]. split.
  { split; [|done]. intros ->. cbn [app] in R1. rewrite <- R1, E in Hr1. cbn in Hr1. congruence. }
  split; [done|]. split; [done|]. split; [done|].
  rewrite (bind_ok _ _ _ _ _ (lexeme_after _ _ _ (proj1 H))). unfold decimal_value.
  assert (Hb : bool_decide (f <> []) || bool_decide (e <> []) = negb (bool_decide (f ++ e = []))) by (by destruct f, e).
  rewrite Hb. destruct (bool_decide_reflect (f ++ e = [])) as [Ee|Ee]; cbn [negb].
  - apply app_eq_nil in Ee as [-> ->]. cbn [app] in *. rewrite app_nil_r in *. destruct (stoll ds); cbn [fmap option_fmap option_map]; [by exists l3|by eexists].
  - destruct (stod (ds ++ f ++ e)); cbn [fmap option_fmap option_map]; [by exists l3|by eexists].
Qed.

Lemma digits_head ds r : digits ds -> exists c w, ds ++ r = c :: w /\ is_digit c = true.
Proof. intros [Hne Hd]. destruct ds as [|c ds]; [done|]. apply Forall_cons in Hd as [Hc _]. by exists c, (ds ++ r). Qed.

Lemma digits_unique ds r ds' r' : ds ++ r = ds' ++ r' -> digits ds -> digits ds' -> head_not is_digit r -> head_not is_digit r' ->
  ds = ds' /\ r = r'.
Proof. intros E [_ H1] [_ H2] H3 H4. by apply (span_unique is_digit). Qed.

Lemma fraction_unique f r f' r' : f ++ r = f' ++ r' -> fraction f r -> fraction f' r' -> f = f' /\ r = r'.
Proof.
  intros E Hf Hf'. revert E. destruct Hf as [k Hk|ds k Hd Hk], Hf' as [k' Hk'|ds' k' Hd' Hk']; intros E; cbn [app] in E.
  - by split.
  - destruct (digits_head ds' k' Hd') as (c & w & Ec & Hc). rewrite Ec in E. rewrite (Hk _ _ E) in Hc. done.
  - destruct (digits_head ds k Hd) as (c & w & Ec & Hc). rewrite Ec in E. symmetry in E. rewrite (Hk' _ _ E) in Hc. done.
  - injection E as E. destruct (digits_unique _ _ _ _ E Hd Hd' Hk Hk') as [-> ->]. done.
Qed.

Lemma sign_unique s c r s' c' r' : s ++ c :: r = s' ++ c' :: r' -> s ∈ signs -> s' ∈ signs -> is_digit c = true -> is_digit c' = true ->
  s = s' /\ c :: r = c' :: r'.
Proof.
  unfold signs. rewrite !elem_of_cons, !elem_of_nil. intros E [->|[->|[->|[]]]] [->|[->|[->|[]]]] Hc Hc'; cbn [app] in E;
    try discriminate E; injection E as E1 E2; subst; try done; by split.
Qed.

Lemma exponent_unique e r e' r' : e ++ r = e' ++ r' -> exponent e r -> exponent e' r' -> e = e' /\ r = r'.
Proof.
  intros E He He'. revert E.
  destruct He as [k Hk|x s ds k Hx Hs Hd Hk], He' as [k' Hk'|x' s' ds' k' Hx' Hs' Hd' Hk']; intros E; cbn [app] in E.
  - by split.
  - rewrite <- app_assoc in E. destruct (digits_head ds' k' Hd') as (c & w & Ec & Hc). rewrite Ec in E.
    rewrite (Hk _ _ _ _ E Hx' Hs') in Hc. done.
  - rewrite <- app_assoc in E. destruct (digits_head ds k Hd) as (c & w & Ec & Hc). rewrite Ec in E. symmetry in E.
    rewrite (Hk' _ _ _ _ E Hx Hs) in Hc. done.
  - injection E as <- E. rewrite <- !app_assoc in E.
    destruct (digits_head ds k Hd) as (c & w & Ec & Hc). destruct (digits_head ds' k' Hd') as (c' & w' & Ec' & Hc').
    rewrite Ec, Ec' in E. destruct (sign_unique _ _ _ _ _ _ E Hs Hs' Hc Hc') as [-> E'].
    rewrite <- Ec, <- Ec' in E'. destruct (digits_unique _ _ _ _ E' Hd Hd' Hk Hk') as [-> ->]. done.
Qed.

(** *** Hex numbers *)

Lemma hex_loop_spec ds : forall turns acc l r, lx_ok l -> lx_rest l = ds ++ r -> Forall (fun c => is_hex_digit c = true) ds ->
  head_not is_hex_digit r -> (length ds < turns)%nat ->
  exists l', hex_loop turns acc l = Ok (fold_left (fun a d => u64 (a * 16 + hex_value d)) ds acc, l') /\ moved l ds r l'.
Proof.
  induction ds as [|d ds IH]; intros turns acc l r Hl E Hd Hr Ht; (destruct turns as [|turns]; [cbn in Ht; lia|]); cbn [hex_loop fold_left].
  - cbn [app] in E. exists l. split; [|rewrite <- E; by apply moved_nil]. destruct r as [|c r]; [by rewrite lx_at_end_rest, E|].
    destruct (peek_0 _ _ _ E) as [-> ->]. cbn in Hr. by rewrite Hr.
  - apply Forall_cons in Hd as [Hc Hd]. cbn [app] in E. destruct (peek_0 _ _ _ E) as [-> ->]. rewrite Hc. cbn [negb andb]. step l1 H1.
    destruct (IH turns (u64 (acc * 16 + hex_value d)) l1 r) as (l2 & F2 & H2);
      [by apply (moved_ok _ _ _ _ H1)|by apply (moved_rest _ _ _ _ H1)|done|done|cbn in Ht; lia|].
    exists l2. split; [done|]. by eapply moved_cons.
Qed.

Lemma hex_fold_mod ds : forall a b, u64 a = u64 b ->
  u64 (fold_left (fun a d => u64 (a * 16 + hex_value d)) ds a) = u64 (fold_left (fun a d => a * 16 + hex_value d) ds b).
Proof.
  induction ds as [|d ds IH]; intros a b E; [done|]. cbn [fold_left]. apply IH. unfold u64 in *.
  rewrite Z.mod_mod by lia. rewrite (Z.add_mod (a * 16)), (Z.mul_mod a), E, <- Z.mul_mod, <- Z.add_mod by lia. done.
Qed.

Lemma hex_literal ds : i64 (fold_left (fun a d => u64 (a * 16 + hex_value d)) ds 0) = i64 (hex_val ds).
Proof. unfold i64, hex_val. by rewrite (hex_fold_mod ds 0 0). Qed.

Lemma lex_hex_spec l x ds r : lx_ok l -> lx_rest l = 48 :: x :: ds ++ r -> Forall (fun c => is_hex_digit c = true) ds -> head_not is_hex_digit r ->
  if bool_decide (ds = []) then exists err, lex_hex (lx_offset l) l = Throw err
  else exists l', lex_hex (lx_offset l) l = Ok (at_offset (number_token (i64 (hex_val ds))) (lx_offset l), l') /\ moved l (48 :: x :: ds) r l'.
Proof.
  intros Hl E Hd Hr. unfold lex_hex. step l1 H1. pose proof (moved_ok _ _ _ _ H1) as Hl1. pose proof (moved_rest _ _ _ _ H1) as R1.
  step l2 H2. pose proof (moved_ok _ _ _ _ H2) as Hl2. pose proof (moved_rest _ _ _ _ H2) as R2. rewrite !bind_get.
  destruct (hex_loop_spec ds (lx_turns l2) 0 l2 r Hl2 R2 Hd Hr) as (l3 & F3 & H3); [rewrite lx_turns_rest, R2, length_app; lia|].
  rewrite (bind_ok _ _ _ _ _ F3), bind_get, (moved_offset _ _ _ _ H3). case_bool_decide as Ed.
  - subst ds. rewrite (proj2 (Z.eqb_eq _ _)) by (cbn; lia). by eexists.
  - rewrite (proj2 (Z.eqb_neq _ _)) by (destruct ds; [done|cbn [length]; lia]). exists l3.
    split; [unfold st_ret; by rewrite hex_literal|]. eapply moved_cons; [done|]. by eapply moved_cons.
Qed.

(** ** Strings *)

(** The escapes of one letter and the bytes they stand for. *)
Definition short_escapes : list (Z * Z) := [(110, 10); (116, 9); (114, 13); (48, 0); (92, 92); (34, 34)].

(** [escape w o]: the escape [w] stands for the bytes [o]. *)
Inductive escape : bytes -> bytes -> Prop :=
  | EShort e c : (e, c) ∈ short_escapes -> escape [92; e] [c]
  | EByte hi lo : is_hex_digit hi = true -> is_hex_digit lo = true -> escape [92; 120; hi; lo] [hex_val [hi; lo]]
  | ECodePoint ds o : hex_digits ds -> (length ds <= 6)%nat -> Utf8.encode (hex_val ds) [] = (true, o) ->
      escape ([92; 117; 123] ++ ds ++ [125]) o.

(** The body of a string and its value. *)
Inductive string_body : bytes -> bytes -> Prop :=
  | SbNil : string_body [] []
  | SbPlain c w s : c <> 34 -> c <> 10 -> c <> 92 -> string_body w s -> string_body (c :: w) (c :: s)
  | SbEscape e o w s : escape e o -> string_body w s -> string_body (e ++ w) (o ++ s).

Lemma append_utf8_spec out cp err l :
  match Utf8.encode cp [] with
  | (true, o) => append_utf8 out cp err l = Ok (out ++ o, l)
  | _ => exists e, append_utf8 out cp err l = Throw e
  end.
Proof.
  unfold append_utf8, Utf8.encode, Utf8.kMaxCodepoint.
  destruct ((0xD800 <=? cp) && (cp <=? 0xDFFF)), (0x10FFFF <? cp); cbn [orb]; [by eexists..|].
  assert (H : forall n, (cp <=? n) = (cp <? n + 1)) by (intros n; destruct (Z.leb_spec cp n), (Z.ltb_spec cp (n + 1)); done || (exfalso; lia)).
  rewrite !H. change (127 + 1) with 128. change (2047 + 1) with 2048. change (65535 + 1) with 65536.
  destruct (cp <? 128); [done|]. destruct (cp <? 2048); [done|]. by destruct (cp <? 65536).
Qed.

Lemma hex_value_range d : is_hex_digit d = true -> 0 <= hex_value d < 16.
Proof.
  unfold is_hex_digit, hex_value, is_digit. intros H. destruct ((48 <=? d) && (d <=? 57)) eqn:E1; [reflect_bools; lia|].
  destruct ((97 <=? d) && (d <=? 102)) eqn:E2; [reflect_bools; lia|]. cbn [orb] in H. rewrite H. reflect_bools. lia.
Qed.

Lemma hex_fold_bound ds : Forall (fun c => is_hex_digit c = true) ds -> forall n v, 0 <= v < 16 ^ n -> 0 <= n ->
  0 <= fold_left (fun a d => a * 16 + hex_value d) ds v < 16 ^ (n + Z.of_nat (length ds)).
Proof.
  induction 1 as [|d ds Hd _ IH]; intros n v Hv Hn; cbn [fold_left length]; [by rewrite Z.add_0_r|].
  pose proof (hex_value_range d Hd). replace (n + Z.of_nat (S (length ds))) with (n + 1 + Z.of_nat (length ds)) by lia.
  apply IH; [|lia]. rewrite Z.pow_add_r by lia. lia.
Qed.

(** The loop over the digits of a code point: the seventh is an error. *)
Lemma code_point_spec ds : forall turns esc cp count l r, lx_ok l -> lx_rest l = ds ++ r ->
  Forall (fun c => is_hex_digit c = true) ds -> head_not is_hex_digit r -> 0 <= count <= 6 -> 0 <= cp < 16 ^ count -> (length ds < turns)%nat ->
  if (count + Z.of_nat (length ds) <=? 6) then
    exists l', code_point_loop turns esc cp count l =
      Ok ((fold_left (fun a d => a * 16 + hex_value d) ds cp, count + Z.of_nat (length ds)), l') /\ moved l ds r l'
  else exists e, code_point_loop turns esc cp count l = Throw e.
Proof.
  induction ds as [|d ds IH]; intros turns esc cp count l r Hl E Hd Hr Hn Hcp Ht; (destruct turns as [|turns]; [cbn in Ht; lia|]);
    cbn [code_point_loop fold_left length].
  - cbn [app] in E. rewrite Z.add_0_r, (proj2 (Z.leb_le _ _)) by lia. exists l. split; [|rewrite <- E; by apply moved_nil].
    destruct r as [|c r]; [by rewrite lx_at_end_rest, E|]. destruct (peek_0 _ _ _ E) as [-> ->]. cbn in Hr. by rewrite Hr.
  - apply Forall_cons in Hd as [Hc Hd]. cbn [app] in E. destruct (peek_0 _ _ _ E) as [-> ->]. rewrite Hc. cbn [negb andb]. step l1 H1.
    pose proof (hex_value_range d Hc) as Hv. destruct (Z.ltb_spec 6 (count + 1)) as [Hlt|Hge].
    { rewrite (proj2 (Z.leb_gt _ _)) by lia. by eexists. }
    assert (Hcp' : 0 <= cp * 16 + hex_value d < 16 ^ (count + 1)) by (rewrite Z.pow_add_r by lia; lia).
    assert (Hw : u32 (cp * 16 + hex_value d) = cp * 16 + hex_value d).
    { unfold u32. apply Z.mod_small. pose proof (Z.pow_le_mono_r 16 (count + 1) 6 ltac:(lia) ltac:(lia)). lia. }
    rewrite Hw. replace (count + Z.of_nat (S (length ds))) with (count + 1 + Z.of_nat (length ds)) by lia.
    pose proof (IH turns esc (cp * 16 + hex_value d) (count + 1) l1 r (moved_ok _ _ _ _ H1) (moved_rest _ _ _ _ H1) Hd Hr ltac:(lia) Hcp' ltac:(cbn in Ht; lia)) as H.
    destruct (_ <=? 6); [|exact H]. destruct H as (l2 & F2 & H2). exists l2. split; [exact F2|]. by eapply moved_cons.
Qed.

Lemma lex_unicode_complete out esc l ds o r : lx_ok l -> lx_rest l = 123 :: ds ++ 125 :: r -> hex_digits ds -> (length ds <= 6)%nat ->
  Utf8.encode (hex_val ds) [] = (true, o) ->
  exists l', lex_unicode out esc l = Ok (out ++ o, l') /\ moved l (123 :: ds ++ [125]) r l'.
Proof.
  intros Hl E [Hne Hd] Hn Ho. unfold lex_unicode. rewrite bind_get. destruct (peek_0 _ _ _ E) as [_ ->]. cbn [Z.eqb Pos.eqb negb].
  step l1 H1. pose proof (moved_ok _ _ _ _ H1) as Hl1. pose proof (moved_rest _ _ _ _ H1) as R1. rewrite bind_get.
  pose proof (code_point_spec ds (lx_turns l1) esc 0 0 l1 (125 :: r) Hl1 R1 Hd eq_refl ltac:(lia) ltac:(lia)
    ltac:(rewrite lx_turns_rest, R1, length_app; lia)) as H.
  rewrite (proj2 (Z.leb_le _ _)) in H by lia. destruct H as (l2 & F2 & H2). rewrite (bind_ok _ _ _ _ _ F2).
  rewrite (proj2 (Z.eqb_neq _ _)) by (destruct ds; [done|cbn [length]; lia]). rewrite bind_get.
  pose proof (moved_ok _ _ _ _ H2) as Hl2. pose proof (moved_rest _ _ _ _ H2) as R2. destruct (peek_0 _ _ _ R2) as [-> ->]. cbn [Z.eqb Pos.eqb negb orb].
  step l3 H3. pose proof (append_utf8_spec out (hex_val ds) esc l3) as Ha. rewrite Ho in Ha. exists l3. split; [exact Ha|].
  eapply moved_cons; [done|]. by eapply moved_app.
Qed.

Lemma lex_unicode_sound out esc l out' l' : lx_ok l -> lex_unicode out esc l = Ok (out', l') ->
  exists ds o r, moved l (123 :: ds ++ [125]) r l' /\ hex_digits ds /\ (length ds <= 6)%nat /\
    Utf8.encode (hex_val ds) [] = (true, o) /\ out' = out ++ o.
Proof.
  intros Hl H. unfold lex_unicode in H. rewrite bind_get in H. destruct (Z.eqb_spec (lx_peek 0 l) 123) as [E0|]; [|done]. cbn [negb] in H.
  destruct (lx_at_end l) eqn:Ee; [by rewrite lx_peek_rest, (at_end_rest l Ee) in E0|]. destruct (not_end_rest l Ee) as [w E]. rewrite E0 in E.
  step l1 H1. pose proof (moved_ok _ _ _ _ H1) as Hl1. pose proof (moved_rest _ _ _ _ H1) as R1. rewrite bind_get in H.
  destruct (span_exists is_hex_digit w) as (ds & k & -> & Hd & Hk).
  pose proof (code_point_spec ds (lx_turns l1) esc 0 0 l1 k Hl1 R1 Hd Hk ltac:(lia) ltac:(lia)
    ltac:(rewrite lx_turns_rest, R1, length_app; lia)) as Hc.
  destruct (Z.leb_spec (0 + Z.of_nat (length ds)) 6) as [Hn|Hn].
  2: { destruct Hc as [e Hc]. unfold st_bind at 1 in H. rewrite Hc in H. done. }
  destruct Hc as (l2 & F2 & H2). rewrite (bind_ok _ _ _ _ _ F2) in H. destruct (Z.eqb_spec (0 + Z.of_nat (length ds)) 0) as [|Hne]; [done|].
  rewrite bind_get in H. destruct (lx_at_end l2 || negb (lx_peek 0 l2 =? 125)) eqn:Ec; [done|]. apply orb_false_elim in Ec as [Ee2 Ec].
  apply negb_false_iff, Z.eqb_eq in Ec. destruct (not_end_rest l2 Ee2) as [r R2]. rewrite Ec in R2. pose proof (moved_ok _ _ _ _ H2) as Hl2.
  step l3 H3. pose proof (append_utf8_spec out (hex_val ds) esc l3) as Ha. unfold hex_val in *.
  destruct (Utf8.encode _ []) as [[|] o] eqn:Eo; [|destruct Ha as [e Ha]; by rewrite Ha in H]. rewrite Ha in H. injection H as <- <-.
  exists ds, o, r. split.
  { eapply moved_cons; [done|]. rewrite (moved_rest _ _ _ _ H2) in R2. subst k. by eapply moved_app. }
  split; [split; [by intros ->|done]|]. split; [lia|]. by rewrite Eo.
Qed.

Lemma hex_byte_value hi lo : is_hex_digit hi = true -> is_hex_digit lo = true ->
  u8 (Z.lor (Z.shiftl (hex_value hi) 4) (hex_value lo)) = hex_val [hi; lo].
Proof.
  intros H1 H2. pose proof (hex_value_range hi H1). pose proof (hex_value_range lo H2).
  rewrite shiftl_lor_add by lia. unfold hex_val, u8. cbn [fold_left]. rewrite Z.mod_small by lia. lia.
Qed.

Lemma lex_escape_complete out l w o r : lx_ok l -> escape w o -> lx_rest l = w ++ r ->
  exists l', lex_escape out l = Ok (out ++ o, l') /\ moved l w r l'.
Proof.
  intros Hl Hw E. unfold lex_escape. rewrite bind_get.
  assert (Hstep : exists e k, lx_rest l = 92 :: e :: k /\ w ++ r = 92 :: e :: k).
  { destruct Hw; cbn [app] in E |- *; by do 2 eexists. }
  destruct Hstep as (e & k & E' & Ew). clear E. rename E' into E.
  step l1 H1. pose proof (moved_ok _ _ _ _ H1) as Hl1. pose proof (moved_rest _ _ _ _ H1) as R1. rewrite bind_get.
  destruct (peek_0 _ _ _ R1) as [-> _]. step l2 H2. pose proof (moved_ok _ _ _ _ H2) as Hl2. pose proof (moved_rest _ _ _ _ H2) as R2.
  destruct Hw as [e' c He|hi lo Hhi Hlo|ds o Hd Hn Ho]; cbn [app] in Ew; injection Ew as <- Ek.
  - exists l2. split; [|eapply moved_cons; [done|]; by subst k]. unfold short_escapes in He.
    rewrite !elem_of_cons, elem_of_nil in He. by destruct He as [[= -> ->]|[[= -> ->]|[[= -> ->]|[[= -> ->]|[[= -> ->]|[[= -> ->]|[]]]]]]].
  - subst k. unfold lex_hex_byte. rewrite bind_get, !lx_peek_rest, R2. cbn [lookup list_lookup default from_option id].
    rewrite Hhi, Hlo. cbn [andb negb]. step l3 H3. pose proof (moved_ok _ _ _ _ H3) as Hl3. pose proof (moved_rest _ _ _ _ H3) as R3.
    step l4 H4. exists l4. split; [unfold st_ret; by rewrite hex_byte_value|].
    eapply moved_cons; [done|]. eapply moved_cons; [done|]. by eapply moved_cons.
  - subst k. rewrite <- app_assoc in R2. cbn [app] in R2.
    destruct (lex_unicode_complete out (lx_offset l) l2 ds o r Hl2 R2 Hd Hn Ho) as (l3 & F3 & H3). exists l3. split; [done|].
    eapply moved_cons; [done|]. by eapply moved_cons.
Qed.

Lemma lex_escape_sound out l w0 out' l' : lx_ok l -> lx_rest l = 92 :: w0 -> lex_escape out l = Ok (out', l') ->
  exists w o r, moved l w r l' /\ escape w o /\ out' = out ++ o.
Proof.
  intros Hl E H. unfold lex_escape in H. rewrite bind_get in H. step l1 H1. pose proof (moved_ok _ _ _ _ H1) as Hl1.
  pose proof (moved_rest _ _ _ _ H1) as R1. rewrite bind_get in H. destruct (lx_at_end l1) eqn:Ee; [done|].
  destruct (not_end_rest l1 Ee) as [k R1']. set (e := lx_peek 0 l1) in *. step l2 H2. pose proof (moved_ok _ _ _ _ H2) as Hl2.
  assert (Hshort : forall c, (e, c) ∈ short_escapes -> Ok (out ++ [c], l2) = Ok (out', l') ->
    exists w o r, moved l w r l' /\ escape w o /\ out' = out ++ o).
  { intros c Hc [= <- <-]. exists [92; e], [c], k. split; [by eapply moved_cons|split; [by constructor|done]]. }
  assert (Hm : forall u r l3, moved l2 u r l3 -> moved l (92 :: e :: u) r l3).
  { intros u r l3 H3. eapply moved_cons; [done|]. by eapply moved_cons. }
  clearbody e. destruct (decide (e ∈ [110; 116; 114; 48; 92; 34; 120; 117])) as [Hin|Hin].
  - rewrite !elem_of_cons, elem_of_nil in Hin.
    destruct Hin as [->|[->|[->|[->|[->|[->|[->|[->|[]]]]]]]]];
      try (eapply Hshort; [|exact H]; by apply (bool_decide_unpack _); vm_compute).
    + unfold lex_hex_byte in H. rewrite bind_get in H. destruct (is_hex_digit (lx_peek 0 l2)) eqn:Hhi; [|done].
      destruct (is_hex_digit (lx_peek 1 l2)) eqn:Hlo; [|done]. cbn [andb negb] in H. rewrite !lx_peek_rest in Hhi, Hlo.
      destruct (lx_rest l2) as [|hi [|lo r]] eqn:R2; [done|done|]. cbn in Hhi, Hlo.
      step l3 H3. pose proof (moved_ok _ _ _ _ H3) as Hl3. pose proof (moved_rest _ _ _ _ H3) as R3. step l4 H4. injection H as <- <-.
      exists [92; 120; hi; lo], [hex_val [hi; lo]], r. split; [apply (Hm [hi; lo]); by eapply moved_cons|].
      split; [by constructor|]. by rewrite hex_byte_value.
    + destruct (lex_unicode_sound out _ l2 out' l' Hl2 H) as (ds & o & r & H3 & Hd & Hn & Ho & ->).
      exists ([92; 117; 123] ++ ds ++ [125]), o, r. split; [by apply (Hm (123 :: ds ++ [125]))|]. split; [by constructor|done].
  - exfalso. revert H Hin. clear. intros H Hin.
    destruct e as [|p|p]; [discriminate H| |discriminate H].
    repeat (destruct p as [p|p|]; try discriminate H); apply Hin; by apply (bool_decide_unpack _); vm_compute.
Qed.

Lemma escape_nonempty e o : escape e o -> (0 < length e)%nat /\ exists k, e = 92 :: k.
Proof. intros []; cbn; split; try lia; by eexists. Qed.

Lemma string_loop_complete w s : string_body w s -> forall turns open out l r, lx_ok l -> lx_rest l = w ++ 34 :: r -> (length w < turns)%nat ->
  exists l', string_loop turns open out l = Ok (out ++ s, l') /\ moved l (w ++ [34]) r l'.
Proof.
  induction 1 as [|c w s H34 H10 H92 Hw IH|e o w s He Hw IH]; intros turns open out l r Hl E Ht; (destruct turns as [|turns]; [lia|]); cbn [string_loop].
  - cbn [app] in E. destruct (peek_0 _ _ _ E) as [-> ->]. cbn [Z.eqb Pos.eqb]. step l1 H1. exists l1. by rewrite app_nil_r.
  - cbn [app] in E. destruct (peek_0 _ _ _ E) as [-> ->]. rewrite !(proj2 (Z.eqb_neq _ _)) by done. cbn [negb]. step l1 H1.
    destruct (IH turns open (out ++ [c]) l1 r) as (l2 & F2 & H2);
      [by apply (moved_ok _ _ _ _ H1)|by apply (moved_rest _ _ _ _ H1)|cbn in Ht; lia|].
    exists l2. rewrite <- app_assoc in F2. split; [exact F2|]. by eapply moved_cons.
  - destruct (escape_nonempty e o He) as (Hpos & k & Ek). rewrite <- app_assoc in E. pose proof E as E0. rewrite Ek in E0. cbn [app] in E0.
    destruct (peek_0 _ _ _ E0) as [-> ->]. cbn [Z.eqb Pos.eqb negb].
    destruct (lex_escape_complete out l e o _ Hl He E) as (l1 & F1 & H1). rewrite (bind_ok _ _ _ _ _ F1).
    destruct (IH turns open (out ++ o) l1 r) as (l2 & F2 & H2);
      [by apply (moved_ok _ _ _ _ H1)|by apply (moved_rest _ _ _ _ H1)|rewrite length_app in Ht; lia|].
    exists l2. rewrite <- app_assoc in F2. split; [exact F2|]. rewrite <- app_assoc. by eapply moved_app.
Qed.

Lemma string_loop_sound turns : forall open out l out' l', lx_ok l -> string_loop turns open out l = Ok (out', l') ->
  exists w s r, moved l (w ++ [34]) r l' /\ string_body w s /\ out' = out ++ s.
Proof.
  induction turns as [|turns IH]; intros open out l out' l' Hl H; [done|]. cbn [string_loop] in H.
  destruct (lx_at_end l) eqn:Ee; [done|]. destruct (not_end_rest l Ee) as [k E]. set (c := lx_peek 0 l) in *.
  destruct (Z.eqb_spec c 34) as [E34|E34]; [|destruct (Z.eqb_spec c 10) as [|E10]; [done|destruct (Z.eqb_spec c 92) as [E92|E92]; cbn [negb] in H]].
  - rewrite E34 in E. step l1 H1. injection H as <- <-. exists [], [], k. split; [done|]. split; [constructor|by rewrite app_nil_r].
  - apply bind_ok_inv in H as (out1 & l1 & F1 & H). rewrite E92 in E.
    destruct (lex_escape_sound _ _ _ _ _ Hl E F1) as (e & o & r1 & H1 & He & ->).
    destruct (IH _ _ _ _ _ (moved_ok _ _ _ _ H1) H) as (w & s & r & H2 & Hw & ->). exists (e ++ w), (o ++ s), r.
    split; [rewrite <- app_assoc; by eapply moved_app|]. split; [by constructor|by rewrite app_assoc].
  - step l1 H1. destruct (IH _ _ _ _ _ (moved_ok _ _ _ _ H1) H) as (w & s & r & H2 & Hw & ->). exists (c :: w), (c :: s), r.
    split; [by eapply moved_cons|]. split; [by constructor|by rewrite <- app_assoc].
Qed.

(** ** Operators *)

Definition operators : list (bytes * TokenKind) :=
  [(lit "{", TokenKind.kLBrace); (lit "}", TokenKind.kRBrace); (lit "[", TokenKind.kLBracket); (lit "]", TokenKind.kRBracket);
   (lit "(", TokenKind.kLParen); (lit ")", TokenKind.kRParen); (lit ";", TokenKind.kSemicolon); (lit ",", TokenKind.kComma);
   (lit "=", TokenKind.kAssign); (lit ".", TokenKind.kDot); (lit "?", TokenKind.kQuestion); (lit ":", TokenKind.kColon);
   (lit "+", TokenKind.kPlus); (lit "-", TokenKind.kMinus); (lit "*", TokenKind.kStar); (lit "/", TokenKind.kSlash);
   (lit "%", TokenKind.kPercent); (lit "<<", TokenKind.kShl); (lit ">>", TokenKind.kShr); (lit "<", TokenKind.kLt);
   (lit "<=", TokenKind.kLe); (lit ">", TokenKind.kGt); (lit ">=", TokenKind.kGe); (lit "==", TokenKind.kEq);
   (lit "!=", TokenKind.kNe); (lit "&", TokenKind.kAmp); (lit "^", TokenKind.kCaret); (lit "|", TokenKind.kPipe);
   (lit "&&", TokenKind.kAndAnd); (lit "||", TokenKind.kOrOr); (lit "!", TokenKind.kBang); (lit "~", TokenKind.kTilde)].

(** No operator is [w] and the next byte. *)
Definition longest (w r : bytes) : Prop := head_not (fun d => bool_decide (w ++ [d] ∈ map fst operators)) r.

(** ** Tokens *)

(** [lexeme u a r]: the bytes [u] before [r] are the token [a] (at offset 0). *)
Inductive lexeme : bytes -> Token -> bytes -> Prop :=
  | LxWord w r : is_word w -> head_not is_ident_part r -> lexeme w (word_token w) r
  | LxHex x ds r : is_x x = true -> hex_digits ds -> head_not is_hex_digit r ->
      lexeme (48 :: x :: ds) (number_token (i64 (hex_val ds))) r
  | LxDecimal ds f e a r : numeral ds f e r -> decimal_value ds f e = Some a -> lexeme (ds ++ f ++ e) a r
  | LxString w s r : string_body w s -> lexeme (34 :: w ++ [34]) (string_token s) r
  | LxOperator w k r : (w, k) ∈ operators -> longest w r -> lexeme w (punct k) r.

(** [lexes o data ts]: from the offset [o] on, [data] is the tokens [ts]. *)
Inductive lexes : Z -> bytes -> list Token -> Prop :=
  | LexEnd o w : blank w [] -> lexes o w []
  | LexToken o w u a r ts : blank w (u ++ r) -> token_start (u ++ r) -> lexeme u a r ->
      lexes (o + Z.of_nat (length w) + Z.of_nat (length u)) r ts ->
      lexes o (w ++ u ++ r) (at_offset a (o + Z.of_nat (length w)) :: ts).

(** *** The scanner of operators *)

Definition operator_pairs : list (Z * Z) := [(60, 60); (62, 62); (60, 61); (62, 61); (61, 61); (33, 61); (38, 38); (124, 124)].

Lemma operators_two c d : [c; d] ∈ map fst operators -> (c, d) ∈ operator_pairs.
Proof.
  intros H. apply (bool_decide_unpack _). revert H. cbn [map fst operators]. intros H.
  repeat (apply elem_of_cons in H as [H|H]; [try discriminate H; injection H as -> ->; by vm_compute|]). by apply elem_of_nil in H.
Qed.
Lemma operators_three a b c : [a; b; c] ∉ map fst operators.
Proof.
  cbn [map fst operators]. intros H.
  repeat (apply elem_of_cons in H as [H|H]; [discriminate H|]). by apply elem_of_nil in H.
Qed.

Lemma longest_one c r : head_not (fun d => bool_decide ((c, d) ∈ operator_pairs)) r -> longest [c] r.
Proof.
  unfold longest. destruct r as [|d r]; [done|]. cbn. rewrite !bool_decide_eq_false. intros H Hin. by apply H, operators_two.
Qed.
Lemma longest_two c d r : longest [c; d] r.
Proof. unfold longest. destruct r as [|e r]; [done|]. cbn. apply bool_decide_eq_false, operators_three. Qed.

Lemma op2_spec off s two one l : lx_ok l -> s <> 0 ->
  (head_not (fun d => d =? s) (lx_rest l) /\ lex_op2 off s two one l = Ok (plain_token one off, l)) \/
  (exists r l', lx_rest l = s :: r /\ lex_op2 off s two one l = Ok (plain_token two off, l') /\ moved l [s] r l').
Proof.
  intros Hl Hs. unfold lex_op2. destruct (lx_rest l) as [|d r] eqn:E.
  - left. split; [done|]. rewrite lx_peek_rest, E. cbn [lookup list_lookup default from_option].
    by rewrite (proj2 (Z.eqb_neq 0 s)) by done.
  - destruct (peek_0 _ _ _ E) as [_ ->]. cbn [head_not]. destruct (Z.eqb_spec d s) as [->|]; [|by left].
    right. step l1 H1. by exists r, l1.
Qed.

Lemma op3_spec off s s' two two' one l : lx_ok l -> s <> 0 -> s' <> 0 -> s <> s' ->
  (head_not (fun d => (d =? s) || (d =? s')) (lx_rest l) /\ lex_op3 off s s' two two' one l = Ok (plain_token one off, l)) \/
  (exists r l', lx_rest l = s :: r /\ lex_op3 off s s' two two' one l = Ok (plain_token two off, l') /\ moved l [s] r l') \/
  (exists r l', lx_rest l = s' :: r /\ lex_op3 off s s' two two' one l = Ok (plain_token two' off, l') /\ moved l [s'] r l').
Proof.
  intros Hl Hs Hs' Hne. unfold lex_op3. destruct (Z.eqb_spec (lx_peek 0 l) s) as [E0|E0].
  - right. left. rewrite lx_peek_rest in E0. destruct (lx_rest l) as [|d r] eqn:E; [done|]. cbn in E0. subst d.
    step l1 H1. by exists r, l1.
  - destruct (op2_spec off s' two' one l Hl Hs') as [[Hn ->]|(r & l' & E & -> & H)].
    + left. split; [|done]. rewrite lx_peek_rest in E0. destruct (lx_rest l) as [|d r]; [done|]. cbn in *.
      by rewrite (proj2 (Z.eqb_neq d s)), Hn.
    + right. right. by exists r, l'.
Qed.

(** Close a case of an operator after its first byte: [l1] is behind it, before [r1]. *)
Ltac operator_case l1 H1 :=
  let R1 := fresh "R" in pose proof (moved_rest _ _ _ _ H1) as R1;
  let Hn := fresh "Hn" in let R2 := fresh "R" in let l2 := fresh "l" in let H2 := fresh "H" in
  match goal with
  | |- context [lex_op2 ?o ?s ?two ?one l1] =>
      destruct (op2_spec o s two one l1 (moved_ok _ _ _ _ H1) ltac:(done)) as [[Hn ->]|(? & l2 & R2 & -> & H2)]
  | |- context [lex_op3 ?o ?s ?s' ?two ?two' ?one l1] =>
      destruct (op3_spec o s s' two two' one l1 (moved_ok _ _ _ _ H1) ltac:(done) ltac:(done) ltac:(done))
        as [[Hn ->]|[(? & l2 & R2 & -> & H2)|(? & l2 & R2 & -> & H2)]]
  end;
  first [ by exists l1
        | rewrite R1 in Hn; discriminate Hn
        | rewrite R1 in R2; discriminate R2
        | rewrite R1 in R2; injection R2 as <-; exists l2; split; [done|by eapply moved_cons]
        | exfalso; rewrite R2 in R1; match goal with H : longest _ _ |- _ => rewrite <- R1 in H; vm_compute in H; discriminate H end ].

Lemma lex_operator_complete l w k r : lx_ok l -> (w, k) ∈ operators -> longest w r -> lx_rest l = w ++ r ->
  exists l', lex_operator l = Ok (plain_token k (lx_offset l), l') /\ moved l w r l'.
Proof.
  intros Hl Hw Hr E. unfold lex_operator. rewrite bind_get.
  let o := eval vm_compute in operators in change operators with o in Hw.
  repeat (apply elem_of_cons in Hw as [Hw|Hw];
    [injection Hw as -> ->; cbn [app] in E; step l1 H1; cbv beta iota zeta; first [by exists l1 | operator_case l1 H1]|]).
  by apply elem_of_nil in Hw.
Qed.

Lemma lex_operator_sound l c w0 t l' : lx_ok l -> lx_rest l = c :: w0 -> lex_operator l = Ok (t, l') ->
  exists w k r, moved l w r l' /\ (w, k) ∈ operators /\ longest w r /\ t = plain_token k (lx_offset l).
Proof.
  intros Hl E H. unfold lex_operator in H. rewrite bind_get in H. step l1 H1.
  pose proof (moved_ok _ _ _ _ H1) as Hl1. pose proof (moved_rest _ _ _ _ H1) as R1.
  assert (Hone : forall k, ([c], k) ∈ operators -> head_not (fun d => bool_decide ((c, d) ∈ operator_pairs)) w0 ->
    Ok (plain_token k (lx_offset l), l1) = Ok (t, l') ->
    exists w k r, moved l w r l' /\ (w, k) ∈ operators /\ longest w r /\ t = plain_token k (lx_offset l)).
  { intros k Hk Hr [= <- <-]. exists [c], k, w0. split; [done|]. split; [done|]. split; [by apply longest_one|done]. }
  assert (Htwo : forall s k r l2, ([c; s], k) ∈ operators -> lx_rest l1 = s :: r -> moved l1 [s] r l2 ->
    Ok (plain_token k (lx_offset l), l2) = Ok (t, l') ->
    exists w k r, moved l w r l' /\ (w, k) ∈ operators /\ longest w r /\ t = plain_token k (lx_offset l)).
  { intros s k r l2 Hk R2 H2 [= <- <-]. exists [c; s], k, r. split; [by eapply moved_cons|]. split; [done|]. split; [apply longest_two|done]. }
  assert (Hno : forall d, (c, d) ∈ operator_pairs -> c ∈ [60; 62; 61; 33; 38; 124]).
  { intros d Hd. unfold operator_pairs in Hd. rewrite !elem_of_cons, elem_of_nil in Hd. rewrite !elem_of_cons, elem_of_nil.
    repeat destruct Hd as [[= -> _]|Hd]; tauto. }
  assert (Hsimple : forall k, c ∉ [60; 62; 61; 33; 38; 124] -> ([c], k) ∈ operators -> Ok (plain_token k (lx_offset l), l1) = Ok (t, l') ->
    exists w k r, moved l w r l' /\ (w, k) ∈ operators /\ longest w r /\ t = plain_token k (lx_offset l)).
  { intros k Hc Hk. apply Hone; [done|]. destruct w0 as [|d w0]; [done|]. cbn. apply bool_decide_eq_false. intros Hin. by apply Hc, (Hno d). }
  assert (Hmem : forall w k, bool_decide ((w, k) ∈ operators) = true -> (w, k) ∈ operators) by (intros w k; apply bool_decide_eq_true).
  rewrite <- R1 in Hone. clear E R1 Hno E0 H1.
  destruct c as [|p|p]; [discriminate H| |discriminate H].
  do 7 (try (destruct p as [p|p|]; try discriminate H)).
  all: try (eapply Hsimple; [| |exact H]; [by apply (bool_decide_unpack _); vm_compute|apply Hmem; by vm_compute]).
  all: match type of H with
       | lex_op2 ?o ?s ?two ?one _ = _ =>
           destruct (op2_spec o s two one l1 Hl1 ltac:(done)) as [[Hn E]|(r & l2 & R2 & E & H2)]; rewrite E in H
       | lex_op3 ?o ?s ?s' ?two ?two' ?one _ = _ =>
           destruct (op3_spec o s s' two two' one l1 Hl1 ltac:(done) ltac:(done) ltac:(done))
             as [[Hn E]|[(r & l2 & R2 & E & H2)|(r & l2 & R2 & E & H2)]]; rewrite E in H
       end.
  all: try (eapply Htwo; [|exact R2|exact H2|exact H]; apply Hmem; by vm_compute).
  all: eapply Hone; [| |exact H]; [apply Hmem; by vm_compute|].
  all: destruct (lx_rest l1) as [|d r]; [done|]; cbn [head_not] in *; apply bool_decide_eq_false; intros Hin.
  all: unfold operator_pairs in Hin; rewrite !elem_of_cons, elem_of_nil in Hin; reflect_bools.
  all: repeat destruct Hin as [[= ?]|Hin]; try lia; try done.
Qed.

(** ** The next token *)

Lemma digit_class c : is_digit c = true -> is_ident_start c = false /\ c <> 34.
Proof. unfold is_digit, is_ident_start. intros H. reflect_bools. split; [|lia]. repeat apply orb_false_intro; reflect_bools; lia. Qed.

(** What a test finds of every operator. *)
Lemma operators_all (f : bytes * TokenKind -> bool) w k : forallb f operators = true -> (w, k) ∈ operators -> f (w, k) = true.
Proof. intros Hf Hw. by apply (proj1 (forallb_forall f operators) Hf), list_elem_of_In. Qed.

Lemma operator_head w k : (w, k) ∈ operators -> exists c w', w = c :: w' /\ is_ident_start c = false /\ is_digit c = false /\ (c =? 34) = false.
Proof.
  intros H. apply (operators_all (fun p => match p.1 with
    | c :: _ => negb (is_ident_start c) && negb (is_digit c) && negb (c =? 34) | [] => false end)) in H; [|by vm_compute].
  cbn in H. destruct w as [|c w]; [done|]. exists c, w. split; [done|]. apply andb_prop in H as [H H3]. apply andb_prop in H as [H1 H2].
  by rewrite !negb_true_iff in H1, H2, H3.
Qed.

Lemma number_here l u a r : lx_ok l -> lexeme u a r -> lx_rest l = u ++ r -> is_digit (lx_peek 0 l) = true ->
  exists l', lex_number l = Ok (at_offset a (lx_offset l), l') /\ moved l u r l'.
Proof.
  intros Hl Hu E Hd. unfold lex_number. destruct Hu as [w r Hw _|x ds r Hx [Hne Hds] Hr|ds f e a r Hn Ha|w s r _|w k r Hk _].
  - exfalso. destruct w as [|c w]; [done|]. destruct Hw as [Hc _]. destruct (peek_0 _ _ _ E) as [_ E0]. rewrite E0 in Hd.
    apply digit_class in Hd as [Hd _]. congruence.
  - cbn [app] in E. destruct (peek_0 _ _ _ E) as [_ ->]. rewrite (peek_1 _ _ _ _ E). fold (is_x x). rewrite Hx. cbn [Z.eqb Pos.eqb andb].
    pose proof (lex_hex_spec l x ds r Hl E Hds Hr) as H. by rewrite bool_decide_eq_false_2 in H.
  - destruct Hn as [Hdig Hstop Hf He Hx]. rewrite <- !app_assoc in E. destruct (digits_head ds (f ++ e ++ r) Hdig) as (c & w & Ec & Hc).
    assert (Hnx : (lx_peek 0 l =? 48) && ((lx_peek 1 l =? 120) || (lx_peek 1 l =? 88)) = false).
    { pose proof Hdig as [Hne Hds]. rewrite !lx_peek_rest, E. destruct ds as [|d [|d' ds]]; [done| |].
      - cbn [app lookup list_lookup default from_option id]. destruct (Z.eqb_spec d 48) as [->|]; [|done]. specialize (Hx eq_refl).
        by destruct (f ++ e ++ r).
      - apply Forall_cons in Hds as [_ Hds]. apply Forall_cons in Hds as [Hd' _]. unfold is_digit in Hd'. reflect_bools.
        cbn [app lookup list_lookup default from_option id]. rewrite !(proj2 (Z.eqb_neq d' _)) by lia. apply andb_false_r. }
    rewrite Hnx. destruct (lex_decimal_spec l c w Hl) as (ds' & f' & e' & r' & E' & Hdig' & Hstop' & Hf' & He' & H); [by rewrite E|done|].
    rewrite E in E'. destruct (digits_unique _ _ _ _ E' Hdig Hdig' Hstop Hstop') as [-> E1].
    destruct (fraction_unique _ _ _ _ E1 Hf Hf') as [-> E2]. destruct (exponent_unique _ _ _ _ E2 He He') as [-> ->]. by rewrite Ha in H.
  - exfalso. destruct (peek_0 _ _ _ E) as [_ E0]. by rewrite E0 in Hd.
  - exfalso. destruct (operator_head w k Hk) as (c & w' & -> & _ & Hc & _). destruct (peek_0 _ _ _ E) as [_ E0]. congruence.
Qed.

Lemma next_body_complete l u a r : lx_ok l -> lexeme u a r -> lx_rest l = u ++ r ->
  exists l', next_body l = Ok (at_offset a (lx_offset l), l') /\ moved l u r l'.
Proof.
  intros Hl Hu E. unfold next_body. pose proof (number_here l u a r Hl Hu E) as Hnum.
  destruct Hu as [w r Hw Hr|x ds r Hx Hds Hr|ds f e a r Hn Ha|w s r Hw|w k r Hk Hr].
  - destruct w as [|c w]; [done|]. destruct (peek_0 _ _ _ E) as [-> ->]. destruct Hw as [Hc Hw']. rewrite Hc.
    destruct (lex_word l (c :: w) r Hl E) as (l' & F & H1 & H2); [by split|done|]. by exists l'.
  - destruct (peek_0 _ _ _ E) as [-> E0]. rewrite E0 in *. by apply Hnum.
  - destruct Hn as [Hdig _ _ _ _]. rewrite <- !app_assoc in E. destruct (digits_head ds (f ++ e ++ r) Hdig) as (c & w & Ec & Hc).
    rewrite Ec in E. destruct (peek_0 _ _ _ E) as [-> E0]. rewrite E0 in *. destruct (digit_class c Hc) as [-> _]. rewrite Hc. by apply Hnum.
  - cbn [app] in E. rewrite <- app_assoc in E. destruct (peek_0 _ _ _ E) as [-> ->]. cbn [is_ident_start is_digit Z.leb Z.compare Pos.compare Pos.compare_cont Z.eqb Pos.eqb andb orb].
    unfold lex_string. rewrite bind_get. step l1 H1. pose proof (moved_ok _ _ _ _ H1) as Hl1. pose proof (moved_rest _ _ _ _ H1) as R1. rewrite bind_get.
    destruct (string_loop_complete w s Hw (lx_turns l1) (lx_offset l) [] l1 r Hl1 R1) as (l2 & F2 & H2);
      [rewrite lx_turns_rest, R1, length_app; lia|].
    rewrite (bind_ok _ _ _ _ _ F2). exists l2. split; [done|]. by eapply moved_cons.
  - destruct (operator_head w k Hk) as (c & w' & -> & Hc1 & Hc2 & Hc3). destruct (peek_0 _ _ _ E) as [-> ->]. rewrite Hc1, Hc2, Hc3.
    by apply lex_operator_complete.
Qed.

Lemma next_body_sound l t l' : lx_ok l -> next_body l = Ok (t, l') ->
  (lx_rest l = [] /\ tk_kind t = TokenKind.kEof) \/
  exists u a r, moved l u r l' /\ lexeme u a r /\ t = at_offset a (lx_offset l).
Proof.
  intros Hl H. unfold next_body in H. destruct (lx_at_end l) eqn:Ee.
  { left. injection H as <- _. split; [by apply at_end_rest|done]. }
  right. destruct (not_end_rest l Ee) as [w E]. set (c := lx_peek 0 l) in *.
  destruct (is_ident_start c) eqn:Hc; [|destruct (is_digit c) eqn:Hd; [|destruct (Z.eqb_spec c 34) as [E34|]]].
  - destruct (span_exists is_ident_part (lx_rest l)) as (u & r & Eu & Hu & Hr).
    assert (Hw : is_word u).
    { destruct u as [|d u]; [cbn [app] in Eu; rewrite <- Eu, E in Hr; cbn in Hr; by rewrite (ident_part_not c Hc) in Hr|].
      rewrite E in Eu. injection Eu as <- _. by split. }
    destruct (lex_word l u r Hl Eu Hw Hr) as (l1 & F & H1 & H2). rewrite F in H. injection H as <- <-.
    exists u, (word_token u), r. split; [by split|]. split; [by constructor|done].
  - unfold lex_number in H. destruct (_ && _) eqn:Ex in H.
    + apply andb_prop in Ex as [E0 Ex]. apply Z.eqb_eq in E0. fold c in E0. rewrite E0 in E.
      destruct w as [|x w]; [by rewrite lx_peek_rest, E in Ex|]. rewrite (peek_1 _ _ _ _ E) in Ex.
      destruct (span_exists is_hex_digit w) as (ds & r & -> & Hds & Hr). pose proof (lex_hex_spec l x ds r Hl E Hds Hr) as Hs.
      case_bool_decide as Ed; [destruct Hs as [e Hs]; by rewrite Hs in H|]. destruct Hs as (l1 & F & H1). rewrite F in H. injection H as <- <-.
      exists (48 :: x :: ds), (number_token (i64 (hex_val ds))), r. split; [done|]. split; [by constructor|done].
    + destruct (lex_decimal_spec l c w Hl E Hd) as (ds & f & e & r & E' & Hdig & Hstop & Hf & He & Hs).
      destruct (decimal_value ds f e) as [a|] eqn:Ea; [|destruct Hs as [err Hs]; by rewrite Hs in H].
      destruct Hs as (l1 & F & H1). rewrite F in H. injection H as <- <-.
      exists (ds ++ f ++ e), a, r. split; [done|]. split; [|done]. constructor; [|done]. split; try done.
      intros ->. cbn [app] in E'. destruct (peek_0 _ _ _ E') as [_ E0]. rewrite E0, lx_peek_rest, E' in Ex.
      by destruct (f ++ e ++ r).
  - rewrite E34 in E. unfold lex_string in H. rewrite bind_get in H. step l1 H1. pose proof (moved_ok _ _ _ _ H1) as Hl1. rewrite bind_get in H.
    apply bind_ok_inv in H as (s & l2 & F2 & H). injection H as <- <-.
    destruct (string_loop_sound _ _ _ _ _ _ Hl1 F2) as (b & v & r & H2 & Hb & ->). cbn [app].
    exists (34 :: b ++ [34]), (string_token v), r. split; [by eapply moved_cons|]. split; [by constructor|done].
  - destruct (lex_operator_sound l c w t l' Hl E H) as (u & k & r & H1 & Hk & Hr & ->).
    exists u, (punct k), r. split; [done|]. split; [by constructor|done].
Qed.

Lemma skip_trivia_complete l w r : lx_ok l -> lx_rest l = w ++ r -> blank w r -> token_start r ->
  exists l', skip_trivia l = Ok (tt, l') /\ moved l w r l'.
Proof.
  intros Hl E Hw Hr. apply (trivia_complete w r Hw); [done|done|done|]. rewrite lx_turns_rest, E, length_app. lia.
Qed.

(** *** The tokens of a whole input *)

(** Calling [next] from [l] on gives [ts] and then the end of the input. *)
Fixpoint token_chain (l : lexer) (ts : list Token) : Prop :=
  match ts with
  | [] => exists t l', next l = Ok (t, l') /\ tk_kind t = TokenKind.kEof
  | t :: ts' => tk_kind t <> TokenKind.kEof /\ exists l', next l = Ok (t, l') /\ token_chain l' ts'
  end.

Lemma lexeme_kind u a r : lexeme u a r -> tk_kind a <> TokenKind.kEof.
Proof.
  intros [w r' _ _|x ds r' _ _ _|ds f e a' r' _ Ha|w s r' _|w k r' Hk _]; try done.
  - cbn. unfold keyword_kind. by repeat case_bool_decide.
  - unfold decimal_value in Ha. case_bool_decide; [destruct (stoll _)|destruct (stod _)]; by inversion Ha.
  - apply (operators_all (fun p => bool_decide (p.2 <> TokenKind.kEof))) in Hk; [|by vm_compute]. by apply bool_decide_eq_true in Hk.
Qed.

Lemma lexes_chain o data ts : lexes o data ts -> forall l, lx_ok l -> lx_rest l = data -> lx_offset l = o -> token_chain l ts.
Proof.
  induction 1 as [o w Hw|o w u a r ts Hw Hs Hu _ IH]; intros l Hl E Ho.
  - destruct (skip_trivia_complete l w [] Hl) as (l1 & E1 & H1); [by rewrite app_nil_r|done|done|].
    pose proof (moved_rest _ _ _ _ H1) as R1. exists (plain_token TokenKind.kEof (lx_offset l1)), l1.
    rewrite (next_at _ _ E1). unfold next_body. by rewrite lx_at_end_rest, R1.
  - destruct (skip_trivia_complete l w (u ++ r) Hl E Hw Hs) as (l1 & E1 & H1).
    destruct (next_body_complete l1 u a r (moved_ok _ _ _ _ H1) Hu (moved_rest _ _ _ _ H1)) as (l2 & E2 & H2).
    split; [by apply (lexeme_kind u a r)|]. exists l2. rewrite (next_at _ _ E1), E2, (moved_offset _ _ _ _ H1), Ho. split; [done|].
    apply IH; [by apply (moved_ok _ _ _ _ H2)|by apply (moved_rest _ _ _ _ H2)|].
    by rewrite (moved_offset _ _ _ _ H2), (moved_offset _ _ _ _ H1), Ho.
Qed.

Lemma next_split l t l' : next l = Ok (t, l') -> exists l1, skip_trivia l = Ok (tt, l1) /\ next_body l1 = Ok (t, l').
Proof.
  intros H. pose proof H as H'. unfold next in H'. apply bind_ok_inv in H' as ([] & l1 & E1 & _).
  exists l1. split; [done|]. by rewrite <- (next_at _ _ E1).
Qed.

Lemma chain_lexes ts : forall l, lx_ok l -> token_chain l ts -> lexes (lx_offset l) (lx_rest l) ts.
Proof.
  induction ts as [|t ts IH]; intros l Hl H.
  - destruct H as (t & l' & H & Hk). apply next_split in H as (l1 & E1 & H).
    destruct (trivia_sound _ l l1 Hl E1) as (w & r & H1 & Hw & Hr).
    destruct (next_body_sound l1 t l' (moved_ok _ _ _ _ H1) H) as [[E _]|(u & a & r' & _ & Hu & ->)].
    + rewrite (moved_rest _ _ _ _ H1) in E. subst r. rewrite (moved_before _ _ _ _ H1), app_nil_r. by constructor.
    + by apply lexeme_kind in Hu.
  - destruct H as (Hk & l' & H & Hc). apply next_split in H as (l1 & E1 & H).
    destruct (trivia_sound _ l l1 Hl E1) as (w & r & H1 & Hw & Hr).
    destruct (next_body_sound l1 t l' (moved_ok _ _ _ _ H1) H) as [[_ E]|(u & a & r' & H2 & Hu & ->)]; [done|].
    pose proof (moved_before _ _ _ _ H2) as R1. rewrite (moved_rest _ _ _ _ H1) in R1. subst r.
    rewrite (moved_before _ _ _ _ H1), (moved_offset _ _ _ _ H1). apply LexToken; try done.
    rewrite <- (moved_offset _ _ _ _ H1), <- (moved_offset _ _ _ _ H2), <- (moved_rest _ _ _ _ H2).
    apply IH; [by apply (moved_ok _ _ _ _ H2)|done].
Qed.

Lemma takes_chain p ts p' : takes p ts p' -> kind_now p' = TokenKind.kEof ->
  forall l, next l = Ok (ps_cur p, ps_lexer p) -> token_chain l ts.
Proof.
  induction 1 as [p|p t p1 ts p' Hk Ht _ IH]; intros He l Hn; cbn [token_chain]; [by exists (ps_cur p), (ps_lexer p)|].
  unfold take in Ht. destruct (next (ps_lexer p)) as [[t1 l1]| | |] eqn:E1; cbn [obind] in Ht; [|done..]. injection Ht as <- <-.
  split; [done|]. exists (ps_lexer p). split; [done|]. by apply IH.
Qed.

Lemma chain_takes ts : forall l, token_chain l ts -> exists t0 l0 p', next l = Ok (t0, l0) /\ takes (Parser l0 t0) ts p' /\ kind_now p' = TokenKind.kEof.
Proof.
  induction ts as [|t ts IH]; intros l H; cbn [token_chain] in H.
  - destruct H as (t & l' & H & Hk). exists t, l', (Parser l' t). split; [done|]. split; [constructor|done].
  - destruct H as (Hk & l' & H & Hc). destruct (IH l' Hc) as (t1 & l1 & p' & H1 & Ht & He).
    exists t, l', p'. split; [done|]. split; [|done]. econstructor; [done| |exact Ht]. unfold take. cbn [ps_lexer ps_cur]. by rewrite H1.
Qed.

Lemma scans_chain data ts : scans data ts <-> token_chain (new_lexer data) ts.
Proof.
  unfold scans, new_parser. split.
  - intros (p & p' & E & Ht & Hk). destruct (next (new_lexer data)) as [[t l]| | |] eqn:En; cbn [obind] in E; [|done..].
    injection E as <-. by eapply takes_chain.
  - intros H. destruct (chain_takes _ _ H) as (t0 & l0 & p' & -> & Ht & Hk). by exists (Parser l0 t0), p'.
Qed.

Lemma scans_lexes data ts : bytes_ok data -> scans data ts <-> lexes 0 data ts.
Proof.
  intros Hd. assert (Hl : lx_ok (new_lexer data)) by (split; [cbn; lia|done]). rewrite scans_chain. split.
  - apply (chain_lexes ts (new_lexer data) Hl).
  - intros H. by apply (lexes_chain 0 data ts H).
Qed.

Lemma chain_unique ts : forall l ts', token_chain l ts -> token_chain l ts' -> ts = ts'.
Proof.
  induction ts as [|t ts IH]; intros l [|t' ts'] H H'; cbn [token_chain] in *; [done| | |].
  - destruct H as (t & l1 & H & Hk), H' as (Hk' & l2 & H' & _). congruence.
  - destruct H as (Hk & l1 & H & _), H' as (t' & l2 & H' & Hk'). congruence.
  - destruct H as (_ & l1 & H & Hc), H' as (_ & l2 & H' & Hc'). rewrite H in H'. injection H' as <- <-. f_equal. by eapply IH.
Qed.

(** ** Claims *)

(** C9. The whole syntax, from bytes to statements. A source parses to the statements
    [sts] if and only if the lexical grammar reads its bytes as tokens - white space and
    the three kinds of comments between them, each token the longest possible, with
    its offset and its value - from which the grammar of statements and expressions
    derives [sts]. Both grammars are unambiguous: a source has at most one sequence of
    tokens, and that at most one tree. *)
Theorem source_exact (data : bytes) : bytes_ok data ->
  (forall sts, parse_source data = Ok sts <-> exists ts, lexes 0 data ts /\ g_statements 1 ts sts) /\
  (forall ts ts', lexes 0 data ts -> lexes 0 data ts' -> ts = ts') /\
  (forall ts sts sts', lexes 0 data ts -> g_statements 1 ts sts -> g_statements 1 ts sts' -> sts = sts').
Proof.
  intros Hd. destruct (parser_exact data Hd) as [Hp Hu]. split; [|split].
  - intros sts. rewrite Hp. split; intros (ts & Hs & Hg); exists ts; (split; [by apply scans_lexes|done]).
  - intros ts ts' H H'. apply scans_lexes in H, H'; [|done..]. rewrite scans_chain in H, H'. by eapply chain_unique.
  - intros ts sts sts' H. apply Hu. by apply scans_lexes.
Qed.

Lemma source_exact_witness :
  (exists ts, lexes 0 (lit "a = 0x1F <<1;// no ; here") ts /\
     g_statements 1 ts [SAssignment 0 [lit "a"] (EBinary 9 TokenKind.kShl (EInt 4 31) (EInt 11 1))]) /\
  ~ exists sts ts, lexes 0 (lit "a = 1.5e+;") ts /\ g_statements 1 ts sts.
Proof.
  split.
  - apply (source_exact (lit "a = 0x1F <<1;// no ; here") (lit_ok _)). vm_compute. reflexivity.
  - intros (sts & ts & H). pose proof (proj2 (proj1 (source_exact (lit "a = 1.5e+;") (lit_ok _)) sts) (ex_intro _ ts H)) as E.
    vm_compute in E. discriminate E.
Defined.
