(* ===== verification/CfgSemantics.v ===== *)
(** * CfgSemantics: the language cfgscript, from bytes to documents

    A semantics of expressions that carries the depth the code limits, and one of
    statements with their scopes, on top of the lexical grammar ([CfgLexical]) and the
    grammar ([CfgGrammar]): together a definition of the language as relations, which
    the whole of [cfgscript::parse] implements exactly. *)

From S2P Require Import Prelude Status Stateful CfgNumber CfgLexer CfgParser CfgEval CfgGrammar CfgLexical.

(** ** Expressions *)

(** [evals_at d e v]: at depth [d], [e] has the value [v]. Every subexpression that is
    evaluated is within the limit; the branches that are not may be deeper. *)
Inductive evals_at (env : Environment) : Z -> Expr -> Value -> Prop :=
  | AtNull d o : d <= kMaxDepth -> evals_at env d (ENull o) VNull
  | AtBool d o b : d <= kMaxDepth -> evals_at env d (EBool o b) (VBool b)
  | AtInt d o i : d <= kMaxDepth -> evals_at env d (EInt o i) (VInt i)
  | AtFloat d o f : d <= kMaxDepth -> evals_at env d (EFloat o f) (VFloat f)
  | AtStr d o s : d <= kMaxDepth -> evals_at env d (EStr o s) (VStr s)
  | AtIdent d o s v : d <= kMaxDepth -> lookup_name s env = Some v -> evals_at env d (EIdent o s) v
  | AtArray d o l vs : d <= kMaxDepth -> Forall2 (evals_at env (d + 1)) l vs -> evals_at env d (EArray o l) (VArray vs)
  | AtObject d o l vs : d <= kMaxDepth -> Forall2 (fun x y => x.1 = y.1 /\ evals_at env (d + 1) x.2 y.2) l vs ->
      evals_at env d (EObject o l) (VObject vs)
  | AtUnary d o op a v w : d <= kMaxDepth -> evals_at env (d + 1) a v -> eval_unary op v o = Ok w ->
      evals_at env d (EUnary o op a) w
  | AtAndFalse d o a b v : d <= kMaxDepth -> evals_at env (d + 1) a v -> truthy v = false ->
      evals_at env d (EBinary o TokenKind.kAndAnd a b) (VBool false)
  | AtAnd d o a b v w : d <= kMaxDepth -> evals_at env (d + 1) a v -> truthy v = true -> evals_at env (d + 1) b w ->
      evals_at env d (EBinary o TokenKind.kAndAnd a b) (VBool (truthy w))
  | AtOrTrue d o a b v : d <= kMaxDepth -> evals_at env (d + 1) a v -> truthy v = true ->
      evals_at env d (EBinary o TokenKind.kOrOr a b) (VBool true)
  | AtOr d o a b v w : d <= kMaxDepth -> evals_at env (d + 1) a v -> truthy v = false -> evals_at env (d + 1) b w ->
      evals_at env d (EBinary o TokenKind.kOrOr a b) (VBool (truthy w))
  | AtBinary d o op a b v w x : d <= kMaxDepth -> op <> TokenKind.kAndAnd -> op <> TokenKind.kOrOr ->
      evals_at env (d + 1) a v -> evals_at env (d + 1) b w -> eval_binary op v w o = Ok x -> evals_at env d (EBinary o op a b) x
  | AtThen d o c a b v w : d <= kMaxDepth -> evals_at env (d + 1) c v -> truthy v = true -> evals_at env (d + 1) a w ->
      evals_at env d (ETernary o c a b) w
  | AtElse d o c a b v w : d <= kMaxDepth -> evals_at env (d + 1) c v -> truthy v = false -> evals_at env (d + 1) b w ->
      evals_at env d (ETernary o c a b) w.

Lemma evals_at_depth env d e v : evals_at env d e v -> d <= kMaxDepth.
Proof. by destruct 1. Qed.

(** An expression that has a value at some depth is evaluated at that depth. *)
Lemma evaluate_guard e env d v : evaluate e env d = Ok v -> d <= kMaxDepth.
Proof.
  destruct (Z.ltb_spec kMaxDepth d) as [H|H]; [|done]. destruct e; cbn [evaluate]; by rewrite (proj2 (Z.ltb_lt _ _)).
Qed.

Lemma evaluate_evals_at e env : forall d v, evaluate e env d = Ok v -> evals_at env d e v.
Proof.
  induction e as [o|o b|o i|o f|o s|o s|o l IH|o l IH|o op a IHa|o op a b IHa IHb|o c a b IHc IHa IHb]
    using expr_nested_ind; intros d v He; pose proof (evaluate_guard _ _ _ _ He) as Hd.
  7: { rewrite evaluate_array in He by done. apply obind_ok_inv in He as (vs & Hvs%eval_list_inv & [= <-]). constructor; [done|].
       clear -Hvs IH. revert vs Hvs. induction IH as [|x l Hx Hl IHl]; intros vs H; [apply Forall2_nil_inv_l in H as ->; by apply Forall2_nil|].
       apply Forall2_cons_inv_l in H as (v & vs' & Hv & Hvs & ->). apply Forall2_cons. split; [by apply Hx|by apply IHl]. }
  7: { rewrite evaluate_object in He by done. apply obind_ok_inv in He as (vs & Hvs%eval_fields_inv & [= <-]). constructor; [done|].
       clear -Hvs IH. revert vs Hvs. induction IH as [|x l Hx Hl IHl]; intros vs H; [apply Forall2_nil_inv_l in H as ->; by apply Forall2_nil|].
       apply Forall2_cons_inv_l in H as (v & vs' & [Hk Hv] & Hvs & ->). apply Forall2_cons.
       split; [split; [done|by apply Hx]|by apply IHl]. }
  all: cbn [evaluate] in He; rewrite (proj2 (Z.ltb_ge _ _)) in He by done; try (injection He as <-; by constructor).
  - destruct (lookup_name s env) eqn:E; [|done]. injection He as <-. by constructor.
  - apply obind_ok_inv in He as (w & Hw & He). econstructor; [done|by apply IHa|done].
  - destruct (bool_decide_reflect (op = TokenKind.kAndAnd)) as [->|Hand];
      [|destruct (bool_decide_reflect (op = TokenKind.kOrOr)) as [->|Hor]];
      apply obind_ok_inv in He as (w & Hw & He); apply IHa in Hw.
    + destruct (truthy w) eqn:Et; cbn [negb] in He; [|injection He as <-; by eapply AtAndFalse].
      apply obind_ok_inv in He as (x & Hx & He). injection He as <-. apply IHb in Hx. by eapply AtAnd.
    + destruct (truthy w) eqn:Et; [injection He as <-; by eapply AtOrTrue|].
      apply obind_ok_inv in He as (x & Hx & He). injection He as <-. apply IHb in Hx. by eapply AtOr.
    + apply obind_ok_inv in He as (x & Hx & He). apply IHb in Hx. by eapply AtBinary.
  - apply obind_ok_inv in He as (w & Hw & He). apply IHc in Hw. destruct (truthy w) eqn:Et.
    + apply IHa in He. by eapply AtThen.
    + apply IHb in He. by eapply AtElse.
Qed.

Lemma evals_at_evaluate e env : forall d v, evals_at env d e v -> evaluate e env d = Ok v.
Proof.
  induction e as [o|o b|o i|o f|o s|o s|o l IH|o l IH|o op a IHa|o op a b IHa IHb|o c a b IHc IHa IHb]
    using expr_nested_ind; intros d v He; pose proof (evals_at_depth _ _ _ _ He) as Hd.
  7: { rewrite evaluate_array by done. inversion He as [| | | | | |? ? ? vs ? Hvs| | | | | | | | |]; subst.
       rewrite (eval_list_intro _ _ vs); [done|]. clear -Hvs IH.
       induction Hvs as [|x v l vs Hx Hl IHl]; [by apply Forall2_nil|].
       apply Forall_cons in IH as [I1 I2]. apply Forall2_cons. split; [by apply I1|by apply IHl]. }
  7: { rewrite evaluate_object by done. inversion He as [| | | | | | |? ? ? vs ? Hvs| | | | | | | |]; subst.
       rewrite (eval_fields_intro _ _ vs); [done|]. clear -Hvs IH.
       induction Hvs as [|x v l vs [Hk Hx] Hl IHl]; [by apply Forall2_nil|].
       apply Forall_cons in IH as [I1 I2]. apply Forall2_cons. split; [split; [done|by apply I1]|by apply IHl]. }
  all: cbn [evaluate] in *; rewrite (proj2 (Z.ltb_ge kMaxDepth d)) by done;
    inversion He; subst; try done;
    repeat match goal with
    | H : lookup_name _ _ = Some _ |- _ => by rewrite H
    | IH : (forall d v, evals_at _ d ?a v -> evaluate ?a _ d = Ok v), H : evals_at _ (?d + 1) ?a ?v |- context [evaluate ?a _ (?d + 1)] =>
        rewrite (IH (d + 1) v H)
    | H : truthy _ = _ |- _ => rewrite H
    | |- context [bool_decide (?x = ?y)] => first [rewrite (bool_decide_eq_true_2 (x = y)) by done | rewrite (bool_decide_eq_false_2 (x = y)) by done]
    | |- _ => progress cbn [obind negb]
    end; done.
Qed.

Lemma evaluate_iff e env d v : evaluate e env d = Ok v <-> evals_at env d e v.
Proof. split; [apply evaluate_evals_at|apply evals_at_evaluate]. Qed.

(** ** Statements *)

(** [builds env l ns env']: in the scopes [env], innermost first, the statements [l]
    are the nodes [ns] and leave the scopes [env']. A block has a scope of its own. *)
Inductive builds : Environment -> list ParsedStatement -> list Node -> Environment -> Prop :=
  | BuildNone env : builds env [] [] env
  | BuildAssignment env o path leaf e v l ns env' : evals_at env 1 e v ->
      builds (define leaf v env) l ns env' ->
      builds env (SAssignment o (path ++ [leaf]) e :: l) (NAssignment (path ++ [leaf]) v :: ns) env'
  | BuildBlock env o name label children inner scope l ns env' :
      builds (∅ :: env) children inner scope -> builds env l ns env' ->
      builds env (SBlock o name label children :: l) (NBlock name label inner :: ns) env'
  | BuildInclude env o path l ns env' : builds env l ns env' ->
      builds env (SInclude o path :: l) (NInclude path :: ns) env'.

Section build.
Context (size : nat).

(** A statement in front of statements that are built. *)
Definition builds_first (s : ParsedStatement) : Prop := forall env n env1 l ns env',
  stmt_ok size s -> build_node s env = Ok (n, env1) -> builds env1 l ns env' -> builds env (s :: l) (n :: ns) env'.

Lemma builds_of_list l : Forall builds_first l -> Forall (stmt_ok size) l ->
  forall env ns env', build_nodes l env = Ok (ns, env') -> builds env l ns env'.
Proof.
  induction 1 as [|s l Hs _ IH]; intros Hok env ns env' H; cbn [build_nodes] in H; [injection H as <- <-; constructor|].
  apply Forall_cons in Hok as [Hok1 Hok]. apply obind_ok_inv in H as ([n env1] & Hn & H).
  apply obind_ok_inv in H as ([ns' env2] & Hns & H). injection H as <- <-. eapply Hs; [done|done|by apply IH].
Qed.

Lemma build_node_builds s : builds_first s.
Proof.
  induction s as [o path e|o name label cs IH|o path] using stmt_nested_ind; intros env n env1 l ns env' Hok Hn Hl.
  - cbn [build_node] in Hn. apply obind_ok_inv in Hn as (v & Hv & Hn). injection Hn as <- <-. destruct Hok as [Hne _].
    destruct path as [|leaf path _] using rev_ind; [done|]. rewrite last_snoc in Hl.
    econstructor; [by apply evaluate_evals_at|done].
  - rewrite build_node_block in Hn. apply obind_ok_inv in Hn as ([inner scope] & Hi & Hn). injection Hn as <- <-.
    destruct Hok as (_ & _ & Hok). apply fold_right_Forall_iff in Hok. econstructor; [by apply builds_of_list|done].
  - injection Hn as <- <-. by constructor.
Qed.

Lemma build_nodes_builds l env ns env' : Forall (stmt_ok size) l -> build_nodes l env = Ok (ns, env') -> builds env l ns env'.
Proof. intros Hok. apply builds_of_list; [|done]. apply Forall_true, build_node_builds. Qed.
End build.

Lemma builds_build_nodes env l ns env' : builds env l ns env' -> build_nodes l env = Ok (ns, env').
Proof.
  induction 1 as [env|env o path leaf e v l ns env' He _ IH|env o name label cs inner scope l ns env' _ IHi _ IH|env o path l ns env' _ IH];
    cbn [build_nodes]; [done| | |].
  - cbn [build_node]. rewrite (evals_at_evaluate _ _ _ _ He). cbn [obind]. rewrite last_snoc. by rewrite IH.
  - rewrite build_node_block, IHi. cbn [obind]. by rewrite IH.
  - cbn [build_node obind]. by rewrite IH.
Qed.

(** ** Documents *)

(** [source_means data doc]: the language gives the bytes [data] the meaning [doc]. *)
Definition source_means (data : bytes) (doc : Document) : Prop :=
  exists ts sts env, lexes 0 data ts /\ g_statements 1 ts sts /\ builds [∅] sts doc env.

Lemma parse_source_lexes data sts : bytes_ok data ->
  parse_source data = Ok sts <-> exists ts, lexes 0 data ts /\ g_statements 1 ts sts.
Proof.
  intros Hd. rewrite (proj1 (parser_exact data Hd) sts).
  split; intros (ts & Hs & Hg); exists ts; (split; [by apply scans_lexes|done]).
Qed.

(** ** Claims *)

(** C8. The whole of [parse] implements the language definition: a source yields a document
    if and only if its bytes are tokens, the tokens are statements, and the statements
    build that document, with every value the one the semantics of expressions gives in
    the scopes at that point and within the depth limit. A source means at most one
    document. *)
Theorem parse_exact (data : bytes) : bytes_ok data ->
  (forall doc, CfgEval.parse data = Ok doc <-> source_means data doc) /\
  (forall doc doc', source_means data doc -> source_means data doc' -> doc = doc').
Proof.
  intros Hd. assert (H : forall doc, CfgEval.parse data = Ok doc <-> source_means data doc).
  { intros doc. unfold CfgEval.parse, source_means. split.
    - intros H. apply obind_ok_inv in H as (sts & Hs & H). apply obind_ok_inv in H as ([ns env] & Hb & H). injection H as <-.
      pose proof (parse_source_runs data Hd) as Hok. rewrite Hs in Hok. apply (parse_source_lexes data sts Hd) in Hs as (ts & Hts & Hg).
      exists ts, sts, env. split; [done|]. split; [done|]. by eapply build_nodes_builds.
    - intros (ts & sts & env & Hts & Hg & Hb). assert (Hs : parse_source data = Ok sts) by (apply parse_source_lexes; eauto).
      rewrite Hs. cbn [obind]. by rewrite (builds_build_nodes _ _ _ _ Hb). }
  split; [done|]. intros doc doc' H1 H2. apply H in H1, H2. congruence.
Qed.

Lemma parse_exact_witness :
  source_means (lit "x = 3; # three" ++ [10] ++ lit "b { x = x * 2; y = [x, -1]; } z = x;")
    [NAssignment [lit "x"] (VInt 3);
     NBlock (lit "b") None [NAssignment [lit "x"] (VInt 6); NAssignment [lit "y"] (VArray [VInt 6; VInt (-1)])];
     NAssignment [lit "z"] (VInt 3)] /\
  ~ exists doc, source_means (lit "b { x = 1; } y = x;") doc.
Proof.
  split.
  - apply (parse_exact (lit "x = 3; # three" ++ [10] ++ lit "b { x = x * 2; y = [x, -1]; } z = x;"));
      [by apply (bool_decide_unpack _); vm_compute|]. vm_compute. reflexivity.
  - intros (doc & H). apply (proj1 (parse_exact (lit "b { x = 1; } y = x;") (lit_ok _)) doc) in H.
    vm_compute in H. discriminate H.
Defined.
