(* ===== verification/CfgRoundtrip.v ===== *)
(** * CfgRoundtrip: serialized documents parse back

    [src/cfgscript/serializer.cpp] against the parser and the evaluator: the text of a
    document spells a list of tokens, and the parser reads those tokens as statements
    that evaluate to the document. *)

From S2P Require Import Prelude Status Stateful CfgNumber CfgLexer CfgParser CfgEval CfgSerializer CfgLookup CfgTokens.

(** ** Documents that can be written as source *)

(** The levels of depth the parser needs for a value. *)
Fixpoint value_need (v : Value) : Z :=
  match v with
  | VInt i => if i <? 0 then 2 else 1
  | VArray l => fold_right (fun x h => Z.max (2 + value_need x) h) 1 l
  | VObject l => fold_right (fun x h => Z.max (2 + value_need x.2) h) 1 l
  | _ => 1
  end.

Fixpoint printable_value (v : Value) : Prop :=
  match v with
  | VNull | VBool _ => True
  | VInt i => - 2 ^ 63 < i < 2 ^ 63
  | VFloat _ => False
  | VStr s => bytes_ok s
  | VArray l => fold_right (fun x P => printable_value x /\ P) True l
  | VObject l => fold_right (fun x P => (identifier x.1 /\ printable_value x.2) /\ P) True l
  end.

Fixpoint node_depth (n : Node) : Z :=
  match n with
  | NBlock _ _ cs => 1 + fold_right (fun x h => Z.max (node_depth x) h) 0 cs
  | _ => 1
  end.

Fixpoint printable_node (n : Node) : Prop :=
  match n with
  | NAssignment path v => path <> [] /\ Forall identifier path /\ printable_value v /\ 1 + value_need v <= kMaxDepth
  | NBlock name label cs =>
      identifier name /\ match label with Some l => bytes_ok l | None => True end /\
      fold_right (fun x P => printable_node x /\ P) True cs
  | NInclude path => bytes_ok path
  end.

(** Names are identifiers, numbers are integers that can be negated, and nothing is
    nested deeper than the parser goes. *)
Definition printable (doc : Document) : Prop :=
  Forall (fun n => printable_node n /\ node_depth n <= kMaxDepth) doc.

(** ** The tokens of a document *)

Definition separated (sep : Token) : list (list Token) -> list Token :=
  fix go l := match l with
              | [] => []
              | x :: l' => x ++ match l' with [] => [] | _ => sep :: go l' end
              end.

Section tokens.
Context (opts : SerializeOptions).

Fixpoint value_tokens (v : Value) : list Token :=
  match v with
  | VNull => [word_token (lit "null")]
  | VBool b => [word_token (if b then lit "true" else lit "false")]
  | VInt i => if i <? 0 then [punct TokenKind.kMinus; number_token (- i)] else [number_token i]
  | VFloat _ => []
  | VStr s => [string_token s]
  | VArray l =>
      punct TokenKind.kLBracket :: separated (punct TokenKind.kComma) (map value_tokens l) ++
      (if bool_decide (l = []) || render_inline (length l) opts then [] else [punct TokenKind.kComma]) ++ [punct TokenKind.kRBracket]
  | VObject l =>
      punct TokenKind.kLBrace ::
      concat (map (fun kv => word_token kv.1 :: punct TokenKind.kAssign :: value_tokens kv.2 ++ [punct TokenKind.kSemicolon]) l) ++
      [punct TokenKind.kRBrace]
  end.

Definition path_tokens (path : list bytes) : list Token :=
  separated (punct TokenKind.kDot) (map (fun c => [word_token c]) path).

Fixpoint node_tokens (n : Node) : list Token :=
  match n with
  | NAssignment path v => path_tokens path ++ punct TokenKind.kAssign :: value_tokens v ++ [punct TokenKind.kSemicolon]
  | NBlock name label cs =>
      word_token name :: match label with Some l => [string_token l] | None => [] end ++
      punct TokenKind.kLBrace :: concat (map node_tokens cs) ++ [punct TokenKind.kRBrace]
  | NInclude path => [word_token (lit "include"); string_token path; punct TokenKind.kSemicolon]
  end.

(** ** The text spells the tokens *)

Lemma spells_blank ws w ts : Forall (fun c => is_space c = true) ws -> spells w ts -> spells (ws ++ w) ts.
Proof.
  intros Hw [ws' H|ws' w' a r ts' H1 H2 H3]; [apply SpEnd; by apply Forall_app|].
  rewrite (app_assoc ws ws'). apply SpToken; [by apply Forall_app|done..].
Qed.

Lemma spells_now w a r ts : token_text w a r -> spells r ts -> spells (w ++ r) (a :: ts).
Proof. intros H1 H2. by apply (SpToken [] w). Qed.

Lemma spells_space w ts : spells w ts -> spells (32 :: w) ts.
Proof. apply (spells_blank [32]). by repeat constructor. Qed.
Lemma spells_newline w ts : spells w ts -> spells (10 :: w) ts.
Proof. apply (spells_blank [10]). by repeat constructor. Qed.

Lemma spells_indent depth width w ts : spells w ts -> spells (append_indent depth width ++ w) ts.
Proof.
  apply spells_blank. unfold append_indent. apply Forall_concat, Forall_replicate, Forall_replicate. done.
Qed.

Lemma spells_punct c k r ts : (c, k) ∈ punctuation -> spells r ts -> spells (c :: r) (punct k :: ts).
Proof. intros Hk. apply (spells_now [c]). by apply TtPunct. Qed.

Lemma spells_assign r ts : spells r ts -> spells (lit " = " ++ r) (punct TokenKind.kAssign :: ts).
Proof. intros H. apply (spells_space (61 :: 32 :: r)), (spells_now [61]); [by apply TtAssign|by apply spells_space]. Qed.

Lemma spells_word w r ts : is_word w -> head_not is_ident_part r -> spells r ts -> spells (w ++ r) (word_token w :: ts).
Proof. intros Hw Hr. apply spells_now. by apply TtWord. Qed.

Lemma head_not_number_word r : head_not number_part r -> head_not is_ident_part r.
Proof. destruct r as [|c r]; [done|]. cbn. unfold number_part. by intros [H _]%orb_false_elim. Qed.

(** A text that always spells these tokens, in front of anything that ends them. *)
Definition renders (w : bytes) (ts : list Token) : Prop :=
  forall r ts', head_not number_part r -> spells r ts' -> spells (w ++ r) (ts ++ ts').

Lemma renders_word w : is_word w -> renders w [word_token w].
Proof. intros Hw r ts Hr Hs. apply spells_word; [done|by apply head_not_number_word|done]. Qed.

Lemma renders_int i : - 2 ^ 63 < i < 2 ^ 63 -> renders (to_string_int i) (value_tokens (VInt i)).
Proof.
  intros Hi r ts Hr Hs. unfold to_string_int. cbn [value_tokens]. destruct (Z.ltb_spec i 0).
  - apply (spells_punct 45); [by vm_compute; do 7 right; left|]. apply spells_now; [apply TtInt; [lia|done]|done].
  - apply spells_now; [apply TtInt; [lia|done]|done].
Qed.

Lemma renders_string s : bytes_ok s -> renders (append_quoted s) [string_token s].
Proof. intros Hb r ts Hr Hs. apply spells_now; [by apply TtString|done]. Qed.

Lemma inline_items_cons2 sep x y l : inline_items sep (x :: y :: l) = x ++ sep ++ inline_items sep (y :: l).
Proof. done. Qed.
Lemma separated_cons2 sep x y l : separated sep (x :: y :: l) = x ++ sep :: separated sep (y :: l).
Proof. done. Qed.

Lemma inline_commas f l : Forall (fun v => renders (f v) (value_tokens v)) l ->
  renders (inline_items (lit ", ") (map f l)) (separated (punct TokenKind.kComma) (map value_tokens l)).
Proof.
  induction 1 as [|v l Hv Hl IH]; intros r ts Hr Hs; [done|]. destruct l as [|x l].
  - cbn. rewrite !app_nil_r. by apply Hv.
  - cbn [map] in *. rewrite inline_items_cons2, separated_cons2, <- !app_assoc. apply Hv; [done|]. cbn [app].
    apply (spells_punct 44); [by vm_compute; do 5 right; left|]. apply spells_space. by apply IH.
Qed.

Lemma lines_commas f depth l : Forall (fun v => renders (f v) (value_tokens v)) l -> l <> [] -> forall r ts, spells r ts ->
  spells (line_items depth (indent_width opts) (lit "," ++ [10]) (map f l) ++ r)
         (separated (punct TokenKind.kComma) (map value_tokens l) ++ punct TokenKind.kComma :: ts).
Proof.
  unfold line_items. induction 1 as [|v l Hv Hl IH]; intros Hne r ts Hs; [done|].
  destruct l as [|x l]; cbn [map concat] in *.
  - cbn [separated]. rewrite !app_nil_r, <- !app_assoc. apply spells_indent, Hv; [done|].
    apply (spells_punct 44); [by vm_compute; do 5 right; left|]. by apply spells_newline.
  - rewrite separated_cons2, <- !app_assoc. apply spells_indent, Hv; [done|]. cbn [app].
    apply (spells_punct 44); [by vm_compute; do 5 right; left|]. apply spells_newline.
    specialize (IH ltac:(done) r ts Hs). by rewrite <- !app_assoc in IH.
Qed.

Lemma identifier_word w : identifier w -> is_word w.
Proof. by intros [H _]. Qed.

(** [key = value;] *)
Definition field_tokens (kv : bytes * Value) : list Token :=
  word_token kv.1 :: punct TokenKind.kAssign :: value_tokens kv.2 ++ [punct TokenKind.kSemicolon].

Lemma spells_field kv w r ts : identifier kv.1 -> renders w (value_tokens kv.2) -> spells r ts ->
  spells (kv.1 ++ lit " = " ++ w ++ 59 :: r) (field_tokens kv ++ ts).
Proof.
  intros Hk Hv Hs. unfold field_tokens. cbn [app]. rewrite <- app_assoc. apply spells_word; [by apply identifier_word|done|].
  apply spells_assign, Hv; [done|]. apply (spells_punct 59); [by vm_compute; do 4 right; left|done].
Qed.

Lemma inline_fields f l : Forall (fun kv => identifier kv.1 /\ renders (f kv.2) (value_tokens kv.2)) l -> forall r ts, spells r ts ->
  spells (inline_items (lit " ") (map (fun kv => kv.1 ++ lit " = " ++ f kv.2 ++ lit ";") l) ++ r) (concat (map field_tokens l) ++ ts).
Proof.
  induction 1 as [|kv l [Hk Hv] Hl IH]; intros r ts Hs; [done|]. destruct l as [|x l]; cbn [map concat] in *.
  - cbn [inline_items]. rewrite !app_nil_r, <- !app_assoc. by apply spells_field.
  - rewrite inline_items_cons2, <- (app_assoc (field_tokens kv)), <- !(app_assoc kv.1). rewrite <- !app_assoc.
    apply spells_field; [done..|]. apply spells_space. specialize (IH r ts Hs). by rewrite <- !app_assoc in IH.
Qed.

Lemma lines_fields f depth l : Forall (fun kv => identifier kv.1 /\ renders (f kv.2) (value_tokens kv.2)) l -> forall r ts, spells r ts ->
  spells (line_items depth (indent_width opts) (lit ";" ++ [10]) (map (fun kv => kv.1 ++ lit " = " ++ f kv.2) l) ++ r)
         (concat (map field_tokens l) ++ ts).
Proof.
  unfold line_items. induction 1 as [|kv l [Hk Hv] Hl IH]; intros r ts Hs; [done|]. cbn [map concat]. rewrite <- !app_assoc.
  apply spells_indent. apply (spells_field kv (f kv.2)); [done..|]. apply spells_newline. by apply IH.
Qed.

Lemma renders_array l depth : Forall (fun v => forall depth, renders (render_value opts depth v) (value_tokens v)) l ->
  renders (render_value opts depth (VArray l)) (value_tokens (VArray l)).
Proof.
  intros Hl r ts Hr Hs. cbn [render_value value_tokens app].
  assert (Hend : spells (93 :: r) (punct TokenKind.kRBracket :: ts)) by (apply spells_punct; [by vm_compute; do 3 right; left|done]).
  assert (Hi : forall d, Forall (fun v => renders (render_value opts d v) (value_tokens v)) l) by (intros d; by eapply Forall_impl).
  destruct l as [|v l].
  { cbn. apply (spells_punct 91); [by vm_compute; do 2 right; left|done]. }
  rewrite !bool_decide_eq_false_2 by done. cbn [orb]. destruct (render_inline (length (v :: l)) opts); cbn [app]; rewrite <- !app_assoc; cbn [app]; rewrite <- ?app_assoc.
  - apply (spells_punct 91); [by vm_compute; do 2 right; left|]. by apply inline_commas.
  - apply (spells_punct 91); [by vm_compute; do 2 right; left|]. apply spells_newline. apply lines_commas; [done..|]. by apply spells_indent.
Qed.

Lemma renders_object l depth : Forall (fun kv => identifier kv.1 /\ forall depth, renders (render_value opts depth kv.2) (value_tokens kv.2)) l ->
  renders (render_value opts depth (VObject l)) (value_tokens (VObject l)).
Proof.
  intros Hl r ts Hr Hs. cbn [render_value value_tokens app]. fold field_tokens. rewrite <- app_assoc.
  assert (Hend : spells (125 :: r) (punct TokenKind.kRBrace :: ts)) by (apply spells_punct; [by vm_compute; right; left|done]).
  assert (Hi : forall d, Forall (fun kv => identifier kv.1 /\ renders (render_value opts d kv.2) (value_tokens kv.2)) l).
  { intros d. eapply Forall_impl; [exact Hl|]. by intros kv [H1 H2]. }
  destruct l as [|v l].
  { cbn. apply (spells_punct 123); [by vm_compute; left|done]. }
  rewrite bool_decide_eq_false_2 by done. destruct (render_inline (length (v :: l)) opts); cbn [app]; rewrite <- !app_assoc; cbn [app]; rewrite <- ?app_assoc.
  - apply (spells_punct 123); [by vm_compute; left|]. apply spells_space.
    apply (inline_fields (render_value opts depth)); [done|]. by apply spells_space.
  - apply (spells_punct 123); [by vm_compute; left|]. apply spells_newline.
    apply (lines_fields (render_value opts (S depth))); [done|]. by apply spells_indent.
Qed.

Lemma is_word_check w : match w with c :: _ => is_ident_start c | [] => false end && forallb is_ident_part w = true -> is_word w.
Proof.
  intros H. apply andb_prop in H as [H1 H2]. destruct w as [|c w]; [done|]. split; [done|].
  apply Forall_forall. intros x Hx%list_elem_of_In. rewrite forallb_forall in H2. by apply H2.
Qed.

(** A printable value is rendered as its tokens, in every layout. *)
Lemma renders_value v : forall depth, printable_value v -> renders (render_value opts depth v) (value_tokens v).
Proof.
  induction v as [|b|i|f|s|l IH|l IH] using value_nested_ind; intros depth Hv.
  - apply renders_word, is_word_check. done.
  - destruct b; by apply renders_word, is_word_check.
  - by apply renders_int.
  - done.
  - by apply renders_string.
  - apply fold_right_Forall_iff in Hv. apply renders_array. rewrite Forall_forall in *. intros v Hin d. by apply IH, Hv.
  - apply (fold_right_Forall_iff (fun x => identifier x.1 /\ printable_value x.2)) in Hv. apply renders_object.
    rewrite Forall_forall in *. intros kv Hin. destruct (Hv kv Hin). split; [done|]. intros d. by apply IH.
Qed.

Lemma renders_path path : Forall identifier path -> renders (render_path path) (path_tokens path).
Proof.
  unfold render_path, path_tokens. induction 1 as [|c l Hc Hl IH]; intros r ts Hr Hs; [done|].
  apply identifier_word in Hc. destruct l as [|x l]; cbn [map] in *.
  - cbn. rewrite app_nil_r. apply spells_word; [done|by apply head_not_number_word|done].
  - rewrite inline_items_cons2, separated_cons2, <- !app_assoc. apply spells_word; [done..|]. cbn [app].
    apply (spells_punct 46); [by vm_compute; do 6 right; left|]. by apply IH.
Qed.

(** Nodes end their own line, so anything may follow. *)
Definition renders_line (w : bytes) (ts : list Token) : Prop := forall r ts', spells r ts' -> spells (w ++ r) (ts ++ ts').

Lemma renders_lines {A} (f : A -> bytes) (g : A -> list Token) l : Forall (fun x => renders_line (f x) (g x)) l ->
  renders_line (concat (map f l)) (concat (map g l)).
Proof.
  induction 1 as [|x l Hx Hl IH]; intros r ts Hs; [done|]. cbn [map concat]. rewrite <- !app_assoc. by apply Hx, IH.
Qed.

Lemma renders_node n : forall depth, printable_node n -> renders_line (render_node opts depth n) (node_tokens n).
Proof.
  induction n as [p v|name label cs IH|p] using node_nested_ind; intros depth Hn r ts Hs; cbn [render_node node_tokens]; rewrite <- !app_assoc.
  - destruct Hn as (_ & Hp & Hv & _). apply spells_indent, renders_path; [done..|]. cbn [app]. rewrite <- app_assoc.
    apply spells_assign, renders_value; [done..|]. apply (spells_punct 59); [by vm_compute; do 4 right; left|]. by apply spells_newline.
  - destruct Hn as (Hname & Hlabel & Hcs). apply fold_right_Forall_iff in Hcs.
    assert (Hbody : spells ((if bool_decide (length cs = 0%nat) then lit " {}" ++ [10]
        else lit " {" ++ [10] ++ concat (map (render_node opts (S depth)) cs) ++ append_indent depth (indent_width opts) ++ lit "}" ++ [10]) ++ r)
        (punct TokenKind.kLBrace :: concat (map node_tokens cs) ++ [punct TokenKind.kRBrace] ++ ts)).
    { assert (Hend : spells (125 :: 10 :: r) (punct TokenKind.kRBrace :: ts))
        by (apply spells_punct; [by vm_compute; right; left|by apply spells_newline]).
      destruct cs as [|c cs]; [apply spells_space, (spells_punct 123); [by vm_compute; left|done]|].
      rewrite bool_decide_eq_false_2 by done. rewrite <- !app_assoc. apply spells_space, (spells_punct 123); [by vm_compute; left|].
      apply spells_newline, (renders_lines (render_node opts (S depth)) node_tokens); [|by apply spells_indent].
      rewrite Forall_forall in *. auto. }
    apply spells_indent. cbn [app] in *. destruct label as [l|]; rewrite <- ?app_assoc; cbn [app] in *.
    + apply spells_word; [by apply identifier_word|done|]. apply spells_space, spells_now; [by apply TtString|].
      rewrite <- ?app_assoc. exact Hbody.
    + apply spells_word; [by apply identifier_word| |rewrite <- ?app_assoc; exact Hbody]. by destruct cs.
  - apply spells_indent. apply (spells_word (lit "include")); [|done|].
    { by apply is_word_check. }
    apply spells_space, spells_now; [by apply TtString|]. apply (spells_punct 59); [by vm_compute; do 4 right; left|]. by apply spells_newline.
Qed.

Lemma serialize_spells doc : Forall printable_node doc -> spells (serialize opts doc) (concat (map node_tokens doc)).
Proof.
  intros Hd. rewrite <- (app_nil_r (serialize opts doc)), <- (app_nil_r (concat (map node_tokens doc))).
  apply (renders_lines (render_node opts 0) node_tokens); [|by apply SpEnd]. eapply Forall_impl; [exact Hd|]. intros n Hn. by apply renders_node.
Qed.

(** ** The parser on a stream of tokens *)

Definition pstream (p : parser) (ts : list Token) : Prop :=
  lx_ok (ps_lexer p) /\ Forall (fun a => tk_kind a <> TokenKind.kEof) ts /\
  match ts with
  | [] => kind_now p = TokenKind.kEof
  | a :: ts' => (exists o, ps_cur p = at_offset a o) /\ streams (ps_lexer p) ts'
  end.

Lemma pstream_kind p a ts : pstream p (a :: ts) -> kind_now p = tk_kind a.
Proof. intros (_ & _ & [o E] & _). unfold kind_now. by rewrite E. Qed.

Lemma pstream_turns p ts : pstream p ts -> (length ts < ps_turns p)%nat.
Proof.
  intros (Hl & Hk & H). unfold ps_turns. destruct ts as [|a ts]; [cbn; lia|]. destruct H as [_ H].
  apply Forall_cons in Hk as [_ Hk]. pose proof (streams_length ts _ Hl Hk H). unfold lx_left in *. cbn [length]. lia.
Qed.

Lemma take_stream p a ts : pstream p (a :: ts) -> exists o p', take p = Ok (at_offset a o, p') /\ pstream p' ts.
Proof.
  intros (Hl & Hk & [o E] & Hs). apply Forall_cons in Hk as [_ Hk]. exists o. unfold take. destruct ts as [|b ts].
  - destruct Hs as (o' & l' & E'). pose proof (next_spec _ Hl) as Hn. rewrite E' in *. cbn [obind]. rewrite E. eexists. split; [done|].
    split; [apply Hn|done].
  - destruct Hs as (o' & l' & E' & Hl' & Hs). rewrite E'. cbn [obind]. rewrite E. eexists. split; [done|].
    split; [done|]. split; [done|]. split; [by eexists|done].
Qed.

Lemma check_stream k p a ts : pstream p (a :: ts) -> check k p = Ok (bool_decide (tk_kind a = k), p).
Proof. intros H. unfold check, st_get. by rewrite (pstream_kind _ _ _ H). Qed.

Lemma expect_stream k what p a ts : pstream p (a :: ts) -> tk_kind a = k ->
  exists o p', expect k what p = Ok (at_offset a o, p') /\ pstream p' ts.
Proof.
  intros H Hk. unfold expect. rewrite (bind_ok _ _ _ _ _ (check_stream k _ _ _ H)), bool_decide_eq_true_2 by done. by apply take_stream.
Qed.

Lemma accept_yes k p a ts : tk_kind a = k -> pstream p (a :: ts) -> exists p', accept k p = Ok (true, p') /\ pstream p' ts.
Proof.
  intros Hk H. unfold accept. rewrite (bind_ok _ _ _ _ _ (check_stream k _ _ _ H)), bool_decide_eq_true_2 by done.
  destruct (take_stream _ _ _ H) as (o & p' & E & H'). exists p'. by rewrite (bind_ok _ _ _ _ _ E).
Qed.

Lemma accept_no k p a ts : tk_kind a <> k -> pstream p (a :: ts) -> accept k p = Ok (false, p).
Proof.
  intros Hk H. unfold accept. by rewrite (bind_ok _ _ _ _ _ (check_stream k _ _ _ H)), bool_decide_eq_false_2.
Qed.

Lemma depth_fine d o (p : parser) : d <= kMaxDepth -> check_depth d o p = Ok (tt, p).
Proof. intros H. unfold check_depth. by rewrite (proj2 (Z.ltb_ge _ _)). Qed.

Lemma depth_here d (p : parser) : d <= kMaxDepth -> check_depth_here d p = Ok (tt, p).
Proof. apply depth_fine. Qed.

(** ** Expressions *)

(** The expression always has the value, and is no higher than the value is deep. *)
Definition denotes (e : Expr) (v : Value) : Prop := (forall env, evals env e v) /\ expr_height e <= value_need v.

(** A token that ends an expression. *)
Definition ends_expr (k : Token) : Prop := binary_precedence (tk_kind k) = -1 /\ tk_kind k <> TokenKind.kQuestion.

(** [m] reads the tokens of [v], up to a token that ends it. *)
Definition reads (m : P Expr) (v : Value) : Prop := forall p k ts, pstream p (value_tokens v ++ k :: ts) -> ends_expr k ->
  exists e p', m p = Ok (e, p') /\ pstream p' (k :: ts) /\ denotes e v.

Lemma ternary_reads n d v : d <= kMaxDepth -> reads (parse_unary n (d + 1)) v -> reads (parse_ternary (S (S n)) d) v.
Proof.
  intros Hd Hu p k ts Hp Hk. destruct (Hu p k ts Hp Hk) as (e & p' & E & Hp' & He). exists e, p'. split; [|done].
  assert (Hb : parse_binary (S n) 1 d p = Ok (e, p')).
  { cbn [parse_binary]. rewrite (bind_ok _ _ _ _ _ (depth_here d p Hd)), (bind_ok _ _ _ _ _ E), bind_get.
    unfold ps_turns. cbn [binary_loop]. rewrite (pstream_kind _ _ _ Hp'). by destruct Hk as [-> _]. }
  cbn [parse_ternary]. rewrite (bind_ok _ _ _ _ _ (depth_here d p Hd)), (bind_ok _ _ _ _ _ Hb), (bind_ok _ _ _ _ _ (check_stream _ _ _ _ Hp')).
  by rewrite bool_decide_eq_false_2 by apply Hk.
Qed.

Definition unary_op (k : TokenKind) : bool := bool_decide (k = TokenKind.kMinus \/ k = TokenKind.kBang \/ k = TokenKind.kTilde).

Lemma unary_reads n d v a rest : d <= kMaxDepth -> value_tokens v = a :: rest -> unary_op (tk_kind a) = false ->
  reads (parse_primary n d) v -> reads (parse_unary (S n) d) v.
Proof.
  intros Hd Hv Ha Hr p k ts Hp Hk. destruct (Hr p k ts Hp Hk) as (e & p' & E & Hp' & He). exists e, p'. split; [|done].
  cbn [parse_unary]. rewrite (bind_ok _ _ _ _ _ (depth_here d p Hd)), bind_get. rewrite Hv in Hp. rewrite (pstream_kind _ _ _ Hp).
  unfold unary_op in Ha. apply bool_decide_eq_false in Ha. by destruct (tk_kind a); try done; destruct Ha; auto.
Qed.

(** A value of one token. *)
Lemma literal_reads n d v a e : d <= kMaxDepth -> value_tokens v = [a] ->
  (forall o p, ps_cur p = at_offset a o -> parse_primary (S n) d p = literal (e o) p) -> (forall o, denotes (e o) v) ->
  reads (parse_primary (S n) d) v.
Proof.
  intros Hd Hv He Hden p k ts Hp Hk. rewrite Hv in Hp. pose proof Hp as (_ & _ & [o Eo] & _).
  destruct (take_stream _ _ _ Hp) as (o' & p' & E & Hp'). exists (e o), p'. split; [|done].
  rewrite (He o p Eo). unfold literal. by rewrite (bind_ok _ _ _ _ _ E).
Qed.

Lemma primary_at n d p a o : d <= kMaxDepth -> ps_cur p = at_offset a o ->
  parse_primary (S n) d p =
  match tk_kind a with
  | TokenKind.kInt => literal (EInt o (tk_int a)) p
  | TokenKind.kString => literal (EStr o (tk_text a)) p
  | TokenKind.kTrue => literal (EBool o true) p
  | TokenKind.kFalse => literal (EBool o false) p
  | TokenKind.kNull => literal (ENull o) p
  | TokenKind.kLBracket => parse_array n o d p
  | TokenKind.kLBrace => parse_object n o d p
  | _ => parse_primary (S n) d p
  end.
Proof.
  intros Hd E. cbn [parse_primary]. rewrite (bind_ok _ _ _ _ _ (depth_here d p Hd)), bind_get, E. cbn [at_offset tk_kind tk_offset tk_int tk_text].
  by destruct (tk_kind a).
Qed.

Lemma value_tokens_head v : printable_value v -> exists a rest, value_tokens v = a :: rest /\ tk_kind a <> TokenKind.kRBracket.
Proof.
  intros Hv. destruct v as [|b|i|f|s|l|l]; cbn [value_tokens]; [| | |done|..].
  - by eexists _, _.
  - by destruct b; eexists _, _.
  - by destruct (i <? 0); eexists _, _.
  - by eexists _, _.
  - by eexists _, _.
  - by eexists _, _.
Qed.

Definition comma : Token := punct TokenKind.kComma.
Definition rbracket : Token := punct TokenKind.kRBracket.

Lemma elements_read m l trail : Forall (fun v => reads m v /\ printable_value v) l -> trail = [] \/ trail = [comma] ->
  forall turns acc p ts, l <> [] -> (length l <= turns)%nat ->
  pstream p (separated comma (map value_tokens l) ++ trail ++ rbracket :: ts) ->
  exists es p', elements_loop turns m acc p = Ok (acc ++ es, p') /\ pstream p' (rbracket :: ts) /\ Forall2 denotes es l.
Proof.
  intros Hl Htrail. induction Hl as [|v l [Hv Hpv] Hl IH]; intros turns acc p ts Hne Ht Hp; [done|].
  destruct turns as [|turns]; [cbn in Ht; lia|]. cbn [elements_loop].
  destruct l as [|w l].
  - cbn [map separated] in Hp. rewrite app_nil_r in Hp. destruct Htrail as [-> | ->]; cbn [app] in Hp.
    + destruct (Hv p _ _ Hp) as (e & p1 & E1 & Hp1 & He); [done|]. rewrite (bind_ok _ _ _ _ _ E1).
      assert (E2 : accept TokenKind.kComma p1 = Ok (false, p1)) by (by eapply accept_no; [|exact Hp1]).
      rewrite (bind_ok _ _ _ _ _ E2). exists [e], p1. split; [done|]. split; [done|]. apply Forall2_cons. split; [done|by apply Forall2_nil].
    + destruct (Hv p _ _ Hp) as (e & p1 & E1 & Hp1 & He); [done|]. rewrite (bind_ok _ _ _ _ _ E1).
      destruct (accept_yes TokenKind.kComma p1 comma _ eq_refl Hp1) as (p2 & E2 & Hp2). rewrite (bind_ok _ _ _ _ _ E2).
      rewrite (bind_ok _ _ _ _ _ (check_stream _ _ _ _ Hp2)). rewrite bool_decide_eq_true_2 by done.
      exists [e], p2. split; [done|]. split; [done|]. apply Forall2_cons. split; [done|by apply Forall2_nil].
  - cbn [map] in Hp. rewrite separated_cons2, <- app_assoc in Hp. cbn [app] in Hp.
    destruct (Hv p _ _ Hp) as (e & p1 & E1 & Hp1 & He); [done|]. rewrite (bind_ok _ _ _ _ _ E1).
    destruct (accept_yes TokenKind.kComma p1 comma _ eq_refl Hp1) as (p2 & E2 & Hp2). rewrite (bind_ok _ _ _ _ _ E2).
    assert (Hc : check TokenKind.kRBracket p2 = Ok (false, p2)).
    { apply Forall_cons in Hl as [[_ Hw] _]. destruct (value_tokens_head w Hw) as (a & rest & Ea & Hka).
      assert (Hhead : exists k, separated comma (value_tokens w :: map value_tokens l) ++ trail ++ rbracket :: ts = a :: k).
      { cbn [separated]. rewrite Ea. by eexists. }
      destruct Hhead as [k Ek]. rewrite Ek in Hp2. rewrite (check_stream _ _ _ _ Hp2). by rewrite bool_decide_eq_false_2. }
    rewrite (bind_ok _ _ _ _ _ Hc). destruct (IH turns (acc ++ [e]) p2 ts) as (es & p3 & E3 & Hp3 & Hes); [done|cbn in Ht |- *; lia|done|].
    exists (e :: es), p3. split; [by rewrite E3, <- app_assoc|]. split; [done|]. by apply Forall2_cons.
Qed.

Definition field_denotes (x : bytes * Expr) (y : bytes * Value) : Prop := x.1 = y.1 /\ denotes x.2 y.2.

Lemma fields_read m l o : Forall (fun kv => identifier kv.1 /\ reads m kv.2) l -> forall turns acc p ts, (length l < turns)%nat ->
  pstream p (concat (map field_tokens l) ++ punct TokenKind.kRBrace :: ts) ->
  exists es p', fields_loop turns m o acc p = Ok (acc ++ es, p') /\ pstream p' (punct TokenKind.kRBrace :: ts) /\ Forall2 field_denotes es l.
Proof.
  induction 1 as [|[key v] l [Hkey Hv] Hl IH]; intros turns acc p ts Ht Hp; (destruct turns as [|turns]; [cbn in Ht; lia|]); cbn [fields_loop].
  - cbn [map concat app] in Hp. rewrite (pstream_kind _ _ _ Hp). exists [], p. rewrite app_nil_r. split; [done|]. split; [done|by apply Forall2_nil].
  - cbn [map concat] in Hp. unfold field_tokens in Hp at 1. cbn [fst snd app] in *. rewrite <- !app_assoc in Hp. cbn [app] in Hp.
    pose proof (pstream_kind _ _ _ Hp) as Hk. cbn [word_token text_token tk_kind] in Hk. destruct Hkey as [_ Hkw]. rewrite Hkw in Hk. rewrite Hk.
    rewrite !bool_decide_eq_false_2 by done.
    assert (E0 : accept TokenKind.kSemicolon p = Ok (false, p)) by (eapply accept_no; [|exact Hp]; cbn; by rewrite Hkw).
    rewrite (bind_ok _ _ _ _ _ E0).
    destruct (expect_stream TokenKind.kIdent "key identifier in object literal" p _ _ Hp Hkw) as (o1 & p1 & E1 & Hp1). rewrite (bind_ok _ _ _ _ _ E1).
    destruct (expect_stream TokenKind.kAssign "'=' after object key" p1 _ _ Hp1 eq_refl) as (o2 & p2 & E2 & Hp2). rewrite (bind_ok _ _ _ _ _ E2).
    destruct (Hv p2 _ _ Hp2) as (e & p3 & E3 & Hp3 & He); [done|]. rewrite (bind_ok _ _ _ _ _ E3).
    destruct (expect_stream TokenKind.kSemicolon "';' after object field" p3 _ _ Hp3 eq_refl) as (o4 & p4 & E4 & Hp4). rewrite (bind_ok _ _ _ _ _ E4).
    destruct (IH turns (acc ++ [(key, e)]) p4 ts) as (es & p5 & E5 & Hp5 & Hes); [cbn in Ht; lia|done|].
    exists ((key, e) :: es), p5. split; [cbn [at_offset word_token text_token tk_text]; by rewrite E5, <- app_assoc|]. split; [done|]. apply Forall2_cons. by repeat split; try apply He.
Qed.

Lemma value_need_pos v : 1 <= value_need v.
Proof.
  destruct v as [|b|i|f|s|l|l]; cbn [value_need]; try lia; [case_bool; lia|induction l; cbn [fold_right]; lia..].
Qed.

Lemma need_bound {A} (f : A -> Z) l b : fold_right (fun x h => Z.max (2 + f x) h) 1 l <= b -> Forall (fun x => f x <= b - 2) l.
Proof. induction l as [|x l IH]; cbn [fold_right]; intros H; [by apply Forall_nil|]. apply Forall_cons. split; [lia|apply IH; lia]. Qed.

Lemma array_denotes o es l : Forall2 denotes es l -> denotes (EArray o es) (VArray l).
Proof.
  intros H. split.
  - intros env. constructor. eapply Forall2_impl; [exact H|]. intros e v [He _]. apply He.
  - cbn [expr_height value_need]. induction H as [|e v es l [_ He] H IH]; cbn [fold_right]; lia.
Qed.

Lemma object_denotes o es l : Forall2 field_denotes es l -> denotes (EObject o es) (VObject l).
Proof.
  intros H. split.
  - intros env. constructor. eapply Forall2_impl; [exact H|]. intros e v [Hk [He _]]. split; [done|apply He].
  - cbn [expr_height value_need]. induction H as [|e v es l [_ [_ He]] H IH]; cbn [fold_right]; lia.
Qed.

Lemma separated_length l : Forall printable_value l -> (length l <= length (separated comma (map value_tokens l)))%nat.
Proof.
  induction 1 as [|w l Hw Hl IH]; [done|]. destruct (value_tokens_head w Hw) as (b & rest & Eb & _).
  destruct l as [|x l]; [cbn; rewrite Eb; cbn; lia|]. cbn [map] in *. rewrite separated_cons2, length_app, Eb. cbn [length] in *. lia.
Qed.

Lemma array_reads n d l : d <= kMaxDepth -> Forall (fun v => reads (parse_ternary n (d + 1)) v /\ printable_value v) l ->
  reads (parse_primary (S (S n)) d) (VArray l).
Proof.
  intros Hd Hl p k ts Hp Hk. cbn [value_tokens app] in Hp. pose proof Hp as (_ & _ & [o Eo] & _).
  rewrite (primary_at _ _ _ _ _ Hd Eo). cbn [tk_kind punct plain_token parse_array].
  rewrite (bind_ok _ _ _ _ _ (depth_fine d o p Hd)).
  destruct (expect_stream TokenKind.kLBracket "'['" _ _ _ Hp eq_refl) as (o1 & p1 & E1 & Hp1). rewrite (bind_ok _ _ _ _ _ E1).
  assert (Hel : exists es p2, (let* empty := check TokenKind.kRBracket in
      let* turns := st_get ps_turns in
      let* elements := (if empty then st_ret [] else elements_loop turns (parse_ternary n (d + 1)) []) in
      expect TokenKind.kRBracket "']' to close array literal" ;* st_ret (EArray o elements)) p1 =
      (expect TokenKind.kRBracket "']' to close array literal" ;* st_ret (EArray o es)) p2 /\
      pstream p2 (rbracket :: k :: ts) /\ Forall2 denotes es l).
  { destruct l as [|v l].
    - cbn in Hp1. rewrite (bind_ok _ _ _ _ _ (check_stream _ _ _ _ Hp1)). exists [], p1. split; [done|]. split; [done|by apply Forall2_nil].
    - set (trail := if bool_decide (v :: l = []) || render_inline (length (v :: l)) opts then [] else [comma]).
      assert (Htrail : trail = [] \/ trail = [comma]) by (unfold trail; case_bool; auto).
      rewrite <- !app_assoc in Hp1. change (pstream p1 (separated comma (map value_tokens (v :: l)) ++ trail ++ rbracket :: k :: ts)) in Hp1.
      pose proof (proj1 (Forall_cons _ _ _) Hl) as [[_ Hv] _]. destruct (value_tokens_head v Hv) as (a & rest & Ea & Hka).
      assert (Hhead : exists q, separated comma (map value_tokens (v :: l)) ++ trail ++ rbracket :: k :: ts = a :: q).
      { cbn [map separated]. rewrite Ea. by eexists. }
      destruct Hhead as [q Eq]. pose proof Hp1 as Hp1'. rewrite Eq in Hp1'. rewrite (bind_ok _ _ _ _ _ (check_stream _ _ _ _ Hp1')).
      rewrite (bool_decide_eq_false_2 (tk_kind a = _)), bind_get by done.
      destruct (elements_read (parse_ternary n (d + 1)) (v :: l) trail Hl Htrail (ps_turns p1) [] p1 (k :: ts)) as (es & p2 & E2 & Hp2 & Hes);
        [done| |done|].
      + pose proof (pstream_turns _ _ Hp1) as Ht. rewrite length_app in Ht.
        assert (Hlen : (length (v :: l) <= length (separated comma (map value_tokens (v :: l))))%nat); [|lia].
        apply separated_length. eapply Forall_impl; [exact Hl|]. by intros w [_ Hw].
      + rewrite (bind_ok _ _ _ _ _ E2). by exists es, p2. }
  destruct Hel as (es & p2 & -> & Hp2 & Hes).
  destruct (expect_stream TokenKind.kRBracket "']' to close array literal" _ _ _ Hp2 eq_refl) as (o3 & p3 & E3 & Hp3). rewrite (bind_ok _ _ _ _ _ E3).
  exists (EArray o es), p3. split; [done|]. split; [done|by apply array_denotes].
Qed.

Lemma object_reads n d l : d <= kMaxDepth -> Forall (fun kv => identifier kv.1 /\ reads (parse_ternary n (d + 1)) kv.2) l ->
  reads (parse_primary (S (S n)) d) (VObject l).
Proof.
  intros Hd Hl p k ts Hp Hk. cbn [value_tokens app] in Hp. pose proof Hp as (_ & _ & [o Eo] & _).
  rewrite (primary_at _ _ _ _ _ Hd Eo). cbn [tk_kind punct plain_token parse_object].
  rewrite (bind_ok _ _ _ _ _ (depth_fine d o p Hd)).
  destruct (expect_stream TokenKind.kLBrace "'{'" _ _ _ Hp eq_refl) as (o1 & p1 & E1 & Hp1). rewrite (bind_ok _ _ _ _ _ E1), bind_get.
  rewrite <- app_assoc in Hp1. change (pstream p1 (concat (map field_tokens l) ++ punct TokenKind.kRBrace :: k :: ts)) in Hp1.
  destruct (fields_read (parse_ternary n (d + 1)) l o Hl (ps_turns p1) [] p1 (k :: ts)) as (es & p2 & E2 & Hp2 & Hes); [|done|].
  { pose proof (pstream_turns _ _ Hp1) as Ht. rewrite length_app in Ht.
    assert (length l <= length (concat (map field_tokens l)))%nat; [|lia]. clear. induction l as [|kv l IH]; [done|].
    cbn [map concat]. rewrite length_app. unfold field_tokens at 1. cbn [length]. lia. }
  rewrite (bind_ok _ _ _ _ _ E2).
  destruct (expect_stream TokenKind.kRBrace "'}' to close object literal" _ _ _ Hp2 eq_refl) as (o3 & p3 & E3 & Hp3). rewrite (bind_ok _ _ _ _ _ E3).
  exists (EObject o es), p3. split; [done|]. split; [done|by apply object_denotes].
Qed.

Lemma scalar_denotes (e : Z -> Expr) v : (forall o env, evals env (e o) v) -> (forall o, expr_height (e o) = 0) -> forall o, denotes (e o) v.
Proof. intros H1 H2 o. split; [by intros env|]. rewrite H2. pose proof (value_need_pos v). lia. Qed.

(** A negative number is a negated literal. *)
Lemma negative_reads n d i : d + 1 <= kMaxDepth -> - 2 ^ 63 < i < 0 -> reads (parse_unary (S (S (S n))) d) (VInt i).
Proof.
  intros Hd Hi p k ts Hp Hk. cbn [value_tokens] in Hp. rewrite (proj2 (Z.ltb_lt i 0)) in Hp by lia. cbn [app] in Hp.
  cbn [parse_unary]. rewrite (bind_ok _ _ _ _ _ (depth_here d p ltac:(lia))), bind_get, (pstream_kind _ _ _ Hp). cbn [tk_kind punct plain_token].
  destruct (take_stream _ _ _ Hp) as (o1 & p1 & E1 & Hp1). rewrite (bind_ok _ _ _ _ _ E1).
  assert (Hr : reads (parse_unary (S (S n)) (d + 1)) (VInt (- i))).
  { eapply (unary_reads (S n)); [done|cbn [value_tokens]; by rewrite (proj2 (Z.ltb_ge (- i) 0)) by lia|done|].
    apply (literal_reads n (d + 1) (VInt (- i)) (number_token (- i)) (fun o => EInt o (- i))); [done|cbn [value_tokens]; by rewrite (proj2 (Z.ltb_ge (- i) 0)) by lia| |].
    - intros o q Eq. by rewrite (primary_at _ _ _ _ _ Hd Eq).
    - apply scalar_denotes; [intros; constructor|done]. }
  destruct (Hr p1 k ts) as (e & p2 & E2 & Hp2 & [He Hh]); [|done|].
  { cbn [value_tokens]. by rewrite (proj2 (Z.ltb_ge (- i) 0)) by lia. }
  fold parse_unary. rewrite (bind_ok _ _ _ _ _ E2). exists (EUnary o1 TokenKind.kMinus e), p2. split; [done|]. split; [done|]. split.
  - intros env. econstructor; [apply He|]. cbn. f_equal. f_equal. rewrite i64_u64, (i64_congr _ i), i64_small; [done|unfold is_i64; lia|].
    unfold u64. rewrite Zminus_mod_idemp_r. f_equal. lia.
  - cbn [expr_height value_need] in *. rewrite (proj2 (Z.ltb_ge (- i) 0)) in Hh by lia. rewrite (proj2 (Z.ltb_lt i 0)) by lia. lia.
Qed.

(** A printable value is read back by [parse_ternary], given levels and depth. *)
Lemma value_reads v : printable_value v -> forall n d, 3 * value_need v + 3 <= Z.of_nat n -> d + value_need v <= kMaxDepth ->
  reads (parse_ternary n d) v.
Proof.
  pose proof value_need_pos as Hpos.
  assert (Hscalar : forall v a e, printable_value v -> value_tokens v = [a] -> unary_op (tk_kind a) = false ->
    (forall n d o p, d <= kMaxDepth -> ps_cur p = at_offset a o -> parse_primary (S n) d p = literal (e o) p) -> (forall o, denotes (e o) v) ->
    forall n d, 3 * value_need v + 3 <= Z.of_nat n -> d + value_need v <= kMaxDepth -> reads (parse_ternary n d) v).
  { intros w a e Hw Ha Hu Hp He n d Hn Hd. pose proof (Hpos w). do 4 (destruct n as [|n]; [lia|]).
    apply ternary_reads; [lia|]. eapply unary_reads; [lia|exact Ha|done|]. eapply literal_reads; [lia|exact Ha| |exact He].
    intros o p E. apply Hp; [lia|done]. }
  induction v as [|b|i|f|s|l IH|l IH] using value_nested_ind; intros Hv.
  - eapply (Hscalar VNull _ ENull); [done..| |]; [intros n d o p Hd E; by rewrite (primary_at _ _ _ _ _ Hd E)|by apply scalar_denotes; [constructor|]].
  - eapply (Hscalar (VBool b) _ (fun o => EBool o b)); [done|done|by destruct b| |].
    + intros n d o p Hd E. rewrite (primary_at _ _ _ _ _ Hd E). by destruct b.
    + by apply scalar_denotes; [constructor|].
  - destruct (Z.ltb_spec i 0) as [Hi|Hi].
    + intros n d Hn Hd. cbn [value_need] in *. rewrite (proj2 (Z.ltb_lt i 0)) in * by lia. cbn in Hv.
      do 5 (destruct n as [|n]; [lia|]). apply ternary_reads; [lia|]. apply negative_reads; lia.
    + eapply (Hscalar (VInt i) (number_token i) (fun o => EInt o i)); [done|cbn [value_tokens]; by rewrite (proj2 (Z.ltb_ge i 0))|done| |].
      * intros n d o p Hd E. by rewrite (primary_at _ _ _ _ _ Hd E).
      * by apply scalar_denotes; [constructor|].
  - done.
  - eapply (Hscalar (VStr s) _ (fun o => EStr o s)); [done..| |]; [intros n d o p Hd E; by rewrite (primary_at _ _ _ _ _ Hd E)|by apply scalar_denotes; [constructor|]].
  - intros n d Hn Hd. pose proof (Hpos (VArray l)). do 5 (destruct n as [|n]; [lia|]). apply ternary_reads; [lia|].
    eapply unary_reads; [lia|done|done|]. apply fold_right_Forall_iff in Hv. apply array_reads; [lia|].
    pose proof (need_bound value_need l _ (Z.le_refl _)) as Hb. change (fold_right _ 1 l) with (value_need (VArray l)) in Hb.
    rewrite Forall_forall in *. intros x Hx. specialize (Hb x Hx). split; [|by apply Hv]. apply IH; [done|by apply Hv|lia|lia].
  - intros n d Hn Hd. pose proof (Hpos (VObject l)). do 5 (destruct n as [|n]; [lia|]). apply ternary_reads; [lia|].
    eapply unary_reads; [lia|done|done|]. apply (fold_right_Forall_iff (fun x => identifier x.1 /\ printable_value x.2)) in Hv. apply object_reads; [lia|].
    pose proof (need_bound (fun kv : bytes * Value => value_need kv.2) l _ (Z.le_refl _)) as Hb. change (fold_right _ 1 l) with (value_need (VObject l)) in Hb.
    rewrite Forall_forall in *. intros x Hx. specialize (Hb x Hx). destruct (Hv x Hx). split; [done|]. apply IH; [done|done|cbv beta in Hb; lia|cbv beta in Hb; lia].
Qed.

(** ** Statements *)

Definition dotted_tokens (l : list bytes) : list Token := concat (map (fun c => [punct TokenKind.kDot; word_token c]) l).

Lemma path_tokens_cons l : forall c, path_tokens (c :: l) = word_token c :: dotted_tokens l.
Proof.
  unfold path_tokens, dotted_tokens. induction l as [|x l IH]; intros c; [done|]. cbn [map concat] in *. by rewrite separated_cons2, IH.
Qed.

Lemma path_read l : forall turns acc p k ts, Forall identifier l -> (length l < turns)%nat -> tk_kind k <> TokenKind.kDot ->
  pstream p (dotted_tokens l ++ k :: ts) -> exists p', path_loop turns acc p = Ok (acc ++ l, p') /\ pstream p' (k :: ts).
Proof.
  induction l as [|c l IH]; intros turns acc p k ts Hl Ht Hk Hp; (destruct turns as [|turns]; [cbn in Ht; lia|]); cbn [path_loop].
  - rewrite (bind_ok _ _ _ _ _ (accept_no _ _ _ _ Hk Hp)). exists p. by rewrite app_nil_r.
  - apply Forall_cons in Hl as [[_ Hc] Hl]. change (dotted_tokens (c :: l)) with (punct TokenKind.kDot :: word_token c :: dotted_tokens l) in Hp. cbn [app] in Hp.
    destruct (accept_yes TokenKind.kDot p (punct TokenKind.kDot) _ eq_refl Hp) as (p1 & E1 & Hp1). rewrite (bind_ok _ _ _ _ _ E1).
    destruct (expect_stream TokenKind.kIdent "identifier after '.'" _ _ _ Hp1 Hc) as (o & p2 & E2 & Hp2). rewrite (bind_ok _ _ _ _ _ E2).
    destruct (IH turns (acc ++ [c]) p2 k ts Hl) as (p3 & E3 & Hp3); [cbn in Ht; lia|done|done|]. exists p3. split; [|done].
    cbn [at_offset word_token text_token tk_text]. by rewrite E3, <- app_assoc.
Qed.

(** The statement always builds the node. *)
Definition builds (st : ParsedStatement) (n : Node) : Prop := forall env, exists env', build_node st env = Ok (n, env').
Definition reads_node (m : P ParsedStatement) (n : Node) : Prop := forall p ts, pstream p (node_tokens n ++ ts) ->
  exists st p', m p = Ok (st, p') /\ pstream p' ts /\ builds st n.

Lemma builds_list sts cs : Forall2 builds sts cs -> forall env, exists env', build_nodes sts env = Ok (cs, env').
Proof.
  induction 1 as [|st n sts cs Hst Hl IH]; intros env; [by eexists|]. cbn [build_nodes].
  destruct (Hst env) as [env1 ->]. cbn [obind]. destruct (IH env1) as [env2 ->]. by eexists.
Qed.

Lemma node_tokens_head n : printable_node n -> exists a rest, node_tokens n = a :: rest /\ (tk_kind a = TokenKind.kIdent \/ tk_kind a = TokenKind.kInclude).
Proof.
  destruct n as [path v|name label cs|path]; intros Hn; cbn [node_tokens].
  - destruct Hn as (Hne & Hp & _). destruct path as [|c path]; [done|]. apply Forall_cons in Hp as [[_ Hc] _]. rewrite path_tokens_cons.
    eexists _, _. split; [done|by left].
  - destruct Hn as [[_ Hc] _]. eexists _, _. split; [done|by left].
  - eexists _, _. split; [done|by right].
Qed.

Lemma assignment_reads n d path v : d <= kMaxDepth -> printable_node (NAssignment path v) -> reads_node (parse_statement (S n) d) (NAssignment path v).
Proof.
  intros Hd (Hne & Hpath & Hv & Hneed) p ts Hp. destruct path as [|c path]; [done|]. apply Forall_cons in Hpath as [[_ Hc] Hpath].
  cbn [node_tokens] in Hp. rewrite path_tokens_cons in Hp. cbn [app] in Hp. rewrite <- !app_assoc in Hp. cbn [app] in Hp. rewrite <- !app_assoc in Hp. cbn [app] in Hp.
  pose proof Hp as (_ & _ & [o Eo] & _). cbn [parse_statement]. rewrite (bind_ok _ _ _ _ _ (depth_here d p Hd)), bind_get.
  rewrite (bind_ok _ _ _ _ _ (check_stream _ _ _ _ Hp)). rewrite bool_decide_eq_false_2 by (cbn; by rewrite Hc).
  destruct (expect_stream TokenKind.kIdent "identifier at start of statement" _ _ _ Hp Hc) as (o1 & p1 & E1 & Hp1). rewrite (bind_ok _ _ _ _ _ E1).
  cbn [at_offset word_token text_token tk_text].
  assert (Hnext : exists a rest, dotted_tokens path ++ punct TokenKind.kAssign :: value_tokens v ++ punct TokenKind.kSemicolon :: ts = a :: rest /\
    tk_kind a <> TokenKind.kString /\ tk_kind a <> TokenKind.kLBrace) by (destruct path; by eexists _, _).
  destruct Hnext as (a & rest & Ea & Ha1 & Ha2). pose proof Hp1 as Hp1'. rewrite Ea in Hp1'.
  rewrite (bind_ok _ _ _ _ _ (check_stream _ _ _ _ Hp1')), bool_decide_eq_false_2 by done.
  rewrite (bind_ok _ _ _ _ _ (check_stream _ _ _ _ Hp1')), bool_decide_eq_false_2, bind_get by done.
  destruct (path_read path (ps_turns p1) [c] p1 (punct TokenKind.kAssign) (value_tokens v ++ punct TokenKind.kSemicolon :: ts) Hpath) as (p2 & E2 & Hp2); [|done|exact Hp1|].
  { pose proof (pstream_turns _ _ Hp1) as Ht. rewrite length_app in Ht. assert (length path <= length (dotted_tokens path))%nat; [|lia].
    clear. unfold dotted_tokens. induction path; cbn [map concat]; [done|]. rewrite length_app. cbn [length]. lia. }
  rewrite (bind_ok _ _ _ _ _ E2). unfold parse_assignment.
  destruct (expect_stream TokenKind.kAssign "'=' in assignment" _ _ _ Hp2 eq_refl) as (o3 & p3 & E3 & Hp3). rewrite (bind_ok _ _ _ _ _ E3).
  destruct (value_reads v Hv expr_levels 1) with (p := p3) (k := punct TokenKind.kSemicolon) (ts := ts) as (e & p4 & E4 & Hp4 & He & Hh); [unfold expr_levels, kMaxDepth in *; lia|done|exact Hp3|done|].
  unfold parse_expr. rewrite (bind_ok _ _ _ _ _ E4).
  destruct (expect_stream TokenKind.kSemicolon "';' after assignment" _ _ _ Hp4 eq_refl) as (o5 & p5 & E5 & Hp5). rewrite (bind_ok _ _ _ _ _ E5).
  eexists _, p5. split; [done|]. split; [done|]. intros env. cbn [build_node app].
  rewrite (evaluate_complete e env 1 v) by (done || lia). cbn [obind]. by eexists.
Qed.

Lemma include_reads n d path : d <= kMaxDepth -> reads_node (parse_statement (S n) d) (NInclude path).
Proof.
  intros Hd p ts Hp. cbn [node_tokens app] in Hp. cbn [parse_statement]. rewrite (bind_ok _ _ _ _ _ (depth_here d p Hd)), bind_get.
  rewrite (bind_ok _ _ _ _ _ (check_stream _ _ _ _ Hp)), bool_decide_eq_true_2 by done. unfold parse_include.
  destruct (take_stream _ _ _ Hp) as (o1 & p1 & E1 & Hp1). rewrite (bind_ok _ _ _ _ _ E1).
  destruct (expect_stream TokenKind.kString "string path after 'include'" _ _ _ Hp1 eq_refl) as (o2 & p2 & E2 & Hp2). rewrite (bind_ok _ _ _ _ _ E2).
  destruct (expect_stream TokenKind.kSemicolon "';' after include path" _ _ _ Hp2 eq_refl) as (o3 & p3 & E3 & Hp3). rewrite (bind_ok _ _ _ _ _ E3).
  eexists _, p3. split; [done|]. split; [done|]. intros env. by eexists.
Qed.

Lemma nodes_tokens_length cs : Forall printable_node cs -> (length cs <= length (concat (map node_tokens cs)))%nat.
Proof.
  induction 1 as [|n cs Hn Hl IH]; [done|]. destruct (node_tokens_head n Hn) as (a & rest & E & _). cbn [map concat]. rewrite E, length_app. cbn [length]. lia.
Qed.

(** One more statement starts here: neither a brace, nor the end, nor a semicolon. *)
Lemma node_starts n p ts : printable_node n -> pstream p (node_tokens n ++ ts) ->
  kind_now p <> TokenKind.kRBrace /\ kind_now p <> TokenKind.kEof /\ accept TokenKind.kSemicolon p = Ok (false, p).
Proof.
  intros Hn Hp. destruct (node_tokens_head n Hn) as (a & rest & E & Ha). rewrite E in Hp. cbn [app] in Hp. rewrite (pstream_kind _ _ _ Hp).
  split; [by destruct Ha as [-> | ->]|]. split; [by destruct Ha as [-> | ->]|]. eapply accept_no; [|exact Hp]. by destruct Ha as [-> | ->].
Qed.

Lemma block_read m o cs : Forall (fun n => reads_node m n /\ printable_node n) cs -> forall turns acc p ts, (length cs < turns)%nat ->
  pstream p (concat (map node_tokens cs) ++ punct TokenKind.kRBrace :: ts) ->
  exists sts p', block_loop turns m o acc p = Ok (acc ++ sts, p') /\ pstream p' (punct TokenKind.kRBrace :: ts) /\ Forall2 builds sts cs.
Proof.
  induction 1 as [|n cs [Hr Hn] Hl IH]; intros turns acc p ts Ht Hp; (destruct turns as [|turns]; [cbn in Ht; lia|]); cbn [block_loop].
  - cbn [map concat app] in Hp. rewrite (pstream_kind _ _ _ Hp). exists [], p. rewrite app_nil_r. split; [done|]. split; [done|by apply Forall2_nil].
  - cbn [map concat] in Hp. rewrite <- app_assoc in Hp. destruct (node_starts n p _ Hn Hp) as (H1 & H2 & H3).
    rewrite (bool_decide_eq_false_2 (kind_now p = _) H1), (bool_decide_eq_false_2 (kind_now p = _) H2), (bind_ok _ _ _ _ _ H3).
    destruct (Hr p _ Hp) as (st & p1 & E1 & Hp1 & Hst). rewrite (bind_ok _ _ _ _ _ E1).
    destruct (IH turns (acc ++ [st]) p1 ts) as (sts & p2 & E2 & Hp2 & Hsts); [cbn in Ht; lia|done|].
    exists (st :: sts), p2. split; [by rewrite E2, <- app_assoc|]. split; [done|]. by apply Forall2_cons.
Qed.

Lemma parse_block_reads m name label o cs p ts : Forall (fun n => reads_node m n /\ printable_node n) cs ->
  pstream p (punct TokenKind.kLBrace :: concat (map node_tokens cs) ++ punct TokenKind.kRBrace :: ts) ->
  exists st p', parse_block m name label o p = Ok (st, p') /\ pstream p' ts /\ builds st (NBlock name label cs).
Proof.
  intros Hcs Hp. unfold parse_block.
  destruct (expect_stream TokenKind.kLBrace "'{' to open block" _ _ _ Hp eq_refl) as (o1 & p1 & E1 & Hp1). rewrite (bind_ok _ _ _ _ _ E1), bind_get.
  destruct (block_read m o cs Hcs (ps_turns p1) [] p1 ts) as (sts & p2 & E2 & Hp2 & Hsts); [|done|].
  { pose proof (pstream_turns _ _ Hp1) as Ht. rewrite length_app in Ht. pose proof (nodes_tokens_length cs) as Hlen.
    assert (length cs <= length (concat (map node_tokens cs)))%nat; [apply Hlen; by eapply Forall_impl; [exact Hcs|]; intros x [_ Hx]|lia]. }
  rewrite (bind_ok _ _ _ _ _ E2).
  destruct (expect_stream TokenKind.kRBrace "'}' to close block" _ _ _ Hp2 eq_refl) as (o3 & p3 & E3 & Hp3). rewrite (bind_ok _ _ _ _ _ E3).
  eexists _, p3. split; [done|]. split; [done|]. intros env. cbn [app]. rewrite build_node_block.
  destruct (builds_list sts cs Hsts (∅ :: env)) as [env' ->]. cbn [obind]. by eexists.
Qed.

Lemma depth_children cs b : fold_right (fun x h => Z.max (node_depth x) h) 0 cs <= b -> Forall (fun x => node_depth x <= b) cs.
Proof. induction cs as [|x cs IH]; cbn [fold_right]; intros H; [by apply Forall_nil|]. apply Forall_cons. split; [lia|apply IH; lia]. Qed.

Lemma node_depth_pos n : 1 <= node_depth n.
Proof. destruct n as [p v|name label cs|p]; cbn [node_depth]; [lia| |lia]. induction cs; cbn [fold_right]; lia. Qed.

(** A printable node is read back by [parse_statement], given levels and depth. *)
Lemma statement_reads n : printable_node n -> forall lv d, node_depth n <= Z.of_nat lv -> d + node_depth n <= kMaxDepth + 1 ->
  reads_node (parse_statement lv d) n.
Proof.
  induction n as [path v|name label cs IH|path] using node_nested_ind; intros Hn lv d Hlv Hd;
    match goal with |- reads_node _ ?n => pose proof (node_depth_pos n) end; (destruct lv as [|lv]; [lia|]).
  - apply assignment_reads; [lia|done].
  - intros p ts Hp. cbn [node_tokens] in Hp. destruct Hn as ([_ Hname] & Hlabel & Hcs). apply fold_right_Forall_iff in Hcs.
    cbn [node_depth] in *. pose proof (depth_children cs _ (Z.le_refl _)) as Hb.
    assert (Hr : Forall (fun c => reads_node (parse_statement lv (d + 1)) c /\ printable_node c) cs).
    { rewrite Forall_forall in *. intros c Hc. specialize (Hb c Hc). split; [|by apply Hcs]. apply IH; [done|by apply Hcs|lia|lia]. }
    assert (Hdd : d <= kMaxDepth) by lia.
    cbn [app] in Hp. cbn [parse_statement]. rewrite (bind_ok _ _ _ _ _ (depth_here d p Hdd)), bind_get.
    rewrite (bind_ok _ _ _ _ _ (check_stream _ _ _ _ Hp)), bool_decide_eq_false_2 by (cbn; by rewrite Hname).
    destruct (expect_stream TokenKind.kIdent "identifier at start of statement" _ _ _ Hp Hname) as (o1 & p1 & E1 & Hp1). rewrite (bind_ok _ _ _ _ _ E1).
    destruct label as [l|]; cbn [app] in Hp1; rewrite <- ?app_assoc in Hp1; cbn [app] in Hp1.
    + rewrite (bind_ok _ _ _ _ _ (check_stream _ _ _ _ Hp1)), bool_decide_eq_true_2 by done.
      destruct (take_stream _ _ _ Hp1) as (o2 & p2 & E2 & Hp2). rewrite (bind_ok _ _ _ _ _ E2).
      rewrite (bind_ok _ _ _ _ _ (check_stream _ _ _ _ Hp2)), bool_decide_eq_true_2 by done.
      rewrite <- ?app_assoc in Hp2. by apply (parse_block_reads _ name (Some l) _ cs).
    + rewrite (bind_ok _ _ _ _ _ (check_stream _ _ _ _ Hp1)), bool_decide_eq_false_2 by done.
      rewrite (bind_ok _ _ _ _ _ (check_stream _ _ _ _ Hp1)), bool_decide_eq_true_2 by done.
      rewrite <- ?app_assoc in Hp1. by apply (parse_block_reads _ name None _ cs).
  - apply include_reads. lia.
Qed.

Lemma document_read doc : printable doc -> forall turns acc p, (length doc < turns)%nat -> pstream p (concat (map node_tokens doc)) ->
  exists sts p', document_loop turns acc p = Ok (acc ++ sts, p') /\ Forall2 builds sts doc.
Proof.
  induction 1 as [|n doc [Hn Hd] Hl IH]; intros turns acc p Ht Hp; (destruct turns as [|turns]; [cbn in Ht; lia|]); cbn [document_loop].
  - destruct Hp as (_ & _ & Hk). rewrite Hk. exists [], p. rewrite app_nil_r. split; [done|by apply Forall2_nil].
  - cbn [map concat] in Hp. destruct (node_starts n p _ Hn Hp) as (_ & H2 & H3).
    rewrite (bool_decide_eq_false_2 _ H2), (bind_ok _ _ _ _ _ H3).
    destruct (statement_reads n Hn stmt_levels 1) with (p := p) (ts := concat (map node_tokens doc)) as (st & p1 & E1 & Hp1 & Hst);
      [unfold stmt_levels, kMaxDepth in *; lia|lia|done|]. rewrite (bind_ok _ _ _ _ _ E1).
    destruct (IH turns (acc ++ [st]) p1) as (sts & p2 & E2 & Hsts); [cbn in Ht; lia|done|].
    exists (st :: sts), p2. split; [by rewrite E2, <- app_assoc|]. by apply Forall2_cons.
Qed.
End tokens.

(** ** The text is made of bytes *)

Lemma words_bytes_ok p w : (forall c, p c = true -> is_byte c) -> Forall (fun c => p c = true) w -> bytes_ok w.
Proof. intros Hp Hw. eapply Forall_impl; [exact Hw|]. apply Hp. Qed.

Lemma is_space_byte c : is_space c = true -> is_byte c.
Proof.
  unfold is_space, is_byte. intros H.
  repeat match goal with H : (_ || _)%bool = true |- _ => apply orb_prop in H as [H|H] end; reflect_bools; lia.
Qed.

Lemma escape_string_bytes_ok s : bytes_ok s -> bytes_ok (escape_string s).
Proof.
  intros Hs. unfold escape_string. apply Forall_concat, Forall_map. eapply Forall_impl; [exact Hs|]. intros c Hc.
  assert (Hb : forallb (fun b => (0 <=? b) && (b <? 256)) (escape_char c) = true).
  { revert c Hc. apply (byte_forallb (fun c => forallb (fun b => (0 <=? b) && (b <? 256)) (escape_char c))). by vm_compute. }
  rewrite forallb_forall in Hb. apply Forall_forall. intros b Hin%list_elem_of_In. specialize (Hb b Hin). reflect_bools. unfold is_byte. lia.
Qed.

Lemma token_text_bytes_ok w a r : token_text w a r -> bytes_ok w.
Proof.
  intros [w' r' Hw _|i r' Hi _|s r' Hs|c k r' Hk|r' _].
  - destruct w' as [|c w']; [done|]. destruct Hw as [_ Hw]. by eapply words_bytes_ok; [apply is_ident_part_byte|].
  - apply dec_bytes_ok. lia.
  - unfold append_quoted. rewrite !bytes_ok_app. split; [by repeat constructor|]. split; [by apply escape_string_bytes_ok|by repeat constructor].
  - unfold punctuation in Hk. rewrite !elem_of_cons in Hk. apply Forall_cons. split; [|by apply Forall_nil].
    by destruct Hk as [[= -> ->]|[[= -> ->]|[[= -> ->]|[[= -> ->]|[[= -> ->]|[[= -> ->]|[[= -> ->]|[[= -> ->]|Hk%elem_of_nil]]]]]]]].
  - by repeat constructor.
Qed.

Lemma spells_bytes_ok w ts : spells w ts -> bytes_ok w.
Proof.
  induction 1 as [ws Hw|ws w a r ts Hw Ht Hr IH]; rewrite ?bytes_ok_app.
  - by eapply words_bytes_ok; [apply is_space_byte|].
  - split; [by eapply words_bytes_ok; [apply is_space_byte|]|]. split; [by eapply token_text_bytes_ok|done].
Qed.

Lemma spells_no_eof w ts : spells w ts -> Forall (fun a => tk_kind a <> TokenKind.kEof) ts.
Proof.
  induction 1 as [ws Hw|ws w a r ts Hw Ht Hr IH]; [by apply Forall_nil|]. apply Forall_cons. split; [|done].
  destruct Ht as [w' r' _ _|i r' Hi _|s r' Hs|c k r' Hk|r' _]; try done.
  - cbn. unfold keyword_kind. by repeat case_bool_decide.
  - unfold punctuation in Hk. rewrite !elem_of_cons in Hk.
    by destruct Hk as [[= -> ->]|[[= -> ->]|[[= -> ->]|[[= -> ->]|[[= -> ->]|[[= -> ->]|[[= -> ->]|[[= -> ->]|Hk%elem_of_nil]]]]]]]].
Qed.

(** A parser on a text starts at the first token it spells. *)
Lemma new_parser_stream w ts : spells w ts -> exists p, new_parser w = Ok p /\ pstream p ts.
Proof.
  intros Hs. assert (Hl : lx_ok (new_lexer w)) by (split; [cbn; lia|by eapply spells_bytes_ok]).
  pose proof (spells_no_eof w ts Hs) as Hne. pose proof (spells_streams w ts Hs (new_lexer w) Hl eq_refl) as Hst.
  unfold new_parser. pose proof (next_spec _ Hl) as Hn. destruct ts as [|a ts].
  - destruct Hst as (o & l' & E). rewrite E in *. eexists. split; [done|]. split; [apply Hn|done].
  - destruct Hst as (o & l' & E & Hl' & Hst). rewrite E. eexists. split; [done|]. split; [done|]. split; [done|]. split; [by eexists|done].
Qed.

(** ** Documents that were parsed *)

(** What parsing does not guarantee: no floats, no least integer, nesting within the
    parser's reach. *)
Fixpoint representable_value (v : Value) : Prop :=
  match v with
  | VInt i => i <> - 2 ^ 63
  | VFloat _ => False
  | VArray l => fold_right (fun x P => representable_value x /\ P) True l
  | VObject l => fold_right (fun x P => representable_value x.2 /\ P) True l
  | _ => True
  end.

Fixpoint representable_node (n : Node) : Prop :=
  match n with
  | NAssignment _ v => representable_value v /\ 1 + value_need v <= kMaxDepth
  | NBlock _ _ cs => fold_right (fun x P => representable_node x /\ P) True cs
  | NInclude _ => True
  end.

Definition representable (doc : Document) : Prop := Forall (fun n => representable_node n /\ node_depth n <= kMaxDepth) doc.

Lemma printable_value_ok v : value_ok v -> representable_value v -> printable_value v.
Proof.
  induction v as [|b|i|f|s|l IH|l IH] using value_nested_ind; intros Hv Hr; cbn [value_ok representable_value printable_value] in *; try done.
  - unfold is_i64 in Hv. lia.
  - apply fold_right_Forall_iff in Hv, Hr. apply fold_right_Forall_iff. rewrite Forall_forall in *. auto.
  - apply (fold_right_Forall_iff (fun x => identifier x.1 /\ value_ok x.2)) in Hv.
    apply (fold_right_Forall_iff (fun x : bytes * Value => representable_value x.2)) in Hr.
    apply (fold_right_Forall_iff (fun x => identifier x.1 /\ printable_value x.2)). rewrite Forall_forall in *.
    intros x Hx. destruct (Hv x Hx). split; [done|]. apply IH; [done|done|by apply Hr].
Qed.

Lemma printable_node_ok n : node_ok n -> representable_node n -> printable_node n.
Proof.
  induction n as [p v|name label cs IH|p] using node_nested_ind; intros Hn Hr; cbn [node_ok representable_node printable_node] in *; [| |done].
  - destruct Hn as (H1 & H2 & H3), Hr as [H4 H5]. split; [done|]. split; [done|]. split; [by apply printable_value_ok|done].
  - destruct Hn as (H1 & H2 & H3). split; [done|]. split; [done|]. apply fold_right_Forall_iff in H3, Hr. apply fold_right_Forall_iff.
    rewrite Forall_forall in *. auto.
Qed.

Lemma printable_document doc : Forall node_ok doc -> representable doc -> printable doc.
Proof.
  intros Hn Hr. unfold representable, printable in *. rewrite Forall_forall in *. intros n Hin. destruct (Hr n Hin).
  split; [apply printable_node_ok; auto|done].
Qed.

Lemma serialize_reads opts doc : printable doc -> parse (serialize opts doc) = Ok doc.
Proof.
  intros Hd. assert (Hn : Forall printable_node doc) by (eapply Forall_impl; [exact Hd|]; by intros n [Hn _]).
  destruct (new_parser_stream _ _ (serialize_spells opts doc Hn)) as (p & Ep & Hp).
  destruct (document_read opts doc Hd (ps_turns p) [] p) as (sts & p' & E & Hsts); [|done|].
  { pose proof (pstream_turns _ _ Hp). pose proof (nodes_tokens_length opts doc Hn). lia. }
  unfold parse, parse_source. rewrite Ep. cbn [obind]. unfold parse_document. rewrite bind_get, E. cbn [obind app].
  destruct (builds_list sts doc Hsts [∅]) as [env' ->]. done.
Qed.

(** ** Claim *)

(** C5. The serializer writes source that means the document: in every layout, the text
    of a printable document parses and evaluates back to exactly that document. Printable
    means identifiers for names, no floats, integers above the least one, byte strings,
    statements at most 64 deep, and values within the evaluator's limit of 64 levels, of which
    every array or object takes two and a negative integer one more. Of a document that was
    itself parsed, only the numbers (no floats, not the least integer, whose text does
    not parse) and the nesting within the same limits have to be asked for. *)
Theorem serialize_parse (opts : SerializeOptions) (doc : Document) :
  (printable doc -> parse (serialize opts doc) = Ok doc) /\
  (forall source, bytes_ok source -> parse source = Ok doc -> representable doc -> parse (serialize opts doc) = Ok doc).
Proof.
  split; [apply serialize_reads|]. intros source Hs E Hr. apply serialize_reads, printable_document; [|done].
  pose proof (parse_ok source Hs) as H. by rewrite E in H.
Qed.

Definition print_sample : Document :=
  [NAssignment [lit "a"; lit "b"] (VArray [VInt (-7); VStr [0; 34; 92; 200]; VObject [(lit "k", VBool true)]]);
   NBlock (lit "srv") (Some (lit "main")) [NInclude (lit "x.cfg"); NAssignment [lit "e"] VNull]].

Lemma identifier_check w : match w with c :: _ => is_ident_start c | [] => false end && forallb is_ident_part w && bool_decide (keyword_kind w = TokenKind.kIdent) = true ->
  identifier w.
Proof. intros [H1 H2]%andb_prop. split; [by apply is_word_check|by apply bool_decide_eq_true in H2]. Qed.

Lemma serialize_parse_witness :
  parse (serialize (MkSerialize 3 0) print_sample) = Ok print_sample /\
  exists doc, parse (lit "n = 2; srv { a.b = [n * -5, true]; }") = Ok doc /\ parse (serialize default_serialize doc) = Ok doc.
Proof.
  split.
  - apply (serialize_parse (MkSerialize 3 0) print_sample).
    apply Forall_cons. split; [|apply Forall_cons; split; [|by apply Forall_nil]]; (split; [|by vm_compute]).
    + split; [done|]. split; [apply Forall_cons; split; [by apply identifier_check|apply Forall_cons; split; [by apply identifier_check|by apply Forall_nil]]|].
      split; [|by vm_compute]. split; [cbn; lia|]. split; [by apply (bool_decide_unpack _)|]. split; [|done].
      split; [|done]. split; [by apply identifier_check|done].
    + split; [by apply identifier_check|]. split; [by apply (bool_decide_unpack _)|]. split; [by apply (bool_decide_unpack _)|]. split; [|done].
      split; [done|]. split; [apply Forall_cons; split; [by apply identifier_check|by apply Forall_nil]|]. by split; [|vm_compute].
  - eexists. split; [vm_compute; reflexivity|].
    eapply (proj2 (serialize_parse default_serialize _) (lit "n = 2; srv { a.b = [n * -5, true]; }")); [apply lit_ok|vm_compute; reflexivity|].
    apply Forall_cons. split; [split; [by vm_compute|by vm_compute]|]. apply Forall_cons. split; [|by apply Forall_nil].
    split; [|by vm_compute]. split; [|done]. split; [|by vm_compute]. split; [by vm_compute|]. by split.
Defined.

(** Outside the printable documents the text need not parse back: the least integer
    is not a literal, and six decimals are not enough for every float. *)
Lemma least_integer_unparsed :
  match parse (lit "a = 0x8000000000000000;") with
  | Ok doc => exists e, parse (serialize default_serialize doc) = Throw e
  | _ => False
  end.
Proof. vm_compute. by eexists. Qed.

Lemma float_lost :
  match parse (lit "a = 1.0e-9;") with
  | Ok doc => exists doc', parse (serialize default_serialize doc) = Ok doc' /\ doc' <> doc
  | _ => False
  end.
Proof. vm_compute. eexists. split; [reflexivity|]. discriminate. Qed.
