(* ===== verification/TextOut.v ===== *)
(** * TextOut: lines of printable text, and ["%g"]

    What the text dumps share: the vocabulary in which their shape is stated
    ([inline], [rows]), and [std::snprintf("%g")] of a double given by its 64 bits,
    which minidb and binpack use. *)

From S2P Require Import Prelude Status Hexdump CfgNumber.

(** ** Lines *)

(** A printable ASCII character. *)
Definition inline_char (c : Z) : bool := (0x20 <=? c) && (c <? 0x7F).
Definition inline (w : bytes) : Prop := Forall (fun c => inline_char c = true) w.

(** [w] is [n] printable lines, each ended by a newline. *)
Definition rows (n : nat) (w : bytes) : Prop :=
  exists ls, length ls = n /\ Forall inline ls /\ w = concat (map (fun l => l ++ [10]) ls).

(** The text of given lines, in which an apostrophe stands for a double quote. *)
Definition lines_text (ls : list string) : bytes :=
  concat (map (fun l => map (fun c => if c =? 39 then 34 else c) (lit l) ++ [10]) ls).

(** [append_indent], [indent]: two spaces a level. *)
Definition indent (depth : nat) : bytes := concat (replicate depth (lit "  ")).

(** Text of a C++ expression [flag ? a : b] with string literals. *)
Definition pick (flag : bool) (a b : string) : bytes := if flag then lit a else lit b.

(** A string between double quotes, escaped. *)
Definition quoted (s : bytes) : bytes := [34] ++ lit (escape s) ++ [34].

(** The size of a vector. *)
Definition count_text {A} (l : list A) : bytes := to_string_int (Z.of_nat (length l)).

(** Items with a separator before all but the first. *)
Fixpoint sep_by (sep : bytes) (l : list bytes) : bytes :=
  match l with
  | [] => []
  | x :: l' => x ++ match l' with [] => [] | _ => sep ++ sep_by sep l' end
  end.

(** ** ["%g"] *)

(** The decimal exponent of [num / den], both positive. *)
Definition dec_exponent (num den : Z) : Z :=
  if den <=? num then Z.of_nat (length (dec_bytes (num / den))) - 1
  else - Z.of_nat (length (dec_bytes ((den - 1) / num))).

(** [num / den * 10 ^ k], rounded to an integer, ties to even. *)
Definition round_scaled (num den k : Z) : Z := round_div (num * 10 ^ Z.max k 0) (den * 10 ^ Z.max (- k) 0).

(** The six significant digits of [num / den] and the exponent of the first, after
    rounding. *)
Definition g_digits (num den : Z) : Z * Z :=
  let k := dec_exponent num den in
  let q := round_scaled num den (5 - k) in
  if 10 ^ 6 <=? q then (10 ^ 5, k + 1) else (q, k).

Fixpoint drop_zeros (l : bytes) : bytes :=
  match l with
  | 48 :: l' => drop_zeros l'
  | _ => l
  end.
Definition strip_zeros (l : bytes) : bytes := rev (drop_zeros (rev l)).

(** A fraction, with its point, if anything is left of it. *)
Definition g_fraction (l : bytes) : bytes :=
  match strip_zeros l with [] => [] | f => 46 :: f end.

Definition g_text (q k : Z) : bytes :=
  let ds := pad_dec 6 q in
  if (k <? -4) || (6 <=? k) then
    take 1 ds ++ g_fraction (drop 1 ds) ++ [101; if k <? 0 then 45 else 43] ++ pad_dec 2 (Z.abs k)
  else if k <? 0 then [48] ++ g_fraction (replicate (Z.to_nat (- k - 1)) 48 ++ ds)
  else take (Z.to_nat (k + 1)) ds ++ g_fraction (drop (Z.to_nat (k + 1)) ds).

(** The positive finite double [m * 2 ^ e]. *)
Definition g_finite (m e : Z) : bytes :=
  let '(q, k) := g_digits (m * 2 ^ Z.max e 0) (2 ^ Z.max (- e) 0) in g_text q k.

Definition fmt_double (bits : Z) : bytes :=
  let sign := if Z.testbit bits 63 then [45] else [] in
  let ex := Z.land (Z.shiftr bits 52) 0x7FF in
  let frac := Z.land bits (Z.ones 52) in
  sign ++
  if ex =? 0x7FF then (if frac =? 0 then lit "inf" else lit "nan")
  else if ex =? 0 then (if frac =? 0 then lit "0" else g_finite frac (-1074))
  else g_finite (frac + 2 ^ 52) (ex - 1075).

Example fmt_double_samples :
  map fmt_double [0x3FF8000000000000; 0xBFB999999999999A; 0x412E848000000000; 0x412E847F00000000;
    0x3F1A36E2EB1C432D; 0x3F1A36E2EB1C4000; 0x7FEFFFFFFFFFFFFF; 1; 0x8000000000000000; 0xFFF8000000000000; 0x4059000000000000] =
  map lit ["1.5"; "-0.1"; "1e+06"; "1e+06"; "0.0001"; "0.0001"; "1.79769e+308"; "4.94066e-324"; "-0"; "-nan"; "100"]%string.
Proof. by vm_compute. Qed.

(** ** Printable text *)

#[export] Instance inline_dec w : Decision (inline w).
Proof. unfold inline. apply _. Defined.

Lemma inline_nil : inline [].
Proof. by apply Forall_nil. Qed.
Lemma inline_app a b : inline a -> inline b -> inline (a ++ b).
Proof. intros Ha Hb. by apply Forall_app. Qed.
Lemma inline_cons c w : inline_char c = true -> inline w -> inline (c :: w).
Proof. intros Hc Hw. by apply Forall_cons. Qed.
Lemma inline_concat l : Forall inline l -> inline (concat l).
Proof. induction 1 as [|x l Hx Hl IH]; [apply inline_nil|by apply inline_app]. Qed.
Lemma inline_take n w : inline w -> inline (take n w).
Proof. apply Forall_take. Qed.
Lemma inline_drop n w : inline w -> inline (drop n w).
Proof. apply Forall_drop. Qed.
Lemma inline_if (b : bool) v w : inline v -> inline w -> inline (if b then v else w).
Proof. by destruct b. Qed.
Lemma inline_replicate n c : inline_char c = true -> inline (replicate n c).
Proof. intros Hc. by apply Forall_replicate. Qed.

Lemma inline_digits w : digits_ok w -> inline w.
Proof. intros H. eapply Forall_impl; [exact H|]. intros c Hc. unfold is_digit, inline_char in *. reflect_bools. lia. Qed.

Lemma inline_pick b u v : inline (lit u) -> inline (lit v) -> inline (pick b u v).
Proof. by destruct b. Qed.

Lemma inline_sep_by sep l : inline sep -> Forall inline l -> inline (sep_by sep l).
Proof.
  intros Hs. induction 1 as [|x l Hx Hl IH]; [apply inline_nil|]. cbn [sep_by]. apply inline_app; [done|].
  destruct l; [apply inline_nil|by apply inline_app].
Qed.

Lemma inline_indent d : inline (indent d).
Proof. apply inline_concat, Forall_replicate. by apply (bool_decide_unpack _). Qed.

Lemma inline_int v : inline (to_string_int v).
Proof.
  unfold to_string_int. destruct (Z.ltb_spec v 0); [apply inline_cons; [done|]|]; apply inline_digits, dec_bytes_spec; lia.
Qed.

(** *** Escaped text and hexadecimal numbers *)

Lemma lit_app a b : lit (a +:+ b) = lit a ++ lit b.
Proof. induction a as [|c a IH]; [done|]. exact (f_equal (cons (Z.of_nat (Ascii.nat_of_ascii c))) IH). Qed.

Lemma lit_ascii l : lit (String.string_of_list_ascii l) = map (fun c => Z.of_nat (Ascii.nat_of_ascii c)) l.
Proof. unfold lit. by rewrite String.list_ascii_of_string_of_list_ascii. Qed.

Lemma hex_digit_inline v : inline_char (Z.of_nat (Ascii.nat_of_ascii (hex_digit (Z.land v 0xF)))) = true.
Proof.
  rewrite land_f. assert (H : forallb (fun d => inline_char (Z.of_nat (Ascii.nat_of_ascii (hex_digit d)))) (seqZ 0 16) = true) by by vm_compute.
  rewrite forallb_forall in H. apply H, list_elem_of_In, elem_of_seqZ. pose proof (Z.mod_pos_bound v 16). lia.
Qed.

Lemma inline_escape s : inline (lit (escape s)).
Proof.
  induction s as [|c s IH]; [apply inline_nil|]. cbn [escape]. rewrite lit_app. apply inline_app; [|done]. clear IH.
  unfold escape_byte. repeat case_bool; [by apply (bool_decide_unpack _)| |].
  - reflect_bools. cbn. apply Forall_cons. split; [|by apply Forall_nil].
    rewrite Ascii.nat_ascii_embedding by lia. unfold inline_char. rewrite Z2Nat.id by lia. lia.
  - rewrite lit_app. apply inline_app; [by apply (bool_decide_unpack _)|].
    repeat apply inline_cons; [apply hex_digit_inline..|apply inline_nil].
Qed.

Lemma hex_loop_inline n v : inline (map (fun c => Z.of_nat (Ascii.nat_of_ascii c)) (hex_loop n v)).
Proof.
  revert v. induction n as [|n IH]; intros v; [apply inline_nil|]. cbn [hex_loop]. case_bool; [|apply inline_nil].
  apply inline_cons; [apply hex_digit_inline|apply IH].
Qed.

Lemma inline_to_hex v m : inline (lit (to_hex v m)).
Proof.
  unfold to_hex. rewrite lit_app. apply inline_app; [by apply (bool_decide_unpack _)|]. rewrite lit_ascii, map_rev.
  apply Forall_rev. unfold hex_buf. rewrite map_app. apply inline_app.
  - case_bool; [by apply (bool_decide_unpack _)|apply hex_loop_inline].
  - by apply Forall_fmap, Forall_replicate.
Qed.

Lemma inline_quoted s : inline (quoted s).
Proof. apply inline_cons; [done|]. apply inline_app; [apply inline_escape|by apply (bool_decide_unpack _)]. Qed.

Lemma inline_count {A} (l : list A) : inline (count_text l).
Proof. apply inline_int. Qed.

Create HintDb text discriminated.
#[export] Hint Resolve inline_nil inline_indent inline_int inline_escape inline_to_hex inline_quoted inline_count : text.

(** Split a concatenation and settle its literals by evaluation. *)
Ltac inline_step :=
  first [ solve [auto with text]
        | match goal with
          | |- inline (_ ++ _) => apply inline_app
          | |- inline (_ :: _) => apply inline_cons; [by vm_compute|]
          | |- inline (pick _ _ _) => apply inline_pick
          | |- inline (if _ then _ else _) => apply inline_if
          | |- inline (lit _) => solve [apply (bool_decide_unpack _); by vm_compute]
          end ].
Ltac inline_auto := repeat inline_step.

(** *** Rows *)

Lemma rows_0 : rows 0 [].
Proof. by exists []. Qed.

Lemma rows_line w : inline w -> rows 1 (w ++ [10]).
Proof. intros Hw. exists [w]. split; [done|]. split; [by apply Forall_singleton|]. cbn. by rewrite app_nil_r. Qed.

Lemma rows_app n m v w : rows n v -> rows m w -> rows (n + m) (v ++ w).
Proof.
  intros (l & <- & Hl & ->) (k & <- & Hk & ->). exists (l ++ k). rewrite length_app, map_app, concat_app.
  split; [done|]. split; [by apply Forall_app|done].
Qed.

Lemma rows_concat {A} (f : A -> bytes) (n : A -> nat) l :
  Forall (fun x => rows (n x) (f x)) l -> rows (list_sum (map n l)) (concat (map f l)).
Proof. induction 1 as [|x l Hx Hl IH]; [apply rows_0|by apply rows_app]. Qed.

Lemma list_sum_cons n l : list_sum (n :: l) = (n + list_sum l)%nat.
Proof. done. Qed.
Lemma list_sum_const {A} (n : nat) (l : list A) : list_sum (map (fun _ => n) l) = (n * length l)%nat.
Proof. induction l as [|x l IH]; [by rewrite Nat.mul_0_r|]. cbn [map length]. rewrite list_sum_cons, IH. lia. Qed.

Lemma rows_lines {A} (f : A -> bytes) l : (forall x, rows 1 (f x)) -> rows (length l) (concat (map f l)).
Proof. intros H. induction l as [|x l IH]; [apply rows_0|]. apply (rows_app 1); [apply H|done]. Qed.

Lemma rows_iconcat {A} (f : nat -> A -> bytes) (n : A -> nat) l :
  (forall i x, rows (n x) (f i x)) -> rows (list_sum (map n l)) (concat (imap f l)).
Proof.
  revert f. induction l as [|x l IH]; intros f H; [apply rows_0|]. cbn [imap concat map]. rewrite list_sum_cons.
  apply rows_app; [apply H|]. apply IH. intros i y. apply H.
Qed.

Lemma rows_ilines {A} (f : nat -> A -> bytes) l : (forall i x, rows 1 (f i x)) -> rows (length l) (concat (imap f l)).
Proof. intros H. rewrite <- (Nat.mul_1_l (length l)), <- list_sum_const. by apply rows_iconcat. Qed.

(** A line followed by the rest: its text ends in the newline. *)
Lemma rows_cons n v w : inline v -> rows n w -> rows (S n) (v ++ [10] ++ w).
Proof. intros Hv Hw. rewrite app_assoc. apply (rows_app 1); [by apply rows_line|done]. Qed.

Lemma rows_if (b : bool) n w : rows n w -> rows (if b then n else 0) (if b then w else []).
Proof. destruct b; [done|intros _; apply rows_0]. Qed.

(** Build [rows] of a text written as pieces of lines ended by [[10]]: gather the
    pieces up to the first newline, then go on with what follows; the hint database
    [rows] holds the lines that have a lemma. *)
Lemma rows_gather n a b w : rows n ((a ++ b) ++ w) -> rows n (a ++ b ++ w).
Proof. by rewrite app_assoc. Qed.
Lemma rows_last v : inline v -> rows 1 (v ++ [10]).
Proof. apply rows_line. Qed.

Create HintDb rows discriminated.

Ltac rows_auto :=
  repeat match goal with
  | |- rows (S _) (_ ++ _) => apply (rows_app 1); [solve [auto with rows nocore]|]
  | |- rows 1 (_ ++ [10]) => apply rows_last; inline_auto
  | |- rows (S _) (_ ++ [10] ++ _) => apply rows_cons; [inline_auto|]
  | |- rows (S _) (_ ++ _ ++ _) => apply rows_gather
  end.

(** The number of rows is the number of newlines. *)
Lemma rows_count n w : rows n w -> length (filter (fun c => c = 10) w) = n.
Proof.
  assert (H0 : forall w, inline w -> filter (fun c => c = 10) w = []).
  { intros v Hv. induction Hv as [|c v Hc Hv IH]; [done|]. rewrite filter_cons_False; [done|]. by intros ->. }
  intros (l & <- & Hl & ->). induction Hl as [|x l Hx Hl IH]; [done|]. cbn [map concat length].
  by rewrite !filter_app, H0, length_app, IH by done.
Qed.

(** ** The text of a double *)

Lemma dec_digits_length fuel : forall v acc, 0 <= v < 2 ^ Z.of_nat fuel -> (0 < fuel)%nat ->
  exists n, length (dec_digits fuel v acc) = (S n + length acc)%nat /\ v < 10 ^ Z.of_nat (S n) /\ (0 < v -> 10 ^ Z.of_nat n <= v).
Proof.
  induction fuel as [|fuel IH]; intros v acc Hv Hf; [lia|]. cbn [dec_digits].
  destruct (Z.ltb_spec v 10).
  - exists 0%nat. cbn. lia.
  - rewrite Nat2Z.inj_succ, Z.pow_succ_r in Hv by lia. destruct fuel as [|fuel']; [cbn in Hv; lia|].
    destruct (IH (v / 10) ((48 + v mod 10) :: acc)) as (n & E & H1 & H2);
      [split; [apply Z.div_pos; lia|apply Z.div_lt_upper_bound; lia]|lia|].
    exists (S n). rewrite E. split; [cbn; lia|].
    rewrite (Nat2Z.inj_succ (S n)), (Nat2Z.inj_succ n), !Z.pow_succ_r in * by lia.
    assert (0 < v / 10) by (apply Z.div_str_pos; lia). split; [dlia|]. intros _. specialize (H2 ltac:(done)). dlia.
Qed.

(** [v] has [n] digits exactly when it is between [10 ^ (n - 1)] and [10 ^ n]. *)
Lemma dec_bytes_length v : 0 < v ->
  let n := Z.of_nat (length (dec_bytes v)) in 1 <= n /\ 10 ^ (n - 1) <= v < 10 ^ n.
Proof.
  intros Hv. unfold dec_bytes.
  destruct (dec_digits_length (S (Z.to_nat (Z.log2 v))) v []) as (n & E & H1 & H2); [|lia|].
  - rewrite Nat2Z.inj_succ, Z2Nat.id by apply Z.log2_nonneg. split; [lia|]. apply Z.log2_spec. lia.
  - cbv zeta. rewrite E. cbn [length]. rewrite Nat.add_0_r.
    replace (Z.of_nat (S n) - 1) with (Z.of_nat n) by lia. split; [lia|]. split; [by apply H2|done].
Qed.

Lemma dec_bytes_short v (n : nat) : 0 <= v < 10 ^ Z.of_nat n -> (1 <= n)%nat -> (length (dec_bytes v) <= n)%nat.
Proof.
  intros Hv Hn. destruct (Z.eq_dec v 0) as [->|]; [cbn; lia|].
  destruct (dec_bytes_length v ltac:(lia)) as (H1 & H2 & _).
  destruct (Nat.le_gt_cases (length (dec_bytes v)) n); [done|].
  assert (10 ^ Z.of_nat n <= 10 ^ (Z.of_nat (length (dec_bytes v)) - 1)) by (apply Z.pow_le_mono_r; lia). lia.
Qed.

Lemma round_div_bounds a b lo hi : 0 < b -> lo * b <= a < hi * b -> lo <= round_div a b <= hi.
Proof.
  intros Hb [Hlo Hhi]. assert (lo <= a / b) by (apply Z.div_le_lower_bound; lia).
  assert (a / b < hi) by (apply Z.div_lt_upper_bound; lia). unfold round_div. case_bool; lia.
Qed.

Lemma round_div_error a b : 0 < b -> 2 * Z.abs (a - round_div a b * b) <= b.
Proof.
  intros Hb. pose proof (Z.mod_pos_bound a b Hb). pose proof (Z_div_mod_eq_full a b).
  unfold round_div. case_bool.
  - assert (b <= 2 * (a mod b)) by (apply orb_prop in E as [E|E]; reflect_bools; lia). lia.
  - apply orb_false_elim in E as [E _]. reflect_bools. lia.
Qed.

(** Settle [Z.max a 0] where the sign of [a] is known. *)
Ltac simpl_max :=
  repeat match goal with
  | |- context [Z.max ?a 0] => first [rewrite (Z.max_l a 0) by lia | rewrite (Z.max_r a 0) by lia]
  | H : context [Z.max ?a 0] |- _ => first [rewrite (Z.max_l a 0) in H by lia | rewrite (Z.max_r a 0) in H by lia]
  end; rewrite ?Z.pow_0_r, ?Z.mul_1_r in *.

Lemma pow10_pos k : 0 < 10 ^ Z.max k 0.
Proof. apply Z.pow_pos_nonneg; lia. Qed.

(** [num / den] is at least [10 ^ k] and below [10 ^ (k + 1)]. *)
Lemma dec_exponent_spec num den : 0 < num -> 0 < den ->
  let k := dec_exponent num den in
  den * 10 ^ Z.max k 0 <= num * 10 ^ Z.max (- k) 0 /\
  num * 10 ^ Z.max (- (k + 1)) 0 < den * 10 ^ Z.max (k + 1) 0.
Proof.
  intros Hn Hd k. unfold k, dec_exponent. destruct (Z.leb_spec den num).
  - destruct (dec_bytes_length (num / den) ltac:(apply Z.div_str_pos; lia)) as (H1 & H2 & H3).
    set (n := Z.of_nat _) in *. rewrite !(Z.max_r (- _)) by lia. rewrite !Z.max_l by lia.
    replace (n - 1 + 1) with n by lia. rewrite !Z.mul_1_r. split.
    + apply Z.le_trans with (den * (num / den)); [by apply Z.mul_le_mono_pos_l|by apply Z.mul_div_le].
    + apply Z.lt_le_trans with (den * (num / den + 1)).
      * pose proof (Z.mul_succ_div_gt num den Hd). lia.
      * apply Z.mul_le_mono_pos_l; lia.
  - destruct (dec_bytes_length ((den - 1) / num) ltac:(apply Z.div_str_pos; lia)) as (H1 & H2 & H3).
    set (n := Z.of_nat _) in *. rewrite !(Z.max_r (- n)), !(Z.max_r (- n + 1)) by lia.
    rewrite !Z.max_l by lia. replace (- (- n + 1)) with (n - 1) by lia. rewrite Z.opp_involutive, !Z.mul_1_r. split.
    + assert (den - 1 < num * ((den - 1) / num + 1)) by (pose proof (Z.mul_succ_div_gt (den - 1) num Hn); lia).
      assert (num * ((den - 1) / num + 1) <= num * 10 ^ n) by (apply Z.mul_le_mono_pos_l; lia). lia.
    + assert (num * 10 ^ (n - 1) <= num * ((den - 1) / num)) by (apply Z.mul_le_mono_pos_l; lia).
      pose proof (Z.mul_div_le (den - 1) num Hn). lia.
Qed.

(** The same bounds, scaled so that the value has six digits before the point. *)
Lemma dec_exponent_scaled num den : 0 < num -> 0 < den ->
  let k := dec_exponent num den in
  10 ^ 5 * (den * 10 ^ Z.max (k - 5) 0) <= num * 10 ^ Z.max (5 - k) 0 < 10 ^ 6 * (den * 10 ^ Z.max (k - 5) 0).
Proof.
  intros Hn Hd k. destruct (dec_exponent_spec num den Hn Hd) as [H1 H2]. fold k in H1, H2.
  destruct (Z.le_gt_cases 5 k) as [Hk|Hk]; [|destruct (Z.le_gt_cases 0 k) as [H0|H0]]; clearbody k; simpl_max.
  - replace (10 ^ k) with (10 ^ (k - 5) * 10 ^ 5) in H1 by (rewrite <- Z.pow_add_r by lia; f_equal; lia).
    replace (10 ^ (k + 1)) with (10 ^ (k - 5) * 10 ^ 6) in H2 by (rewrite <- Z.pow_add_r by lia; f_equal; lia). lia.
  - replace (10 ^ 5) with (10 ^ k * 10 ^ (5 - k)) by (rewrite <- Z.pow_add_r by lia; f_equal; lia).
    replace (10 ^ 6) with (10 ^ (k + 1) * 10 ^ (5 - k)) by (rewrite <- Z.pow_add_r by lia; f_equal; lia).
    assert (0 < 10 ^ (5 - k)) by (apply Z.pow_pos_nonneg; lia). nia.
  - replace (10 ^ (5 - k)) with (10 ^ (- (k + 1)) * 10 ^ 6) by (rewrite <- Z.pow_add_r by lia; f_equal; lia).
    replace (10 ^ (- k)) with (10 ^ (- (k + 1)) * 10) in H1 by (rewrite <- (Z.pow_1_r 10) at 2; rewrite <- Z.pow_add_r by lia; f_equal; lia).
    lia.
Qed.

(** [q * 10 ^ (k - 5)] is [num / den] to within half a unit of the last digit of [q]. *)
Definition rounds_to (num den q k : Z) : Prop :=
  2 * Z.abs (num * 10 ^ Z.max (5 - k) 0 - q * (den * 10 ^ Z.max (k - 5) 0)) <= den * 10 ^ Z.max (k - 5) 0.

Lemma rounds_carry num den k : 0 < den -> rounds_to num den (10 ^ 6) k -> rounds_to num den (10 ^ 5) (k + 1).
Proof.
  unfold rounds_to. intros Hd H. destruct (Z.le_gt_cases 5 k); simpl_max.
  - replace (10 ^ (k + 1 - 5)) with (10 ^ (k - 5) * 10) by (rewrite <- (Z.pow_1_r 10) at 2; rewrite <- Z.pow_add_r by lia; f_equal; lia). lia.
  - replace (10 ^ (5 - k)) with (10 ^ (5 - (k + 1)) * 10) in H by (rewrite <- (Z.pow_1_r 10) at 2; rewrite <- Z.pow_add_r by lia; f_equal; lia). lia.
Qed.

(** The six significant digits, correctly rounded. *)
Lemma g_digits_spec num den : 0 < num -> 0 < den ->
  let '(q, k) := g_digits num den in
  10 ^ 5 <= q < 10 ^ 6 /\ rounds_to num den q k /\ dec_exponent num den <= k <= dec_exponent num den + 1.
Proof.
  intros Hn Hd. unfold g_digits. pose proof (dec_exponent_scaled num den Hn Hd) as H. cbv zeta in *.
  set (k := dec_exponent num den) in *. unfold round_scaled. replace (- (5 - k)) with (k - 5) by lia.
  assert (HD : 0 < den * 10 ^ Z.max (k - 5) 0) by (apply Z.mul_pos_pos; [done|apply pow10_pos]).
  pose proof (round_div_bounds _ _ (10 ^ 5) (10 ^ 6) HD H) as Hb.
  pose proof (round_div_error (num * 10 ^ Z.max (5 - k) 0) _ HD) as He.
  set (q := round_div _ _) in *.
  destruct (Z.leb_spec (10 ^ 6) q).
  - split; [lia|]. split; [|lia]. apply rounds_carry; [done|]. by replace (10 ^ 6) with q by lia.
  - split; [lia|]. split; [done|lia].
Qed.

(** ** Its shape and length *)

Lemma drop_zeros_inline w : inline w -> inline (drop_zeros w).
Proof.
  induction 1 as [|c w Hc Hw IH]; [apply inline_nil|]. cbn [drop_zeros].
  repeat (case_match; try (by apply inline_cons)). done.
Qed.
Lemma drop_zeros_length w : (length (drop_zeros w) <= length w)%nat.
Proof. induction w as [|c w IH]; [done|]. cbn [drop_zeros]. repeat (case_match; cbn [length]; try lia). Qed.

Lemma inline_fraction w : inline w -> inline (g_fraction w).
Proof.
  intros Hw. unfold g_fraction. assert (Hs : inline (strip_zeros w)) by (by apply Forall_rev, drop_zeros_inline, Forall_rev).
  destruct (strip_zeros w); [apply inline_nil|by apply inline_cons].
Qed.
Lemma fraction_length w : (length (g_fraction w) <= S (length w))%nat.
Proof.
  unfold g_fraction, strip_zeros. pose proof (drop_zeros_length (rev w)) as H. rewrite length_rev in H.
  destruct (rev (drop_zeros (rev w))) eqn:E; cbn; [lia|].
  apply (f_equal length) in E. rewrite length_rev in E. cbn in E. lia.
Qed.

Lemma inline_pad n v : 0 <= v -> inline (pad_dec n v).
Proof. intros Hv. unfold pad_dec. apply inline_app; [by apply inline_replicate|by apply inline_digits, dec_bytes_spec]. Qed.

Lemma pad_dec_length (n : nat) v : 0 <= v < 10 ^ Z.of_nat n -> (1 <= n)%nat -> length (pad_dec n v) = n.
Proof. intros Hv Hn. unfold pad_dec. rewrite length_app, length_replicate. pose proof (dec_bytes_short v n Hv Hn). lia. Qed.
Lemma pad_dec_short (n m : nat) v : 0 <= v < 10 ^ Z.of_nat m -> (1 <= m)%nat -> (n <= m)%nat -> (length (pad_dec n v) <= m)%nat.
Proof. intros Hv Hm Hn. unfold pad_dec. rewrite length_app, length_replicate. pose proof (dec_bytes_short v m Hv Hm). lia. Qed.

Definition short (n : nat) (w : bytes) : Prop := inline w /\ (length w <= n)%nat.

Lemma g_text_short q k : 0 <= q < 10 ^ 6 -> -1000 < k < 1000 -> short 12 (g_text q k).
Proof.
  intros Hq Hk. unfold g_text. cbv zeta. pose proof (pad_dec_length 6 q Hq ltac:(lia)) as Hl.
  pose proof (inline_pad 6 q ltac:(lia)) as Hi. set (ds := pad_dec 6 q) in *. unfold short.
  destruct ((k <? -4) || (6 <=? k)) eqn:E; [|apply orb_false_elim in E as [E _]; destruct (k <? 0) eqn:E0; reflect_bools]; split.
  - apply inline_app; [by apply inline_take|]. apply inline_app; [by apply inline_fraction, inline_drop|].
    apply inline_app; [|apply inline_pad; lia]. apply inline_cons; [done|]. apply inline_cons; [by case_bool|apply inline_nil].
  - pose proof (fraction_length (drop 1 ds)). pose proof (pad_dec_short 2 3 (Z.abs k) ltac:(lia) ltac:(lia) ltac:(lia)).
    rewrite !length_app, length_take. rewrite length_drop in *. cbn [length]. lia.
  - apply inline_cons; [done|]. apply inline_fraction, inline_app; [by apply inline_replicate|done].
  - pose proof (fraction_length (replicate (Z.to_nat (- k - 1)) 48 ++ ds)) as Hf.
    rewrite length_app, length_replicate, Hl in Hf. cbn [app length]. lia.
  - apply inline_app; [by apply inline_take|by apply inline_fraction, inline_drop].
  - pose proof (fraction_length (drop (Z.to_nat (k + 1)) ds)) as Hf. rewrite length_drop in Hf.
    rewrite length_app, length_take. lia.
Qed.

Lemma dec_exponent_bounds num den (n : nat) : 0 < num -> 0 < den -> num < den * 10 ^ Z.of_nat n -> den < num * 10 ^ Z.of_nat n ->
  - Z.of_nat n <= dec_exponent num den <= Z.of_nat n.
Proof.
  intros Hn Hd H1 H2. destruct n as [|n]; [cbn in *; lia|]. unfold dec_exponent. destruct (Z.leb_spec den num).
  - assert (0 < num / den < 10 ^ Z.of_nat (S n)) by (split; [apply Z.div_str_pos; lia|apply Z.div_lt_upper_bound; lia]).
    pose proof (dec_bytes_short (num / den) (S n) ltac:(lia) ltac:(lia)). lia.
  - assert (0 < (den - 1) / num < 10 ^ Z.of_nat (S n)) by (split; [apply Z.div_str_pos; lia|apply Z.div_lt_upper_bound; lia]).
    pose proof (dec_bytes_short ((den - 1) / num) (S n) ltac:(lia) ltac:(lia)). lia.
Qed.

Lemma g_finite_short m e : 0 < m < 2 ^ 53 -> -1074 <= e <= 971 -> short 12 (g_finite m e).
Proof.
  intros Hm He. unfold g_finite. set (num := m * 2 ^ Z.max e 0). set (den := 2 ^ Z.max (- e) 0).
  assert (Hd : 1 <= den <= 2 ^ 1074) by (split; [apply (Z.pow_le_mono_r 2 0)|apply Z.pow_le_mono_r]; lia).
  assert (Hn : 1 <= num < 2 ^ 1024).
  { split; [unfold num; pose proof (Z.pow_pos_nonneg 2 (Z.max e 0)); nia|].
    replace 1024 with (53 + 971) by done. rewrite Z.pow_add_r by lia.
    assert (2 ^ Z.max e 0 <= 2 ^ 971) by (apply Z.pow_le_mono_r; lia).
    assert (0 < 2 ^ Z.max e 0) by (apply Z.pow_pos_nonneg; lia). unfold num. nia. }
  assert (Hk : - Z.of_nat 400 <= dec_exponent num den <= Z.of_nat 400).
  { assert (HB : 2 ^ 1074 < 10 ^ Z.of_nat 400) by by vm_compute.
    apply dec_exponent_bounds; [lia|lia| |]; clearbody num den; set (B := 10 ^ Z.of_nat 400) in *; clearbody B.
    - assert (1 * B <= den * B) by (apply Z.mul_le_mono_nonneg_r; lia). lia.
    - assert (1 * B <= num * B) by (apply Z.mul_le_mono_nonneg_r; lia). lia. }
  pose proof (g_digits_spec num den ltac:(lia) ltac:(lia)) as H. destruct (g_digits num den) as [q k].
  destruct H as (H1 & _ & H2). apply g_text_short; lia.
Qed.

(** The text fits any buffer of 14 bytes or more, its terminator included. *)
Lemma fmt_double_short bits : short 13 (fmt_double bits).
Proof.
  unfold fmt_double. set (ex := Z.land (Z.shiftr bits 52) 0x7FF). set (frac := Z.land bits (Z.ones 52)).
  assert (Hex : 0 <= ex < 2048). { unfold ex. change 0x7FF with (Z.ones 11). rewrite Z.land_ones by lia. by apply Z.mod_pos_bound. }
  assert (Hf : 0 <= frac < 2 ^ 52). { unfold frac. rewrite Z.land_ones by lia. by apply Z.mod_pos_bound. }
  assert (Hs : short 1 (if Z.testbit bits 63 then [45] else [])) by (case_bool; (split; [by apply (bool_decide_unpack _)|cbn; lia])).
  assert (Ht : short 12 (if ex =? 0x7FF then (if frac =? 0 then lit "inf" else lit "nan")
    else if ex =? 0 then (if frac =? 0 then lit "0" else g_finite frac (-1074))
    else g_finite (frac + 2 ^ 52) (ex - 1075))).
  { destruct (Z.eqb_spec ex 0x7FF); [|destruct (Z.eqb_spec ex 0); [|apply g_finite_short; lia]];
      (destruct (Z.eqb_spec frac 0); [split; [by apply (bool_decide_unpack _)|cbn; lia]|]);
      [split; [by apply (bool_decide_unpack _)|cbn; lia]|apply g_finite_short; lia]. }
  destruct Hs as [Hs1 Hs2], Ht as [Ht1 Ht2]. split; [by apply inline_app|]. rewrite length_app. lia.
Qed.

Lemma inline_double bits : inline (fmt_double bits).
Proof. apply fmt_double_short. Qed.
#[export] Hint Resolve inline_double : text.
