(* ===== verification/StreamSummary.v ===== *)
(** * StreamSummary: the text dump of a decoded stream

    [src/streamcodec/summarize.cpp]. The report of a [DecodeResult] is its counters,
    two lines for each message, one for each stream, and the control and ack records
    where there are any. *)

From S2P Require Import Prelude Status Hexdump CfgNumber TextOut StreamState Reassembler StreamDecoder.

(** The first [limit] bytes in hexadecimal. *)
Definition preview (data : bytes) (limit : nat) : bytes :=
  sep_by (lit " ") (map (fun b => lit (to_hex b 2)) (take limit data)) ++
  if (limit <? length data)%nat then lit " ..." else [].

Definition message_text (m : Message) : bytes :=
  lit "  stream " ++ to_string_int (m_stream_id m) ++ lit " msg " ++ to_string_int (m_msg_id m) ++
  lit " size " ++ count_text (m_data m) ++ pick (m_compressed m) " [compressed]" "" ++
  [10] ++ lit "    bytes: " ++ preview (m_data m) 16 ++ [10].

Definition stats_text (s : StreamStats) : bytes :=
  lit "  id " ++ to_string_int (st_stream_id s) ++ lit " frames=" ++ to_string_int (st_frames s) ++
  lit " gaps=" ++ to_string_int (st_gaps s) ++ lit " dups=" ++ to_string_int (st_duplicates s) ++
  lit " resets=" ++ to_string_int (st_resets s) ++ [10].

Definition control_text (c : ControlRecord) : bytes :=
  lit "  stream " ++ to_string_int (ct_stream_id c) ++ lit " ref_msg=" ++ to_string_int (ct_ref_msg_id c) ++
  lit " window=" ++ to_string_int (ct_window c) ++ [10].

Definition ack_text (a : AckRecord) : bytes :=
  lit "  stream " ++ to_string_int (ak_stream_id a) ++ lit " msg " ++ to_string_int (ak_msg_id a) ++ [10].

(** A list with its heading, left out when the list is empty. *)
Definition table_text {A} (heading : string) (f : A -> bytes) (l : list A) : bytes :=
  if bool_decide (l = []) then [] else lit heading ++ [10] ++ concat (map f l).

Definition summarize (r : DecodeResult) : bytes :=
  lit "streamcodec decode" ++ [10] ++
  lit "  frames seen      : " ++ to_string_int (frames_seen r) ++ [10] ++
  lit "  messages emitted : " ++ count_text (dr_messages r) ++ [10] ++
  lit "  control frames   : " ++ to_string_int (control_frames r) ++ [10] ++
  lit "  ack frames       : " ++ to_string_int (ack_frames r) ++ [10] ++
  lit "  reset frames     : " ++ to_string_int (reset_frames r) ++ [10] ++
  lit "  header crc ok    : " ++ to_string_int (header_crc_ok r) ++ [10] ++
  lit "  header crc bad   : " ++ to_string_int (header_crc_bad r) ++ [10] ++
  lit "messages:" ++ [10] ++ concat (map message_text (dr_messages r)) ++
  lit "streams:" ++ [10] ++ concat (map stats_text (dr_stats r)) ++
  table_text "controls:" control_text (dr_controls r) ++
  table_text "acks:" ack_text (dr_acks r).

Example stream_summary_sample :
  summarize (MkDecode [MkMessage 1 2 true [0; 255]; MkMessage 1 3 false (replicate 17 7)] [MkStats 1 3 0 0 1] []
    [MkAckRecord 4 5] 3 0 1 1 3 0) = lines_text
    [ "streamcodec decode"; "  frames seen      : 3"; "  messages emitted : 2"; "  control frames   : 0";
      "  ack frames       : 1"; "  reset frames     : 1"; "  header crc ok    : 3"; "  header crc bad   : 0";
      "messages:"; "  stream 1 msg 2 size 2 [compressed]"; "    bytes: 0x00 0xff"; "  stream 1 msg 3 size 17";
      "    bytes: 0x07 0x07 0x07 0x07 0x07 0x07 0x07 0x07 0x07 0x07 0x07 0x07 0x07 0x07 0x07 0x07 ...";
      "streams:"; "  id 1 frames=3 gaps=0 dups=0 resets=1"; "acks:"; "  stream 4 msg 5" ]%string.
Proof. by vm_compute. Qed.

(** ** Its lines *)

Definition table_lines {A} (l : list A) : nat := if bool_decide (l = []) then 0 else S (length l).

Definition summary_lines (r : DecodeResult) : nat :=
  10 + 2 * length (dr_messages r) + length (dr_stats r) + table_lines (dr_controls r) + table_lines (dr_acks r).

Lemma rows_table {A} heading (f : A -> bytes) l : inline (lit heading) -> (forall x, rows 1 (f x)) ->
  rows (table_lines l) (table_text heading f l).
Proof.
  intros Hh Hf. unfold table_lines, table_text. case_bool_decide; [apply rows_0|].
  apply rows_cons; [done|by apply rows_lines].
Qed.

Lemma inline_preview data limit : inline (preview data limit).
Proof.
  unfold preview. apply inline_app; [|inline_auto]. apply inline_sep_by; [inline_auto|].
  apply Forall_fmap, Forall_forall. intros b _. apply inline_to_hex.
Qed.
#[export] Hint Resolve inline_preview : text.

Lemma message_rows m : rows 2 (message_text m).
Proof. unfold message_text. rows_auto. Qed.
Lemma stats_rows s : rows 1 (stats_text s).
Proof. unfold stats_text. rows_auto. Qed.
Lemma control_rows c : rows 1 (control_text c).
Proof. unfold control_text. rows_auto. Qed.
Lemma ack_rows a : rows 1 (ack_text a).
Proof. unfold ack_text. rows_auto. Qed.

Lemma stream_summary_rows r : rows (summary_lines r) (summarize r).
Proof.
  assert (E : summary_lines r = (9 + (2 * length (dr_messages r) + S (length (dr_stats r) +
    (table_lines (dr_controls r) + table_lines (dr_acks r)))))%nat) by (unfold summary_lines; lia).
  rewrite E. clear E. unfold summarize. cbn [Nat.add]. rows_auto. apply rows_app.
  - rewrite <- (list_sum_const 2 (dr_messages r)). apply rows_concat, Forall_forall. intros m _. apply message_rows.
  - rows_auto. apply rows_app; [apply rows_lines, stats_rows|].
    apply rows_app; (apply rows_table; [inline_auto|]); [apply control_rows|apply ack_rows].
Qed.
