(* ===== verification/MiniSummary.v ===== *)
(** * MiniSummary: the text dumps of minidb

    The [summarize] of [src/minidb/minidb.cpp], the display strings of
    [src/minidb/cursor.cpp] and [format_catalog] of [src/minidb/catalog.cpp]. *)

From S2P Require Import Prelude Status OrdMap Hexdump CfgNumber TextOut MiniPages MiniRecord Journal MiniOpen MiniViews.

(** ** Field values *)

(** A field in the summary. *)
Definition field_value (f : Field) : bytes :=
  match fd_type f with
  | kNull => lit "null"
  | kBool => pick (fd_b f) "true" "false"
  | kInt => to_string_int (fd_i64 f)
  | kUint => to_string_int (fd_u64 f)
  | kFloat => fmt_double (fd_f64 f)
  | kStringRef =>
      if fd_ref_resolved f then lit "#" ++ to_string_int (fd_ref_id f) ++ lit " " ++ quoted (fd_str f)
      else lit "#" ++ to_string_int (fd_ref_id f) ++ lit " <unresolved>"
  | kInlineString => quoted (fd_str f)
  | kBlob => lit "blob[" ++ count_text (fd_blob f) ++ lit "]"
  end.

(** A field in a projected row: strings are raw. *)
Definition field_to_string (f : Field) : bytes :=
  match fd_type f with
  | kNull => lit "null"
  | kBool => pick (fd_b f) "true" "false"
  | kInt => to_string_int (fd_i64 f)
  | kUint => to_string_int (fd_u64 f)
  | kFloat => fmt_double (fd_f64 f)
  | kStringRef => if fd_ref_resolved f then fd_str f else lit "#" ++ to_string_int (fd_ref_id f)
  | kInlineString => fd_str f
  | kBlob => lit "blob[" ++ count_text (fd_blob f) ++ lit "]"
  end.

Definition project_row (rec : Record_) : list bytes := map field_to_string rec.

(** ** The summary of a store *)

Definition string_table_text (db : Database) : bytes :=
  if string_table_page db =? kNoStringTable then lit "  string_table  : (none)" ++ [10]
  else lit "  string_table  : page " ++ to_string_int (string_table_page db) ++ [10].

Definition journal_text (db : Database) : bytes :=
  lit "  journal       : " ++
  (if negb (has_journal db) then lit "(none)"
   else lit "offset " ++ to_string_int (journal_offset db) ++ lit ", " ++
        to_string_int (db_committed_ops db) ++ lit " committed, " ++
        to_string_int (db_rolled_back_ops db) ++ lit " rolled back") ++ [10].

(** The loops with an index: each element with its position. *)
Definition string_line (i : nat) (s : bytes) : bytes :=
  lit "  [" ++ to_string_int (Z.of_nat i) ++ lit "] " ++ quoted s ++ [10].

Definition page_line (p : Page) : bytes :=
  lit "  page " ++ to_string_int (pg_index p) ++ lit ": " ++ lit (page_type_name (pg_type p)) ++
  lit ", slots=" ++ to_string_int (slot_count p) ++
  (if overflow_next p =? kNoOverflow then [] else lit ", overflow_next=" ++ to_string_int (overflow_next p)) ++
  (if truncated p then lit ", truncated" else []) ++ [10].

Definition field_text (f : Field) : bytes := lit (field_type_name (fd_type f)) ++ lit "=" ++ field_value f.

Definition record_line (kv : RecordKey * Record_) : bytes :=
  lit "  (page " ++ to_string_int kv.1.1 ++ lit ", slot " ++ to_string_int kv.1.2 ++ lit "): " ++
  sep_by (lit ", ") (map field_text kv.2) ++ [10].

Definition summarize (db : Database) : bytes :=
  lit "minidb MDB1 store" ++ [10] ++
  lit "  version       : " ++ to_string_int (version db) ++ [10] ++
  lit "  page_size     : " ++ to_string_int (page_size db) ++ [10] ++
  lit "  page_count    : " ++ to_string_int (page_count db) ++ [10] ++
  lit "  root_page     : " ++ to_string_int (root_page db) ++ [10] ++
  string_table_text db ++ journal_text db ++
  lit "  flags         : " ++ lit (to_hex (flags db) 8) ++ [10] ++
  lit "  checksum_ok   : " ++ pick (checksum_ok db) "yes" "no" ++ [10] ++
  lit "string table (" ++ count_text (string_table db) ++ lit " entries)" ++ [10] ++
  concat (imap string_line (string_table db)) ++
  lit "pages (" ++ count_text (db_pages db) ++ lit ")" ++ [10] ++
  concat (map page_line (db_pages db)) ++
  lit "committed records (" ++ to_string_int (Z.of_nat (size (db_records db))) ++ lit ")" ++ [10] ++
  concat (map record_line (entries (db_records db))).

(** ** The catalog as text *)

(** The histogram: one word per page type with pages. *)
Definition histogram_word (t : nat) (n : Z) : bytes :=
  if n =? 0 then [] else lit " " ++ lit (page_type_name (page_type_of (Z.of_nat t))) ++ lit "=" ++ to_string_int n.

Definition histogram_text (counts : list Z) : bytes :=
  lit "  page types     :" ++ concat (imap histogram_word counts) ++
  (if forallb (fun n => n =? 0) counts then lit " (none)" else []) ++ [10].

Definition page_stats_line (ps : PageStats) : bytes :=
  lit "    page " ++ to_string_int (ps_index ps) ++ lit ": " ++ lit (page_type_name (ps_type ps)) ++ lit ", slots " ++
  to_string_int (used_slots ps) ++ lit "/" ++ to_string_int (total_slots ps) ++ lit " used" ++
  (if dead_slots ps =? 0 then [] else lit ", " ++ to_string_int (dead_slots ps) ++ lit " dead") ++
  (if ps_truncated ps then lit ", truncated" else []) ++ [10].

Definition format_catalog (cat : Catalog) : bytes :=
  lit "minidb catalog" ++ [10] ++
  lit "  pages          : " ++ to_string_int (total_pages cat) ++ [10] ++
  histogram_text (page_type_counts cat) ++
  lit "  live records   : " ++ to_string_int (total_live_records cat) ++ [10] ++
  lit "  slots used/dead: " ++ to_string_int (total_used_slots cat) ++ lit "/" ++
    to_string_int (total_dead_slots cat) ++ [10] ++
  lit "  strings        : " ++ to_string_int (ss_count (cat_strings cat)) ++ lit " entries, " ++
    to_string_int (total_bytes (cat_strings cat)) ++ lit " bytes, max " ++
    to_string_int (ss_max_bytes (cat_strings cat)) ++ lit ", " ++
    to_string_int (empty_count (cat_strings cat)) ++ lit " empty" ++ [10] ++
  lit "  per-page:" ++ [10] ++ concat (map page_stats_line (cat_pages cat)).

Example summaries_sample :
  summarize sample_db = lines_text
    [ "minidb MDB1 store"; "  version       : 1"; "  page_size     : 64"; "  page_count    : 2"; "  root_page     : 0";
      "  string_table  : page 0"; "  journal       : (none)"; "  flags         : 0x00000000"; "  checksum_ok   : yes";
      "string table (1 entries)"; "  [0] 'A'"; "pages (1)"; "  page 0: DATA, slots=2"; "committed records (3)";
      "  (page 0, slot 2): "; "  (page 0, slot 7): NULL=null"; "  (page 1, slot 0): INT=5" ]%string /\
  format_catalog (build_catalog sample_db) = lines_text
    [ "minidb catalog"; "  pages          : 1"; "  page types     : DATA=1"; "  live records   : 3";
      "  slots used/dead: 1/1"; "  strings        : 1 entries, 1 bytes, max 1, 0 empty"; "  per-page:";
      "    page 0: DATA, slots 1/2 used, 1 dead" ]%string.
Proof. by vm_compute. Qed.

(** ** Their lines *)

Lemma inline_page_type t : inline (lit (page_type_name t)).
Proof. destruct t; by apply (bool_decide_unpack _). Qed.
Lemma inline_field_type t : inline (lit (field_type_name t)).
Proof. destruct t; by apply (bool_decide_unpack _). Qed.

Lemma inline_field_value f : inline (field_value f).
Proof. unfold field_value. destruct (fd_type f); inline_auto. Qed.
#[export] Hint Resolve inline_page_type inline_field_type inline_field_value : text.

Lemma inline_row_fields rec : inline (sep_by (lit ", ") (map field_text rec)).
Proof.
  apply inline_sep_by; [inline_auto|]. apply Forall_fmap, Forall_forall. intros f _. cbn. unfold field_text. inline_auto.
Qed.

Lemma inline_histogram counts : inline (concat (imap histogram_word counts)).
Proof.
  apply inline_concat, Forall_lookup. intros i w. rewrite list_lookup_imap. intros (n & _ & ->)%fmap_Some.
  unfold histogram_word. inline_auto.
Qed.
#[export] Hint Resolve inline_row_fields inline_histogram : text.

Lemma string_table_rows db : rows 1 (string_table_text db).
Proof. unfold string_table_text. case_bool; rows_auto. Qed.
Lemma journal_rows db : rows 1 (journal_text db).
Proof. unfold journal_text. rows_auto. Qed.
Lemma string_rows i s : rows 1 (string_line i s).
Proof. unfold string_line. rows_auto. Qed.
Lemma page_rows p : rows 1 (page_line p).
Proof. unfold page_line. rows_auto. Qed.
Lemma store_record_rows kv : rows 1 (record_line kv).
Proof. unfold record_line. rows_auto. Qed.
Lemma histogram_rows counts : rows 1 (histogram_text counts).
Proof. unfold histogram_text. rows_auto. Qed.
Lemma page_stats_rows ps : rows 1 (page_stats_line ps).
Proof. unfold page_stats_line. rows_auto. Qed.

#[export] Hint Resolve string_table_rows journal_rows histogram_rows : rows.

Definition summary_lines (db : Database) : nat :=
  12 + length (string_table db) + length (db_pages db) + size (db_records db).

Lemma store_summary_rows db : rows (summary_lines db) (summarize db).
Proof.
  unfold summary_lines. rewrite <- length_entries.
  assert (E : forall a b c, (12 + a + b + c = 5 + (1 + (1 + (3 + (a + (1 + (b + (1 + c))))))))%nat) by lia.
  rewrite E. unfold summarize. cbn [Nat.add]. rows_auto. apply rows_app; [apply rows_ilines, string_rows|]. rows_auto.
  apply rows_app; [apply rows_lines, page_rows|]. rows_auto. apply rows_lines, store_record_rows.
Qed.

Lemma catalog_rows cat : rows (7 + length (cat_pages cat)) (format_catalog cat).
Proof.
  unfold format_catalog. cbn [Nat.add]. rows_auto. apply rows_lines, page_stats_rows.
Qed.

(** The header of the cursor says that a projected value mirrors the summary's. It
    does, except for strings, which a projected row gives as they are: with a newline
    in them, its text is more than one line. *)
Lemma projection_mirrors_scalars f :
  match fd_type f with
  | kStringRef | kInlineString => True
  | _ => field_to_string f = field_value f
  end.
Proof. unfold field_to_string, field_value. by destruct (fd_type f). Qed.

Lemma projection_not_escaped :
  field_value (string_field [97; 10; 98]) = quoted [97; 10; 98] /\
  field_to_string (string_field [97; 10; 98]) = [97; 10; 98].
Proof. done. Qed.
