(* ===== verification/BinSummary.v ===== *)
(** * BinSummary: the text dump of a container

    [src/binpack/summarize.cpp]. *)

From S2P Require Import Prelude Status Hexdump CfgNumber TextOut BinRecord BinPack.

(** The leading bytes of a blob. *)
Definition blob_preview (blob : bytes) : bytes :=
  let preview := min (length blob) 8 in
  if (0 <? preview)%nat
  then lit " [" ++ sep_by (lit " ") (map (fun b => lit (to_hex b 2)) (take preview blob)) ++
       (if (preview <? length blob)%nat then lit " ..." else []) ++ lit "]"
  else [].

Fixpoint dump_record (depth : nat) (r : BRecord) : bytes :=
  match r with
  | MkRec t g i u f str blob cs k =>
      indent depth ++ lit "- " ++ lit (tag_name t) ++ (if g then lit " (group)" else []) ++
      match t with
      | kInt => lit ": " ++ to_string_int i ++ [10]
      | kUint => lit ": " ++ to_string_int u ++ [10]
      | kFloat => lit ": " ++ fmt_double f ++ [10]
      | kString => lit ": " ++ quoted str ++ [10]
      | kBlob => lit ": " ++ count_text blob ++ lit " bytes" ++ blob_preview blob ++ [10]
      | kArray => lit ": " ++ count_text cs ++ lit " elements" ++ [10] ++ concat (map (dump_record (S depth)) cs)
      | kGroup => lit ": " ++ count_text cs ++ lit " records" ++ [10] ++ concat (map (dump_record (S depth)) cs)
      | kKeyval => lit ": key=" ++ quoted k ++ [10] ++ concat (map (dump_record (S depth)) cs)
      end
  end.

Definition section_line (i : nat) (s : BSection) : bytes :=
  lit "section[" ++ to_string_int (Z.of_nat i) ++ lit "] " ++ lit (section_type_name (sec_type s)) ++
  lit " id=" ++ to_string_int (sec_id s) ++ lit " flags=" ++ lit (to_hex (sec_flags s) 4) ++
  lit " item_count=" ++ to_string_int (item_count s) ++ lit " records=" ++ count_text (sec_records s) ++
  lit " body_crc_ok=" ++ pick (body_checksum_ok s) "true" "false" ++ [10].

Definition dump_section (i : nat) (s : BSection) : bytes :=
  [10] ++ section_line i s ++ concat (map (dump_record 1) (sec_records s)).

(** The value of a metadata entry, on one line. *)
Definition metadata_text (v : BRecord) : bytes :=
  match r_tag v with
  | kInt => to_string_int (r_i64 v)
  | kUint => to_string_int (r_u64 v)
  | kFloat => fmt_double (r_f64 v)
  | kString => quoted (r_str v)
  | kBlob => lit "<blob " ++ count_text (r_blob v) ++ lit ">"
  | t => lit "<" ++ lit (tag_name t) ++ lit ">"
  end.

Definition metadata_line (kv : bytes * BRecord) : bytes :=
  lit "  " ++ lit (escape kv.1) ++ lit " = " ++ metadata_text kv.2 ++ [10].

Definition metadata_table (l : list (bytes * BRecord)) : bytes :=
  if bool_decide (l = []) then []
  else [10] ++ lit "metadata (" ++ count_text l ++ lit " entries)" ++ [10] ++ concat (map metadata_line l).

Definition trailer_text (c : Container) : bytes :=
  if has_trailer_crc c then lit "  trailer_crc_ok: " ++ pick (trailer_checksum_ok c) "true" "false" ++ [10] else [].

Definition summarize (c : Container) : bytes :=
  lit "BPK1 container" ++ [10] ++
  lit "  version       : " ++ to_string_int (c_version c) ++ [10] ++
  lit "  flags         : " ++ lit (to_hex (c_flags c) 4) ++
    pick (has_metadata c) " has_metadata" "" ++ pick (has_trailer_crc c) " has_trailer_crc" "" ++ [10] ++
  lit "  checksum_ok   : " ++ pick (checksum_ok c) "true" "false" ++ [10] ++
  lit "  header_crc_ok : " ++ pick (header_checksum_ok c) "true" "false" ++ [10] ++
  trailer_text c ++
  lit "  sections      : " ++ count_text (sections c) ++ [10] ++
  concat (imap dump_section (sections c)) ++
  metadata_table (metadata c).

Example container_summary_sample :
  summarize (MkContainer 1 1 1 true false true true true
    [MkSection kMetadata 7 0 40 10 1 0 true
      [nested_rec kKeyval true [scalar_rec kInt false (-5) 0 0 [] []] [107; 10];
       nested_rec kArray false [scalar_rec kBlob false 0 0 0 [] [1; 2]; scalar_rec kFloat false 0 0 0x3FF8000000000000 [] []] []]]
    [([107; 10], scalar_rec kInt false (-5) 0 0 [] [])]) = lines_text
    [ "BPK1 container"; "  version       : 1"; "  flags         : 0x0001 has_metadata"; "  checksum_ok   : true";
      "  header_crc_ok : true"; "  sections      : 1"; ""; "section[0] METADATA id=7 flags=0x0000 item_count=1 records=2 body_crc_ok=true";
      "  - KEYVAL (group): key='k\x0a'"; "    - INT: -5"; "  - ARRAY: 2 elements"; "    - BLOB: 2 bytes [0x01 0x02]"; "    - FLOAT: 1.5";
      ""; "metadata (1 entries)"; "  k\x0a = -5" ]%string.
Proof. by vm_compute. Qed.

(** ** Its lines *)

(** A record takes a line, and those of its children. *)
Fixpoint record_lines (r : BRecord) : nat :=
  match r with
  | MkRec t g i u f str blob cs k =>
      match t with
      | kArray | kGroup | kKeyval => S (list_sum (map record_lines cs))
      | _ => 1
      end
  end.

Definition section_lines (s : BSection) : nat := 2 + list_sum (map record_lines (sec_records s)).
Definition summary_lines (c : Container) : nat :=
  6 + (if has_trailer_crc c then 1 else 0) + list_sum (map section_lines (sections c)) +
  (if bool_decide (metadata c = []) then 0 else 2 + length (metadata c)).

Lemma inline_tag t : inline (lit (tag_name t)).
Proof. destruct t; by apply (bool_decide_unpack _). Qed.
Lemma inline_section_type t : inline (lit (section_type_name t)).
Proof. destruct t; by apply (bool_decide_unpack _). Qed.

Lemma inline_blob_preview b : inline (blob_preview b).
Proof.
  unfold blob_preview. cbv zeta. inline_auto. apply inline_sep_by; [inline_auto|].
  apply Forall_fmap, Forall_forall. intros x _. apply inline_to_hex.
Qed.
#[export] Hint Resolve inline_tag inline_section_type inline_blob_preview : text.

Lemma inline_metadata v : inline (metadata_text v).
Proof. unfold metadata_text. destruct (r_tag v) eqn:E; inline_auto. Qed.
#[export] Hint Resolve inline_metadata : text.

Lemma dump_record_rows r : forall depth, rows (record_lines r) (dump_record depth r).
Proof.
  induction r as [t g i u f str blob cs k IH] using brecord_nested_ind. intros depth.
  cbn [record_lines dump_record]. destruct t; rows_auto; apply rows_concat;
    (eapply Forall_impl; [exact IH|]; intros r Hr; apply Hr).
Qed.

Lemma section_rows i s : rows (section_lines s) (dump_section i s).
Proof.
  unfold section_lines, dump_section, section_line. cbn [Nat.add].
  apply (rows_app 1); [apply (rows_last []), inline_nil|]. rewrite <- !app_assoc. rows_auto. apply rows_concat, Forall_forall.
  intros r _. apply dump_record_rows.
Qed.

Lemma metadata_rows kv : rows 1 (metadata_line kv).
Proof. unfold metadata_line. rows_auto. Qed.

Lemma metadata_table_rows l : rows (if bool_decide (l = []) then 0 else 2 + length l) (metadata_table l).
Proof.
  unfold metadata_table. case_bool_decide; [apply rows_0|]. apply (rows_app 1); [apply (rows_last []), inline_nil|].
  rows_auto. apply rows_lines, metadata_rows.
Qed.

Lemma trailer_rows c : rows (if has_trailer_crc c then 1 else 0) (trailer_text c).
Proof. unfold trailer_text. apply rows_if. rows_auto. Qed.

Lemma container_summary_rows c : rows (summary_lines c) (summarize c).
Proof.
  unfold summary_lines.
  assert (E : forall t s m, (6 + t + s + m = 5 + (t + (1 + (s + m))))%nat) by lia.
  rewrite E. unfold summarize. cbn [Nat.add]. rows_auto. apply rows_app; [apply trailer_rows|]. rows_auto.
  apply rows_app; [|apply metadata_table_rows]. apply rows_iconcat. intros i s. apply section_rows.
Qed.
