(* ===== verification/CfgSummary.v ===== *)
(** * CfgSummary: the text dump of a document

    The pretty printer of [src/cfgscript/document.cpp] ([summarize] and what it
    calls). The C++ functions append to an output string; each definition here is the
    text it appends. *)

From S2P Require Import Prelude Status Hexdump CfgNumber TextOut CfgLexer CfgParser CfgEval.

Fixpoint dump_value (v : Value) : bytes :=
  match v with
  | VNull => lit "null"
  | VBool b => pick b "true" "false"
  | VInt i => to_string_int i
  | VFloat f => to_string_double f
  | VStr s => quoted s
  | VArray l => lit "[" ++ sep_by (lit ", ") (map dump_value l) ++ lit "]"
  | VObject l => lit "{" ++ sep_by (lit ", ") (map (fun kv => kv.1 ++ lit " = " ++ dump_value kv.2) l) ++ lit "}"
  end.

Definition dump_path (path : list bytes) : bytes := sep_by (lit ".") path.

Fixpoint dump_node (depth : nat) (n : Node) : bytes :=
  indent depth ++
  match n with
  | NAssignment path v => dump_path path ++ lit " = " ++ dump_value v ++ [10]
  | NBlock name label children =>
      name ++ match label with Some l => lit " " ++ quoted l | None => [] end ++ lit " {" ++ [10] ++
      concat (map (dump_node (S depth)) children) ++ indent depth ++ lit "}" ++ [10]
  | NInclude path => lit "include " ++ quoted path ++ [10]
  end.

Definition summarize (doc : Document) : bytes :=
  lit "cfgscript document: " ++ count_text doc ++
  pick (bool_decide (length doc = 1%nat)) " top-level node" " top-level nodes" ++ [10] ++
  concat (map (dump_node 0) doc).

Example document_summary_sample :
  match parse (lit "a.b = [1, { u = null; }]; server " ++ quoted (lit "main") ++ lit " { port = 80 + 1; } include " ++ quoted (lit "x.cfg") ++ lit ";") with
  | Ok doc => summarize doc = lines_text
      ["cfgscript document: 3 top-level nodes"; "a.b = [1, {u = null}]"; "server 'main' {"; "  port = 81"; "}"; "include 'x.cfg'"]%string
  | _ => False
  end.
Proof. by vm_compute. Qed.

(** ** Its lines *)

Fixpoint node_lines (n : Node) : nat :=
  match n with
  | NBlock _ _ children => 2 + list_sum (map node_lines children)
  | _ => 1
  end.

Definition summary_lines (doc : Document) : nat := 1 + list_sum (map node_lines doc).

Lemma inline_word w : is_word w -> inline w.
Proof.
  unfold is_word. destruct w as [|c w]; [done|]. intros [_ H]. eapply Forall_impl; [exact H|]. cbn. intros x Hx.
  unfold is_ident_part, is_ident_start, is_digit in Hx. unfold inline_char.
  repeat match goal with H : (_ || _)%bool = true |- _ => apply orb_prop in H as [H|H] end; reflect_bools; lia.
Qed.

Lemma inline_identifier w : identifier w -> inline w.
Proof. intros [Hw _]. by apply inline_word. Qed.

Lemma inline_float d : inline (to_string_double d).
Proof.
  unfold to_string_double. destruct d as [s|s| |s m e]; cbv zeta; inline_auto.
  - apply inline_digits, dec_bytes_spec, Z.div_pos; [apply micros_nonneg|lia].
  - apply inline_pad, Z.mod_pos_bound. lia.
Qed.
#[export] Hint Resolve inline_identifier inline_float : text.

Lemma inline_value v : value_ok v -> inline (dump_value v).
Proof.
  induction v as [|b|i|f|s|l IH|l IH] using value_nested_ind; intros Hv; cbn [dump_value value_ok] in *; inline_auto.
  - apply fold_right_Forall_iff in Hv. apply inline_sep_by; [inline_auto|]. apply Forall_fmap.
    induction IH as [|x l Hx Hl IHl]; [by apply Forall_nil|]. apply Forall_cons in Hv as [H1 H2].
    apply Forall_cons. split; [by apply Hx|by apply IHl].
  - apply (fold_right_Forall_iff (fun x => identifier x.1 /\ value_ok x.2)) in Hv.
    apply inline_sep_by; [inline_auto|]. apply Forall_fmap.
    induction IH as [|x l Hx Hl IHl]; [by apply Forall_nil|]. apply Forall_cons in Hv as [[H1 H2] H3].
    apply Forall_cons. split; [|by apply IHl]. cbn. inline_auto.
Qed.
#[export] Hint Resolve inline_value : text.

Lemma inline_path p : Forall identifier p -> inline (dump_path p).
Proof. intros Hp. apply inline_sep_by; [inline_auto|]. eapply Forall_impl; [exact Hp|apply inline_identifier]. Qed.
#[export] Hint Resolve inline_path : text.

Lemma inline_label (label : option bytes) : inline match label with Some l => lit " " ++ quoted l | None => [] end.
Proof. destruct label; inline_auto. Qed.
#[export] Hint Resolve inline_label : text.

Lemma node_rows n : node_ok n -> forall depth, rows (node_lines n) (dump_node depth n).
Proof.
  induction n as [p v|name label cs IH|p] using node_nested_ind; intros Hn depth; cbn [node_ok node_lines dump_node] in *.
  - destruct Hn as (_ & Hp & Hv). rows_auto.
  - destruct Hn as (Hname & _ & Hcs). apply fold_right_Forall_iff in Hcs.
    replace (2 + list_sum (map node_lines cs))%nat with (S (list_sum (map node_lines cs) + 1)) by lia.
    rows_auto. apply rows_app; [|rows_auto]. apply rows_concat.
    induction IH as [|x l Hx Hl IHl]; [by apply Forall_nil|]. apply Forall_cons in Hcs as [H1 H2].
    apply Forall_cons. split; [by apply Hx|by apply IHl].
  - rows_auto.
Qed.

Lemma document_summary_rows doc : Forall node_ok doc -> rows (summary_lines doc) (summarize doc).
Proof.
  intros Hd. unfold summary_lines, summarize. cbn [Nat.add]. rows_auto. apply rows_concat.
  eapply Forall_impl; [exact Hd|]. intros n Hn. by apply node_rows.
Qed.

(** The shared escaper leaves double quotes alone, so the text does not determine the
    document: a quote in a string can pass for the end of it. *)
Lemma dump_ambiguous : exists d1 d2 : Document, d1 <> d2 /\ summarize d1 = summarize d2.
Proof.
  exists [NAssignment [lit "a"] (VArray [VStr (lit "x"); VStr (lit "y")])].
  exists [NAssignment [lit "a"] (VArray [VStr (lit "x" ++ [34] ++ lit ", " ++ [34] ++ lit "y")])].
  split; [discriminate|by vm_compute].
Qed.
