(* ===== verification/Bwdump.v ===== *)
(** * Bwdump: the command line tool

    [tools/bwdump.cpp]: read the file named on the command line, decode it with the
    library of the named format, print its text dump. The file system is a parameter:
    [fs path] is the content of a file that can be opened. *)

From S2P Require Import Prelude Status CfgNumber TextOut.
From S2P Require StreamDecoder StreamSummary Reassembler MiniPages MiniOpen MiniSummary BinPack BinSummary CfgEval CfgSummary.

(** ** Reading the input *)

Definition chunk_size : nat := 4096.

(** [while (in) { in.read(buf, 4096); ... }]: a short read sets the fail bit. *)
Fixpoint read_loop (turns : nat) (rest data : bytes) : outcome bytes :=
  match turns with
  | O => NoFuel
  | S turns' =>
      let got := take chunk_size rest in
      let data := data ++ got in
      if (length got <? chunk_size)%nat then Ok data else read_loop turns' (drop chunk_size rest) data
  end.
Definition read_all (input : bytes) : outcome bytes := read_loop (S (length input)) input [].

(** [while ((got = std::fread(chunk, 1, 4096, fp)) > 0)]. *)
Fixpoint fread_loop (turns : nat) (rest data : bytes) : outcome bytes :=
  match turns with
  | O => NoFuel
  | S turns' =>
      let got := take chunk_size rest in
      if (0 <? length got)%nat then fread_loop turns' (drop chunk_size rest) (data ++ got) else Ok data
  end.
Definition fread_all (content : bytes) : outcome bytes := fread_loop (S (length content)) content [].

(** ** The program *)

(** What a run leaves: the exit code and the two output streams. *)
Record run := MkRun { exit_code : Z; out : bytes; err : bytes }.

Definition usage : run :=
  MkRun 2 [] (lit "usage: bwdump <binpack|minidb|cfgscript|streamcodec> <file|->" ++ [10]).

(** A C string ends at the first NUL. *)
Definition c_str (s : bytes) : bytes := fst (split_while (fun c => negb (c =? 0)) s).

(** Decode and summarise; [None] is an unknown format. *)
Definition dump (format data : bytes) : option (outcome bytes) :=
  if bool_decide (format = lit "binpack") then
    Some (let? c := BinPack.parse_default data in Ok (BinSummary.summarize c))
  else if bool_decide (format = lit "minidb") then
    Some (let? db := MiniOpen.open_db false data in Ok (MiniSummary.summarize db))
  else if bool_decide (format = lit "cfgscript") then
    Some (let? doc := CfgEval.parse data in Ok (CfgSummary.summarize doc))
  else if bool_decide (format = lit "streamcodec") then
    Some (let? r := StreamDecoder.decode data in Ok (StreamSummary.summarize r))
  else None.

Definition decode_and_print (format data : bytes) : outcome run :=
  match dump format data with
  | None => Ok usage
  | Some (Ok text) => Ok (MkRun 0 text [])
  | Some (Throw e) => Ok (MkRun 1 [] (lit "decode error: " ++ c_str (lit (pe_what e)) ++ [10]))
  | Some UB => UB
  | Some NoFuel => NoFuel
  end.

(** [args] are the arguments after the program's name. *)
Definition main (fs : bytes -> option bytes) (stdin : bytes) (args : list bytes) : outcome run :=
  match args with
  | [format; path] =>
      if bool_decide (path = lit "-") then
        let? data := read_all stdin in decode_and_print format data
      else match fs path with
           | None => Ok (MkRun 1 [] (lit "error: cannot open " ++ path ++ [10]))
           | Some content => let? data := fread_all content in decode_and_print format data
           end
  | _ => Ok usage
  end.

(** ** The input is read whole *)

Lemma read_loop_all turns : forall rest data, (length rest < turns)%nat -> read_loop turns rest data = Ok (data ++ rest).
Proof.
  induction turns as [|turns IH]; intros rest data Ht; [lia|]. cbn [read_loop]. cbv zeta. rewrite length_take.
  case_bool; reflect_bools.
  - by rewrite take_ge by lia.
  - rewrite IH by (rewrite length_drop; unfold chunk_size in *; lia). by rewrite <- app_assoc, take_drop.
Qed.

Lemma fread_loop_all turns : forall rest data, (length rest < turns)%nat -> fread_loop turns rest data = Ok (data ++ rest).
Proof.
  induction turns as [|turns IH]; intros rest data Ht; [lia|]. cbn [fread_loop]. cbv zeta. rewrite length_take.
  case_bool; reflect_bools.
  - rewrite IH by (rewrite length_drop; unfold chunk_size in *; lia). by rewrite <- app_assoc, take_drop.
  - destruct rest; [by rewrite app_nil_r|cbn in *; lia].
Qed.

Lemma read_all_whole input : read_all input = Ok input.
Proof. apply read_loop_all. lia. Qed.
Lemma fread_all_whole content : fread_all content = Ok content.
Proof. apply fread_loop_all. lia. Qed.

(** ** What a run may do *)

(** The bytes behind a path argument. *)
Definition input_of (fs : bytes -> option bytes) (stdin path : bytes) : option bytes :=
  if bool_decide (path = lit "-") then Some stdin else fs path.

Definition formats : list bytes := [lit "binpack"; lit "minidb"; lit "cfgscript"; lit "streamcodec"].

(** [text] is the summary of what [data] decodes to, in printable lines, as many as
    its structure calls for. *)
Definition dumped (format data text : bytes) : Prop :=
  (format = lit "binpack" /\ exists c, BinPack.parse_default data = Ok c /\
     text = BinSummary.summarize c /\ rows (BinSummary.summary_lines c) text) \/
  (format = lit "minidb" /\ exists db, MiniOpen.open_db false data = Ok db /\
     text = MiniSummary.summarize db /\ rows (MiniSummary.summary_lines db) text) \/
  (format = lit "cfgscript" /\ exists doc, CfgEval.parse data = Ok doc /\
     text = CfgSummary.summarize doc /\ rows (CfgSummary.summary_lines doc) text) \/
  (format = lit "streamcodec" /\ exists r, StreamDecoder.decode data = Ok r /\
     text = StreamSummary.summarize r /\ rows (StreamSummary.summary_lines r) text).

(** The error a decoder throws. *)
Definition rejected (format data : bytes) (e : ParseError) : Prop :=
  (format = lit "binpack" /\ BinPack.parse_default data = Throw e) \/
  (format = lit "minidb" /\ MiniOpen.open_db false data = Throw e) \/
  (format = lit "cfgscript" /\ CfgEval.parse data = Throw e) \/
  (format = lit "streamcodec" /\ StreamDecoder.decode data = Throw e).

(** No RESET of a stream finds more than one open message (see
    [Reassembler.reset_stream_two_open_undefined]). *)
Definition resets_fine (format data : bytes) : Prop :=
  format = lit "streamcodec" -> StreamDecoder.resets_ok Reassembler.new_reassembler (StreamDecoder.trace_of data).1 = true.

Lemma decode_total data : bytes_ok data ->
  StreamDecoder.resets_ok Reassembler.new_reassembler (StreamDecoder.trace_of data).1 = true ->
  oholds (StreamDecoder.decode data) (fun _ => True).
Proof.
  intros Hd Hr. pose proof (StreamDecoder.decode_spec data Hd) as H. destruct (StreamDecoder.trace_of data) as [fs e].
  specialize (H Hr). destruct e; [by rewrite H|]. by destruct H as (r & -> & _).
Qed.

Lemma open_total data : bytes_ok data -> oholds (MiniOpen.open_db false data) (fun _ => True).
Proof.
  intros Hd. pose proof (MiniOpen.open_db_sound false data Hd) as H.
  destruct (MiniPages.header_spec false data) as [[h r]|e| |]; [by eapply oholds_mono|by rewrite H|done..].
Qed.

(** Decoding and summarising in an unknown format is refused; in the others it gives
    the dump, or the error of the decoder. *)
Lemma dump_spec format data : bytes_ok data -> resets_fine format data ->
  match dump format data with
  | None => format ∉ formats
  | Some (Ok text) => dumped format data text
  | Some (Throw e) => rejected format data e
  | Some UB | Some NoFuel => False
  end.
Proof.
  intros Hd Hr. unfold dump, dumped, rejected.
  case_bool_decide as E1; [|case_bool_decide as E2; [|case_bool_decide as E3; [|case_bool_decide as E4]]].
  - pose proof (BinPack.parse_container_sound false 32 data Hd) as H. unfold BinPack.parse_default.
    destruct (BinPack.parse false 32 data) as [c|e| |]; cbn [obind]; [left|by left|done..].
    split; [done|]. exists c. eauto using BinSummary.container_summary_rows.
  - pose proof (open_total data Hd) as H.
    destruct (MiniOpen.open_db false data) as [db|e| |]; cbn [obind]; [right; left|by right; left|done..].
    split; [done|]. exists db. eauto using MiniSummary.store_summary_rows.
  - pose proof (CfgEval.parse_ok data Hd) as H.
    destruct (CfgEval.parse data) as [doc|e| |]; cbn [obind]; [right; right; left|by right; right; left|done..].
    split; [done|]. exists doc. eauto using CfgSummary.document_summary_rows.
  - pose proof (decode_total data Hd (Hr E4)) as H.
    destruct (StreamDecoder.decode data) as [r|e| |]; cbn [obind]; [do 3 right|by do 3 right|done..].
    split; [done|]. exists r. eauto using StreamSummary.stream_summary_rows.
  - unfold formats. rewrite !elem_of_cons, elem_of_nil. tauto.
Qed.

(** ** Claims *)

(** C10. The whole tool: whatever the arguments, the files and the standard input
    hold, a run ends without undefined behaviour (for streamcodec input, provided no
    RESET finds two open messages). It exits 0 with nothing on the error stream and,
    as output, the summary of what the input decodes to: printable lines only, exactly
    as many as the decoded structure calls for, so that no byte of the input breaks a
    line or reaches the terminal as a control character. It exits 1 with a message and
    no output when the file cannot be opened or the decoder rejects its content, and 2
    with the usage line when the arguments name no known format. *)
Theorem bwdump_correct (fs : bytes -> option bytes) (stdin : bytes) (args : list bytes) :
  bytes_ok stdin -> (forall path data, fs path = Some data -> bytes_ok data) ->
  (forall format path data, args = [format; path] -> input_of fs stdin path = Some data -> resets_fine format data) ->
  exists r, main fs stdin args = Ok r /\
    match exit_code r with
    | 0 => err r = [] /\ exists format path data,
        args = [format; path] /\ input_of fs stdin path = Some data /\ dumped format data (out r)
    | 1 => out r = [] /\ exists format path, args = [format; path] /\
        match input_of fs stdin path with
        | None => err r = lit "error: cannot open " ++ path ++ [10]
        | Some data => exists e, rejected format data e /\
            err r = lit "decode error: " ++ c_str (lit (pe_what e)) ++ [10]
        end
    | 2 => out r = [] /\ forall format path, args = [format; path] -> format ∉ formats
    | _ => False
    end.
Proof.
  intros Hin Hfs Hr. destruct args as [|format [|path [|x args]]]; try by (exists usage).
  specialize (Hr format path).
  assert (Hdata : forall data, input_of fs stdin path = Some data -> bytes_ok data).
  { intros data. unfold input_of. case_bool_decide; [by intros [= <-]|apply Hfs]. }
  assert (Hmain : main fs stdin [format; path] =
    match input_of fs stdin path with
    | Some data => decode_and_print format data
    | None => Ok (MkRun 1 [] (lit "error: cannot open " ++ path ++ [10]))
    end).
  { unfold main, input_of. case_bool_decide; [by rewrite read_all_whole|].
    destruct (fs path); [by rewrite fread_all_whole|done]. }
  rewrite Hmain. destruct (input_of fs stdin path) as [data|] eqn:E.
  2: { eexists. split; [done|]. cbn [exit_code out err]. split; [done|]. exists format, path. by rewrite E. }
  pose proof (dump_spec format data (Hdata data eq_refl) (Hr data eq_refl eq_refl)) as H. unfold decode_and_print.
  destruct (dump format data) as [[text|e| |]|]; [..|destruct H|destruct H|].
  - eexists. split; [done|]. split; [done|]. by exists format, path, data.
  - eexists. split; [done|]. split; [done|]. exists format, path. rewrite E. split; [done|]. by exists e.
  - eexists. split; [done|]. split; [done|]. by intros f p [= -> ->].
Qed.

Definition sample_fs (path : bytes) : option bytes :=
  if bool_decide (path = lit "a.cfg") then Some (lit "name = " ++ [34; 92; 110; 34] ++ lit ";") else None.

Lemma bwdump_correct_witness :
  (exists r, main sample_fs [] [lit "cfgscript"; lit "a.cfg"] = Ok r /\ exit_code r = 0 /\ err r = [] /\
    out r = lines_text ["cfgscript document: 1 top-level node"; "name = '\x0a'"]%string /\
    dumped (lit "cfgscript") (lit "name = " ++ [34; 92; 110; 34] ++ lit ";") (out r)) /\
  (exists r, main sample_fs [] [lit "minidb"; lit "a.cfg"] = Ok r /\ exit_code r = 1 /\ out r = []).
Proof.
  assert (Hfs : forall path data, sample_fs path = Some data -> bytes_ok data).
  { intros path data. unfold sample_fs. case_bool_decide; [|done]. intros [= <-]. by apply (bool_decide_unpack _); vm_compute. }
  split.
  - destruct (bwdump_correct sample_fs [] [lit "cfgscript"; lit "a.cfg"]) as (r & E & H); [by apply Forall_nil|exact Hfs| |].
    { intros format path data [= <- <-] _ Hf. discriminate Hf. }
    exists r. split; [exact E|]. assert (E' := E). vm_compute in E'. injection E' as <-. split; [reflexivity|].
    destruct H as (H1 & f & p & d & [= <- <-] & Hi & Hd). split; [exact H1|]. split; [reflexivity|].
    vm_compute in Hi. injection Hi as <-. exact Hd.
  - destruct (bwdump_correct sample_fs [] [lit "minidb"; lit "a.cfg"]) as (r & E & H); [by apply Forall_nil|exact Hfs| |].
    { intros format path data [= <- <-] _ Hf. discriminate Hf. }
    exists r. split; [exact E|]. assert (E' := E). vm_compute in E'. injection E' as <-. split; [reflexivity|].
    exact (proj1 H).
Defined.
