(* ===== verification/Fuzz.v ===== *)
(** * Fuzz: the fuzzing harnesses

    [fuzz/*_fuzzer.cc]: each harness decodes its input, exercises what was decoded and
    swallows the exceptions of malformed input. A harness is only of use when it does
    not fail by itself: what it reports must be a fault of the library. *)

From S2P Require Import Prelude Status BinRecord.
From S2P Require StreamDecoder StreamSummary Reassembler MiniOpen MiniSummary BinPack BinSummary CfgEval CfgSummary Bwdump.

(** [try { ... } catch (const std::exception&) {} return 0;]. *)
Definition swallow {A} (body : outcome A) : outcome Z :=
  match body with
  | Ok _ | Throw _ => Ok 0
  | UB => UB
  | NoFuel => NoFuel
  end.

(** [static_cast<std::size_t>] of a double: the value is truncated, and undefined when
    the result does not fit. *)
Definition size_of_double (bits : Z) : outcome Z :=
  let ex := Z.land (Z.shiftr bits 52) 0x7FF in
  let frac := Z.land bits (Z.ones 52) in
  if ex =? 0x7FF then UB
  else
    let whole := if ex =? 0 then 0 else Z.shiftl (frac + 2 ^ 52) (ex - 1075) in
    if Z.testbit bits 63 && (0 <? whole) then UB
    else if whole <? 2 ^ 64 then Ok whole else UB.

(** ** binpack *)

Fixpoint walk_record (rec : BRecord) : outcome Z :=
  let fix children (acc : Z) (l : list BRecord) : outcome Z :=
    match l with
    | [] => Ok acc
    | child :: l' => let? n := walk_record child in children (u64 (acc + n)) l'
    end in
  let acc := tag_byte (r_tag rec) in
  let acc := u64 (acc + if r_group rec then 1 else 0) in
  match r_tag rec with
  | kInt => Ok (u64 (acc + u64 (r_i64 rec)))
  | kUint => Ok (u64 (acc + r_u64 rec))
  | kFloat => let? n := size_of_double (r_f64 rec) in Ok (u64 (acc + n))
  | kString => Ok (u64 (acc + Z.of_nat (length (r_str rec))))
  | kBlob => Ok (u64 (acc + Z.of_nat (length (r_blob rec))))
  | kKeyval => children (u64 (acc + Z.of_nat (length (r_key rec)))) (r_children rec)
  | kArray | kGroup => children acc (r_children rec)
  end.

Fixpoint walk_records (acc : Z) (l : list BRecord) : outcome Z :=
  match l with
  | [] => Ok acc
  | rec :: l' => let? n := walk_record rec in walk_records (u64 (acc + n)) l'
  end.

Fixpoint walk_sections (acc : Z) (l : list BinPack.BSection) : outcome Z :=
  match l with
  | [] => Ok acc
  | sec :: l' =>
      let acc := u64 (acc + Z.of_nat (length (BinPack.sec_records sec))) in
      let? acc := walk_records acc (BinPack.sec_records sec) in walk_sections acc l'
  end.

Fixpoint walk_metadata (acc : Z) (l : list (bytes * BRecord)) : outcome Z :=
  match l with
  | [] => Ok acc
  | kv :: l' =>
      let acc := u64 (acc + Z.of_nat (length kv.1)) in
      let? n := walk_record kv.2 in walk_metadata (u64 (acc + n)) l'
  end.

Definition fuzz_binpack (data : bytes) : outcome Z :=
  swallow (
    let? c := BinPack.parse_default data in
    let acc := if BinPack.checksum_ok c then 1 else 0 in
    let? acc := walk_sections acc (BinPack.sections c) in
    let? acc := walk_metadata acc (BinPack.metadata c) in
    Ok (length (BinSummary.summarize c), acc)).

(** ** The others *)

Definition fuzz_cfgscript (data : bytes) : outcome Z :=
  swallow (let? doc := CfgEval.parse data in Ok (length (CfgSummary.summarize doc))).

Definition fuzz_minidb (data : bytes) : outcome Z :=
  swallow (let? db := MiniOpen.open_db false data in Ok (length (MiniSummary.summarize db))).

Definition fuzz_streamcodec (data : bytes) : outcome Z :=
  swallow (let? r := StreamDecoder.decode data in Ok (length (StreamSummary.summarize r))).

(** ** When the conversion of a float is defined *)

(** The values of FLOAT records anywhere in a tree. *)
Fixpoint floats (rec : BRecord) : list Z :=
  match r_tag rec with
  | kFloat => [r_f64 rec]
  | kArray | kGroup | kKeyval => concat (map floats (r_children rec))
  | _ => []
  end.
Definition all_floats (c : BinPack.Container) : list Z :=
  concat (map floats (concat (map BinPack.sec_records (BinPack.sections c)))) ++
  concat (map (fun kv => floats kv.2) (BinPack.metadata c)).

Definition fits_size (bits : Z) : bool := match size_of_double bits with Ok _ => true | _ => false end.

(** A result exists exactly when [b]; there is no other outcome than undefinedness. *)
Definition defined_when {A} (b : bool) (m : outcome A) : Prop :=
  if b then exists x, m = Ok x else m = UB.

Lemma defined_bind {A B} b1 b2 (m : outcome A) (k : A -> outcome B) :
  defined_when b1 m -> (forall x, defined_when b2 (k x)) -> defined_when (b1 && b2) (obind m k).
Proof.
  intros Hm Hk. destruct b1; cbn [andb]; [|by rewrite Hm]. destruct Hm as [x ->]. apply Hk.
Qed.

Lemma size_of_double_defined bits : defined_when (fits_size bits) (size_of_double bits).
Proof.
  unfold fits_size. destruct (size_of_double bits) as [n| | |] eqn:E; cbn; eauto; revert E;
    unfold size_of_double; by repeat case_bool.
Qed.

Lemma records_defined l : Forall (fun r => defined_when (forallb fits_size (floats r)) (walk_record r)) l ->
  forall acc, defined_when (forallb fits_size (concat (map floats l))) (walk_records acc l).
Proof.
  induction 1 as [|r l Hr _ IH]; intros acc; [by exists acc|]. cbn [map concat walk_records].
  rewrite forallb_app. by apply defined_bind.
Qed.

Lemma walk_record_defined rec : defined_when (forallb fits_size (floats rec)) (walk_record rec).
Proof.
  induction rec as [t g i u f s b cs k IH] using brecord_nested_ind.
  assert (Hc : forall acc, defined_when (forallb fits_size (concat (map floats cs))) (walk_records acc cs))
    by by apply records_defined.
  assert (Hok : forall n : Z, defined_when true (Ok n)) by (intros n; by exists n).
  destruct t; [apply Hok|apply Hok| |apply Hok|apply Hok|apply Hc|apply Hc|apply Hc].
  rewrite <- (andb_true_r (forallb _ _)). apply defined_bind; [|intros n; apply Hok].
  cbn [floats r_tag r_f64 forallb]. rewrite andb_true_r. apply size_of_double_defined.
Qed.

Lemma walk_records_defined acc l : defined_when (forallb fits_size (concat (map floats l))) (walk_records acc l).
Proof. apply records_defined. apply Forall_true. apply walk_record_defined. Qed.

Lemma walk_sections_defined l : forall acc,
  defined_when (forallb fits_size (concat (map floats (concat (map BinPack.sec_records l))))) (walk_sections acc l).
Proof.
  induction l as [|sec l IH]; intros acc; [by exists acc|]. cbn [map concat walk_sections].
  rewrite map_app, concat_app, forallb_app. apply defined_bind; [apply walk_records_defined|done].
Qed.

Lemma walk_metadata_defined l : forall acc,
  defined_when (forallb fits_size (concat (map (fun kv : bytes * BRecord => floats kv.2) l))) (walk_metadata acc l).
Proof.
  induction l as [|kv l IH]; intros acc; [by exists acc|]. cbn [map concat walk_metadata].
  rewrite forallb_app. apply defined_bind; [apply walk_record_defined|done].
Qed.

Lemma swallow_safe {A} (m : outcome A) : oholds m (fun _ => True) -> swallow m = Ok 0.
Proof. by destruct m. Qed.

Lemma fuzz_binpack_spec data : bytes_ok data ->
  fuzz_binpack data =
  match BinPack.parse_default data with
  | Ok c => if forallb fits_size (all_floats c) then Ok 0 else UB
  | _ => Ok 0
  end.
Proof.
  intros Hd. pose proof (BinPack.parse_container_sound false 32 data Hd) as H.
  change (BinPack.parse false 32 data) with (BinPack.parse_default data) in H. unfold fuzz_binpack.
  destruct (BinPack.parse_default data) as [c|e| |]; [|done|destruct H..]. cbn [obind].
  unfold all_floats. rewrite forallb_app.
  set (body := obind _ _). set (b := (_ && _)%bool).
  assert (Hb : defined_when b body); [|destruct b; [by destruct Hb as [x ->]|by rewrite Hb]].
  apply defined_bind; [apply walk_sections_defined|]. intros acc.
  rewrite <- (andb_true_r (forallb _ _)). apply defined_bind; [apply walk_metadata_defined|]. intros n. by eexists.
Qed.

(** A FLOAT record that holds a NaN, as any input can, takes the harness itself into
    undefined behaviour. *)
Definition nan_input : bytes :=
  match BinPack.build (BinPack.run_builder [BinPack.OpSection BinPack.kData 1 0;
    BinPack.OpRecord (Float 0x7FF8000000000000)]) with Ok d => d | _ => [] end.

Lemma walk_record_float_undefined : fuzz_binpack nan_input = UB /\
  exists c, BinPack.parse_default nan_input = Ok c.
Proof. split; [by vm_compute|]. eexists. vm_compute. reflexivity. Qed.

(** ** The harnesses *)

(** No harness lets an exception escape or runs forever, on any input. Those of
    cfgscript and minidb are without undefined behaviour, that of streamcodec where no
    RESET finds two open messages; that of binpack exactly when the value of every
    FLOAT record of a well-formed input, truncated, is below 2^64 and not negative. *)
Theorem harnesses_exact (data : bytes) : bytes_ok data ->
  fuzz_cfgscript data = Ok 0 /\ fuzz_minidb data = Ok 0 /\
  (StreamDecoder.resets_ok Reassembler.new_reassembler (StreamDecoder.trace_of data).1 = true ->
   fuzz_streamcodec data = Ok 0) /\
  fuzz_binpack data =
    match BinPack.parse_default data with
    | Ok c => if forallb fits_size (all_floats c) then Ok 0 else UB
    | _ => Ok 0
    end.
Proof.
  intros Hd. split_and!.
  - apply swallow_safe. pose proof (CfgEval.parse_ok data Hd) as H. by destruct (CfgEval.parse data).
  - apply swallow_safe. eapply oholds_bind; [by apply Bwdump.open_total|]. done.
  - intros Hr. apply swallow_safe. eapply oholds_bind; [by apply Bwdump.decode_total|]. done.
  - by apply fuzz_binpack_spec.
Qed.

Lemma harnesses_exact_witness :
  fuzz_cfgscript nan_input = Ok 0 /\ fuzz_minidb nan_input = Ok 0 /\ fuzz_streamcodec nan_input = Ok 0 /\
  fuzz_binpack nan_input = UB.
Proof.
  destruct (harnesses_exact nan_input) as (H1 & H2 & H3 & H4); [by apply (bool_decide_unpack _); vm_compute|].
  split; [exact H1|]. split; [exact H2|]. split; [apply H3; by vm_compute|].
  rewrite H4. by vm_compute.
Defined.
